(* ===== verification/_CoqProject ===== *)
-Q . S2P
Prelude.v
PString.v
Title.v
PureLog.v
RbTree.v
RbTreeHeap.v
RbTreeInsert.v
RbTreeDelete.v
RbTreeOps.v
RbTreeSpec.v
RbTreeMap.v
RbTreeWalk.v
RbTreeTheorems.v
TaskQueue.v
TaskQueueProofs.v
TaskQueueThreads.v
TaskQueueTheorems.v
Timer.v
TimerProofs.v
TimerProcess.v
TimerTheorems.v
DLL.v
DList.v
DListProofs.v
DListTheorems.v
Circle.v
CircleProofs.v
CircleLoop.v
Connect.v
ConnectProofs.v
ConnectTheorems.v
Traversal.v
Master.v
Server.v
Ftp.v
FtpProofs.v
FtpTheorems.v
Http.v
SeqLock.v
Locks.v
RefCount.v
ShMem.v
Threads.v
BlockPool.v
Slab.v
SlabProofs.v
SlabSpec.v
SlabTheorems.v
ConnPool.v
Membox.v
MemboxProofs.v
MemboxTheorems.v
MConnPool.v
Buddy.v
BuddyTiles.v
BuddyProofs.v
BuddySpec.v
BuddyHeap.v
BuddyOps.v
BuddyInit.v
BuddyTheorems.v
PConf.v
PConfProofs.v
PConfGrammar.v
PConfFile.v
MongoAdaptor.v
DriverObjects.v
ProcessManager.v
RecordControl.v
Startup.v
ProcessProofs.v
ProcessTheorems.v
ProcessThreads.v
ProcessThreadsProofs.v
ProcessThreadsTheorems.v
ProcessRaces.v
ProcessThreadsTypes.v
PidFile.v
MongoInstance.v
ProcessWitnesses.v
