(* ===== verification/Prelude.v ===== *)
(** * The recorder: a verification development.

    The repository is a recording server.  A master process (src/main.cpp,
    src/process/main_proc.cpp) reads its command line and a configuration
    file, becomes a daemon and runs a worker.  The worker
    (src/app/record_control.cpp) serves four HTTP requests, which start, stop,
    create and delete recordings; src/app/process_manager.cpp keeps the
    recordings as documents of a database, forks one ffmpeg process per
    recording, restarts it when it dies and watches recordings left behind by
    an earlier run.  Below this lie the libraries the program is built from:
    strings, configuration, log, containers, timer, event circle, memory pools.

    ** Conventions

    Stateful C++ is a function of the state in the monad [M]; [None] stands for
    undefined behaviour (a dead or null pointer, an index outside an array, a
    value never set, a missing return value that is used) or for a loop that
    used up its fuel.  [wp m Q s] says that neither happens, so every theorem
    that concludes it, or an equation with [Some], is also one of termination
    and memory safety.  Machine integers are [Z] with the wrap-around written
    out ([u32], [s32], ...).  Pointers are addresses, 0 is NULL, and objects
    that the code shares live in finite maps from addresses.  Calls of the
    operating system and of libraries outside the repository are answered by
    parameters: oracles when the theorem is for every answer, classes with laws
    when the code relies on documented behaviour (MongoDB and JSON,
    libcurl, [malloc]).

    Fuel: a loop's fuel is computed from its input, and the theorems about the
    loop show that it is enough: the length of the text for the parser
    ([PConfGrammar]), the number of nodes for walks of trees and lists, the
    number of events for a round of the timer or of the event chain, the number
    of blocks for the pools, the answers still to come for an FTP transfer.

    ** Files

    - [Prelude]: the monad, weakest preconditions and their tactic, machine
      integers, alignment, visiting a list that the visits shrink.  [DLL]:
      doubly linked lists in memory, for every component that builds them by
      hand (class [Links]).
    - [PString]: src/string/p_string.cpp.
    - [PureLog]: src/log/pure_log.cpp, with its theorems: no descriptor leaks,
      complete records, rotation by size and by time.
    - [RbTree] is src/datas/pure_rbtree.cpp as a pointer program.  [RbTreeHeap]
      (trees in memory, symbolic execution), [RbTreeInsert], [RbTreeDelete],
      [RbTreeOps] (each operation keeps order and balance), [RbTreeSpec] (the
      contract), [RbTreeMap] (the tree as a multimap), [RbTreeWalk]
      (traversal, destruction), [RbTreeTheorems] (the properties).
    - [TaskQueue]: src/datas/task_queue.h, by itself and as a step relation
      with one access to shared memory per step; [TaskQueueProofs],
      [TaskQueueThreads] (the invariant of one producer), [TaskQueueTheorems].
    - [DList], [DListProofs], [DListTheorems]: src/datas/t_dlist.h.
    - [Timer]: src/timer over the red-black tree; [TimerProofs], [TimerProcess]
      (classes [TimerHandler] and [RestlessHandler]: handlers that give a round
      an end, and that give it none), [TimerTheorems].
    - [Circle], [CircleProofs]: the event chain of src/base/base_circle.cpp;
      [CircleLoop]: its set-up and main loop with the lock for the listening
      socket; [Connect], [ConnectProofs], [ConnectTheorems]:
      src/base/base_connect.cpp over the chain and the timer; [Traversal]: the
      traversal of the chain, with handlers that link and unlink events and
      failures that close connections.
    - [Server]: src/base/base_server.cpp: its socket, and the table of circles
      that threads fill, also as a step relation.
    - [BlockPool]: the interface of an allocator of blocks (class, with its
      laws).  [Slab], [SlabProofs], [SlabSpec], [SlabTheorems]:
      src/mem_pool/pure_slab.cpp, an instance of it; [ConnPool]:
      src/base/base_conn_pool.h against the interface.
    - [Membox], [MemboxProofs], [MemboxTheorems]: src/mem_pool/p_membox.h, alone
      (another instance) and as a step relation of threads; [MConnPool]: the pool
      of base_conn_pool.h that has such a box.
    - [Buddy]: src/mem_pool/pure_buddy_mem.cpp.  [BuddyTiles] (how blocks of the
      sizes 2^n tile an area), [BuddyProofs], [BuddySpec] (the contract),
      [BuddyHeap] (headers, lists and bitmaps in memory), [BuddyOps], [BuddyInit],
      [BuddyTheorems].
    - [PConf]: src/conf/pconf.cpp, reader, scanner, recursive-descent parser,
      queries.  [PConfProofs] (totality), [PConfGrammar] (the grammar and the
      tree it assigns to a text), [PConfFile] (reading, queries, round trip).
    - [MongoAdaptor]: src/app/mongo_adaptor.cpp and, as classes with laws, the
      libraries behind it; [MongoInstance] is an instance of them.
      [DriverObjects]: the driver's objects that the operations make and
      destroy.  [ProcessManager]: src/app/process_manager.cpp; [RecordControl]:
      src/app/record_control.cpp; [ProcessProofs], [ProcessTheorems].
    - [ProcessThreads]: the same operations as sequences of actions, and the
      process as its three threads (HTTP, queue, monitor) with the SIGCHLD
      handler on top of any, whose actions interleave.  [ProcessThreadsProofs]:
      a sequence in a row is the sequential operation; rely-guarantee
      reasoning, proved once for all invariants.  [ProcessThreadsTheorems]
      (streams stay unique), [ProcessThreadsTypes] (type safety),
      [ProcessRaces] (two histories that go wrong), [ProcessWitnesses].
    - [Startup]: src/main.cpp, src/usage.cpp, src/global_conf.cpp: from the
      command line to the settings the worker serves with.  [Title]: the
      process title of src/global_conf.cpp, in the memory it is written to.
      [PidFile]: the pid file of src/main.cpp, as a step relation of processes
      that start and are killed.
    - [Master]: src/process/main_proc.cpp with src/signal/p_signals.cpp: the
      master's loop as a step relation with signals and dying children.
    - [Ftp]: src/ftp/ftp_client.cpp over descriptors with what is still to come
      from them; [FtpProofs] (single calls, the two loops), [FtpTheorems].
    - [Http]: src/http/http_client.cpp against a class of what libcurl documents.
    - [SeqLock]: src/lock/seqlock.h as steps of writers and a reader; [Locks]:
      the other locks of src/lock; [RefCount]: src/ref/refc.cpp; [ShMem]:
      src/shmem/p_shmem.cpp; [Threads]: src/thread/ppthread.cpp, threads spread
      over processors.

    ** What the theorems show

    Recording: a stream is never recorded twice, however requests, monitor
    rounds and deaths interleave; on well-formed data no thread crashes and the
    data stay well formed; stopping a recording removes its document before
    its process is killed, so that no restart follows, unless a handler had
    found the document before; death restarts exactly the process that died,
    unless it comes before its document is written; each request is answered
    once; documents written are read back; every query leaves a cursor behind.
    Configuration: the parser ends on every ASCII file, builds the tree of the
    grammar, and names are found with their values; where the code is wrong
    (bytes above 127, files over 257 buffers) that is proved too.
    Containers: each refines its abstract type under every sequence of
    operations: the red-black tree a multimap, the timer a list in the order of
    times, the linked list a sequence, the queue a bounded list, also under
    threads.  Events: rounds of the timer and of the chain visit what they
    should, once, while handlers add and remove; a handler that makes its event
    due again keeps the round from ending; idle connections are closed.
    Memory: the slab and the buddy allocator give out disjoint blocks of the
    size that was asked for and take them back into what they came from, the
    box hands a block to one thread at a time; requests that wrap around are
    shown to get too little.  Processes: the master keeps one worker, up to the
    one point where a death is forgotten; setting the title wipes the
    environment.  Circles: the lock for the listening socket shuts nobody
    out, unless a member that the constructor forgets does.
    Clients: files go up and come down by FTP unchanged, listings are complete,
    and what is left behind after a failure; an HTTP response is what libcurl
    received.  A reader of the sequence lock never accepts a torn read from one
    writer, and does from two; threads are spread evenly.  A counted object
    lives as long as references to it; one process at a time has the pid file,
    and its pid is read back.

    ** Not modelled

    Calls without effect on the program's own state (printing, pthread
    attributes); libevent, curl, jsoncpp, the MongoDB driver and
    CPure_epoll, which are outside the repository; sleeping between the
    turns of the recorder's loops; a second recorder on the same database.
    The queue's reads without its mutex are taken as atomic.  After [fork] the
    model goes on in the process the answer belongs to; the destructor of
    CRecordCtl, which frees pointers it does not own, is left out.
    Also not modelled: src/mem_pool/pure_slab_t.h and pure_slab_pool.cpp, which
    do not compile; what a worker class of the master would do, since the
    repository has none; the branch of main that [#if 1] compiles out, but for
    the pid file; the manual test driver src/app/test.cpp. *)

From Stdlib Require Export ZArith Lia.
From stdpp Require Export base tactics numbers list gmap strings option.

Local Open Scope Z_scope.

(** ** Partial state computations

    C++ code is modelled by state-passing functions that may get stuck:
    [None] stands for undefined behaviour (a dereference outside live
    memory, an indeterminate read) or for a loop that ran out of fuel, so a
    theorem that concludes [m s = Some (a, s')] says that the code neither
    touches dead memory nor diverges. *)

Definition M (S A : Type) : Type := S → option (A * S).

#[export] Instance M_ret {S} : MRet (M S) := λ A a s, Some (a, s).
#[export] Instance M_bind {S} : MBind (M S) := λ A B k m s,
  match m s with
  | Some (a, s') => k a s'
  | None => None
  end.

Definition get {S} : M S S := λ s, Some (s, s).
Definition put {S} (s : S) : M S () := λ _, Some ((), s).
Definition modify {S} (f : S → S) : M S () := λ s, Some ((), f s).
Definition gets {S A} (f : S → A) : M S A := λ s, Some (f s, s).
Definition stuck {S A} : M S A := λ _, None.
Definition lift {S A} (o : option A) : M S A := λ s, (λ a, (a, s)) <$> o.

Definition when {S} (b : bool) (m : M S ()) : M S () := if b then m else mret ().

Section monad_laws.
Context {S : Type}.

Lemma bind_Some {A B} (m : M S A) (k : A → M S B) s a s' :
  m s = Some (a, s') → (m ≫= k) s = k a s'.
Proof. intros H. unfold mbind, M_bind. by rewrite H. Qed.

Lemma bind_inv {A B} (m : M S A) (k : A → M S B) s b s2 :
  (m ≫= k) s = Some (b, s2) →
  ∃ a s1, m s = Some (a, s1) ∧ k a s1 = Some (b, s2).
Proof.
  unfold mbind, M_bind. destruct (m s) as [[a s1]|] eqn:E; [|done]. eauto.
Qed.

Lemma bind_assoc {A B C} (m : M S A) (f : A → M S B) (g : B → M S C) s :
  ((m ≫= f) ≫= g) s = (m ≫= (λ a, f a ≫= g)) s.
Proof. unfold mbind, M_bind. by destruct (m s) as [[? ?]|]. Qed.
End monad_laws.

(** ** Total weakest preconditions

    [wp m Q s]: from [s] the computation [m] is defined and its result and
    final state satisfy [Q]. *)
Definition wp {S A} (m : M S A) (Q : A → S → Prop) (s : S) : Prop :=
  match m s with Some (a, s') => Q a s' | None => False end.

Section wp_rules.
Context {S : Type}.

Lemma wp_intro {A} (m : M S A) (Q : A → S → Prop) s a s' :
  m s = Some (a, s') → Q a s' → wp m Q s.
Proof. unfold wp. by intros ->. Qed.

Lemma wp_elim {A} (m : M S A) (Q : A → S → Prop) s :
  wp m Q s → ∃ a s', m s = Some (a, s') ∧ Q a s'.
Proof. unfold wp. destruct (m s) as [[a s']|]; [eauto|done]. Qed.

Lemma wp_bind {A B} (m : M S A) (k : A → M S B) Q s :
  wp m (λ a, wp (k a) Q) s → wp (m ≫= k) Q s.
Proof. unfold wp, mbind, M_bind. by destruct (m s) as [[a s']|]. Qed.

Lemma wp_bind_inv {A B} (m : M S A) (k : A → M S B) Q s :
  wp (m ≫= k) Q s → wp m (λ a, wp (k a) Q) s.
Proof. unfold wp, mbind, M_bind. by destruct (m s) as [[a s']|]. Qed.

Lemma wp_mono {A} (m : M S A) (Q Q' : A → S → Prop) s :
  wp m Q s → (∀ a s', Q a s' → Q' a s') → wp m Q' s.
Proof. unfold wp. destruct (m s) as [[a s']|]; auto. Qed.

Lemma wp_ret {A} (a : A) (Q : A → S → Prop) s : Q a s → wp (mret a) Q s.
Proof. done. Qed.

Lemma wp_get (Q : S → S → Prop) s : Q s s → wp get Q s.
Proof. done. Qed.

Lemma wp_gets {A} (f : S → A) (Q : A → S → Prop) s : Q (f s) s → wp (gets f) Q s.
Proof. done. Qed.

Lemma wp_modify (f : S → S) (Q : () → S → Prop) s :
  Q () (f s) → wp (modify f) Q s.
Proof. done. Qed.

Lemma wp_lift {A} (o : option A) (Q : A → S → Prop) s a :
  o = Some a → Q a s → wp (lift o) Q s.
Proof. by intros ->. Qed.
End wp_rules.

(** One step of symbolic execution at the head of a [wp] goal. *)
Ltac wp_step :=
  lazymatch goal with
  | |- wp (mbind _ _) _ _ => apply wp_bind
  | |- wp (mret _) _ _ => apply wp_ret
  | |- wp get _ _ => apply wp_get
  | |- wp (gets _) _ _ => apply wp_gets
  | |- wp (modify _) _ _ => apply wp_modify
  | |- wp (let '(_, _) := ?x in _) _ _ => destruct x
  end; cbv beta.
Ltac wp_steps := repeat wp_step.

(** ** Machine integers *)

Definition u8 (z : Z) : Z := z `mod` 2 ^ 8.
Definition u32 (z : Z) : Z := z `mod` 2 ^ 32.
Definition u64 (z : Z) : Z := z `mod` 2 ^ 64.

(** The two's complement value of the low 32 bits of [z]. *)
Definition s32 (z : Z) : Z := (z + 2 ^ 31) `mod` 2 ^ 32 - 2 ^ 31.

Lemma u32_range z : 0 ≤ u32 z < 2 ^ 32.
Proof. apply Z.mod_pos_bound. lia. Qed.
Lemma u32_small z : 0 ≤ z < 2 ^ 32 → u32 z = z.
Proof. apply Z.mod_small. Qed.
Lemma u64_range z : 0 ≤ u64 z < 2 ^ 64.
Proof. apply Z.mod_pos_bound. lia. Qed.
Lemma u64_small z : 0 ≤ z < 2 ^ 64 → u64 z = z.
Proof. apply Z.mod_small. Qed.
Lemma s32_range z : - 2 ^ 31 ≤ s32 z < 2 ^ 31.
Proof.
  unfold s32. pose proof (Z.mod_pos_bound (z + 2 ^ 31) (2 ^ 32)). lia.
Qed.
Lemma s32_small z : - 2 ^ 31 ≤ z < 2 ^ 31 → s32 z = z.
Proof. intros H. unfold s32. rewrite Z.mod_small; lia. Qed.
Lemma u32_add_l a b : u32 (u32 a + b) = u32 (a + b).
Proof. unfold u32. by rewrite Zplus_mod_idemp_l. Qed.
Lemma u32_sub_l a b : u32 (u32 a - b) = u32 (a - b).
Proof. unfold u32. by rewrite Zminus_mod_idemp_l. Qed.
Lemma u32_sub_wrap a b : 0 ≤ a < b → b ≤ 2 ^ 32 → u32 (a - b) = 2 ^ 32 + a - b.
Proof.
  intros ??. unfold u32. rewrite <- (Z_mod_plus_full _ 1), Z.mod_small; lia.
Qed.

(** [pure_align_u32] and [pure_align_ptr]: the same macro text, at 32 and at
    64 bits. *)
Definition pure_align_u32 (p a : Z) : Z :=
  Z.land (u32 (p + u32 (a - 1))) (u32 (Z.lnot (u32 (a - 1)))).
Definition pure_align_ptr (p a : Z) : Z :=
  Z.land (u64 (p + u64 (a - 1))) (u64 (Z.lnot (u64 (a - 1)))).

(** Clearing the low [k] bits of a [w]-bit word rounds down to a multiple of
    [2 ^ k]. *)
Lemma land_clear_low w k x :
  0 ≤ k ≤ w → 0 ≤ x < 2 ^ w →
  Z.land x (Z.lnot (2 ^ k - 1) `mod` 2 ^ w) = x - x `mod` 2 ^ k.
Proof.
  intros Hk Hx.
  replace (2 ^ k - 1) with (Z.ones k) by (rewrite Z.ones_equiv; lia).
  rewrite <- Z.land_ones, (Z.land_comm (Z.lnot _)), Z.land_assoc by lia.
  rewrite Z.land_ones, (Z.mod_small x) by lia.
  rewrite <- Z.ldiff_land, Z.ldiff_ones_r, Z.shiftl_mul_pow2, Z.shiftr_div_pow2
    by lia.
  pose proof (Z_div_mod_eq_full x (2 ^ k)). lia.
Qed.

(** Rounding up to a multiple of [2 ^ k], and what the macros compute while
    the sum does not wrap. *)
Definition round_up (p a : Z) : Z := (p + a - 1) - (p + a - 1) `mod` a.

Lemma round_up_spec p a :
  0 < a → p ≤ round_up p a < p + a ∧ round_up p a `mod` a = 0.
Proof.
  intros Ha. unfold round_up.
  pose proof (Z.mod_pos_bound (p + a - 1) a Ha).
  split; [lia|].
  rewrite Zminus_mod_idemp_r, Z.sub_diag. by apply Z.mod_0_l; lia.
Qed.

Lemma round_up_id p a : 0 < a → p `mod` a = 0 → round_up p a = p.
Proof.
  intros Ha Hp. unfold round_up.
  pose proof (Z_div_mod_eq_full p a) as E. rewrite Hp in E.
  replace (p + a - 1) with ((a - 1) + (p `div` a) * a) by lia.
  rewrite Z_mod_plus_full, Z.mod_small by lia. lia.
Qed.

Lemma align_spec w k p :
  0 ≤ k < w → 0 ≤ p → p + 2 ^ k - 1 < 2 ^ w →
  Z.land ((p + (2 ^ k - 1) `mod` 2 ^ w) `mod` 2 ^ w)
         (Z.lnot ((2 ^ k - 1) `mod` 2 ^ w) `mod` 2 ^ w)
  = round_up p (2 ^ k).
Proof.
  intros Hk Hp Hw.
  assert (0 < 2 ^ k < 2 ^ w)
    by (split; [apply Z.pow_pos_nonneg|apply Z.pow_lt_mono_r]; lia).
  rewrite (Z.mod_small (2 ^ k - 1)), (Z.mod_small (p + _)) by lia.
  rewrite land_clear_low by lia.
  unfold round_up. f_equal; [lia|]. f_equal. lia.
Qed.

Lemma pure_align_u32_spec k p :
  0 ≤ k < 32 → 0 ≤ p → p + 2 ^ k - 1 < 2 ^ 32 →
  pure_align_u32 p (2 ^ k) = round_up p (2 ^ k).
Proof. apply (align_spec 32). Qed.
Lemma pure_align_ptr_spec k p :
  0 ≤ k < 64 → 0 ≤ p → p + 2 ^ k - 1 < 2 ^ 64 →
  pure_align_ptr p (2 ^ k) = round_up p (2 ^ k).
Proof. apply (align_spec 64). Qed.

(** ** Visiting the elements of a list while the visit of one may take others
    out: the rounds of the timer and of the event chain *)

Section visit.
Context {E K : Type} `{Countable K} (key : E → K) (kills : K → gset K).

(** What is left to visit after an element with key [k]. *)
Definition spared (k : K) (l : list E) : list E := filter (λ e, key e ∉ kills k) l.

Fixpoint visit (n : nat) (l : list E) : list K :=
  match n, l with
  | S n, e :: l => key e :: visit n (spared (key e) l)
  | _, _ => []
  end.
(** The keys in the order of the visits. *)
Definition visited (l : list E) : list K := visit (length l) l.

Lemma spared_length k l : (length (spared k l) ≤ length l)%nat.
Proof. apply length_filter. Qed.

Lemma visit_fuel n : ∀ l, (length l ≤ n)%nat → visit n l = visited l.
Proof.
  unfold visited. induction n as [n IH] using lt_wf_ind. intros [|e l] Hn; [by destruct n|].
  destruct n as [|n]; simpl in *; [lia|]. f_equal. pose proof (spared_length (key e) l) as Hf.
  rewrite (IH n) by lia. symmetry. apply IH; lia.
Qed.

Lemma visited_cons e l : visited (e :: l) = key e :: visited (spared (key e) l).
Proof. unfold visited at 1. simpl. f_equal. apply visit_fuel, spared_length. Qed.
End visit.

(** Visits that take no other element out: all of them, in order. *)
Lemma visited_all {E K} `{Countable K} (key : E → K) l : visited key (λ _, ∅) l = key <$> l.
Proof.
  induction l as [|e l IH]; [done|]. rewrite visited_cons. replace (spared key (λ _, ∅) (key e) l) with l; [by rewrite IH|].
  unfold spared. clear IH. induction l as [|e' l IH]; [done|]. rewrite filter_cons_True by set_solver. f_equal. exact IH.
Qed.
