(* ===== verification/PString.v ===== *)
(** * src/string: bounded string copies, integer parsing, [rn_snprintf].

    A [char] array is the list of its bytes; an access outside the array is
    [None].  [c_str] reads an array as the C string it holds. *)

From S2P Require Import Prelude.
From Stdlib Require Export Ascii.

Local Open Scope Z_scope.

Abbreviation NUL := "000"%char (only parsing).

#[export] Instance ascii_eq_dec : EqDecision ascii := ascii_dec.

(** The bytes before the first NUL. *)
Fixpoint c_str (a : list ascii) : list ascii :=
  match a with
  | [] => []
  | c :: a' => if bool_decide (c = NUL) then [] else c :: c_str a'
  end.

Definition strlen (a : list ascii) : Z := Z.of_nat (length (c_str a)).

(** C string literals and [std::string] contents as byte lists. *)
Definition bytes (s : string) : list ascii := String.list_ascii_of_string s.

(** [strncpy]: the [n] bytes it stores, or [None] when it reads past [src]. *)
Fixpoint strncpy_bytes (src : list ascii) (n : nat) : option (list ascii) :=
  match n, src with
  | O, _ => Some []
  | S _, [] => None
  | S n', c :: src' =>
      if bool_decide (c = NUL) then Some (replicate n NUL)
      else cons c <$> strncpy_bytes src' n'
  end.

(** Storing bytes at the front of an array, and one byte at an index. *)
Definition store (dest b : list ascii) : option (list ascii) :=
  if decide (length b ≤ length dest)%nat then Some (b ++ drop (length b) dest)
  else None.

Definition set_char (dest : list ascii) (i : Z) (c : ascii) : option (list ascii) :=
  if decide (0 ≤ i < Z.of_nat (length dest)) then Some (<[Z.to_nat i := c]> dest)
  else None.

Definition strncpy (dest src : list ascii) (n : Z) : option (list ascii) :=
  if decide (u64 n ≤ Z.of_nat (length dest)) then
    b ← strncpy_bytes src (Z.to_nat (u64 n)); store dest b
  else None.

Definition rc_strncpy (dest : list ascii) (d_l : Z) (src : list ascii) (s_l : Z)
    : option (list ascii) :=
  if s_l <? d_l - 1 then
    dest ← strncpy dest src s_l;
    set_char dest s_l NUL
  else
    dest ← strncpy dest src (d_l - 1);
    set_char dest (d_l - 1) NUL.

Definition rn_strncpy (dest : list ascii) (d_l : Z) (src : list ascii) (s_l : Z)
    : option (list ascii * Z) :=
  if s_l <? d_l - 1 then
    dest ← strncpy dest src (s_l - 1);
    dest ← set_char dest (s_l - 1) NUL;
    Some (dest, s_l - 1)
  else
    dest ← strncpy dest src (d_l - 1);
    dest ← set_char dest (d_l - 1) NUL;
    Some (dest, d_l - 1).

(** [vsnprintf(buf, n, ...)] of a formatted text [s]: the characters stored
    before the NUL, and the length the whole text would have had. *)
Definition vsnprintf (n : Z) (s : list ascii) : list ascii * Z :=
  (take (Z.to_nat (n - 1)) s, Z.of_nat (length s)).

Definition rn_snprintf (n : Z) (s : list ascii) : list ascii * Z :=
  let '(out, cnt) := vsnprintf n s in
  if cnt <? 0 then (out, cnt)
  else if cnt <? n then (out, cnt)
  else (out, n).

Definition digit (c : ascii) : Z := Z.of_nat (nat_of_ascii c) - 48.
Definition is_digit (c : ascii) : bool := (0 <=? digit c) && (digit c <=? 9).

(** What [atoi] and [sscanf] read: blanks, digits. *)
Fixpoint skip_blanks (s : list ascii) : list ascii :=
  match s with
  | c :: s' => if decide (c = " "%char ∨ c = "009"%char ∨ c = "010"%char ∨ c = "011"%char
                          ∨ c = "012"%char ∨ c = "013"%char) then skip_blanks s' else s
  | [] => []
  end.
Fixpoint digits_value (s : list ascii) (acc : Z) : Z :=
  match s with
  | c :: s' => if is_digit c then digits_value s' (acc * 10 + digit c) else acc
  | [] => acc
  end.
(** [%d] of [sscanf]: blanks, a sign, digits; what it reads and the rest. *)
Fixpoint skip_digits (s : list ascii) : list ascii :=
  match s with c :: s' => if is_digit c then skip_digits s' else s | [] => [] end.
Definition scan_digits (s : list ascii) : option (Z * list ascii) :=
  match s with c :: _ => if is_digit c then Some (digits_value s 0, skip_digits s) else None | [] => None end.
Definition scan_d (s : list ascii) : option (Z * list ascii) :=
  match skip_blanks s with
  | c :: s' =>
      if decide (c = "-"%char) then prod_map Z.opp id <$> scan_digits s'
      else if decide (c = "+"%char) then scan_digits s' else scan_digits (c :: s')
  | [] => None
  end.

Definition INT_MAX : Z := 2 ^ 31 - 1.

(** The loop of [p_atoof]; signed overflow is undefined. *)
Fixpoint p_atoof_loop (line : list ascii) (n : nat) (value : Z) : option Z :=
  match n, line with
  | O, _ => Some (if value <? 0 then -1 else value)
  | S _, [] => None
  | S n', c :: line' =>
      if negb (is_digit c) then Some (-1)
      else if value * 10 + digit c <=? INT_MAX
           then p_atoof_loop line' n' (value * 10 + digit c)
           else None
  end.

Definition p_atoof (line : list ascii) (n : nat) : option Z :=
  match n with
  | O => Some (-1)
  | S _ => p_atoof_loop line n 0
  end.

(** ** Lemmas *)

Lemma c_str_app_nul a b : NUL ∉ a → c_str (a ++ NUL :: b) = a.
Proof.
  induction a as [|c a IH]; intros H; simpl.
  - done.
  - apply not_elem_of_cons in H as [? ?].
    rewrite bool_decide_eq_false_2 by congruence. by rewrite IH.
Qed.

Lemma c_str_no_nul a : NUL ∉ c_str a.
Proof.
  induction a as [|c a IH]; simpl; [apply not_elem_of_nil|].
  case_bool_decide; [apply not_elem_of_nil|].
  apply not_elem_of_cons. split; congruence.
Qed.

Lemma strncpy_bytes_length src n b :
  strncpy_bytes src n = Some b → length b = n.
Proof.
  revert src b. induction n as [|n IH]; intros [|c src] b; simpl; try congruence.
  - by intros [= <-].
  - by intros [= <-].
  - case_bool_decide.
    + intros [= <-]. simpl. by rewrite length_replicate.
    + destruct (strncpy_bytes src n) as [b'|] eqn:E; [|done].
      intros [= <-]. simpl. f_equal. eauto.
Qed.

(** Copying [n] readable characters. *)
Lemma strncpy_bytes_take src n :
  NUL ∉ take n src → (n ≤ length src)%nat →
  strncpy_bytes src n = Some (take n src).
Proof.
  revert src. induction n as [|n IH]; intros [|c src] Hn Hl; simpl in *; try done.
  - lia.
  - apply not_elem_of_cons in Hn as [? ?].
    rewrite bool_decide_eq_false_2 by congruence. rewrite IH by (done || lia). done.
Qed.

(** A string shorter than [n] is copied whole and padded with NULs. *)
Lemma strncpy_bytes_pad s rest n :
  NUL ∉ s → (length s < n)%nat →
  strncpy_bytes (s ++ NUL :: rest) n = Some (s ++ replicate (n - length s) NUL).
Proof.
  revert n. induction s as [|c s IH]; intros [|n] Hs Hl; simpl in *; try lia.
  - done.
  - apply not_elem_of_cons in Hs as [? ?].
    rewrite bool_decide_eq_false_2 by congruence.
    rewrite IH by (done || lia). done.
Qed.

Lemma store_spec dest b :
  (length b ≤ length dest)%nat → store dest b = Some (b ++ drop (length b) dest).
Proof. intros. unfold store. by rewrite decide_True. Qed.

Lemma set_char_app (a rest : list ascii) c d :
  set_char (a ++ c :: rest) (Z.of_nat (length a)) d = Some (a ++ d :: rest).
Proof.
  unfold set_char. rewrite decide_True by (rewrite length_app; simpl; lia).
  by rewrite Nat2Z.id, insert_app_r_alt, Nat.sub_diag by lia.
Qed.

(** The common tail of the two copies: [k] characters and the terminator. *)
Lemma copy_terminate dest src k :
  (k < length dest)%nat → Z.of_nat k < 2 ^ 64 →
  NUL ∉ take k src → (k ≤ length src)%nat →
  (dest ← strncpy dest src (Z.of_nat k); set_char dest (Z.of_nat k) NUL)
  = Some (take k src ++ NUL :: drop (S k) dest).
Proof.
  intros Hd Hk Hn Hs. unfold strncpy.
  rewrite u64_small, decide_True, Nat2Z.id by lia.
  rewrite strncpy_bytes_take by done. simpl.
  assert (length (take k src) = k) as Hlen by (rewrite length_take; lia).
  rewrite store_spec, Hlen by lia. simpl.
  destruct (lookup_lt_is_Some_2 dest k Hd) as [c Hc].
  rewrite (drop_S dest c k Hc).
  pose proof (set_char_app (take k src) (drop (S k) dest) c NUL) as E.
  by rewrite Hlen in E.
Qed.

(** [rc_strncpy] of [s_l] readable characters stores the first
    [k = min s_l (d_l - 1)] of them and a terminator. *)
Lemma rc_strncpy_spec dest d_l src s_l k :
  1 ≤ d_l ≤ Z.of_nat (length dest) → d_l < 2 ^ 31 →
  Z.of_nat k = s_l `min` (d_l - 1) →
  NUL ∉ take k src → (k ≤ length src)%nat →
  rc_strncpy dest d_l src s_l = Some (take k src ++ NUL :: drop (S k) dest).
Proof.
  intros Hd Hd' Hk Hn Hl. unfold rc_strncpy.
  destruct (Z.ltb_spec s_l (d_l - 1)) as [E|E].
  - replace s_l with (Z.of_nat k) by lia. apply copy_terminate; done || lia.
  - replace (d_l - 1) with (Z.of_nat k) by lia. apply copy_terminate; done || lia.
Qed.

Lemma rc_strncpy_c_str dest d_l src s_l k :
  1 ≤ d_l ≤ Z.of_nat (length dest) → d_l < 2 ^ 31 →
  Z.of_nat k = s_l `min` (d_l - 1) →
  NUL ∉ take k src → (k ≤ length src)%nat →
  ∃ dest', rc_strncpy dest d_l src s_l = Some dest' ∧
    length dest' = length dest ∧ c_str dest' = take k src.
Proof.
  intros Hd Hd' Hk Hn Hl. eexists. split; [by apply rc_strncpy_spec|]. split.
  - rewrite length_app, length_take. simpl. rewrite length_drop. lia.
  - by apply c_str_app_nul.
Qed.

(** The copies are defined whenever the source is long enough. *)
Lemma strncpy_bytes_total src n :
  (n ≤ length src)%nat → ∃ b, strncpy_bytes src n = Some b.
Proof.
  revert src. induction n as [|n IH]; intros [|c src] Hl; simpl in *; eauto; [lia|].
  case_bool_decide; [eauto|].
  destruct (IH src) as [b ->]; [lia|]. simpl. eauto.
Qed.

Lemma store_length dest b dest' :
  store dest b = Some dest' → length dest' = length dest.
Proof.
  unfold store. case_decide; [|done]. intros [= <-].
  rewrite length_app, length_drop. lia.
Qed.

Lemma set_char_length dest i c dest' :
  set_char dest i c = Some dest' → length dest' = length dest.
Proof. unfold set_char. case_decide; [|done]. intros [= <-]. apply length_insert. Qed.

Lemma rc_strncpy_total dest d_l src s_l :
  1 ≤ d_l ≤ Z.of_nat (length dest) → d_l < 2 ^ 31 → 0 ≤ s_l →
  s_l `min` (d_l - 1) ≤ Z.of_nat (length src) →
  ∃ dest', rc_strncpy dest d_l src s_l = Some dest' ∧
    length dest' = length dest.
Proof.
  intros Hd Hd' Hs Hl.
  assert (∀ k, 0 ≤ k < d_l → k ≤ Z.of_nat (length src) →
    ∃ dest', (dest ← strncpy dest src k; set_char dest k NUL) = Some dest' ∧
      length dest' = length dest) as Hk.
  { intros k Hk Hks. unfold strncpy. rewrite u64_small, decide_True by lia.
    destruct (strncpy_bytes_total src (Z.to_nat k)) as [b Hb]; [lia|].
    rewrite Hb. simpl. pose proof (strncpy_bytes_length _ _ _ Hb).
    rewrite store_spec by lia. simpl. unfold set_char.
    assert (length (b ++ drop (length b) dest) = length dest)
      by (rewrite length_app, length_drop; lia).
    rewrite decide_True by lia. eexists. split; [done|]. by rewrite length_insert. }
  unfold rc_strncpy. destruct (Z.ltb_spec s_l (d_l - 1)); apply Hk; lia.
Qed.

(** ** p_atoof and rn_snprintf *)

(** The value of a string of decimal digits, most significant first. *)
Definition decimal (acc : Z) (ds : list ascii) : Z :=
  fold_left (λ v c, v * 10 + digit c) ds acc.

Lemma is_digit_range c : is_digit c = true → 0 ≤ digit c ≤ 9.
Proof. unfold is_digit. lia. Qed.

Lemma decimal_ge acc ds :
  0 ≤ acc → Forall (λ c, is_digit c = true) ds → acc ≤ decimal acc ds.
Proof.
  intros Ha Hd. revert acc Ha. induction Hd as [|c ds Hc _ IH]; intros acc Ha; [done|].
  apply is_digit_range in Hc. specialize (IH (acc * 10 + digit c)). simpl. lia.
Qed.

Lemma p_atoof_loop_spec ds rest acc :
  0 ≤ acc → Forall (λ c, is_digit c = true) ds → decimal acc ds ≤ INT_MAX →
  p_atoof_loop (ds ++ rest) (length ds) acc = Some (decimal acc ds).
Proof.
  intros Ha Hd. revert acc Ha. induction Hd as [|c ds Hc Hd IH]; intros acc Ha Hm; simpl in *.
  - by destruct rest; simpl; (destruct (Z.ltb_spec acc 0); [lia|]).
  - rewrite Hc. simpl. apply is_digit_range in Hc.
    pose proof (decimal_ge (acc * 10 + digit c) ds ltac:(lia) Hd).
    destruct (Z.leb_spec (acc * 10 + digit c) INT_MAX); [|unfold decimal in *; lia].
    apply IH; [lia|done].
Qed.

Lemma p_atoof_loop_reject ds c rest n acc :
  0 ≤ acc → Forall (λ c, is_digit c = true) ds → decimal acc ds ≤ INT_MAX →
  is_digit c = false →
  p_atoof_loop (ds ++ c :: rest) (length ds + S n) acc = Some (-1).
Proof.
  intros Ha Hd. revert acc Ha. induction Hd as [|d ds Hc Hd IH]; intros acc Ha Hm Hn; simpl in *.
  - by rewrite Hn.
  - rewrite Hc. simpl. apply is_digit_range in Hc.
    pose proof (decimal_ge (acc * 10 + digit d) ds ltac:(lia) Hd).
    destruct (Z.leb_spec (acc * 10 + digit d) INT_MAX); [|unfold decimal in *; lia].
    apply IH; [lia|done|done].
Qed.

(** [p_atoof] reads exactly the decimal strings whose value fits an [int],
    and answers -1 for the empty string and at the first character that is
    not a digit; past [INT_MAX] the multiplication overflows. *)
Theorem p_atoof_spec ds rest :
  ds ≠ [] → Forall (λ c, is_digit c = true) ds → decimal 0 ds ≤ INT_MAX →
  p_atoof (ds ++ rest) (length ds) = Some (decimal 0 ds) ∧
  (∀ c rest' n, rest = c :: rest' → is_digit c = false →
    p_atoof (ds ++ rest) (length ds + S n) = Some (-1)).
Proof.
  intros Hne Hd Hm. split.
  - destruct ds as [|d ds']; [done|]. unfold p_atoof. cbn [length].
    by apply (p_atoof_loop_spec (d :: ds')).
  - intros c rest' n -> Hc. rewrite <- plus_n_Sm. unfold p_atoof. rewrite plus_n_Sm.
    by apply p_atoof_loop_reject.
Qed.

Lemma p_atoof_spec_witness :
  p_atoof (bytes "8080" ++ bytes "/x") 4 = Some 8080 ∧
  (∀ c rest' n, bytes "/x" = c :: rest' → is_digit c = false →
    p_atoof (bytes "8080" ++ bytes "/x") (4 + S n) = Some (-1)).
Proof.
  apply (p_atoof_spec (bytes "8080") (bytes "/x")); [done|by repeat constructor|].
  vm_compute. done.
Defined.
