(* ===== verification/Title.v ===== *)
(** * src/global_conf.cpp: the title that the process shows, written over its
    arguments and environment.

    The memory is the stretch of the stack that the kernel fills with the
    strings of [argv] and, behind them, of [environ]; the pointers are offsets
    into it. *)

From S2P Require Import Prelude PString.

Local Open Scope Z_scope.

Definition strlen_at (mem : list ascii) (p : Z) : Z := Z.of_nat (length (c_str (drop (Z.to_nat p) mem))).

(** The loops of [init_process_title]: each string that begins where the last
    one ended moves the end behind itself. *)
Fixpoint follow (mem : list ascii) (last : Z) (ps : list Z) : Z :=
  match ps with
  | [] => last
  | p :: ps => follow mem (if decide (last = p) then p + strlen_at mem p + 1 else last) ps
  end.
Definition init_process_title (mem : list ascii) (argv environ : list Z) : Z :=
  let last := default 0 (head argv) in
  let last := follow mem last argv in
  let last := follow mem last environ in
  last - 1.

(** [main_proc::init_proc]: the title's end is kept, SUCCESS returned. *)
Definition init_proc (mem : list ascii) (argv environ : list Z) : Z * Z := (0, init_process_title mem argv environ).

(** [memset] and the copy; stores outside the stretch are undefined. *)
Definition set_process_titile (i_title : list ascii) (os_argv last : Z) (mem : list ascii) : option (list ascii) :=
  let len := last - os_argv in
  if decide (0 ≤ os_argv ∧ 0 ≤ len ∧ last ≤ Z.of_nat (length mem)) then
    let mem := take (Z.to_nat os_argv) mem ++ replicate (Z.to_nat len) NUL ++ drop (Z.to_nat last) mem in
    app (take (Z.to_nat os_argv) mem) <$> rc_strncpy (drop (Z.to_nat os_argv) mem) len (i_title ++ [NUL]) (Z.of_nat (length i_title))
  else None.

(** ** Strings one behind the other *)

Definition flat (ss : list (list ascii)) : list ascii := concat ((λ s, s ++ [NUL]) <$> ss).
Fixpoint addrs (off : Z) (ss : list (list ascii)) : list Z :=
  match ss with [] => [] | s :: ss => off :: addrs (off + Z.of_nat (length s) + 1) ss end.

Lemma flat_app a b : flat (a ++ b) = flat a ++ flat b.
Proof. unfold flat. by rewrite fmap_app, concat_app. Qed.

Lemma follow_flat mem ss : ∀ off rest, 0 ≤ off → Forall (λ s, NUL ∉ s) ss → drop (Z.to_nat off) mem = flat ss ++ rest →
  follow mem off (addrs off ss) = off + Z.of_nat (length (flat ss)).
Proof.
  induction ss as [|s ss IH]; intros off rest Ho Hs Hm; simpl; [lia|]. apply list.Forall_cons in Hs as [Hs1 Hs].
  rewrite decide_True by done. unfold strlen_at. change (flat (s :: ss)) with ((s ++ [NUL]) ++ flat ss) in *.
  rewrite <-!app_assoc in Hm. rewrite Hm. simpl app. rewrite c_str_app_nul by done.
  rewrite (IH _ rest); [rewrite !length_app; simpl; lia|lia|done|].
  replace (Z.to_nat (off + Z.of_nat (length s) + 1)) with (Z.to_nat off + (length s + 1))%nat by lia.
  rewrite <-drop_drop, Hm, app_assoc. apply drop_app_length'. by rewrite length_app.
Qed.

(** The end that is found is the last byte of the environment. *)
Lemma init_flat args envs rest : args ≠ [] → Forall (λ s, NUL ∉ s) (args ++ envs) →
  init_process_title (flat (args ++ envs) ++ rest) (addrs 0 args) (addrs (Z.of_nat (length (flat args))) envs) =
  Z.of_nat (length (flat (args ++ envs))) - 1.
Proof.
  intros Ha Hs. apply list.Forall_app in Hs as [Hs1 Hs2]. unfold init_process_title.
  replace (default 0 (head (addrs 0 args))) with 0 by (by destruct args).
  rewrite (follow_flat _ args 0 (flat envs ++ rest)) by (done || by rewrite flat_app, <-app_assoc).
  rewrite Z.add_0_l, (follow_flat _ envs _ rest); [rewrite flat_app, length_app; lia|lia|done|].
  rewrite Nat2Z.id, flat_app, <-app_assoc. by apply drop_app_length.
Qed.

Lemma not_nul_take k (s : list ascii) : NUL ∉ s → NUL ∉ take k s.
Proof. intros H Hin. apply H. rewrite <-(take_drop k s). apply elem_of_app. by left. Qed.

(** C39. Setting the title wipes the environment.  With the strings of the
    arguments and of the environment one behind the other (as the kernel lays
    them out), the stretch that is used ends at the last byte of the
    environment, and nothing of the environment has been saved: afterwards the
    stretch holds the title, cut off where the stretch ends, and zeros, the
    bytes behind it are untouched, and every variable that begins behind the
    title reads as the empty string. *)
Theorem title_wipes_environment args envs rest title mem last : args ≠ [] → Forall (λ s, NUL ∉ s) (args ++ envs) → NUL ∉ title →
  mem = flat (args ++ envs) ++ rest → last = init_process_title mem (addrs 0 args) (addrs (Z.of_nat (length (flat args))) envs) →
  1 ≤ last < 2 ^ 31 →
  ∃ mem', set_process_titile title 0 last mem = Some mem' ∧
    c_str mem' = take (Z.to_nat last - 1) title ∧
    drop (Z.to_nat last) mem' = drop (Z.to_nat last) mem ∧
    ∀ p, p ∈ addrs (Z.of_nat (length (flat args))) envs → Z.of_nat (length title) ≤ p → p < last → strlen_at mem' p = 0.
Proof.
  intros Ha Hs Ht -> -> Hl. rewrite init_flat in * by done. set (T := length (flat (args ++ envs))) in *.
  set (mem := flat (args ++ envs) ++ rest) in *. assert (HT : (T ≤ length mem)%nat) by (unfold mem; rewrite length_app; lia).
  set (n := Z.to_nat (Z.of_nat T - 1)). set (k := Nat.min (length title) (n - 1)).
  assert (Htake : take k (title ++ [NUL]) = take k title) by (apply take_app_le; lia).
  unfold set_process_titile. rewrite decide_True by lia. rewrite Z.sub_0_r. fold n. simpl. rewrite drop_0.
  rewrite (rc_strncpy_spec _ _ _ _ k); [|rewrite length_app, length_replicate, length_drop; lia|lia|lia| |rewrite length_app; lia].
  2:{ rewrite Htake. by apply not_nul_take. }
  rewrite Htake. eexists. split; [done|].
  set (mem' := _ ++ _). assert (Hmem : mem' = take k title ++ replicate (n - k) NUL ++ drop n mem).
  { unfold mem'. replace (n - k)%nat with (S (n - S k)) by lia. rewrite drop_app_le by (rewrite length_replicate; lia). by rewrite drop_replicate. }
  assert (Hk : length (take k title) = k) by (rewrite length_take; lia). rewrite Hmem. clear mem' Hmem. split_and!.
  - replace (n - k)%nat with (S (n - S k)) by lia. simpl. rewrite c_str_app_nul by (by apply not_nul_take).
    unfold k. destruct (decide (length title ≤ n - 1)%nat); [by rewrite !take_ge by lia|by rewrite Nat.min_r by lia].
  - rewrite app_assoc. apply drop_app_length'. rewrite length_app, length_replicate. lia.
  - intros p _ Hp1 Hp2. unfold strlen_at. rewrite drop_app_ge by lia. rewrite drop_app_le by (rewrite length_replicate; lia).
    rewrite drop_replicate, Hk. by replace (n - k - (Z.to_nat p - k))%nat with (S (n - S (Z.to_nat p))) by lia.
Qed.

(** Started as [p -d] with HOME and PATH. *)
Definition my_args : list (list ascii) := [bytes "p"; bytes "-d"].
Definition my_envs : list (list ascii) := [bytes "HOME=/root"; bytes "PATH=/bin"].
Lemma title_wipes_environment_witness :
  ∃ mem', set_process_titile (bytes "x:m") 0 25 (flat (my_args ++ my_envs)) = Some mem' ∧ c_str mem' = bytes "x:m" ∧
    drop 25 mem' = [NUL] ∧ ∀ p, p ∈ [5; 16] → 3 ≤ p → p < 25 → strlen_at mem' p = 0.
Proof.
  apply (title_wipes_environment my_args my_envs [] (bytes "x:m") (flat (my_args ++ my_envs)) 25); try done.
  - repeat (apply list.Forall_cons; split; [by apply (bool_decide_unpack _)|]). by apply list.Forall_nil.
  - by apply (bool_decide_unpack _).
Defined.
