(* ===== verification/PureLog.v ===== *)
(** * src/log/pure_log: the log files and their rotation. *)

From stdpp Require Import pretty.
From S2P Require Import Prelude PString.

Local Open Scope Z_scope.

(** ** Data *)

Inductive PLT_E := LOG_TERM | LOG_CRIT | LOG_ERROR | LOG_WARN | LOG_INFO | LOG_DEBUG.
Definition lvl_val (l : PLT_E) : Z :=
  match l with LOG_TERM => 0 | LOG_CRIT => 1 | LOG_ERROR => 2 | LOG_WARN => 3
             | LOG_INFO => 4 | LOG_DEBUG => 5 end.
Definition lvl_name (l : PLT_E) : list ascii :=
  match l with LOG_TERM => bytes "TERM" | LOG_CRIT => bytes "CRIT" | LOG_ERROR => bytes "ERROR"
             | LOG_WARN => bytes "WARN" | LOG_INFO => bytes "INFO" | LOG_DEBUG => bytes "DEBUG" end.

Inductive strategy := PURE_LOG_TIME | PURE_LOG_SPACE | PURE_LOG_CONST.
Inductive time_strategy := HOUR | DAY | WEEK.

Record tm := mk_tm {
  tm_year : Z; tm_mon : Z; tm_mday : Z; tm_hour : Z; tm_min : Z; tm_sec : Z }.
Definition zero_tm : tm := mk_tm 0 0 0 0 0 0.

Definition PURE_LOG_MAX_FILE_NAME_LEN : Z := 256.
Definition PURE_LOG_MAX_TIME_STR_LEN : Z := 128.
Definition PURE_LOG_MAX_PARA_STR_LEN : Z := 512.
Definition PURE_LOG_MAX_FILE_SIZE : Z := 10 * 1024 * 1024.

(** One of the two slots the code indexes with [m_pos & 1]. *)
Record slot := mk_slot { fd : Z; filetime : tm; file_size : Z }.
Definition empty_slot : slot := mk_slot (-1) zero_tm 0.

Record CLog := mk_clog {
  m_filename : list ascii;
  m_stratege_type : strategy;
  m_time_stratege_type : time_strategy;
  m_amount_size : Z;
  m_log_level : PLT_E;
  m_max_file_size : Z;
  m_pos : Z;
  m_busy : Z;
  m_slot : bool → slot;
  (** The file system: what each descriptor is open on, what each file holds. *)
  os_fd : gmap Z (list ascii);
  os_file : gmap (list ascii) (list ascii);
  os_clock : nat }.

Definition set_slot (i : bool) (s : slot) (l : CLog) : CLog :=
  mk_clog (m_filename l) (m_stratege_type l) (m_time_stratege_type l) (m_amount_size l)
    (m_log_level l) (m_max_file_size l) (m_pos l) (m_busy l)
    (λ j, if bool_decide (j = i) then s else m_slot l j) (os_fd l) (os_file l) (os_clock l).
Definition set_m_pos (p : Z) (l : CLog) : CLog :=
  mk_clog (m_filename l) (m_stratege_type l) (m_time_stratege_type l) (m_amount_size l)
    (m_log_level l) (m_max_file_size l) p (m_busy l) (m_slot l) (os_fd l) (os_file l) (os_clock l).
Definition set_busy (b : Z) (l : CLog) : CLog :=
  mk_clog (m_filename l) (m_stratege_type l) (m_time_stratege_type l) (m_amount_size l)
    (m_log_level l) (m_max_file_size l) (m_pos l) b (m_slot l) (os_fd l) (os_file l) (os_clock l).
Definition set_filename (n : list ascii) (l : CLog) : CLog :=
  mk_clog n (m_stratege_type l) (m_time_stratege_type l) (m_amount_size l)
    (m_log_level l) (m_max_file_size l) (m_pos l) (m_busy l) (m_slot l) (os_fd l) (os_file l)
    (os_clock l).
Definition set_os (f : gmap Z (list ascii)) (d : gmap (list ascii) (list ascii)) (l : CLog) : CLog :=
  mk_clog (m_filename l) (m_stratege_type l) (m_time_stratege_type l) (m_amount_size l)
    (m_log_level l) (m_max_file_size l) (m_pos l) (m_busy l) (m_slot l) f d (os_clock l).
Definition os_tick (l : CLog) : CLog :=
  mk_clog (m_filename l) (m_stratege_type l) (m_time_stratege_type l) (m_amount_size l)
    (m_log_level l) (m_max_file_size l) (m_pos l) (m_busy l) (m_slot l) (os_fd l) (os_file l)
    (S (os_clock l)).

(** The constructor; [m_pos = -1] in a [u32]. *)
Definition new_CLog (fds : gmap Z (list ascii)) (files : gmap (list ascii) (list ascii)) : CLog :=
  mk_clog [] PURE_LOG_CONST HOUR 10 LOG_DEBUG PURE_LOG_MAX_FILE_SIZE (u32 (-1)) 0
    (λ _, empty_slot) fds files 0.

Definition set_log_level (l : PLT_E) (s : CLog) : CLog :=
  mk_clog (m_filename s) (m_stratege_type s) (m_time_stratege_type s) (m_amount_size s)
    l (m_max_file_size s) (m_pos s) (m_busy s) (m_slot s) (os_fd s) (os_file s) (os_clock s).
Definition set_log_out_by_time (h_or_d : Z) (s : CLog) : CLog :=
  mk_clog (m_filename s) PURE_LOG_TIME (if 0 <? h_or_d then HOUR else DAY) (m_amount_size s)
    (m_log_level s) (m_max_file_size s) (m_pos s) (m_busy s) (m_slot s) (os_fd s) (os_file s)
    (os_clock s).
Definition set_log_out_by_amount (i_len i_size : Z) (s : CLog) : CLog :=
  mk_clog (m_filename s) PURE_LOG_SPACE (m_time_stratege_type s) i_size
    (m_log_level s) (u32 i_len) (m_pos s) (m_busy s) (m_slot s) (os_fd s) (os_file s)
    (os_clock s).

(** ** Names *)

(** [%0kd] of a non-negative number. *)
Definition pad (k : nat) (z : Z) : list ascii :=
  let d := bytes (pretty z) in replicate (k - length d) "0"%char ++ d.

Definition snprintf (n : Z) (s : list ascii) : list ascii := (vsnprintf n s).1.

Definition time_suffix (t : tm) : list ascii :=
  snprintf PURE_LOG_MAX_TIME_STR_LEN
    (pad 4 (tm_year t + 1900) ++ pad 2 (tm_mon t + 1) ++ pad 2 (tm_mday t) ++ bytes "_"
     ++ pad 2 (tm_hour t) ++ bytes "h").
Definition date_str (t : tm) : list ascii :=
  snprintf PURE_LOG_MAX_TIME_STR_LEN
    (bytes "[" ++ pad 4 (tm_year t + 1900) ++ bytes "-" ++ pad 2 (tm_mon t + 1) ++ bytes "-"
     ++ pad 2 (tm_mday t) ++ bytes "   " ++ pad 2 (tm_hour t) ++ bytes "-" ++ pad 2 (tm_min t)
     ++ bytes "-" ++ pad 2 (tm_sec t) ++ bytes "]").

Definition time_name (n : list ascii) (t : tm) : list ascii :=
  snprintf PURE_LOG_MAX_FILE_NAME_LEN (n ++ bytes "_" ++ time_suffix t ++ bytes ".log").
Definition space_name (n : list ascii) (index : Z) : list ascii :=
  snprintf PURE_LOG_MAX_FILE_NAME_LEN (n ++ bytes "_" ++ bytes (pretty (s32 index)) ++ bytes ".log").
Definition const_name (n : list ascii) : list ascii :=
  snprintf PURE_LOG_MAX_FILE_NAME_LEN (n ++ bytes ".log").

(** One record as it is written to a file. *)
Definition record_text (l : PLT_E) (t : tm) (msg : list ascii) : list ascii :=
  snprintf (PURE_LOG_MAX_PARA_STR_LEN * 2)
    (lvl_name l ++ bytes "	" ++ date_str t ++ bytes "	"
     ++ c_str (snprintf PURE_LOG_MAX_PARA_STR_LEN msg) ++ ["010"%char]).

(** ** Operations *)

(** The low bit of [m_pos]: the slot in use; the other one is next. *)
Definition cur (l : CLog) : bool := Z.odd (m_pos l).

Section log.
(** The clock, and what [open] and [write] answer, by the number of calls
    before and the descriptors in use: a descriptor or -1, the bytes written
    or a failure. *)
Context (now : nat → tm) (open_answer : nat → gmap Z (list ascii) → Z) (write_answer : nat → Z).

(** [close], then the slot's descriptor is only overwritten by [open]. *)
Definition close_fd (d : Z) (l : CLog) : CLog := set_os (delete d (os_fd l)) (os_file l) l.

(** [open(name, O_WRONLY|O_CREAT|O_APPEND)]. *)
Definition open_file (name : list ascii) (l : CLog) : Z * CLog :=
  let d := open_answer (os_clock l) (os_fd l) in
  let l := os_tick l in
  if d =? -1 then (d, l)
  else (d, set_os (<[d := name]> (os_fd l))
             (match os_file l !! name with Some _ => os_file l | None => <[name := []]> (os_file l) end) l).

(** The file name each strategy gives to the next file; an amount of 0 is a
    division by it, which is undefined ([SIGFPE]), as is all that needs it. *)
Definition cur_filename (ptime : tm) (l : CLog) : option (list ascii) :=
  match m_stratege_type l with
  | PURE_LOG_TIME => Some (time_name (m_filename l) ptime)
  | PURE_LOG_SPACE =>
      if u32 (m_amount_size l) =? 0 then None
      else Some (space_name (m_filename l) (u32 (u32 (m_pos l + 1) `mod` u32 (m_amount_size l) + 1)))
  | PURE_LOG_CONST => Some (const_name (m_filename l))
  end.

Definition RETRY : Z := 1.
Definition SUCCESS : Z := 0.
Definition FAILURE : Z := -1.

Definition new_file (l : CLog) : option (Z * CLog) :=
  if negb (m_busy l =? 0) then Some (RETRY, l) else
  let l := set_busy 1 l in
  let m_next := negb (cur l) in
  let ptime := now (os_clock l) in
  let l := os_tick l in
  name ← cur_filename ptime l;
  let old := fd (m_slot l m_next) in
  let l := if old =? -1 then l else close_fd old l in
  let '(d, l) := open_file name l in
  if d =? -1 then
    Some (FAILURE, set_busy 0 (set_slot m_next
       (mk_slot (-1) (filetime (m_slot l m_next)) (file_size (m_slot l m_next))) l))
  else
    Some (SUCCESS, set_busy 0 (set_m_pos (u32 (m_pos l + 1))
       (set_slot m_next (mk_slot d ptime 0) l))).

(** The code returns nothing on success (it falls off the end); the model
    returns what [new_file] returned, which the code drops. *)
Definition init (i_path i_filename : list ascii) (l : CLog) : option (Z * CLog) :=
  if PURE_LOG_MAX_FILE_NAME_LEN - 1 <? strlen i_path + strlen i_filename then Some (-1, l)
  else new_file (set_filename (snprintf PURE_LOG_MAX_FILE_NAME_LEN (c_str i_path ++ c_str i_filename)) l).

(** [write] to the current file and the size it adds. *)
Definition write_record (buf : list ascii) (l : CLog) : Z * CLog :=
  let s := m_slot l (cur l) in
  let ret := Z.min (write_answer (os_clock l)) (Z.of_nat (length buf)) in
  let l := os_tick l in
  match os_fd l !! fd s with
  | None => (-1, l)
  | Some name =>
      if 0 <? ret then
        (ret, set_slot (cur l) (mk_slot (fd s) (filetime s) (u32 (file_size s + ret)))
          (set_os (os_fd l)
             (<[name := default [] (os_file l !! name) ++ take (Z.to_nat ret) buf]> (os_file l)) l))
      else (ret, l)
  end.

(** A file is opened when the current slot has none. *)
Definition ensure_file (l : CLog) : option (Z * CLog) :=
  if fd (m_slot l (cur l)) =? -1 then new_file l else Some (SUCCESS, l).

Definition write_or_fail (r : Z * CLog) (buf : list ascii) : Z * CLog :=
  let '(c, l) := r in if c =? FAILURE then (-1, l) else write_record buf l.

(** [prt] of a formatted message. *)
Definition prt (i_log_lvl : PLT_E) (msg : list ascii) (l : CLog) : option (Z * CLog) :=
  if (lvl_val (m_log_level l) <? lvl_val i_log_lvl) then Some (0, l) else
  let ptime := now (os_clock l) in
  let l := os_tick l in
  if lvl_val i_log_lvl =? 0 then Some (0, l) else
  let buf := record_text i_log_lvl ptime msg in
  '(c, l) ← ensure_file l;
  if c =? FAILURE then Some (-1, l) else
  match m_stratege_type l with
  | PURE_LOG_TIME =>
      let t := filetime (m_slot l (cur l)) in
      let cut := match m_time_stratege_type l with
                 | HOUR => negb (tm_hour t =? tm_hour ptime)
                 | DAY => negb (tm_mday t =? tm_mday ptime)
                 | WEEK => false
                 end in
      r ← (if cut then new_file l else Some (SUCCESS, l)); Some (write_or_fail r buf)
  | PURE_LOG_SPACE =>
      if (file_size (m_slot l (cur l)) <? u32 (m_max_file_size l - PURE_LOG_MAX_PARA_STR_LEN))
      then Some (write_record buf l)
      else r ← new_file l; Some (write_or_fail r buf)
  | PURE_LOG_CONST => let '(_, l) := write_record buf l in Some (0, l)
  end.

(** The destructor. *)
Definition delete_CLog (l : CLog) : CLog :=
  let l := if 0 <? fd (m_slot l false) then close_fd (fd (m_slot l false)) l else l in
  if 0 <? fd (m_slot l true) then close_fd (fd (m_slot l true)) l else l.

(** ** Lemmas *)

(** The kernel hands out a descriptor that is not in use. *)
Context (Hfresh : ∀ n m, open_answer n m ≠ -1 → m !! open_answer n m = None).

(** The descriptors a slot holds. *)
Definition slot_fds (s : slot) : gset Z := if fd s =? -1 then ∅ else {[fd s]}.

(** The open descriptors are those of [base] and the slots', all different. *)
Definition fd_ok (base : gset Z) (l : CLog) : Prop :=
  let c := slot_fds (m_slot l (cur l)) in
  let n := slot_fds (m_slot l (negb (cur l))) in
  dom (os_fd l) = base ∪ c ∪ n ∧ c ## base ∧ n ## base ∧ c ## n.
(** ... no creation is under way, and the sizes are [u32]s. *)
Definition sizes_ok (l : CLog) : Prop := ∀ i, 0 ≤ file_size (m_slot l i) < 2 ^ 32.
Definition log_ok (base : gset Z) (l : CLog) : Prop := (m_busy l = 0 ∧ sizes_ok l) ∧ fd_ok base l.

Definition content (l : CLog) (name : list ascii) : list ascii := default [] (os_file l !! name).

(** The settings, which no operation below changes. *)
Definition same_settings (l l' : CLog) : Prop :=
  m_filename l' = m_filename l ∧ m_stratege_type l' = m_stratege_type l ∧
  m_time_stratege_type l' = m_time_stratege_type l ∧ m_amount_size l' = m_amount_size l ∧
  m_log_level l' = m_log_level l ∧ m_max_file_size l' = m_max_file_size l.

Lemma snprintf_length n s : 1 ≤ n → Z.of_nat (length (snprintf n s)) ≤ n - 1.
Proof. intros Hn. unfold snprintf, vsnprintf. simpl. rewrite length_take. lia. Qed.

Lemma odd_u32 z : Z.odd (u32 z) = Z.odd z.
Proof.
  unfold u32. rewrite Z.mod_eq by lia. change (2 ^ 32) with (2 * 2 ^ 31).
  rewrite Z.odd_sub, <- Z.mul_assoc, Z.odd_mul. simpl. apply xorb_false_r.
Qed.

Lemma cur_next l : cur (set_m_pos (u32 (m_pos l + 1)) l) = negb (cur l).
Proof. unfold cur. simpl. rewrite odd_u32, Z.odd_add. by destruct (Z.odd (m_pos l)). Qed.

(** What a creation leaves behind. *)
Definition created (l : CLog) (r : Z) (l' : CLog) : Prop :=
  same_settings l l' ∧ (∀ name, content l' name = content l name) ∧
  match r with
  | 0 => cur l' = negb (cur l) ∧ fd (m_slot l' (cur l')) ≠ -1 ∧
         file_size (m_slot l' (cur l')) = 0 ∧ filetime (m_slot l' (cur l')) = now (os_clock l)
  | _ => r = FAILURE ∧ cur l' = cur l ∧ m_slot l' (cur l) = m_slot l (cur l) ∧
         ∃ k m, open_answer k m = -1
  end.

Lemma set_slot_eq i s l : m_slot (set_slot i s l) i = s.
Proof. simpl. by rewrite bool_decide_eq_true_2. Qed.

Lemma set_slot_negb i s l : m_slot (set_slot (negb i) s l) i = m_slot l i.
Proof. simpl. rewrite bool_decide_eq_false_2; [done|by destruct i]. Qed.

Lemma slot_fds_open d t z : d ≠ -1 → slot_fds (mk_slot d t z) = {[d]}.
Proof. intros Hd. unfold slot_fds. simpl. by destruct (Z.eqb_spec d (-1)). Qed.

Lemma slot_fds_none t z : slot_fds (mk_slot (-1) t z) = ∅.
Proof. done. Qed.

(** Closing the next slot's file, and putting another one in its place. *)
Definition close_next (l : CLog) : CLog :=
  let old := fd (m_slot l (negb (cur l))) in if old =? -1 then l else close_fd old l.

Lemma close_next_spec base l :
  fd_ok base l →
  dom (os_fd (close_next l)) = base ∪ slot_fds (m_slot l (cur l)) ∧
  os_file (close_next l) = os_file l ∧ m_slot (close_next l) = m_slot l ∧
  m_pos (close_next l) = m_pos l ∧ os_clock (close_next l) = os_clock l ∧
  same_settings l (close_next l).
Proof.
  intros (Hd&Hc&Hn&Hcn). revert Hd Hc Hn Hcn. unfold close_next. cbv zeta.
  generalize (slot_fds (m_slot l (cur l))). unfold slot_fds. intros c.
  destruct (fd (m_slot l (negb (cur l))) =? -1); intros.
  - split; [by rewrite union_empty_r_L in Hd|done].
  - split; [|done]. simpl. rewrite dom_delete_L, Hd. clear Hd. set_solver.
Qed.

Lemma fd_ok_dead base l t z :
  fd_ok base l → fd_ok base (set_slot (negb (cur l)) (mk_slot (-1) t z) (close_next l)).
Proof.
  intros Hok. destruct (close_next_spec _ _ Hok) as (Hd&_&Hs&Hp&_). destruct Hok as (_&Hc&_).
  unfold fd_ok, cur. cbn [m_pos set_slot os_fd]. rewrite Hp. fold (cur l).
  fold (set_slot (negb (cur l)) (mk_slot (-1) t z) (close_next l)).
  rewrite set_slot_eq, set_slot_negb, Hs, Hd, slot_fds_none.
  split; [by rewrite union_empty_r_L|]. revert Hc. generalize (slot_fds (m_slot l (cur l))).
  clear. intros c Hc. set_solver.
Qed.

Lemma fd_ok_installed base l fds d t z p :
  fd_ok base l → d ≠ -1 → d ∉ dom (os_fd (close_next l)) →
  dom fds = {[d]} ∪ dom (os_fd (close_next l)) → Z.odd p = negb (cur l) →
  ∀ l', os_fd l' = fds → m_pos l' = p →
    m_slot l' = m_slot (set_slot (negb (cur l)) (mk_slot d t z) (close_next l)) → fd_ok base l'.
Proof.
  intros Hok Hd1 Hnew Hdom Hp l' Hfd Hpos Hslot.
  destruct (close_next_spec _ _ Hok) as (Hd&_&Hs&_). destruct Hok as (_&Hc&_).
  unfold fd_ok, cur. rewrite Hfd, Hpos, Hp, Hslot, negb_involutive, set_slot_eq, set_slot_negb, Hs, Hdom, Hd.
  rewrite Hd in Hnew. rewrite (slot_fds_open d) by done.
  revert Hnew Hc. generalize (slot_fds (m_slot l (cur l))). clear. intros c Hnew Hc. set_solver.
Qed.

Lemma new_file_unfold l :
  m_busy l = 0 → new_file l =
  name ← cur_filename (now (os_clock l)) (os_tick (set_busy 1 l));
  let l1 := close_next (os_tick (set_busy 1 l)) in
  let '(d, l2) := open_file name l1 in
  if d =? -1 then
    Some (FAILURE, set_busy 0 (set_slot (negb (cur l)) (mk_slot (-1) (filetime (m_slot l2 (negb (cur l))))
                                          (file_size (m_slot l2 (negb (cur l))))) l2))
  else Some (SUCCESS, set_busy 0 (set_m_pos (u32 (m_pos l2 + 1))
                   (set_slot (negb (cur l)) (mk_slot d (now (os_clock l)) 0) l2))).
Proof. intros Hb. unfold new_file. by rewrite Hb. Qed.

Lemma open_file_cases name l d l2 :
  open_file name l = (d, l2) →
  (d = -1 ∧ l2 = os_tick l ∧ ∃ k m, open_answer k m = -1) ∨
  (d ≠ -1 ∧ d ∉ dom (os_fd l) ∧ os_fd l2 = <[d := name]> (os_fd l) ∧
   (∀ nm, content l2 nm = content l nm) ∧ m_slot l2 = m_slot l ∧ m_pos l2 = m_pos l ∧
   os_clock l2 = S (os_clock l) ∧ same_settings l l2).
Proof.
  unfold open_file. destruct (Z.eqb_spec (open_answer (os_clock l) (os_fd l)) (-1)) as [E|E]; intros [= <- <-].
  - left. eauto.
  - right. split; [done|]. split; [by apply not_elem_of_dom, Hfresh|]. split; [done|].
    split; [|done]. intros nm. unfold content. simpl. destruct (os_file l !! name) eqn:En; [done|].
    destruct (decide (name = nm)) as [->|]; [by rewrite lookup_insert_eq, En|by rewrite lookup_insert_ne].
Qed.

Lemma new_file_spec base l r l' :
  log_ok base l → new_file l = Some (r, l') → log_ok base l' ∧ created l r l'.
Proof.
  intros [[Hb Hsz] Hok]. rewrite new_file_unfold by done. cbv zeta.
  destruct (cur_filename _ _) as [name|]; [|done]. simpl mbind. set (l0 := os_tick (set_busy 1 l)).
  assert (Hok0 : fd_ok base l0) by exact Hok.
  destruct (close_next_spec _ _ Hok0) as (Hd1&Hf1&Hs1&Hp1&_&Hset1).
  destruct (open_file name (close_next l0)) as [d l2] eqn:Ho.
  destruct (open_file_cases _ _ _ _ Ho) as [(->&->&Hrefused)|(Hd&Hnew&Hfd2&Hc2&Hs2&Hp2&_&Hset2)].
  - simpl Z.eqb. cbv iota. intros [= <- <-]. split; [split; [split; [done|]|exact (fd_ok_dead _ _ _ _ Hok0)]|].
    { intros i. simpl. case_bool_decide; simpl; rewrite Hs1; apply Hsz. }
    split; [exact Hset1|]. split; [intros nm; unfold content; simpl; by rewrite Hf1|].
    split; [done|]. split; [unfold cur; simpl; by rewrite Hp1|]. split; [|done].
    change (m_slot (set_slot (negb (cur l)) (mk_slot (-1) (filetime (m_slot (close_next l0) (negb (cur l))))
      (file_size (m_slot (close_next l0) (negb (cur l))))) (close_next l0)) (cur l) = m_slot l (cur l)).
    by rewrite set_slot_negb, Hs1.
  - destruct (Z.eqb_spec d (-1)) as [|_]; [done|]. intros [= <- <-].
    assert (Hodd : Z.odd (u32 (m_pos l2 + 1)) = negb (cur l)).
    { rewrite odd_u32, Z.odd_add, Hp2, Hp1. change (m_pos l0) with (m_pos l). unfold cur. by destruct (Z.odd (m_pos l)). }
    split; [split; [split; [done|]|]|].
    + intros i. simpl. case_bool_decide; simpl; [lia|]. rewrite Hs2, Hs1. apply Hsz.
    + eapply (fd_ok_installed base l0 (os_fd l2)); [done..| |exact Hodd|done|done|].
      * rewrite Hfd2, dom_insert_L. done.
      * simpl. by rewrite Hs2.
    + split; [unfold same_settings in *; simpl in *; intuition congruence|].
      split; [intros nm; transitivity (content l2 nm); [done|]; rewrite Hc2; unfold content; by rewrite Hf1|].
      simpl. unfold cur. simpl. rewrite Hodd, bool_decide_eq_true_2 by done. done.
Qed.

(** What a write leaves behind: nothing, or the first bytes of [buf] at the
    end of one file and their number in the slot's size. *)
Definition written (buf : list ascii) (l : CLog) (n : Z) (l' : CLog) : Prop :=
  (n = 0 ∧ (∀ name, content l' name = content l name) ∧ m_slot l' = m_slot l) ∨
  (0 < n ≤ Z.of_nat (length buf) ∧
   file_size (m_slot l' (cur l)) = u32 (file_size (m_slot l (cur l)) + n) ∧
   filetime (m_slot l' (cur l)) = filetime (m_slot l (cur l)) ∧
   ∃ file, os_fd l' !! fd (m_slot l' (cur l)) = Some file ∧
     content l' file = content l file ++ take (Z.to_nat n) buf ∧
     ∀ name, name ≠ file → content l' name = content l name).

Lemma write_record_spec base buf l r l' :
  log_ok base l → write_record buf l = (r, l') →
  log_ok base l' ∧ same_settings l l' ∧ cur l' = cur l ∧ r ≤ Z.of_nat (length buf) ∧
  written buf l (Z.max 0 r) l'.
Proof.
  intros [[Hb Hsz] Hok]. unfold write_record. set (c := cur l).
  set (n := Z.min (write_answer (os_clock l)) (Z.of_nat (length buf))).
  assert (Hn : n ≤ Z.of_nat (length buf)) by lia. clearbody n.
  change (os_fd (os_tick l)) with (os_fd l).
  destruct (os_fd l !! fd (m_slot l c)) as [file|] eqn:Ef; [destruct (Z.ltb_spec 0 n) as [Hp|Hp]|];
    intros [= <- <-].
  - assert (Hf : ∀ i, fd (m_slot (set_slot c (mk_slot (fd (m_slot l c)) (filetime (m_slot l c))
        (u32 (file_size (m_slot l c) + n))) l) i) = fd (m_slot l i)).
    { intros i. simpl. by case_bool_decide; subst. }
    assert (Hs : ∀ i, slot_fds (m_slot (set_slot c (mk_slot (fd (m_slot l c)) (filetime (m_slot l c))
        (u32 (file_size (m_slot l c) + n))) l) i) = slot_fds (m_slot l i)).
    { intros i. unfold slot_fds. by rewrite Hf. }
    split; [split; [split; [done|]|]|].
    { intros i. simpl. case_bool_decide; simpl; [|apply Hsz]. unfold u32. apply Z.mod_pos_bound. lia. }
    { unfold fd_ok in *. rewrite <- !(Hs (cur l)), <- !(Hs (negb (cur l))) in Hok. exact Hok. }
    split; [done|]. split; [done|]. split; [done|]. right. rewrite Z.max_r by lia.
    split; [lia|]. fold c. simpl. rewrite bool_decide_eq_true_2 by done. simpl.
    split; [done|]. split; [done|]. exists file. split; [done|]. unfold content. simpl. split.
    + by rewrite lookup_insert_eq.
    + intros nm Hne. by rewrite lookup_insert_ne.
  - split; [done|]. split; [done|]. split; [done|]. split; [done|]. left. by rewrite Z.max_l by lia.
  - split; [done|]. split; [done|]. split; [done|]. split; [lia|]. by left.
Qed.

(** A step that creates no record: at most a new file. *)
Definition quiet (base : gset Z) (l l' : CLog) : Prop :=
  log_ok base l' ∧ same_settings l l' ∧ ∀ name, content l' name = content l name.

Lemma same_settings_trans l1 l2 l3 :
  same_settings l1 l2 → same_settings l2 l3 → same_settings l1 l3.
Proof. unfold same_settings. intuition congruence. Qed.

Lemma quiet_trans base l1 l2 l3 : quiet base l1 l2 → quiet base l2 l3 → quiet base l1 l3.
Proof.
  intros (_&Hs&Hc) (Hok&Hs'&Hc'). split; [done|]. split; [by eapply same_settings_trans|].
  intros nm. by rewrite Hc', Hc.
Qed.

Lemma new_file_quiet base l r l' : log_ok base l → new_file l = Some (r, l') → quiet base l l'.
Proof. intros Hok E. by destruct (new_file_spec _ _ _ _ Hok E) as (?&?&?&_). Qed.

Lemma ensure_file_quiet base l r l' : log_ok base l → ensure_file l = Some (r, l') → quiet base l l'.
Proof.
  unfold ensure_file. intros Hok. case_match; [by apply new_file_quiet|]. by intros [= <- <-].
Qed.

(** Two times fall into the same file. *)
Definition same_period (l : CLog) (a b : tm) : Prop :=
  match m_time_stratege_type l with
  | HOUR => tm_hour a = tm_hour b | DAY => tm_mday a = tm_mday b | WEEK => True
  end.

(** The file a record of time [ptime] goes to is of its period, or has room. *)
Definition selected (ptime : tm) (l : CLog) : Prop :=
  match m_stratege_type l with
  | PURE_LOG_TIME => same_period l (filetime (m_slot l (cur l))) ptime
  | PURE_LOG_SPACE =>
      file_size (m_slot l (cur l)) < u32 (m_max_file_size l - PURE_LOG_MAX_PARA_STR_LEN) ∨
      file_size (m_slot l (cur l)) = 0
  | PURE_LOG_CONST => True
  end.

Lemma settings_period l l' a b : same_settings l l' → same_period l' a b ↔ same_period l a b.
Proof. intros (_&_&Ht&_). unfold same_period. by rewrite Ht. Qed.

Lemma selected_new base l r l' :
  log_ok base l → new_file l = Some (r, l') → r ≠ FAILURE →
  ∀ ptime, (m_stratege_type l = PURE_LOG_TIME → same_period l (now (os_clock l)) ptime) → selected ptime l'.
Proof.
  intros Hok E Hr ptime Hp. destruct (new_file_spec _ _ _ _ Hok E) as (_&Hs&_&Hm).
  unfold selected. destruct r as [|p|p]; [|by destruct Hm as [Hm _]..].
  destruct Hm as (_&_&Hz&Ht). destruct (m_stratege_type l') eqn:Est; [|by right|done].
  rewrite Ht. apply (settings_period l l'); [done|]. apply Hp. by destruct Hs as (_&<-&_).
Qed.

(** The rotation test of [prt]. *)
Definition cut_time (ptime : tm) (l : CLog) : bool :=
  let t := filetime (m_slot l (cur l)) in
  match m_time_stratege_type l with
  | HOUR => negb (tm_hour t =? tm_hour ptime)
  | DAY => negb (tm_mday t =? tm_mday ptime)
  | WEEK => false
  end.

Lemma cut_time_period ptime l :
  cut_time ptime l = false ↔ same_period l (filetime (m_slot l (cur l))) ptime.
Proof. unfold cut_time, same_period. destruct (m_time_stratege_type l); [..|done]; by rewrite negb_false_iff, Z.eqb_eq. Qed.

Lemma write_or_fail_inv base l1 c l2 buf r l' :
  quiet base l1 l2 → write_or_fail (c, l2) buf = (r, l') →
  (c = FAILURE ∧ r = -1 ∧ quiet base l1 l') ∨ (c ≠ FAILURE ∧ write_record buf l2 = (r, l')).
Proof.
  unfold write_or_fail. intros Hq. destruct (Z.eqb_spec c FAILURE) as [->|]; [|by right].
  intros [= <- <-]. by left.
Qed.

Lemma new_file_result base l r l' :
  log_ok base l → new_file l = Some (r, l') →
  (r = SUCCESS ∧ fd (m_slot l' (cur l')) ≠ -1) ∨ (r = FAILURE ∧ ∃ k m, open_answer k m = -1).
Proof.
  intros Hok E. destruct (new_file_spec _ _ _ _ Hok E) as (_&_&_&Hm). destruct r; naive_solver.
Qed.

Lemma ensure_file_result base l r l' :
  log_ok base l → ensure_file l = Some (r, l') →
  (r = SUCCESS ∧ fd (m_slot l' (cur l')) ≠ -1) ∨ (r = FAILURE ∧ ∃ k m, open_answer k m = -1).
Proof.
  unfold ensure_file. intros Hok. destruct (Z.eqb_spec (fd (m_slot l (cur l))) (-1)).
  - by apply (new_file_result base).
  - intros [= <- <-]. by left.
Qed.

(** When the file was missing, the one created has the time of this call. *)
Lemma ensure_file_fresh base l r l' :
  log_ok base l → ensure_file l = Some (r, l') → r ≠ FAILURE →
  l' = l ∨ filetime (m_slot l' (cur l')) = now (os_clock l).
Proof.
  unfold ensure_file. intros Hok. case_match; [|intros [= <- <-]; by left]. intros E Hr.
  destruct (new_file_spec _ _ _ _ Hok E) as (_&_&_&Hm). right.
  destruct r as [|p|p]; [apply Hm|by destruct Hm as [Hm _]..].
Qed.

(** The records [prt] does not write to a file. *)
Definition filtered (lvl : PLT_E) (l : CLog) : bool :=
  (lvl_val (m_log_level l) <? lvl_val lvl) || (lvl_val lvl =? 0).

(** [prt] is quiet, or writes its record, once, to a file selected for it. *)
Lemma prt_inv base lvl msg l r l' :
  log_ok base l → prt lvl msg l = Some (r, l') →
  (quiet base l l' ∧ ((r = 0 ∧ filtered lvl l = true) ∨ (r = -1 ∧ ∃ k m, open_answer k m = -1))) ∨
  ∃ l2 r2, quiet base l l2 ∧ fd (m_slot l2 (cur l2)) ≠ -1 ∧ filtered lvl l = false ∧
    write_record (record_text lvl (now (os_clock l)) msg) l2 = (r2, l') ∧
    r = (match m_stratege_type l with PURE_LOG_CONST => 0 | _ => r2 end) ∧
    ((m_stratege_type l = PURE_LOG_TIME → same_period l (now (S (os_clock l))) (now (os_clock l))) →
     selected (now (os_clock l)) l2).
Proof.
  intros Hok. unfold prt, filtered. destruct (lvl_val (m_log_level l) <? lvl_val lvl).
  { intros [= <- <-]. left. split; [done|by left]. }
  destruct (lvl_val lvl =? 0); [intros [= <- <-]; left; split; [done|by left]|].
  set (ptime := now (os_clock l)). set (buf := record_text lvl ptime msg).
  assert (Hok0 : log_ok base (os_tick l)) by exact Hok.
  destruct (ensure_file (os_tick l)) as [[c l1]|] eqn:He; [|done]. simpl mbind.
  pose proof (ensure_file_quiet _ _ _ _ Hok0 He) as Hq1.
  change (quiet base (os_tick l) l1) with (quiet base l l1) in Hq1.
  destruct (ensure_file_result _ _ _ _ Hok0 He) as [[-> Hfd1]|[-> Hno]];
    [|intros [= <- <-]; left; split; [done|by right]].
  change (SUCCESS =? FAILURE) with false. cbv iota.
  assert (Hst : m_stratege_type l1 = m_stratege_type l) by apply Hq1.
  assert (Hok1 : log_ok base l1) by apply Hq1. rewrite <- Hst.
  assert (Hnf : ∀ c2 l2 r, new_file l1 = Some (c2, l2) → write_or_fail (c2, l2) buf = (r, l') →
    (quiet base l l' ∧ r = -1 ∧ ∃ k m, open_answer k m = -1) ∨
    (quiet base l l2 ∧ fd (m_slot l2 (cur l2)) ≠ -1 ∧ write_record buf l2 = (r, l') ∧ c2 ≠ FAILURE)).
  { intros c2 l2 r' En Hw.
    pose proof (quiet_trans _ _ _ _ Hq1 (new_file_quiet _ _ _ _ Hok1 En)) as Hq2.
    destruct (write_or_fail_inv _ _ _ _ _ _ _ Hq2 Hw) as [(->&->&Hl)|[Hc2 Hwr]];
      destruct (new_file_result _ _ _ _ Hok1 En) as [[? ?]|[? ?]]; naive_solver. }
  destruct (m_stratege_type l1) eqn:Es1.
  - fold (cut_time ptime l1). intros Hw. destruct (cut_time ptime l1) eqn:Ecut.
    + destruct (new_file l1) as [[c2 l2]|] eqn:En; [|done]. injection Hw as Hw.
      destruct (Hnf _ _ _ eq_refl Hw) as [(Hq2&->&Hno)|(Hq2&Hfd2&Hwr&Hc2)]; [left; split; [done|by right]|].
      right. exists l2, r. do 5 (split; [done|]). intros Hper. specialize (Hper eq_refl).
      destruct (ensure_file_fresh _ _ _ _ Hok0 He ltac:(done)) as [->|Hft].
      * eapply selected_new; [done..|]. intros _. exact Hper.
      * apply (settings_period l l1) in Hper; [|apply Hq1].
        change (os_clock (os_tick l)) with (S (os_clock l)) in Hft. rewrite <- Hft in Hper.
        apply cut_time_period in Hper. fold ptime in Hper. congruence.
    + injection Hw as Hw. right. exists l1, r. do 5 (split; [done|]). intros _.
      unfold selected. rewrite Es1. by apply cut_time_period.
  - destruct (Z.ltb_spec (file_size (m_slot l1 (cur l1))) (u32 (m_max_file_size l1 - PURE_LOG_MAX_PARA_STR_LEN))) as [Hroom|Hfull]; intros Hw.
    + injection Hw as Hw. right. exists l1, r. do 5 (split; [done|]). intros _. unfold selected. rewrite Es1. by left.
    + destruct (new_file l1) as [[c2 l2]|] eqn:En; [|done]. injection Hw as Hw.
      destruct (Hnf _ _ _ eq_refl Hw) as [(Hq2&->&Hno)|(Hq2&Hfd2&Hwr&Hc2)]; [left; split; [done|by right]|].
      right. exists l2, r. do 5 (split; [done|]). intros _.
      eapply selected_new; [done..|]. by rewrite Es1.
  - destruct (write_record buf l1) as [r2 l2] eqn:Ew. intros [= <- <-]. right. exists l1, r2.
    do 5 (split; [done|]). intros _. unfold selected. by rewrite Es1.
Qed.

Lemma c_str_length s : (length (c_str s) ≤ length s)%nat.
Proof. induction s as [|c s IH]; simpl; [done|]. case_match; simpl; lia. Qed.

(** At most 5 bytes of level, 127 of date, 511 of message, three separators. *)
Lemma record_text_length lvl t msg : Z.of_nat (length (record_text lvl t msg)) ≤ 646.
Proof.
  unfold record_text.
  pose proof (snprintf_length PURE_LOG_MAX_PARA_STR_LEN msg ltac:(done)) as Hm.
  pose proof (c_str_length (snprintf PURE_LOG_MAX_PARA_STR_LEN msg)) as Hc.
  assert (Hd : Z.of_nat (length (date_str t)) ≤ 127) by (by apply (snprintf_length 128)).
  assert (Hl : (length (lvl_name lvl) ≤ 5)%nat) by (destruct lvl; simpl; lia).
  revert Hm Hc. generalize (c_str (snprintf PURE_LOG_MAX_PARA_STR_LEN msg)).
  unfold snprintf at 3, vsnprintf, PURE_LOG_MAX_PARA_STR_LEN. cbn [fst]. intros m Hm Hc.
  rewrite length_take, !length_app. cbn [length bytes]. change (length (bytes "	")) with 1%nat. lia.
Qed.

Lemma prt_ok base lvl msg l r l' :
  log_ok base l → prt lvl msg l = Some (r, l') → log_ok base l' ∧ same_settings l l'.
Proof.
  intros Hok E. destruct (prt_inv _ _ _ _ _ _ Hok E) as [[Hq _]|(l2&r2&Hq&_&_&Hw&_)]; [split; apply Hq|].
  destruct (write_record_spec base _ _ _ _ (proj1 Hq) Hw) as (Hok'&Hs&_).
  split; [done|]. eapply same_settings_trans; [apply Hq|done].
Qed.

(** ** The use of a log *)

Inductive op :=
  | Op_level (l : PLT_E) | Op_by_time (h_or_d : Z) | Op_by_amount (i_len i_size : Z)
  | Op_init (path name : list ascii) | Op_prt (l : PLT_E) (msg : list ascii).

Definition run_op (o : op) (l : CLog) : option CLog :=
  match o with
  | Op_level v => Some (set_log_level v l)
  | Op_by_time h => Some (set_log_out_by_time h l)
  | Op_by_amount n k => Some (set_log_out_by_amount n k l)
  | Op_init p n => snd <$> init p n l
  | Op_prt v m => snd <$> prt v m l
  end.

(** An amount that the names can be counted by. *)
Definition amount_ok (l : CLog) : Prop := u32 (m_amount_size l) ≠ 0.
Definition no_amount (o : op) : Prop := if o is Op_by_amount _ k then u32 k = 0 else False.

Lemma amount_settings l l' : same_settings l l' → amount_ok l → amount_ok l'.
Proof. unfold amount_ok. by intros (_&_&_&->&_). Qed.

Lemma new_file_defined l : m_busy l = 0 → amount_ok l → is_Some (new_file l).
Proof.
  intros Hb Ha. rewrite new_file_unfold by done.
  assert (is_Some (cur_filename (now (os_clock l)) (os_tick (set_busy 1 l)))) as [name ->].
  { unfold cur_filename. simpl. destruct (m_stratege_type l); eauto. destruct (Z.eqb_spec (u32 (m_amount_size l)) 0); [done|eauto]. }
  simpl. destruct (open_file _ _) as [d l2]. destruct (d =? -1); eauto.
Qed.

Lemma prt_defined base lvl msg l : log_ok base l → amount_ok l → is_Some (prt lvl msg l).
Proof.
  intros Hok Ha. unfold prt. destruct (lvl_val _ <? lvl_val lvl); [eauto|]. destruct (lvl_val lvl =? 0); [eauto|].
  assert (Hok0 : log_ok base (os_tick l)) by exact Hok.
  assert (is_Some (ensure_file (os_tick l))) as [[c l1] He].
  { unfold ensure_file. case_match; [|eauto]. apply new_file_defined; [apply Hok|done]. }
  rewrite He. simpl. destruct (ensure_file_quiet _ _ _ _ Hok0 He) as (Hok1&Hs1&_).
  destruct (c =? FAILURE); [eauto|]. assert (is_Some (new_file l1)) as [[c2 l2] ->].
  { apply new_file_defined; [apply Hok1|by eapply amount_settings]. }
  repeat case_match; simpl; eauto.
Qed.

Lemma run_op_ok base o l : log_ok base l → amount_ok l →
  ∃ l', run_op o l = Some l' ∧ log_ok base l' ∧ (no_amount o ∨ amount_ok l').
Proof.
  intros Hok Ha. destruct o as [v|h|n k|p n|v m]; simpl; [by eexists; eauto..| | |].
  - eexists. split; [done|]. split; [exact Hok|]. unfold amount_ok. simpl. destruct (decide (u32 k = 0)); eauto.
  - unfold init. case_match; [simpl; eauto|].
    set (l0 := set_filename _ l). assert (Hok0 : log_ok base l0) by exact Hok.
    destruct (new_file_defined l0) as [[r l'] E]; [apply Hok|done|]. rewrite E. simpl. exists l'. split; [done|].
    destruct (new_file_quiet _ _ _ _ Hok0 E) as (?&?&_). split; [done|]. right. by eapply (amount_settings l0).
  - destruct (prt_defined base v m l Hok Ha) as [[r l'] E]. rewrite E. simpl. exists l'. split; [done|].
    destruct (prt_ok _ _ _ _ _ _ Hok E). split; [done|]. right. by eapply amount_settings.
Qed.

(** A log after a sequence of calls. *)
Definition run_ops (fds : gmap Z (list ascii)) (files : gmap (list ascii) (list ascii)) (ops : list op) : option CLog :=
  foldl (λ o op, o ≫= run_op op) (Some (new_CLog fds files)) ops.

Lemma new_CLog_ok fds files : log_ok (dom fds) (new_CLog fds files).
Proof. split; [split; [done|by intros i]|]. unfold fd_ok, slot_fds. simpl. set_solver. Qed.

(** Whatever was set, the invariant holds as long as the run goes; it goes on
    unless some amount was 0. *)
Lemma run_ops_ok fds files ops :
  match run_ops fds files ops with
  | Some l => log_ok (dom fds) l ∧ (Exists no_amount ops ∨ amount_ok l)
  | None => Exists no_amount ops
  end.
Proof.
  unfold run_ops. induction ops as [|o ops IH] using rev_ind; [split; [apply new_CLog_ok|by right]|].
  rewrite foldl_app. simpl. destruct (foldl _ _ ops) as [l|]; simpl; [|apply list.Exists_app; by left].
  destruct IH as [Hok [Hex|Ha]].
  - destruct (run_op o l) as [l'|] eqn:E; [|apply list.Exists_app; by left].
    split; [|left; apply list.Exists_app; by left].
    destruct o as [v|h|n k|p n|v m]; simpl in E; [injection E as <-; exact Hok..| |].
    + unfold init in E. case_match; [by injection E as <-|].
      destruct (new_file (set_filename _ l)) as [[r l1]|] eqn:En; [|done]. injection E as <-.
      eapply new_file_spec; [|done]. exact Hok.
    + destruct (prt v m l) as [[r l1]|] eqn:En; [|done]. injection E as <-. by eapply prt_ok.
  - destruct (run_op_ok _ o l Hok Ha) as (l'&->&Hok'&[Hn|Ha']); (split; [done|]); [left|by right].
    apply list.Exists_app. right. by constructor.
Qed.

(** The destructor closes the slots' files. *)
Lemma delete_closes base l : fd_ok base l →
  (∀ i, fd (m_slot l i) = -1 ∨ 0 < fd (m_slot l i)) → dom (os_fd (delete_CLog l)) = base.
Proof.
  intros (Hd&Hc&Hn&Hcn) Hi.
  assert (∀ i, (if 0 <? fd (m_slot l i) then {[fd (m_slot l i)]} else ∅ : gset Z) = slot_fds (m_slot l i)) as Hs.
  { intros i. unfold slot_fds. destruct (Hi i) as [-> |Hp]; [done|].
    destruct (Z.ltb_spec 0 (fd (m_slot l i))); [|lia]. by destruct (Z.eqb_spec (fd (m_slot l i)) (-1)); [lia|]. }
  assert (dom (os_fd (delete_CLog l)) = dom (os_fd l) ∖ slot_fds (m_slot l false) ∖ slot_fds (m_slot l true)) as ->.
  { rewrite <- !Hs. unfold delete_CLog. destruct (0 <? fd (m_slot l false)); simpl;
      destruct (0 <? fd (m_slot l true)); simpl; rewrite ?dom_delete_L; set_solver. }
  rewrite Hd. destruct (cur l); simpl in *; set_solver.
Qed.

(** C33. Whatever is asked of a log, in whatever order, and whatever [open] and
    [write] answer, the descriptors open in the process are those it had
    before and the two slots': no rotation or failed creation leaks a
    descriptor, and the log can keep at most two.  Its destructor closes these
    and no others, unless one of them is 0.  No call is undefined, unless an
    amount of 0 files was set. *)
Theorem log_descriptors (fds : gmap Z (list ascii)) files ops :
  match run_ops fds files ops with
  | Some l =>
      dom (os_fd l) = dom fds ∪ slot_fds (m_slot l true) ∪ slot_fds (m_slot l false) ∧
      (size (os_fd l) ≤ size fds + 2)%nat ∧ m_busy l = 0 ∧
      ((∀ i, fd (m_slot l i) = -1 ∨ 0 < fd (m_slot l i)) → dom (os_fd (delete_CLog l)) = dom fds)
  | None => ∃ i_len i_size, Op_by_amount i_len i_size ∈ ops ∧ u32 i_size = 0
  end.
Proof.
  pose proof (run_ops_ok fds files ops) as Hl. destruct (run_ops fds files ops) as [l|].
  2: { apply list.Exists_exists in Hl as ([| |n k| |]&Hin&Hk); try done. by exists n, k. }
  destruct Hl as [([Hb _]&Hd&Hc&Hn&Hcn) _].
  split; [destruct (cur l); simpl in Hd; rewrite Hd; set_solver|].
  split; [|split; [done|apply delete_closes; by split]].
  rewrite <- !size_dom, Hd, !size_union by set_solver.
  assert (∀ s, (size (slot_fds s) ≤ 1)%nat) as Hs.
  { intros s. unfold slot_fds. case_match; by rewrite ?size_empty, ?size_singleton; lia. }
  pose proof (Hs (m_slot l (cur l))). pose proof (Hs (m_slot l (negb (cur l)))). lia.
Qed.

(** A record is written to one file only, after what that file holds, and
    is never torn by a rotation: [prt] leaves every file as it was, or puts the
    first bytes of the record, as many as it reports, at the end of the file of
    the current slot and changes no other. *)
Theorem prt_appends base lvl msg l r l' :
  log_ok base l → prt lvl msg l = Some (r, l') →
  ∃ n, 0 ≤ n ≤ Z.of_nat (length (record_text lvl (now (os_clock l)) msg)) ∧
    (m_stratege_type l ≠ PURE_LOG_CONST → n = Z.max 0 r) ∧
    (m_stratege_type l = PURE_LOG_CONST → r = 0 ∨ r = -1) ∧
    (n = 0 ∧ (∀ name, content l' name = content l name) ∨
     0 < n ∧ filtered lvl l = false ∧
     ∃ file, os_fd l' !! fd (m_slot l' (cur l')) = Some file ∧
       content l' file = content l file ++ take (Z.to_nat n) (record_text lvl (now (os_clock l)) msg) ∧
       ∀ name, name ≠ file → content l' name = content l name).
Proof.
  intros Hok E. destruct (prt_inv _ _ _ _ _ _ Hok E) as [[Hq Hr]|(l2&r2&Hq&_&Hf&Hw&Hr&_)].
  { exists 0. split; [lia|]. split; [naive_solver lia|]. split; [naive_solver|]. left. split; [done|apply Hq]. }
  destruct (write_record_spec base _ _ _ _ (proj1 Hq) Hw) as (_&_&Hcur&Hlen&Hwr).
  exists (Z.max 0 r2). split; [lia|]. split; [by subst r; destruct (m_stratege_type l)|].
  split; [intros Es; rewrite Es in Hr; auto|].
  destruct Hq as (_&_&Hq). destruct Hwr as [(->&Hc&_)|(Hp&_&_&file&Hfd&Hc&Hother)].
  - left. split; [done|]. intros nm. by rewrite Hc.
  - right. split; [lia|]. split; [done|]. exists file. rewrite Hcur. split; [done|].
    split; [by rewrite Hc, Hq|]. intros nm Hne. by rewrite Hother.
Qed.

(** While [open] succeeds and [write] takes what it is given, every record
    the level lets through reaches the current file, whole. *)
Theorem prt_complete base lvl msg l r l' (buf := record_text lvl (now (os_clock l)) msg) :
  log_ok base l → (∀ k m, open_answer k m ≠ -1) → (∀ k, 646 ≤ write_answer k) →
  filtered lvl l = false → prt lvl msg l = Some (r, l') →
  r = (match m_stratege_type l with PURE_LOG_CONST => 0 | _ => Z.of_nat (length buf) end) ∧
  ∃ file, os_fd l' !! fd (m_slot l' (cur l')) = Some file ∧ content l' file = content l file ++ buf ∧
    ∀ name, name ≠ file → content l' name = content l name.
Proof.
  intros Hok Hopen Hwrite Hfil E.
  destruct (prt_inv _ _ _ _ _ _ Hok E) as [[_ [[_ ?]|[_ (k&m&?)]]]|(l2&r2&Hq&Hfd2&_&Hw&Hr&_)];
    [congruence|by destruct (Hopen k m)|].
  destruct (write_record_spec base _ _ _ _ (proj1 Hq) Hw) as (_&_&Hcur&_&Hwr).
  assert (Hr2 : r2 = Z.of_nat (length buf) ∧ 0 < Z.of_nat (length buf)).
  { pose proof (record_text_length lvl (now (os_clock l)) msg) as Hlen. fold buf in Hlen.
    revert Hw. unfold write_record.
    assert (is_Some (os_fd l2 !! fd (m_slot l2 (cur l2)))) as [file Hfile].
    { apply elem_of_dom. destruct Hq as [(_&Hd&_) _]. rewrite Hd. unfold slot_fds at 1.
      destruct (Z.eqb_spec (fd (m_slot l2 (cur l2))) (-1)); [done|]. set_solver. }
    change (os_fd (os_tick l2)) with (os_fd l2). rewrite Hfile. specialize (Hwrite (os_clock l2)).
    assert (0 < Z.of_nat (length buf)).
    { unfold buf, record_text, snprintf, vsnprintf. simpl. rewrite length_take. destruct lvl; simpl; lia. }
    rewrite Z.min_r by (fold buf; lia). fold buf. destruct (Z.ltb_spec 0 (Z.of_nat (length buf))); [|lia].
    intros [= <- _]. done. }
  destruct Hr2 as [-> Hpos]. split; [done|]. fold buf in Hwr. rewrite Z.max_r in Hwr by lia.
  destruct Hq as (_&_&Hq). destruct Hwr as [(?&_)|(_&_&_&file&Hfd&Hc&Hother)]; [lia|].
  exists file. rewrite Hcur. split; [done|].
  split; [by rewrite Hc, Hq, take_ge by lia|]. intros nm Hne. by rewrite Hother.
Qed.

(** Rotation by size: when the largest size is at least 513 and below
    [2^32 - 133], the size of the file a record is printed to stays at most 133
    bytes above it.  (The code holds 512 bytes back, for records of up to
    646.) *)
Theorem prt_size_bound base lvl msg l r l' :
  log_ok base l → m_stratege_type l = PURE_LOG_SPACE →
  513 ≤ m_max_file_size l < 2 ^ 32 - 133 →
  prt lvl msg l = Some (r, l') → 0 < r →
  r ≤ file_size (m_slot l' (cur l')) ≤ m_max_file_size l + 133.
Proof.
  intros Hok Es Hmax E Hr.
  destruct (prt_inv _ _ _ _ _ _ Hok E) as [[_ [[? _]|[? _]]]|(l2&r2&Hq&_&_&Hw&->&Hsel)]; [lia..|].
  rewrite Es in *. specialize (Hsel ltac:(done)).
  destruct (write_record_spec base _ _ _ _ (proj1 Hq) Hw) as (_&_&Hcur&_&Hwr).
  destruct Hq as (Hok2&(_&Hst&_&_&_&Hm)&_). unfold selected in Hsel. rewrite Hst, Es, Hm in Hsel.
  unfold u32, PURE_LOG_MAX_PARA_STR_LEN in Hsel. rewrite (Z.mod_small (_ - 512)) in Hsel by lia.
  rewrite Hcur. destruct Hwr as [(?&_)|(Hn&->&_)]; [lia|]. rewrite Z.max_r in * by lia.
  pose proof (record_text_length lvl (now (os_clock l)) msg) as Hlen.
  destruct Hok2 as [[_ Hsz] _]. specialize (Hsz (cur l2)). unfold u32. rewrite Z.mod_small by lia. lia.
Qed.

(** Rotation by time: a record that is printed while the clock stays in one
    period (an hour or a day) goes to a file whose time is of the record's
    period. *)
Theorem prt_period base lvl msg l r l' :
  log_ok base l → m_stratege_type l = PURE_LOG_TIME →
  same_period l (now (S (os_clock l))) (now (os_clock l)) →
  prt lvl msg l = Some (r, l') → 0 < r →
  same_period l (filetime (m_slot l' (cur l'))) (now (os_clock l)).
Proof.
  intros Hok Es Hper E Hr.
  destruct (prt_inv _ _ _ _ _ _ Hok E) as [[_ [[? _]|[? _]]]|(l2&r2&Hq&_&_&Hw&->&Hsel)]; [lia..|].
  destruct (write_record_spec base _ _ _ _ (proj1 Hq) Hw) as (_&_&Hcur&_&Hwr).
  destruct Hq as (_&Hs&_). specialize (Hsel (λ _, Hper)). unfold selected in Hsel.
  assert (Es2 : m_stratege_type l2 = PURE_LOG_TIME) by (destruct Hs as (_&->&_); exact Es).
  rewrite Es2 in Hsel. rewrite Es in Hr. rewrite Hcur.
  apply (settings_period l l2); [done|]. destruct Hwr as [(?&_)|(_&_&->&_)]; [lia|done].
Qed.
End log.

(** ** Witnesses: a kernel, and a log in it *)

(** A descriptor above all those in use. *)
Definition demo_open (_ : nat) (m : gmap Z (list ascii)) : Z :=
  map_fold (λ k _ acc, Z.max acc (k + 1)) 3 m.
Definition demo_now (n : nat) : tm := mk_tm 124 4 17 9 30 (Z.of_nat n).
Definition demo_write (_ : nat) : Z := 1023.

Lemma demo_open_above n m :
  3 ≤ demo_open n m ∧ ∀ k, is_Some (m !! k) → k < demo_open n m.
Proof.
  unfold demo_open.
  apply (map_fold_weak_ind (λ acc m, 3 ≤ acc ∧ ∀ k, is_Some (m !! k) → k < acc)).
  - split; [lia|]. intros k [x Hx]. by rewrite lookup_empty in Hx.
  - intros k x m' acc _ [Hge Hlt]. split; [lia|]. intros k' Hk'.
    destruct (decide (k' = k)) as [->|Hne]; [lia|].
    rewrite lookup_insert_ne in Hk' by done. specialize (Hlt _ Hk'). lia.
Qed.

Lemma demo_open_fresh n m : demo_open n m ≠ -1 → m !! demo_open n m = None.
Proof.
  intros _. destruct (m !! demo_open n m) eqn:E; [|done].
  destruct (demo_open_above n m) as [_ H]. specialize (H (demo_open n m)). rewrite E in H.
  specialize (H ltac:(done)). lia.
Qed.

Lemma demo_open_some n m : demo_open n m ≠ -1.
Proof. pose proof (demo_open_above n m). lia. Qed.

(** Logs by size and by time, in a process that has the standard descriptors. *)
Definition demo_fds : gmap Z (list ascii) := {[0 := bytes "tty"; 1 := bytes "tty"; 2 := bytes "tty"]}.
Definition demo_log (cfg : op) : CLog :=
  default (new_CLog demo_fds ∅) (run_ops demo_now demo_open demo_write demo_fds ∅
    [Op_level LOG_INFO; cfg; Op_init (bytes "logs/") (bytes "record")]).

Lemma demo_log_ok cfg : log_ok (dom demo_fds) (demo_log cfg).
Proof.
  unfold demo_log. pose proof (run_ops_ok demo_now demo_open demo_write demo_open_fresh demo_fds ∅
    [Op_level LOG_INFO; cfg; Op_init (bytes "logs/") (bytes "record")]) as H.
  destruct (run_ops _ _ _ _ _ _) as [l|]; [apply H|eapply new_CLog_ok, demo_open_fresh].
Qed.

Definition demo_prt (msg : list ascii) (cfg : op) : Z * CLog :=
  default (0, demo_log cfg) (prt demo_now demo_open demo_write LOG_ERROR msg (demo_log cfg)).
Lemma demo_prt_eq msg cfg :
  (if prt demo_now demo_open demo_write LOG_ERROR msg (demo_log cfg) is Some _ then true else false) = true →
  prt demo_now demo_open demo_write LOG_ERROR msg (demo_log cfg) = Some ((demo_prt msg cfg).1, (demo_prt msg cfg).2).
Proof. unfold demo_prt. destruct (prt _ _ _ _ _ _) as [[r l]|]; done. Qed.
Definition demo_msg : list ascii := bytes "no record server".
Definition demo_long : list ascii := replicate 600 "x"%char.

Lemma demo_by_time :
  prt demo_now demo_open demo_write LOG_ERROR demo_msg (demo_log (Op_by_time 1))
  = Some ((demo_prt demo_msg (Op_by_time 1)).1, (demo_prt demo_msg (Op_by_time 1)).2).
Proof. apply demo_prt_eq. vm_compute. reflexivity. Qed.
Lemma demo_by_amount msg : msg = demo_msg ∨ msg = demo_long →
  prt demo_now demo_open demo_write LOG_ERROR msg (demo_log (Op_by_amount 600 3))
  = Some ((demo_prt msg (Op_by_amount 600 3)).1, (demo_prt msg (Op_by_amount 600 3)).2).
Proof. intros [->| ->]; apply demo_prt_eq; vm_compute; reflexivity. Qed.

Lemma prt_appends_witness :
  log_ok (dom demo_fds) (demo_log (Op_by_time 1)) ∧ (demo_prt demo_msg (Op_by_time 1)).1 = 47 ∧
  ∃ file, os_fd (demo_prt demo_msg (Op_by_time 1)).2 !! 3 = Some file ∧
    content (demo_prt demo_msg (Op_by_time 1)).2 file =
      content (demo_log (Op_by_time 1)) file ++ take 47 (record_text LOG_ERROR (demo_now 2) demo_msg).
Proof.
  split; [apply demo_log_ok|]. split; [by vm_compute|].
  destruct (prt_appends demo_now demo_open demo_write demo_open_fresh (dom demo_fds) LOG_ERROR demo_msg
    (demo_log (Op_by_time 1)) _ _ (demo_log_ok _) demo_by_time)
    as (n&_&Hr&_&[[-> _]|(_&_&file&Hf&Hc&_)]).
  - assert (Hn := Hr ltac:(by vm_compute)). by vm_compute in Hn.
  - exists file. rewrite (Hr ltac:(by vm_compute)) in Hc. split; [exact Hf|exact Hc].
Defined.

Lemma prt_complete_witness :
  filtered LOG_ERROR (demo_log (Op_by_amount 600 3)) = false ∧
  (demo_prt demo_msg (Op_by_amount 600 3)).1 = 47.
Proof.
  split; [by vm_compute|].
  destruct (prt_complete demo_now demo_open demo_write demo_open_fresh (dom demo_fds) LOG_ERROR demo_msg
    (demo_log (Op_by_amount 600 3)) _ _ (demo_log_ok _) demo_open_some ltac:(by intros k)
    ltac:(by vm_compute) (demo_by_amount _ (or_introl eq_refl))) as [Hr _].
  rewrite Hr. by vm_compute.
Defined.

(** A long record, cut at 511 bytes of message, in files of at most 600 bytes. *)
Lemma prt_size_bound_witness :
  m_pos (demo_prt demo_long (Op_by_amount 600 3)).2 = 0 ∧
  542 ≤ file_size (m_slot (demo_prt demo_long (Op_by_amount 600 3)).2 false) ≤ 733.
Proof.
  split; [by vm_compute|].
  assert (E : (demo_prt demo_long (Op_by_amount 600 3)).1 = 542) by (vm_compute; reflexivity).
  pose proof (prt_size_bound demo_now demo_open demo_write demo_open_fresh (dom demo_fds) LOG_ERROR
    demo_long (demo_log (Op_by_amount 600 3)) _ _ (demo_log_ok _)
    ltac:(by vm_compute) ltac:(by vm_compute) (demo_by_amount _ (or_intror eq_refl)) ltac:(vm_compute; reflexivity)) as H.
  rewrite E in H. exact H.
Defined.

Lemma prt_period_witness :
  tm_hour (filetime (m_slot (demo_prt demo_msg (Op_by_time 1)).2 false)) = 9.
Proof.
  exact (prt_period demo_now demo_open demo_write demo_open_fresh (dom demo_fds) LOG_ERROR demo_msg
    (demo_log (Op_by_time 1)) _ _ (demo_log_ok _)
    ltac:(by vm_compute) ltac:(by vm_compute) demo_by_time ltac:(vm_compute; reflexivity)).
Defined.

(** Four records, three rotations: at most two descriptors more than at the start. *)
Lemma log_descriptors_witness :
  ∃ l, run_ops demo_now demo_open demo_write demo_fds ∅
    ([Op_by_amount 600 3; Op_init (bytes "logs/") (bytes "record")] ++
     replicate 4 (Op_prt LOG_ERROR (replicate 600 "x"%char))) = Some l ∧
  m_pos l = 3 ∧ (size (os_fd l) ≤ 5)%nat ∧ m_busy l = 0 ∧ dom (os_fd (delete_CLog l)) = dom demo_fds.
Proof.
  pose proof (log_descriptors demo_now demo_open demo_write demo_open_fresh demo_fds ∅
    ([Op_by_amount 600 3; Op_init (bytes "logs/") (bytes "record")] ++
     replicate 4 (Op_prt LOG_ERROR (replicate 600 "x"%char)))) as H.
  set (ops := _ ++ _) in *.
  assert (E : (λ l, (m_pos l, fd (m_slot l true), fd (m_slot l false))) <$> run_ops demo_now demo_open demo_write demo_fds ∅ ops
    = Some (3, 6, 5)) by (vm_compute; reflexivity).
  destruct (run_ops _ _ _ _ _ ops) as [l|]; [|done]. injection E as E1 E2 E3. exists l. split; [done|]. split; [done|].
  destruct H as (_&H1&H2&H3). split; [exact H1|]. split; [exact H2|]. apply H3. intros []; right; lia.
Defined.
