(* ===== verification/RbTree.v ===== *)
(** * src/datas/pure_rbtree: the red-black tree, as the pointer program it is. *)

From S2P Require Import Prelude.

Local Open Scope Z_scope.

(** ** Data *)

(** Addresses of nodes; [void *] data is a number. *)
Definition addr := positive.

Record rb_node := mk_rb_node {
  parent : addr; lson : addr; rson : addr; colour : Z; key : Z; data : Z }.

(** The tree object and the memory its nodes live in. *)
Record pure_rbtree := mk_rbtree { heap : gmap addr rb_node; nilp : addr; root : addr }.

Definition BLACK : Z := 0.
Definition RED : Z := 1.

Definition R := M pure_rbtree.

(** ** Memory accesses; one outside the allocated nodes is undefined *)

Definition node (p : addr) : R rb_node := λ s, (λ n, (n, s)) <$> heap s !! p.
Definition update (f : rb_node → rb_node) (p : addr) : R () := λ s,
  n ← heap s !! p; Some ((), mk_rbtree (<[p := f n]> (heap s)) (nilp s) (root s)).

Definition get_parent (p : addr) : R addr := n ← node p; mret (parent n).
Definition get_lson (p : addr) : R addr := n ← node p; mret (lson n).
Definition get_rson (p : addr) : R addr := n ← node p; mret (rson n).
Definition get_colour (p : addr) : R Z := n ← node p; mret (colour n).
Definition get_key (p : addr) : R Z := n ← node p; mret (key n).
Definition get_data (p : addr) : R Z := n ← node p; mret (data n).
Definition with_parent (v : addr) (n : rb_node) : rb_node :=
  mk_rb_node v (lson n) (rson n) (colour n) (key n) (data n).
Definition with_lson (v : addr) (n : rb_node) : rb_node :=
  mk_rb_node (parent n) v (rson n) (colour n) (key n) (data n).
Definition with_rson (v : addr) (n : rb_node) : rb_node :=
  mk_rb_node (parent n) (lson n) v (colour n) (key n) (data n).
Definition with_colour (v : Z) (n : rb_node) : rb_node :=
  mk_rb_node (parent n) (lson n) (rson n) v (key n) (data n).
Definition with_key (v : Z) (n : rb_node) : rb_node :=
  mk_rb_node (parent n) (lson n) (rson n) (colour n) v (data n).
Definition with_data (v : Z) (n : rb_node) : rb_node :=
  mk_rb_node (parent n) (lson n) (rson n) (colour n) (key n) v.
Definition set_parent (p v : addr) : R () := update (with_parent v) p.
Definition set_lson (p v : addr) : R () := update (with_lson v) p.
Definition set_rson (p v : addr) : R () := update (with_rson v) p.
Definition set_colour (p : addr) (v : Z) : R () := update (with_colour v) p.
Definition set_key (p : addr) (v : Z) : R () := update (with_key v) p.
Definition set_data (p : addr) (v : Z) : R () := update (with_data v) p.
Definition get_nil : R addr := gets nilp.
Definition get_root : R addr := gets root.
Definition set_root (p : addr) : R () := modify (λ s, mk_rbtree (heap s) (nilp s) p).

(** Loops run on a number of rounds that is the number of nodes in memory. *)
Definition rounds {A} (loop : nat → R A) : R A := λ s, loop (S (size (heap s))) s.

Section rbtree.
(** What [new] answers: an address and the indeterminate contents behind it. *)
Context (new : gmap addr rb_node → addr * rb_node).

Definition new_rbnode : R addr := λ s,
  let '(p, junk) := new (heap s) in
  Some (p, mk_rbtree (<[p := junk]> (heap s)) (nilp s) (root s)).
Definition delete_rbnode (p : addr) : R () := λ s,
  _ ← heap s !! p; Some ((), mk_rbtree (delete p (heap s)) (nilp s) (root s)).

(** The constructor, in a memory that holds other nodes. *)
Definition new_pure_rbtree (h : gmap addr rb_node) : pure_rbtree :=
  let '(p, _) := new h in
  mk_rbtree (<[p := mk_rb_node p p p BLACK 0 0]> h) p p.

Definition left_rotate (x : addr) : R () :=
  nil ← get_nil;
  y ← get_rson x;
  yl ← get_lson y;
  set_rson x yl;;
  yl ← get_lson y;
  (if decide (yl ≠ nil) then yl ← get_lson y; set_parent yl x else mret ());;
  px ← get_parent x;
  set_parent y px;;
  px ← get_parent x;
  (if decide (px = nil) then set_root y
   else px ← get_parent x;
        pl ← get_lson px;
        if decide (x = pl) then px ← get_parent x; set_lson px y
        else px ← get_parent x; set_rson px y);;
  set_lson y x;;
  set_parent x y.

Definition right_rotate (x : addr) : R () :=
  nil ← get_nil;
  y ← get_lson x;
  yr ← get_rson y;
  set_lson x yr;;
  yr ← get_rson y;
  (if decide (yr ≠ nil) then yr ← get_rson y; set_parent yr x else mret ());;
  px ← get_parent x;
  set_parent y px;;
  px ← get_parent x;
  (if decide (px = nil) then set_root y
   else px ← get_parent x;
        pl ← get_lson px;
        if decide (x = pl) then px ← get_parent x; set_lson px y
        else px ← get_parent x; set_rson px y);;
  set_rson y x;;
  set_parent x y.

(** *** Insertion *)

(** One turn of the fixing loop where the parent is a left son, and the same
    with left and right exchanged. *)
Definition insert_fixup_left (z : addr) : R addr :=
  p ← get_parent z; g ← get_parent p; y ← get_rson g;
  c ← get_colour y;
  if decide (c = RED) then
    set_colour p BLACK;;
    set_colour y BLACK;;
    p ← get_parent z; g ← get_parent p; set_colour g RED;;
    p ← get_parent z; get_parent p
  else
    p ← get_parent z; pr ← get_rson p;
    z ← (if decide (z = pr) then z ← get_parent z; left_rotate z;; mret z else mret z);
    p ← get_parent z; set_colour p BLACK;;
    p ← get_parent z; g ← get_parent p; set_colour g RED;;
    p ← get_parent z; g ← get_parent p; right_rotate g;;
    mret z.

Definition insert_fixup_right (z : addr) : R addr :=
  p ← get_parent z; g ← get_parent p; y ← get_lson g;
  c ← get_colour y;
  if decide (c = RED) then
    set_colour p BLACK;;
    set_colour y BLACK;;
    p ← get_parent z; g ← get_parent p; set_colour g RED;;
    p ← get_parent z; get_parent p
  else
    p ← get_parent z; pl ← get_lson p;
    z ← (if decide (z = pl) then z ← get_parent z; right_rotate z;; mret z else mret z);
    p ← get_parent z; set_colour p BLACK;;
    p ← get_parent z; g ← get_parent p; set_colour g RED;;
    p ← get_parent z; g ← get_parent p; left_rotate g;;
    mret z.

Fixpoint insert_fixup_loop (n : nat) (z : addr) : R () :=
  match n with
  | O => stuck
  | S n =>
      p ← get_parent z; c ← get_colour p;
      if decide (c = RED) then
        p ← get_parent z; g ← get_parent p; gl ← get_lson g;
        z ← (if decide (p = gl) then insert_fixup_left z else insert_fixup_right z);
        insert_fixup_loop n z
      else mret ()
  end.

Definition rb_insert_fixup (z : addr) : R () :=
  rounds (λ n, insert_fixup_loop n z);;
  r ← get_root; set_colour r BLACK.

(** The descent: the last node on the way, for a key. *)
Fixpoint descend (n : nat) (k : Z) (y x : addr) : R addr :=
  match n with
  | O => stuck
  | S n =>
      nil ← get_nil;
      if decide (x = nil) then mret y else
      kx ← get_key x;
      if k <? kx then xl ← get_lson x; descend n k x xl
      else xr ← get_rson x; descend n k x xr
  end.

Definition rb_insert (z : addr) : R () :=
  nil ← get_nil; x ← get_root; k ← get_key z;
  y ← rounds (λ n, descend n k nil x);
  set_parent z y;;
  (if decide (y = nil) then set_root z
   else ky ← get_key y;
        if k <? ky then set_lson y z else set_rson y z);;
  set_lson z nil;;
  set_rson z nil;;
  set_colour z RED;;
  rb_insert_fixup z.

Definition rb_insert_key_data (i_key i_data : Z) : R Z :=
  z ← new_rbnode;
  set_key z i_key;; set_data z i_data;;
  rb_insert z;;
  mret 0.

(** *** Deletion *)

Definition rb_transplant (u v : addr) : R () :=
  nil ← get_nil;
  pu ← get_parent u;
  (if decide (pu = nil) then set_root v
   else pl ← get_lson pu;
        if decide (u = pl) then set_lson pu v else set_rson pu v);;
  pu ← get_parent u;
  set_parent v pu.

Fixpoint minimum_loop (n : nat) (x : addr) : R addr :=
  match n with
  | O => stuck
  | S n =>
      nil ← get_nil; xl ← get_lson x;
      if decide (xl ≠ nil) then minimum_loop n xl else mret x
  end.
Definition tree_minimum (x : addr) : R addr := rounds (λ n, minimum_loop n x).

(** One turn of the fixing loop, [x] being a left son, and the mirror image:
    what is done once the sibling [w] is black, and what makes it black.  The
    result is the next [x].  (The code skips the second read of a colour when
    the first son is red.) *)
Definition delete_fixup_left_tail (x w : addr) : R addr :=
  wl ← get_lson w; cl ← get_colour wl;
  wr ← get_rson w; cr ← get_colour wr;
  if decide (cl = BLACK ∧ cr = BLACK) then
    set_colour w RED;; get_parent x
  else
    wr ← get_rson w; cr ← get_colour wr;
    w ← (if decide (cr = BLACK) then
           wl ← get_lson w; set_colour wl BLACK;;
           set_colour w RED;;
           right_rotate w;;
           p ← get_parent x; get_rson p
         else mret w);
    p ← get_parent x; cp ← get_colour p; set_colour w cp;;
    p ← get_parent x; set_colour p BLACK;;
    wr ← get_rson w; set_colour wr BLACK;;
    p ← get_parent x; left_rotate p;;
    get_root.

Definition delete_fixup_left (x : addr) : R addr :=
  p ← get_parent x; w ← get_rson p;
  cw ← get_colour w;
  w ← (if decide (cw = RED) then
         set_colour w BLACK;;
         p ← get_parent x; set_colour p RED;;
         p ← get_parent x; left_rotate p;;
         p ← get_parent x; get_rson p
       else mret w);
  delete_fixup_left_tail x w.

Definition delete_fixup_right_tail (x w : addr) : R addr :=
  wl ← get_lson w; cl ← get_colour wl;
  wr ← get_rson w; cr ← get_colour wr;
  if decide (cl = BLACK ∧ cr = BLACK) then
    set_colour w RED;; get_parent x
  else
    wl ← get_lson w; cl ← get_colour wl;
    w ← (if decide (cl = BLACK) then
           wr ← get_rson w; set_colour wr BLACK;;
           set_colour w RED;;
           left_rotate w;;
           p ← get_parent x; get_lson p
         else mret w);
    p ← get_parent x; cp ← get_colour p; set_colour w cp;;
    p ← get_parent x; set_colour p BLACK;;
    wl ← get_lson w; set_colour wl BLACK;;
    p ← get_parent x; right_rotate p;;
    get_root.

Definition delete_fixup_right (x : addr) : R addr :=
  p ← get_parent x; w ← get_lson p;
  cw ← get_colour w;
  w ← (if decide (cw = RED) then
         set_colour w BLACK;;
         p ← get_parent x; set_colour p RED;;
         p ← get_parent x; right_rotate p;;
         p ← get_parent x; get_lson p
       else mret w);
  delete_fixup_right_tail x w.

Fixpoint delete_fixup_loop (n : nat) (x : addr) : R addr :=
  match n with
  | O => stuck
  | S n =>
      r ← get_root;
      if decide (x = r) then mret x else
      c ← get_colour x;
      if decide (c = BLACK) then
        p ← get_parent x; pl ← get_lson p;
        x ← (if decide (x = pl) then delete_fixup_left x else delete_fixup_right x);
        delete_fixup_loop n x
      else mret x
  end.

Definition rb_delete_fixup (x : addr) : R () :=
  x ← rounds (λ n, delete_fixup_loop n x);
  set_colour x BLACK.

Definition rb_delete (z : addr) : R () :=
  nil ← get_nil;
  y_orc ← get_colour z;
  zl ← get_lson z; zr ← get_rson z;
  '(x, y_orc) ←
    (if decide (zl = nil) then
       rb_transplant z zr;; mret (zr, y_orc)
     else if decide (zr = nil) then
       rb_transplant z zl;; mret (zl, y_orc)
     else
       y ← tree_minimum zr;
       y_orc ← get_colour y;
       x ← get_rson y;
       py ← get_parent y;
       (if decide (py = z) then set_parent x y
        else yr ← get_rson y; rb_transplant y yr;;
             zr ← get_rson z; set_rson y zr;;
             yr ← get_rson y; set_parent yr y);;
       rb_transplant z y;;
       zl ← get_lson z; set_lson y zl;;
       yl ← get_lson y; set_parent yl y;;
       cz ← get_colour z; set_colour y cz;;
       mret (x, y_orc));
  if decide (y_orc = BLACK) then rb_delete_fixup x else mret ().

(** *** Queries *)

Fixpoint search_loop (n : nat) (k : Z) (x : addr) : R addr :=
  match n with
  | O => stuck
  | S n =>
      nil ← get_nil;
      if decide (x = nil) then mret x else
      kx ← get_key x;
      if decide (k = kx) then mret x else
      if k <? kx then xl ← get_lson x; search_loop n k xl
      else xr ← get_rson x; search_loop n k xr
  end.
Definition rb_search (i_key : Z) : R addr := x ← get_root; rounds (λ n, search_loop n i_key x).

(** [None]: NULL. *)
Definition rb_search_key (i_key : Z) : R (option Z) :=
  nil ← get_nil; z ← rb_search i_key;
  if decide (z ≠ nil) then d ← get_data z; mret (Some d) else mret None.

(** The code, and [*out_data]. *)
Definition rb_delete_key (i_key : Z) : R (Z * option Z) :=
  nil ← get_nil; z ← rb_search i_key;
  if decide (z ≠ nil) then
    d ← get_data z; rb_delete z;; _ ← get_data z; delete_rbnode z;; mret (0, Some d)
  else mret (-1, None).

Definition tree_minimum_node : R addr :=
  nil ← get_nil; r ← get_root;
  if decide (r = nil) then mret nil else tree_minimum r.
Definition tree_minimum_key : R (Z * option Z) :=
  nil ← get_nil; r ← get_root;
  if decide (r = nil) then mret (0, None)
  else m ← tree_minimum r; d ← get_data m; k ← get_key m; mret (k, Some d).

(** The data [traversal_element] is called with, in order. *)
Fixpoint traversal_loop (n : nat) (x : addr) : R (list Z) :=
  match n with
  | O => stuck
  | S n =>
      nil ← get_nil; d ← get_data x;
      xl ← get_lson x;
      l1 ← (if decide (xl ≠ nil) then traversal_loop n xl else mret []);
      xr ← get_rson x;
      l2 ← (if decide (xr ≠ nil) then traversal_loop n xr else mret []);
      mret (d :: l1 ++ l2)
  end.
Definition rb_traversal : R (list Z) := x ← get_root; rounds (λ n, traversal_loop n x).

(** [rb_destroy]: the data [free_element] is called with, in order. *)
Fixpoint destroy_loop (n : nat) (x : addr) : R (list Z) :=
  match n with
  | O => stuck
  | S n =>
      nil ← get_nil;
      if decide (x = nil) then mret [] else
      y ← get_parent x;
      xl ← get_lson x;
      if decide (xl ≠ nil) then destroy_loop n xl else
      xr ← get_rson x;
      if decide (xr ≠ nil) then destroy_loop n xr else
      pl ← get_lson y;
      (if decide (x = pl) then set_lson y nil else set_rson y nil);;
      d ← get_data x;
      delete_rbnode x;;
      l ← destroy_loop n y;
      mret (d :: l)
  end.
Definition rb_destroy : R (list Z) := λ s, destroy_loop (2 * size (heap s)) (root s) s.
End rbtree.
