(* ===== verification/RbTreeHeap.v ===== *)
(** * The memory of src/datas/pure_rbtree: trees and paths in it, and rules to
    run the tree's code symbolically. *)

From S2P Require Import Prelude RbTree.

Local Open Scope Z_scope.

(** ** Finding a cell *)

(** [L] is a permutation of [x :: L']; instances search [L] from the left. *)
Class Pick {A} (x : A) (L L' : list A) := pick : L ≡ₚ x :: L'.
#[export] Hint Mode Pick - - ! - : typeclass_instances.

#[export] Instance pick_here {A} (x : A) L : Pick x (x :: L) L | 0.
Proof. unfold Pick. done. Qed.
#[export] Instance pick_cons {A} (x y : A) L L' : Pick x L L' → Pick x (y :: L) (y :: L') | 2.
Proof. unfold Pick. intros ->. apply Permutation_swap. Qed.
#[export] Instance pick_app_l {A} (x : A) L1 L1' L2 : Pick x L1 L1' → Pick x (L1 ++ L2) (L1' ++ L2) | 2.
Proof. unfold Pick. by intros ->. Qed.
#[export] Instance pick_app_r {A} (x : A) L1 L2 L2' : Pick x L2 L2' → Pick x (L1 ++ L2) (L1 ++ L2') | 3.
Proof. unfold Pick. intros ->. by rewrite Permutation_middle. Qed.

(** A block of cells. *)
Class PickBlock {A} (B L L' : list A) := pick_block : L ≡ₚ B ++ L'.
#[export] Hint Mode PickBlock - ! ! - : typeclass_instances.
#[export] Instance pick_block_here {A} (B L : list A) : PickBlock B (B ++ L) L | 0.
Proof. unfold PickBlock. done. Qed.
#[export] Instance pick_block_all {A} (B : list A) : PickBlock B B [] | 1.
Proof. unfold PickBlock. by rewrite app_nil_r. Qed.
#[export] Instance pick_block_cons {A} (y : A) B L L' : PickBlock B L L' → PickBlock B (y :: L) (y :: L') | 2.
Proof. unfold PickBlock. intros ->. by rewrite Permutation_middle. Qed.
#[export] Instance pick_block_app_l {A} (B L1 L1' L2 : list A) :
  PickBlock B L1 L1' → PickBlock B (L1 ++ L2) (L1' ++ L2) | 2.
Proof. unfold PickBlock. intros ->. by rewrite <- app_assoc. Qed.
#[export] Instance pick_block_app_r {A} (B L1 L2 L2' : list A) :
  PickBlock B L2 L2' → PickBlock B (L1 ++ L2) (L1 ++ L2') | 3.
Proof. unfold PickBlock. intros ->. rewrite !app_assoc. by rewrite (Permutation_app_comm L1 B). Qed.

Lemma perm_pick {A} (x : A) L L' T : Pick x L L' → L' ≡ₚ T → L ≡ₚ x :: T.
Proof. unfold Pick. by intros -> ->. Qed.
Lemma perm_pick_block {A} (B L L' T : list A) : PickBlock B L L' → L' ≡ₚ T → L ≡ₚ B ++ T.
Proof. unfold PickBlock. by intros -> ->. Qed.

(** Permutations of lists that are made of the same cells and blocks. *)
Ltac perm_step :=
  match goal with
  | |- ?L ≡ₚ ?L => reflexivity
  | |- _ ≡ₚ _ :: _ => eapply perm_pick; [apply _|]
  | |- _ ≡ₚ _ ++ _ => eapply perm_pick_block; [apply _|]
  end.
Ltac perm := repeat progress (rewrite <- ?app_assoc, ?app_nil_r; cbn [app]); repeat perm_step; try reflexivity.

(** ** Running code on a memory *)

(** The sentinel, the root, and every cell of the memory. *)
Definition holds (n r : addr) (L : list (addr * rb_node)) (s : pure_rbtree) : Prop :=
  nilp s = n ∧ root s = r ∧ map_to_list (heap s) ≡ₚ L.

#[export] Instance holds_proper n r : Proper ((≡ₚ) ==> (=) ==> iff) (holds n r).
Proof. intros L L' HL s s' <-. unfold holds. by rewrite HL. Qed.

(** From the state [r], [L], the code [m] is defined, ends, and leaves a state
    that [Q] holds of. *)
Definition run {A} (n r : addr) (L : list (addr * rb_node)) (m : R A)
    (Q : A → addr → list (addr * rb_node) → Prop) : Prop :=
  ∀ s, holds n r L s → wp m (λ a s', ∃ r' L', holds n r' L' s' ∧ Q a r' L') s.

#[export] Instance run_proper {A} n r : Proper ((≡ₚ) ==> (=) ==> (=) ==> iff) (@run A n r).
Proof. intros L L' HL m m' <- Q Q' <-. unfold run. by setoid_rewrite HL. Qed.

Section run.
Context (n : addr).
Implicit Types (L : list (addr * rb_node)) (r p q : addr) (v w : rb_node).

Lemma run_bind {A B} (m : R A) (k : A → R B) r L Q :
  run n r L m (λ a r' L', run n r' L' (k a) Q) → run n r L (m ≫= k) Q.
Proof.
  intros H s Hs. apply wp_bind. eapply wp_mono; [by apply H|].
  intros a s' (r'&L'&Hs'&Hk). by apply Hk.
Qed.

Lemma run_ret {A} (a : A) r L (Q : A → _) : Q a r L → run n r L (mret a) Q.
Proof. intros H s Hs. apply wp_ret. eauto. Qed.

Lemma run_mono {A} (m : R A) r L (Q Q' : A → _) :
  run n r L m Q → (∀ a r' L', Q a r' L' → Q' a r' L') → run n r L m Q'.
Proof. intros H HQ s Hs. eapply wp_mono; [by apply H|]. naive_solver. Qed.

Lemma run_perm {A} (m : R A) r L L' Q : L ≡ₚ L' → run n r L' m Q → run n r L m Q.
Proof. intros HL. by rewrite HL. Qed.

Lemma holds_lookup r L s p v L' : holds n r L s → Pick (p, v) L L' → heap s !! p = Some v.
Proof.
  unfold Pick. intros (_&_&Hs) HL. apply elem_of_map_to_list. rewrite Hs, HL. by apply list_elem_of_here.
Qed.

Lemma run_node r L p v L' (Q : rb_node → _) :
  Pick (p, v) L L' → Q v r L → run n r L (node p) Q.
Proof.
  intros HL HQ s Hs. unfold wp, node. rewrite (holds_lookup _ _ _ _ _ _ Hs HL). simpl. eauto.
Qed.

Lemma run_update f r L p v L' (Q : () → _) :
  Pick (p, v) L L' → Q () r ((p, f v) :: L') → run n r L (update f p) Q.
Proof.
  intros HL HQ s Hs. unfold wp, update. rewrite (holds_lookup _ _ _ _ _ _ Hs HL). simpl.
  destruct Hs as (Hn&Hr&Hs). eexists _, _. split; [|exact HQ]. split; [done|]. split; [done|]. simpl.
  rewrite <- insert_delete_eq. rewrite map_to_list_insert by apply lookup_delete_eq.
  unfold Pick in HL. rewrite HL in Hs. f_equiv.
  assert (Hlk : heap s !! p = Some v).
  { apply elem_of_map_to_list. rewrite Hs. by apply list_elem_of_here. }
  rewrite <- (map_to_list_delete _ _ _ Hlk) in Hs. by apply Permutation_cons_inv in Hs.
Qed.

Lemma run_get {A} (f : rb_node → A) r L p v L' (Q : A → _) :
  Pick (p, v) L L' → Q (f v) r L → run n r L (n ← node p; mret (f n)) Q.
Proof. intros HL HQ. apply run_bind. eapply run_node; [done|]. by apply run_ret. Qed.

Lemma run_get_nil r L (Q : addr → _) : Q n r L → run n r L get_nil Q.
Proof. intros HQ s Hs. apply wp_gets. destruct Hs as (Hn&Hr&Hs). rewrite Hn. exists r, L. done. Qed.
Lemma run_get_root r L (Q : addr → _) : Q r r L → run n r L get_root Q.
Proof. intros HQ s Hs. apply wp_gets. destruct Hs as (Hn&Hr&Hs). rewrite Hr. exists r, L. done. Qed.
Lemma run_set_root r L p (Q : () → _) : Q () p L → run n r L (set_root p) Q.
Proof. intros HQ s (Hn&Hr&Hs). apply wp_modify. exists p, L. done. Qed.

Lemma run_delete r L p v L' (Q : () → _) :
  Pick (p, v) L L' → Q () r L' → run n r L (delete_rbnode p) Q.
Proof.
  intros HL HQ s Hs. unfold wp, delete_rbnode.
  pose proof (holds_lookup _ _ _ _ _ _ Hs HL) as Hlk. rewrite Hlk. simpl.
  destruct Hs as (Hn&Hr&Hs). exists r, L'. split; [|exact HQ]. split; [done|]. split; [done|]. simpl.
  unfold Pick in HL. rewrite HL, <- (map_to_list_delete _ _ _ Hlk) in Hs. by apply Permutation_cons_inv in Hs.
Qed.

(** Different cells have different addresses. *)
Lemma run_ne {A} (m : R A) r L p v L' q w L'' Q :
  Pick (p, v) L L' → Pick (q, w) L' L'' → (p ≠ q → run n r L m Q) → run n r L m Q.
Proof.
  unfold Pick. intros H1 H2 H s Hs. apply H; [|done]. intros <-. destruct Hs as (_&_&Hs).
  pose proof (NoDup_fst_map_to_list (heap s)) as Hnd.
  rewrite Hs, H1, H2 in Hnd. simpl in Hnd. apply list.NoDup_cons in Hnd as [Hp _]. apply Hp.
  apply list_elem_of_here.
Qed.

Lemma run_nodup {A} (m : R A) r L Q : (NoDup L.*1 → run n r L m Q) → run n r L m Q.
Proof.
  intros H s Hs. apply H; [|done]. destruct Hs as (_&_&Hs).
  rewrite <- Hs. apply NoDup_fst_map_to_list.
Qed.

(** The cells fit the memory: loops have at least that many rounds. *)
Lemma run_rounds {A} (loop : nat → R A) r L Q :
  (∀ k, (length L < k)%nat → run n r L (loop k) Q) → run n r L (rounds loop) Q.
Proof.
  intros H s Hs. unfold rounds. apply (H (S (size (heap s)))); [|done].
  destruct Hs as (_&_&Hs). rewrite <- Hs, length_map_to_list. lia.
Qed.
End run.

(** ** Symbolic execution *)

Ltac run_step :=
  lazymatch goal with
  | |- run _ _ _ (mbind _ _) _ => apply run_bind
  | |- run _ _ _ (mret _) _ => apply run_ret
  | |- run _ _ _ get_nil _ => apply run_get_nil
  | |- run _ _ _ get_root _ => apply run_get_root
  | |- run _ _ _ (set_root _) _ => apply run_set_root
  | |- run _ _ _ (get_parent _) _ => eapply (run_get _ parent); [apply _|]
  | |- run _ _ _ (get_lson _) _ => eapply (run_get _ lson); [apply _|]
  | |- run _ _ _ (get_rson _) _ => eapply (run_get _ rson); [apply _|]
  | |- run _ _ _ (get_colour _) _ => eapply (run_get _ colour); [apply _|]
  | |- run _ _ _ (get_key _) _ => eapply (run_get _ key); [apply _|]
  | |- run _ _ _ (get_data _) _ => eapply (run_get _ data); [apply _|]
  | |- run _ _ _ (set_parent _ _) _ => eapply (run_update _ (with_parent _)); [apply _|]
  | |- run _ _ _ (set_lson _ _) _ => eapply (run_update _ (with_lson _)); [apply _|]
  | |- run _ _ _ (set_rson _ _) _ => eapply (run_update _ (with_rson _)); [apply _|]
  | |- run _ _ _ (set_colour _ _) _ => eapply (run_update _ (with_colour _)); [apply _|]
  | |- run _ _ _ (set_key _ _) _ => eapply (run_update _ (with_key _)); [apply _|]
  | |- run _ _ _ (set_data _ _) _ => eapply (run_update _ (with_data _)); [apply _|]
  | |- run _ _ _ (delete_rbnode _) _ => eapply run_delete; [apply _|]
  end;
  cbv [parent lson rson colour key data with_parent with_lson with_rson with_colour with_key with_data].
Ltac run_steps := repeat run_step.

(** [p] and [q], both cells of the memory, differ. *)
Ltac run_differ p q :=
  eapply (run_ne _ _ _ _ p _ _ q); [apply _|apply _|]; intros ?.

(** ** Trees and paths in the memory *)

Inductive tree := Leaf | Node (a : addr) (c k d : Z) (l r : tree).

(** One step of a path: the node above, and its other son.  [FL]: the path
    goes on in the left son. *)
Inductive frame := FL (a : addr) (c k d : Z) (sib : tree) | FR (a : addr) (c k d : Z) (sib : tree).
Definition fa (f : frame) : addr := match f with FL a _ _ _ _ | FR a _ _ _ _ => a end.
Definition fc (f : frame) : Z := match f with FL _ c _ _ _ | FR _ c _ _ _ => c end.
Definition path := list frame.

Definition plug1 (f : frame) (t : tree) : tree :=
  match f with FL a c k d sib => Node a c k d t sib | FR a c k d sib => Node a c k d sib t end.
Fixpoint plug (ctx : path) (t : tree) : tree :=
  match ctx with [] => t | f :: ctx => plug ctx (plug1 f t) end.

Definition ptr (n : addr) (t : tree) : addr := match t with Leaf => n | Node a _ _ _ _ _ => a end.
Definition top (n : addr) (ctx : path) : addr := match ctx with [] => n | f :: _ => fa f end.
Fixpoint root_of (ctx : path) (p : addr) : addr :=
  match ctx with [] => p | f :: ctx => root_of ctx (fa f) end.

Fixpoint nodes (n : addr) (t : tree) (par : addr) : list (addr * rb_node) :=
  match t with
  | Leaf => []
  | Node a c k d l r =>
      (a, mk_rb_node par (ptr n l) (ptr n r) c k d) :: nodes n l a ++ nodes n r a
  end.
Fixpoint path_nodes (n : addr) (ctx : path) (p : addr) : list (addr * rb_node) :=
  match ctx with
  | [] => []
  | FL a c k d sib :: ctx =>
      (a, mk_rb_node (top n ctx) p (ptr n sib) c k d) :: nodes n sib a ++ path_nodes n ctx a
  | FR a c k d sib :: ctx =>
      (a, mk_rb_node (top n ctx) (ptr n sib) p c k d) :: nodes n sib a ++ path_nodes n ctx a
  end.

(** The sentinel: black, its parent is whatever it was last set to. *)
Definition sentinel (n np : addr) : addr * rb_node := (n, mk_rb_node np n n BLACK 0 0).

(** The memory: [t] at the end of the path [ctx], the sentinel, and [F]. *)
Definition memory (n : addr) (t : tree) (ctx : path) (np : addr) (F : list (addr * rb_node)) :=
  nodes n t (top n ctx) ++ path_nodes n ctx (ptr n t) ++ sentinel n np :: F.

(** Code that starts with the focus on [t] below [ctx]. *)
Definition zip {A} (n : addr) (t : tree) (ctx : path) (np : addr) F (m : R A) Q : Prop :=
  run n (root_of ctx (ptr n t)) (memory n t ctx np F) m Q.

(** Cells of the memory that are not the sentinel, and a son's address. *)
Lemma ptr_cases n t par : (t = Leaf ∧ ptr n t = n) ∨ ∃ v L, nodes n t par = (ptr n t, v) :: L.
Proof. destruct t; [by left|right]. simpl. eauto. Qed.

Lemma run_ne_ptr {A} n (m : R A) r L p v L' t par L'' w L3 Q :
  Pick (p, v) L L' → PickBlock (nodes n t par) L' L'' → Pick (n, w) L'' L3 →
  (p ≠ ptr n t → run n r L m Q) → run n r L m Q.
Proof.
  unfold Pick, PickBlock. intros H1 H2 H3 H.
  destruct (ptr_cases n t par) as [[-> E]|(u&B&E)].
  - rewrite E in H. eapply (run_ne _ _ _ _ p v L' n w); [exact H1| |exact H].
    unfold Pick. rewrite H2, H3. simpl. reflexivity.
  - eapply (run_ne _ _ _ _ p v L' (ptr n t) u); [exact H1| |exact H].
    unfold Pick. rewrite H2, E. simpl. reflexivity.
Qed.

Ltac run_differ_ptr p t :=
  eapply (run_ne_ptr _ _ _ _ p _ _ t); [apply _|apply _|unfold sentinel; apply _|]; intros ?.

(** The focus is on [t'] below [ctx']. *)
Definition into {A} (n : addr) (t : tree) (ctx : path) (np : addr) F (_ : A) r L : Prop :=
  r = root_of ctx (ptr n t) ∧ L ≡ₚ memory n t ctx np F.

Lemma zip_seq {A B} n t ctx np F t' ctx' np' F' (m : R A) (k : A → R B) Q :
  zip n t ctx np F m (into n t' ctx' np' F') → (∀ a, zip n t' ctx' np' F' (k a) Q) →
  zip n t ctx np F (m ≫= k) Q.
Proof.
  intros Hm Hk. apply run_bind. eapply run_mono; [exact Hm|].
  intros a r' L' [-> HL]. rewrite HL. apply Hk.
Qed.

Lemma zip_end {A} n t ctx np F r L (a : A) :
  r = root_of ctx (ptr n t) → L ≡ₚ memory n t ctx np F → into n t ctx np F a r L.
Proof. by split. Qed.

(** Tests of the code on addresses. *)
Ltac run_if :=
  first [rewrite decide_True by (done || congruence)
        |rewrite decide_False by (done || congruence || (intros Hn; by apply Hn))].
Ltac zip_unfold := unfold zip, memory, sentinel; cbn [nodes ptr top path_nodes fa fc root_of].
Ltac zip_finish :=
  apply zip_end; [done|]; unfold memory, sentinel; cbn [nodes ptr top path_nodes fa fc root_of]; perm.

(** ** The rotations *)

Lemma left_rotate_zip n x cx kx dx a y cy ky dy b c ctx np F :
  zip n (Node x cx kx dx a (Node y cy ky dy b c)) ctx np F (left_rotate x)
    (into n (Node y cy ky dy (Node x cx kx dx a b) c) ctx np F).
Proof.
  zip_unfold. unfold left_rotate. run_differ x n. run_differ y n.
  destruct b as [|z cz kz dz bl br]; cbn [nodes ptr]; [|run_differ z n];
  (destruct ctx as [|[q cq kq dq sib|q cq kq dq sib] ctx]; cbn [top path_nodes fa root_of];
   [|run_differ q n; run_differ_ptr x sib|run_differ q n; run_differ_ptr x sib]);
  run_steps; run_if; run_steps; run_if; run_steps; try (run_if; run_steps);
  zip_finish.
Qed.

Lemma right_rotate_zip n x cx kx dx y cy ky dy a b c ctx np F :
  zip n (Node x cx kx dx (Node y cy ky dy a b) c) ctx np F (right_rotate x)
    (into n (Node y cy ky dy a (Node x cx kx dx b c)) ctx np F).
Proof.
  zip_unfold. unfold right_rotate. run_differ x n. run_differ y n.
  destruct b as [|z cz kz dz bl br]; cbn [nodes ptr]; [|run_differ z n];
  (destruct ctx as [|[q cq kq dq sib|q cq kq dq sib] ctx]; cbn [top path_nodes fa root_of];
   [|run_differ q n; run_differ_ptr x sib|run_differ q n; run_differ_ptr x sib]);
  run_steps; run_if; run_steps; run_if; run_steps; try (run_if; run_steps);
  zip_finish.
Qed.

(** A call whose effect is known as [into]. *)
Lemma run_into {A} n (m : R A) r L t ctx np F Q :
  run n r L m (into n t ctx np F) → (∀ a, Q a (root_of ctx (ptr n t)) (memory n t ctx np F)) →
  run n r L m Q.
Proof.
  intros Hm HQ s Hs. eapply wp_mono; [by apply Hm|].
  intros a s' (r'&L'&Hs'&->&HL). exists (root_of ctx (ptr n t)), (memory n t ctx np F).
  split; [by rewrite <- HL|done].
Qed.

Lemma run_left_rotate n x cx kx dx a y cy ky dy b c ctx np F r L (Q : () → _) :
  r = root_of ctx x → L ≡ₚ memory n (Node x cx kx dx a (Node y cy ky dy b c)) ctx np F →
  Q () (root_of ctx y) (memory n (Node y cy ky dy (Node x cx kx dx a b) c) ctx np F) →
  run n r L (left_rotate x) Q.
Proof.
  intros -> -> HQ. eapply run_into; [apply left_rotate_zip|]. by intros [].
Qed.

Lemma run_right_rotate n x cx kx dx y cy ky dy a b c ctx np F r L (Q : () → _) :
  r = root_of ctx x → L ≡ₚ memory n (Node x cx kx dx (Node y cy ky dy a b) c) ctx np F →
  Q () (root_of ctx y) (memory n (Node y cy ky dy a (Node x cx kx dx b c)) ctx np F) →
  run n r L (right_rotate x) Q.
Proof.
  intros -> -> HQ. eapply run_into; [apply right_rotate_zip|]. by intros [].
Qed.

(** A path folds back into the tree. *)
Lemma memory_plug1 n f t ctx np F : memory n t (f :: ctx) np F ≡ₚ memory n (plug1 f t) ctx np F.
Proof.
  unfold memory. destruct f; cbn [nodes path_nodes ptr top fa root_of plug1]; perm.
Qed.
Lemma memory_plug n ctx t np F :
  memory n t ctx np F ≡ₚ memory n (plug ctx t) [] np F.
Proof. revert t. induction ctx as [|f ctx IH]; intros t; [done|]. by rewrite memory_plug1, IH. Qed.
Lemma root_of_plug n ctx t : root_of ctx (ptr n t) = ptr n (plug ctx t).
Proof. revert t. induction ctx as [|f ctx IH]; intros t; [done|]. simpl. rewrite <- IH. by destruct f. Qed.
Lemma zip_plug {A} n t ctx np F (m : R A) Q :
  zip n t ctx np F m Q ↔ zip n (plug ctx t) [] np F m Q.
Proof. unfold zip. by rewrite memory_plug, root_of_plug. Qed.
