(* ===== verification/RbTreeInsert.v ===== *)
(** * src/datas/pure_rbtree: insertion keeps the tree sorted and balanced. *)

From stdpp Require Import sorting.
From S2P Require Import Prelude RbTree RbTreeHeap.

Local Open Scope Z_scope.

(** ** Contents and balance *)

(** The nodes from left to right: address, key, data. *)
Fixpoint elements (t : tree) : list (addr * Z * Z) :=
  match t with
  | Leaf => []
  | Node a _ k d l r => elements l ++ (a, k, d) :: elements r
  end.
Fixpoint before (ctx : path) : list (addr * Z * Z) :=
  match ctx with
  | [] => []
  | FL _ _ _ _ _ :: ctx => before ctx
  | FR a _ k d sib :: ctx => before ctx ++ elements sib ++ [(a, k, d)]
  end.
Fixpoint after (ctx : path) : list (addr * Z * Z) :=
  match ctx with
  | [] => []
  | FL a _ k d sib :: ctx => (a, k, d) :: elements sib ++ after ctx
  | FR _ _ _ _ _ :: ctx => after ctx
  end.

Lemma elements_plug ctx t : elements (plug ctx t) = before ctx ++ elements t ++ after ctx.
Proof.
  revert t. induction ctx as [|f ctx IH]; intros t; simpl; [by rewrite app_nil_r|].
  rewrite IH. destruct f; simpl; by rewrite <- ?app_assoc.
Qed.

Definition keys (t : tree) : list Z := (λ e, e.1.2) <$> elements t.

(** [rb pc t h]: below a node of colour [pc], [t] has black height [h] and no
    red node with a red son. *)
Fixpoint rb (pc : Z) (t : tree) (h : nat) : Prop :=
  match t with
  | Leaf => h = O
  | Node _ c _ _ l r =>
      (c = RED ∧ pc = BLACK ∧ rb RED l h ∧ rb RED r h) ∨
      (c = BLACK ∧ ∃ h', h = S h' ∧ rb BLACK l h' ∧ rb BLACK r h')
  end.

(** The colour above the end of a path; a root has to be black. *)
Definition pcol (ctx : path) : Z := match ctx with [] => RED | f :: _ => fc f end.
Fixpoint rb_path (ctx : path) (h : nat) : Prop :=
  match ctx with
  | [] => True
  | FL _ c _ _ sib :: ctx | FR _ c _ _ sib :: ctx =>
      (c = RED ∧ pcol ctx = BLACK ∧ rb RED sib h ∧ rb_path ctx h) ∨
      (c = BLACK ∧ rb BLACK sib h ∧ rb_path ctx (S h))
  end.

Lemma rb_black pc t h : rb pc t h → rb BLACK t h.
Proof. destruct t; simpl; naive_solver. Qed.

Lemma rb_plug ctx t h : rb_path ctx h → rb (pcol ctx) t h → ∃ h', rb RED (plug ctx t) h'.
Proof.
  revert t h. induction ctx as [|f ctx IH]; intros t h; simpl; [eauto|].
  destruct f as [a c k d sib|a c k d sib]; simpl;
  (intros [(->&Hp&Hs&Hc)|(->&Hs&Hc)] Ht;
   [apply (IH _ h); [done|]; rewrite Hp; simpl; left; done
   |apply (IH _ (S h)); [done|]; simpl; right; split; [done|]; exists h; done]).
Qed.

(** A red-black tree in the sense of the code: sorted by key (equal keys may
    stand on either side), balanced, with a black root. *)
Definition rbt (t : tree) : Prop := StronglySorted Z.le (keys t) ∧ ∃ h, rb RED t h.

Lemma BLACK_RED : BLACK ≠ RED. Proof. done. Qed.

(** ** The fixing loop of the insertion *)

(** What the loop leaves: a non-empty tree of the same contents that is
    balanced once its root is black. *)
Definition insert_fixed (n : addr) (t : tree) (np : addr) F {A} (_ : A) r L : Prop :=
  ∃ a c k d tl tr h, rb BLACK tl h ∧ rb BLACK tr h ∧ elements t = elements (Node a c k d tl tr) ∧
    r = a ∧ L ≡ₚ memory n (Node a c k d tl tr) [] np F.

Lemma insert_fixed_root n a k d l r h np F (x : ()) :
  rb RED l h → rb RED r h →
  insert_fixed n (Node a RED k d l r) np F x a (memory n (Node a RED k d l r) [] np F).
Proof. intros Hl Hr. exists a, RED, k, d, l, r, h. repeat split; eauto using rb_black. Qed.

Lemma insert_fixed_plug n ctx t h np F (x : ()) :
  ctx ≠ [] → rb_path ctx h → rb (pcol ctx) t h →
  insert_fixed n (plug ctx t) np F x (root_of ctx (ptr n t)) (memory n t ctx np F).
Proof.
  intros Hne Hctx Ht. destruct (rb_plug _ _ _ Hctx Ht) as [h' Hrb].
  pose proof (root_of_plug n ctx t) as Hroot. pose proof (memory_plug n ctx t np F) as Hmem.
  destruct (plug ctx t) as [|a c k d tl tr] eqn:E.
  { exfalso. assert (Hl : length (elements (plug ctx t)) = O) by by rewrite E.
    rewrite elements_plug, !length_app in Hl. destruct ctx as [|[] ctx]; simpl in Hl; [done|lia|].
    rewrite !length_app in Hl. simpl in Hl. lia. }
  destruct Hrb as [(_&?&_)|(->&h''&_&Hl&Hr)]; [done|].
  exists a, BLACK, k, d, tl, tr, h''. rewrite Hroot, Hmem. done.
Qed.

Lemma insert_fixed_elements n t t' np F (x : ()) r L :
  elements t = elements t' → insert_fixed n t np F x r L → insert_fixed n t' np F x r L.
Proof. unfold insert_fixed. intros E (a&c&k&d&tl&tr&h&?&?&?&?). exists a, c, k, d, tl, tr, h. by rewrite <- E. Qed.

Lemma zip_elements n t ctx t' np F (m : R ()) :
  elements (plug ctx t) = elements t' →
  zip n t ctx np F m (insert_fixed n (plug ctx t) np F) → zip n t ctx np F m (insert_fixed n t' np F).
Proof. intros E H. eapply run_mono; [exact H|]. intros [] r L. by apply insert_fixed_elements. Qed.

(** The steps of a turn: the reads up to the test of the uncle's colour, a
    rotation, and the next turn. *)
Ltac turn_start f :=
  zip_unfold; cbn [insert_fixup_loop]; unfold f; run_steps; run_if; run_steps; run_if; run_steps;
  run_if; run_steps.
Ltac turn_start_right p u f :=
  zip_unfold; run_differ p u; cbn [insert_fixup_loop]; unfold f; run_steps; run_if; run_steps; run_if;
  run_steps; run_if; run_steps.
Ltac turn_perm := unfold memory, sentinel; cbn [nodes ptr top path_nodes fa fc root_of]; perm.
Ltac turn_right_rotate x y a b c ctx :=
  eapply (run_right_rotate _ x _ _ _ y _ _ _ a b c ctx); [done|turn_perm|]; zip_unfold; run_steps.
Ltac turn_left_rotate x a y b c ctx :=
  eapply (run_left_rotate _ x _ _ _ a y _ _ _ b c ctx); [done|turn_perm|]; zip_unfold; run_steps.
Ltac turn_elements := rewrite !elements_plug; simpl; repeat progress (rewrite <- ?app_assoc; simpl); done.
Ltac rb_auto := simpl in *; naive_solver eauto using rb_black.
Ltac turn_end H z l r ctx h :=
  eapply (H z _ _ l r h ctx); [simpl; lia|rb_auto..|done|turn_perm|turn_elements].

(** A turn of the loop at a red node below a red parent: the grandparent [g]
    takes its son's place with the colours exchanged, or the path gets shorter. *)
Lemma insert_fixup_loop_run n fuel : ∀ z kz dz l r h ctx np F,
  (length ctx < fuel)%nat → rb RED l h → rb RED r h → rb_path ctx h →
  zip n (Node z RED kz dz l r) ctx np F (insert_fixup_loop fuel z)
    (insert_fixed n (plug ctx (Node z RED kz dz l r)) np F).
Proof.
  induction fuel as [|fuel IH]; intros z kz dz l r h ctx np F Hfuel Hl Hr Hctx; [lia|].
  assert (Hnext : ∀ z kz dz l r h ctx t' R L, (length ctx < fuel)%nat → rb RED l h → rb RED r h →
    rb_path ctx h → R = root_of ctx z → L ≡ₚ memory n (Node z RED kz dz l r) ctx np F →
    elements (plug ctx (Node z RED kz dz l r)) = elements t' →
    run n R L (insert_fixup_loop fuel z) (insert_fixed n t' np F)).
  { intros z' kz' dz' l' r' h' ctx' t' R' L' ???? -> -> E. apply (zip_elements n _ _ _ _ _ _ E).
    by apply (IH z' kz' dz' l' r' h'). }
  assert (Hnode : rb BLACK (Node z RED kz dz l r) h) by (left; done).
  destruct ctx as [|f ctx].
  { zip_unfold. cbn [insert_fixup_loop]. run_steps. run_if. apply run_ret.
    by apply (insert_fixed_root n z kz dz l r h). }
  assert (Hf : (fc f = BLACK) ∨ (fc f = RED ∧ pcol ctx = BLACK)).
  { destruct f; simpl in *; naive_solver. }
  destruct Hf as [Hf|[Hf Hg]].
  { pose proof (insert_fixed_plug n (f :: ctx) (Node z RED kz dz l r) h np F ()) as Hfix.
    simpl pcol in Hfix. rewrite Hf in Hfix. specialize (Hfix ltac:(done) Hctx Hnode).
    revert Hfix. destruct f as [a c k d sib|a c k d sib]; simpl in Hf; subst c; zip_unfold;
      cbn [insert_fixup_loop]; intros Hfix; run_steps; run_if; apply run_ret; exact Hfix. }
  destruct ctx as [|g ctx]; [done|]. simpl in Hg.
  destruct f as [p cp kp dp ps|p cp kp dp ps], g as [g cg kg dg u|g cg kg dg u];
    simpl in Hf, Hg; subst cp cg; destruct Hctx as [(_&_&Hps&[(?&_)|(_&Hu&Hctx)])|(?&_)]; try done;
    simpl in Hfuel.
  - destruct u as [|ua uc uk ud ul ur]; [|destruct Hu as [(->&_&Hul&Hur)|(->&h'&->&Hul&Hur)]].
    + turn_start insert_fixup_left. run_differ_ptr z ps. run_if. run_steps.
      turn_right_rotate g p (Node z RED kz dz l r) ps Leaf ctx.
      turn_end Hnext z l r (FL p BLACK kp dp (Node g RED kg dg ps Leaf) :: ctx) h.
    + turn_start insert_fixup_left.
      turn_end Hnext g (Node p BLACK kp dp (Node z RED kz dz l r) ps) (Node ua BLACK uk ud ul ur) ctx (S h).
    + turn_start insert_fixup_left. run_differ_ptr z ps. run_if. run_steps.
      turn_right_rotate g p (Node z RED kz dz l r) ps (Node ua BLACK uk ud ul ur) ctx.
      turn_end Hnext z l r (FL p BLACK kp dp (Node g RED kg dg ps (Node ua BLACK uk ud ul ur)) :: ctx) (S h').
  - destruct u as [|ua uc uk ud ul ur]; [|destruct Hu as [(->&_&Hul&Hur)|(->&h'&->&Hul&Hur)]].
    + turn_start_right p n insert_fixup_right. run_if. run_steps.
      turn_right_rotate p z l r ps (FR g BLACK kg dg Leaf :: ctx).
      turn_left_rotate g Leaf z l (Node p RED kp dp r ps) ctx.
      turn_end Hnext p r ps (FR z BLACK kz dz (Node g RED kg dg Leaf l) :: ctx) h.
    + turn_start_right p ua insert_fixup_right.
      turn_end Hnext g (Node ua BLACK uk ud ul ur) (Node p BLACK kp dp (Node z RED kz dz l r) ps) ctx (S h).
    + turn_start_right p ua insert_fixup_right. run_if. run_steps.
      turn_right_rotate p z l r ps (FR g BLACK kg dg (Node ua BLACK uk ud ul ur) :: ctx).
      turn_left_rotate g (Node ua BLACK uk ud ul ur) z l (Node p RED kp dp r ps) ctx.
      turn_end Hnext p r ps (FR z BLACK kz dz (Node g RED kg dg (Node ua BLACK uk ud ul ur) l) :: ctx) (S h').
  - destruct u as [|ua uc uk ud ul ur]; [|destruct Hu as [(->&_&Hul&Hur)|(->&h'&->&Hul&Hur)]].
    + turn_start insert_fixup_left. run_if. run_steps.
      turn_left_rotate p ps z l r (FL g BLACK kg dg Leaf :: ctx).
      turn_right_rotate g z (Node p RED kp dp ps l) r Leaf ctx.
      turn_end Hnext p ps l (FL z BLACK kz dz (Node g RED kg dg r Leaf) :: ctx) h.
    + turn_start insert_fixup_left.
      turn_end Hnext g (Node p BLACK kp dp ps (Node z RED kz dz l r)) (Node ua BLACK uk ud ul ur) ctx (S h).
    + turn_start insert_fixup_left. run_if. run_steps.
      turn_left_rotate p ps z l r (FL g BLACK kg dg (Node ua BLACK uk ud ul ur) :: ctx).
      turn_right_rotate g z (Node p RED kp dp ps l) r (Node ua BLACK uk ud ul ur) ctx.
      turn_end Hnext p ps l (FL z BLACK kz dz (Node g RED kg dg r (Node ua BLACK uk ud ul ur)) :: ctx) (S h').
  - destruct u as [|ua uc uk ud ul ur]; [|destruct Hu as [(->&_&Hul&Hur)|(->&h'&->&Hul&Hur)]].
    + turn_start_right p n insert_fixup_right. run_differ_ptr z ps. run_if. run_steps.
      turn_left_rotate g Leaf p ps (Node z RED kz dz l r) ctx.
      turn_end Hnext z l r (FR p BLACK kp dp (Node g RED kg dg Leaf ps) :: ctx) h.
    + turn_start_right p ua insert_fixup_right.
      turn_end Hnext g (Node ua BLACK uk ud ul ur) (Node p BLACK kp dp ps (Node z RED kz dz l r)) ctx (S h).
    + turn_start_right p ua insert_fixup_right. run_differ_ptr z ps. run_if. run_steps.
      turn_left_rotate g (Node ua BLACK uk ud ul ur) p ps (Node z RED kz dz l r) ctx.
      turn_end Hnext z l r (FR p BLACK kp dp (Node g RED kg dg (Node ua BLACK uk ud ul ur) ps) :: ctx) (S h').
Qed.

(** ** The descent *)

Fixpoint tree_size (t : tree) : nat :=
  match t with Leaf => O | Node _ _ _ _ l r => S (tree_size l + tree_size r) end.
Lemma nodes_length n t par : length (nodes n t par) = tree_size t.
Proof. revert par. induction t as [|a c k d l IHl r IHr]; intros par; simpl; [done|]. rewrite length_app, IHl, IHr. done. Qed.

Lemma tree_rounds {A} n t np F L (loop : nat → R A) r Q :
  L ≡ₚ memory n t [] np F → (∀ k, (tree_size t < k)%nat → run n r L (loop k) Q) → run n r L (rounds loop) Q.
Proof.
  intros HL H. apply run_rounds. intros k Hk. apply H. rewrite HL in Hk. unfold memory in Hk.
  rewrite length_app, nodes_length in Hk. lia.
Qed.

(** Where a key is put. *)
Fixpoint place (k : Z) (ctx : path) (t : tree) : path :=
  match t with
  | Leaf => ctx
  | Node a c kx d l r =>
      if k <? kx then place k (FL a c kx d r :: ctx) l else place k (FR a c kx d l :: ctx) r
  end.

Lemma place_plug k t : ∀ ctx, plug (place k ctx t) Leaf = plug ctx t.
Proof. induction t as [|a c kx d l IHl r IHr]; intros ctx; simpl; [done|]. case_match; by rewrite ?IHl, ?IHr. Qed.

Lemma place_rb k t : ∀ ctx h, rb_path ctx h → rb (pcol ctx) t h → rb_path (place k ctx t) O.
Proof.
  induction t as [|a c kx d l IHl r IHr]; intros ctx h Hc; simpl; [by intros ->|].
  intros [(->&Hp&Hl&Hr)|(->&h'&->&Hl&Hr)]; case_match;
    (eapply IHl || eapply IHr); simpl; eauto 10 using rb_black.
Qed.

(** All to the left are at most [k], all to the right are greater. *)
Definition split_at (k : Z) (ctx : path) : Prop :=
  Forall (λ e, e.1.2 ≤ k) (before ctx) ∧ Forall (λ e, k < e.1.2) (after ctx).

Lemma StronglySorted_app_inv (l1 l2 : list Z) :
  StronglySorted Z.le (l1 ++ l2) →
  StronglySorted Z.le l1 ∧ StronglySorted Z.le l2 ∧ ∀ x y, x ∈ l1 → y ∈ l2 → x ≤ y.
Proof.
  induction l1 as [|z l1 IH]; simpl.
  { intros H. split; [constructor|]. split; [done|]. intros x y Hx. by apply not_elem_of_nil in Hx. }
  intros H. apply StronglySorted_inv in H as [H Hz]. destruct (IH H) as (H1&H2&Hle).
  rewrite Forall_app in Hz. destruct Hz as [Hz1 Hz2]. split; [by constructor|]. split; [done|].
  intros x y Hx Hy. apply elem_of_cons in Hx as [->|Hx]; [|by apply Hle].
  rewrite Forall_forall in Hz2. by apply Hz2, list_elem_of_In.
Qed.
Lemma StronglySorted_app_intro (l1 l2 : list Z) :
  StronglySorted Z.le l1 → StronglySorted Z.le l2 → (∀ x y, x ∈ l1 → y ∈ l2 → x ≤ y) →
  StronglySorted Z.le (l1 ++ l2).
Proof.
  intros H1 H2 Hle. induction H1 as [|z l1 H1 IH Hz]; simpl; [done|]. constructor.
  - apply IH. intros x y Hx. apply Hle. by apply elem_of_cons; right.
  - apply Forall_app. split; [done|]. apply Forall_forall. intros y Hy. apply Hle.
    + by apply elem_of_cons; left.
    + by apply list_elem_of_In.
Qed.

Lemma sorted_node a c k d l r :
  StronglySorted Z.le (keys (Node a c k d l r)) →
  StronglySorted Z.le (keys l) ∧ StronglySorted Z.le (keys r) ∧
  Forall (λ e, e.1.2 ≤ k) (elements l) ∧ Forall (λ e, k ≤ e.1.2) (elements r).
Proof.
  unfold keys. simpl. rewrite fmap_app, fmap_cons. simpl. intros H.
  apply StronglySorted_app_inv in H as (Hl&Hr&Hle). apply StronglySorted_inv in Hr as [Hr Hk].
  split; [done|]. split; [done|]. split.
  - apply Forall_forall. intros e He. apply Hle; [apply list_elem_of_fmap|by apply elem_of_cons; left].
    exists e. split; [done|]. by apply list_elem_of_In.
  - rewrite Forall_fmap in Hk. exact Hk.
Qed.

Lemma place_split k t : ∀ ctx, StronglySorted Z.le (keys t) → split_at k ctx → split_at k (place k ctx t).
Proof.
  induction t as [|a c kx d l IHl r IHr]; intros ctx Hs Hc; simpl; [done|].
  apply sorted_node in Hs as (Hl&Hr&Hle&Hge). destruct Hc as [Hb Ha].
  destruct (Z.ltb_spec k kx); [apply IHl|apply IHr]; try done; split; simpl; try done.
  - constructor; [simpl; lia|]. apply Forall_app. split; [|done]. eapply List.Forall_impl; [|exact Hge]. simpl. lia.
  - apply Forall_app. split; [done|]. apply Forall_app. split; [|by repeat constructor].
    eapply List.Forall_impl; [|exact Hle]. simpl. lia.
Qed.

(** The side the last test of a descent chose. *)
Definition side_ok (k : Z) (ctx : path) : Prop :=
  match ctx with [] => True | FL _ _ kx _ _ :: _ => k < kx | FR _ _ kx _ _ :: _ => kx ≤ k end.
Lemma place_side k t : ∀ ctx, side_ok k ctx → side_ok k (place k ctx t).
Proof.
  induction t as [|a c kx d l IHl r IHr]; intros ctx Hc; simpl; [done|].
  destruct (Z.ltb_spec k kx); [by apply IHl|by apply IHr].
Qed.

Lemma descend_run n k t : ∀ fuel ctx np F (Q : addr → _),
  (tree_size t < fuel)%nat →
  (∀ r' L, r' = root_of (place k ctx t) n → L ≡ₚ memory n Leaf (place k ctx t) np F →
    Q (top n (place k ctx t)) r' L) →
  zip n t ctx np F (descend fuel k (top n ctx) (ptr n t)) Q.
Proof.
  induction t as [|a c kx d l IHl r IHr]; intros fuel ctx np F Q Hf HQ;
    (destruct fuel as [|fuel]; [lia|]); cbn [descend].
  - unfold zip. run_steps. run_if. apply run_ret. by apply HQ.
  - simpl in Hf. zip_unfold. run_differ a n. run_steps. run_if. run_steps.
    cbn [place] in HQ. destruct (k <? kx); run_steps.
    + eapply run_perm; [|apply (IHl fuel (FL a c kx d r :: ctx) np F); [lia|exact HQ]]. turn_perm.
    + eapply run_perm; [|apply (IHr fuel (FR a c kx d l :: ctx) np F); [lia|exact HQ]]. turn_perm.
Qed.

(** ** Insertion *)

(** [l'] is [l] with [e] put behind all keys that are not greater. *)
Definition put_in_order (e : addr * Z * Z) (l l' : list (addr * Z * Z)) : Prop :=
  ∃ l1 l2, l = l1 ++ l2 ∧ l' = l1 ++ e :: l2 ∧
    Forall (λ e', e'.1.2 ≤ e.1.2) l1 ∧ Forall (λ e', e.1.2 < e'.1.2) l2.

(** The code's result: a red-black tree [t'] of the contents [P] describes. *)
Definition tree_with (n : addr) (P : list (addr * Z * Z) → Prop) F {A} (_ : A) (r : addr)
    (L : list (addr * rb_node)) : Prop :=
  ∃ t' np, rbt t' ∧ P (elements t') ∧ r = ptr n t' ∧ L ≡ₚ memory n t' [] np F.

Lemma sorted_put k a d l1 l2 :
  StronglySorted Z.le ((λ e : addr * Z * Z, e.1.2) <$> (l1 ++ l2)) →
  Forall (λ e, e.1.2 ≤ k) l1 → Forall (λ e, k < e.1.2) l2 →
  StronglySorted Z.le ((λ e : addr * Z * Z, e.1.2) <$> (l1 ++ (a, k, d) :: l2)).
Proof.
  rewrite !fmap_app. intros Hs H1 H2. apply StronglySorted_app_inv in Hs as (Hs1&Hs2&Hle).
  rewrite Forall_forall in H1, H2. apply StronglySorted_app_intro; [done| |].
  - simpl. constructor; [done|]. apply Forall_forall. intros x Hx.
    apply list_elem_of_In, list_elem_of_fmap in Hx as (e&->&He). specialize (H2 e).
    rewrite <- list_elem_of_In in H2. specialize (H2 He). lia.
  - simpl. intros x y Hx Hy. apply list_elem_of_fmap in Hx as (e&->&He).
    assert (e.1.2 ≤ k) by (apply H1; by apply list_elem_of_In).
    apply elem_of_cons in Hy as [->|Hy]; [done|]. apply list_elem_of_fmap in Hy as (e'&->&He').
    assert (k < e'.1.2) by (apply H2; by apply list_elem_of_In). lia.
Qed.

Lemma insert_fixup_run n z k d ctx np F :
  rb_path ctx O →
  zip n (Node z RED k d Leaf Leaf) ctx np F (rb_insert_fixup z)
    (λ _ r L, ∃ t', (∃ h, rb RED t' h) ∧ elements t' = before ctx ++ (z, k, d) :: after ctx ∧
      r = ptr n t' ∧ L ≡ₚ memory n t' [] np F).
Proof.
  intros Hctx. unfold zip, rb_insert_fixup. apply run_bind.
  apply (run_perm _ _ _ _ _ _ (memory_plug n ctx _ np F)).
  eapply (tree_rounds n); [reflexivity|]. intros fuel Hfuel.
  rewrite root_of_plug. change (ptr n (plug ctx (Node z RED k d Leaf Leaf))) with (root_of [] (ptr n (plug ctx (Node z RED k d Leaf Leaf)))).
  eapply run_mono; [eapply (proj1 (zip_plug n (Node z RED k d Leaf Leaf) ctx np F _ _))|].
  - apply (insert_fixup_loop_run n fuel z k d Leaf Leaf O); [|done..].
    enough (length ctx ≤ tree_size (plug ctx (Node z RED k d Leaf Leaf)))%nat by lia.
    generalize (Node z RED k d Leaf Leaf). clear. intros t.
    enough (length ctx + tree_size t ≤ tree_size (plug ctx t))%nat by lia.
    revert t. induction ctx as [|f ctx IH]; intros t; simpl; [done|].
    specialize (IH (plug1 f t)). destruct f; simpl in *; lia.
  - intros [] r L (a&c&ka&da&tl&tr&h&Hl&Hr&E&->&HL).
    rewrite HL. zip_unfold. run_steps. exists (Node a BLACK ka da tl tr).
    split; [exists (S h); right; eauto|].
    split; [by rewrite elements_plug in E|]. split; [done|]. turn_perm.
Qed.

Lemma rb_insert_run n t np z v F :
  rbt t →
  run n (ptr n t) (memory n t [] np ((z, v) :: F)) (rb_insert z)
    (tree_with n (put_in_order (z, key v, data v) (elements t)) F).
Proof.
  intros [Hs [h Hrb]]. destruct v as [pz lz rz cz k d]. simpl key. simpl data. unfold rb_insert.
  apply run_bind, run_get_nil, run_bind, run_get_root, run_bind.
  unfold memory, sentinel. run_steps. 
  eapply (tree_rounds n t np ((z, mk_rb_node pz lz rz cz k d) :: F)); [turn_perm|]. intros fuel Hfuel.
  set (ctx := place k [] t).
  eapply run_perm; [|apply (descend_run n k t fuel [] np ((z, mk_rb_node pz lz rz cz k d) :: F)); [done|]].
  { turn_perm. }
  intros r' L -> ->. fold ctx.
  assert (Hside : side_ok k ctx) by by apply place_side.
  assert (Hsplit : split_at k ctx) by by apply place_split.
  assert (Hctx : rb_path ctx O) by by apply (place_rb k t [] h).
  assert (Hplug : plug ctx Leaf = t) by apply place_plug.
  assert (Hel : elements t = before ctx ++ after ctx) by (rewrite <- Hplug, elements_plug; done).
  assert (Hend : ∀ r L, r = root_of ctx z → L ≡ₚ memory n (Node z RED k d Leaf Leaf) ctx np F →
    run n r L (rb_insert_fixup z) (tree_with n (put_in_order (z, k, d) (elements t)) F)).
  { intros r2 L2 -> ->. eapply run_mono; [by apply insert_fixup_run|].
    intros [] r2 L3 (t'&Hrb'&E&->&HL). exists t', np. split; [split; [|done]|].
    - unfold keys. rewrite E. apply sorted_put; [|apply Hsplit..]. rewrite <- Hel. exact Hs.
    - split; [|done]. rewrite E. exists (before ctx), (after ctx). destruct Hsplit. done. }
  clearbody ctx. clear Hplug. zip_unfold. 
  destruct ctx as [|[a c ka da sib|a c ka da sib] ctx]; cbn [top fa path_nodes root_of] in *.
  - run_steps. run_if. run_steps. apply Hend; [done|turn_perm].
  - run_differ a n. run_steps. run_if. run_steps. simpl in Hside. destruct (Z.ltb_spec k ka); [|lia].
    run_steps. apply Hend; [done|turn_perm].
  - run_differ a n. run_steps. run_if. run_steps. simpl in Hside. destruct (Z.ltb_spec k ka); [lia|].
    run_steps. apply Hend; [done|turn_perm].
Qed.
