(* ===== verification/RbTreeDelete.v ===== *)
(** * src/datas/pure_rbtree: deletion keeps the tree sorted and balanced. *)

From stdpp Require Import sorting.
From S2P Require Import Prelude RbTree RbTreeHeap RbTreeInsert.

Local Open Scope Z_scope.

(** ** Reads through the address of a subtree, which may be the sentinel *)

Definition col (t : tree) : Z := match t with Leaf => BLACK | Node _ c _ _ _ _ => c end.

Lemma run_colour_ptr n t par np r L L' L'' (Q : Z → _) :
  PickBlock (nodes n t par) L L' → Pick (n, mk_rb_node np n n BLACK 0 0) L' L'' →
  Q (col t) r L → run n r L (get_colour (ptr n t)) Q.
Proof.
  unfold PickBlock, Pick. intros H1 H2 HQ. destruct t as [|a c k d tl tr].
  - apply (run_get _ colour _ _ n (mk_rb_node np n n BLACK 0 0) (nodes n Leaf par ++ L'')); [|exact HQ].
    unfold Pick. rewrite H1, H2. simpl. reflexivity.
  - eapply (run_get _ colour _ _ a (mk_rb_node par (ptr n tl) (ptr n tr) c k d)); [|exact HQ].
    unfold Pick. rewrite H1. simpl. reflexivity.
Qed.

Lemma run_parent_ptr n t par np r L L' L'' (Q : addr → _) :
  PickBlock (nodes n t par) L L' → Pick (n, mk_rb_node np n n BLACK 0 0) L' L'' →
  (t = Leaf → np = par) → Q par r L → run n r L (get_parent (ptr n t)) Q.
Proof.
  unfold PickBlock, Pick. intros H1 H2 Hp HQ. destruct t as [|a c k d tl tr].
  - rewrite <- (Hp eq_refl) in HQ.
    apply (run_get _ parent _ _ n (mk_rb_node np n n BLACK 0 0) (nodes n Leaf par ++ L'')); [|exact HQ].
    unfold Pick. rewrite H1, H2. simpl. reflexivity.
  - eapply (run_get _ parent _ _ a (mk_rb_node par (ptr n tl) (ptr n tr) c k d)); [|exact HQ].
    unfold Pick. rewrite H1. simpl. reflexivity.
Qed.

Ltac del_step :=
  lazymatch goal with
  | |- run _ _ _ (get_colour (ptr _ _)) _ => eapply run_colour_ptr; [apply _|apply _|]
  | |- run _ _ _ (get_parent (ptr _ _)) _ => eapply run_parent_ptr; [apply _|apply _|assumption|]
  | _ => run_step
  end.
Ltac del_steps := repeat del_step.

Lemma col_black t h : col t = BLACK → rb BLACK t h → rb RED t h.
Proof. destruct t; simpl; naive_solver. Qed.
Lemma col_not_black t h : col t ≠ BLACK → rb BLACK t h →
  ∃ a k d l r, t = Node a RED k d l r ∧ rb RED l h ∧ rb RED r h.
Proof. destruct t as [|a c k d l r]; simpl; [done|]. intros Hc [(->&_&?&?)|(->&_)]; [|done]. eauto 10. Qed.

(** ** The fixing loop of the deletion *)

(** With a black sibling: either it becomes red and the node above lacks one
    black node, or a tree takes the node's place that is as high as it should
    be, and the loop ends at the root. *)
Definition fixed_at (n : addr) (old : tree) (cp : Z) (h : nat) ctx np F (Q : addr → addr → list (addr * rb_node) → Prop) : Prop :=
  ∀ r L q kq dq tl tr, rb RED tl h → rb RED tr h →
    elements (Node q cp kq dq tl tr) = elements old →
    r = root_of ctx q → L ≡ₚ memory n (Node q cp kq dq tl tr) ctx np F → Q r r L.
Definition red_at (n : addr) (t : tree) ctx np F (Q : addr → addr → list (addr * rb_node) → Prop) : Prop :=
  ∀ r L, r = root_of ctx (ptr n t) → L ≡ₚ memory n t ctx np F → Q (ptr n t) r L.

Ltac del_done H q tl tr :=
  eapply (H _ _ q _ _ tl tr); [rb_auto|rb_auto|simpl; repeat progress (rewrite <- ?app_assoc; simpl); done|done|turn_perm].
Ltac del_rotate_l x a y b c ctx :=
  eapply (run_left_rotate _ x _ _ _ a y _ _ _ b c ctx); [done|turn_perm|]; zip_unfold; del_steps.
Ltac del_rotate_r x y a b c ctx :=
  eapply (run_right_rotate _ x _ _ _ y _ _ _ a b c ctx); [done|turn_perm|]; zip_unfold; del_steps.

Lemma tail_left_run n x p cp kp dp w kw dw wl wr h ctx np F Q r L :
  (x = Leaf → np = p) → rb BLACK x h → rb BLACK wl h → rb BLACK wr h →
  (rb RED wl h → rb RED wr h → red_at n (Node p cp kp dp x (Node w RED kw dw wl wr)) ctx np F Q) →
  fixed_at n (Node p cp kp dp x (Node w BLACK kw dw wl wr)) cp (S h) ctx np F Q →
  r = root_of ctx p → L ≡ₚ memory n (Node p cp kp dp x (Node w BLACK kw dw wl wr)) ctx np F →
  run n r L (delete_fixup_left_tail (ptr n x) w) Q.
Proof.
  intros Hnp Hx Hwl Hwr Hup Hdone -> ->. unfold delete_fixup_left_tail. zip_unfold.
  del_steps. destruct (decide (col wl = BLACK ∧ col wr = BLACK)) as [[Hcl Hcr]|Hc].
  { del_steps. apply Hup; [by apply col_black..|done|turn_perm]. }
  del_steps. destruct (decide (col wr = BLACK)) as [Hcr|Hcr].
  - assert (Hcl : col wl ≠ BLACK) by tauto.
    destruct (col_not_black _ _ Hcl Hwl) as (a&k&d&l1&r1&->&Hl1&Hr1). cbn [ptr nodes]. del_steps.
    del_rotate_r w a l1 r1 wr (FR p cp kp dp x :: ctx).
    del_rotate_l p x a l1 (Node w BLACK kw dw r1 wr) ctx.
    del_done Hdone a (Node p BLACK kp dp x l1) (Node w BLACK kw dw r1 wr).
  - destruct (col_not_black _ _ Hcr Hwr) as (a&k&d&l1&r1&->&Hl1&Hr1). cbn [ptr nodes]. del_steps.
    del_rotate_l p x w wl (Node a BLACK k d l1 r1) ctx.
    del_done Hdone w (Node p BLACK kp dp x wl) (Node a BLACK k d l1 r1).
Qed.

Lemma tail_right_run n x p cp kp dp w kw dw wl wr h ctx np F Q r L :
  (x = Leaf → np = p) → rb BLACK x h → rb BLACK wl h → rb BLACK wr h →
  (rb RED wl h → rb RED wr h → red_at n (Node p cp kp dp (Node w RED kw dw wl wr) x) ctx np F Q) →
  fixed_at n (Node p cp kp dp (Node w BLACK kw dw wl wr) x) cp (S h) ctx np F Q →
  r = root_of ctx p → L ≡ₚ memory n (Node p cp kp dp (Node w BLACK kw dw wl wr) x) ctx np F →
  run n r L (delete_fixup_right_tail (ptr n x) w) Q.
Proof.
  intros Hnp Hx Hwl Hwr Hup Hdone -> ->. unfold delete_fixup_right_tail. zip_unfold.
  del_steps. destruct (decide (col wl = BLACK ∧ col wr = BLACK)) as [[Hcl Hcr]|Hc].
  { del_steps. apply Hup; [by apply col_black..|done|turn_perm]. }
  del_steps. destruct (decide (col wl = BLACK)) as [Hcl|Hcl].
  - assert (Hcr : col wr ≠ BLACK) by tauto.
    destruct (col_not_black _ _ Hcr Hwr) as (a&k&d&l1&r1&->&Hl1&Hr1). cbn [ptr nodes]. del_steps.
    del_rotate_l w wl a l1 r1 (FL p cp kp dp x :: ctx).
    del_rotate_r p a (Node w BLACK kw dw wl l1) r1 x ctx.
    del_done Hdone a (Node w BLACK kw dw wl l1) (Node p BLACK kp dp r1 x).
  - destruct (col_not_black _ _ Hcl Hwl) as (a&k&d&l1&r1&->&Hl1&Hr1). cbn [ptr nodes]. del_steps.
    del_rotate_r p w (Node a BLACK k d l1 r1) wr x ctx.
    del_done Hdone w (Node a BLACK k d l1 r1) (Node p BLACK kp dp wr x).
Qed.

Definition blacken (t : tree) : tree :=
  match t with Leaf => Leaf | Node a _ k d l r => Node a BLACK k d l r end.

(** What the loop leaves: a subtree that only has to be blackened. *)
Definition delete_fixed (n : addr) (old : tree) F (x : addr) r L : Prop :=
  ∃ t ctx np h, x = ptr n t ∧ r = root_of ctx (ptr n t) ∧ L ≡ₚ memory n t ctx np F ∧
    elements (plug ctx t) = elements old ∧ rb_path ctx h ∧ rb RED (blacken t) h.

Lemma ptr_in n t par : ptr n t = n ∨ ptr n t ∈ (nodes n t par).*1.
Proof. destruct t; [by left|right]. simpl. apply list_elem_of_here. Qed.

Lemma root_in n ctx p q : root_of ctx p = p ∨ root_of ctx p ∈ (path_nodes n ctx q).*1.
Proof.
  revert p q. induction ctx as [|f ctx IH]; intros p q; [by left|]. right.
  destruct f as [a c k d sib|a c k d sib]; cbn [root_of fa path_nodes]; rewrite fmap_cons, fmap_app; simpl;
    (destruct (IH a a) as [->|H]; [apply list_elem_of_here|apply list_elem_of_further, elem_of_app; by right]).
Qed.

(** A subtree below a node is not the root. *)
Lemma run_ne_root {A} n (m : R A) r L t par L1 p v L2 ctx q L3 w L4 Q :
  PickBlock (nodes n t par) L L1 → Pick (p, v) L1 L2 → PickBlock (path_nodes n ctx q) L2 L3 →
  Pick (n, w) L3 L4 → (ptr n t ≠ root_of ctx p → run n r L m Q) → run n r L m Q.
Proof.
  unfold PickBlock, Pick. intros H1 H2 H3 H4 H. apply run_nodup. intros Hnd. apply H.
  rewrite H1, H2, H3, H4, fmap_app, fmap_cons, fmap_app, fmap_cons in Hnd. simpl in Hnd.
  apply list_relations.list.NoDup_app in Hnd as (_&Hd&Hnd). apply list.NoDup_cons in Hnd as [Hp Hnd].
  apply list_relations.list.NoDup_app in Hnd as (_&Hd2&_).
  destruct (ptr_in n t par) as [E|Hx], (root_in n ctx p q) as [E'|Hr]; intros Heq.
  - apply Hp. rewrite <- E', <- Heq, E. apply elem_of_app. right. apply list_elem_of_here.
  - apply (Hd2 _ Hr). rewrite <- Heq, E. apply list_elem_of_here.
  - apply (Hd _ Hx). rewrite Heq, E'. apply list_elem_of_here.
  - apply (Hd _ Hx). rewrite Heq. apply list_elem_of_further, elem_of_app. by left.
Qed.

Ltac run_not_root x p ctx :=
  eapply (run_ne_root _ _ _ _ x _ _ p _ _ ctx); [apply _|apply _|apply _|apply _|]; intros ?.

Lemma delete_loop_exit n fuel t ctx np F old h r L :
  (0 < fuel)%nat → (ctx = [] ∨ col t = RED) → rb_path ctx h → rb RED (blacken t) h →
  elements (plug ctx t) = elements old → r = root_of ctx (ptr n t) → L ≡ₚ memory n t ctx np F →
  run n r L (delete_fixup_loop fuel (ptr n t)) (delete_fixed n old F).
Proof.
  intros Hf Hx Hctx Ht E -> ->. destruct fuel as [|fuel]; [lia|]. cbn [delete_fixup_loop].
  assert (Hfix : ∀ r L, r = root_of ctx (ptr n t) → L ≡ₚ memory n t ctx np F →
    delete_fixed n old F (ptr n t) r L).
  { intros r0 L0 -> HL0. exists t, ctx, np, h. done. }
  zip_unfold. run_steps. case_decide as Hroot; [apply run_ret, Hfix; [done|turn_perm]|].
  destruct Hx as [->|Hc]; [done|]. del_steps. rewrite Hc. run_if. apply run_ret, Hfix; [done|turn_perm].
Qed.

(** A tree in its place: the loop ends at the root. *)
Lemma delete_loop_done n fuel t ctx np F old h r L :
  (0 < fuel)%nat → rb_path ctx h → rb (pcol ctx) t h → elements (plug ctx t) = elements old →
  r = root_of ctx (ptr n t) → L ≡ₚ memory n t ctx np F →
  run n r L (delete_fixup_loop fuel r) (delete_fixed n old F).
Proof.
  intros Hf Hctx Ht E -> ->. destruct (rb_plug _ _ _ Hctx Ht) as [h' Hrb].
  rewrite root_of_plug. eapply (delete_loop_exit n fuel (plug ctx t) [] np F old h');
    [done|by left|done| |done|done|apply memory_plug].
  destruct (plug ctx t); [done|]. simpl in Hrb. destruct Hrb as [(_&?&_)|(_&Hrb)]; [done|]. by right.
Qed.

(** The outcomes of a turn on the tree [old] of one black node more than [h]:
    the tree is as it should be, and the loop goes to the root; or it goes on
    at a subtree that lacks a black node, which is red or further up. *)
Definition turn_done (n : addr) (old : tree) np F (Q : addr → addr → list (addr * rb_node) → Prop) : Prop :=
  ∀ t ctx h r L, rb_path ctx h → rb (pcol ctx) t h → elements (plug ctx t) = elements old →
    r = root_of ctx (ptr n t) → L ≡ₚ memory n t ctx np F → Q r r L.
Definition turn_up (n : addr) (old : tree) (len : nat) np F (Q : addr → addr → list (addr * rb_node) → Prop) : Prop :=
  ∀ a c k d l r' ctx h r L (t := Node a c k d l r'),
    (c = RED ∧ rb_path ctx (S h) ∧ rb RED (blacken t) (S h)) ∨
    (c = BLACK ∧ (length ctx ≤ len)%nat ∧ rb BLACK t h ∧ rb_path ctx (S h)) →
    elements (plug ctx t) = elements old → r = root_of ctx (ptr n t) → L ≡ₚ memory n t ctx np F → Q a r L.

Lemma black_sibling f p cp kp dp w cw kw dw wl wr h ctx :
  f = FL p cp kp dp (Node w cw kw dw wl wr) ∨ f = FR p cp kp dp (Node w cw kw dw wl wr) →
  cw ≠ RED → rb_path (f :: ctx) (S h) →
  cw = BLACK ∧ rb BLACK wl h ∧ rb BLACK wr h ∧
  ((cp = RED ∧ pcol ctx = BLACK ∧ rb_path ctx (S h)) ∨ (cp = BLACK ∧ rb_path ctx (S (S h)))).
Proof. intros [-> | ->] Hcw; simpl; naive_solver. Qed.

Lemma turn_left_run n x p cp kp dp w cw kw dw wl wr h ctx np F Q :
  (x = Leaf → np = p) → rb BLACK x h → rb_path (FL p cp kp dp (Node w cw kw dw wl wr) :: ctx) (S h) →
  turn_done n (plug ctx (Node p cp kp dp x (Node w cw kw dw wl wr))) np F Q →
  turn_up n (plug ctx (Node p cp kp dp x (Node w cw kw dw wl wr))) (length ctx) np F Q →
  zip n x (FL p cp kp dp (Node w cw kw dw wl wr) :: ctx) np F (delete_fixup_left (ptr n x)) Q.
Proof.
  intros Hnp Hx Hctx Hdone Hup. unfold delete_fixup_left. zip_unfold. del_steps.
  destruct (decide (cw = RED)) as [->|Hcw].
  - simpl in Hctx. destruct Hctx as [(_&_&[(_&?&_)|(?&_)]&_)|(->&Hw&Hctx)]; [done..|].
    destruct Hw as [(_&_&Hwl&Hwr)|(?&_)]; [|done].
    destruct wl as [|v cv kv dv vl vr]; [done|].
    destruct Hwl as [(_&?&_)|(->&h'&[= <-]&Hvl&Hvr)]; [done|]. cbn [nodes ptr]. del_steps.
    del_rotate_l p x w (Node v BLACK kv dv vl vr) wr ctx.
    eapply (tail_left_run n x p RED kp dp v kv dv vl vr h (FL w BLACK kw dw wr :: ctx)); try done.
    + intros Hl Hr r L -> HL. apply (Hup p RED kp dp x (Node v RED kv dv vl vr) (FL w BLACK kw dw wr :: ctx) h); [left|..|exact HL]; try done.
      * rb_auto.
      * turn_elements.
    + intros r L q kq dq tl tr Htl Htr E -> HL.
      eapply (Hdone (Node q RED kq dq tl tr) (FL w BLACK kw dw wr :: ctx) (S h)); [rb_auto|rb_auto| |done|exact HL].
      rewrite elements_plug, E. turn_elements.
    + turn_perm.
  - destruct (black_sibling _ _ _ _ _ _ _ _ _ _ _ _ _ (or_introl eq_refl) Hcw Hctx) as (->&Hwl&Hwr&Hcp). apply run_ret.
    eapply (tail_left_run n x p cp kp dp w kw dw wl wr h ctx); try done; [..|turn_perm].
    + intros Hl Hr r L -> HL. destruct Hcp as [(->&_&Hctx')|(->&Hctx')].
      * apply (Hup p RED kp dp x (Node w RED kw dw wl wr) ctx h); [left; rb_auto|turn_elements|done|exact HL].
      * apply (Hup p BLACK kp dp x (Node w RED kw dw wl wr) ctx (S h)); [right; rb_auto|turn_elements|done|exact HL].
    + intros r L q kq dq tl tr Htl Htr E -> HL. destruct Hcp as [(->&Hp&Hctx')|(->&Hctx')].
      * eapply (Hdone (Node q RED kq dq tl tr) ctx (S h)); [done|rewrite Hp; rb_auto| |done|exact HL].
        by rewrite !elements_plug, E.
      * eapply (Hdone (Node q BLACK kq dq tl tr) ctx (S (S h))); [done|rb_auto| |done|exact HL].
        by rewrite !elements_plug, E.
Qed.

Lemma turn_right_run n x p cp kp dp w cw kw dw wl wr h ctx np F Q :
  (x = Leaf → np = p) → rb BLACK x h → rb_path (FR p cp kp dp (Node w cw kw dw wl wr) :: ctx) (S h) →
  turn_done n (plug ctx (Node p cp kp dp (Node w cw kw dw wl wr) x)) np F Q →
  turn_up n (plug ctx (Node p cp kp dp (Node w cw kw dw wl wr) x)) (length ctx) np F Q →
  zip n x (FR p cp kp dp (Node w cw kw dw wl wr) :: ctx) np F (delete_fixup_right (ptr n x)) Q.
Proof.
  intros Hnp Hx Hctx Hdone Hup. unfold delete_fixup_right. zip_unfold. del_steps.
  destruct (decide (cw = RED)) as [->|Hcw].
  - simpl in Hctx. destruct Hctx as [(_&_&[(_&?&_)|(?&_)]&_)|(->&Hw&Hctx)]; [done..|].
    destruct Hw as [(_&_&Hwl&Hwr)|(?&_)]; [|done].
    destruct wr as [|v cv kv dv vl vr]; [done|].
    destruct Hwr as [(_&?&_)|(->&h'&[= <-]&Hvl&Hvr)]; [done|]. cbn [nodes ptr]. del_steps.
    del_rotate_r p w wl (Node v BLACK kv dv vl vr) x ctx.
    eapply (tail_right_run n x p RED kp dp v kv dv vl vr h (FR w BLACK kw dw wl :: ctx)); try done.
    + intros Hl Hr r L -> HL. apply (Hup p RED kp dp (Node v RED kv dv vl vr) x (FR w BLACK kw dw wl :: ctx) h); [left|..|exact HL]; try done.
      * rb_auto.
      * turn_elements.
    + intros r L q kq dq tl tr Htl Htr E -> HL.
      eapply (Hdone (Node q RED kq dq tl tr) (FR w BLACK kw dw wl :: ctx) (S h)); [rb_auto|rb_auto| |done|exact HL].
      rewrite elements_plug, E. turn_elements.
    + turn_perm.
  - destruct (black_sibling _ _ _ _ _ _ _ _ _ _ _ _ _ (or_intror eq_refl) Hcw Hctx) as (->&Hwl&Hwr&Hcp). apply run_ret.
    eapply (tail_right_run n x p cp kp dp w kw dw wl wr h ctx); try done; [..|turn_perm].
    + intros Hl Hr r L -> HL. destruct Hcp as [(->&_&Hctx')|(->&Hctx')].
      * apply (Hup p RED kp dp (Node w RED kw dw wl wr) x ctx h); [left; rb_auto|turn_elements|done|exact HL].
      * apply (Hup p BLACK kp dp (Node w RED kw dw wl wr) x ctx (S h)); [right; rb_auto|turn_elements|done|exact HL].
    + intros r L q kq dq tl tr Htl Htr E -> HL. destruct Hcp as [(->&Hp&Hctx')|(->&Hctx')].
      * eapply (Hdone (Node q RED kq dq tl tr) ctx (S h)); [done|rewrite Hp; rb_auto| |done|exact HL].
        by rewrite !elements_plug, E.
      * eapply (Hdone (Node q BLACK kq dq tl tr) ctx (S (S h))); [done|rb_auto| |done|exact HL].
        by rewrite !elements_plug, E.
Qed.

Lemma delete_fixup_loop_run n old F fuel : ∀ t ctx np h r L,
  (length ctx + 1 < fuel)%nat → (t = Leaf → np = top n ctx) → rb BLACK t h →
  (ctx = [] ∨ rb_path ctx (S h)) →
  elements (plug ctx t) = elements old → r = root_of ctx (ptr n t) → L ≡ₚ memory n t ctx np F →
  run n r L (delete_fixup_loop fuel (ptr n t)) (delete_fixed n old F).
Proof.
  induction fuel as [|fuel IH]; intros t ctx np h r L Hf Hnp Ht Hctx E Hr HL; [lia|].
  assert (Hblack : ∃ h', rb RED (blacken t) h' ∧ (col t = RED → h' = S h)).
  { destruct t as [|a c k d tl tr]; [by exists O|]. simpl in Ht |- *.
    destruct Ht as [(->&_&Hl&Hr')|(->&h'&->&Hl&Hr')].
    - exists (S h). split; [|done]. right. split; [done|]. exists h. split; [done|]. eauto using rb_black.
    - exists (S h'). split; [|done]. right. eauto. }
  destruct Hblack as (h'&Hb&Hh').
  destruct Hctx as [->|Hctx]; [eapply (delete_loop_exit n (S fuel) t [] np F old h'); [lia|by left|done..]|].
  destruct (decide (col t = RED)) as [Hc|Hc].
  { eapply (delete_loop_exit n (S fuel) t ctx np F old (S h)); [lia|by right|done| |done..].
    by rewrite <- (Hh' Hc). }
  assert (Hcol : col t = BLACK).
  { destruct t as [|a c k d tl tr]; [done|]. simpl in *. naive_solver. }
  destruct ctx as [|f ctx]; [eapply (delete_loop_exit n (S fuel) t [] np F old h'); [lia|by left|done..]|].
  subst r. rewrite HL. clear HL Hb Hh' Hc. cbn [length] in Hf. cbn [delete_fixup_loop].
  assert (Hdone : ∀ old', elements old' = elements old → turn_done n old' np F
    (λ a r L, run n r L (delete_fixup_loop fuel a) (delete_fixed n old F))).
  { intros old' Eo t' ctx' h2 r L' Hc Ht' E' Hr HL. eapply delete_loop_done; [lia|exact Hc|exact Ht'| |exact Hr|exact HL].
    by rewrite E'. }
  assert (Hup : ∀ old', elements old' = elements old → turn_up n old' (length ctx) np F
    (λ a r L, run n r L (delete_fixup_loop fuel a) (delete_fixed n old F))).
  { intros old' Eo a c k d l r2 ctx' h2 r L' t' [(->&Hc&Ht')|(->&Hlen&Ht'&Hc)] E' Hr HL.
    - eapply (delete_loop_exit n fuel t' ctx' np F old (S h2)); [lia|by right|done|done|by rewrite E'|done|done].
    - eapply (IH t' ctx' np h2); [lia|done|done|by right|by rewrite E'|done|done]. }
  destruct f as [p cp kp dp w|p cp kp dp w]; cbn [top fa] in Hnp.
  - destruct w as [|w cw kw dw wl wr]; [simpl in Hctx; naive_solver lia|].
    zip_unfold. run_not_root t p ctx. del_steps. run_if. del_steps. rewrite Hcol. run_if.
    del_steps. run_if.
    eapply run_perm; [|eapply (turn_left_run n t p cp kp dp w cw kw dw wl wr h ctx np F); try done].
    + turn_perm.
    + by apply Hdone.
    + by apply Hup.
  - destruct w as [|w cw kw dw wl wr]; [simpl in Hctx; naive_solver lia|].
    zip_unfold. run_not_root t p ctx. run_differ_ptr w t. del_steps. run_if. del_steps. rewrite Hcol. run_if.
    del_steps. run_if.
    eapply run_perm; [|eapply (turn_right_run n t p cp kp dp w cw kw dw wl wr h ctx np F); try done].
    + turn_perm.
    + by apply Hdone.
    + by apply Hup.
Qed.
