(* ===== verification/RbTreeOps.v ===== *)
(** * src/datas/pure_rbtree: deletion, lookup and the minimum, and what each
    operation does to the contents. *)

From stdpp Require Import sorting.
From S2P Require Import Prelude RbTree RbTreeHeap RbTreeInsert RbTreeDelete.

Local Open Scope Z_scope.

(** ** Replacing a subtree *)

Lemma run_to {A} n (m : R A) r L R0 L0 Q :
  run n r L m (λ _ r' L', r' = R0 ∧ L' ≡ₚ L0) → (∀ a, Q a R0 L0) → run n r L m Q.
Proof.
  intros Hm HQ s Hs. eapply wp_mono; [by apply Hm|].
  intros a s' (r'&L'&Hs'&->&HL). exists R0, L0. split; [by rewrite <- HL|done].
Qed.

Lemma run_res {A} n (m : R A) r L (res : A) R0 L0 (Q : A → addr → list (addr * rb_node) → Prop) :
  Q res R0 L0 → run n r L m (λ a r' L', a = res ∧ r' = R0 ∧ L' ≡ₚ L0) → run n r L m Q.
Proof.
  intros HQ Hm s Hs. eapply wp_mono; [by apply Hm|].
  intros a s' (r'&L'&Hs'&->&->&HL). exists R0, L0. split; [by rewrite <- HL|done].
Qed.

(** The sentinel's parent after a subtree has been put below [ctx]. *)
Definition parent_of (n : addr) (v : tree) (p np : addr) : addr := match v with Leaf => p | _ => np end.

Lemma run_transplant n u ul ur cu ku du v par ctx np F r L (Q : () → _) :
  r = root_of ctx u →
  L ≡ₚ (u, mk_rb_node (top n ctx) ul ur cu ku du) :: nodes n v par ++ path_nodes n ctx u ++ sentinel n np :: F →
  Q () (root_of ctx (ptr n v))
    ((u, mk_rb_node (top n ctx) ul ur cu ku du) :: memory n v ctx (parent_of n v (top n ctx) np) F) →
  run n r L (rb_transplant u (ptr n v)) Q.
Proof.
  intros -> -> HQ. eapply run_to; [|by intros []]. clear HQ. unfold rb_transplant, sentinel.
  run_differ u n.
  destruct v as [|a c k d vl vr]; cbn [nodes ptr];
  (destruct ctx as [|[q cq kq dq sib|q cq kq dq sib] ctx]; cbn [top path_nodes fa root_of];
   [|run_differ q n|run_differ q n; run_differ_ptr u sib]);
  run_steps; run_if; run_steps; try (run_if; run_steps);
  (split; [done|]; unfold memory, sentinel; cbn [nodes ptr top path_nodes fa root_of parent_of]; perm).
Qed.

(** ** The minimum *)

Definition is_left (f : frame) : Prop := match f with FL _ _ _ _ _ => True | FR _ _ _ _ _ => False end.

Lemma plug_app ctx1 ctx2 t : plug (ctx1 ++ ctx2) t = plug ctx2 (plug ctx1 t).
Proof. revert t. induction ctx1 as [|f ctx1 IH]; intros t; simpl; [done|]. apply IH. Qed.

(** The leftmost node of a tree: an address, colour, key and data, the right
    son, and the path of left turns to it. *)
Fixpoint leftmost (a : addr) (c k d : Z) (l r : tree) : addr * Z * Z * Z * tree * path :=
  match l with
  | Leaf => (a, c, k, d, r, [])
  | Node a' c' k' d' l' r' =>
      let '(b, ctx) := leftmost a' c' k' d' l' r' in (b, ctx ++ [FL a c k d r])
  end.

Lemma leftmost_spec l : ∀ a c k d r y cy ky dy yr ctx,
  leftmost a c k d l r = (y, cy, ky, dy, yr, ctx) →
  Node a c k d l r = plug ctx (Node y cy ky dy Leaf yr) ∧ Forall is_left ctx ∧
  (ctx = [] ↔ l = Leaf).
Proof.
  induction l as [|a' c' k' d' l' IH r' _]; intros a c k d r y cy ky dy yr ctx; cbn [leftmost].
  { by intros [= <- <- <- <- <- <-]. }
  destruct (leftmost a' c' k' d' l' r') as [[[[[y' cy'] ky'] dy'] yr'] ctx'] eqn:E.
  intros [= -> -> -> -> -> <-]. apply IH in E as (E&Hl&_). rewrite plug_app, <- E. simpl.
  split; [done|]. split; [apply Forall_app; split; [done|by repeat constructor]|].
  split; [|done]. intros H. by apply app_eq_nil in H as [_ ?].
Qed.

(** The cell at the focus, read without changing the view of the memory. *)
Lemma memory_cell n a c k d l r ctx np F L :
  L ≡ₚ memory n (Node a c k d l r) ctx np F →
  ∃ L', Pick (a, mk_rb_node (top n ctx) (ptr n l) (ptr n r) c k d) L L'.
Proof. intros HL. eexists. unfold Pick. rewrite HL. unfold memory. cbn [nodes app ptr]. reflexivity. Qed.

Lemma sentinel_cell n t ctx np F L :
  L ≡ₚ memory n t ctx np F → ∃ L', Pick (n, mk_rb_node np n n BLACK 0 0) L L'.
Proof.
  intros HL. eexists (nodes n t (top n ctx) ++ path_nodes n ctx (ptr n t) ++ F).
  unfold Pick. rewrite HL. turn_perm.
Qed.

Lemma run_ne_nil {A} n a c k d l r ctx np F root L (m : R A) Q :
  L ≡ₚ memory n (Node a c k d l r) ctx np F → (a ≠ n → run n root L m Q) → run n root L m Q.
Proof.
  intros HL. rewrite HL. zip_unfold. intros H. run_differ a n. auto.
Qed.

Lemma minimum_run n l : ∀ a c k d r y cy ky dy yr pctx fuel ctx np F root L (Q : addr → _),
  leftmost a c k d l r = (y, cy, ky, dy, yr, pctx) → (tree_size (Node a c k d l r) < fuel)%nat →
  L ≡ₚ memory n (Node a c k d l r) ctx np F → Q y root L →
  run n root L (minimum_loop fuel a) Q.
Proof.
  induction l as [|a' c' k' d' l' IH r' _]; intros a c k d r y cy ky dy yr pctx fuel ctx np F root L Q;
    (destruct fuel as [|fuel]; [simpl; lia|]); cbn [leftmost minimum_loop]; intros E Hf HL HQ;
    destruct (memory_cell _ _ _ _ _ _ _ _ _ _ _ HL) as [L' HL'].
  - injection E as <- _ _ _ _ _. run_steps. cbn [ptr]. by run_if; run_steps.
  - destruct (leftmost a' c' k' d' l' r') as [[[[[y' cy'] ky'] dy'] yr'] ctx'] eqn:E'.
    injection E as -> -> -> -> -> _.
    assert (HL2 : L ≡ₚ memory n (Node a' c' k' d' l' r') (FL a c k d r :: ctx) np F).
    { rewrite HL. symmetry. apply (memory_plug1 n (FL a c k d r)). }
    apply (run_ne_nil _ _ _ _ _ _ _ _ _ _ _ _ _ _ HL2). intros Hne.
    run_steps. cbn [ptr]. run_if.
    eapply IH; [exact E'|simpl in *; lia|exact HL2|exact HQ].
Qed.

Lemma tree_minimum_run n a c k d l r y cy ky dy yr pctx ctx np F root L (Q : addr → _) :
  leftmost a c k d l r = (y, cy, ky, dy, yr, pctx) →
  L ≡ₚ memory n (Node a c k d l r) ctx np F → Q y root L →
  run n root L (tree_minimum a) Q.
Proof.
  intros E HL HQ. apply run_rounds. intros fuel Hf.
  eapply minimum_run; [exact E| |exact HL|exact HQ].
  rewrite HL in Hf. unfold memory in Hf. rewrite length_app, nodes_length in Hf. lia.
Qed.

(** ** Deletion *)

(** The result: a balanced tree of contents [l]. *)
Definition balanced_with (n : addr) (l : list (addr * Z * Z)) F {A} (_ : A) (r : addr)
    (L : list (addr * rb_node)) : Prop :=
  ∃ t' np, (∃ h, rb RED t' h) ∧ elements t' = l ∧ r = ptr n t' ∧ L ≡ₚ memory n t' [] np F.

Lemma path_length n ctx p : (length ctx ≤ length (path_nodes n ctx p))%nat.
Proof.
  revert p. induction ctx as [|f ctx IH]; intros p; [simpl; lia|].
  destruct f as [a c k d sib|a c k d sib]; cbn [path_nodes length]; rewrite length_app; specialize (IH a); lia.
Qed.

Lemma delete_fixup_run n t ctx np F h r L l :
  (t = Leaf → np = top n ctx) → rb BLACK t h → (ctx = [] ∨ rb_path ctx (S h)) →
  elements (plug ctx t) = l → r = root_of ctx (ptr n t) → L ≡ₚ memory n t ctx np F →
  run n r L (rb_delete_fixup (ptr n t)) (balanced_with n l F).
Proof.
  intros Hnp Ht Hctx E Hr HL. unfold rb_delete_fixup. apply run_bind, run_rounds. intros fuel Hf.
  assert (Hfuel : (length ctx + 1 < fuel)%nat).
  { rewrite HL in Hf. unfold memory in Hf. rewrite !length_app in Hf. simpl in Hf.
    pose proof (path_length n ctx (ptr n t)). lia. }
  eapply run_mono; [by apply (delete_fixup_loop_run n (plug ctx t) F fuel t ctx np h)|].
  intros a r' L' (t'&ctx'&np'&h'&->&->&HL'&E'&Hc'&Ht'). rewrite HL'.
  assert (Hend : ∀ L, L ≡ₚ memory n (blacken t') ctx' np' F →
    balanced_with n l F () (root_of ctx' (ptr n t')) L).
  { intros L2 HL2. exists (plug ctx' (blacken t')), np'. split; [apply (rb_plug _ _ h' Hc')|split; [|split]].
    - destruct t' as [|a c k d tl tr]; [done|]. destruct Ht' as [(_&?&_)|Ht']; [done|]. right. done.
    - rewrite <- E, <- E', !elements_plug. by destruct t'.
    - rewrite <- root_of_plug. by destruct t'.
    - by rewrite HL2, <- memory_plug. }
  zip_unfold. destruct t' as [|a c k d tl tr]; cbn [ptr nodes]; run_steps; apply Hend; cbn [blacken]; turn_perm.
Qed.

Lemma balanced_intro n t ctx np F h r L l (x : ()) :
  rb_path ctx h → rb (pcol ctx) t h →
  elements (plug ctx t) = l → r = root_of ctx (ptr n t) → L ≡ₚ memory n t ctx np F →
  balanced_with n l F x r L.
Proof.
  intros Hc Ht E -> HL. exists (plug ctx t), np. rewrite root_of_plug, HL, memory_plug.
  split; [by apply (rb_plug _ _ h)|done].
Qed.

(** The end of [rb_delete]: [x] has lost the node of colour [c] above it. *)
Lemma delete_end n t ctx np F c h r L l :
  (t = Leaf → np = top n ctx) →
  (c = BLACK ∧ rb BLACK t h ∧ (ctx = [] ∨ rb_path ctx (S h))) ∨
  (c = RED ∧ rb_path ctx h ∧ rb (pcol ctx) t h) →
  elements (plug ctx t) = l → r = root_of ctx (ptr n t) → L ≡ₚ memory n t ctx np F →
  run n r L (if decide (c = BLACK) then rb_delete_fixup (ptr n t) else mret ()) (balanced_with n l F).
Proof.
  intros Hnp [(->&Ht&Hc)|(->&Hc&Ht)] E Hr HL; run_if.
  - by eapply delete_fixup_run.
  - apply run_ret. by eapply balanced_intro.
Qed.

(** Putting the minimum [y] of the right subtree, whose other nodes are [r'],
    in the place of [z]. *)
Lemma put_min_run {A} n z ul ur c k d y cy ky dy r' par a la lc lk ld ll lr ctx np F r L (res : A) Q :
  let l := Node la lc lk ld ll lr in
  ul = la → r = root_of ctx z →
  L ≡ₚ (z, mk_rb_node (top n ctx) ul ur c k d) :: nodes n (Node y cy ky dy Leaf r') par ++
       path_nodes n ctx z ++ sentinel n np :: nodes n l a ++ F → a = z →
  Q res (root_of ctx y) (memory n (Node y c ky dy l r') ctx np ((z, mk_rb_node (top n ctx) ul ur c k d) :: F)) →
  run n r L (rb_transplant z y) (λ _ r L,
    run n r L (zl ← get_lson z; set_lson y zl;; yl ← get_lson y; set_parent yl y;;
               cz ← get_colour z; set_colour y cz;; mret res) Q).
Proof.
  intros l -> -> HL -> HQ. subst l.
  eapply (run_transplant n z la ur c k d (Node y cy ky dy Leaf r') par ctx np); [done|exact HL|].
  eapply run_res; [exact HQ|]. clear HQ.
  zip_unfold. cbn [parent_of]. run_steps. split; [done|]. split; [done|turn_perm].
Qed.

Lemma memory_plug_app n c1 c2 t np F : memory n t (c1 ++ c2) np F ≡ₚ memory n (plug c1 t) c2 np F.
Proof. revert t. induction c1 as [|f c1 IH]; intros t; simpl; [done|]. by rewrite memory_plug1, IH. Qed.
Lemma root_of_app n c1 c2 t : root_of (c1 ++ c2) (ptr n t) = root_of c2 (ptr n (plug c1 t)).
Proof. revert t. induction c1 as [|f c1 IH]; intros t; simpl; [done|]. rewrite <- IH. by destruct f. Qed.

Lemma root_above c1 f c2 p : root_of (c1 ++ f :: c2) p = root_of c2 (fa f).
Proof. revert p. induction c1 as [|g c1 IH]; intros p; simpl; [done|]. apply IH. Qed.

Lemma before_left c1 c2 : Forall is_left c1 → before (c1 ++ c2) = before c2.
Proof. induction 1 as [|f c1 Hf _ IH]; [done|]. by destruct f. Qed.
Lemma after_app c1 c2 : Forall is_left c1 → after (c1 ++ c2) = after c1 ++ after c2.
Proof. induction 1 as [|f c1 Hf _ IH]; [done|]. destruct f; [|done]. simpl. rewrite IH. by rewrite <- app_assoc. Qed.

Lemma pcol_app f g c1 c2 : fc f = fc g → pcol (c1 ++ f :: c2) = pcol (c1 ++ g :: c2).
Proof. by destruct c1. Qed.
Lemma rb_path_replace a a' c k k' d d' l c1 c2 h :
  rb_path (c1 ++ FR a c k d l :: c2) h → rb_path (c1 ++ FR a' c k' d' l :: c2) h.
Proof.
  revert h. induction c1 as [|f c1 IH]; intros h; [done|].
  simpl. destruct f; rewrite (pcol_app (FR a c k d l) (FR a' c k' d' l)) by done; naive_solver.
Qed.

Lemma rb_unplug c1 : ∀ c2 t h, rb_path c2 h → rb (pcol c2) (plug c1 t) h →
  ∃ h', rb_path (c1 ++ c2) h' ∧ rb (pcol (c1 ++ c2)) t h'.
Proof.
  induction c1 as [|f c1 IH]; intros c2 t h Hc Ht; [eauto|]. simpl in Ht.
  apply (IH c2 _ h) in Ht as (h'&Hc'&Ht'); [|done].
  destruct f as [a c k d sib|a c k d sib]; simpl in Ht' |- *;
    (destruct Ht' as [(->&Hp&Hl&Hr)|(->&h2&->&Hl&Hr)];
     [exists h'; split; [left; done|done]|exists h2; split; [right; done|done]]).
Qed.

Lemma path_in n c1 f c2 : ∀ p, fa f ∈ (path_nodes n (c1 ++ f :: c2) p).*1.
Proof.
  induction c1 as [|g c1 IH]; intros p.
  - destruct f; apply list_elem_of_here.
  - destruct g as [a c k d sib|a c k d sib]; cbn [app path_nodes]; rewrite fmap_cons, fmap_app;
      apply list_elem_of_further, elem_of_app; right; apply IH.
Qed.

(** The node above the minimum of a deeper tree is not the tree's parent. *)
Lemma run_ne_above {A} n t g c1 f c2 np F r L (m : R A) Q :
  L ≡ₚ memory n t (g :: c1 ++ f :: c2) np F → (fa g ≠ fa f → run n r L m Q) → run n r L m Q.
Proof.
  intros HL H. apply run_nodup. intros Hnd. apply H. intros E. rewrite HL in Hnd. unfold memory in Hnd.
  rewrite fmap_app in Hnd. apply list_relations.list.NoDup_app in Hnd as (_&_&Hnd).
  rewrite fmap_app in Hnd. apply list_relations.list.NoDup_app in Hnd as (Hnd&_&_).
  destruct g as [a c k d sib|a c k d sib]; cbn [path_nodes] in Hnd; rewrite fmap_cons, fmap_app in Hnd;
    apply list.NoDup_cons in Hnd as [Hnd _]; apply Hnd; apply elem_of_app; right;
    simpl in E; rewrite E; apply path_in.
Qed.

Section delete.
Context (n z : addr) (c k d : Z) (ctx : path) (F : list (addr * rb_node)) (h : nat).
Context (Hctx : rb_path ctx h).

Definition deleted (l r : tree) (x : ()) (r' : addr) L : Prop :=
  ∃ v, key v = k ∧ data v = d ∧
    balanced_with n (before ctx ++ elements l ++ elements r ++ after ctx) ((z, v) :: F) x r' L.

(** The heights below [z], and above it once it is gone. *)
Lemma below_deleted l r :
  rb (pcol ctx) (Node z c k d l r) h →
  ∃ h', (∀ y k' d', rb_path (FR y c k' d' l :: ctx) h') ∧ rb c r h' ∧ rb c l h' ∧
    ((c = BLACK ∧ rb_path ctx (S h')) ∨ (c = RED ∧ rb_path ctx h' ∧ pcol ctx = BLACK)).
Proof.
  simpl. intros [(->&Hp&Hl&Hr)|(->&h'&->&Hl&Hr)]; [exists h|exists h']; split_and!; intros; rb_auto.
Qed.

Lemma delete_one_son l r t ctx' np L r' :
  (l = Leaf ∧ t = r) ∨ (r = Leaf ∧ t = l) → ctx' = ctx →
  rb (pcol ctx) (Node z c k d l r) h → (t = Leaf → np = top n ctx) →
  r' = root_of ctx (ptr n t) →
  L ≡ₚ (z, mk_rb_node (top n ctx) (ptr n l) (ptr n r) c k d) :: memory n t ctx np F →
  run n r' L (if decide (c = BLACK) then rb_delete_fixup (ptr n t) else mret ()) (deleted l r).
Proof.
  intros Ht _ Hrb Hnp Hr HL. destruct (below_deleted _ _ Hrb) as (h'&_&Hr'&Hl'&Hc).
  eapply run_mono; [eapply (delete_end n t ctx np ((z, mk_rb_node (top n ctx) (ptr n l) (ptr n r) c k d) :: F) c h')|].
  - done.
  - destruct Hc as [(Hc&Hp)|(Hc&Hp&Hb)]; [left|right]; (split; [done|]).
    + split; [destruct Ht as [[_ ->]|[_ ->]]; by eapply rb_black|by right].
    + split; [done|]. rewrite Hb. destruct Ht as [[_ ->]|[_ ->]]; by eapply rb_black.
  - reflexivity.
  - exact Hr.
  - rewrite HL. turn_perm.
  - intros [] r2 L2 Hb. eexists (mk_rb_node _ _ _ c k d). split; [done|]. split; [done|].
    rewrite elements_plug in Hb. replace (elements l ++ elements r ++ after ctx) with (elements t ++ after ctx); [exact Hb|].
    destruct Ht as [[-> ->]|[-> ->]]; done.
Qed.

(** With two sons: [y], the minimum of the right one, takes the place. *)
Lemma delete_two_sons l y cy ky dy yr pctx np ul ur L r' :
  rb (pcol ctx) (Node z c k d l (plug pctx (Node y cy ky dy Leaf yr))) h → Forall is_left pctx →
  (yr = Leaf → np = top n (pctx ++ FR y c ky dy l :: ctx)) →
  r' = root_of ctx y →
  L ≡ₚ memory n (Node y c ky dy l (plug pctx yr)) ctx np ((z, mk_rb_node (top n ctx) ul ur c k d) :: F) →
  run n r' L (if decide (cy = BLACK) then rb_delete_fixup (ptr n yr) else mret ())
    (deleted l (plug pctx (Node y cy ky dy Leaf yr))).
Proof.
  intros Hrb Hleft Hnp Hr HL. destruct (below_deleted _ _ Hrb) as (h'&Hp&Hr'&_).
  destruct (rb_unplug pctx (FR z c k d l :: ctx) _ h' (Hp z k d) Hr') as (h2&Hpath&Hy).
  apply (rb_path_replace z y c k ky d dy) in Hpath.
  rewrite (pcol_app (FR z c k d l) (FR y c ky dy l)) in Hy by done.
  set (ctx' := pctx ++ FR y c ky dy l :: ctx) in *.
  eapply run_mono; [eapply (delete_end n yr ctx' np
    ((z, mk_rb_node (top n ctx) ul ur c k d) :: F) cy
    (match cy with 0 => pred h2 | _ => h2 end))|].
  - done.
  - simpl in Hy. destruct Hy as [(->&Hpc&_&Hyr)|(->&h3&->&_&Hyr)].
    + right. split; [done|]. split; [done|]. rewrite Hpc. by eapply rb_black.
    + left. split; [done|]. split; [done|]. by right.
  - reflexivity.
  - unfold ctx'. by rewrite root_of_app.
  - rewrite HL. unfold ctx'. rewrite memory_plug_app. rewrite (memory_plug1 n (FR y c ky dy l)).
    cbn [plug1]. turn_perm.
  - intros [] r2 L2 Hb. eexists (mk_rb_node _ _ _ c k d). split; [done|]. split; [done|].
    rewrite elements_plug in Hb. unfold ctx' in Hb. rewrite before_left, after_app in Hb by done.
    rewrite elements_plug. replace (before pctx) with (@List.nil (addr * Z * Z));
      [|by rewrite <- (app_nil_r pctx), (before_left _ [])].
    simpl in Hb |- *. repeat progress (rewrite <- ?app_assoc in Hb; simpl in Hb).
    repeat progress (rewrite <- ?app_assoc; simpl). exact Hb.
Qed.

Lemma rb_delete_run l r np :
  rb (pcol ctx) (Node z c k d l r) h →
  zip n (Node z c k d l r) ctx np F (rb_delete z) (deleted l r).
Proof.
  intros Hrb. unfold rb_delete. destruct l as [|la lc lk ld ll lr].
  - (* no left son *)
    zip_unfold. run_steps. run_if. run_steps.
    eapply (run_transplant n z n (ptr n r) c k d r z ctx np); [done|turn_perm|]. run_steps.
    eapply (delete_one_son Leaf r r ctx (parent_of n r (top n ctx) np)); [by left|done|done| |done|reflexivity].
    by intros ->.
  - destruct r as [|ra rc rk rd rl rr].
    + zip_unfold. run_differ la n. run_steps. run_if. run_if. run_steps.
      eapply (run_transplant n z la n c k d (Node la lc lk ld ll lr) z ctx np); [done|turn_perm|]. run_steps.
      eapply (delete_one_son (Node la lc lk ld ll lr) Leaf (Node la lc lk ld ll lr) ctx np);
        [by right|done|done|done|done|reflexivity].
    + destruct (leftmost ra rc rk rd rl rr) as [[[[[y cy] ky] dy] yr] pctx] eqn:Emin.
      destruct (leftmost_spec _ _ _ _ _ _ _ _ _ _ _ _ Emin) as (Er&Hleft&Hnil).
      zip_unfold. run_differ la n. run_differ ra n. run_steps. run_if. run_if. run_steps.
      eapply (tree_minimum_run n ra rc rk rd rl rr y cy ky dy yr pctx
        (FR z c k d (Node la lc lk ld ll lr) :: ctx) np F); [exact Emin|turn_perm|].
      rewrite Er in Hrb |- *. 
      eapply (run_perm _ _ _ _ (memory n (Node y cy ky dy Leaf yr) (pctx ++ FR z c k d (Node la lc lk ld ll lr) :: ctx) np F)).
      { rewrite memory_plug_app, <- Er.  turn_perm. }
      destruct pctx as [|f0 pctx].
      * simpl in Er. injection Er as -> -> -> -> -> ->. cbn [app]. zip_unfold. run_steps. run_if.
        assert (Hput : ∀ np' r' L', (yr = Leaf → np' = y) → r' = root_of ctx z →
          L' ≡ₚ (z, mk_rb_node (top n ctx) la y c k d) :: nodes n (Node y cy ky dy Leaf yr) z ++
             path_nodes n ctx z ++ sentinel n np' :: nodes n (Node la lc lk ld ll lr) z ++ F →
          run n r' L' (rb_transplant z y) (λ _ r' L',
            run n r' L' (zl ← get_lson z; set_lson y zl;; yl ← get_lson y; set_parent yl y;;
             cz ← get_colour z; set_colour y cz;; mret (ptr n yr, cy))
            (λ a r' L', run n r' L' (let '(x, y_orc) := a in
               if decide (y_orc = BLACK) then rb_delete_fixup x else mret ())
               (deleted (Node la lc lk ld ll lr) (Node y cy ky dy Leaf yr))))).
        { intros np' r' L' Hnp -> HL. eapply (put_min_run n z la y c k d y cy ky dy yr z z la lc lk ld ll lr ctx np' F);
            [done|done|exact HL|done|].
          eapply (delete_two_sons (Node la lc lk ld ll lr) y cy ky dy yr [] np' la y); [done|exact Hleft|done|done|reflexivity]. }
        destruct yr as [|va vc vk vd vl vr]; cbn [ptr nodes]; run_steps;
          [eapply (Hput y)|eapply (Hput np)]; [done|done|turn_perm|done|done|turn_perm].
      * eapply (run_ne_above n _ f0 pctx (FR z c k d (Node la lc lk ld ll lr)) ctx); [reflexivity|]. intros Hne.
        destruct f0 as [a0 c0 k0 d0 s0|a0 c0 k0 d0 s0]; [|by inversion Hleft].
        zip_unfold. simpl app. cbn [fa] in Hne. run_steps. run_if. run_steps.
        eapply (run_transplant n y n (ptr n yr) cy ky dy yr y (FL a0 c0 k0 d0 s0 :: pctx ++ FR z c k d (Node la lc lk ld ll lr) :: ctx) np F);
          [symmetry; apply (root_above (FL a0 c0 k0 d0 s0 :: pctx) (FR z c k d (Node la lc lk ld ll lr)) ctx y)|turn_perm|].
        set (np' := parent_of n yr a0 np). 
        eapply (run_perm _ _ _ _ (memory n (Node z c k d (Node la lc lk ld ll lr) (plug (FL a0 c0 k0 d0 s0 :: pctx) yr)) ctx np'
          ((y, mk_rb_node a0 n (ptr n yr) cy ky dy) :: F))).
        { change (FL a0 c0 k0 d0 s0 :: pctx ++ FR z c k d (Node la lc lk ld ll lr) :: ctx) with ((FL a0 c0 k0 d0 s0 :: pctx) ++ FR z c k d (Node la lc lk ld ll lr) :: ctx).
          rewrite memory_plug_app, (memory_plug1 n (FR z c k d (Node la lc lk ld ll lr))). cbn [plug1 top fa]. turn_perm. }
        assert (Hne' : plug (FL a0 c0 k0 d0 s0 :: pctx) yr ≠ Leaf).
        { intros E. apply (f_equal elements) in E. rewrite elements_plug, (app_assoc (before _)) in E. simpl in E.
          by apply app_nil in E as [_ ?]. }
        destruct (plug (FL a0 c0 k0 d0 s0 :: pctx) yr) as [|b bc bk bd bl br] eqn:Er2; [done|].
        zip_unfold. run_steps.
        eapply (put_min_run n z la b c k d y cy ky dy (Node b bc bk bd bl br) a0 z la lc lk ld ll lr ctx np' F);
          [done|apply (root_above (FL a0 c0 k0 d0 s0 :: pctx) (FR z c k d (Node la lc lk ld ll lr)) ctx y)|turn_perm|done|].
        eapply (delete_two_sons (Node la lc lk ld ll lr) y cy ky dy yr (FL a0 c0 k0 d0 s0 :: pctx) np' la b);
          [done|exact Hleft|by intros ->|done|by rewrite Er2].
Qed.
End delete.

(** ** Lookup *)

Fixpoint height (t : tree) : nat :=
  match t with Leaf => O | Node _ _ _ _ l r => S (Nat.max (height l) (height r)) end.
Lemma height_size t : (height t ≤ tree_size t)%nat.
Proof. induction t; simpl; lia. Qed.

(** A balanced tree of [m] nodes is at most [2 log2 (m + 1)] high. *)
Lemma rb_height pc t h : rb pc t h → (height t ≤ 2 * h + (if decide (pc = BLACK) then 1 else 0))%nat.
Proof.
  revert pc h. induction t as [|a c k d l IHl r IHr]; intros pc h; simpl; [lia|].
  intros [(->&->&Hl&Hr)|(->&h'&->&Hl&Hr)]; apply IHl in Hl; apply IHr in Hr; simpl in Hl, Hr |- *.
  - lia.
  - case_match; lia.
Qed.
Lemma rb_size pc t h : rb pc t h → (2 ^ h ≤ tree_size t + 1)%nat.
Proof.
  revert pc h. induction t as [|a c k d l IHl r IHr]; intros pc h; simpl; [by intros ->|].
  intros [(->&->&Hl&Hr)|(->&h'&->&Hl&Hr)]; apply IHl in Hl; apply IHr in Hr; simpl; lia.
Qed.
Lemma elements_size t : length (elements t) = tree_size t.
Proof. induction t as [|a c k d l IHl r IHr]; simpl; [done|]. rewrite length_app. simpl. lia. Qed.

Definition search_rounds (m : nat) : nat := 2 * Nat.log2 (m + 1) + 1.

Lemma rbt_height t : rbt t → (height t < search_rounds (length (elements t)))%nat.
Proof.
  intros [_ [h Hrb]]. pose proof (rb_height _ _ _ Hrb) as Hh. pose proof (rb_size _ _ _ Hrb) as Hs.
  simpl in Hh. rewrite elements_size. unfold search_rounds.
  apply Nat.log2_le_pow2 in Hs; lia.
Qed.

Lemma search_run n k t : ∀ fuel ctx np F root L (Q : addr → _),
  (height t < fuel)%nat → StronglySorted Z.le (keys t) → L ≡ₚ memory n t ctx np F →
  ((∀ e, e ∈ elements t → e.1.2 ≠ k) → Q n root L) →
  (∀ a c d l r ctx', plug ctx' (Node a c k d l r) = plug ctx t → a ≠ n →
     L ≡ₚ memory n (Node a c k d l r) ctx' np F → Q a root L) →
  run n root L (search_loop fuel k (ptr n t)) Q.
Proof.
  induction t as [|a c kx d l IHl r IHr]; intros fuel ctx np F root L Q Hf Hs HL Hno Hyes;
    (destruct fuel as [|fuel]; [lia|]); cbn [search_loop ptr].
  - run_steps. run_if. apply run_ret, Hno. intros e He. by apply not_elem_of_nil in He.
  - destruct (memory_cell _ _ _ _ _ _ _ _ _ _ _ HL) as [L' HL'].
    apply (run_ne_nil _ _ _ _ _ _ _ _ _ _ _ _ _ _ HL). intros Hne. run_steps. run_if. run_steps.
    destruct (decide (k = kx)) as [<-|Hk]; [apply run_ret; by eapply Hyes|].
    simpl in Hf. apply sorted_node in Hs as (Hl&Hr&Hle&Hge). rewrite Forall_forall in Hle, Hge.
    destruct (Z.ltb_spec k kx); run_steps.
    + eapply (IHl fuel (FL a c kx d r :: ctx)); [lia|done| | |].
      * rewrite HL. symmetry. apply (memory_plug1 n (FL a c kx d r)).
      * intros Hno'. apply Hno. intros e He. simpl in He. apply elem_of_app in He as [He|He]; [by apply Hno'|].
        apply elem_of_cons in He as [->|He]; [simpl; congruence|]. apply list_elem_of_In, Hge in He. lia.
      * exact Hyes.
    + eapply (IHr fuel (FR a c kx d l :: ctx)); [lia|done| | |].
      * rewrite HL. symmetry. apply (memory_plug1 n (FR a c kx d l)).
      * intros Hno'. apply Hno. intros e He. simpl in He. apply elem_of_app in He as [He|He].
        { apply list_elem_of_In, Hle in He. lia. }
        apply elem_of_cons in He as [->|He]; [simpl; congruence|by apply Hno'].
      * exact Hyes.
Qed.
