(* ===== verification/RbTreeSpec.v ===== *)
(** * src/datas/pure_rbtree: the contract of the tree.  The contents are the
    nodes in order; every operation is defined, ends and has the effect on the
    contents that its name says. *)

From stdpp Require Import sorting.
From S2P Require Import Prelude RbTree RbTreeHeap RbTreeInsert RbTreeDelete RbTreeOps.

Local Open Scope Z_scope.

(** The tree object holds the nodes [l] (address, key, data; sorted by key, in
    a balanced tree); [F] is the rest of the memory. *)
Definition represents (s : pure_rbtree) (l : list (addr * Z * Z)) (F : list (addr * rb_node)) : Prop :=
  ∃ t np, rbt t ∧ elements t = l ∧ holds (nilp s) (ptr (nilp s) t) (memory (nilp s) t [] np F) s.

Lemma run_exec {A} n r L (m : R A) Q s :
  run n r L m Q → holds n r L s → ∃ a s', m s = Some (a, s') ∧ ∃ r' L', holds n r' L' s' ∧ Q a r' L'.
Proof. intros Hm Hs. apply Hm, wp_elim in Hs as (a&s'&E&H). eauto. Qed.

Lemma represents_sorted s l F : represents s l F → StronglySorted Z.le ((λ e, e.1.2) <$> l).
Proof. intros (t&np&[Hs _]&<-&_). exact Hs. Qed.

Lemma represents_intro s n t np F L :
  rbt t → holds n (ptr n t) L s → L ≡ₚ memory n t [] np F → represents s (elements t) F.
Proof.
  intros Ht Hs HL. assert (Hn : nilp s = n) by apply Hs. subst n. exists t, np.
  split; [done|]. split; [done|]. by rewrite <- HL.
Qed.

(** A node of the contents, in focus. *)
Lemma rbt_focus t ctx a c k d l r :
  rbt t → t = plug ctx (Node a c k d l r) → ∃ h, rb_path ctx h ∧ rb (pcol ctx) (Node a c k d l r) h.
Proof.
  intros [_ [h Hrb]] ->. apply (rb_unplug ctx [] _ h) in Hrb as (h'&Hc&Ht); [|done].
  rewrite app_nil_r in Hc, Ht. eauto.
Qed.

Lemma elements_focus t l1 e l2 :
  elements t = l1 ++ e :: l2 →
  ∃ ctx c l r, t = plug ctx (Node e.1.1 c e.1.2 e.2 l r) ∧
    before ctx ++ elements l = l1 ∧ elements r ++ after ctx = l2.
Proof.
  enough (∀ l1 l2, elements t = l1 ++ e :: l2 → ∀ ctx0, ∃ ctx c l r,
    plug ctx0 t = plug ctx (Node e.1.1 c e.1.2 e.2 l r) ∧
    before ctx ++ elements l = before ctx0 ++ l1 ∧ elements r ++ after ctx = l2 ++ after ctx0) as H.
  { intros E. destruct (H _ _ E []) as (ctx&c&l&r&?&?&?). exists ctx, c, l, r. by rewrite app_nil_r in *. }
  clear l1 l2. induction t as [|a c k d l IHl r IHr]; intros l1 l2 E ctx0; [by destruct l1|]. simpl in E.
  apply app_eq_inv in E as [(k1&El&E)|(k1&->&E)].
  - destruct k1 as [|e' k1]; simplify_eq/=.
    + rewrite app_nil_r in El. subst. by exists ctx0, c, l, r.
    + destruct (IHl _ _ El (FL a c k d r :: ctx0)) as (ctx&c'&l'&r'&?&?&?).
      exists ctx, c', l', r'. split; [done|]. split; [done|]. by rewrite <- app_assoc.
  - destruct k1 as [|e' k1]; simplify_eq/=.
    + exists ctx0, c, l, r. by rewrite app_nil_r.
    + destruct (IHr _ _ ltac:(eassumption) (FR a c k d l :: ctx0)) as (ctx&c'&l'&r'&?&?&?).
      exists ctx, c', l', r'. split; [done|]. simpl in *. split; [|done].
      by rewrite <- !app_assoc in *.
Qed.

(** ** Insertion and deletion of a node *)

Lemma rb_insert_ok s l z v F :
  represents s l ((z, v) :: F) →
  ∃ s' l', rb_insert z s = Some ((), s') ∧ nilp s' = nilp s ∧
    put_in_order (z, key v, data v) l l' ∧ represents s' l' F.
Proof.
  intros (t&np&Ht&<-&Hs).
  destruct (run_exec _ _ _ _ _ _ (rb_insert_run (nilp s) t np z v F Ht) Hs)
    as ([]&s'&E&r'&L'&Hs'&t'&np'&Ht'&Hp&->&HL).
  exists s', (elements t'). split; [done|]. split; [apply Hs'|]. split; [done|].
  by apply (represents_intro s' (nilp s) t' np' F L').
Qed.

Lemma sorted_delete l1 e l2 :
  StronglySorted Z.le ((λ e : addr * Z * Z, e.1.2) <$> (l1 ++ e :: l2)) →
  StronglySorted Z.le ((λ e, e.1.2) <$> (l1 ++ l2)).
Proof.
  rewrite !fmap_app, fmap_cons. intros H. apply StronglySorted_app_inv in H as (H1&H2&Hle).
  apply StronglySorted_inv in H2 as [H2 _]. apply StronglySorted_app_intro; [done..|].
  intros x y Hx Hy. apply Hle; [done|]. by apply elem_of_cons; right.
Qed.

(** Deletion through the address of a node in focus. *)
Lemma rb_delete_focus n t ctx z c k d l r np F L root :
  rbt t → t = plug ctx (Node z c k d l r) → root = ptr n t → L ≡ₚ memory n t [] np F →
  run n root L (rb_delete z) (λ _ r' L', ∃ t' np' v, rbt t' ∧ key v = k ∧ data v = d ∧
    elements t' = before ctx ++ elements l ++ elements r ++ after ctx ∧ r' = ptr n t' ∧
    L' ≡ₚ memory n t' [] np' ((z, v) :: F)).
Proof.
  intros Ht E -> ->. destruct (rbt_focus _ _ _ _ _ _ _ _ Ht E) as (h&Hc&Hrb).
  pose proof (rb_delete_run n z c k d ctx F h Hc l r np Hrb) as Hrun.
  rewrite zip_plug, <- E in Hrun. eapply run_mono; [exact Hrun|].
  intros [] r' L' (v&Hk&Hd&t'&np'&Hrb'&Ee&->&HL). exists t', np', v. split; [split; [|done]|done].
  unfold keys. rewrite Ee, app_assoc. destruct Ht as [Hs _]. unfold keys in Hs.
  rewrite E, elements_plug in Hs. simpl in Hs. rewrite <- app_assoc in Hs. simpl in Hs.
  rewrite app_assoc in Hs. by apply sorted_delete in Hs.
Qed.

Lemma rb_delete_ok s l1 l2 z k d F :
  represents s (l1 ++ (z, k, d) :: l2) F →
  ∃ s' v, rb_delete z s = Some ((), s') ∧ nilp s' = nilp s ∧ key v = k ∧ data v = d ∧
    represents s' (l1 ++ l2) ((z, v) :: F).
Proof.
  intros (t&np&Ht&El&Hs). destruct (elements_focus _ _ _ _ El) as (ctx&c&l&r&Ep&<-&<-).
  destruct (run_exec _ _ _ _ _ _ (rb_delete_focus (nilp s) t ctx z c k d l r np F _ _ Ht Ep eq_refl
    (reflexivity _)) Hs) as ([]&s'&E&r'&L'&Hs'&t'&np'&v&Ht'&Hk&Hd&Ee&->&HL).
  exists s', v. split; [done|]. split; [apply Hs'|]. split; [done|]. split; [done|].
  rewrite <- app_assoc, <- Ee. by eapply (represents_intro s' (nilp s)).
Qed.

(** ** Reads *)

Definition read_only {A} (m : R A) : Prop := ∀ s a s', m s = Some (a, s') → s' = s.

Lemma ro_bind {A B} (m : R A) (k : A → R B) :
  read_only m → (∀ a, read_only (k a)) → read_only (m ≫= k).
Proof. intros Hm Hk s b s' E. apply bind_inv in E as (a&s1&E1&E2). apply Hm in E1 as ->. by eapply Hk. Qed.
Lemma ro_ret {A} (a : A) : read_only (mret a).
Proof. by intros s b s' [= _ <-]. Qed.
Lemma ro_gets {A} (f : pure_rbtree → A) : read_only (gets f).
Proof. by intros s b s' [= _ <-]. Qed.
Lemma ro_node p : read_only (node p).
Proof. intros s b s'. unfold node. destruct (heap s !! p); simpl; congruence. Qed.
Lemma ro_stuck {A} : read_only (@stuck pure_rbtree A).
Proof. by intros s b s'. Qed.
Lemma ro_rounds {A} (f : nat → R A) : (∀ k, read_only (f k)) → read_only (rounds f).
Proof. intros H s b s'. apply H. Qed.

Create HintDb read_only discriminated.
#[export] Hint Resolve ro_ret ro_gets ro_node ro_stuck : read_only.

Ltac read_only :=
  unfold get_nil, get_root, get_parent, get_lson, get_rson, get_colour, get_key, get_data;
  repeat first
    [progress eauto with read_only
    |lazymatch goal with
     | |- read_only (_ ≫= _) => apply ro_bind; [|intros ?]
     | |- read_only (match ?x with _ => _ end) => destruct x
     end].

Lemma ro_search_loop fuel k : ∀ x, read_only (search_loop fuel k x).
Proof. induction fuel as [|fuel IH]; intros x; cbn [search_loop]; read_only. Qed.
Lemma ro_minimum_loop fuel : ∀ x, read_only (minimum_loop fuel x).
Proof. induction fuel as [|fuel IH]; intros x; cbn [minimum_loop]; read_only. Qed.
Lemma ro_search k : read_only (rb_search k).
Proof. unfold rb_search. read_only. apply ro_rounds. intros. apply ro_search_loop. Qed.
Lemma ro_tree_minimum x : read_only (tree_minimum x).
Proof. apply ro_rounds. intros. apply ro_minimum_loop. Qed.
#[export] Hint Resolve ro_search ro_tree_minimum : read_only.
Lemma ro_search_key k : read_only (rb_search_key k).
Proof. unfold rb_search_key. read_only. Qed.
Lemma ro_minimum_node : read_only tree_minimum_node.
Proof. unfold tree_minimum_node. read_only. Qed.
Lemma ro_minimum_key : read_only tree_minimum_key.
Proof. unfold tree_minimum_key. read_only. Qed.

(** ** Lookup, by key *)

(** What a search for [k] finds: the sentinel, or a node with that key. *)
Definition found (n : addr) (l : list (addr * Z * Z)) (k : Z) (z : addr) : Prop :=
  (z = n ∧ ∀ e, e ∈ l → e.1.2 ≠ k) ∨ (z ≠ n ∧ ∃ l1 d l2, l = l1 ++ (z, k, d) :: l2).

Lemma search_found n t np F L k fuel :
  rbt t → (height t < fuel)%nat → L ≡ₚ memory n t [] np F →
  run n (ptr n t) L (search_loop fuel k (ptr n t)) (λ z r' L', found n (elements t) k z ∧ r' = ptr n t ∧ L' = L).
Proof.
  intros Ht Hf HL. eapply (search_run n k t); [exact Hf|apply Ht|exact HL| |].
  - intros Hno. split; [by left|done].
  - intros a c d l r ctx' E Hne _. split; [|done]. right. split; [done|].
    simpl in E. rewrite <- E, elements_plug. simpl. rewrite <- app_assoc. simpl. rewrite app_assoc. eauto.
Qed.

(** A search needs at most [2 log2 (m + 1) + 1] rounds in a tree of [m] nodes. *)
Lemma search_ok s l F k fuel :
  represents s l F → (search_rounds (length l) <= fuel)%nat →
  ∃ z, search_loop fuel k (root s) s = Some (z, s) ∧ found (nilp s) l k z.
Proof.
  intros (t&np&Ht&<-&Hs) Hf. assert (Hroot : root s = ptr (nilp s) t) by apply Hs. rewrite Hroot.
  pose proof (rbt_height t Ht) as Hh.
  destruct (run_exec _ _ _ _ _ _ (search_found (nilp s) t np F _ k fuel Ht ltac:(lia) (reflexivity _)) Hs)
    as (z&s'&E&_&_&_&Hz&_).
  exists z. by rewrite E, (ro_search_loop _ _ _ _ _ _ E).
Qed.

Lemma rb_search_found n t np F k :
  rbt t → run n (ptr n t) (memory n t [] np F) (rb_search k)
    (λ z r' L', found n (elements t) k z ∧ r' = ptr n t ∧ L' = memory n t [] np F).
Proof.
  intros Ht. unfold rb_search. run_steps. eapply (tree_rounds n t np F); [reflexivity|].
  intros fuel Hf. pose proof (height_size t). apply (search_found n t np F); [done|lia|reflexivity].
Qed.

Lemma found_nil n l k : found n l k n → ∀ e, e ∈ l → e.1.2 ≠ k.
Proof. by intros [[_ H]|[? _]]. Qed.

(** A node of the contents, in the memory. *)
Lemma contents_cell n t np F l1 a k d l2 :
  elements t = l1 ++ (a, k, d) :: l2 →
  ∃ v L', Pick (a, v) (memory n t [] np F) L' ∧ key v = k ∧ data v = d.
Proof.
  intros E. destruct (elements_focus _ _ _ _ E) as (ctx&c&l&r&->&_). simpl.
  destruct (memory_cell n a c k d l r ctx np F _ (symmetry (memory_plug n ctx _ np F))) as [L' HL'].
  eexists _, L'. split; [exact HL'|done].
Qed.

Lemma rb_search_key_ok s l F k :
  represents s l F →
  ∃ o, rb_search_key k s = Some (o, s) ∧
    match o with
    | None => ∀ e, e ∈ l → e.1.2 ≠ k
    | Some d => ∃ l1 z l2, l = l1 ++ (z, k, d) :: l2
    end.
Proof.
  intros (t&np&Ht&<-&Hs).
  assert (Hrun : run (nilp s) (ptr (nilp s) t) (memory (nilp s) t [] np F) (rb_search_key k)
    (λ o _ _, match o with
    | None => ∀ e, e ∈ elements t → e.1.2 ≠ k
    | Some d => ∃ l1 z l2, elements t = l1 ++ (z, k, d) :: l2 end)).
  { unfold rb_search_key. run_steps. eapply run_mono; [by apply rb_search_found|].
    intros z r' L' (Hz&->&->). case_decide as Hd.
    - destruct Hz as [[-> _]|(_&l1&d&l2&E)]; [done|].
      destruct (contents_cell (nilp s) t np F _ _ _ _ _ E) as ([]&L'&HL'&<-&<-).
      run_steps. eauto.
    - run_steps. subst z. by apply (found_nil (nilp s)). }
  destruct (run_exec _ _ _ _ _ _ Hrun Hs) as (o&s'&E&_&_&_&Ho).
  exists o. by rewrite E, (ro_search_key _ _ _ _ E).
Qed.

(** ** Deletion by key *)

Lemma rb_delete_key_ok s l F k :
  represents s l F →
  (rb_delete_key k s = Some ((-1, None), s) ∧ ∀ e, e ∈ l → e.1.2 ≠ k) ∨
  (∃ s' l1 z d l2, rb_delete_key k s = Some ((0, Some d), s') ∧ nilp s' = nilp s ∧
     l = l1 ++ (z, k, d) :: l2 ∧ represents s' (l1 ++ l2) F).
Proof.
  intros (t&np&Ht&<-&Hs). set (n := nilp s) in *.
  destruct (run_exec _ _ _ _ _ _ (rb_search_found n t np F k Ht) Hs) as (z&s1&E&_&_&_&Hz&_).
  pose proof (ro_search k _ _ _ E). subst s1. unfold rb_delete_key.
  rewrite (bind_Some _ _ s n s) by done. rewrite (bind_Some _ _ s z s) by done.
  destruct (decide (z = n)) as [->|Hne].
  { left. rewrite decide_False by naive_solver. split; [done|]. by apply (found_nil n). }
  right. rewrite decide_True by done. destruct Hz as [[? _]|(_&l1&d&l2&El)]; [done|].
  destruct (elements_focus _ _ _ _ El) as (ctx&c&l&r&Ep&El1&El2).
  destruct (contents_cell n t np F _ _ _ _ _ El) as (v&L'&HL'&Hk&Hd).
  assert (Hrun : run n (ptr n t) (memory n t [] np F)
    (d ← get_data z; rb_delete z;; _ ← get_data z; delete_rbnode z;; mret (0, Some d))
    (λ a r' L', ∃ t' np', a = (0, Some d) ∧ rbt t' ∧ elements t' = l1 ++ l2 ∧
       r' = ptr n t' ∧ L' ≡ₚ memory n t' [] np' F)).
  { destruct v. simpl in Hk, Hd. subst k d. run_step. run_step. run_step.
    eapply run_mono; [by eapply (rb_delete_focus n t ctx z)|].
    intros [] r' L2 (t'&np'&v&Ht'&_&_&Ee&->&->).
    unfold memory, sentinel. cbn [nodes path_nodes top app]. run_steps.
    exists t', np'. split; [done|]. split; [done|]. split; [by rewrite Ee, <- El1, <- El2, <- app_assoc|]. split; [done|].
    unfold memory, sentinel. cbn [path_nodes top app]. perm. }
  destruct (run_exec _ _ _ _ _ _ Hrun Hs) as (a&s'&E'&r'&L2&Hs'&t'&np'&->&Ht'&Ee&->&HL2).
  exists s', l1, z, d, l2. split; [exact E'|]. split; [apply Hs'|]. split; [done|].
  rewrite <- Ee. by eapply (represents_intro s' n).
Qed.

(** ** The minimum *)

Lemma leftmost_first l : ∀ a c k d r y cy ky dy yr ctx,
  leftmost a c k d l r = (y, cy, ky, dy, yr, ctx) →
  ∃ l2, elements (Node a c k d l r) = (y, ky, dy) :: l2.
Proof.
  intros a c k d r y cy ky dy yr ctx E. destruct (leftmost_spec _ _ _ _ _ _ _ _ _ _ _ _ E) as (->&Hl&_).
  rewrite elements_plug, <- (app_nil_r ctx), (before_left ctx []) by done. simpl. eauto.
Qed.

Lemma minimum_first n a c k d l r np F :
  run n a (memory n (Node a c k d l r) [] np F) (tree_minimum a)
    (λ y r' L', r' = a ∧ L' = memory n (Node a c k d l r) [] np F ∧ y ≠ n ∧
       ∃ ky dy l2, elements (Node a c k d l r) = (y, ky, dy) :: l2).
Proof.
  destruct (leftmost a c k d l r) as [[[[[y cy] ky] dy] yr] pctx] eqn:E.
  destruct (leftmost_spec _ _ _ _ _ _ _ _ _ _ _ _ E) as (Ep&_&_).
  assert (HL : memory n (Node a c k d l r) [] np F ≡ₚ memory n (Node y cy ky dy Leaf yr) pctx np F).
  { rewrite Ep. symmetry. apply memory_plug. }
  apply (run_ne_nil _ _ _ _ _ _ _ _ _ _ _ _ _ _ HL). intros Hne.
  eapply tree_minimum_run; [exact E|reflexivity|]. split_and!; [done..|].
  destruct (leftmost_first _ _ _ _ _ _ _ _ _ _ _ _ E) as [l2 ->]. eauto.
Qed.

Lemma tree_minimum_node_ok s l F :
  represents s l F →
  tree_minimum_node s = Some (match l with [] => nilp s | e :: _ => e.1.1 end, s) ∧
  (∀ e, e ∈ l → e.1.1 ≠ nilp s).
Proof.
  intros (t&np&Ht&<-&Hs). set (n := nilp s) in *.
  assert (Hne : ∀ e, e ∈ elements t → e.1.1 ≠ n).
  { intros e He. apply list_elem_of_split in He as (l1&l2&El).
    destruct (elements_focus _ _ _ _ El) as (ctx&c&l&r&->&_).
    assert (Hrun : run n (ptr n (plug ctx (Node e.1.1 c e.1.2 e.2 l r))) (memory n (plug ctx (Node e.1.1 c e.1.2 e.2 l r)) [] np F)
      (mret ()) (λ _ _ _, e.1.1 ≠ n)).
    { eapply run_ne_nil; [symmetry; apply memory_plug|]. intros H. by apply run_ret. }
    by destruct (run_exec _ _ _ _ _ _ Hrun Hs) as (_&_&_&_&_&_&H). }
  split; [|exact Hne].
  assert (Hrun : run n (ptr n t) (memory n t [] np F) tree_minimum_node
    (λ y _ _, y = match elements t with [] => n | e :: _ => e.1.1 end)).
  { unfold tree_minimum_node. run_steps. destruct t as [|a c k d l r]; cbn [ptr]; [run_if; by apply run_ret|].
    eapply run_ne_nil; [reflexivity|]. intros Ha. run_if.
    eapply run_mono; [apply minimum_first|]. intros y r' L' (_&_&_&ky&dy&l2&->). done. }
  destruct (run_exec _ _ _ _ _ _ Hrun Hs) as (y&s'&E&_&_&_&->).
  rewrite E. by rewrite (ro_minimum_node _ _ _ E).
Qed.

Lemma tree_minimum_key_ok s l F :
  represents s l F →
  tree_minimum_key s = Some (match l with [] => (0, None) | e :: _ => (e.1.2, Some e.2) end, s).
Proof.
  intros (t&np&Ht&<-&Hs). set (n := nilp s) in *.
  assert (Hrun : run n (ptr n t) (memory n t [] np F) tree_minimum_key
    (λ y _ _, y = match elements t with [] => (0, None) | e :: _ => (e.1.2, Some e.2) end)).
  { unfold tree_minimum_key. run_steps. destruct t as [|a c k d l r]; cbn [ptr]; [run_if; by apply run_ret|].
    eapply run_ne_nil; [reflexivity|]. intros Ha. run_if. run_step.
    eapply run_mono; [apply minimum_first|]. intros y r' L' (->&->&_&ky&dy&l2&E).
    destruct (contents_cell n _ np F [] _ _ _ _ E) as ([]&L'&HL'&<-&<-).
    run_steps. rewrite E. done. }
  destruct (run_exec _ _ _ _ _ _ Hrun Hs) as (y&s'&E&_&_&_&->).
  rewrite E. by rewrite (ro_minimum_key _ _ _ E).
Qed.
