(* ===== verification/RbTreeMap.v ===== *)
(** * src/datas/pure_rbtree: the tree by keys, as the multimap it implements,
    and its walks over all nodes. *)

From stdpp Require Import sorting.
From S2P Require Import Prelude RbTree RbTreeHeap RbTreeInsert RbTreeDelete RbTreeOps RbTreeSpec.

Local Open Scope Z_scope.

(** ** Allocation *)

Section alloc.
Context (new : gmap addr rb_node → addr * rb_node).
Context (Hnew : ∀ h, h !! (new h).1 = None).

Lemma run_new n r L (Q : addr → _) :
  (∀ p v, Q p r ((p, v) :: L)) → run n r L (new_rbnode new) Q.
Proof.
  intros HQ s (Hn&Hr&HL). unfold wp, new_rbnode.
  pose proof (Hnew (heap s)) as Hfresh. destruct (new (heap s)) as [p v]. simpl in Hfresh.
  exists r, ((p, v) :: L). split; [|apply HQ]. split; [done|]. split; [done|]. simpl.
  by rewrite map_to_list_insert, HL.
Qed.

Lemma new_represents h : represents (new_pure_rbtree new h) [] (map_to_list h).
Proof.
  unfold new_pure_rbtree. pose proof (Hnew h) as Hfresh. destruct (new h) as [p v]. simpl in Hfresh.
  exists Leaf, p. split; [split; [constructor|by exists O]|]. split; [done|]. split; [done|]. split; [done|].
  simpl. by rewrite map_to_list_insert.
Qed.

Lemma rb_insert_key_data_ok s l F k d :
  represents s l F →
  ∃ s' z l', rb_insert_key_data new k d s = Some (0, s') ∧ nilp s' = nilp s ∧
    put_in_order (z, k, d) l l' ∧ represents s' l' F.
Proof.
  intros (t&np&Ht&<-&Hs). set (n := nilp s) in *.
  assert (Hrun : run n (ptr n t) (memory n t [] np F) (rb_insert_key_data new k d)
    (λ a r' L', a = 0 ∧ ∃ z, tree_with n (put_in_order (z, k, d) (elements t)) F () r' L')).
  { unfold rb_insert_key_data. apply run_bind, run_new. intros p v. run_steps.
    eapply run_perm; [|eapply run_mono; [apply (rb_insert_run n t np p (with_data d (with_key k v)) F Ht)|]].
    - unfold memory, sentinel. cbn [path_nodes top app]. perm.
    - intros [] r' L' H. run_steps. split; [done|]. by exists p. }
  destruct (run_exec _ _ _ _ _ _ Hrun Hs) as (a&s'&E&r'&L'&Hs'&->&z&t'&np'&Ht'&Hp&->&HL).
  exists s', z, (elements t'). split; [done|]. split; [apply Hs'|]. split; [done|].
  by eapply (represents_intro s' n).
Qed.

(** ** The multimap *)

Inductive op := Insert (k d : Z) | Delete (k : Z) | Search (k : Z) | Minimum.
Inductive answer := Done | Found (d : Z) | NotFound | Least (k d : Z).

Definition run_op (o : op) : R answer :=
  match o with
  | Insert k d => _ ← rb_insert_key_data new k d; mret Done
  | Delete k => '(_, o) ← rb_delete_key k; mret (from_option Found NotFound o)
  | Search k => o ← rb_search_key k; mret (from_option Found NotFound o)
  | Minimum => '(k, o) ← tree_minimum_key; mret (from_option (Least k) NotFound o)
  end.
Fixpoint run_ops (os : list op) : R (list answer) :=
  match os with [] => mret [] | o :: os => a ← run_op o; l ← run_ops os; mret (a :: l) end.

(** What may happen to the entries (key, data; in the order of the keys): equal
    keys are kept, a search or a deletion takes any entry with its key. *)
Inductive spec : op → answer → list (Z * Z) → list (Z * Z) → Prop :=
  | spec_insert k d l1 l2 :
      Forall (λ e, e.1 ≤ k) l1 → Forall (λ e, k < e.1) l2 →
      spec (Insert k d) Done (l1 ++ l2) (l1 ++ (k, d) :: l2)
  | spec_delete k d l1 l2 : spec (Delete k) (Found d) (l1 ++ (k, d) :: l2) (l1 ++ l2)
  | spec_delete_none k l : k ∉ l.*1 → spec (Delete k) NotFound l l
  | spec_search k d l : (k, d) ∈ l → spec (Search k) (Found d) l l
  | spec_search_none k l : k ∉ l.*1 → spec (Search k) NotFound l l
  | spec_minimum k d l : Forall (λ e, k ≤ e.1) l → spec Minimum (Least k d) ((k, d) :: l) ((k, d) :: l)
  | spec_minimum_none : spec Minimum NotFound [] [].
Inductive specs : list op → list answer → list (Z * Z) → list (Z * Z) → Prop :=
  | specs_nil l : specs [] [] l l
  | specs_cons o os a ans l l' l'' : spec o a l l' → specs os ans l' l'' → specs (o :: os) (a :: ans) l l''.

Definition entries (l : list (addr * Z * Z)) : list (Z * Z) := (λ e, (e.1.2, e.2)) <$> l.

Lemma no_key (l : list (addr * Z * Z)) k : (∀ e, e ∈ l → e.1.2 ≠ k) → k ∉ (entries l).*1.
Proof.
  intros H Hk. unfold entries in Hk. rewrite <- list_fmap_compose in Hk.
  apply list_elem_of_fmap in Hk as (e&->&He). by apply (H e He).
Qed.

Lemma sorted_head e (l : list (addr * Z * Z)) :
  StronglySorted Z.le ((λ e, e.1.2) <$> (e :: l)) → Forall (λ e', e.1.2 ≤ e'.1) (entries l).
Proof.
  rewrite fmap_cons. intros H. apply StronglySorted_inv in H as [_ H]. unfold entries.
  rewrite Forall_fmap. rewrite Forall_fmap in H. exact H.
Qed.

Lemma run_op_refines o s l F :
  represents s l F →
  ∃ a s' l', run_op o s = Some (a, s') ∧ spec o a (entries l) (entries l') ∧ represents s' l' F.
Proof.
  intros Hs. destruct o as [k d|k|k|]; cbn [run_op].
  - destruct (rb_insert_key_data_ok s l F k d Hs) as (s'&z&l'&E&_&(l1&l2&->&->&H1&H2)&Hs').
    exists Done, s', (l1 ++ (z, k, d) :: l2). rewrite (bind_Some _ _ _ _ _ E). split; [done|]. split; [|done].
    unfold entries. rewrite !fmap_app, fmap_cons. apply spec_insert; by rewrite Forall_fmap.
  - destruct (rb_delete_key_ok s l F k Hs) as [[E Hno]|(s'&l1&z&d&l2&E&_&->&Hs')];
      rewrite (bind_Some _ _ _ _ _ E).
    + exists NotFound, s, l. split; [done|]. split; [by apply spec_delete_none, no_key|done].
    + exists (Found d), s', (l1 ++ l2). split; [done|]. split; [|done].
      unfold entries. rewrite !fmap_app, fmap_cons. apply spec_delete.
  - destruct (rb_search_key_ok s l F k Hs) as (o&E&Ho). rewrite (bind_Some _ _ _ _ _ E).
    exists (from_option Found NotFound o), s, l. split; [done|]. split; [|done]. destruct o as [d|].
    + destruct Ho as (l1&z&l2&->). apply spec_search. unfold entries. rewrite fmap_app, fmap_cons.
      apply elem_of_app. right. apply list_elem_of_here.
    + by apply spec_search_none, no_key.
  - pose proof (tree_minimum_key_ok s l F Hs) as E. rewrite (bind_Some _ _ _ _ _ E).
    destruct l as [|e l].
    + exists NotFound, s, []. split; [done|]. split; [constructor|done].
    + exists (Least e.1.2 e.2), s, (e :: l). split; [done|]. split; [|done].
      unfold entries. rewrite fmap_cons. apply spec_minimum. apply sorted_head. by apply (represents_sorted s _ F).
Qed.

Lemma run_ops_refine os : ∀ s l F, represents s l F →
  ∃ ans s' l', run_ops os s = Some (ans, s') ∧ specs os ans (entries l) (entries l') ∧ represents s' l' F.
Proof.
  induction os as [|o os IH]; intros s l F Hs; cbn [run_ops].
  { exists [], s, l. split; [done|]. split; [constructor|done]. }
  destruct (run_op_refines o s l F Hs) as (a&s1&l1&E&Ho&Hs1).
  destruct (IH s1 l1 F Hs1) as (ans&s2&l2&E2&Hos&Hs2).
  exists (a :: ans), s2, l2. rewrite (bind_Some _ _ _ _ _ E), (bind_Some _ _ _ _ _ E2).
  split; [done|]. split; [by econstructor|done].
Qed.
End alloc.
