(* ===== verification/RbTreeWalk.v ===== *)
(** * src/datas/pure_rbtree: the walks over all nodes, traversal and
    destruction. *)

From stdpp Require Import sorting.
From S2P Require Import Prelude RbTree RbTreeHeap RbTreeInsert RbTreeDelete RbTreeOps RbTreeSpec.

Local Open Scope Z_scope.

(** ** Traversal: a node before its sons *)

Fixpoint preorder (t : tree) : list Z :=
  match t with Leaf => [] | Node _ _ _ d l r => d :: preorder l ++ preorder r end.

Lemma preorder_perm t : preorder t ≡ₚ (λ e, e.2) <$> elements t.
Proof.
  induction t as [|a c k d l IHl r IHr]; simpl; [done|].
  rewrite fmap_app, fmap_cons, IHl, IHr. apply Permutation_middle.
Qed.

Lemma traversal_run n t : ∀ a c k d l r fuel ctx np F root L (Q : list Z → _),
  t = Node a c k d l r → (height t < fuel)%nat → L ≡ₚ memory n t ctx np F →
  Q (preorder t) root L → run n root L (traversal_loop fuel a) Q.
Proof.
  induction t as [|a0 c0 k0 d0 l0 IHl r0 IHr]; intros a c k d l r fuel ctx np F root L Q; [done|].
  intros [= -> -> -> -> -> ->] Hf HL HQ. simpl in Hf. destruct fuel as [|fuel]; [lia|]. cbn [traversal_loop].
  destruct (memory_cell _ _ _ _ _ _ _ _ _ _ _ HL) as [L' HL'].
  assert (HLl : L ≡ₚ memory n l (FL a c k d r :: ctx) np F).
  { rewrite HL. symmetry. apply (memory_plug1 n (FL a c k d r)). }
  assert (HLr : L ≡ₚ memory n r (FR a c k d l :: ctx) np F).
  { rewrite HL. symmetry. apply (memory_plug1 n (FR a c k d l)). }
  run_steps. apply (run_mono _ _ _ _ (λ l1 r' L1, l1 = preorder l ∧ r' = root ∧ L1 = L)).
  - destruct l as [|la lc lk ld ll lr]; cbn [ptr]; [run_if; by apply run_ret|].
    apply (run_ne_nil _ _ _ _ _ _ _ _ _ _ _ _ _ _ HLl). intros Hne. run_if.
    eapply IHl; [done|lia|exact HLl|done].
  - intros l1 r' L1 (->&->&->). run_steps. apply (run_mono _ _ _ _ (λ l2 r' L1, l2 = preorder r ∧ r' = root ∧ L1 = L)).
    + destruct r as [|ra rc rk rd rl rr]; cbn [ptr]; [run_if; by apply run_ret|].
      apply (run_ne_nil _ _ _ _ _ _ _ _ _ _ _ _ _ _ HLr). intros Hne. run_if.
      eapply IHr; [done|lia|exact HLr|done].
    + intros l2 r' L1 (->&->&->). apply run_ret. exact HQ.
Qed.

Lemma ro_traversal_loop fuel : ∀ x, read_only (traversal_loop fuel x).
Proof. induction fuel as [|fuel IH]; intros x; cbn [traversal_loop]; read_only. Qed.

(** A traversal calls [traversal_element] exactly once with the data of
    each node, and changes nothing; on an empty tree it calls it with the data
    of the sentinel, NULL. *)
Theorem rb_traversal_spec s l F :
  represents s l F →
  ∃ ds, rb_traversal s = Some (ds, s) ∧
    match l with [] => ds = [0] | _ :: _ => ds ≡ₚ (λ e, e.2) <$> l end.
Proof.
  intros (t&np&Ht&<-&Hs). set (n := nilp s) in *.
  assert (Hrun : run n (ptr n t) (memory n t [] np F) rb_traversal
    (λ ds _ _, match elements t with [] => ds = [0] | _ :: _ => ds ≡ₚ (λ e, e.2) <$> elements t end)).
  { unfold rb_traversal. run_steps. eapply (tree_rounds n t np F); [reflexivity|]. intros fuel Hf.
    destruct t as [|a c k d l r].
    - zip_unfold. destruct fuel as [|fuel]; [lia|]. cbn [traversal_loop]. run_steps. run_if. run_steps.
      run_if. run_steps. done.
    - pose proof (height_size (Node a c k d l r)) as Hh.
      apply (traversal_run n (Node a c k d l r) a c k d l r fuel [] np F); [done|lia|reflexivity|].
      pose proof (preorder_perm (Node a c k d l r)) as Hp.
      destruct (elements (Node a c k d l r)) eqn:E; [by apply (f_equal length) in E; simpl in E; rewrite length_app in E; simpl in E; lia|exact Hp]. }
  destruct (run_exec _ _ _ _ _ _ Hrun Hs) as (ds&s'&E&_&_&_&H). exists ds.
  split; [|done]. rewrite E. assert (Hro : read_only rb_traversal); [|by rewrite (Hro _ _ _ E)].
  unfold rb_traversal. read_only. apply ro_rounds. intros. apply ro_traversal_loop.
Qed.

(** ** Destruction: a node after its sons *)

Fixpoint postorder (t : tree) : list Z :=
  match t with Leaf => [] | Node _ _ _ d l r => postorder l ++ postorder r ++ [d] end.
(** The rounds of the loop that remove a tree: down into each son, and one to
    free the node. *)
Fixpoint cost (t : tree) : nat :=
  match t with
  | Leaf => O
  | Node _ _ _ _ l r =>
      (match l with Leaf => O | _ => S (cost l) end + match r with Leaf => O | _ => S (cost r) end + 1)%nat
  end.
Lemma cost_size t : (cost t <= 2 * tree_size t - 1)%nat.
Proof.
  induction t as [|a c k d l IHl r IHr]; cbn [cost tree_size]; [lia|].
  destruct l, r; cbn [tree_size] in *; lia.
Qed.

Lemma destroy_run n t : ∀ a c k d l r fuel ctx np F root L (Q : list Z → _),
  t = Node a c k d l r → L ≡ₚ memory n t ctx np F →
  (∀ L', L' ≡ₚ memory n Leaf ctx np F →
     run n root L' (destroy_loop fuel (top n ctx)) (λ ds, Q (postorder t ++ ds))) →
  run n root L (destroy_loop (cost t + fuel) a) Q.
Proof.
  induction t as [|a0 c0 k0 d0 l0 IHl r0 IHr]; intros a c k d l r fuel ctx np F root L Q; [done|].
  intros [= -> -> -> -> -> ->] HL HQ.
  (* the node itself, its sons gone *)
  assert (Hself : ∀ L' (Q' : list Z → addr → list (addr * rb_node) → Prop), L' ≡ₚ memory n (Node a c k d Leaf Leaf) ctx np F →
    (∀ L', L' ≡ₚ memory n Leaf ctx np F → run n root L' (destroy_loop fuel (top n ctx)) (λ ds, Q' (d :: ds))) →
    run n root L' (destroy_loop (S fuel) a) Q').
  { intros L' Q' -> HQ'. cbn [destroy_loop]. zip_unfold. run_differ a n. run_steps. run_if. run_steps. run_if.
    run_steps. run_if. run_steps.
    destruct ctx as [|[q cq kq dq sib|q cq kq dq sib] ctx]; cbn [top path_nodes fa] in *.
    - run_steps. run_if. run_steps. eapply run_mono; [apply HQ'; unfold memory; cbn [nodes path_nodes ptr top app]; perm|].
      intros ds r' L2 H2. by apply run_ret.
    - run_differ q n. run_steps. run_if. run_steps.
      eapply run_mono; [apply HQ'; unfold memory; cbn [nodes path_nodes ptr top app]; perm|].
      intros ds r' L2 H2. by apply run_ret.
    - run_differ q n. run_differ_ptr a sib. run_steps. run_if. run_steps.
      eapply run_mono; [apply HQ'; unfold memory; cbn [nodes path_nodes ptr top app]; perm|].
      intros ds r' L2 H2. by apply run_ret. }
  (* the right son first, when there is no left one *)
  assert (Hright : ∀ L' (Q' : list Z → addr → list (addr * rb_node) → Prop), L' ≡ₚ memory n (Node a c k d Leaf r) ctx np F →
    (∀ L', L' ≡ₚ memory n Leaf ctx np F →
       run n root L' (destroy_loop fuel (top n ctx)) (λ ds, Q' (postorder r ++ d :: ds))) →
    run n root L' (destroy_loop (match r with Leaf => O | _ => S (cost r) end + 1 + fuel) a) Q').
  { intros L' Q' HL' HQ'. destruct r as [|ra rc rk rd rl rr]; [by apply Hself|].
    destruct (memory_cell _ _ _ _ _ _ _ _ _ _ _ HL') as [L2 HL2].
    assert (HLr : L' ≡ₚ memory n (Node ra rc rk rd rl rr) (FR a c k d Leaf :: ctx) np F).
    { rewrite HL'. symmetry. apply (memory_plug1 n (FR a c k d Leaf)). }
    apply (run_ne_nil _ _ _ _ _ _ _ _ _ _ _ _ _ _ HL'). intros Ha.
    apply (run_ne_nil _ _ _ _ _ _ _ _ _ _ _ _ _ _ HLr). intros Hra.
    rewrite <- Nat.add_assoc, Nat.add_succ_l. cbn [destroy_loop]. run_steps. run_if. run_steps. cbn [ptr]. run_if.
    run_steps. cbn [ptr]. run_if.
    eapply (IHr ra rc rk rd rl rr (1 + fuel)%nat (FR a c k d Leaf :: ctx)); [done|exact HLr|].
    intros L3 HL3. apply Hself.
    - rewrite HL3. apply (memory_plug1 n (FR a c k d Leaf)).
    - exact HQ'. }
  assert (HQ' : ∀ L', L' ≡ₚ memory n Leaf ctx np F →
     run n root L' (destroy_loop fuel (top n ctx)) (λ ds, Q (postorder l ++ postorder r ++ d :: ds))).
  { intros L' HL'. eapply run_mono; [by apply HQ|]. intros ds r' L2. cbn [postorder].
    by rewrite <- !app_assoc. }
  destruct l as [|la lc lk ld ll lr]; [by apply Hright|].
  destruct (memory_cell _ _ _ _ _ _ _ _ _ _ _ HL) as [L2 HL2].
  assert (HLl : L ≡ₚ memory n (Node la lc lk ld ll lr) (FL a c k d r :: ctx) np F).
  { rewrite HL. symmetry. apply (memory_plug1 n (FL a c k d r)). }
  apply (run_ne_nil _ _ _ _ _ _ _ _ _ _ _ _ _ _ HL). intros Ha.
  apply (run_ne_nil _ _ _ _ _ _ _ _ _ _ _ _ _ _ HLl). intros Hla.
  change (cost (Node a c k d (Node la lc lk ld ll lr) r)) with
    (S (cost (Node la lc lk ld ll lr)) + match r with Leaf => O | _ => S (cost r) end + 1)%nat.
  rewrite <- !Nat.add_assoc, Nat.add_succ_l. cbn [destroy_loop]. run_steps. run_if. run_steps. cbn [ptr]. run_if.
  eapply (IHl la lc lk ld ll lr _ (FL a c k d r :: ctx)); [done|exact HLl|].
  intros L3 HL3. rewrite Nat.add_assoc. apply Hright; [|exact HQ'].
  rewrite HL3. apply (memory_plug1 n (FL a c k d r)).
Qed.

Lemma postorder_perm t : postorder t ≡ₚ (λ e, e.2) <$> elements t.
Proof.
  induction t as [|a c k d l IHl r IHr]; simpl; [done|].
  rewrite fmap_app, fmap_cons, IHl, IHr. by rewrite <- Permutation_cons_append.
Qed.

(** Destruction calls [free_element] exactly once with the data of each node
    and gives back exactly the nodes' memory: only the sentinel and what was
    there beside the tree is left.  The address of the old root stays in the
    object. *)
Theorem rb_destroy_spec s l F :
  represents s l F →
  ∃ ds s' v, rb_destroy s = Some (ds, s') ∧ ds ≡ₚ (λ e, e.2) <$> l ∧
    map_to_list (heap s') ≡ₚ (nilp s, v) :: F ∧ root s' = root s.
Proof.
  intros (t&np&Ht&<-&Hs). set (n := nilp s) in *.
  assert (Hrun : ∀ m, run n (ptr n t) (memory n t [] np F) (destroy_loop (cost t + S m) (ptr n t))
    (λ ds r' L', ds = postorder t ∧ r' = ptr n t ∧ L' ≡ₚ memory n Leaf [] np F)).
  { intros m. assert (Hend : ∀ r L, run n r L (destroy_loop (S m) n) (λ ds r' L', ds = [] ∧ r' = r ∧ L' = L)).
    { intros r L. cbn [destroy_loop]. run_steps. run_if. by apply run_ret. }
    destruct t as [|a c k d l r].
    - eapply run_mono; [apply Hend|]. intros ds r' L' (->&->&->). done.
    - eapply (destroy_run n _ a c k d l r (S m) [] np F); [done|reflexivity|]. intros L' HL'.
      eapply run_mono; [apply Hend|]. intros ds r' L2 (->&->&->). by rewrite app_nil_r. }
  assert (Hm : ∃ m, (2 * size (heap s) = cost t + S m)%nat).
  { exists (2 * size (heap s) - cost t - 1)%nat. pose proof (cost_size t) as Hc.
    assert (tree_size t + 1 ≤ size (heap s))%nat; [|lia].
    destruct Hs as (_&_&Hl). apply Permutation_length in Hl. rewrite length_map_to_list in Hl. rewrite Hl.
    unfold memory. rewrite !length_app, nodes_length. simpl. lia. }
  destruct Hm as [m Hm].
  destruct (run_exec _ _ _ _ _ _ (Hrun m) Hs) as (ds&s'&E&r'&L'&Hs'&->&->&HL).
  exists (postorder t), s', (mk_rb_node np n n BLACK 0 0). unfold rb_destroy. rewrite Hm.
  assert (Hroot : root s = ptr n t) by apply Hs. rewrite Hroot. split; [exact E|]. split; [apply postorder_perm|].
  destruct Hs' as (_&Hr&Hh). split; [|done]. by rewrite Hh, HL.
Qed.
