(* ===== verification/RbTreeTheorems.v ===== *)
(** * src/datas/pure_rbtree: the theorems about its operations, with concrete
    trees. *)

From stdpp Require Import sorting.
From S2P Require Import Prelude RbTree RbTreeHeap RbTreeInsert RbTreeDelete RbTreeOps RbTreeSpec RbTreeMap RbTreeWalk.

Local Open Scope Z_scope.

(** C4. The tree refines a multimap.  Starting from the constructor, whatever
    insertions, deletions, searches and minimum queries are made, no operation
    touches dead memory or diverges, every answer is one the multimap allows,
    and the memory holds one node per entry beside the sentinel and what was
    there before: nothing leaks. *)
Theorem rb_refines (new : gmap addr rb_node → addr * rb_node) h os :
  (∀ h, h !! (new h).1 = None) →
  ∃ ans s l, run_ops new os (new_pure_rbtree new h) = Some (ans, s) ∧ specs os ans [] l ∧
    size (heap s) = (size h + 1 + length l)%nat.
Proof.
  intros Hnew. destruct (run_ops_refine new Hnew os _ _ _ (new_represents new Hnew h))
    as (ans&s&l&E&Hos&(t&np&_&<-&_&_&Hh)).
  exists ans, s, (entries (elements t)). split; [exact E|]. split; [exact Hos|].
  apply Permutation_length in Hh. rewrite length_map_to_list in Hh. rewrite Hh. unfold memory, entries.
  rewrite length_fmap, elements_size, !length_app, nodes_length. simpl. rewrite length_map_to_list. lia.
Qed.

(** C9. Inserting a node that lies anywhere in memory puts it behind all nodes
    whose key is not greater, and leaves a sorted, balanced tree; every other
    cell outside the tree is untouched. *)
Theorem rb_insert_spec s l z v F :
  represents s l ((z, v) :: F) →
  ∃ s' l', rb_insert z s = Some ((), s') ∧ nilp s' = nilp s ∧
    put_in_order (z, key v, data v) l l' ∧ represents s' l' F.
Proof. apply rb_insert_ok. Qed.

(** C10. Deleting a node of the tree takes exactly that node out, whatever its
    place, and leaves a sorted, balanced tree; the node's cell stays allocated
    with its key and data. *)
Theorem rb_delete_spec s l1 l2 z k d F :
  represents s (l1 ++ (z, k, d) :: l2) F →
  ∃ s' v, rb_delete z s = Some ((), s') ∧ nilp s' = nilp s ∧ key v = k ∧ data v = d ∧
    represents s' (l1 ++ l2) ((z, v) :: F).
Proof. apply rb_delete_ok. Qed.

(** A search in a tree of [m] nodes ends within [2 log2 (m + 1) + 1] rounds,
    at a node with the key or at the sentinel when there is none. *)
Theorem rb_search_rounds s l F k fuel :
  represents s l F → (search_rounds (length l) <= fuel)%nat →
  ∃ z, search_loop fuel k (root s) s = Some (z, s) ∧ found (nilp s) l k z.
Proof. apply search_ok. Qed.

(** [rb_delete_key] reports the data of a node with the key, frees that
    node, and fails without a change when there is none. *)
Theorem rb_delete_key_spec s l F k :
  represents s l F →
  (rb_delete_key k s = Some ((-1, None), s) ∧ ∀ e, e ∈ l → e.1.2 ≠ k) ∨
  (∃ s' l1 z d l2, rb_delete_key k s = Some ((0, Some d), s') ∧ nilp s' = nilp s ∧
     l = l1 ++ (z, k, d) :: l2 ∧ represents s' (l1 ++ l2) F).
Proof. apply rb_delete_key_ok. Qed.

(** ** Concrete trees *)

(** An allocator: the address above all that are in use. *)
Definition demo_new (h : gmap addr rb_node) : addr * rb_node :=
  (map_fold (λ p _ acc, Pos.max acc (Pos.succ p)) 1%positive h, mk_rb_node 1%positive 1%positive 1%positive 7 7 7).

Lemma demo_new_fresh h : h !! (demo_new h).1 = None.
Proof.
  assert (Hlt : ∀ p, is_Some (h !! p) → (p < (demo_new h).1)%positive).
  { unfold demo_new. simpl.
    apply (map_fold_weak_ind (λ acc m, ∀ p : addr, is_Some (m !! p) → (p < acc)%positive)).
    - intros p [x Hx]. by rewrite lookup_empty in Hx.
    - intros p x m acc _ IH p' Hp'. destruct (decide (p' = p)) as [->|Hne]; [lia|].
      rewrite lookup_insert_ne in Hp' by done. specialize (IH p' Hp'). lia. }
  apply eq_None_not_Some. intros Hs. apply Hlt in Hs. lia.
Qed.

Definition demo_ops : list op :=
  ((λ k, Insert k (k * 10)) <$> [5; 3; 8; 1; 4; 7; 9; 2; 6; 3]) ++ [Delete 5; Delete 1; Search 3; Delete 42; Minimum].

Lemma rb_refines_witness :
  ∃ ans s l, run_ops demo_new demo_ops (new_pure_rbtree demo_new ∅) = Some (ans, s) ∧ specs demo_ops ans [] l ∧
    size (heap s) = (0 + 1 + length l)%nat ∧
    ans = replicate 10 Done ++ [Found 50; Found 10; Found 30; NotFound; Least 2 20].
Proof.
  destruct (rb_refines demo_new ∅ demo_ops demo_new_fresh) as (ans&s&l&E&Hos&Hsize).
  exists ans, s, l. split; [exact E|]. split; [exact Hos|]. split; [exact Hsize|].
  assert (Heq : fst <$> run_ops demo_new demo_ops (new_pure_rbtree demo_new ∅) =
    Some (replicate 10 Done ++ [Found 50; Found 10; Found 30; NotFound; Least 2 20])) by (vm_compute; reflexivity).
  rewrite E in Heq. simpl in Heq. by injection Heq.
Defined.

Definition demo_cell : rb_node := mk_rb_node 1%positive 1%positive 1%positive 0 5 50.

Lemma rb_insert_spec_witness :
  ∃ s' l', rb_insert 1%positive (new_pure_rbtree demo_new {[1%positive := demo_cell]}) = Some ((), s') ∧
    put_in_order (1%positive, 5, 50) [] l' ∧ represents s' l' [].
Proof.
  destruct (rb_insert_spec (new_pure_rbtree demo_new {[1%positive := demo_cell]}) [] 1%positive demo_cell [])
    as (s'&l'&E&_&Hp&Hs').
  - exact (new_represents demo_new demo_new_fresh {[1%positive := demo_cell]}).
  - exists s', l'. split; [exact E|]. split; [exact Hp|exact Hs'].
Defined.

(** A tree given by its shape, the sentinel at address 1. *)
Definition state_of (t : tree) : pure_rbtree :=
  mk_rbtree (list_to_map (memory 1%positive t [] 1%positive [])) 1%positive (ptr 1%positive t).

Lemma state_of_represents t :
  rbt t → NoDup (memory 1%positive t [] 1%positive []).*1 → represents (state_of t) (elements t) [].
Proof.
  intros Ht Hnd. exists t, 1%positive. split; [done|]. split; [done|]. split; [done|]. split; [done|].
  simpl. by apply map_to_list_to_map.
Qed.

Definition demo_tree : tree :=
  Node 4%positive BLACK 3 30 (Node 3%positive BLACK 1 10 Leaf Leaf)
    (Node 5%positive BLACK 5 50 (Node 2%positive RED 4 40 Leaf Leaf) (Node 6%positive RED 8 80 Leaf Leaf)).

Lemma demo_tree_represents :
  represents (state_of demo_tree) ([(3%positive, 1, 10); (4%positive, 3, 30); (2%positive, 4, 40)]
    ++ (5%positive, 5, 50) :: [(6%positive, 8, 80)]) [].
Proof.
  apply (state_of_represents demo_tree).
  - split; [repeat constructor; simpl; lia|]. exists 2%nat. simpl. naive_solver.
  - by apply (bool_decide_unpack _).
Qed.

Lemma rb_delete_spec_witness :
  ∃ s' v, rb_delete 5%positive (state_of demo_tree) = Some ((), s') ∧ key v = 5 ∧
    represents s' [(3%positive, 1, 10); (4%positive, 3, 30); (2%positive, 4, 40); (6%positive, 8, 80)] [(5%positive, v)].
Proof.
  destruct (rb_delete_spec _ _ _ _ _ _ _ demo_tree_represents) as (s'&v&E&_&Hk&_&Hs').
  exists s', v. split; [exact E|]. split; [exact Hk|exact Hs'].
Defined.

Lemma rb_search_rounds_witness :
  ∃ z, search_loop 5 4 (root (state_of demo_tree)) (state_of demo_tree) = Some (z, state_of demo_tree) ∧
    z = 2%positive.
Proof.
  destruct (rb_search_rounds _ _ _ 4 5 demo_tree_represents) as (z&E&_); [vm_compute; lia|].
  exists z. split; [exact E|]. vm_compute in E. by injection E.
Defined.

Lemma rb_delete_key_spec_witness :
  ∃ s' d l, rb_delete_key 4 (state_of demo_tree) = Some ((0, Some d), s') ∧ represents s' l [] ∧ d = 40.
Proof.
  destruct (rb_delete_key_spec _ _ _ 4 demo_tree_represents) as [[E _]|(s'&l1&z&d&l2&E&_&_&Hs')].
  - vm_compute in E. discriminate.
  - exists s', d, (l1 ++ l2). split; [exact E|]. split; [exact Hs'|].
    assert (Hd : fst <$> rb_delete_key 4 (state_of demo_tree) = Some (0, Some 40)) by (vm_compute; reflexivity).
    rewrite E in Hd. simpl in Hd. by injection Hd.
Defined.

Lemma rb_traversal_spec_witness :
  ∃ ds, rb_traversal (state_of demo_tree) = Some (ds, state_of demo_tree) ∧ ds ≡ₚ [10; 30; 40; 50; 80].
Proof.
  destruct (rb_traversal_spec _ _ _ demo_tree_represents) as (ds&E&Hds). exists ds. split; [exact E|exact Hds].
Defined.

Lemma rb_destroy_spec_witness :
  ∃ ds s' v, rb_destroy (state_of demo_tree) = Some (ds, s') ∧ ds ≡ₚ [10; 30; 40; 50; 80] ∧
    map_to_list (heap s') ≡ₚ [(1%positive, v)] ∧ root s' = 4%positive.
Proof.
  destruct (rb_destroy_spec _ _ _ demo_tree_represents) as (ds&s'&v&E&Hds&Hh&Hr).
  exists ds, s', v. split; [exact E|]. split; [exact Hds|]. split; [exact Hh|exact Hr].
Defined.
