(* ===== verification/TaskQueue.v ===== *)
(** * src/datas/task_queue.h: the bounded queue over a circular array, by
    itself and under concurrent producers and consumers. *)

From S2P Require Import Prelude.

Local Open Scope Z_scope.

(** ** The queue *)

Inductive MODE := SINGLE | MULTI.

Section queue.
Context {A : Type} (zero : A).

Record CTask_queue := mk_queue {
  m_rdindex : Z;
  m_wrindex : Z;
  m_max_rdindex : Z;
  m_size : Z;
  m_cursize : Z;
  mp_elems : list A }.

Definition new_queue : CTask_queue := mk_queue 0 0 0 0 0 [].

(** [new ELEM_T[size]] throws for a negative size. *)
Definition queue_init (size : Z) (q : CTask_queue) : option CTask_queue :=
  if size <? 0 then None
  else Some (mk_queue (m_rdindex q) (m_wrindex q) (m_max_rdindex q) size (m_cursize q)
               (replicate (Z.to_nat size) zero)).

(** The copy of the old elements has to fit the new array. *)
Definition queue_resize (size : Z) (q : CTask_queue) : option CTask_queue :=
  let ori_size := m_size q in
  let n := s32 (m_size q + size) in
  if (n <? 0) || (n <? ori_size) then None
  else Some (mk_queue (m_rdindex q) (m_wrindex q) (m_max_rdindex q) n (m_cursize q)
               (take (Z.to_nat ori_size) (mp_elems q) ++ replicate (Z.to_nat (n - ori_size)) zero)).

Definition set_rdindex (v : Z) (q : CTask_queue) : CTask_queue :=
  mk_queue v (m_wrindex q) (m_max_rdindex q) (m_size q) (m_cursize q) (mp_elems q).
Definition set_wrindex (v : Z) (q : CTask_queue) : CTask_queue :=
  mk_queue (m_rdindex q) v (m_max_rdindex q) (m_size q) (m_cursize q) (mp_elems q).
Definition set_max_rdindex (v : Z) (q : CTask_queue) : CTask_queue :=
  mk_queue (m_rdindex q) (m_wrindex q) v (m_size q) (m_cursize q) (mp_elems q).
Definition set_elems (l : list A) (q : CTask_queue) : CTask_queue :=
  mk_queue (m_rdindex q) (m_wrindex q) (m_max_rdindex q) (m_size q) (m_cursize q) l.

(** [i % m_size]; the [s32] is converted to [u32], zero is undefined. *)
Definition slot (q : CTask_queue) (i : Z) : option Z :=
  if u32 (m_size q) =? 0 then None else Some (i `mod` u32 (m_size q)).

Definition is_empty (max_rdindex rdindex : Z) (q : CTask_queue) : option bool :=
  r ← slot q rdindex; w ← slot q max_rdindex; Some (r =? w).
Definition is_full (wrindex rdindex : Z) (q : CTask_queue) : option bool :=
  w ← slot q (u32 (wrindex + 1)); r ← slot q rdindex; Some (w =? r).

(** [mp_elems[i % m_size]], read and written inside the array only. *)
Definition load (i : Z) (q : CTask_queue) : option A :=
  k ← slot q i; mp_elems q !! Z.to_nat k.
Definition store (i : Z) (v : A) (q : CTask_queue) : option CTask_queue :=
  k ← slot q i; _ ← mp_elems q !! Z.to_nat k;
  Some (set_elems (<[Z.to_nat k := v]> (mp_elems q)) q).

(** [CAS(&x, old, new)] on the value of [x]. *)
Definition CAS (x old : Z) : bool := x =? old.

(** ** One thread at a time *)

(** Without interference the first [CAS] of each loop succeeds, and the loop
    that publishes an element ends only if [m_max_rdindex] is in step. *)
Definition enqueue (mode : MODE) (ele : A) (q : CTask_queue) : option (bool * CTask_queue) :=
  let cur_wrindex := m_wrindex q in
  let cur_rdindex := m_rdindex q in
  full ← is_full cur_wrindex cur_rdindex q;
  if (full : bool) then Some (false, q) else
  match mode with
  | SINGLE =>
      q ← store cur_wrindex ele q;
      Some (true, set_wrindex (u32 (m_wrindex q + 1)) q)
  | MULTI =>
      let q := set_wrindex (u32 (cur_wrindex + 1)) q in
      q ← store cur_wrindex ele q;
      if CAS (m_max_rdindex q) cur_wrindex
      then Some (true, set_max_rdindex (u32 (cur_wrindex + 1)) q) else None
  end.

Definition dequeue (q : CTask_queue) : option (option A * CTask_queue) :=
  let cur_rdindex := m_rdindex q in
  let cur_max_rdindex := m_wrindex q in
  empty ← is_empty cur_max_rdindex cur_rdindex q;
  if (empty : bool) then Some (None, q) else
  ele ← load cur_rdindex q;
  Some (Some ele, set_rdindex (u32 (cur_rdindex + 1)) q).

(** ** Threads *)

(** Where a thread is: between operations, or before its next access to the
    shared memory. *)
Inductive pc :=
  | Idle
  | E_wr (ele : A)                             (* cur_wrindex = m_wrindex *)
  | E_rd (ele : A) (cur_wrindex : Z)           (* cur_rdindex = m_rdindex, and the test *)
  | E_cas (ele : A) (cur_wrindex : Z)          (* CAS of m_wrindex (MULTI) *)
  | E_store (ele : A) (cur_wrindex : Z)        (* mp_elems[...] = ele *)
  | E_add (ele : A)                            (* ATOMIC_ADD of m_wrindex (SINGLE) *)
  | E_publish (ele : A) (cur_wrindex : Z)      (* CAS of m_max_rdindex (MULTI) *)
  | D_rd                                       (* cur_rdindex = m_rdindex *)
  | D_wr (cur_rdindex : Z)                     (* cur_max_rdindex = m_wrindex, and the test *)
  | D_load (cur_rdindex : Z)                   (* ele = mp_elems[...] *)
  | D_cas (cur_rdindex : Z) (ele : A).         (* CAS of m_rdindex *)

(** The shared queue, the threads, and what completed so far: the elements
    whose [enqueue] returned true and those [dequeue] returned, in order. *)
Record sys := mk_sys { shared : CTask_queue; threads : nat → pc; enqueued : list A; dequeued : list A }.

Definition at_pc (s : sys) (i : nat) (p : pc) : sys :=
  mk_sys (shared s) (λ j, if decide (j = i) then p else threads s j) (enqueued s) (dequeued s).
Definition with_queue (q : CTask_queue) (s : sys) : sys :=
  mk_sys q (threads s) (enqueued s) (dequeued s).
Definition log_enqueued (v : A) (s : sys) : sys :=
  mk_sys (shared s) (threads s) (enqueued s ++ [v]) (dequeued s).
Definition log_dequeued (v : A) (s : sys) : sys :=
  mk_sys (shared s) (threads s) (enqueued s) (dequeued s ++ [v]).

(** Which threads may call [enqueue]: in mode SINGLE only one. *)
Definition producer (mode : MODE) (i : nat) : Prop := match mode with SINGLE => i = O | MULTI => True end.

Inductive step (mode : MODE) : sys → sys → Prop :=
  | S_enqueue s i v : threads s i = Idle → producer mode i → step mode s (at_pc s i (E_wr v))
  | S_dequeue s i : threads s i = Idle → step mode s (at_pc s i D_rd)
  | S_E_wr s i v : threads s i = E_wr v → step mode s (at_pc s i (E_rd v (m_wrindex (shared s))))
  | S_E_full s i v w :
      threads s i = E_rd v w → is_full w (m_rdindex (shared s)) (shared s) = Some true →
      step mode s (at_pc s i Idle)
  | S_E_room s i v w :
      threads s i = E_rd v w → is_full w (m_rdindex (shared s)) (shared s) = Some false →
      step mode s (at_pc s i (match mode with SINGLE => E_store v w | MULTI => E_cas v w end))
  | S_E_cas s i v w :
      threads s i = E_cas v w → CAS (m_wrindex (shared s)) w = true →
      step mode s (at_pc (with_queue (set_wrindex (u32 (w + 1)) (shared s)) s) i (E_store v w))
  | S_E_cas_fails s i v w :
      threads s i = E_cas v w → CAS (m_wrindex (shared s)) w = false → step mode s (at_pc s i (E_wr v))
  | S_E_store s i v w q :
      threads s i = E_store v w → store w v (shared s) = Some q →
      step mode s (at_pc (with_queue q s) i (match mode with SINGLE => E_add v | MULTI => E_publish v w end))
  | S_E_add s i v :
      threads s i = E_add v →
      step mode s (log_enqueued v (at_pc (with_queue (set_wrindex (u32 (m_wrindex (shared s) + 1)) (shared s)) s) i Idle))
  | S_E_publish s i v w :
      threads s i = E_publish v w → CAS (m_max_rdindex (shared s)) w = true →
      step mode s (log_enqueued v (at_pc (with_queue (set_max_rdindex (u32 (w + 1)) (shared s)) s) i Idle))
  | S_D_rd s i : threads s i = D_rd → step mode s (at_pc s i (D_wr (m_rdindex (shared s))))
  | S_D_empty s i r :
      threads s i = D_wr r → is_empty (m_wrindex (shared s)) r (shared s) = Some true →
      step mode s (at_pc s i Idle)
  | S_D_some s i r :
      threads s i = D_wr r → is_empty (m_wrindex (shared s)) r (shared s) = Some false →
      step mode s (at_pc s i (D_load r))
  | S_D_load s i r v : threads s i = D_load r → load r (shared s) = Some v → step mode s (at_pc s i (D_cas r v))
  | S_D_cas s i r v :
      threads s i = D_cas r v → CAS (m_rdindex (shared s)) r = true →
      step mode s (log_dequeued v (at_pc (with_queue (set_rdindex (u32 (r + 1)) (shared s)) s) i Idle))
  | S_D_cas_fails s i r v :
      threads s i = D_cas r v → CAS (m_rdindex (shared s)) r = false → step mode s (at_pc s i D_rd).

(** A queue of [size] slots that no thread uses yet. *)
Definition start (size : Z) : sys :=
  mk_sys (default new_queue (queue_init size new_queue)) (λ _, Idle) [] [].
End queue.
Arguments CTask_queue : clear implicits.
Arguments sys : clear implicits.
Arguments pc : clear implicits.
