(* ===== verification/TaskQueueProofs.v ===== *)
(** * src/datas/task_queue.h: the queue against a bounded list, and the threads'
    invariant. *)

From stdpp Require Import relations.
From S2P Require Import Prelude TaskQueue.

Local Open Scope Z_scope.

(** ** Windows of a circular array *)

Lemma mod_window a b n : 0 ≤ a - b < n → a `mod` n = b `mod` n → a = b.
Proof.
  intros Hab E. assert (H0 : (a - b) `mod` n = 0).
  { rewrite Zminus_mod, E, Z.sub_diag. apply Z.mod_0_l. lia. }
  rewrite Z.mod_small in H0 by lia. lia.
Qed.

Section ring.
Context {A : Type} (n : Z) (Hn : 0 < n).

(** The slots [r], [r + 1], ... hold [l]. *)
Definition ring (el : list A) (r : Z) (l : list A) : Prop :=
  Z.of_nat (length el) = n ∧
  ∀ j x, l !! j = Some x → el !! Z.to_nat ((r + Z.of_nat j) `mod` n) = Some x.

Lemma ring_slot el r l i : ring el r l → is_Some (el !! Z.to_nat (i `mod` n)).
Proof. intros [Hl _]. apply lookup_lt_is_Some. pose proof (Z.mod_pos_bound i n Hn). lia. Qed.

Lemma ring_head el r x l : ring el r (x :: l) → el !! Z.to_nat (r `mod` n) = Some x.
Proof. intros [_ H]. specialize (H O x eq_refl). by rewrite Z.add_0_r in H. Qed.

Lemma ring_tail el r x l : ring el r (x :: l) → ring el (r + 1) l.
Proof.
  intros [Hl H]. split; [done|]. intros j y Hj. specialize (H (S j) y Hj).
  replace (r + 1 + Z.of_nat j) with (r + Z.of_nat (S j)) by lia. exact H.
Qed.

(** A write behind the window that does not reach around to it. *)
Lemma ring_store el r l w v :
  ring el r l → r + Z.of_nat (length l) ≤ w < r + n → ring (<[Z.to_nat (w `mod` n) := v]> el) r l.
Proof.
  intros [Hl H] Hw. split; [by rewrite length_insert|]. intros j x Hj.
  rewrite list_lookup_insert_ne; [by apply H|]. intros E.
  apply lookup_lt_Some in Hj. apply (f_equal Z.of_nat) in E.
  rewrite !Z2Nat.id in E by (apply Z.mod_pos_bound; lia). apply mod_window in E; lia.
Qed.

Lemma ring_snoc el r l v :
  ring el r l → Z.of_nat (length l) < n → ring (<[Z.to_nat ((r + Z.of_nat (length l)) `mod` n) := v]> el) r (l ++ [v]).
Proof.
  intros Hr Hlen. destruct (ring_store el r l (r + Z.of_nat (length l)) v Hr ltac:(lia)) as [Hl H].
  split; [done|]. intros j x Hj. apply lookup_app_Some in Hj as [Hj|[Hge Hj]]; [by apply H|].
  apply list_lookup_singleton_Some in Hj as [Hj <-].
  replace j with (length l) by lia. apply list_lookup_insert_eq.
  destruct Hr as [Hel _]. pose proof (Z.mod_pos_bound (r + Z.of_nat (length l)) n Hn). lia.
Qed.

Lemma ring_init zero r : ring (replicate (Z.to_nat n) zero) r [].
Proof. split; [rewrite length_replicate; lia|]. intros j x Hj. by rewrite lookup_nil in Hj. Qed.
End ring.

(** ** Slots *)

(** An index [i] whose low 32 bits name the right slot: the size is a power of
    two, or [i] has not wrapped. *)
Definition index_ok (n i : Z) : Prop := (∃ k, 0 ≤ k ≤ 32 ∧ n = 2 ^ k) ∨ 0 ≤ i < 2 ^ 32.

Lemma slot_u32 {A} (q : CTask_queue A) i :
  0 < m_size q < 2 ^ 31 → index_ok (m_size q) i → slot q (u32 i) = Some (i `mod` m_size q).
Proof.
  intros Hn Hi. unfold slot. rewrite (u32_small (m_size q)) by lia.
  destruct (Z.eqb_spec (m_size q) 0); [lia|]. f_equal. destruct Hi as [(k&Hk&->)|Hi].
  - unfold u32. rewrite <- Znumtheory.Zmod_div_mod; [done|lia|lia|].
    exists (2 ^ (32 - k)). rewrite <- Z.pow_add_r by lia. f_equal. lia.
  - by rewrite u32_small.
Qed.

Section accesses.
Context {A : Type} (q : CTask_queue A).
Context (Hsize : 0 < m_size q < 2 ^ 31).

Lemma is_empty_eq w r : index_ok (m_size q) w → index_ok (m_size q) r →
  is_empty (u32 w) (u32 r) q = Some (r `mod` m_size q =? w `mod` m_size q).
Proof. intros Hw Hr. unfold is_empty. by rewrite !slot_u32. Qed.

Lemma is_full_eq w r : index_ok (m_size q) (w + 1) → index_ok (m_size q) r →
  is_full (u32 w) (u32 r) q = Some ((w + 1) `mod` m_size q =? r `mod` m_size q).
Proof. intros Hw Hr. unfold is_full. rewrite u32_add_l, !slot_u32 by done. done. Qed.

Lemma load_eq i r l : index_ok (m_size q) i → ring (m_size q) (mp_elems q) r l →
  load (u32 i) q = mp_elems q !! Z.to_nat (i `mod` m_size q).
Proof. intros Hi Hr. unfold load. by rewrite slot_u32. Qed.

Lemma store_eq i v r l : index_ok (m_size q) i → ring (m_size q) (mp_elems q) r l →
  store (u32 i) v q = Some (set_elems (<[Z.to_nat (i `mod` m_size q) := v]> (mp_elems q)) q).
Proof.
  intros Hi Hr. unfold store. rewrite slot_u32 by done. simpl.
  by destruct (ring_slot (m_size q) ltac:(lia) _ _ _ i Hr) as [x ->].
Qed.
End accesses.

(** ** One thread at a time: a bounded list *)

Section sequential.
Context {A : Type} (zero : A).

(** The queue holds [l]; its indices may have wrapped any number of times. *)
Definition holds (mode : MODE) (q : CTask_queue A) (l : list A) : Prop :=
  0 < m_size q < 2 ^ 31 ∧ (∃ k, 0 ≤ k ≤ 32 ∧ m_size q = 2 ^ k) ∧
  Z.of_nat (length l) ≤ m_size q - 1 ∧
  (mode = MULTI → m_max_rdindex q = m_wrindex q) ∧
  ∃ r, m_rdindex q = u32 r ∧ m_wrindex q = u32 (r + Z.of_nat (length l)) ∧
    ring (m_size q) (mp_elems q) r l.

(** The reference: a list of at most [cap] elements. *)
Definition spec_enqueue (cap : nat) (v : A) (l : list A) : bool * list A :=
  if (length l <? cap)%nat then (true, l ++ [v]) else (false, l).
Definition spec_dequeue (l : list A) : option A * list A :=
  match l with [] => (None, []) | x :: l => (Some x, l) end.

Definition cap (q : CTask_queue A) : nat := Z.to_nat (m_size q - 1).

Lemma holds_snoc mode q l v r q' :
  0 < m_size q < 2 ^ 31 → (∃ k, 0 ≤ k ≤ 32 ∧ m_size q = 2 ^ k) →
  ring (m_size q) (mp_elems q) r l → Z.of_nat (length l) < m_size q - 1 →
  m_size q' = m_size q → (mode = MULTI → m_max_rdindex q' = m_wrindex q') → m_rdindex q' = u32 r →
  m_wrindex q' = u32 (r + Z.of_nat (length l) + 1) →
  mp_elems q' = <[Z.to_nat ((r + Z.of_nat (length l)) `mod` m_size q) := v]> (mp_elems q) →
  holds mode q' (l ++ [v]).
Proof.
  intros Hn Hk Hring Hlen Hs Hmax Er Ew Hel. unfold holds. rewrite Hs, length_app. simpl.
  split; [done|]. split; [done|]. split; [lia|]. split; [done|]. exists r. split; [done|].
  split; [rewrite Ew; f_equal; lia|]. rewrite Hel. apply ring_snoc; [lia|done|lia].
Qed.

Lemma enqueue_refines mode q l v :
  holds mode q l →
  ∃ q', enqueue mode v q = Some ((spec_enqueue (cap q) v l).1, q') ∧
    holds mode q' (spec_enqueue (cap q) v l).2 ∧ m_size q' = m_size q.
Proof.
  intros (Hn&Hk&Hlen&Hmax&r&Er&Ew&Hring). unfold enqueue, spec_enqueue, cap.
  assert (Hidx : ∀ i, index_ok (m_size q) i) by by left.
  rewrite Er, Ew, is_full_eq by auto. simpl.
  destruct (Z.eqb_spec ((r + Z.of_nat (length l) + 1) `mod` m_size q) (r `mod` m_size q)) as [E|E].
  - assert (Hfull : Z.of_nat (length l) = m_size q - 1).
    { destruct (decide (Z.of_nat (length l) = m_size q - 1)) as [|Hne]; [done|].
      apply mod_window in E; lia. }
    destruct (Nat.ltb_spec (length l) (Z.to_nat (m_size q - 1))); [lia|].
    exists q. split; [done|]. split; [|done]. split; [done|]. split; [done|]. split; [done|]. split; [done|]. eauto.
  - assert (Hroom : Z.of_nat (length l) ≠ m_size q - 1).
    { intros H. apply E. replace (r + Z.of_nat (length l) + 1) with (r + 1 * m_size q) by lia.
      apply Z_mod_plus_full. }
    destruct (Nat.ltb_spec (length l) (Z.to_nat (m_size q - 1))); [|lia]. simpl.
    assert (Hring' := ring_snoc (m_size q) ltac:(lia) _ _ _ v Hring ltac:(lia)).
    destruct mode.
    + rewrite (store_eq _ Hn _ _ r l) by auto. simpl. eexists. split; [done|]. split; [|done].
      apply (holds_snoc SINGLE q l v r _ Hn Hk Hring); simpl; try done; try lia.
      by rewrite Ew, u32_add_l.
    + assert (Hs := store_eq (set_wrindex (u32 (r + Z.of_nat (length l) + 1)) q) Hn
        (r + Z.of_nat (length l)) v r l (Hidx _) Hring).
      rewrite u32_add_l, Hs. simpl. rewrite Hmax by done. unfold CAS. rewrite Ew, Z.eqb_refl.
      eexists. split; [done|]. split; [|done].
      apply (holds_snoc MULTI q l v r _ Hn Hk Hring); simpl; try done; try lia.
Qed.

Lemma dequeue_refines mode q l :
  holds mode q l →
  ∃ q', dequeue q = Some ((spec_dequeue l).1, q') ∧ holds mode q' (spec_dequeue l).2 ∧ m_size q' = m_size q.
Proof.
  intros (Hn&Hk&Hlen&Hmax&r&Er&Ew&Hring). unfold dequeue, spec_dequeue.
  assert (Hidx : ∀ i, index_ok (m_size q) i) by by left.
  rewrite Er, Ew, is_empty_eq by auto. simpl. destruct l as [|x l]; simpl.
  - rewrite Z.add_0_r, Z.eqb_refl. exists q. split; [done|]. split; [|done].
    split; [done|]. split; [done|]. split; [done|]. split; [done|]. eauto.
  - simpl in Hlen. destruct (Z.eqb_spec (r `mod` m_size q) ((r + Z.of_nat (S (length l))) `mod` m_size q)) as [E|E].
    { symmetry in E. apply mod_window in E; lia. }
    rewrite (load_eq _ Hn _ r (x :: l)) by auto. rewrite (ring_head _ _ _ _ _ Hring). simpl.
    eexists. split; [done|]. split; [|done]. split; [done|]. split; [done|]. split; [simpl; lia|]. split; [done|].
    exists (r + 1). simpl. split; [by rewrite u32_add_l|]. split; [rewrite Ew; f_equal; simpl; lia|].
    by eapply ring_tail.
Qed.

(** Sequences of operations and what they return. *)
Inductive op := Enqueue (v : A) | Dequeue.
Inductive answer := Enqueued (ok : bool) | Dequeued (o : option A).

Definition run_op (mode : MODE) (o : op) (q : CTask_queue A) : option (answer * CTask_queue A) :=
  match o with
  | Enqueue v => '(b, q) ← enqueue mode v q; Some (Enqueued b, q)
  | Dequeue => '(x, q) ← dequeue q; Some (Dequeued x, q)
  end.
Fixpoint run (mode : MODE) (os : list op) (q : CTask_queue A) : option (list answer) :=
  match os with
  | [] => Some []
  | o :: os => '(a, q) ← run_op mode o q; (a ::.) <$> run mode os q
  end.
Definition spec_op (cap : nat) (o : op) (l : list A) : answer * list A :=
  match o with
  | Enqueue v => let '(b, l) := spec_enqueue cap v l in (Enqueued b, l)
  | Dequeue => let '(x, l) := spec_dequeue l in (Dequeued x, l)
  end.
Fixpoint spec_run (cap : nat) (os : list op) (l : list A) : list answer :=
  match os with [] => [] | o :: os => let '(a, l) := spec_op cap o l in a :: spec_run cap os l end.

Lemma run_refines mode os : ∀ q l, holds mode q l → run mode os q = Some (spec_run (cap q) os l).
Proof.
  induction os as [|o os IH]; intros q l Hq; [done|]. cbn [run spec_run]. destruct o as [v|]; simpl.
  - destruct (enqueue_refines mode q l v Hq) as (q'&E&Hq'&Hs). rewrite E. simpl.
    destruct (spec_enqueue (cap q) v l) as [b l']. simpl in *. rewrite (IH _ _ Hq').
    unfold cap. by rewrite Hs.
  - destruct (dequeue_refines mode q l Hq) as (q'&E&Hq'&Hs). rewrite E. simpl.
    destruct (spec_dequeue l) as [b l']. simpl in *. rewrite (IH _ _ Hq').
    unfold cap. by rewrite Hs.
Qed.

Lemma init_holds mode k q : 0 ≤ k ≤ 30 → queue_init zero (2 ^ k) new_queue = Some q → holds mode q [] ∧ cap q = Z.to_nat (2 ^ k - 1).
Proof.
  intros Hk. unfold queue_init. assert (0 < 2 ^ k) by (apply Z.pow_pos_nonneg; lia).
  assert (2 ^ k ≤ 2 ^ 30 < 2 ^ 31) by (split; [apply Z.pow_le_mono_r; lia|done]).
  destruct (Z.ltb_spec (2 ^ k) 0); [lia|]. intros [= <-]. split; [|done]. unfold holds. cbn [m_size].
  split; [lia|]. split; [exists k; split; [lia|done]|]. split; [simpl; lia|]. split; [done|].
  exists 0. split; [done|]. split; [done|]. by apply ring_init.
Qed.
End sequential.
