(* ===== verification/TaskQueueThreads.v ===== *)
(** * src/datas/task_queue.h under threads: the invariant of one producer and
    any number of consumers, and what goes wrong with many producers. *)

From stdpp Require Import relations.
From S2P Require Import Prelude TaskQueue TaskQueueProofs.

Local Open Scope Z_scope.

Section threads.
Context {A : Type} (zero : A) (n : Z) (Hn : 0 < n < 2 ^ 31).

(** How many elements went in and came out. *)
Definition wr (s : sys A) : Z := Z.of_nat (length (enqueued s)).
Definition rd (s : sys A) : Z := Z.of_nat (length (dequeued s)).
(** The elements still inside. *)
Definition content (s : sys A) : list A := drop (length (dequeued s)) (enqueued s).

(** What a thread knows at each point: only thread 0 produces, and it knows
    [m_wrindex] and that its slot is free; a consumer's view is behind. *)
Definition thread_ok (s : sys A) (i : nat) (p : pc A) : Prop :=
  match p with
  | Idle => True
  | E_wr v => i = O
  | E_rd v w => i = O ∧ w = wr s
  | E_store v w => i = O ∧ w = wr s ∧ wr s - rd s ≤ n - 2
  | E_add v => i = O ∧ wr s - rd s ≤ n - 2 ∧ ring n (mp_elems (shared s)) (rd s) (content s ++ [v])
  | E_cas _ _ | E_publish _ _ => False
  | D_rd => True
  | D_wr r => 0 ≤ r ≤ rd s
  | D_load r => 0 ≤ r ≤ rd s ∧ r < wr s
  | D_cas r x => 0 ≤ r ≤ rd s ∧ r < wr s ∧ (r = rd s → enqueued s !! Z.to_nat r = Some x)
  end.

Record inv (s : sys A) : Prop := mk_inv {
  inv_size : m_size (shared s) = n;
  inv_rd : m_rdindex (shared s) = u32 (rd s);
  inv_wr : m_wrindex (shared s) = u32 (wr s);
  inv_fifo : dequeued s = take (length (dequeued s)) (enqueued s);
  inv_cap : wr s - rd s ≤ n - 1;
  inv_ring : ring n (mp_elems (shared s)) (rd s) (content s);
  inv_threads : ∀ i, thread_ok s i (threads s i) }.

Lemma inv_rd_le s : inv s → 0 ≤ rd s ≤ wr s.
Proof.
  intros H. pose proof (f_equal length (inv_fifo s H)) as E. rewrite length_take in E.
  unfold rd, wr. lia.
Qed.

Lemma content_length s : Z.of_nat (length (content s)) = Z.max 0 (wr s - rd s).
Proof. unfold content, wr, rd. rewrite length_drop. lia. Qed.

(** The elements that are in, seen from both ends. *)
Lemma content_snoc s v : inv s → drop (length (dequeued s)) (enqueued s ++ [v]) = content s ++ [v].
Proof. intros H. pose proof (inv_rd_le s H). unfold rd, wr in *. apply drop_app_le. lia. Qed.

Lemma content_head s x : enqueued s !! length (dequeued s) = Some x →
  content s = x :: drop (S (length (dequeued s))) (enqueued s).
Proof. intros H. unfold content. by apply drop_S. Qed.

Lemma mod_eqb a b : 0 ≤ a - b < n → (b `mod` n =? a `mod` n) = (a =? b).
Proof.
  intros Hab. destruct (Z.eqb_spec a b) as [->|Hne]; [by rewrite Z.eqb_refl|].
  apply Z.eqb_neq. intros E. apply Hne. by apply (mod_window a b n).
Qed.

(** The state changes of the steps. *)
Lemma inv_at s i p : inv s → thread_ok s i p → inv (at_pc s i p).
Proof.
  intros [] Hp. split; try done. intros j. simpl. case_decide as E; [by subst|]. apply inv_threads0.
Qed.

(** A producer's step: what the other threads know survives. *)
Lemma producer_frame s s' j p :
  thread_ok s j p → j ≠ O → rd s = rd s' → wr s ≤ wr s' → enqueued s `prefix_of` enqueued s' → thread_ok s' j p.
Proof.
  intros Hp Hj Hr Hw He. destruct p; simpl in *; try lia; try done.
  destruct Hp as (Hb&Hlt&Hx). split; [lia|]. split; [lia|]. intros E.
  eapply prefix_lookup_Some; [apply Hx; lia|done].
Qed.

(** A consumer's step takes the head: what the other threads know survives. *)
Lemma consumer_frame s i x j p :
  enqueued s !! length (dequeued s) = Some x →
  thread_ok s j p → thread_ok (log_dequeued x (at_pc (with_queue (set_rdindex (u32 (rd s + 1)) (shared s)) s) i Idle)) j p.
Proof.
  intros Hx Hp. assert (Hr : rd (log_dequeued x (at_pc (with_queue (set_rdindex (u32 (rd s + 1)) (shared s)) s) i Idle)) = rd s + 1).
  { unfold rd. simpl. rewrite length_app. simpl. lia. }
  destruct p; simpl in *; unfold wr in *; simpl; rewrite ?Hr; try done; try lia.
  destruct Hp as (?&?&Hring). split; [done|]. split; [lia|].
  rewrite (content_head s x Hx) in Hring. apply ring_tail in Hring. unfold content. simpl.
  rewrite length_app, Nat.add_1_r. exact Hring.
Qed.

Lemma rd_index s : inv s → wr s < 2 ^ 32 → m_rdindex (shared s) = rd s.
Proof. intros H Hw. rewrite (inv_rd s H). pose proof (inv_rd_le s H). apply u32_small. lia. Qed.
Lemma wr_index s : inv s → wr s < 2 ^ 32 → m_wrindex (shared s) = wr s.
Proof. intros H Hw. rewrite (inv_wr s H). pose proof (inv_rd_le s H). apply u32_small. lia. Qed.

(** *** The producer's steps *)

Lemma inv_room s i v w :
  inv s → wr s < 2 ^ 32 - 1 → threads s i = E_rd v w → is_full w (m_rdindex (shared s)) (shared s) = Some false →
  inv (at_pc s i (E_store v w)).
Proof.
  intros H Hw Ht Hf. apply inv_at; [done|]. pose proof (inv_rd_le s H). pose proof (inv_cap s H).
  pose proof (inv_threads s H i) as Hi. rewrite Ht in Hi. destruct Hi as [-> ->].
  split; [done|]. split; [done|].
  rewrite rd_index in Hf by (done || lia). rewrite <- (u32_small (wr s)), <- (u32_small (rd s)) in Hf by lia.
  rewrite is_full_eq, inv_size in Hf by (rewrite ?inv_size by done; done || (right; lia)).
  injection Hf as Hf. apply Z.eqb_neq in Hf. destruct (decide (wr s - rd s = n - 1)) as [E|]; [|lia].
  destruct Hf. replace (wr s + 1) with (rd s + 1 * n) by lia. apply Z_mod_plus_full.
Qed.

Lemma inv_store s i v w q :
  inv s → wr s < 2 ^ 32 → threads s i = E_store v w → store w v (shared s) = Some q →
  inv (at_pc (with_queue q s) i (E_add v)).
Proof.
  intros H Hw Ht Hs. pose proof (inv_rd_le s H). pose proof (inv_threads s H i) as Hi. rewrite Ht in Hi.
  destruct Hi as (->&->&Hroom). destruct H as [Hsz Hr Hwr Hf Hc Hring Hth].
  pose proof (content_length s) as Hl.
  rewrite <- (u32_small (wr s)) in Hs by lia.
  rewrite (store_eq _ ltac:(by rewrite Hsz) (wr s) v (rd s) (content s)) in Hs
    by (rewrite Hsz; done || (right; lia)).
  rewrite Hsz in Hs. injection Hs as <-.
  assert (Hsnoc := ring_snoc n ltac:(lia) _ _ _ v Hring ltac:(lia)).
  replace (rd s + Z.of_nat (length (content s))) with (wr s) in Hsnoc by lia.
  split; try done.
  - apply (ring_store n ltac:(lia) _ (rd s) (content s)); [done|lia].
  - intros j. simpl. case_decide as E; [subst; by split_and!|].
    apply (producer_frame s); [apply Hth|done|done|done|done].
Qed.

Lemma inv_add s i v :
  inv s → threads s i = E_add v →
  inv (log_enqueued v (at_pc (with_queue (set_wrindex (u32 (m_wrindex (shared s) + 1)) (shared s)) s) i Idle)).
Proof.
  intros H Ht. pose proof (inv_rd_le s H). pose proof (inv_threads s H i) as Hi. rewrite Ht in Hi.
  destruct Hi as (->&Hroom&Hsnoc). pose proof (content_snoc s v H) as Hcs. destruct H as [Hsz Hr Hwr Hf Hc Hring Hth].
  set (s' := log_enqueued _ _). assert (Hw : wr s' = wr s + 1).
  { unfold wr. simpl. rewrite length_app. simpl. lia. }
  split; try done.
  - simpl. rewrite Hw, Hwr. apply u32_add_l.
  - simpl. rewrite take_app_le; [done|]. unfold rd, wr in *. lia.
  - rewrite Hw. unfold rd in *. simpl. lia.
  - unfold content. simpl. by rewrite Hcs.
  - intros j. unfold s' at 2. simpl. case_decide as E; [done|].
    apply (producer_frame s); [apply Hth|done|done|lia|by apply prefix_app_r].
Qed.

(** *** The consumers' steps *)

Lemma inv_some s i r :
  inv s → wr s < 2 ^ 32 → threads s i = D_wr r → is_empty (m_wrindex (shared s)) r (shared s) = Some false →
  inv (at_pc s i (D_load r)).
Proof.
  intros H Hw Ht He. apply inv_at; [done|]. pose proof (inv_rd_le s H). pose proof (inv_threads s H i) as Hi.
  rewrite Ht in Hi. simpl in Hi. split; [done|].
  rewrite (inv_wr s H), <- (u32_small r) in He by lia.
  rewrite is_empty_eq in He by (rewrite inv_size by done; done || (right; lia)).
  injection He as He. apply Z.eqb_neq in He. destruct (decide (r = wr s)) as [->|]; [done|lia].
Qed.

Lemma inv_load s i r x :
  inv s → wr s < 2 ^ 32 → threads s i = D_load r → load r (shared s) = Some x → inv (at_pc s i (D_cas r x)).
Proof.
  intros H Hw Ht Hl. apply inv_at; [done|]. pose proof (inv_rd_le s H). pose proof (inv_threads s H i) as Hi.
  rewrite Ht in Hi. simpl in Hi. split; [lia|]. split; [lia|]. intros E.
  assert (Hx : is_Some (enqueued s !! length (dequeued s))) by (apply lookup_lt_is_Some; unfold rd, wr in *; lia).
  destruct Hx as [y Hy]. pose proof (inv_ring s H) as Hring. rewrite (content_head s y Hy) in Hring.
  rewrite <- (u32_small r) in Hl by lia.
  rewrite (load_eq _ ltac:(by rewrite inv_size) r (rd s) (y :: drop (S (length (dequeued s))) (enqueued s))) in Hl
    by (rewrite inv_size by done; done || (right; lia)).
  rewrite inv_size in Hl by done. apply ring_head in Hring. rewrite E in Hl. rewrite Hring in Hl. injection Hl as <-.
  rewrite E. unfold rd. by rewrite Nat2Z.id.
Qed.

Lemma inv_cas s i r x :
  inv s → wr s < 2 ^ 32 → threads s i = D_cas r x → CAS (m_rdindex (shared s)) r = true →
  inv (log_dequeued x (at_pc (with_queue (set_rdindex (u32 (r + 1)) (shared s)) s) i Idle)).
Proof.
  intros H Hw Ht Hc. pose proof (inv_rd_le s H). pose proof (inv_threads s H i) as Hi. rewrite Ht in Hi.
  destruct Hi as (Hb&Hlt&Hx). apply Z.eqb_eq in Hc. rewrite rd_index in Hc by done. subst r. specialize (Hx eq_refl).
  unfold rd in Hx. rewrite Nat2Z.id in Hx. fold (rd s).
  pose proof (consumer_frame s i x) as Hfr.
  destruct H as [Hsz Hr Hwr Hf Hcap Hring Hth]. set (s' := log_dequeued _ _) in *.
  assert (Hr' : rd s' = rd s + 1) by (unfold rd; simpl; rewrite length_app; simpl; lia).
  split; try done.
  - by rewrite Hr'.
  - simpl. rewrite length_app, Nat.add_1_r. rewrite (take_S_r _ _ x Hx). by rewrite <- Hf.
  - rewrite Hr'. unfold wr in *. simpl. lia.
  - unfold content. simpl. rewrite length_app, Nat.add_1_r. rewrite (content_head s x Hx) in Hring.
    rewrite Hr'. by apply ring_tail in Hring.
  - intros j. unfold s' at 2. simpl. case_decide as E; [done|]. apply Hfr; [done|apply Hth].
Qed.

(** *** All steps *)

Lemma step_enqueued s s' : step SINGLE s s' → wr s ≤ wr s'.
Proof. destruct 1; unfold wr; simpl; rewrite ?length_app; lia. Qed.

Lemma step_inv s s' : step SINGLE s s' → wr s' < 2 ^ 32 - 1 → inv s → inv s'.
Proof.
  intros Hst Hw H. pose proof (step_enqueued _ _ Hst) as Hle. pose proof (inv_rd_le s H) as Hrd.
  destruct Hst as [s i v Ht Hp|s i Ht|s i v Ht|s i v w Ht Hf|s i v w Ht Hf|s i v w Ht Hc|s i v w Ht Hc|s i v w q Ht Hs
    |s i v Ht|s i v w Ht Hc|s i Ht|s i r Ht He|s i r Ht He|s i r v Ht Hl|s i r v Ht Hc|s i r v Ht Hc];
  pose proof (inv_threads s H i) as Hi; rewrite Ht in Hi; simpl in Hi; try done;
  try (apply inv_at; done).
  - apply inv_at; [done|]. split; [done|]. apply wr_index; [done|lia].
  - apply inv_room; try done; lia.
  - apply inv_store with w; try done; lia.
  - by apply inv_add.
  - apply inv_at; [done|]. simpl. rewrite rd_index by (done || lia). lia.
  - apply inv_some; try done; lia.
  - apply inv_load; try done; lia.
  - apply inv_cas; try done. unfold wr in *. simpl in *. lia.
Qed.

Lemma steps_enqueued s s' : rtc (step SINGLE) s s' → wr s ≤ wr s'.
Proof. induction 1 as [|x y z Hxy _ IH]; [done|]. pose proof (step_enqueued _ _ Hxy). lia. Qed.

Lemma start_inv : inv (start zero n).
Proof.
  unfold start, queue_init. destruct (Z.ltb_spec n 0); [lia|]. split; try done; simpl; try lia.
  - unfold wr, rd; simpl; lia.
  - apply ring_init. lia.
Qed.

Lemma steps_inv s s' : rtc (step SINGLE) s s' → wr s' < 2 ^ 32 - 1 → inv s → inv s'.
Proof.
  induction 1 as [|x y z Hxy Hyz IH]; [done|]. intros Hw Hx. apply IH; [done|].
  apply (step_inv x); [done| |done]. pose proof (steps_enqueued _ _ Hyz). lia.
Qed.

(** No thread is ever stuck: every access is inside the array, and a thread's
    next step does not wait for another's. *)
Lemma inv_progress s i :
  inv s → wr s < 2 ^ 32 - 1 → threads s i ≠ Idle → ∃ s', step SINGLE s s' ∧ threads s' i ≠ threads s i.
Proof.
  intros H Hw Hne. pose proof (inv_threads s H i) as Hi. pose proof (inv_rd_le s H) as Hrd.
  assert (Hat : ∀ (s0 : sys A) p, threads (at_pc s0 i p) i = p) by (intros; simpl; by rewrite decide_True).
  assert (Hslot : ∀ k, ∃ j, slot (shared s) k = Some j).
  { intros k. unfold slot. rewrite inv_size, u32_small by (done || lia). destruct (Z.eqb_spec n 0); [lia|eauto]. }
  assert (Hin : ∀ k, 0 ≤ k < 2 ^ 32 → ∃ j x, slot (shared s) k = Some j ∧ mp_elems (shared s) !! Z.to_nat j = Some x).
  { intros k Hk. rewrite <- (u32_small k) by done. rewrite slot_u32, inv_size by (rewrite ?inv_size by done; done || by right).
    destruct (ring_slot n ltac:(lia) _ _ _ k (inv_ring s H)) as [x Hx]. eauto. }
  destruct (threads s i) as [|v|v w|v w|v w|v|v w| |r|r|r x] eqn:Ht; try done; simpl in Hi.
  - eexists. split; [by apply S_E_wr|]. by rewrite Hat.
  - destruct (Hslot (u32 (w + 1))) as [a Ha], (Hslot (m_rdindex (shared s))) as [b Hb].
    destruct (a =? b) eqn:Eab.
    + eexists. split; [eapply S_E_full; [done|]; unfold is_full; rewrite Ha; simpl; rewrite Hb; simpl; by rewrite Eab|]. by rewrite Hat.
    + eexists. split; [eapply S_E_room; [done|]; unfold is_full; rewrite Ha; simpl; rewrite Hb; simpl; by rewrite Eab|]. by rewrite Hat.
  - destruct Hi as (->&->&_). destruct (Hin (wr s)) as (j&x&Hj&Hx); [lia|].
    eexists. split; [eapply S_E_store; [done|]; unfold store; rewrite Hj; simpl; by rewrite Hx|]. by rewrite Hat.
  - eexists. split; [by apply S_E_add|]. simpl. by rewrite decide_True.
  - eexists. split; [by apply S_D_rd|]. by rewrite Hat.
  - destruct (Hslot r) as [a Ha], (Hslot (m_wrindex (shared s))) as [b Hb].
    destruct (a =? b) eqn:Eab.
    + eexists. split; [eapply S_D_empty; [done|]; unfold is_empty; rewrite Ha; simpl; rewrite Hb; simpl; by rewrite Eab|]. by rewrite Hat.
    + eexists. split; [eapply S_D_some; [done|]; unfold is_empty; rewrite Ha; simpl; rewrite Hb; simpl; by rewrite Eab|]. by rewrite Hat.
  - destruct (Hin r) as (j&x&Hj&Hx); [lia|].
    eexists. split; [eapply S_D_load; [done|]; unfold load; rewrite Hj; simpl; done|]. by rewrite Hat.
  - destruct (CAS (m_rdindex (shared s)) r) eqn:Hc.
    + eexists. split; [by eapply S_D_cas|]. simpl. by rewrite decide_True.
    + eexists. split; [by eapply S_D_cas_fails|]. by rewrite Hat.
Qed.
End threads.
