(* ===== verification/TaskQueueTheorems.v ===== *)
(** * src/datas/task_queue.h: what the queue guarantees, and what it does not. *)

From stdpp Require Import relations.
From S2P Require Import Prelude TaskQueue TaskQueueProofs TaskQueueThreads.

Local Open Scope Z_scope.

(** C21. One thread at a time, a fresh queue whose size is a power of two
    answers every sequence of enqueue and dequeue operations, of any length,
    as a list of at most [size - 1] elements does, first in first out, however
    often its 32-bit indices wrap around. *)
Theorem queue_is_bounded_list {A} (zero : A) (mode : MODE) k q os
    (Hk : 0 ≤ k ≤ 30) (Hq : queue_init zero (2 ^ k) new_queue = Some q) :
  run mode os q = Some (spec_run (Z.to_nat (2 ^ k - 1)) os []).
Proof.
  destruct (init_holds zero mode k q Hk Hq) as [Hh Hc]. rewrite <- Hc. by apply run_refines.
Qed.

(** C12. One producer and any number of consumers, interleaved at every access
    to the shared memory: as long as fewer than 2^32 - 1 elements have gone
    in, what came out is a prefix of what went in, in order and without loss
    or duplicates; at most [size - 1] elements are inside; and no thread in
    an operation is ever stuck, neither by an access outside the array nor
    by waiting for another thread. *)
Theorem single_producer_fifo {A} (zero : A) n s
    (Hn : 0 < n < 2 ^ 31) (Hreach : rtc (step SINGLE) (start zero n) s)
    (Hcount : Z.of_nat (length (enqueued s)) < 2 ^ 32 - 1) :
  dequeued s = take (length (dequeued s)) (enqueued s) ∧
  Z.of_nat (length (enqueued s)) - Z.of_nat (length (dequeued s)) ≤ n - 1 ∧
  ∀ i, threads s i ≠ Idle → ∃ s', step SINGLE s s' ∧ threads s' i ≠ threads s i.
Proof.
  assert (H : inv n s) by (eapply steps_inv; eauto using start_inv). split; [by eapply inv_fifo|].
  split; [by eapply inv_cap|]. intros i Hi. by eapply inv_progress.
Qed.

(** The schedule of the fault: thread 0 reserves a slot, thread 1 reads it,
    thread 0 fills it. *)
Lemma empty_slot_read {A} (zero v : A) n :
  2 ≤ n < 2 ^ 31 →
  ∃ s, rtc (step MULTI) (start zero n) s ∧ enqueued s = [v] ∧ dequeued s = [zero] ∧
    (∀ i, threads s i = Idle) ∧ dequeue (shared s) = Some (None, shared s).
Proof.
  intros Hn. unfold start, queue_init. destruct (Z.ltb_spec n 0); [lia|]. simpl.
  set (el := replicate (Z.to_nat n) zero).
  assert (Hu : u32 n = n) by (apply u32_small; lia).
  set (qu a b c e := mk_queue (A:=A) a b c n 0 e).
  assert (Hs : ∀ a b c e i, 0 ≤ i < 2 → slot (qu a b c e) i = Some i).
  { intros a b c e i Hi. unfold slot, qu. simpl. rewrite Hu. destruct (Z.eqb_spec n 0); [lia|].
    by rewrite Z.mod_small by lia. }
  assert (Hel : el !! O = Some zero) by (apply lookup_replicate_2; lia).
  assert (Hfull : is_full 0 0 (qu 0 0 0 el) = Some false).
  { unfold is_full. change (u32 (0 + 1)) with 1. by rewrite !Hs by lia. }
  assert (Hempty : ∀ r m e, 0 ≤ r < 2 → is_empty 1 r (qu r 1 m e) = Some (r =? 1)).
  { intros r m e Hr. unfold is_empty. by rewrite !Hs by lia. }
  assert (Hload : load 0 (qu 0 1 0 el) = Some zero) by (unfold load; by rewrite Hs by lia).
  assert (Hstore : store 0 v (qu 1 1 0 el) = Some (qu 1 1 0 (<[0%nat := v]> el))).
  { unfold store. rewrite Hs by lia. cbn [mbind option_bind]. change (mp_elems (qu 1 1 0 el) !! Z.to_nat 0) with (el !! O). by rewrite Hel. }
  eexists. split; [|split_and!].
  - eapply rtc_l; [by apply (S_enqueue MULTI _ 0 v)|].
    eapply rtc_l; [by apply (S_E_wr _ _ 0 v)|].
    eapply rtc_l; [by apply (S_E_room _ _ 0 v 0)|].
    eapply rtc_l; [by apply (S_E_cas _ _ 0 v 0)|].
    eapply rtc_l; [by apply (S_dequeue _ _ 1)|].
    eapply rtc_l; [by apply (S_D_rd _ _ 1)|].
    eapply rtc_l; [by apply (S_D_some _ _ 1 0), (Hempty 0 0 el)|].
    eapply rtc_l; [by apply (S_D_load _ _ 1 0 zero)|].
    eapply rtc_l; [by apply (S_D_cas _ _ 1 0 zero)|].
    eapply rtc_l; [by apply (S_E_store _ _ 0 v 0 (qu 1 1 0 (<[0%nat := v]> el)))|].
    eapply rtc_l; [by apply (S_E_publish _ _ 0 v 0)|]. apply rtc_refl.
  - done.
  - done.
  - intros i. simpl. repeat case_decide; done.
  - unfold dequeue. simpl. by rewrite (Hempty 1 1 (<[0%nat := v]> el) ltac:(lia)).
Qed.

(** C36. With several producers the reservation of a slot is already visible
    to consumers: in every queue of at least two slots there is a schedule in
    which an element is enqueued successfully and never comes out, while a
    consumer is given the zero element that was never enqueued. *)
Theorem multi_producer_loses {A} (zero v : A) n (Hn : 2 ≤ n < 2 ^ 31) :
  ∃ s, rtc (step MULTI) (start zero n) s ∧ enqueued s = [v] ∧ dequeued s = [zero] ∧
    (∀ i, threads s i = Idle) ∧ dequeue (shared s) = Some (None, shared s).
Proof. by apply empty_slot_read. Qed.

(** ** Witnesses *)

Lemma queue_is_bounded_list_witness :
  run MULTI [Enqueue 5; Enqueue 6; Enqueue 7; Enqueue 8; Dequeue; Enqueue 8; Dequeue]
    (default new_queue (queue_init 0 (2 ^ 2) new_queue)) =
  Some [Enqueued true; Enqueued true; Enqueued true; Enqueued false; Dequeued (Some 5); Enqueued true; Dequeued (Some 6)].
Proof.
  rewrite (queue_is_bounded_list 0 MULTI 2 _ _ ltac:(lia) eq_refl). reflexivity.
Defined.

Lemma single_producer_fifo_witness :
  ∃ s, rtc (step SINGLE) (start 0 4) s ∧ enqueued s = [9] ∧
    dequeued s = take (length (dequeued s)) (enqueued s).
Proof.
  eexists. split; [|split].
  { eapply rtc_l; [by apply (S_enqueue SINGLE _ 0 9)|].
    eapply rtc_l; [by apply (S_E_wr _ _ 0 9)|].
    eapply rtc_l; [by eapply (S_E_room _ _ 0 9 0)|].
    eapply rtc_l; [by eapply (S_E_store _ _ 0 9 0)|].
    eapply rtc_l; [by eapply (S_E_add _ _ 0 9)|]. apply rtc_refl. }
  { reflexivity. }
  refine (proj1 (single_producer_fifo 0 4 _ _ _ _)).
  - lia.
  - eapply rtc_l; [by apply (S_enqueue SINGLE _ 0 9)|].
    eapply rtc_l; [by apply (S_E_wr _ _ 0 9)|].
    eapply rtc_l; [by eapply (S_E_room _ _ 0 9 0)|].
    eapply rtc_l; [by eapply (S_E_store _ _ 0 9 0)|].
    eapply rtc_l; [by eapply (S_E_add _ _ 0 9)|]. apply rtc_refl.
  - reflexivity.
Defined.

Lemma multi_producer_loses_witness :
  ∃ s, rtc (step MULTI) (start 0 4) s ∧ enqueued s = [9] ∧ dequeued s = [0].
Proof.
  destruct (multi_producer_loses 0 9 4 ltac:(lia)) as (s&Hs&He&Hd&_). by exists s.
Defined.
