(* ===== verification/Timer.v ===== *)
(** * src/timer: timer events in a red-black tree keyed by their time. *)

From S2P Require Import Prelude RbTree.

Local Open Scope Z_scope.

Definition SUCCESS : Z := 0.
Definition FAILURE : Z := -1.

(** ** Data *)

(** NULL as the address of a node. *)
Definition NULL : addr := 1%positive.
Definition zero_node : rb_node := mk_rb_node NULL NULL NULL 0 0 0.

(** An event apart from its [m_ev_node]; there is one timer, so [m_ptt] only
    tells whether it is set.  An event is known by the address of its node. *)
Record CBase_timer_event := mk_event { m_is_inrbtree : bool; m_ptt : bool }.

(** The timer and the events that exist; the nodes are in the memory of
    [prbt].  [reads] counts the questions for the time, [handled] lists the
    events whose handler was called. *)
Record CPure_timer := mk_timer {
  prbt : pure_rbtree;
  events : gmap addr CBase_timer_event;
  node_value : Z;
  reads : nat;
  handled : list addr }.

Notation T := (M CPure_timer).

Definition in_tree {A} (m : R A) : T A := λ s,
  '(a, t) ← m (prbt s); Some (a, mk_timer t (events s) (node_value s) (reads s) (handled s)).
Definition get_event (ev : addr) : T CBase_timer_event := λ s, (λ e, (e, s)) <$> events s !! ev.
Definition set_event (ev : addr) (e : CBase_timer_event) : T () :=
  modify (λ s, mk_timer (prbt s) (<[ev := e]> (events s)) (node_value s) (reads s) (handled s)).
Definition set_node_value (v : Z) : T () :=
  modify (λ s, mk_timer (prbt s) (events s) v (reads s) (handled s)).
Definition log_handled (ev : addr) : T () :=
  modify (λ s, mk_timer (prbt s) (events s) (node_value s) (reads s) (handled s ++ [ev])).
Definition assert (b : bool) : T () := if b then mret () else stuck.

(** ** Events *)

(** The [CBase_timer_event] part of an event: what becomes of the flag. *)
Definition add_to_timer (timer : Z) (ev : addr) : T Z :=
  e ← get_event ev;
  if m_is_inrbtree e then mret FAILURE
  else in_tree (set_key ev timer);; in_tree (set_data ev (Zpos ev));;
       set_event ev (mk_event true true);;
       mret SUCCESS.

Definition remove_timer (ev : addr) : T Z :=
  e ← get_event ev;
  if m_is_inrbtree e then set_event ev (mk_event false (m_ptt e));; mret SUCCESS
  else mret FAILURE.

Definition pure_delete_timer (ev : addr) : T Z :=
  r ← remove_timer ev;
  (if r =? SUCCESS then in_tree (rb_delete ev);; in_tree (update (λ _, zero_node) ev) else mret ());;
  mret 0.

(** The constructor and the destructor of an event, with its memory. *)
Definition new_event (new : gmap addr rb_node → addr * rb_node) : T addr :=
  ev ← in_tree (new_rbnode new);
  in_tree (update (λ _, zero_node) ev);;
  set_event ev (mk_event false false);;
  mret ev.

Definition delete_event (ev : addr) : T () :=
  e ← get_event ev;
  (if m_is_inrbtree e && m_ptt e then _ ← pure_delete_timer ev; mret () else mret ());;
  in_tree (delete_rbnode ev);;
  modify (λ s, mk_timer (prbt s) (delete ev (events s)) (node_value s) (reads s) (handled s)).

(** ** The timer *)

Section timer.
(** The answers of [gettimeofday]: seconds and microseconds. *)
Context (gettimeofday : nat → Z * Z).

Definition msec (n : nat) : Z :=
  let '(tv_sec, tv_usec) := gettimeofday n in u64 (u64 tv_sec * 1000 + u64 tv_usec `div` 1000).
Definition pure_get_msec : T Z := λ s,
  Some (msec (reads s), mk_timer (prbt s) (events s) (node_value s) (S (reads s)) (handled s)).

Definition new_timer (new : gmap addr rb_node → addr * rb_node) (h : gmap addr rb_node) : CPure_timer :=
  mk_timer (new_pure_rbtree new h) ∅ 0 0 [].

Definition pure_find_timer : T Z :=
  '(k, _) ← in_tree tree_minimum_key;
  set_node_value k;;
  cur_time ← pure_get_msec;
  v ← gets node_value;
  mret (if cur_time <? v then v - cur_time else 0).

Definition pure_add_timer (timer : Z) (ev : addr) : T Z :=
  now ← pure_get_msec;
  r ← add_to_timer (u64 (timer + now)) ev;
  (if r =? SUCCESS then
     l ← in_tree (get_lson ev); assert (bool_decide (l = NULL));;
     l ← in_tree (get_rson ev); assert (bool_decide (l = NULL));;
     in_tree (rb_insert ev)
   else mret ());;
  mret 0.

(** The virtual [handle_expire_timer_ex] of an event, which may use the timer
    it is given. *)
Context (handle_expire_timer_ex : addr → T Z).

Fixpoint process_loop (fuel : nat) (now : Z) : T Z :=
  match fuel with
  | O => stuck
  | S fuel =>
      node ← in_tree tree_minimum_node;
      ev ← in_tree (get_data node);
      nil ← in_tree get_nil;
      if decide (node = nil) then mret (-1) else
      k ← in_tree (get_key node);
      let delta := s32 (k - now) in
      if delta <=? 0 then
        _ ← pure_delete_timer (Z.to_pos ev);
        log_handled (Z.to_pos ev);;
        _ ← handle_expire_timer_ex (Z.to_pos ev);
        process_loop fuel now
      else mret (-1)
  end.
Definition pure_timer_process (fuel : nat) : T Z := now ← pure_get_msec; process_loop fuel now.
End timer.

(** ** Using a timer *)

Inductive call := Add (timer : Z) (ev : addr) | Delete (ev : addr) | Find.

Definition run_call (gettimeofday : nat → Z * Z) (c : call) : T Z :=
  match c with
  | Add timer ev => pure_add_timer gettimeofday timer ev
  | Delete ev => pure_delete_timer ev
  | Find => pure_find_timer gettimeofday
  end.
Fixpoint run_calls (gettimeofday : nat → Z * Z) (cs : list call) : T (list Z) :=
  match cs with
  | [] => mret []
  | c :: cs => r ← run_call gettimeofday c; l ← run_calls gettimeofday cs; mret (r :: l)
  end.
