(* ===== verification/TimerProofs.v ===== *)
(** * src/timer: the timer as a list of events in the order of their times. *)

From stdpp Require Import sorting.
From S2P Require Import Prelude RbTree RbTreeHeap RbTreeInsert RbTreeDelete RbTreeOps RbTreeSpec Timer.

Local Open Scope Z_scope.

(** ** Nodes outside the tree *)

Section cells.
Context (s : pure_rbtree) (l : list (addr * Z * Z)).

Lemma represents_perm F F' : represents s l F → F ≡ₚ F' → represents s l F'.
Proof.
  intros (t&np&Ht&El&Hs) HF. exists t, np. split; [done|]. split; [done|].
  assert (Hm : memory (nilp s) t [] np F ≡ₚ memory (nilp s) t [] np F') by (unfold memory; by rewrite HF).
  by rewrite <- Hm.
Qed.

Lemma represents_cell a v F : represents s l ((a, v) :: F) → node a s = Some (v, s).
Proof.
  intros (t&np&Ht&El&Hs). unfold node.
  rewrite (holds_lookup _ _ _ _ a v (nodes (nilp s) t (nilp s) ++ sentinel (nilp s) np :: F) Hs); [done|].
  unfold Pick, memory. cbn [path_nodes app top]. perm.
Qed.

Lemma represents_run {A} (m : R A) F Q :
  represents s l F →
  (∀ t np, rbt t → elements t = l → run (nilp s) (ptr (nilp s) t) (memory (nilp s) t [] np F) m Q) →
  ∃ a s', m s = Some (a, s') ∧ nilp s' = nilp s ∧ ∃ r' L', holds (nilp s) r' L' s' ∧ Q a r' L'.
Proof.
  intros (t&np&Ht&El&Hs) Hm. destruct (run_exec _ _ _ _ _ _ (Hm t np Ht El) Hs) as (a&s'&E&r'&L'&Hs'&HQ).
  exists a, s'. split; [done|]. split; [apply Hs'|]. eauto.
Qed.

Lemma represents_update f a v F :
  represents s l ((a, v) :: F) →
  ∃ s', update f a s = Some ((), s') ∧ nilp s' = nilp s ∧ represents s' l ((a, f v) :: F).
Proof.
  intros Hs. destruct (represents_run (update f a) _
    (λ _ r' L', ∃ t np, rbt t ∧ elements t = l ∧ r' = ptr (nilp s) t ∧ L' ≡ₚ memory (nilp s) t [] np ((a, f v) :: F)) Hs)
    as ([]&s'&E&Hn&r'&L'&Hs'&t&np&Ht&El&->&HL).
  - intros t np Ht El. unfold memory, sentinel. cbn [path_nodes app top].
    eapply run_update; [apply _|]. exists t, np. split; [done|]. split; [done|]. split; [done|]. perm.
  - exists s'. split; [done|]. split; [done|]. rewrite <- El. by eapply (represents_intro s' (nilp s)).
Qed.

Lemma represents_free a v F :
  represents s l ((a, v) :: F) →
  ∃ s', delete_rbnode a s = Some ((), s') ∧ nilp s' = nilp s ∧ represents s' l F.
Proof.
  intros Hs. destruct (represents_run (delete_rbnode a) _
    (λ _ r' L', ∃ t np, rbt t ∧ elements t = l ∧ r' = ptr (nilp s) t ∧ L' ≡ₚ memory (nilp s) t [] np F) Hs)
    as ([]&s'&E&Hn&r'&L'&Hs'&t&np&Ht&El&->&HL).
  - intros t np Ht El. unfold memory, sentinel. cbn [path_nodes app top].
    eapply run_delete; [apply _|]. exists t, np. split; [done|]. split; [done|]. split; [done|]. perm.
  - exists s'. split; [done|]. split; [done|]. rewrite <- El. by eapply (represents_intro s' (nilp s)).
Qed.

Lemma represents_node l1 a k d l2 F :
  l = l1 ++ (a, k, d) :: l2 → represents s l F → ∃ v, node a s = Some (v, s) ∧ key v = k ∧ data v = d.
Proof.
  intros El (t&np&Ht&E&Hs). subst l. destruct (contents_cell (nilp s) t np F l1 a k d l2 E) as (v&L'&HL'&Hk&Hd).
  exists v. split; [|done]. unfold node. by rewrite (holds_lookup _ _ _ _ a v L' Hs HL').
Qed.

Lemma represents_sentinel F : represents s l F → ∃ v, node (nilp s) s = Some (v, s) ∧ data v = 0.
Proof.
  intros (t&np&Ht&El&Hs). exists (sentinel (nilp s) np).2. unfold node.
  rewrite (holds_lookup _ _ _ _ (nilp s) (sentinel (nilp s) np).2 (nodes (nilp s) t (nilp s) ++ F) Hs);
    [done|].
  unfold Pick, memory, sentinel. cbn [path_nodes app top]. perm.
Qed.

Lemma nodes_addresses n t p : (nodes n t p).*1 ≡ₚ (elements t).*1.*1.
Proof.
  revert p. induction t as [|a c k d t1 IH1 t2 IH2]; intros p; [done|]. cbn [nodes elements].
  rewrite !fmap_cons, !fmap_app. simpl. rewrite IH1, IH2. by rewrite Permutation_middle.
Qed.

Lemma represents_nodup F : represents s l F → NoDup (l.*1.*1 ++ nilp s :: F.*1).
Proof.
  intros (t&np&Ht&El&(_&_&Hs)). pose proof (NoDup_fst_map_to_list (heap s)) as H.
  rewrite Hs in H. unfold memory, sentinel in H. cbn [path_nodes app top] in H.
  rewrite fmap_app, fmap_cons, nodes_addresses, El in H. exact H.
Qed.
End cells.

(** ** The abstract timer *)

(** The armed events with their times, in order. *)
Definition nodes_of (l : list (addr * Z)) : list (addr * Z * Z) := (λ e, (e.1, e.2, Zpos e.1)) <$> l.

Fixpoint put (e : addr * Z) (l : list (addr * Z)) : list (addr * Z) :=
  match l with
  | [] => [e]
  | e' :: l' => if e.2 <? e'.2 then e :: l else e' :: put e l'
  end.
Definition remove (ev : addr) (l : list (addr * Z)) : list (addr * Z) := filter (λ e, e.1 ≠ ev) l.

Section spec.
Context (gettimeofday : nat → Z * Z).
Local Notation msec := (msec gettimeofday).

Definition spec_add (n : nat) (timer : Z) (ev : addr) (l : list (addr * Z)) : list (addr * Z) :=
  if decide (ev ∈ l.*1) then l else put (ev, u64 (timer + msec n)) l.
Definition spec_find (n : nat) (l : list (addr * Z)) : Z :=
  match l with [] => 0 | e :: _ => Z.max 0 (e.2 - msec n) end.

(** The result, the number of clock reads and the list after a call. *)
Definition spec_call (c : call) (n : nat) (l : list (addr * Z)) : Z * nat * list (addr * Z) :=
  match c with
  | Add timer ev => (0, S n, spec_add n timer ev l)
  | Delete ev => (0, n, remove ev l)
  | Find => (spec_find n l, S n, l)
  end.
Fixpoint spec_calls (cs : list call) (n : nat) (l : list (addr * Z)) : list Z * nat * list (addr * Z) :=
  match cs with
  | [] => ([], n, l)
  | c :: cs =>
      let '(r, n, l) := spec_call c n l in
      let '(rs, n, l) := spec_calls cs n l in (r :: rs, n, l)
  end.
End spec.

(** Calls are made on events that exist. *)
Definition event_of (c : call) : option addr := match c with Add _ ev | Delete ev => Some ev | Find => None end.
Definition uses (K : gset addr) (c : call) : Prop := ∀ ev, event_of c = Some ev → ev ∈ K.

Lemma put_app e l1 l2 :
  Forall (λ e', e'.2 ≤ e.2) l1 → Forall (λ e', e.2 < e'.2) l2 → put e (l1 ++ l2) = l1 ++ e :: l2.
Proof.
  intros H1 H2. induction H1 as [|e' l1 He' _ IH]; simpl.
  - destruct H2 as [|e' l2 He' _]; [done|]. simpl. destruct (Z.ltb_spec e.2 e'.2); [done|lia].
  - destruct (Z.ltb_spec e.2 e'.2); [lia|]. by rewrite IH.
Qed.

Lemma put_in_order_put a k l l' : put_in_order (a, k, Zpos a) (nodes_of l) l' → l' = nodes_of (put (a, k) l).
Proof.
  intros (l1&l2&E&->&H1&H2). unfold nodes_of in E. apply fmap_app_inv in E as (k1&k2&->&->&->).
  rewrite Forall_fmap in H1. rewrite Forall_fmap in H2. rewrite put_app; [|exact H1|exact H2].
  unfold nodes_of. by rewrite fmap_app, fmap_cons.
Qed.

Lemma put_perm e l : put e l ≡ₚ e :: l.
Proof.
  induction l as [|e' l IH]; simpl; [done|]. destruct (Z.ltb e.2 e'.2); [done|]. rewrite IH. apply Permutation_swap.
Qed.

Lemma nodes_of_addresses l : (nodes_of l).*1.*1 = l.*1.
Proof. unfold nodes_of. rewrite <- !list_fmap_compose. by apply list_fmap_ext. Qed.

Lemma filter_all {A} (P : A → Prop) `{∀ x, Decision (P x)} (l : list A) : (∀ x, x ∈ l → P x) → filter P l = l.
Proof.
  induction l as [|x l IH]; intros H1; [done|]. rewrite filter_cons_True by apply H1, list_elem_of_here.
  f_equal. apply IH. intros y Hy. by apply H1, list_elem_of_further.
Qed.

Lemma remove_app ev k l1 l2 :
  NoDup (l1 ++ (ev, k) :: l2).*1 → remove ev (l1 ++ (ev, k) :: l2) = l1 ++ l2.
Proof.
  rewrite fmap_app, fmap_cons. simpl. intros H. apply list.NoDup_app in H as (_&Hd&H2).
  apply list.NoDup_cons in H2 as [H2 _]. unfold remove. rewrite list.filter_app, filter_cons_False by (simpl; tauto).
  rewrite !filter_all; [done| |].
  - intros e He Heq. apply H2. rewrite <- Heq. apply list_elem_of_fmap. eauto.
  - intros e He Heq. apply (Hd ev); [|apply list_elem_of_here]. rewrite <- Heq. apply list_elem_of_fmap. eauto.
Qed.

Lemma remove_absent ev l : ev ∉ l.*1 → remove ev l = l.
Proof.
  intros H. unfold remove. apply filter_all. intros e He Heq. apply H. rewrite <- Heq. apply list_elem_of_fmap. eauto.
Qed.

(** ** The invariant *)

Definition armed_event : CBase_timer_event := mk_event true true.

(** The tree holds the nodes of the events in [l], in order; those events and
    no others are flagged, the nodes of the others are zero. *)
Definition timer_holds (s : CPure_timer) (l : list (addr * Z)) : Prop :=
  ∃ F, represents (prbt s) (nodes_of l) F ∧
    (∀ a, a ∈ l.*1 → events s !! a = Some armed_event) ∧
    (∀ a e, events s !! a = Some e → a ∉ l.*1 → m_is_inrbtree e = false ∧ (a, zero_node) ∈ F).

Lemma timer_sorted s l : timer_holds s l → StronglySorted Z.le l.*2.
Proof.
  intros (F&Ht&_). apply represents_sorted in Ht. unfold nodes_of in Ht. by rewrite <- list_fmap_compose in Ht.
Qed.

Lemma timer_nodup s l : timer_holds s l → NoDup l.*1.
Proof.
  intros (F&Ht&_). apply represents_nodup in Ht. rewrite nodes_of_addresses in Ht.
  by apply list.NoDup_app in Ht as [? _].
Qed.

(** A state that differs outside the tree and the events. *)
Lemma timer_holds_ext s s' l : prbt s' = prbt s → events s' = events s → timer_holds s l → timer_holds s' l.
Proof. unfold timer_holds. by intros -> ->. Qed.

Lemma event_cases s l ev e :
  timer_holds s l → events s !! ev = Some e →
  (m_is_inrbtree e = true ∧ m_ptt e = true ∧ ∃ l1 k l2, l = l1 ++ (ev, k) :: l2 ∧ ev ∉ l1.*1 ∧ ev ∉ l2.*1) ∨
  (m_is_inrbtree e = false ∧ ev ∉ l.*1).
Proof.
  intros Hs Hev. pose proof (timer_nodup s l Hs) as Hnd. destruct Hs as (F&Ht&Harmed&Hidle).
  destruct (decide (ev ∈ l.*1)) as [Hin|Hin].
  - left. rewrite (Harmed ev Hin) in Hev. injection Hev as <-. split; [done|]. split; [done|].
    apply list_elem_of_fmap in Hin as ([ev' k]&->&Hin). apply list_elem_of_split in Hin as (l1&l2&->).
    rewrite fmap_app, fmap_cons in Hnd. apply list.NoDup_app in Hnd as (_&Hd&H2). apply list.NoDup_cons in H2 as [H2 _].
    exists l1, k, l2. split; [done|]. split; [|done]. intros H. apply (Hd _ H). apply list_elem_of_here.
  - right. split; [|done]. by apply (Hidle ev e).
Qed.

Lemma in_tree_Some {A B} (m : R A) (k : A → T B) s a t :
  m (prbt s) = Some (a, t) →
  (in_tree m ≫= k) s = k a (mk_timer t (events s) (node_value s) (reads s) (handled s)).
Proof. intros E. unfold mbind, M_bind, in_tree at 1. by rewrite E. Qed.

Lemma get_event_Some {B} (k : CBase_timer_event → T B) s ev e :
  events s !! ev = Some e → (get_event ev ≫= k) s = k e s.
Proof. intros E. unfold mbind, M_bind, get_event. by rewrite E. Qed.

Lemma dom_insert_known (m : gmap addr CBase_timer_event) a e e' : m !! a = Some e → dom (<[a := e']> m) = dom m.
Proof. intros H. rewrite dom_insert_L. apply elem_of_dom_2 in H. set_solver. Qed.

(** ** The operations *)

(** What a call leaves alone: which events exist, and the log. *)
Definition same_events (s s' : CPure_timer) : Prop := dom (events s') = dom (events s) ∧ handled s' = handled s.

(** One call of the tree, whose result [E] tells. *)
Ltac tree_step E := rewrite ?bind_assoc; erewrite in_tree_Some by exact E; cbv beta.

Lemma delete_ok s l ev e :
  timer_holds s l → events s !! ev = Some e →
  ∃ s', pure_delete_timer ev s = Some (0, s') ∧ timer_holds s' (remove ev l) ∧ same_events s s' ∧ reads s' = reads s.
Proof.
  intros Hs Hev. unfold pure_delete_timer, remove_timer.
  destruct (event_cases s l ev e Hs Hev) as [(Hin&Hptt&l1&k&l2&->&H1&H2)|[Hout Hl]].
  - pose proof (timer_nodup _ _ Hs) as Hnd. destruct Hs as (F&Ht&Harmed&Hidle).
    assert (Ht' : represents (prbt s) (nodes_of l1 ++ (ev, k, Zpos ev) :: nodes_of l2) F).
    { unfold nodes_of in Ht. by rewrite fmap_app, fmap_cons in Ht. }
    destruct (rb_delete_ok _ _ _ _ _ _ _ Ht') as (t1&v&E1&_&_&_&Ht1).
    destruct (represents_update _ _ (λ _, zero_node) _ _ _ Ht1) as (t2&E2&_&Ht2).
    exists (mk_timer t2 (<[ev := mk_event false (m_ptt e)]> (events s)) (node_value s) (reads s) (handled s)).
    split; [|split; [|split; [|done]]].
    + rewrite bind_assoc, (get_event_Some _ _ _ _ Hev), Hin.
      rewrite bind_assoc, (bind_Some _ _ _ () _ eq_refl), (bind_Some _ _ _ SUCCESS _ eq_refl). change (SUCCESS =? SUCCESS) with true. cbv iota.
      tree_step E1. by tree_step E2.
    + exists ((ev, zero_node) :: F). rewrite remove_app by done.
      split; [by unfold nodes_of; rewrite fmap_app|]. split; simpl.
      * intros a Ha. assert (Hne : a ≠ ev) by (rewrite fmap_app in Ha; set_solver).
        rewrite lookup_insert_ne by done. apply Harmed. rewrite fmap_app, fmap_cons. set_solver.
      * intros a e' Hea Ha. destruct (decide (a = ev)) as [->|Hne].
        { rewrite lookup_insert_eq in Hea. injection Hea as <-. split; [done|]. apply list_elem_of_here. }
        rewrite lookup_insert_ne in Hea by done. destruct (Hidle a e' Hea) as [? ?]; [|by split; [|apply list_elem_of_further]].
        rewrite fmap_app, fmap_cons. rewrite fmap_app in Ha. set_solver.
    + split; [|done]. simpl. by eapply dom_insert_known.
  - exists s. rewrite bind_assoc, (get_event_Some _ _ _ _ Hev), Hout.
    split; [by rewrite (bind_Some _ _ _ FAILURE _ eq_refl)|]. by rewrite remove_absent.
Qed.

(** An event outside the tree: its node can be written. *)
Lemma idle_split s l ev e :
  timer_holds s l → events s !! ev = Some e → ev ∉ l.*1 →
  ∃ F, represents (prbt s) (nodes_of l) ((ev, zero_node) :: F) ∧
    ∀ a e', events s !! a = Some e' → a ≠ ev → a ∉ l.*1 → m_is_inrbtree e' = false ∧ (a, zero_node) ∈ F.
Proof.
  intros (F&Ht&Harmed&Hidle) Hev Hl. destruct (Hidle ev e Hev Hl) as [_ Hin].
  apply list_elem_of_split in Hin as (F1&F2&->). exists (F1 ++ F2).
  split; [by eapply represents_perm; [exact Ht|]; rewrite Permutation_middle|].
  intros a e' Ha Hne Hal. destruct (Hidle a e' Ha Hal) as [? Hin]. split; [done|].
  apply elem_of_app in Hin as [Hin|Hin]; [apply elem_of_app; by left|].
  apply elem_of_cons in Hin as [Hin|Hin]; [congruence|]. apply elem_of_app. by right.
Qed.

Section calls.
Context (gettimeofday : nat → Z * Z).

Lemma get_lson_cell (t : pure_rbtree) a v : node a t = Some (v, t) → get_lson a t = Some (lson v, t).
Proof. intros E. unfold get_lson. by rewrite (bind_Some _ _ _ _ _ E). Qed.
Lemma get_rson_cell (t : pure_rbtree) a v : node a t = Some (v, t) → get_rson a t = Some (rson v, t).
Proof. intros E. unfold get_rson. by rewrite (bind_Some _ _ _ _ _ E). Qed.

Lemma timer_add_ok s l timer ev e :
  timer_holds s l → events s !! ev = Some e →
  ∃ s', pure_add_timer gettimeofday timer ev s = Some (0, s') ∧
    timer_holds s' (spec_add gettimeofday (reads s) timer ev l) ∧ same_events s s' ∧ reads s' = S (reads s).
Proof.
  intros Hs Hev. unfold pure_add_timer, spec_add.
  rewrite (bind_Some _ _ _ (msec gettimeofday (reads s)) (mk_timer (prbt s) (events s) (node_value s) (S (reads s)) (handled s)) eq_refl).
  set (s0 := mk_timer _ _ _ _ _). set (k := u64 _). unfold add_to_timer.
  assert (Hev0 : events s0 !! ev = Some e) by done.
  destruct (event_cases s l ev e Hs Hev) as [(Hin&_&l1&k0&l2&->&_)|[Hout Hl]].
  - rewrite decide_True by (rewrite fmap_app, fmap_cons; set_solver).
    exists s0. rewrite bind_assoc, (get_event_Some _ _ _ _ Hev0), Hin.
    split; [by rewrite (bind_Some _ _ _ FAILURE _ eq_refl)|]. split; [by eapply timer_holds_ext; [..|exact Hs]|done].
  - rewrite decide_False by done. destruct (idle_split s l ev e Hs Hev Hl) as (F&Ht&Hrest).
    destruct (represents_update _ _ (with_key k) _ _ _ Ht) as (t1&E1&_&Ht1).
    destruct (represents_update _ _ (with_data (Zpos ev)) _ _ _ Ht1) as (t2&E2&_&Ht2).
    pose proof (represents_cell _ _ _ _ _ Ht2) as Hc.
    destruct (rb_insert_ok _ _ _ _ _ Ht2) as (t3&l'&E3&_&Hput&Ht3). simpl in Hput.
    apply put_in_order_put in Hput. subst l'.
    exists (mk_timer t3 (<[ev := armed_event]> (events s)) (node_value s) (S (reads s)) (handled s)).
    split; [|split; [|split; [|done]]].
    + rewrite bind_assoc, (get_event_Some _ _ _ _ Hev0), Hout.
      tree_step E1. tree_step E2.
      rewrite bind_assoc, (bind_Some _ _ _ () _ eq_refl), (bind_Some _ _ _ SUCCESS _ eq_refl). change (SUCCESS =? SUCCESS) with true. cbv iota.
      tree_step (get_lson_cell t2 ev _ Hc). rewrite bind_assoc. cbn [lson].
      rewrite (bind_Some _ _ _ () _ eq_refl).
      tree_step (get_rson_cell t2 ev _ Hc). rewrite bind_assoc. cbn [rson].
      rewrite (bind_Some _ _ _ () _ eq_refl). by tree_step E3.
    + assert (Hput : (put (ev, k) l).*1 ≡ₚ ev :: l.*1) by (by rewrite put_perm).
      destruct Hs as (_&_&Harmed&_). exists F. split; [done|]. split; simpl.
      * intros a Ha. rewrite Hput in Ha. destruct (decide (a = ev)) as [->|Hne]; [by rewrite lookup_insert_eq|].
        rewrite lookup_insert_ne by done. apply Harmed. set_solver.
      * intros a e' Ha Hal. rewrite Hput in Hal. rewrite lookup_insert_ne in Ha by set_solver.
        apply Hrest; [done|set_solver|set_solver].
    + split; [|done]. simpl. by eapply dom_insert_known.
Qed.

Lemma msec_range n : 0 ≤ msec gettimeofday n < 2 ^ 64.
Proof. unfold msec. destruct (gettimeofday n). apply u64_range. Qed.

Lemma find_ok s l :
  timer_holds s l →
  ∃ s', pure_find_timer gettimeofday s = Some (spec_find gettimeofday (reads s) l, s') ∧
    timer_holds s' l ∧ same_events s s' ∧ reads s' = S (reads s).
Proof.
  intros Hs. unfold pure_find_timer. pose proof Hs as (F&Ht&_).
  pose proof (tree_minimum_key_ok _ _ _ Ht) as E. tree_step E. pose proof (msec_range (reads s)) as Hm.
  exists (mk_timer (prbt s) (events s) (match l with [] => 0 | e :: _ => e.2 end) (S (reads s)) (handled s)).
  split; [|split; [by eapply timer_holds_ext; [..|exact Hs]|done]]. destruct l as [|e l]; simpl.
  - erewrite bind_Some by reflexivity. erewrite bind_Some by reflexivity. erewrite bind_Some by reflexivity.
    cbn [reads node_value]. destruct (Z.ltb_spec (msec gettimeofday (reads s)) 0); [lia|done].
  - erewrite bind_Some by reflexivity. erewrite bind_Some by reflexivity. erewrite bind_Some by reflexivity.
    cbn [reads node_value]. destruct e as [a k]. simpl. destruct (Z.ltb_spec (msec gettimeofday (reads s)) k) as [H|H].
    + rewrite Z.max_r by lia. done.
    + rewrite Z.max_l by lia. done.
Qed.

Lemma call_ok c s l :
  timer_holds s l → uses (dom (events s)) c →
  let '(r, n, l') := spec_call gettimeofday c (reads s) l in
  ∃ s', run_call gettimeofday c s = Some (r, s') ∧ timer_holds s' l' ∧ same_events s s' ∧ reads s' = n.
Proof.
  intros Hs Hc. destruct c as [timer ev|ev|]; simpl.
  - destruct (proj1 (elem_of_dom _ _) (Hc ev eq_refl)) as [e He]. by apply (timer_add_ok s l timer ev e).
  - destruct (proj1 (elem_of_dom _ _) (Hc ev eq_refl)) as [e He]. by apply (delete_ok s l ev e).
  - by apply find_ok.
Qed.

Lemma calls_ok cs : ∀ s l,
  timer_holds s l → Forall (uses (dom (events s))) cs →
  let '(rs, n, l') := spec_calls gettimeofday cs (reads s) l in
  ∃ s', run_calls gettimeofday cs s = Some (rs, s') ∧ timer_holds s' l' ∧ same_events s s' ∧ reads s' = n.
Proof.
  induction cs as [|c cs IH]; intros s l Hs Hcs; simpl; [by exists s|].
  apply Forall_cons_iff in Hcs as [Hc Hcs]. pose proof (call_ok c s l Hs Hc) as Hok.
  destruct (spec_call gettimeofday c (reads s) l) as [[r n] l1]. destruct Hok as (s1&E&Hs1&[Hd Hh]&<-).
  specialize (IH s1 l1 Hs1). rewrite Hd in IH. specialize (IH Hcs).
  destruct (spec_calls gettimeofday cs (reads s1) l1) as [[rs n] l2]. destruct IH as (s2&E2&Hs2&[Hd2 Hh2]&Hn).
  exists s2. rewrite (bind_Some _ _ _ _ _ E), (bind_Some _ _ _ _ _ E2). split; [done|]. split; [done|].
  split; [split; congruence|done].
Qed.
End calls.
