(* ===== verification/TimerProcess.v ===== *)
(** * src/timer: one round of the timer, with handlers that use it. *)

From stdpp Require Import sorting.
From S2P Require Import Prelude RbTree RbTreeHeap RbTreeInsert RbTreeSpec Timer TimerProofs.

Local Open Scope Z_scope.

(** ** Which events are due *)

(** The code's test, and the times for which it is the test that is meant. *)
Definition due (now : Z) (l : list (addr * Z)) : list (addr * Z) := filter (λ e, s32 (e.2 - now) ≤ 0) l.
Definition window (now : Z) (l : list (addr * Z)) : Prop := Forall (λ e, - 2 ^ 31 ≤ e.2 - now < 2 ^ 31) l.

Lemma due_cons now e l : window now (e :: l) → e.2 ≤ now → due now (e :: l) = e :: due now l.
Proof.
  intros Hw He. unfold due. rewrite filter_cons_True; [done|]. apply Forall_cons_iff in Hw as [Hw _].
  rewrite s32_small by lia. lia.
Qed.

Lemma due_none now l : window now l → Forall (λ e, now < e.2) l → due now l = [].
Proof.
  intros Hw Hl. unfold due. induction Hl as [|e l He Hl IH]; [done|]. apply Forall_cons_iff in Hw as [Hw Hw'].
  rewrite filter_cons_False; [by apply IH|]. rewrite s32_small by lia. lia.
Qed.

(** ** Handlers *)

(** The handler of an event that was just taken out may arm, move or take out
    events, as long as new times lie ahead; [Inv] is what it needs of the
    events that exist. *)
Class TimerHandler (now : Z) (Inv : gset addr → Prop) (kills : addr → gset addr) (handle : addr → T Z) : Prop :=
  handler_law : ∀ ev s l,
    timer_holds s l → window now l → Inv (dom (events s)) → ev ∈ dom (events s) → ev ∉ l.*1 →
    ∃ r s' l', handle ev s = Some (r, s') ∧ timer_holds s' l' ∧ window now l' ∧ Inv (dom (events s')) ∧
      handled s' = handled s ∧ due now l' = filter (λ e, e.1 ∉ kills ev) (due now l).

(** ** The round *)

Lemma timer_first s ev k l :
  timer_holds s ((ev, k) :: l) →
  tree_minimum_node (prbt s) = Some (ev, prbt s) ∧ get_data ev (prbt s) = Some (Zpos ev, prbt s) ∧
  get_key ev (prbt s) = Some (k, prbt s) ∧ ev ≠ nilp (prbt s).
Proof.
  intros (F&Ht&_). destruct (tree_minimum_node_ok _ _ _ Ht) as [E Hne].
  destruct (represents_node _ _ [] ev k (Zpos ev) (nodes_of l) F eq_refl Ht) as (v&Ev&Hk&Hd).
  split; [done|]. unfold get_data, get_key. rewrite (bind_Some _ _ _ _ _ Ev), Hd. split; [done|].
  rewrite (bind_Some _ _ _ _ _ Ev), Hk. split; [done|]. by apply (Hne (ev, k, Zpos ev)), list_elem_of_here.
Qed.

Lemma timer_empty s :
  timer_holds s [] →
  tree_minimum_node (prbt s) = Some (nilp (prbt s), prbt s) ∧ ∃ d, get_data (nilp (prbt s)) (prbt s) = Some (d, prbt s).
Proof.
  intros (F&Ht&_). destruct (tree_minimum_node_ok _ _ _ Ht) as [E _]. split; [exact E|].
  destruct (represents_sentinel _ _ _ Ht) as (v&Ev&_). exists (data v). unfold get_data. by rewrite (bind_Some _ _ _ _ _ Ev).
Qed.

Lemma timer_state_eta s : mk_timer (prbt s) (events s) (node_value s) (reads s) (handled s) = s.
Proof. by destruct s. Qed.

(** One turn: the first event is due, is taken out and handled. *)
Lemma process_turn handle fuel now s ev k l :
  timer_holds s ((ev, k) :: l) → s32 (k - now) ≤ 0 →
  ∃ s2, process_loop handle (S fuel) now s = (_ ← handle ev; process_loop handle fuel now) s2 ∧
    timer_holds s2 l ∧ dom (events s2) = dom (events s) ∧ handled s2 = handled s ++ [ev] ∧ reads s2 = reads s ∧
    ev ∈ dom (events s2) ∧ ev ∉ l.*1.
Proof.
  intros Hs Hle. cbn [process_loop]. destruct (timer_first s ev k l Hs) as (E1&E2&E4&Hne).
  tree_step E1. rewrite timer_state_eta. tree_step E2. rewrite timer_state_eta.
  assert (E3 : get_nil (prbt s) = Some (nilp (prbt s), prbt s)) by done. tree_step E3. rewrite timer_state_eta.
  rewrite decide_False by done. tree_step E4. rewrite timer_state_eta.
  destruct (Z.leb_spec (s32 (k - now)) 0) as [_|]; [|lia].
  pose proof (timer_nodup _ _ Hs) as Hnd. assert (Hdom : events s !! ev = Some armed_event).
  { destruct Hs as (_&_&Ha&_). apply Ha, list_elem_of_here. }
  destruct (delete_ok s _ ev _ Hs Hdom) as (s1&D1&Hs1&[Hd1 Hh1]&Hr1).
  simpl in Hnd. apply list.NoDup_cons in Hnd as [Hnin _].
  replace (remove ev ((ev, k) :: l)) with l in Hs1.
  2: { unfold remove. rewrite filter_cons_False by (simpl; tauto). by rewrite <- (remove_absent ev l Hnin) at 1. }
  cbn [Z.to_pos]. rewrite (bind_Some _ _ _ _ _ D1). erewrite bind_Some by reflexivity.
  eexists. split; [reflexivity|]. split; [by eapply timer_holds_ext; [..|exact Hs1]|]. simpl.
  split; [by rewrite Hd1|]. split; [by rewrite Hh1|]. split; [done|]. split; [|done]. rewrite Hd1. by eapply elem_of_dom_2.
Qed.

(** The end: nothing is armed, or the first event is not due. *)
Lemma process_end handle fuel now s l :
  timer_holds s l → match l with [] => True | e :: _ => 0 < s32 (e.2 - now) end →
  process_loop handle (S fuel) now s = Some (-1, s).
Proof.
  intros Hs Hl. cbn [process_loop].
  assert (E3 : get_nil (prbt s) = Some (nilp (prbt s), prbt s)) by done. destruct l as [|[ev k] l].
  - destruct (timer_empty s Hs) as (E1&d&E2). tree_step E1. rewrite timer_state_eta. tree_step E2. rewrite timer_state_eta.
    tree_step E3. rewrite timer_state_eta. by rewrite decide_True.
  - destruct (timer_first s ev k l Hs) as (E1&E2&E4&Hne).
    tree_step E1. rewrite timer_state_eta. tree_step E2. rewrite timer_state_eta. tree_step E3. rewrite timer_state_eta.
    rewrite decide_False by done. tree_step E4. rewrite timer_state_eta. simpl in Hl. by destruct (Z.leb_spec (s32 (k - now)) 0); [lia|].
Qed.

(** When the first event is due, and when it is not. *)
Lemma due_first now ev k l :
  window now ((ev, k) :: l) → StronglySorted Z.le ((ev, k) :: l).*2 →
  (s32 (k - now) ≤ 0 ∧ due now ((ev, k) :: l) = (ev, k) :: due now l) ∨
  (0 < s32 (k - now) ∧ due now ((ev, k) :: l) = []).
Proof.
  intros Hw Hsort. pose proof Hw as [Hw1 _]%Forall_cons_iff. simpl in Hw1. rewrite s32_small by lia.
  destruct (decide (k - now ≤ 0)); [left; split; [done|apply due_cons; [done|simpl; lia]]|right]. split; [lia|].
  apply due_none; [done|]. constructor; [simpl; lia|]. simpl in Hsort.
  apply StronglySorted_inv in Hsort as [_ Hsort]. rewrite Forall_fmap in Hsort.
  eapply Forall_impl; [|exact Hsort]. simpl. intros e He. lia.
Qed.

Section process.
Context (now : Z) (Inv : gset addr → Prop) (kills : addr → gset addr) (handle : addr → T Z).
Context `{Hlaw : !TimerHandler now Inv kills handle}.

Lemma process_ok fuel : ∀ s l,
  timer_holds s l → window now l → Inv (dom (events s)) → (length (due now l) < fuel)%nat →
  ∃ s' l', process_loop handle fuel now s = Some (-1, s') ∧ timer_holds s' l' ∧ due now l' = [] ∧
    handled s' = handled s ++ visited fst kills (due now l).
Proof.
  induction fuel as [|fuel IH]; intros s l Hs Hw Hinv Hf; [lia|]. destruct l as [|[ev k] l].
  { exists s, []. rewrite (process_end handle fuel now s []) by done. split_and!; try done. by rewrite app_nil_r. }
  destruct (due_first now ev k l Hw (timer_sorted _ _ Hs)) as [[Hle Hdue]|[Hgt Hdue]]; rewrite Hdue in *.
  - destruct (process_turn handle fuel now s ev k l Hs Hle) as (s2&E&Hs2&Hd2&Hh2&_&Hev&Hnin).
    apply Forall_cons_iff in Hw as [_ Hw].
    destruct (Hlaw ev s2 l) as (r&s3&l3&E5&Hs3&Hw3&Hinv3&Hh3&Hd3); try done; [by rewrite Hd2|].
    destruct (IH s3 l3 Hs3 Hw3 Hinv3) as (s4&l4&E6&Hs4&Hdue4&Hh4).
    { rewrite Hd3. pose proof (length_filter (λ e : addr * Z, e.1 ∉ kills ev) (due now l)). simpl in Hf. lia. }
    exists s4, l4. rewrite E, (bind_Some _ _ _ _ _ E5). split_and!; try done.
    rewrite Hh4, Hh3, Hd3, visited_cons. simpl. rewrite Hh2, <- app_assoc. done.
  - exists s, ((ev, k) :: l). rewrite (process_end handle fuel now s ((ev, k) :: l)) by done. split_and!; try done. by rewrite app_nil_r.
Qed.
End process.

(** ** Handlers that give the round no end *)

(** The handler leaves some event due, as one does that arms its own event
    again without a delay before the clock has moved. *)
Class RestlessHandler (now : Z) (Inv : gset addr → Prop) (handle : addr → T Z) : Prop :=
  restless_law : ∀ ev s l,
    timer_holds s l → window now l → Inv (dom (events s)) → ev ∈ dom (events s) → ev ∉ l.*1 →
    ∃ r s' l', handle ev s = Some (r, s') ∧ timer_holds s' l' ∧ window now l' ∧ Inv (dom (events s')) ∧ due now l' ≠ [].

Lemma process_restless now Inv handle `{Hlaw : !RestlessHandler now Inv handle} fuel : ∀ s l,
  timer_holds s l → window now l → Inv (dom (events s)) → due now l ≠ [] → process_loop handle fuel now s = None.
Proof.
  induction fuel as [|fuel IH]; intros s l Hs Hw Hinv Hd; [done|]. destruct l as [|[ev k] l]; [done|].
  destruct (due_first now ev k l Hw (timer_sorted _ _ Hs)) as [[Hle _]|[_ Hno]]; [|done].
  destruct (process_turn handle fuel now s ev k l Hs Hle) as (s2&E&Hs2&Hd2&_&_&Hev&Hnin).
  apply Forall_cons_iff in Hw as [_ Hw].
  destruct (Hlaw ev s2 l) as (r&s3&l3&E5&Hs3&Hw3&Hinv3&Hd3); try done; [by rewrite Hd2|].
  rewrite E, (bind_Some _ _ _ _ _ E5). by eapply IH.
Qed.

(** ** Handlers that make fixed calls *)

Section script.
Context (gettimeofday : nat → Z * Z) (script : addr → list call).

Definition script_handler (ev : addr) : T Z := run_calls gettimeofday (script ev);; mret 0.

Definition deleted (c : call) : gset addr := match c with Delete ev => {[ev]} | _ => ∅ end.
Definition kills (ev : addr) : gset addr := ⋃ (deleted <$> script ev).

(** During the round the clock moves from [now] by less than 2^30 ms (12
    days), and the delays are positive and less than that. *)
Definition short_delay (c : call) : Prop := match c with Add timer _ => 1 ≤ timer < 2 ^ 30 | _ => True end.

Context (now : Z) (Hnow : now + 2 ^ 31 ≤ 2 ^ 64).
Context (Hclock : ∀ n, now ≤ msec gettimeofday n < now + 2 ^ 30).
Context (K : gset addr) (Hdelay : ∀ ev, Forall short_delay (script ev)) (Huse : ∀ ev, Forall (uses K) (script ev)).

Lemma window_perm l l' : l ≡ₚ l' → window now l → window now l'.
Proof. unfold window. by intros ->. Qed.

Lemma due_put e l : 0 < s32 (e.2 - now) → due now (put e l) = due now l.
Proof.
  intros He. unfold due. induction l as [|e' l IH]; simpl.
  - rewrite filter_cons_False by (simpl; lia). done.
  - destruct (e.2 <? e'.2).
    + by rewrite filter_cons_False by lia.
    + rewrite !filter_cons. by rewrite IH.
Qed.

Lemma filter_comm {A} (P Q : A → Prop) `{∀ x, Decision (P x)} `{∀ x, Decision (Q x)} (l : list A) :
  filter P (filter Q l) = filter Q (filter P l).
Proof.
  induction l as [|x l IH]; [done|]. rewrite !filter_cons.
  repeat case_decide; rewrite ?filter_cons; repeat case_decide; try done. by rewrite IH.
Qed.

Lemma call_due c n l :
  short_delay c → window now l →
  let l' := (spec_call gettimeofday c n l).2 in
  window now l' ∧ due now l' = filter (λ e, e.1 ∉ deleted c) (due now l).
Proof.
  intros Hc Hw. destruct c as [timer ev|ev|]; simpl.
  - rewrite filter_all by set_solver. unfold spec_add. destruct (decide (ev ∈ l.*1)); [done|].
    simpl in Hc. specialize (Hclock n). pose proof (msec_range gettimeofday n).
    rewrite u64_small by lia. split.
    + eapply window_perm; [symmetry; apply put_perm|]. constructor; [simpl; lia|done].
    + apply due_put. simpl. rewrite s32_small by lia. lia.
  - split.
    + unfold window, remove in *. rewrite Forall_forall in *. intros e He. apply list_elem_of_In, list_elem_of_filter in He as [_ He].
      by apply Hw, list_elem_of_In.
    + unfold due, remove. rewrite filter_comm. apply list_filter_iff. set_solver.
  - by rewrite filter_all by set_solver.
Qed.

Lemma calls_due cs : ∀ n l,
  Forall short_delay cs → window now l →
  let l' := (spec_calls gettimeofday cs n l).2 in
  window now l' ∧ due now l' = filter (λ e, e.1 ∉ ⋃ (deleted <$> cs)) (due now l).
Proof.
  induction cs as [|c cs IH]; intros n l Hcs Hw; simpl; [by rewrite filter_all by set_solver|].
  apply Forall_cons_iff in Hcs as [Hc Hcs]. pose proof (call_due c n l Hc Hw) as [Hw1 Hd1].
  destruct (spec_call gettimeofday c n l) as [[r n1] l1]. simpl in *.
  pose proof (IH n1 l1 Hcs Hw1) as [Hw2 Hd2].
  destruct (spec_calls gettimeofday cs n1 l1) as [[rs n2] l2]. simpl in *.
  split; [done|]. rewrite Hd2, Hd1, list_filter_filter. apply list_filter_iff. set_solver.
Qed.

Lemma script_law : TimerHandler now (λ D, D = K) kills script_handler.
Proof.
  intros ev s l Hs Hw HK _ _. unfold script_handler.
  pose proof (calls_ok gettimeofday (script ev) s l Hs) as Hok. rewrite HK in Hok. specialize (Hok (Huse ev)).
  pose proof (calls_due (script ev) (reads s) l (Hdelay ev) Hw) as [Hw' Hd'].
  destruct (spec_calls gettimeofday (script ev) (reads s) l) as [[rs n] l']. destruct Hok as (s'&E&Hs'&[Hdom Hh]&_).
  exists 0, s', l'. rewrite (bind_Some _ _ _ _ _ E). split; [done|]. split; [done|]. split; [done|].
  split; [congruence|]. split; [done|]. exact Hd'.
Qed.
End script.

(** ** A handler that arms its event again at once *)

Definition again (gettimeofday : nat → Z * Z) (ev : addr) : T Z := pure_add_timer gettimeofday 0 ev.

Lemma again_law gettimeofday now :
  0 ≤ now < 2 ^ 64 → (∀ n, msec gettimeofday n = now) → RestlessHandler now (λ _, True) (again gettimeofday).
Proof.
  intros Hnow Hclock ev s l Hs Hw _ Hev Hnin. apply elem_of_dom in Hev as [e He]. unfold again.
  destruct (timer_add_ok gettimeofday s l 0 ev e Hs He) as (s'&E&Hs'&_&_). exists 0, s', (spec_add gettimeofday (reads s) 0 ev l).
  split; [done|]. split; [done|]. unfold spec_add. rewrite decide_False by done. rewrite Hclock, Z.add_0_l, u64_small by lia.
  split; [eapply window_perm; [symmetry; apply put_perm|]; constructor; [simpl; lia|done]|]. split; [done|].
  intros Hd. assert (Hin : (ev, now) ∈ due now (put (ev, now) l)); [|rewrite Hd in Hin; by apply elem_of_nil in Hin].
  unfold due. apply list_elem_of_filter. split; [simpl; rewrite s32_small; lia|]. rewrite put_perm. apply list_elem_of_here.
Qed.
