(* ===== verification/TimerTheorems.v ===== *)
(** * src/timer: construction, destruction, and the theorems about the timer. *)

From stdpp Require Import sorting.
From S2P Require Import Prelude RbTree RbTreeHeap RbTreeInsert RbTreeSpec RbTreeMap RbTreeTheorems Timer TimerProofs TimerProcess.

Local Open Scope Z_scope.

(** ** Construction and destruction *)

Lemma event_allocated s l a e : timer_holds s l → events s !! a = Some e → is_Some (heap (prbt s) !! a).
Proof.
  intros Hs Ha. destruct (event_cases s l a e Hs Ha) as [(_&_&l1&k&l2&->&_)|[_ Hl]].
  - destruct Hs as (F&Ht&_). destruct (represents_node (prbt s) (nodes_of (l1 ++ (a, k) :: l2)) (nodes_of l1) a k (Zpos a) (nodes_of l2) F) as (v&Ev&_); [|done|].
    { unfold nodes_of. by rewrite fmap_app, fmap_cons. }
    unfold node in Ev. destruct (heap (prbt s) !! a); [eauto|done].
  - destruct (idle_split s l a e Hs Ha Hl) as (F&Ht&_). apply represents_cell in Ht.
    unfold node in Ht. destruct (heap (prbt s) !! a); [eauto|done].
Qed.

Section construction.
Context (new : gmap addr rb_node → addr * rb_node) (Hnew : ∀ h, h !! (new h).1 = None).

Lemma new_rbnode_ok s l F :
  represents s l F →
  ∃ s' p v, new_rbnode new s = Some (p, s') ∧ heap s !! p = None ∧ represents s' l ((p, v) :: F).
Proof.
  intros (t&np&Ht&El&Hs).
  assert (Hrun : run (nilp s) (ptr (nilp s) t) (memory (nilp s) t [] np F) (new_rbnode new)
    (λ p r' L', ∃ v, r' = ptr (nilp s) t ∧ L' ≡ₚ memory (nilp s) t [] np ((p, v) :: F))).
  { apply run_new; [done|]. intros p v. exists v. split; [done|]. unfold memory, sentinel. cbn [path_nodes top app]. perm. }
  destruct (run_exec _ _ _ _ _ _ Hrun Hs) as (p&s'&E&r'&L'&Hs'&v&->&HL).
  exists s', p, v. split; [done|]. split.
  - unfold new_rbnode in E. pose proof (Hnew (heap s)) as Hf. destruct (new (heap s)) as [q junk]. by injection E as <- _.
  - rewrite <- El. by eapply (represents_intro s' (nilp s)).
Qed.

Lemma new_event_ok s l :
  timer_holds s l →
  ∃ ev s', new_event new s = Some (ev, s') ∧ timer_holds s' l ∧ ev ∉ dom (events s) ∧
    dom (events s') = {[ev]} ∪ dom (events s) ∧ reads s' = reads s.
Proof.
  intros Hs. pose proof Hs as (F&Ht&Harmed&Hidle). unfold new_event.
  destruct (new_rbnode_ok _ _ _ Ht) as (t1&ev&v&E1&Hfresh&Ht1).
  destruct (represents_update _ _ (λ _, zero_node) _ _ _ Ht1) as (t2&E2&_&Ht2).
  tree_step E1. tree_step E2. erewrite bind_Some by reflexivity.
  assert (Hev : events s !! ev = None).
  { destruct (events s !! ev) as [e|] eqn:E; [|done].
    destruct (event_allocated s l ev e Hs E) as [w Hw]. congruence. }
  eexists _, _. split; [reflexivity|]. split; [|split; [by apply not_elem_of_dom|split; [simpl; by rewrite dom_insert_L|done]]].
  exists ((ev, zero_node) :: F). split; [done|]. split; simpl.
  - intros a Ha. rewrite lookup_insert_ne; [by apply Harmed|]. intros <-. by rewrite (Harmed ev Ha) in Hev.
  - intros a e Ha Hal. destruct (decide (a = ev)) as [->|Hne].
    + rewrite lookup_insert_eq in Ha. injection Ha as <-. split; [done|]. apply list_elem_of_here.
    + rewrite lookup_insert_ne in Ha by done. destruct (Hidle a e Ha Hal). split; [done|]. by apply list_elem_of_further.
Qed.

(** Several events, constructed one after the other. *)
Fixpoint new_events (n : nat) : T (list addr) :=
  match n with O => mret [] | S n => ev ← new_event new; evs ← new_events n; mret (ev :: evs) end.

Lemma new_events_ok n : ∀ s l,
  timer_holds s l →
  ∃ evs s', new_events n s = Some (evs, s') ∧ timer_holds s' l ∧ length evs = n ∧ NoDup evs ∧
    dom (events s) ⊆ dom (events s') ∧ (∀ ev, ev ∈ evs → ev ∈ dom (events s') ∧ ev ∉ dom (events s)) ∧ reads s' = reads s.
Proof.
  induction n as [|n IH]; intros s l Hs; cbn [new_events].
  { exists [], s. split; [done|]. split; [done|]. split; [done|]. split; [constructor|]. set_solver. }
  destruct (new_event_ok s l Hs) as (ev&s1&E1&Hs1&Hnew1&Hd1&Hr1).
  destruct (IH s1 l Hs1) as (evs&s2&E2&Hs2&Hlen&Hnd&Hsub&Hin&Hr2).
  exists (ev :: evs), s2. rewrite (bind_Some _ _ _ _ _ E1), (bind_Some _ _ _ _ _ E2).
  split; [done|]. split; [done|]. split; [simpl; lia|]. rewrite Hd1 in *. split; [|split; [set_solver|split; [|congruence]]].
  - apply list.NoDup_cons. split; [|done]. intros H. apply Hin in H. set_solver.
  - intros a Ha. apply elem_of_cons in Ha as [->|Ha]; [set_solver|]. apply Hin in Ha. set_solver.
Qed.

Lemma new_timer_ok h : timer_holds (new_timer new h) [].
Proof.
  exists (map_to_list h). split; [apply (new_represents new Hnew h)|]. split; [intros a Ha; by apply not_elem_of_nil in Ha|].
  intros a e Ha. simpl in Ha. by rewrite lookup_empty in Ha.
Qed.
End construction.

Lemma delete_event_ok s l ev e :
  timer_holds s l → events s !! ev = Some e →
  ∃ s', delete_event ev s = Some ((), s') ∧ timer_holds s' (remove ev l) ∧
    dom (events s') = dom (events s) ∖ {[ev]} ∧ handled s' = handled s.
Proof.
  intros Hs Hev. unfold delete_event. rewrite (get_event_Some _ _ _ _ Hev).
  assert (H1 : ∃ s1, (if m_is_inrbtree e && m_ptt e then _ ← pure_delete_timer ev; mret () else mret ()) s = Some ((), s1) ∧
    timer_holds s1 (remove ev l) ∧ same_events s s1).
  { destruct (event_cases s l ev e Hs Hev) as [(->&->&_)|[-> Hl]].
    - destruct (delete_ok s l ev e Hs Hev) as (s1&E1&Hs1&Hsame&_). exists s1. simpl. by rewrite (bind_Some _ _ _ _ _ E1).
    - exists s. by rewrite remove_absent. }
  destruct H1 as (s1&E1&Hs1&Hd1&Hh1). rewrite (bind_Some _ _ _ _ _ E1).
  assert (Hev1 : is_Some (events s1 !! ev)) by (apply elem_of_dom; rewrite Hd1; by eapply elem_of_dom_2).
  destruct Hev1 as [e1 Hev1]. assert (Hl1 : ev ∉ (remove ev l).*1).
  { intros H. apply list_elem_of_fmap in H as (x&->&Hx). apply list_elem_of_filter in Hx as [Hx _]. by apply Hx. }
  destruct (idle_split s1 _ ev e1 Hs1 Hev1 Hl1) as (F&Ht&Hrest).
  destruct (represents_free _ _ _ _ _ Ht) as (t2&E2&_&Ht2). tree_step E2.
  eexists. split; [reflexivity|]. split; [|split; [|done]]; simpl.
  - exists F. split; [done|]. destruct Hs1 as (_&_&Harmed&_). split; simpl.
    + intros a Ha. rewrite lookup_delete_ne; [by apply Harmed|]. by intros <-.
    + intros a e' Ha Hal. apply lookup_delete_Some in Ha as [Hne Ha]. by apply Hrest.
  - rewrite dom_delete_L, Hd1. done.
Qed.

(** ** Theorems *)

(** C14. The timer refines a list of events in the order of their times: from
    the constructors of a timer and of any number of events, whatever adding,
    deleting and asking for the next time on them is done, nothing dangles or
    diverges, every answer is the one the list gives, an event that is armed
    stays where it is when added again, and the tree holds exactly the list. *)
Theorem timer_refines gettimeofday new h n :
  (∀ h, h !! (new h : addr * rb_node).1 = None) →
  ∃ evs s0, new_events new n (new_timer new h) = Some (evs, s0) ∧ length evs = n ∧ NoDup evs ∧
    ∀ cs, Forall (uses (list_to_set evs)) cs →
      let '(rs, _, l) := spec_calls gettimeofday cs 0 [] in
      ∃ s, run_calls gettimeofday cs s0 = Some (rs, s) ∧ timer_holds s l ∧ StronglySorted Z.le l.*2 ∧ NoDup l.*1.
Proof.
  intros Hnew. destruct (new_events_ok new Hnew n _ _ (new_timer_ok new Hnew h)) as (evs&s0&E&Hs0&Hlen&Hnd&_&Hin&Hr).
  exists evs, s0. split; [done|]. split; [done|]. split; [done|]. intros cs Hcs.
  pose proof (calls_ok gettimeofday cs s0 [] Hs0) as Hok. rewrite Hr in Hok.
  assert (H0 : reads (new_timer new h) = O) by (unfold new_timer; by destruct (new h)).
  rewrite H0 in Hok.
  destruct (spec_calls gettimeofday cs 0 []) as [[rs n'] l]. destruct Hok as (s&Es&Hs&_).
  - eapply Forall_impl; [|exact Hcs]. intros c Hc ev Hev. apply Hin. specialize (Hc ev Hev).
    by apply elem_of_list_to_set in Hc.
  - exists s. split; [done|]. split; [done|]. split; [by eapply timer_sorted|by eapply timer_nodup].
Qed.

(** C11. A round of the timer, with all times within 2^31 ms of it.  When its
    handlers leave no event due that was not due before (they may arm, move and
    take out events otherwise), the round ends, after as many turns as events
    are due and one more: it takes out and handles, in the order of their times,
    each event that was due when the round began and that no earlier handler of
    the round took out, and leaves none that was due.  When each handler leaves
    some event due, as one does that arms its event again without a delay before
    the clock moves, a round that finds one never ends. *)
Theorem timer_round gettimeofday handle Inv kills s l fuel :
  let now := msec gettimeofday (reads s) in
  timer_holds s l → window now l → Inv (dom (events s)) →
  (TimerHandler now Inv kills handle → (length (due now l) < fuel)%nat →
   ∃ s' l', pure_timer_process gettimeofday handle fuel s = Some (-1, s') ∧
     handled s' = handled s ++ visited fst kills (due now l) ∧ timer_holds s' l' ∧ due now l' = []) ∧
  (RestlessHandler now Inv handle → due now l ≠ [] → pure_timer_process gettimeofday handle fuel s = None).
Proof.
  intros now Hs Hw Hinv. unfold pure_timer_process. erewrite bind_Some by reflexivity.
  set (s0 := mk_timer _ _ _ _ _). fold now. split.
  - intros Hlaw Hf. destruct (process_ok now Inv kills handle fuel s0 l) as (s'&l'&E&Hs'&Hd&Hh); try done. by exists s', l'.
  - intros Hlaw Hd. by apply (process_restless now Inv handle fuel s0 l).
Qed.

(** ** Concrete timers *)

(** A clock that shows 100 s. *)
Definition demo_clock : nat → Z * Z := λ _, (100, 0).

Lemma timer_refines_witness :
  ∃ evs s0, new_events demo_new 3 (new_timer demo_new ∅) = Some (evs, s0) ∧
    match evs with
    | [a; b; c] =>
        ∃ s, run_calls demo_clock [Add 30 a; Add 10 b; Find; Add 5 a; Delete b; Add 20 c; Find] s0 =
          Some ([0; 0; 10; 0; 0; 0; 20], s)
    | _ => False
    end.
Proof.
  destruct (timer_refines demo_clock demo_new ∅ 3 demo_new_fresh) as (evs&s0&E&_&_&H).
  exists evs, s0. split; [exact E|].
  assert (Hevs : evs = [2; 3; 4]%positive).
  { assert (Heq : fst <$> new_events demo_new 3 (new_timer demo_new ∅) = Some [2; 3; 4]%positive) by (vm_compute; reflexivity).
    rewrite E in Heq. simpl in Heq. by injection Heq. }
  subst evs.
  specialize (H [Add 30 2%positive; Add 10 3%positive; Find; Add 5 2%positive; Delete 3%positive; Add 20 4%positive; Find]).
  destruct H as (s&Es&_).
  - repeat constructor; intros ev Hev; simpl in Hev; try discriminate Hev; injection Hev as <-; apply elem_of_list_to_set;
      (repeat first [apply list_elem_of_here|apply list_elem_of_further]).
  - exists s. exact Es.
Defined.

(** Two events, one of them due, whose handlers arm themselves again. *)
Definition demo_script (ev : addr) : list call :=
  if decide (ev ∈ [2; 3]%positive) then [Add 50 ev] else [].

Definition demo_timer : T () :=
  _ ← new_events demo_new 2; _ ← run_calls (λ _, (99, 0)) [Add 2000 2%positive; Add 900 3%positive]; mret ().
Definition demo_state : CPure_timer :=
  default (new_timer demo_new ∅) (snd <$> demo_timer (new_timer demo_new ∅)).

Lemma demo_state_holds :
  timer_holds demo_state [(3%positive, 99900); (2%positive, 101000)] ∧ dom (events demo_state) = ({[2%positive; 3%positive]} : gset addr).
Proof.
  destruct (new_events_ok demo_new demo_new_fresh 2 _ _ (new_timer_ok demo_new demo_new_fresh ∅)) as (evs&s0&E&Hs0&_&_&_&_&_).
  assert (Hdom : dom <$> (events ∘ snd <$> new_events demo_new 2 (new_timer demo_new ∅)) = Some ({[2%positive; 3%positive]} : gset addr)) by (vm_compute; reflexivity).
  rewrite E in Hdom. simpl in Hdom. injection Hdom as Hdom.
  assert (Hr : reads ∘ snd <$> new_events demo_new 2 (new_timer demo_new ∅) = Some O) by (vm_compute; reflexivity).
  rewrite E in Hr. simpl in Hr. injection Hr as Hr.
  pose proof (calls_ok (λ _, (99, 0)) [Add 2000 2%positive; Add 900 3%positive] s0 [] Hs0) as Hok.
  rewrite Hr in Hok. destruct Hok as (s1&E1&Hs1&[Hd _]&_).
  - rewrite Hdom. repeat constructor; intros ev Hev; injection Hev as <-; set_solver.
  - assert (Hs : demo_state = s1).
    { unfold demo_state, demo_timer. by rewrite (bind_Some _ _ _ _ _ E), (bind_Some _ _ _ _ _ E1). }
    rewrite Hs. split; [exact Hs1|]. by rewrite Hd.
Qed.

Lemma demo_law : TimerHandler (100 * 1000) (λ D, D = ({[2%positive; 3%positive]} : gset addr)) (kills demo_script) (script_handler demo_clock demo_script).
Proof.
  apply script_law.
  - lia.
  - intros n. vm_compute. split; [discriminate|reflexivity].
  - intros ev. unfold demo_script. destruct (decide _); repeat constructor; simpl; lia.
  - intros ev. unfold demo_script. destruct (decide _) as [Hin|]; repeat constructor.
    intros a Ha. injection Ha as <-. set_solver.
Qed.

Lemma timer_round_witness :
  (∃ s' l', pure_timer_process demo_clock (script_handler demo_clock demo_script) 2 demo_state = Some (-1, s') ∧
    handled s' = [3%positive] ∧ timer_holds s' l' ∧ due 100000 l' = []) ∧
  pure_timer_process demo_clock (again demo_clock) 1000 demo_state = None.
Proof.
  assert (Hw : window 100000 [(3%positive, 99900); (2%positive, 101000)]).
  { repeat constructor; vm_compute; discriminate || reflexivity. }
  split.
  - destruct (timer_round demo_clock (script_handler demo_clock demo_script) (λ D, D = ({[2%positive; 3%positive]} : gset addr))
      (kills demo_script) demo_state _ 2 (proj1 demo_state_holds) Hw (proj2 demo_state_holds)) as [H _].
    destruct (H demo_law) as (s'&l'&E&Hh&Hs'&Hd); [vm_compute; lia|].
    exists s', l'. split; [exact E|]. split; [exact Hh|]. split; [exact Hs'|exact Hd].
  - destruct (timer_round demo_clock (again demo_clock) (λ _, True) (λ _, ∅) demo_state _ 1000 (proj1 demo_state_holds) Hw I) as [_ H].
    apply H; [|vm_compute; discriminate]. apply again_law; [vm_compute; split; [discriminate|reflexivity]|intros n; vm_compute; reflexivity].
Defined.
