(* ===== verification/DLL.v ===== *)
(** * Doubly linked lists in a memory of cells: what several components build
    by hand ([datas/t_dlist.h], the event chain of [base/base_circle.cpp], the
    slabs of [mem_pool/]).

    The null address is 0. *)

From S2P Require Import Prelude.

Local Open Scope Z_scope.

(** ** Lists without repetition *)

Lemma nodup_middle {A} (l1 l2 : list A) a :
  NoDup (l1 ++ a :: l2) → a ∉ l1 ∧ a ∉ l2 ∧ NoDup (l1 ++ l2) ∧ (∀ b, b ∈ l1 → b ∉ l2).
Proof.
  intros H. rewrite list.NoDup_app in H. destruct H as (H1&Hd&H2). apply list.NoDup_cons in H2 as [Ha H2].
  split; [intros Hin; apply (Hd a Hin), list_elem_of_here|]. split; [done|].
  assert (Hd' : ∀ b, b ∈ l1 → b ∉ l2) by (intros b Hb Hb2; by apply (Hd b Hb), list_elem_of_further).
  split; [|done]. rewrite list.NoDup_app. done.
Qed.

Lemma in_snoc {A} (l : list A) a : a ∈ l ++ [a].
Proof. apply elem_of_app. right. apply list_elem_of_here. Qed.
Lemma not_in_snoc {A} (l : list A) a b : a ∉ l ++ [b] → a ≠ b.
Proof. intros H ->. apply H, in_snoc. Qed.
Lemma not_in_cons {A} (l : list A) a b : a ∉ b :: l → a ≠ b.
Proof. intros H ->. apply H, list_elem_of_here. Qed.

Lemma last_split {A} (l : list A) : l = [] ∨ ∃ l' a, l = l' ++ [a].
Proof. induction l as [|a l _] using rev_ind; [by left|right; eauto]. Qed.

(** ** Linked cells *)

(** Cells with two pointers. *)
Class Links (V : Type) := {
  prev : V → Z; next : V → Z;
  link_prev : Z → V → V; link_next : Z → V → V;
  prev_link_prev q v : prev (link_prev q v) = q;
  next_link_prev q v : next (link_prev q v) = next v;
  prev_link_next q v : prev (link_next q v) = prev v;
  next_link_next q v : next (link_next q v) = q }.

Section dll.
Context {V : Type} `{LV : Links V}.
Implicit Types (h : gmap Z V) (l : list Z) (p n a : Z).

(** The first address of [l], or what comes behind it, and the last one, or
    what comes before. *)
Definition first (l : list Z) (n : Z) : Z := hd n l.
Definition final (p : Z) (l : list Z) : Z := List.last l p.

(** The cells [l] are linked in both directions, between [p] and [n]. *)
Fixpoint dll (h : gmap Z V) (p : Z) (l : list Z) (n : Z) : Prop :=
  match l with
  | [] => True
  | a :: l => ∃ v, h !! a = Some v ∧ prev v = p ∧ next v = first l n ∧ dll h a l n
  end.

Lemma first_app l1 l2 n : first (l1 ++ l2) n = first l1 (first l2 n).
Proof. by destruct l1. Qed.
Lemma final_cons p a l : final p (a :: l) = final a l.
Proof.
  unfold final. revert p a. induction l as [|b l IH]; intros p a; [done|].
  change (List.last (b :: l) p = List.last (b :: l) a). by rewrite (IH p b), (IH a b).
Qed.
Lemma final_app p l1 l2 : final p (l1 ++ l2) = final (final p l1) l2.
Proof.
  revert p. induction l1 as [|a l1 IH]; intros p; [done|]. cbn [app]. by rewrite !final_cons, IH.
Qed.
Lemma final_snoc p l a : final p (l ++ [a]) = a.
Proof. by rewrite final_app. Qed.

Lemma first_in l n : (l = [] ∧ first l n = n) ∨ first l n ∈ l.
Proof. destruct l as [|a l]; [by left|right; apply list_elem_of_here]. Qed.
Lemma final_in p l : (l = [] ∧ final p l = p) ∨ final p l ∈ l.
Proof.
  revert p. induction l as [|a l IH]; intros p; [by left|right]. rewrite final_cons.
  destruct (IH a) as [[-> ->]|H]; [apply list_elem_of_here|by apply list_elem_of_further].
Qed.

Lemma dll_app h p l1 l2 n : dll h p (l1 ++ l2) n ↔ dll h p l1 (first l2 n) ∧ dll h (final p l1) l2 n.
Proof.
  revert p. induction l1 as [|a l1 IH]; intros p; cbn [app dll]; [naive_solver|].
  rewrite final_cons, first_app. setoid_rewrite IH. naive_solver.
Qed.

Lemma dll_allocated h p l n a : dll h p l n → a ∈ l → is_Some (h !! a).
Proof.
  revert p. induction l as [|b l IH]; intros p; [by intros _ ?%not_elem_of_nil|].
  intros (v&Hb&_&_&Hl) [->|Ha]%elem_of_cons; [eauto|by eapply IH].
Qed.

Lemma dll_frame h h' p l n : (∀ a, a ∈ l → h' !! a = h !! a) → dll h p l n → dll h' p l n.
Proof.
  revert p. induction l as [|a l IH]; intros p Hh; [done|]. intros (v&Ha&Hp&Hn&Hl).
  exists v. rewrite Hh by apply list_elem_of_here. split; [done|]. split; [done|]. split; [done|].
  apply IH; [|done]. intros b Hb. by apply Hh, list_elem_of_further.
Qed.

Lemma dll_alter h p l n a f : a ∉ l → dll h p l n → dll (alter f a h) p l n.
Proof. intros Ha. apply dll_frame. intros b Hb. apply lookup_alter_ne. by intros <-. Qed.
Lemma dll_insert h p l n a v : a ∉ l → dll h p l n → dll (<[a := v]> h) p l n.
Proof. intros Ha. apply dll_frame. intros b Hb. apply lookup_insert_ne. by intros <-. Qed.
Lemma dll_delete h p l n a : a ∉ l → dll h p l n → dll (delete a h) p l n.
Proof. intros Ha. apply dll_frame. intros b Hb. apply lookup_delete_ne. by intros <-. Qed.

(** Changing the cells at the ends: what is before the first one, and behind
    the last one. *)
Lemma dll_link_prev h p l n a p' :
  dll h p (a :: l) n → a ∉ l → dll (alter (link_prev p') a h) p' (a :: l) n.
Proof.
  intros (v&Hv&_&Hn&Hl) Hal. exists (link_prev p' v). rewrite lookup_alter_eq, Hv. split; [done|].
  rewrite prev_link_prev, next_link_prev. split; [done|]. split; [done|]. by apply dll_alter.
Qed.
Lemma dll_link_next h p l n a n' :
  dll h p (l ++ [a]) n → a ∉ l → dll (alter (link_next n') a h) p (l ++ [a]) n'.
Proof.
  rewrite !dll_app. intros [Hl (v&Hv&Hp&_&_)] Hal. split; [by apply dll_alter|].
  exists (link_next n' v). rewrite lookup_alter_eq, Hv. split; [done|].
  by rewrite prev_link_next, next_link_next.
Qed.

(** The cell at a place. *)
Lemma dll_middle h p l1 a l2 n :
  dll h p (l1 ++ a :: l2) n →
  ∃ v, h !! a = Some v ∧ prev v = final p l1 ∧ next v = first l2 n ∧ dll h p l1 a ∧ dll h a l2 n.
Proof.
  rewrite dll_app. intros [H1 (v&Hv&Hp&Hn&H2)]. exists v. split_and!; try done.
Qed.
(** Taking a cell out: its neighbours are told to skip it. *)
Definition relink h l1 l2 : gmap Z V :=
  let h1 := if decide (l1 = []) then h else alter (link_next (first l2 0)) (final 0 l1) h in
  if decide (l2 = []) then h1 else alter (link_prev (final 0 l1)) (first l2 0) h1.

Lemma dll_relink h l1 a l2 :
  dll h 0 (l1 ++ a :: l2) 0 → NoDup (l1 ++ a :: l2) → dll (relink h l1 l2) 0 (l1 ++ l2) 0.
Proof.
  intros Hc Hnd. apply nodup_middle in Hnd as (_&_&Hnd&Hd).
  apply dll_middle in Hc as (v&_&_&_&Hc1&Hc2). apply list.NoDup_app in Hnd as (Hnd1&_&Hnd2).
  assert (H1 : dll (if decide (l1 = []) then h else alter (link_next (first l2 0)) (final 0 l1) h) 0 l1 (first l2 0) ∧
    dll (if decide (l1 = []) then h else alter (link_next (first l2 0)) (final 0 l1) h) a l2 0).
  { destruct (last_split l1) as [->|(l'&b&->)]; [by rewrite decide_True|].
    rewrite decide_False by (by destruct l'). rewrite final_snoc. apply nodup_middle in Hnd1 as [Hb _].
    split; [by eapply dll_link_next|]. apply dll_alter; [|done]. apply Hd, in_snoc. }
  destruct H1 as [H1 H2]. unfold relink. cbv zeta. destruct l2 as [|c l2].
  - rewrite decide_True by done. by rewrite app_nil_r.
  - rewrite decide_False by done. apply list.NoDup_cons in Hnd2 as [Hc _]. apply dll_app. split.
    + apply dll_alter; [|done]. intros Hin. by apply (Hd c Hin), list_elem_of_here.
    + by eapply dll_link_prev.
Qed.

Lemma relink_other h l1 l2 b : b ∉ l1 → b ∉ l2 → relink h l1 l2 !! b = h !! b.
Proof.
  intros H1 H2. assert (E : (if decide (l1 = []) then h else alter (link_next (first l2 0)) (final 0 l1) h) !! b = h !! b).
  { destruct (decide (l1 = [])); [done|]. apply lookup_alter_ne. intros <-.
    by destruct (final_in 0 l1) as [[? _]|?]. }
  unfold relink. cbv zeta. destruct (decide (l2 = [])); [done|]. rewrite lookup_alter_ne; [done|]. intros <-.
  by destruct (first_in l2 0) as [[? _]|?].
Qed.

(** What does not depend on the links stays. *)
Lemma relink_same {B} (f : V → B) h l1 l2 b :
  (∀ q v, f (link_prev q v) = f v) → (∀ q v, f (link_next q v) = f v) →
  f <$> relink h l1 l2 !! b = f <$> h !! b.
Proof.
  intros Hp Hn. assert (Halter : ∀ (g : V → V) c h, (∀ v, f (g v) = f v) → f <$> alter g c h !! b = f <$> h !! b).
  { intros g c h0 Hg. destruct (decide (c = b)) as [->|Hne]; [|by rewrite lookup_alter_ne].
    rewrite lookup_alter_eq. destruct (h0 !! b); simpl; [by rewrite Hg|done]. }
  unfold relink. cbv zeta. destruct (decide (l2 = [])); [|rewrite Halter by auto]; (destruct (decide (l1 = [])); [done|by apply Halter]).
Qed.
End dll.

(** An update of a cell with a known value. *)
Lemma insert_alter {V} (h : gmap Z V) a v f : h !! a = Some v → <[a := f v]> h = alter f a h.
Proof.
  intros Ha. apply map_eq. intros b. destruct (decide (b = a)) as [->|Hne].
  - by rewrite lookup_insert_eq, lookup_alter_eq, Ha.
  - by rewrite lookup_insert_ne, lookup_alter_ne.
Qed.

(** ** Pushing a cell to the front, and dropping the first one *)

Section push.
Context {V : Type} `{LV : Links V}.
Implicit Types (h : gmap Z V) (l : list Z) (a : Z).

Lemma dll_push h h' l a v :
  dll h 0 l 0 → NoDup l → h' !! a = Some v → prev v = 0 → next v = first l 0 →
  (∀ b, b ∈ l → h' !! b = if decide (b = first l 0) then link_prev a <$> h !! b else h !! b) →
  dll h' 0 (a :: l) 0.
Proof.
  intros Hl Hnd Ha Hp Hn Hh. exists v. split_and!; [done..|]. destruct l as [|b l]; [done|].
  destruct Hl as (w&Hb&_&Hx&Hl). apply list.NoDup_cons in Hnd as [Hbl _].
  exists (link_prev a w). rewrite Hh, decide_True by (done || apply list_elem_of_here). rewrite Hb.
  split; [done|]. rewrite prev_link_prev, next_link_prev. split; [done|]. split; [done|].
  revert Hl. apply dll_frame. intros c Hc. rewrite Hh by by apply list_elem_of_further.
  rewrite decide_False; [done|]. by intros ->.
Qed.

Lemma dll_tail h h' a l :
  dll h 0 (a :: l) 0 → NoDup (a :: l) →
  (∀ b, b ∈ l → h' !! b = if decide (b = first l 0) then link_prev 0 <$> h !! b else h !! b) →
  dll h' 0 l 0.
Proof.
  intros (v&_&_&_&Hl) Hnd Hh. apply list.NoDup_cons in Hnd as [_ Hnd].
  destruct l as [|b l]; [done|]. destruct Hl as (w&Hb&_&Hx&Hl). apply list.NoDup_cons in Hnd as [Hbl _].
  exists (link_prev 0 w). rewrite Hh, decide_True by (done || apply list_elem_of_here). rewrite Hb.
  split; [done|]. rewrite prev_link_prev, next_link_prev. split; [done|]. split; [done|].
  revert Hl. apply dll_frame. intros c Hc. rewrite Hh by by apply list_elem_of_further.
  rewrite decide_False; [done|]. by intros ->.
Qed.

(** Adding a cell behind the last one. *)
Lemma dll_snoc h h' l a v :
  dll h 0 l 0 → NoDup l → h' !! a = Some v → prev v = final 0 l → next v = 0 →
  (∀ b, b ∈ l → h' !! b = if decide (b = final 0 l) then link_next a <$> h !! b else h !! b) →
  dll h' 0 (l ++ [a]) 0.
Proof.
  intros Hl Hnd Ha Hp Hn Hh. apply dll_app. split; [|by exists v]. simpl.
  destruct (last_split l) as [->|(l'&b&->)]; [done|]. rewrite final_snoc in *.
  apply dll_app in Hl as [Hl (w&Hw&Hwp&_&_)]. apply nodup_middle in Hnd as [Hb _]. apply dll_app. split.
  - revert Hl. apply dll_frame. intros c Hc. rewrite Hh by (apply elem_of_app; by left).
    rewrite decide_False; [done|]. by intros ->.
  - exists (link_next a w). rewrite Hh, decide_True by (done || apply in_snoc). rewrite Hw.
    by rewrite prev_link_next, next_link_next.
Qed.
End push.
