(* ===== verification/DList.v ===== *)
(** * src/datas/t_dlist.h: the doubly linked list. *)

From S2P Require Import Prelude DLL.

Local Open Scope Z_scope.

Section tdlist.
Context {T : Type}.

(** ** Data; the null address is 0 *)

Record TDList_node := mk_node { m_element : T; m_next : Z; m_prev : Z }.

(** The list object, and the memory its nodes live in. *)
Record TDList := mk_list { nodes : gmap Z TDList_node; m_head : Z; m_tail : Z; m_num_nodes : Z }.

Definition new_list (h : gmap Z TDList_node) : TDList := mk_list h 0 0 0.

(** The code runs on the list and on what a callback is given. *)
Context {U : Type}.
Notation L := (M (TDList * U)).

Definition get_list {A} (f : TDList → A) : L A := gets (λ s, f s.1).
Definition set_list (f : TDList → TDList) : L () := modify (λ s, (f s.1, s.2)).
Definition set_head (v : Z) : L () := set_list (λ l, mk_list (nodes l) v (m_tail l) (m_num_nodes l)).
Definition set_tail (v : Z) : L () := set_list (λ l, mk_list (nodes l) (m_head l) v (m_num_nodes l)).
Definition set_num_nodes (v : Z) : L () := set_list (λ l, mk_list (nodes l) (m_head l) (m_tail l) v).
Definition get_userdata : L U := gets snd.
Definition set_userdata (u : U) : L () := modify (λ s, (s.1, u)).

(** Accesses to a node; one outside the allocated nodes is undefined. *)
Definition get_node (p : Z) : L TDList_node := λ s, (λ v, (v, s)) <$> nodes s.1 !! p.
Definition set_node (p : Z) (f : TDList_node → TDList_node) : L () := λ s,
  v ← nodes s.1 !! p;
  Some ((), (mk_list (<[p := f v]> (nodes s.1)) (m_head s.1) (m_tail s.1) (m_num_nodes s.1), s.2)).
Definition with_next (q : Z) (v : TDList_node) : TDList_node := mk_node (m_element v) q (m_prev v).
Definition with_prev (q : Z) (v : TDList_node) : TDList_node := mk_node (m_element v) (m_next v) q.
Definition get_next (p : Z) : L Z := v ← get_node p; mret (m_next v).
Definition get_prev (p : Z) : L Z := v ← get_node p; mret (m_prev v).
Definition set_next (p q : Z) : L () := set_node p (with_next q).
Definition set_prev (p q : Z) : L () := set_node p (with_prev q).

(** [new TDList_node<T>(element)], [new] answering with an address, and
    [delete node]. *)
Definition new_node (new : gmap Z TDList_node → Z) (element : T) : L Z := λ s,
  let p := new (nodes s.1) in
  Some (p, (mk_list (<[p := mk_node element 0 0]> (nodes s.1)) (m_head s.1) (m_tail s.1) (m_num_nodes s.1), s.2)).
Definition delete_node (p : Z) : L () := λ s,
  _ ← nodes s.1 !! p;
  Some ((), (mk_list (delete p (nodes s.1)) (m_head s.1) (m_tail s.1) (m_num_nodes s.1), s.2)).

(** ** Operations *)

Definition get_first : L Z := get_list m_head.
Definition get_num_nodes : L Z := get_list m_num_nodes.

Definition add_node_to_tail (node : Z) : L () :=
  t ← get_list m_tail;
  (if decide (t ≠ 0) then set_next t node else mret ());;
  t ← get_list m_tail; set_prev node t;;
  set_next node 0;;
  set_tail node;;
  h ← get_list m_head;
  (if decide (h = 0) then set_head node else mret ());;
  n ← get_list m_num_nodes; set_num_nodes (u32 (n + 1)).

Definition add_node (node : Z) : L () :=
  h ← get_list m_head;
  (if decide (h ≠ 0) then set_prev h node else mret ());;
  set_prev node 0;;
  h ← get_list m_head; set_next node h;;
  set_head node;;
  t ← get_list m_tail;
  (if decide (t = 0) then set_tail node else mret ());;
  n ← get_list m_num_nodes; set_num_nodes (u32 (n + 1)).

Definition remove_node (node : Z) : L () :=
  h ← get_list m_head;
  (if decide (h = node) then nx ← get_next node; set_head nx
   else pv ← get_prev node; nx ← get_next node; set_next pv nx);;
  t ← get_list m_tail;
  (if decide (t = node) then pv ← get_prev node; set_tail pv
   else nx ← get_next node; pv ← get_prev node; set_prev nx pv);;
  set_prev node 0;;
  set_next node 0;;
  n ← get_list m_num_nodes; set_num_nodes (u32 (n - 1)).

(** The loops, on as many rounds as there are nodes in memory. *)
Definition rounds {A} (loop : nat → L A) : L A := λ s, loop (S (size (nodes s.1))) s.

Fixpoint until_loop (do_func : Z → L bool) (fuel : nat) (cur_element : Z) : L Z :=
  match fuel with
  | O => stuck
  | S fuel =>
      if decide (cur_element = 0) then mret cur_element else
      next_element ← get_next cur_element;
      stop_iteration ← do_func cur_element;
      if (stop_iteration : bool) then mret cur_element else until_loop do_func fuel next_element
  end.
Definition for_each_until (do_func : Z → L bool) : L Z :=
  h ← get_list m_head; rounds (λ fuel, until_loop do_func fuel h).

Fixpoint each_loop (do_func : Z → L ()) (fuel : nat) (cur_element : Z) : L () :=
  match fuel with
  | O => stuck
  | S fuel =>
      if decide (cur_element = 0) then mret () else
      next_element ← get_next cur_element;
      do_func cur_element;;
      each_loop do_func fuel next_element
  end.
Definition for_each (do_func : Z → L ()) : L () :=
  h ← get_list m_head; rounds (λ fuel, each_loop do_func fuel h).

Definition do_clear_list (node : Z) : L () := remove_node node;; delete_node node.
Definition clear_list : L () := for_each do_clear_list.
End tdlist.
Arguments TDList_node : clear implicits.
Arguments TDList : clear implicits.

(** The user data is the index that is counted down, an [int]. *)
Definition compare_index_to_zero {T} (node : Z) : M (TDList T * Z) bool :=
  val ← get_userdata;
  if decide (val = 0) then mret true else set_userdata (s32 (val - 1));; mret false.
Definition get_nth_node {T} (node_index : Z) : M (TDList T * Z) Z :=
  set_userdata node_index;; for_each_until compare_index_to_zero.
