(* ===== verification/DListProofs.v ===== *)
(** * src/datas/t_dlist.h: every operation against a plain list. *)

From S2P Require Import Prelude DLL DList.

Local Open Scope Z_scope.

#[export] Program Instance node_links {T} : Links (TDList_node T) :=
  {| prev := m_prev; next := m_next; link_prev := with_prev; link_next := with_next |}.
Solve All Obligations with done.

Section proofs.
Context {T : Type}.
Implicit Types (s : TDList T) (l : list Z) (a : Z).

(** The list object holds the nodes [l], in order. *)
Record dlist s l : Prop := mk_dlist {
  dl_chain : dll (nodes s) 0 l 0;
  dl_nodup : NoDup l;
  dl_nonnull : 0 ∉ l;
  dl_head : m_head s = first l 0;
  dl_tail : m_tail s = final 0 l;
  dl_num : m_num_nodes s = u32 (Z.of_nat (length l)) }.

(** The nodes and their elements stay as they are. *)
Definition same_elements (h h' : gmap Z (TDList_node T)) : Prop := ∀ a, m_element <$> h' !! a = m_element <$> h !! a.

Lemma same_refl h : same_elements h h.
Proof. done. Qed.
Lemma same_insert h h' c w w' :
  same_elements h h' → h' !! c = Some w → m_element w' = m_element w → same_elements h (<[c := w']> h').
Proof.
  intros Hs Hc Hw a. rewrite <- Hs. destruct (decide (a = c)) as [->|Hne].
  - rewrite lookup_insert_eq, Hc. simpl. by rewrite Hw.
  - by rewrite lookup_insert_ne.
Qed.

Lemma same_dom h h' : same_elements h h' → dom h' = dom h.
Proof.
  intros Hs. apply set_eq. intros a. rewrite !elem_of_dom. specialize (Hs a).
  destruct (h !! a), (h' !! a); simpl in Hs; naive_solver.
Qed.

(** ** Symbolic execution *)

Section steps.
Context {U : Type}.
Implicit Types (u : U).

Lemma wp_get_node p s u v (Q : _ → _ → Prop) : nodes s !! p = Some v → Q v (s, u) → wp (get_node p) Q (s, u).
Proof. intros E HQ. unfold wp, get_node. simpl. by rewrite E. Qed.
Lemma node_next_wp p s u v (Q : _ → _ → Prop) : nodes s !! p = Some v → Q (m_next v) (s, u) → wp (get_next p) Q (s, u).
Proof. intros E HQ. unfold get_next. apply wp_bind. by eapply wp_get_node. Qed.
Lemma node_prev_wp p s u v (Q : _ → _ → Prop) : nodes s !! p = Some v → Q (m_prev v) (s, u) → wp (get_prev p) Q (s, u).
Proof. intros E HQ. unfold get_prev. apply wp_bind. by eapply wp_get_node. Qed.
Lemma wp_set_node p f s u v (Q : () → _ → Prop) :
  nodes s !! p = Some v →
  Q () (mk_list (<[p := f v]> (nodes s)) (m_head s) (m_tail s) (m_num_nodes s), u) → wp (set_node p f) Q (s, u).
Proof. intros E HQ. unfold wp, set_node. simpl. by rewrite E. Qed.
End steps.

Ltac dl_node := simpl; repeat first [rewrite lookup_insert_eq; reflexivity|rewrite lookup_insert_ne by done]; eassumption || reflexivity.
Ltac dl_step :=
  lazymatch goal with
  | |- wp (mbind _ _) _ _ => apply wp_bind
  | |- wp (mret _) _ _ => apply wp_ret
  | |- wp (get_list _) _ _ => apply wp_gets
  | |- wp (set_list _) _ _ => apply wp_modify
  | |- wp (set_head _) _ _ => apply wp_modify
  | |- wp (set_tail _) _ _ => apply wp_modify
  | |- wp (set_num_nodes _) _ _ => apply wp_modify
  | |- wp (get_next _) _ _ => eapply node_next_wp; [dl_node|]
  | |- wp (get_prev _) _ _ => eapply node_prev_wp; [dl_node|]
  | |- wp (set_next _ _) _ _ => eapply wp_set_node; [dl_node|]
  | |- wp (set_prev _ _) _ _ => eapply wp_set_node; [dl_node|]
  end; simpl.
Ltac dl_if := try first [rewrite decide_True by (done || congruence)|rewrite decide_False by (done || congruence)].

(** ** Adding and removing *)

Section operations.
Context {U : Type} (u : U).

Lemma first_elem l a n : first (a :: l) n = a.
Proof. done. Qed.

Lemma add_tail_ok s l a v :
  dlist s l → nodes s !! a = Some v → a ∉ l → a ≠ 0 →
  wp (add_node_to_tail a) (λ _ σ, σ.2 = u ∧ dlist σ.1 (l ++ [a]) ∧ same_elements (nodes s) (nodes σ.1)) (s, u).
Proof.
  intros [Hc Hnd H0 Hh Ht Hn] Ha Hal Ha0. unfold add_node_to_tail.
  assert (Hnd' : NoDup (l ++ [a])).
  { rewrite list.NoDup_app. split; [done|]. split; [|apply NoDup_singleton].
    intros b Hb ->%list_elem_of_singleton. done. }
  assert (Hlen : u32 (m_num_nodes s + 1) = u32 (Z.of_nat (length (l ++ [a])))).
  { rewrite Hn, u32_add_l, length_app. f_equal. simpl. lia. }
  do 2 dl_step. rewrite Ht. destruct (last_split l) as [->|(l'&b&->)]; simpl.
  - dl_if. repeat dl_step. rewrite Hh. simpl. dl_if. repeat dl_step.
    split; [done|]. split; [split; simpl; try done; [|set_solver]|].
    + exists (with_next 0 (with_prev 0 v)). rewrite lookup_insert_eq, Ht. done.
    + repeat (eapply same_insert; [|dl_node|done]). apply same_refl.
  - rewrite final_snoc in *. assert (Hb0 : b ≠ 0) by set_solver. assert (Hab : a ≠ b) by set_solver. dl_if.
    destruct (dll_allocated _ _ _ _ b Hc) as [w Hw]; [set_solver|].
    repeat dl_step. rewrite Hh. rewrite first_app. 
    destruct (decide (first l' (first [b] 0) = 0)) as [E|_]; [|].
    { exfalso. apply H0. rewrite <- E. destruct l'; simpl; set_solver. }
    repeat dl_step. split; [done|]. split; [split; simpl; try done|].
    + rewrite dll_app. split.
      * do 2 (apply dll_insert; [done|]). rewrite (insert_alter _ _ _ (with_next a) Hw).
        change (with_next a) with (link_next (V := TDList_node T) a). eapply dll_link_next; [exact Hc|]. by apply nodup_middle in Hnd as [? _].
      * exists (with_next 0 (with_prev b v)). rewrite Ht, lookup_insert_eq, final_snoc. done.
    + set_solver.
    + by rewrite !first_app.
    + by rewrite final_snoc.
    + repeat (eapply same_insert; [|dl_node|done]). apply same_refl.
Qed.

Lemma add_node_ok s l a v :
  dlist s l → nodes s !! a = Some v → a ∉ l → a ≠ 0 →
  wp (add_node a) (λ _ σ, σ.2 = u ∧ dlist σ.1 (a :: l) ∧ same_elements (nodes s) (nodes σ.1)) (s, u).
Proof.
  intros [Hc Hnd H0 Hh Ht Hn] Ha Hal Ha0. unfold add_node.
  assert (Hnd' : NoDup (a :: l)) by by apply list.NoDup_cons.
  assert (Hlen : u32 (m_num_nodes s + 1) = u32 (Z.of_nat (length (a :: l)))).
  { rewrite Hn, u32_add_l. f_equal. simpl. lia. }
  do 2 dl_step. rewrite Hh. destruct l as [|b l]; simpl.
  - dl_if. repeat dl_step. rewrite Ht. simpl. dl_if. repeat dl_step.
    split; [done|]. split; [split; simpl; try done; [|set_solver]|].
    + exists (with_next 0 (with_prev 0 v)). rewrite lookup_insert_eq, Hh. done.
    + repeat (eapply same_insert; [|dl_node|done]). apply same_refl.
  - assert (Hb0 : b ≠ 0) by set_solver. assert (Hab : a ≠ b) by set_solver. dl_if.
    destruct (dll_allocated _ _ _ _ b Hc) as [w Hw]; [set_solver|].
    repeat dl_step. rewrite Ht. 
    destruct (decide (final 0 (b :: l) = 0)) as [E|_].
    { exfalso. apply H0. rewrite <- E. destruct (last_split (b :: l)) as [|(l'&c&->)]; [done|]. rewrite final_snoc. set_solver. }
    repeat dl_step. split; [done|]. split; [split; simpl; try done|].
    + exists (with_next b (with_prev 0 v)). rewrite Hh, lookup_insert_eq. split; [done|]. split; [done|]. split; [done|].
      assert (Hb : dll (alter (link_prev a) b (nodes s)) a (b :: l) 0).
      { eapply dll_link_prev; [exact Hc|]. by apply list.NoDup_cons in Hnd as [? _]. }
      rewrite (insert_alter _ _ _ (with_prev a) Hw).
      exact (dll_insert _ a (b :: l) 0 a _ Hal (dll_insert _ a (b :: l) 0 a _ Hal Hb)).
    + set_solver.
    + repeat (eapply same_insert; [|dl_node|done]). apply same_refl.
Qed.

Lemma relink_same_elements (h : gmap Z (TDList_node T)) l1 l2 : same_elements h (relink h l1 l2).
Proof. intros b. by apply relink_same. Qed.

Lemma wp_set_next p q s u0 (Q : () → TDList T * U → Prop) :
  is_Some (nodes s !! p) →
  Q () (mk_list (alter (link_next q) p (nodes s)) (m_head s) (m_tail s) (m_num_nodes s), u0) → wp (set_next p q) Q (s, u0).
Proof. intros [v Hv] HQ. eapply wp_set_node; [done|]. by rewrite (insert_alter _ _ _ (with_next q)). Qed.
Lemma wp_set_prev p q s u0 (Q : () → TDList T * U → Prop) :
  is_Some (nodes s !! p) →
  Q () (mk_list (alter (link_prev q) p (nodes s)) (m_head s) (m_tail s) (m_num_nodes s), u0) → wp (set_prev p q) Q (s, u0).
Proof. intros [v Hv] HQ. eapply wp_set_node; [done|]. by rewrite (insert_alter _ _ _ (with_prev q)). Qed.

Lemma remove_node_ok s l1 a l2 :
  dlist s (l1 ++ a :: l2) →
  wp (remove_node a) (λ _ σ, σ.2 = u ∧ dlist σ.1 (l1 ++ l2) ∧ same_elements (nodes s) (nodes σ.1)) (s, u).
Proof.
  intros [Hc Hnd H0 Hh Ht Hn]. unfold remove_node.
  pose proof (dll_relink _ _ _ _ Hc Hnd) as Hc'. pose proof (dll_middle _ _ _ _ _ _ Hc) as (v&Ha&Hp&Hx&Hc1&Hc2).
  change (m_prev v = final 0 l1) in Hp. change (m_next v = first l2 0) in Hx.
  pose proof Hnd as Hnd'. apply nodup_middle in Hnd' as (Ha1&Ha2&Hnd'&Hd).
  assert (Hlen : u32 (m_num_nodes s - 1) = u32 (Z.of_nat (length (l1 ++ l2)))).
  { rewrite Hn, !length_app. simpl. rewrite u32_sub_l. f_equal. lia. }
  rewrite first_app in Hh. rewrite final_app, final_cons in Ht.
  set (h1 := if decide (l1 = []) then nodes s else alter (link_next (first l2 0)) (final 0 l1) (nodes s)).
  assert (Hh1 : ∀ b, b ∉ l1 → h1 !! b = nodes s !! b).
  { intros b Hb. unfold h1. destruct (decide (l1 = [])); [done|]. apply lookup_alter_ne. intros <-.
    by destruct (final_in 0 l1) as [[? _]|?]. }
  do 2 dl_step. apply wp_bind. apply (wp_mono _ (λ _ σ, σ = (mk_list h1 (first (l1 ++ l2) 0) (m_tail s) (m_num_nodes s), u))).
  { rewrite Hh, first_app. change (first (a :: l2) 0) with a. unfold h1. destruct (first_in l1 a) as [[-> _]|Hin].
    - rewrite !decide_True by done. repeat dl_step. by rewrite <- Hx.
    - rewrite !decide_False by (intros E; rewrite E in Hin; first [by destruct Ha1|by apply not_elem_of_nil in Hin]).
      dl_step. eapply node_prev_wp; [done|]. dl_step. eapply node_next_wp; [done|]. rewrite Hp, Hx.
      apply wp_set_next; [|by rewrite Hh; destruct l1; [apply not_elem_of_nil in Hin|]].
      eapply dll_allocated; [exact Hc1|]. by destruct (final_in 0 l1) as [[-> _]|?]; [apply not_elem_of_nil in Hin|]. }
  intros _ σ ->. do 2 dl_step. apply wp_bind.
  apply (wp_mono _ (λ _ σ, σ = (mk_list (relink (nodes s) l1 l2) (first (l1 ++ l2) 0) (final 0 (l1 ++ l2)) (m_num_nodes s), u))).
  { rewrite Ht, final_app. unfold relink. fold h1. destruct l2 as [|c l2].
    - rewrite !decide_True by done. dl_step. eapply node_prev_wp; [simpl; by rewrite Hh1|]. repeat dl_step. by rewrite <- Hp.
    - rewrite !decide_False by (done || by destruct (final_in a (c :: l2)) as [[? _]|Hin]; [|intros E; rewrite E in Hin]).
      dl_step. eapply node_next_wp; [simpl; by rewrite Hh1|]. dl_step. eapply node_prev_wp; [simpl; by rewrite Hh1|].
      rewrite Hp, Hx. apply wp_set_prev.
      { simpl. rewrite Hh1; [|intros Hin; by apply (Hd c Hin), list_elem_of_here].
        eapply dll_allocated; [exact Hc2|apply list_elem_of_here]. }
      simpl. destruct l2; [done|by rewrite !final_cons]. }
  intros _ σ ->. assert (Hal : relink (nodes s) l1 l2 !! a = Some v) by by rewrite relink_other.
  repeat dl_step. split; [done|]. split; [split; simpl; try done; [|set_solver]|].
  - do 2 (apply dll_insert; [set_solver|]). done.
  - repeat (eapply same_insert; [|dl_node|done]). apply relink_same_elements.
Qed.

Lemma dlist_new_node_ok s l new e :
  new (nodes s) ∉ dom (nodes s) → dlist s l →
  let p := new (nodes s) in
  new_node new e (s, u) = Some (p, (mk_list (<[p := mk_node e 0 0]> (nodes s)) (m_head s) (m_tail s) (m_num_nodes s), u)) ∧
  dlist (mk_list (<[p := mk_node e 0 0]> (nodes s)) (m_head s) (m_tail s) (m_num_nodes s)) l ∧ p ∉ l.
Proof.
  intros Hnew [Hc Hnd H0 Hh Ht Hn] p. split; [done|].
  assert (Hp : p ∉ l) by (intros Hin; apply Hnew, elem_of_dom; by eapply dll_allocated). split; [|done].
  split; simpl; try done. by apply dll_insert.
Qed.

Lemma delete_node_ok s l p :
  is_Some (nodes s !! p) → p ∉ l → dlist s l →
  delete_node p (s, u) = Some ((), (mk_list (delete p (nodes s)) (m_head s) (m_tail s) (m_num_nodes s), u)) ∧
  dlist (mk_list (delete p (nodes s)) (m_head s) (m_tail s) (m_num_nodes s)) l.
Proof.
  intros [v Hv] Hp [Hc Hnd H0 Hh Ht Hn]. unfold delete_node. simpl. rewrite Hv. split; [done|].
  split; simpl; try done. by apply dll_delete.
Qed.

Lemma dlist_size s l : dlist s l → (length l ≤ size (nodes s))%nat.
Proof.
  intros [Hc Hnd _ _ _ _]. rewrite <- size_dom, <- (size_list_to_set (C := gset Z)) by done. apply subseteq_size.
  intros a Ha%elem_of_list_to_set. apply elem_of_dom. by eapply dll_allocated.
Qed.
End operations.

(** ** Walks *)

Lemma nth_loop_ok s l : ∀ i p fuel,
  dll (nodes s) p l 0 → 0 ∉ l → Z.of_nat i < 2 ^ 31 → (length l < fuel)%nat →
  ∃ u, until_loop compare_index_to_zero fuel (first l 0) (s, Z.of_nat i) = Some (nth i l 0, (s, u)).
Proof.
  induction l as [|a l IH]; intros i p fuel Hc H0 Hi Hf; (destruct fuel as [|fuel]; [simpl in Hf; lia|]).
  - simpl. exists (Z.of_nat i). by destruct i.
  - destruct Hc as (v&Ha&_&Hx&Hc). cbn [until_loop first hd].
    rewrite decide_False by (intros ->; apply H0, list_elem_of_here).
    assert (Hn : get_next a (s, Z.of_nat i) = Some (first l 0, (s, Z.of_nat i))).
    { unfold get_next, get_node. unfold mbind, M_bind. simpl. rewrite Ha. simpl. by rewrite <- Hx. }
    rewrite (bind_Some _ _ _ _ _ Hn). destruct i as [|i].
    + exists 0. done.
    + erewrite bind_Some; [|unfold compare_index_to_zero; erewrite bind_Some by reflexivity; cbn [snd];
        rewrite decide_False by lia; reflexivity].
      replace (s32 (Z.of_nat (S i) - 1)) with (Z.of_nat i) by (rewrite s32_small by lia; lia). cbn [fst].
      apply (IH i a); [done| |lia|simpl in Hf; lia]. intros H. by apply H0, list_elem_of_further.
Qed.

Lemma nth_ok s l i u :
  dlist s l → Z.of_nat i < 2 ^ 31 →
  ∃ u', get_nth_node (Z.of_nat i) (s, u) = Some (nth i l 0, (s, u')).
Proof.
  intros Hs Hi. pose proof (dlist_size s l Hs) as Hsize. destruct Hs as [Hc _ H0 Hh _ _].
  unfold get_nth_node, for_each_until. erewrite bind_Some by reflexivity. erewrite bind_Some by reflexivity.
  unfold rounds. simpl nodes. cbn [fst]. rewrite Hh. apply (nth_loop_ok s l i 0); [done|done|done|lia].
Qed.

Lemma clear_loop_ok {U} (u : U) l : ∀ s fuel,
  dlist s l → (length l < fuel)%nat →
  wp (each_loop do_clear_list fuel (first l 0)) (λ _ σ, σ.2 = u ∧ dlist σ.1 [] ∧
    dom (nodes σ.1) = dom (nodes s) ∖ list_to_set l) (s, u).
Proof.
  induction l as [|a l IH]; intros s fuel Hs Hf; (destruct fuel as [|fuel]; [simpl in Hf; lia|]).
  - simpl. apply wp_ret. split; [done|]. split; [done|]. simpl. set_solver.
  - cbn [each_loop first hd]. pose proof Hs as [Hc Hnd H0 _ _ _]. rewrite decide_False by (intros ->; apply H0, list_elem_of_here).
    destruct Hc as (v&Ha&_&Hx&_). apply wp_bind. eapply node_next_wp; [exact Ha|]. change (m_next v = first l 0) in Hx. rewrite Hx.
    apply wp_bind. unfold do_clear_list. apply wp_bind. eapply wp_mono; [by apply (remove_node_ok u s [] a l)|].
    intros _ [s1 u1] (Eu&Hs1&Hsame). simpl in *. subst u1. apply list.NoDup_cons in Hnd as [Hal Hnd].
    assert (Hdom : dom (nodes s1) = dom (nodes s)) by by apply same_dom.
    assert (Ha1 : is_Some (nodes s1 !! a)) by (apply elem_of_dom; rewrite Hdom; by eapply elem_of_dom_2).
    destruct (delete_node_ok u s1 l a Ha1 Hal Hs1) as [E Hs2]. eapply wp_intro; [exact E|].
    eapply wp_mono; [apply IH; [exact Hs2|simpl in Hf; lia]|]. intros _ [s3 u3] (Eu&Hs3&Hd3). simpl in *.
    split; [done|]. split; [done|]. rewrite Hd3, dom_delete_L, Hdom. set_solver.
Qed.

Lemma clear_ok {U} (u : U) s l :
  dlist s l → wp clear_list (λ _ σ, σ.2 = u ∧ dlist σ.1 [] ∧ dom (nodes σ.1) = dom (nodes s) ∖ list_to_set l) (s, u).
Proof.
  intros Hs. pose proof (dlist_size s l Hs) as Hsize. unfold clear_list, for_each.
  apply wp_bind, wp_gets. simpl. rewrite (dl_head _ _ Hs). unfold wp, rounds. apply clear_loop_ok; [done|]. simpl. lia.
Qed.
End proofs.
