(* ===== verification/DListTheorems.v ===== *)
(** * src/datas/t_dlist.h: the list as the sequence of its elements. *)

From S2P Require Import Prelude DLL DList DListProofs.

Local Open Scope Z_scope.

Lemma delete_past {A} (l : list A) i : (length l ≤ i)%nat → delete i l = l.
Proof.
  revert i. induction l as [|x l IH]; intros i Hi; [done|]. destruct i as [|i]; simpl in Hi; [lia|].
  simpl. rewrite IH by lia. done.
Qed.

Section sequence.
Context {T : Type} (new : gmap Z (TDList_node T) → Z).
Context (Hnew : ∀ h, new h ∉ dom h ∧ new h ≠ 0).

(** ** Using a list *)

Inductive op := Add_tail (e : T) | Add_head (e : T) | Remove (i : nat) | Nth (i : nat) | Count | Clear.
Inductive answer := Done | Element (o : option T) | Number (n : Z).

(** The element of the node at [p], if [p] is not NULL. *)
Definition element_at (p : Z) : M (TDList T * Z) (option T) :=
  if decide (p = 0) then mret None else v ← get_node p; mret (Some (m_element v)).

Definition run_op (o : op) : M (TDList T * Z) answer :=
  match o with
  | Add_tail e => p ← new_node new e; add_node_to_tail p;; mret Done
  | Add_head e => p ← new_node new e; add_node p;; mret Done
  | Remove i =>
      p ← get_nth_node (Z.of_nat i); r ← element_at p;
      (if decide (p = 0) then mret () else remove_node p;; delete_node p);; mret (Element r)
  | Nth i => p ← get_nth_node (Z.of_nat i); r ← element_at p; mret (Element r)
  | Count => n ← get_num_nodes; mret (Number n)
  | Clear => clear_list;; mret Done
  end.
Fixpoint run_ops (os : list op) : M (TDList T * Z) (list answer) :=
  match os with [] => mret [] | o :: os => a ← run_op o; l ← run_ops os; mret (a :: l) end.

(** The reference: a sequence of elements. *)
Definition spec_op (o : op) (es : list T) : answer * list T :=
  match o with
  | Add_tail e => (Done, es ++ [e])
  | Add_head e => (Done, e :: es)
  | Remove i => (Element (es !! i), delete i es)
  | Nth i => (Element (es !! i), es)
  | Count => (Number (u32 (Z.of_nat (length es))), es)
  | Clear => (Done, [])
  end.
Fixpoint spec_ops (os : list op) (es : list T) : list answer * list T :=
  match os with
  | [] => ([], es)
  | o :: os => let '(a, es) := spec_op o es in let '(l, es) := spec_ops os es in (a :: l, es)
  end.

(** Indices are [int]s. *)
Definition index_fits (o : op) : Prop := match o with Remove i | Nth i => Z.of_nat i < 2 ^ 31 | _ => True end.

(** ** The relation *)

Definition elements_are (h : gmap Z (TDList_node T)) (l : list Z) (es : list T) : Prop :=
  Forall2 (λ a e, m_element <$> h !! a = Some e) l es.

(** The list holds the elements [es]; besides, the memory holds the nodes [F]. *)
Definition sequence (F : gset Z) (s : TDList T) (es : list T) : Prop :=
  ∃ l, dlist s l ∧ elements_are (nodes s) l es ∧ dom (nodes s) = F ∪ list_to_set l ∧ F ## list_to_set l.

Lemma elements_same h h' l es : same_elements h h' → elements_are h l es → elements_are h' l es.
Proof. intros Hs H. eapply Forall2_impl; [|exact H]. simpl. intros a e. by rewrite Hs. Qed.

Lemma elements_frame h h' l es : (∀ a, a ∈ l → h' !! a = h !! a) → elements_are h l es → elements_are h' l es.
Proof.
  intros Hh H. induction H as [|a e l es Ha H IH]; constructor.
  - by rewrite Hh by apply list_elem_of_here.
  - apply IH. intros b Hb. by apply Hh, list_elem_of_further.
Qed.

Lemma element_at_ok s u l es i :
  elements_are (nodes s) l es → 0 ∉ l → element_at (nth i l 0) (s, u) = Some (es !! i, (s, u)).
Proof.
  intros H H0. unfold element_at. revert i. induction H as [|a e l es Ha H IH]; intros i.
  - by destruct i.
  - destruct i as [|i]; simpl.
    + rewrite decide_False by (intros ->; apply H0, list_elem_of_here).
      destruct (nodes s !! a) as [v|] eqn:E; [|done]. injection Ha as <-.
      erewrite bind_Some by (unfold get_node; simpl; rewrite E; reflexivity). done.
    + apply IH. intros Hin. by apply H0, list_elem_of_further.
Qed.

Lemma elements_delete h l1 a l2 es :
  elements_are h (l1 ++ a :: l2) es → elements_are h (l1 ++ l2) (delete (length l1) es).
Proof.
  intros H. apply Forall2_app_inv_l in H as (e1&e2&H1&H2&->). inversion H2 as [|? e ? e2' _ H2']; subst.
  rewrite (Forall2_length H1), delete_middle. by apply Forall2_app.
Qed.

(** A constructed node, ready to be added. *)
Lemma new_ready F s es (u : Z) e :
  sequence F s es →
  ∃ p s1 l, new_node new e (s, u) = Some (p, (s1, u)) ∧ dlist s1 l ∧ elements_are (nodes s1) l es ∧
    nodes s1 !! p = Some (mk_node e 0 0) ∧ p ∉ l ∧ p ≠ 0 ∧
    dom (nodes s1) = F ∪ ({[p]} ∪ list_to_set l) ∧ F ## {[p]} ∪ list_to_set l.
Proof.
  intros (l&Hs&Hel&Hdom&HF). destruct (Hnew (nodes s)) as [Hfresh Hp0].
  destruct (dlist_new_node_ok u s l new e Hfresh Hs) as (E&Hs1&Hpl).
  eexists _, _, l. split; [exact E|]. split; [done|]. simpl. split; [|split; [apply lookup_insert_eq|]].
  - eapply elements_frame; [|exact Hel]. intros a Ha. apply lookup_insert_ne. by intros <-.
  - split; [done|]. split; [done|]. rewrite dom_insert_L, Hdom. rewrite Hdom in Hfresh. set_solver.
Qed.

Lemma op_ok o F s es u :
  sequence F s es → index_fits o →
  ∃ s' u', run_op o (s, u) = Some ((spec_op o es).1, (s', u')) ∧ sequence F s' (spec_op o es).2.
Proof.
  intros Hseq Hi. destruct o as [e|e|i|i| |]; cbn [run_op spec_op fst snd].
  1-2: destruct (new_ready F s es u e Hseq) as (p&s1&l&E1&Hs1&Hel&Hp&Hpl&Hp0&Hdom&HF); rewrite (bind_Some _ _ _ _ _ E1).
  - destruct (wp_elim _ _ _ (add_tail_ok u s1 l p _ Hs1 Hp Hpl Hp0)) as ([]&[s2 u2]&E2&_&Hs2&Hsame).
    exists s2, u2. rewrite (bind_Some _ _ _ _ _ E2). split; [done|]. exists (l ++ [p]). simpl in *.
    split; [done|]. split; [|rewrite (same_dom _ _ Hsame), list_to_set_app_L; simpl; rewrite Hdom; set_solver].
    eapply elements_same; [exact Hsame|]. apply Forall2_app; [done|]. repeat constructor. by rewrite Hp.
  - destruct (wp_elim _ _ _ (add_node_ok u s1 l p _ Hs1 Hp Hpl Hp0)) as ([]&[s2 u2]&E2&_&Hs2&Hsame).
    exists s2, u2. rewrite (bind_Some _ _ _ _ _ E2). split; [done|]. exists (p :: l). simpl in *.
    split; [done|]. split; [|rewrite (same_dom _ _ Hsame), Hdom; set_solver].
    eapply elements_same; [exact Hsame|]. constructor; [by rewrite Hp|done].
  - destruct Hseq as (l&Hs&Hel&Hdom&HF). destruct (nth_ok s l i u Hs Hi) as [u' E]. rewrite (bind_Some _ _ _ _ _ E).
    rewrite (bind_Some _ _ _ _ _ (element_at_ok _ _ _ _ _ Hel (dl_nonnull _ _ Hs))).
    destruct (decide (i < length l)%nat) as [Hlt|Hge].
    + destruct (nth_split l 0 Hlt) as (l1&l2&El&Hlen). remember (nth i l 0) as a eqn:Ea. clear Ea. subst l i.
      rewrite decide_False by (intros E0; apply (dl_nonnull _ _ Hs); rewrite <- E0; apply elem_of_app; right; apply list_elem_of_here).
      pose proof (nodup_middle _ _ _ (dl_nodup _ _ Hs)) as (Ha1&Ha2&Hnd&_).
      destruct (wp_elim _ _ _ (remove_node_ok u' s l1 a l2 Hs)) as ([]&[s2 u2]&E2&_&Hs2&Hsame). simpl in *.
      assert (Hin : is_Some (nodes s2 !! a)).
      { apply elem_of_dom. rewrite (same_dom _ _ Hsame), Hdom, list_to_set_app_L. simpl. set_solver. }
      destruct (delete_node_ok u2 s2 (l1 ++ l2) a Hin ltac:(set_solver) Hs2) as [E3 Hs3].
      eexists _, _. split; [erewrite bind_Some; [reflexivity|]; by rewrite (bind_Some _ _ _ _ _ E2), E3|].
      exists (l1 ++ l2). split; [exact Hs3|]. simpl. split; [|].
      * eapply (elements_frame (nodes s2)); [intros b Hb; apply lookup_delete_ne; set_solver|].
        eapply elements_same; [exact Hsame|]. by eapply elements_delete.
      * rewrite dom_delete_L, (same_dom _ _ Hsame), Hdom, !list_to_set_app_L. rewrite list_to_set_app_L in HF. simpl in *. set_solver.
    + rewrite nth_overflow by lia. rewrite decide_True by done. exists s, u'. rewrite (bind_Some _ _ _ () _ eq_refl).
      split; [done|]. rewrite delete_past; [by exists l|]. rewrite <- (Forall2_length Hel). lia.
  - destruct Hseq as (l&Hs&Hel&Hdom&HF). destruct (nth_ok s l i u Hs Hi) as [u' E]. exists s, u'. rewrite (bind_Some _ _ _ _ _ E).
    rewrite (bind_Some _ _ _ _ _ (element_at_ok _ _ _ _ _ Hel (dl_nonnull _ _ Hs))). split; [done|]. by exists l.
  - destruct Hseq as (l&Hs&Hel&Hdom&HF). exists s, u. unfold get_num_nodes, get_list. erewrite bind_Some by reflexivity. simpl.
    rewrite (dl_num _ _ Hs), (Forall2_length Hel). split; [done|]. by exists l.
  - destruct Hseq as (l&Hs&Hel&Hdom&HF). destruct (wp_elim _ _ _ (clear_ok u s l Hs)) as ([]&[s' u']&E&_&Hs'&Hd). exists s', u'.
    rewrite (bind_Some _ _ _ _ _ E). split; [done|]. exists []. simpl in *. split; [done|]. split; [constructor|].
    split; [|set_solver]. rewrite Hd, Hdom. set_solver.
Qed.

Lemma ops_ok os : ∀ F s es u,
  sequence F s es → Forall index_fits os →
  ∃ s' u', run_ops os (s, u) = Some ((spec_ops os es).1, (s', u')) ∧ sequence F s' (spec_ops os es).2.
Proof.
  induction os as [|o os IH]; intros F s es u Hs Hi; cbn [run_ops spec_ops]; [by exists s, u|].
  apply Forall_cons_iff in Hi as [Hi1 Hi]. destruct (op_ok o F s es u Hs Hi1) as (s1&u1&E1&Hs1).
  destruct (spec_op o es) as [a es1]. destruct (IH F s1 es1 u1 Hs1 Hi) as (s2&u2&E2&Hs2).
  destruct (spec_ops os es1) as [l es2]. exists s2, u2. simpl in *.
  by rewrite (bind_Some _ _ _ _ _ E1), (bind_Some _ _ _ _ _ E2).
Qed.
End sequence.

(** ** Theorem *)

(** C19. The list refines a sequence: whatever nodes are added at either end,
    looked up or taken out by their index, counted or cleared, starting with
    an empty list, no operation touches dead memory or diverges, every answer
    is that of the sequence, and the memory holds one node per element beside
    what was there before: nothing leaks. *)
Theorem dlist_refines {T} (new : gmap Z (TDList_node T) → Z) h os u
    (Hnew : ∀ h, new h ∉ dom h ∧ new h ≠ 0) (Hindex : Forall index_fits os) :
  ∃ s u', run_ops new os (new_list h, u) = Some ((spec_ops os []).1, (s, u')) ∧
    size (nodes s) = (size h + length (spec_ops os []).2)%nat.
Proof.
  assert (H0 : sequence (dom h) (new_list h) []).
  { exists []. split; [|split; [constructor|simpl; set_solver]]. split; simpl; try done; [apply NoDup_nil_2|set_solver]. }
  destruct (ops_ok new Hnew os _ _ _ u H0 Hindex) as (s&u'&E&l&Hs&Hel&Hdom&HF). exists s, u'. split; [done|].
  rewrite <- size_dom, Hdom, size_union by done.
  rewrite size_dom, size_list_to_set by apply Hs. by rewrite (Forall2_length Hel).
Qed.

(** An allocator: the address above all that are in use. *)
Definition next_address {V} (h : gmap Z V) : Z := 1 + map_fold (λ p _ acc, Z.max p acc) 0 h.

Lemma next_address_ok {V} (h : gmap Z V) : next_address h ∉ dom h ∧ next_address h ≠ 0.
Proof.
  assert (H : (∀ p, p ∈ dom h → p < next_address h) ∧ 0 < next_address h).
  { unfold next_address. apply (map_fold_weak_ind (λ acc m, (∀ p, p ∈ dom m → p < 1 + acc) ∧ 0 < 1 + acc)).
    - split; [intros p Hp; by rewrite dom_empty_L in Hp|lia].
    - intros p x m acc _ [IH ?]. split; [|lia]. intros q Hq. rewrite dom_insert_L in Hq.
      apply elem_of_union in Hq as [->%elem_of_singleton|Hq]; [lia|]. specialize (IH q Hq). lia. }
  destruct H as [H1 H2]. split; [intros Hin; apply H1 in Hin; lia|lia].
Qed.

Lemma dlist_refines_witness :
  ∃ s u, run_ops next_address [Add_tail 5; Add_head 4; Add_tail 6; Nth 2; Remove 1; Nth 1; Remove 7; Count] (new_list ∅, 0) =
    Some ([Done; Done; Done; Element (Some 6); Element (Some 5); Element (Some 6); Element None; Number 2], (s, u)) ∧
    size (nodes s) = 2%nat.
Proof.
  destruct (dlist_refines next_address ∅ [Add_tail 5; Add_head 4; Add_tail 6; Nth 2; Remove 1; Nth 1; Remove 7; Count] 0
    next_address_ok) as (s&u&E&Hsize); [repeat constructor; simpl; lia|].
  exists s, u. split; [exact E|exact Hsize].
Defined.
