(* ===== verification/Circle.v ===== *)
(** * src/base/base_circle.cpp: the chain of I/O events of a circle.

    [CIO_event] is declared outside the repository; the model has the members
    that the code uses. *)

From S2P Require Import Prelude DLL.

Local Open Scope Z_scope.

Definition SUCCESS : Z := 0.
Definition RETRY : Z := 1.
Definition FAILURE : Z := -1.

(** ** Data; the null address is 0 *)

Record CIO_event := mk_event { mp_prev : Z; mp_next : Z; m_linked : bool; mp_connect : Z }.

Record CBase_circle := mk_circle { events : gmap Z CIO_event; mp_header : Z; m_next : Z }.

Section circle.
(** What else the program has, for the handlers. *)
Context {X : Type}.
Notation C := (M (CBase_circle * X)).

Definition get_circle {A} (f : CBase_circle → A) : C A := gets (λ s, f s.1).
Definition set_header (v : Z) : C () := modify (λ s, (mk_circle (events s.1) v (m_next s.1), s.2)).
Definition set_m_next (v : Z) : C () := modify (λ s, (mk_circle (events s.1) (mp_header s.1) v, s.2)).

(** Accesses to an event; one outside the allocated events is undefined. *)
Definition get_event (p : Z) : C CIO_event := λ s, (λ v, (v, s)) <$> events s.1 !! p.
Definition set_event (p : Z) (f : CIO_event → CIO_event) : C () := λ s,
  v ← events s.1 !! p;
  Some ((), (mk_circle (<[p := f v]> (events s.1)) (mp_header s.1) (m_next s.1), s.2)).
Definition with_prev (q : Z) (v : CIO_event) : CIO_event := mk_event q (mp_next v) (m_linked v) (mp_connect v).
Definition with_next (q : Z) (v : CIO_event) : CIO_event := mk_event (mp_prev v) q (m_linked v) (mp_connect v).
Definition with_linked (b : bool) (v : CIO_event) : CIO_event := mk_event (mp_prev v) (mp_next v) b (mp_connect v).
Definition get_prev (p : Z) : C Z := v ← get_event p; mret (mp_prev v).
Definition get_next (p : Z) : C Z := v ← get_event p; mret (mp_next v).
Definition get_connect (p : Z) : C Z := v ← get_event p; mret (mp_connect v).
Definition set_prev (p q : Z) : C () := set_event p (with_prev q).
Definition set_next (p q : Z) : C () := set_event p (with_next q).
Definition set_linked (p : Z) (b : bool) : C () := set_event p (with_linked b).

(** ** The chain *)

Definition add_event (event : Z) : C () :=
  h ← get_circle mp_header;
  if decide (h = 0) then
    set_header event;;
    set_linked event true
  else
    h ← get_circle mp_header; set_next event h;;
    h ← get_circle mp_header; set_prev h event;;
    set_header event;;
    set_linked event true.

Definition remove_event (event : Z) : C () :=
  n ← get_circle m_next;
  (if decide (n ≠ 0) then
     n ← get_circle m_next;
     if decide (n = event) then q ← get_next event; set_m_next q else mret ()
   else mret ());;
  p ← get_prev event;
  (if decide (p ≠ 0) then
     p ← get_prev event; q ← get_next event; set_next p q
   else
     q ← get_next event; set_header q);;
  q ← get_next event;
  (if decide (q ≠ 0) then
     q ← get_next event; p ← get_prev event; set_prev q p
   else mret ());;
  set_next event 0;;
  set_prev event 0;;
  set_linked event false.

(** ** The traversal *)

(** The virtual [io_process] of an event, and [connect_close] of its
    connection. *)
Context (io_process : Z → C Z) (connect_close : Z → C ()).

(** What is done with one event. *)
Definition handle_node (node : Z) : C () :=
  ret ← io_process node;
  if decide (ret = FAILURE) then c ← get_connect node; connect_close c
  else if decide (ret = RETRY) then mret ()
  else remove_event node.

Fixpoint traversal_loop (fuel : nat) (node : Z) : C () :=
  match fuel with
  | O => stuck
  | S fuel =>
      if decide (node = 0) then mret () else
      n ← get_circle m_next;
      if decide (node = n) then stuck else
      handle_node node;;
      node ← get_circle m_next;
      if decide (node = 0) then mret () else
      q ← get_next node; set_m_next q;;
      traversal_loop fuel node
  end.

Definition traversal (fuel : nat) : C Z :=
  h ← get_circle mp_header;
  set_m_next h;;
  if decide (h = 0) then mret SUCCESS else
  q ← get_next h; set_m_next q;;
  traversal_loop fuel h;;
  mret SUCCESS.
End circle.
