(* ===== verification/CircleProofs.v ===== *)
(** * src/base/base_circle.cpp: the event chain as a list. *)

From S2P Require Import Prelude DLL Circle.

Local Open Scope Z_scope.

#[export] Program Instance event_links : Links CIO_event :=
  {| prev := mp_prev; next := mp_next; link_prev := with_prev; link_next := with_next |}.
Solve All Obligations with done.

(** The chain holds the events [l]; these and no others are marked, and the
    others have no neighbours. *)
Record chain_holds (s : CBase_circle) (l : list Z) : Prop := mk_chain {
  ch_dll : dll (events s) 0 l 0;
  ch_nodup : NoDup l;
  ch_nonnull : 0 ∉ l;
  ch_header : mp_header s = first l 0;
  ch_linked : ∀ a v, events s !! a = Some v → a ∈ l → m_linked v = true;
  ch_unlinked : ∀ a v, events s !! a = Some v → a ∉ l → v = mk_event 0 0 false (mp_connect v) }.

Definition same_connects (s s' : CBase_circle) : Prop :=
  ∀ b, mp_connect <$> events s' !! b = mp_connect <$> events s !! b.

Section steps.
Context {X : Type}.
Implicit Types (s : CBase_circle) (x : X) (Q : () → CBase_circle * X → Prop).

Lemma event_prev_wp p s x v (Q : Z → CBase_circle * X → Prop) :
  events s !! p = Some v → Q (mp_prev v) (s, x) → wp (get_prev p) Q (s, x).
Proof. intros E HQ. unfold wp, get_prev, get_event, mbind, M_bind. simpl. by rewrite E. Qed.
Lemma event_next_wp p s x v (Q : Z → CBase_circle * X → Prop) :
  events s !! p = Some v → Q (mp_next v) (s, x) → wp (get_next p) Q (s, x).
Proof. intros E HQ. unfold wp, get_next, get_event, mbind, M_bind. simpl. by rewrite E. Qed.
Lemma wp_get_connect p s x v (Q : Z → CBase_circle * X → Prop) :
  events s !! p = Some v → Q (mp_connect v) (s, x) → wp (get_connect p) Q (s, x).
Proof. intros E HQ. unfold wp, get_connect, get_event, mbind, M_bind. simpl. by rewrite E. Qed.
Lemma wp_set_event p f s x v Q :
  events s !! p = Some v → Q () (mk_circle (alter f p (events s)) (mp_header s) (m_next s), x) → wp (set_event p f) Q (s, x).
Proof. intros E HQ. unfold wp, set_event. simpl. rewrite E. simpl. by rewrite (insert_alter _ _ _ f). Qed.
End steps.

Ltac ch_node := simpl; repeat first [rewrite lookup_alter_eq|rewrite lookup_alter_ne by done]; simplify_option_eq; first [eassumption|reflexivity].
Ltac ch_step :=
  lazymatch goal with
  | |- wp (mbind _ _) _ _ => apply wp_bind
  | |- wp (mret _) _ _ => apply wp_ret
  | |- wp (get_circle _) _ _ => apply wp_gets
  | |- wp (set_header _) _ _ => apply wp_modify
  | |- wp (set_m_next _) _ _ => apply wp_modify
  end; simpl.

Section chain.
Context {X : Type} (x : X).

Lemma add_event_ok s l a v :
  chain_holds s l → events s !! a = Some v → a ∉ l → a ≠ 0 →
  wp (add_event a) (λ _ σ, σ.2 = x ∧ chain_holds σ.1 (a :: l) ∧ m_next σ.1 = m_next s ∧ same_connects s σ.1) (s, x).
Proof.
  intros [Hc Hnd H0 Hh Hl Hu] Ha Hal Ha0. pose proof (Hu a v Ha Hal) as Hv. unfold add_event.
  assert (Hnd' : NoDup (a :: l)) by by apply list.NoDup_cons.
  do 2 ch_step. rewrite Hh. destruct l as [|b l]; simpl.
  - do 2 ch_step. eapply wp_set_event; [exact Ha|]. simpl. split; [done|]. split; [split; simpl; try done|split; [done|]].
    + exists (with_linked true v). rewrite lookup_alter_eq, Ha. rewrite Hv. done.
    + set_solver.
    + intros c w Hw ->%list_elem_of_singleton. rewrite lookup_alter_eq, Ha in Hw. by injection Hw as <-.
    + intros c w Hw Hin. rewrite lookup_alter_ne in Hw by set_solver. apply (Hu c); [done|set_solver].
    + intros c. simpl. destruct (decide (a = c)) as [->|Hne]; [|by rewrite lookup_alter_ne].
      rewrite lookup_alter_eq, Ha. done.
  - assert (Hb0 : b ≠ 0) by set_solver. assert (Hab : a ≠ b) by set_solver. rewrite decide_False by done.
    destruct Hc as (w&Hw&Hwp&Hwn&Hc).
    do 3 ch_step. eapply wp_set_event; [exact Ha|]. do 3 ch_step. rewrite Hh. simpl first.
    eapply wp_set_event; [simpl; rewrite lookup_alter_ne by done; exact Hw|].
    do 2 ch_step. eapply wp_set_event; [simpl; rewrite lookup_alter_ne, lookup_alter_eq by done; by rewrite Ha|]. simpl.
    apply list.NoDup_cons in Hnd as [Hbl Hnd].
    split; [done|]. split; [split; simpl; try done|split; [done|]].
    + exists (with_linked true (with_next b v)). rewrite lookup_alter_eq, lookup_alter_ne, lookup_alter_eq, Ha by done.
      split; [done|]. split; [by rewrite Hv|]. split; [done|].
      exists (with_prev a w). rewrite lookup_alter_ne, lookup_alter_eq, lookup_alter_ne, Hw by done.
      split; [done|]. split; [done|]. split; [done|].
      apply dll_alter; [set_solver|]. apply dll_alter; [done|]. apply dll_alter; [set_solver|]. done.
    + set_solver.
    + intros c z Hz Hin. destruct (decide (c = a)) as [->|Hca].
      { rewrite lookup_alter_eq in Hz. destruct (alter _ b _ !! a); [|done]. by injection Hz as <-. }
      rewrite lookup_alter_ne in Hz by done. destruct (decide (c = b)) as [->|Hcb].
      { rewrite lookup_alter_eq, lookup_alter_ne, Hw in Hz by done. injection Hz as <-. simpl. apply (Hl b); [done|set_solver]. }
      rewrite !lookup_alter_ne in Hz by done. apply (Hl c); [done|set_solver].
    + intros c z Hz Hin. rewrite !lookup_alter_ne in Hz by set_solver. apply (Hu c); [done|set_solver].
    + intros c. simpl. destruct (decide (a = c)) as [<-|Hca].
      { rewrite lookup_alter_eq, lookup_alter_ne, lookup_alter_eq, Ha by done. done. }
      rewrite lookup_alter_ne by done. destruct (decide (b = c)) as [<-|Hcb]; [|by rewrite !lookup_alter_ne].
      rewrite lookup_alter_eq, lookup_alter_ne, Hw by done. done.
Qed.

(** Taking an event out of the chain. *)
Lemma remove_event_ok s l1 a l2 :
  chain_holds s (l1 ++ a :: l2) →
  wp (remove_event a) (λ _ σ, σ.2 = x ∧ chain_holds σ.1 (l1 ++ l2) ∧
    m_next σ.1 = (if decide (m_next s = a) then first l2 0 else m_next s) ∧ same_connects s σ.1) (s, x).
Proof.
  intros [Hc Hnd H0 Hh Hl Hu]. unfold remove_event.
  pose proof (dll_relink _ _ _ _ Hc Hnd) as Hc'. pose proof (dll_middle _ _ _ _ _ _ Hc) as (v&Ha&Hp&Hx&Hc1&Hc2).
  change (mp_prev v = final 0 l1) in Hp. change (mp_next v = first l2 0) in Hx.
  pose proof Hnd as Hnd'. apply nodup_middle in Hnd' as (Ha1&Ha2&Hnd'&Hd). rewrite first_app in Hh.
  set (n' := if decide (m_next s = a) then first l2 0 else m_next s).
  assert (Ha0 : a ≠ 0) by (intros ->; apply H0, elem_of_app; right; apply list_elem_of_here).
  do 2 ch_step. apply wp_bind. apply (wp_mono _ (λ _ σ, σ = (mk_circle (events s) (mp_header s) n', x))).
  { unfold n'. destruct (decide (m_next s = 0)) as [E|E].
    - rewrite (decide_False (P := m_next s ≠ 0)) by (by intros H). rewrite decide_False by congruence. by destruct s.
    - rewrite (decide_True (P := m_next s ≠ 0)) by done. do 2 ch_step. destruct (decide (m_next s = a)) as [E2|].
      + ch_step. eapply event_next_wp; [exact Ha|]. rewrite Hx. done.
      + by destruct s. }
  intros _ σ ->.
  set (h1 := if decide (l1 = []) then events s else alter (link_next (first l2 0)) (final 0 l1) (events s)).
  assert (Hh1 : ∀ b, b ∉ l1 → h1 !! b = events s !! b).
  { intros b Hb. unfold h1. destruct (decide (l1 = [])); [done|]. apply lookup_alter_ne. intros <-.
    by destruct (final_in 0 l1) as [[? _]|?]. }
  ch_step. eapply event_prev_wp; [exact Ha|]. rewrite Hp. apply wp_bind.
  apply (wp_mono _ (λ _ σ, σ = (mk_circle h1 (first (l1 ++ l2) 0) n', x))).
  { unfold h1. destruct (final_in 0 l1) as [[-> E]|Hin].
    - rewrite E. simpl. ch_step. eapply event_next_wp; [exact Ha|]. ch_step. by rewrite Hx.
    - rewrite decide_True by (intros E; rewrite E in Hin; apply H0, elem_of_app; by left).
      rewrite decide_False by (intros E; rewrite E in Hin; by apply not_elem_of_nil in Hin).
      ch_step. eapply event_prev_wp; [exact Ha|]. ch_step. eapply event_next_wp; [exact Ha|]. rewrite Hp, Hx.
      destruct (dll_allocated _ _ _ _ _ Hc1 Hin) as [w Hw]. eapply wp_set_event; [exact Hw|]. simpl.
      rewrite Hh. destruct l1; [by apply not_elem_of_nil in Hin|done]. }
  intros _ σ ->. ch_step. eapply event_next_wp; [simpl; by rewrite Hh1|]. rewrite Hx. apply wp_bind.
  apply (wp_mono _ (λ _ σ, σ = (mk_circle (relink (events s) l1 l2) (first (l1 ++ l2) 0) n', x))).
  { unfold relink. fold h1. destruct l2 as [|c l2].
    - done.
    - assert (Hc0 : c ≠ 0) by (intros ->; apply H0, elem_of_app; right; apply list_elem_of_further; apply list_elem_of_here).
      rewrite (decide_False (P := c :: l2 = [])) by done. simpl first. rewrite decide_True by done.
      ch_step. eapply event_next_wp; [simpl; by rewrite Hh1|]. ch_step. eapply event_prev_wp; [simpl; by rewrite Hh1|].
      rewrite Hp, Hx. destruct (dll_allocated _ _ _ _ c Hc2 ltac:(apply list_elem_of_here)) as [w Hw].
      eapply wp_set_event; [simpl; rewrite Hh1; [exact Hw|]; intros Hin; by apply (Hd c Hin), list_elem_of_here|]. done. }
  intros _ σ ->. assert (Har : relink (events s) l1 l2 !! a = Some v) by by rewrite relink_other.
  ch_step. eapply wp_set_event; [exact Har|]. ch_step. eapply wp_set_event; [simpl; rewrite lookup_alter_eq, Har; reflexivity|].
  eapply wp_set_event; [simpl; rewrite !lookup_alter_eq, Har; reflexivity|]. simpl.
  assert (Hflags : ∀ b, (λ w, (m_linked w, mp_connect w)) <$> relink (events s) l1 l2 !! b = (λ w, (m_linked w, mp_connect w)) <$> events s !! b).
  { intros b. by apply relink_same. }
  assert (Hother : ∀ b w, relink (events s) l1 l2 !! b = Some w → ∃ w0, events s !! b = Some w0 ∧ m_linked w = m_linked w0 ∧ mp_connect w = mp_connect w0).
  { intros b w Hw. specialize (Hflags b). rewrite Hw in Hflags. destruct (events s !! b) as [w0|]; [|done].
    injection Hflags as -> ->. eauto. }
  split; [done|]. split; [split; simpl; try done; [| | |]|split; [done|]].
  - do 3 (apply dll_alter; [set_solver|]). done.
  - intros H. apply H0. apply elem_of_app in H as [H|H]; apply elem_of_app; [by left|right]. by apply list_elem_of_further.
  - intros b w Hw Hin. rewrite !lookup_alter_ne in Hw by set_solver. destruct (Hother b w Hw) as (w0&Hw0&->&_).
    apply (Hl b); [done|]. apply elem_of_app in Hin as [?|?]; apply elem_of_app; [by left|right; by apply list_elem_of_further].
  - intros b w Hw Hin. destruct (decide (b = a)) as [->|Hne].
    + rewrite !lookup_alter_eq, Har in Hw. injection Hw as <-. done.
    + rewrite !lookup_alter_ne in Hw by done. assert (Hb : relink (events s) l1 l2 !! b = events s !! b).
      { apply relink_other; intros ?; apply Hin, elem_of_app; auto. }
      rewrite Hb in Hw. apply (Hu b); [done|]. intros H. apply Hin. apply elem_of_app. apply elem_of_app in H as [H|H]; [auto|].
      apply elem_of_cons in H as [->|H]; [done|auto].
  - intros b. simpl. destruct (decide (b = a)) as [->|Hne]; [by rewrite !lookup_alter_eq, Har, Ha|].
    rewrite !lookup_alter_ne by done. specialize (Hflags b).
    destruct (relink (events s) l1 l2 !! b), (events s !! b); simpl in *; congruence.
Qed.
(** Taking out an event that is not in the chain: its [mp_prev] is NULL, so
    the code takes it for the first one, and the chain is dropped. *)
Lemma remove_unlinked_ok s l a v :
  chain_holds s l → events s !! a = Some v → a ∉ l → m_next s ≠ a →
  remove_event a (s, x) = Some ((), (mk_circle (events s) 0 (m_next s), x)).
Proof.
  intros [Hc Hnd H0 Hh Hl Hu] Ha Hal Hn. pose proof (Hu a v Ha Hal) as Hv.
  assert (H : wp (remove_event a) (λ _ σ, σ = (mk_circle (events s) 0 (m_next s), x)) (s, x)).
  { unfold remove_event. do 2 ch_step. apply wp_bind. apply (wp_mono _ (λ _ σ, σ = (s, x))).
    { destruct (decide (m_next s ≠ 0)); [|done]. do 2 ch_step. by rewrite decide_False. }
    intros _ σ ->. ch_step. eapply event_prev_wp; [exact Ha|]. rewrite Hv. simpl. ch_step. ch_step.
    eapply event_next_wp; [exact Ha|]. rewrite Hv. simpl. do 2 ch_step.
    eapply event_next_wp; [exact Ha|]. rewrite Hv. simpl. do 2 ch_step.
    ch_step. eapply wp_set_event; [exact Ha|]. ch_step. eapply wp_set_event; [simpl; rewrite lookup_alter_eq, Ha; reflexivity|].
    eapply wp_set_event; [simpl; rewrite !lookup_alter_eq, Ha; reflexivity|]. simpl. do 2 f_equal.
    apply map_eq. intros b. destruct (decide (a = b)) as [<-|Hne].
    - rewrite !lookup_alter_eq, Ha. by rewrite Hv.
    - by rewrite !lookup_alter_ne. }
  apply wp_elim in H as ([]&σ&E&->). done.
Qed.
End chain.
