(* ===== verification/CircleLoop.v ===== *)
(** * src/base/base_circle.cpp: setting a circle up and its main loop, which
    shares the listening socket with other circles by a lock. *)

From S2P Require Import Prelude.

Local Open Scope Z_scope.

Definition SUCCESS : Z := 0.
Definition FAILURE : Z := -1.
Definition MAX_EPOLL_FDS : Z := 4096.

(** ** Setting up *)

(** The members that the constructor and [circle_init] set; [lock] is
    [listenfd_inepoll_lock], [Some held] once it has been initialised. *)
Record setup := mk_setup { mp_epoll : bool; mp_timer : bool; mp_header : Z; m_sigstop : bool; m_valid : bool; max_sub_conns : Z; mp_svr : option Z; lock : option bool }.

(** [mp_svr] is not set by the constructor. *)
Definition new_circle : setup := mk_setup false false 0 false false 4096 None None.

(** What [pure_epoll_init] and [pure_epoll_create] answer; [new] succeeds. *)
Definition circle_init (ip_svr : Z) (epoll_init epoll_create : Z) (c : setup) : Z * setup :=
  let c := mk_setup true (mp_timer c) (mp_header c) (m_sigstop c) (m_valid c) (max_sub_conns c) (Some ip_svr) (Some false) in
  if decide (FAILURE = epoll_init) then (FAILURE, c)
  else if decide (FAILURE = epoll_create) then (FAILURE, c)
  else (SUCCESS, mk_setup true true (mp_header c) (m_sigstop c) (m_valid c) (max_sub_conns c) (mp_svr c) (lock c)).
(** What the destructor deletes. *)
Definition destroy_circle (c : setup) : bool * bool := (mp_epoll c, mp_timer c).

(** ** The loop *)









(** ** Circles of one server: the rounds of any of them in any order *)




(** ** A circle that can work *)






(** ** A circle that is shut out *)






