(* ===== verification/Connect.v ===== *)
(** * src/base/base_connect.cpp, base_connect_timer.cpp: a connection, its two
    I/O events in the chain of its circle and its timer events.

    The circle's timer and chain are the components of the same names; epoll
    and the virtual [connect_remove] are outside the repository, calls of
    them are recorded.  A connection's circle ([m_pc]) is set. *)

From S2P Require Import Prelude RbTree Timer DLL Circle.

Local Open Scope Z_scope.

Definition BC_TIMEOUT : Z := 30000.
Definition MAX_TIMER_SLOT : nat := 8.

(** ** Data *)

Record CBase_connect := mk_connect {
  m_sockfd : Z;
  m_closed : bool;
  m_rdev : Z;                        (* addresses of its I/O events *)
  m_wrev : Z;
  m_cto : addr;                      (* its idle timer *)
  m_ptarray : list (option addr);    (* timer events it owns *)
  m_active_ms : Z;
  m_refc : Z;
  m_pdelete : bool }.

Inductive action :=
  | Logout (fd : Z)                  (* circle_logout: epoll forgets the socket *)
  | Close (fd : Z)                   (* close *)
  | Connect_remove (con : Z)         (* the circle's connect_remove *)
  | Pdelete (con : Z)                (* the deletion callback *)
  | Delete_connect (con : Z).        (* delete this *)

(** The connections, the timer of their circle, whose connection an event is,
    the circle's count, and what was called. *)
Record world := mk_world {
  connects : gmap Z CBase_connect;
  mp_timer : CPure_timer;
  m_pcon : gmap addr Z;
  conns : Z;
  calls : list action }.

Notation W := (M (CBase_circle * world)).

Definition in_timer {A} (m : M CPure_timer A) : W A := λ σ,
  '(a, t) ← m (mp_timer σ.2);
  Some (a, (σ.1, mk_world (connects σ.2) t (m_pcon σ.2) (conns σ.2) (calls σ.2))).
Definition call (a : action) : W () :=
  modify (λ σ, (σ.1, mk_world (connects σ.2) (mp_timer σ.2) (m_pcon σ.2) (conns σ.2) (calls σ.2 ++ [a]))).
Definition get_con (con : Z) : W CBase_connect := λ σ, (λ c, (c, σ)) <$> connects σ.2 !! con.
Definition set_con (con : Z) (f : CBase_connect → CBase_connect) : W () := λ σ,
  c ← connects σ.2 !! con;
  Some ((), (σ.1, mk_world (<[con := f c]> (connects σ.2)) (mp_timer σ.2) (m_pcon σ.2) (conns σ.2) (calls σ.2))).
Definition with_sockfd (v : Z) (c : CBase_connect) : CBase_connect :=
  mk_connect v (m_closed c) (m_rdev c) (m_wrev c) (m_cto c) (m_ptarray c) (m_active_ms c) (m_refc c) (m_pdelete c).
Definition with_closed (v : bool) (c : CBase_connect) : CBase_connect :=
  mk_connect (m_sockfd c) v (m_rdev c) (m_wrev c) (m_cto c) (m_ptarray c) (m_active_ms c) (m_refc c) (m_pdelete c).
Definition with_slot (i : nat) (v : option addr) (c : CBase_connect) : CBase_connect :=
  mk_connect (m_sockfd c) (m_closed c) (m_rdev c) (m_wrev c) (m_cto c) (<[i := v]> (m_ptarray c)) (m_active_ms c) (m_refc c) (m_pdelete c).
Definition with_active (v : Z) (c : CBase_connect) : CBase_connect :=
  mk_connect (m_sockfd c) (m_closed c) (m_rdev c) (m_wrev c) (m_cto c) (m_ptarray c) v (m_refc c) (m_pdelete c).
Definition with_refc (v : Z) (c : CBase_connect) : CBase_connect :=
  mk_connect (m_sockfd c) (m_closed c) (m_rdev c) (m_wrev c) (m_cto c) (m_ptarray c) (m_active_ms c) v (m_pdelete c).

(** The constructor: the members, the events being constructed with it. *)
Definition new_connect (rdev wrev : Z) (cto : addr) : CBase_connect :=
  mk_connect (-1) false rdev wrev cto (replicate MAX_TIMER_SLOT None) 0 1 false.

Section connect.
Context (gettimeofday : nat → Z * Z).

(** The time, as this file computes it. *)
Definition con_msec (n : nat) : Z :=
  let '(tv_sec, tv_usec) := gettimeofday n in u64 (tv_sec * 1000 + Z.quot tv_usec 1000).
Definition get_time : W Z := in_timer (λ s,
  Some (con_msec (reads s), mk_timer (prbt s) (Timer.events s) (node_value s) (S (reads s)) (handled s))).

Definition circle_add_timer_event (i_timer : Z) (ev : addr) : W Z := in_timer (pure_add_timer gettimeofday i_timer ev).
Definition circle_delete_timer_event (ev : addr) : W Z := in_timer (pure_delete_timer ev).

(** ** Activity *)

Definition update_active (con : Z) : W () := now ← get_time; set_con con (with_active now).

Definition init_timer (con : Z) : W () :=
  update_active con;;
  c ← get_con con; _ ← circle_add_timer_event BC_TIMEOUT (m_cto c); mret ().

Definition check_timeout (con : Z) : W Z :=
  now ← get_time;
  c ← get_con con;
  let diff := s32 (now - m_active_ms c) in
  if BC_TIMEOUT <? diff then mret FAILURE
  else _ ← circle_add_timer_event BC_TIMEOUT (m_cto c); mret SUCCESS.

(** ** Closing *)

(** [for (i = 0; i < MAX_TIMER_SLOT; i++)], on [n] more rounds. *)
Fixpoint delete_slots (con : Z) (n i : nat) : W () :=
  match n with
  | O => mret ()
  | S n =>
      c ← get_con con;
      o ← lift (m_ptarray c !! i);
      (match o with
       | Some ev => in_timer (delete_event ev);; set_con con (with_slot i None)
       | None => mret ()
       end);;
      delete_slots con n (S i)
  end.
Definition remove_timer_event (con : Z) : W () :=
  c ← get_con con; _ ← circle_delete_timer_event (m_cto c);
  delete_slots con MAX_TIMER_SLOT 0.

(** [CBase_connect::remove_event]. *)
Definition remove_events (con : Z) : W () :=
  c ← get_con con; remove_event (m_rdev c);;
  c ← get_con con; remove_event (m_wrev c).

Definition close_sockfd (con : Z) : W () :=
  c ← get_con con; call (Close (m_sockfd c));; set_con con (with_sockfd 0).
Definition close_epoll_sock (con : Z) : W () :=
  c ← get_con con; call (Logout (m_sockfd c));;
  close_sockfd con.

Definition connect_close (con : Z) : W Z :=
  set_con con (with_closed true);;
  remove_timer_event con;;
  remove_events con;;
  close_epoll_sock con;;
  call (Connect_remove con);;
  modify (λ σ, (σ.1, mk_world (connects σ.2) (mp_timer σ.2) (m_pcon σ.2) (s32 (conns σ.2 - 1)) (calls σ.2)));;
  mret SUCCESS.

(** ** Reading and writing: what the system calls answer is an argument, their
    [ssize_t] becomes an [s32]; the flags are not used. *)

Definition connect_read (con ip_buf i_buf_len : Z) (read : Z → Z → Z → Z) : W Z :=
  if decide (ip_buf = 0) then mret FAILURE
  else c ← get_con con; mret (s32 (read (m_sockfd c) ip_buf i_buf_len)).
Definition connect_write (con ip_buf i_buf_len : Z) (write : Z → Z → Z → Z) : W Z :=
  if decide (ip_buf = 0) then mret FAILURE
  else c ← get_con con; mret (s32 (write (m_sockfd c) ip_buf i_buf_len)).
Definition connect_sendfile (con i_fd ip_offset i_size : Z) (sendfile : Z → Z → Z → Z → Z) : W Z :=
  c ← get_con con; mret (s32 (sendfile (m_sockfd c) i_fd ip_offset i_size)).

(** ** Reference counts; what [release] returns at a count above zero is
    indeterminate *)

Definition add_ref (con : Z) : W Z :=
  c ← get_con con; set_con con (with_refc (u32 (m_refc c + 1)));; mret (s32 (m_refc c + 1)).
Definition release (con : Z) : W (option Z) :=
  c ← get_con con; set_con con (with_refc (u32 (m_refc c - 1)));;
  let ret := s32 (m_refc c - 1) in
  if ret =? 0 then
    c ← get_con con;
    (if m_pdelete c then call (Pdelete con) else call (Delete_connect con));;
    mret (Some ret)
  else mret None.

(** ** Expiry *)

(** [CBase_connect_timer::handle_expire_timer]. *)
Definition handle_expire_timer (ev : addr) : W Z :=
  con ← (λ σ, (λ c, (c, σ)) <$> m_pcon σ.2 !! ev); check_timeout con.

(** [CPure_timer_event::handle_expire_timer_ex]. *)
Definition handle_expire_timer_ex (ev : addr) : W Z :=
  con ← (λ σ, (λ c, (c, σ)) <$> m_pcon σ.2 !! ev);
  c ← get_con con;
  (if m_closed c then _ ← connect_close con; mret () else mret ());;
  r ← handle_expire_timer ev;
  (if r =? FAILURE then _ ← connect_close con; mret () else mret ());;
  mret SUCCESS.
End connect.
