(* ===== verification/ConnectProofs.v ===== *)
(** * src/base/base_connect.cpp: closing a connection, and the idle timer. *)

From S2P Require Import Prelude RbTree Timer TimerProofs TimerTheorems DLL Circle CircleProofs Connect.

Local Open Scope Z_scope.

(** ** Symbolic execution *)

Section steps.
Implicit Types (s : CBase_circle) (w : world).

Definition put_timer (t : CPure_timer) w : world := mk_world (connects w) t (m_pcon w) (conns w) (calls w).
Definition put_con (con : Z) (c : CBase_connect) w : world :=
  mk_world (<[con := c]> (connects w)) (mp_timer w) (m_pcon w) (conns w) (calls w).
Definition log_call (a : action) w : world := mk_world (connects w) (mp_timer w) (m_pcon w) (conns w) (calls w ++ [a]).

Lemma wp_in_timer {A} (m : M CPure_timer A) s w a t (Q : A → CBase_circle * world → Prop) :
  m (mp_timer w) = Some (a, t) → Q a (s, put_timer t w) → wp (in_timer m) Q (s, w).
Proof. intros E HQ. unfold wp, in_timer. simpl. by rewrite E. Qed.
Lemma wp_get_con con s w c (Q : CBase_connect → CBase_circle * world → Prop) :
  connects w !! con = Some c → Q c (s, w) → wp (get_con con) Q (s, w).
Proof. intros E HQ. unfold wp, get_con. simpl. by rewrite E. Qed.
Lemma wp_set_con con f s w c (Q : () → CBase_circle * world → Prop) :
  connects w !! con = Some c → Q () (s, put_con con (f c) w) → wp (set_con con f) Q (s, w).
Proof. intros E HQ. unfold wp, set_con. simpl. by rewrite E. Qed.
Lemma wp_call a s w (Q : () → CBase_circle * world → Prop) : Q () (s, log_call a w) → wp (call a) Q (s, w).
Proof. done. Qed.
End steps.

(** ** Closing *)

(** The events a connection owns. *)
Definition slots (c : CBase_connect) : list addr := omap id (m_ptarray c).
Definition owned (c : CBase_connect) : gset addr := {[m_cto c]} ∪ list_to_set (slots c).

(** The timer [ts] holds [l] and knows the events of [c], which are
    different. *)
Record timer_ready (ts : CPure_timer) (l : list (addr * Z)) (c : CBase_connect) : Prop := {
  tr_holds : timer_holds ts l;
  tr_exist : owned c ⊆ dom (Timer.events ts);
  tr_nodup : NoDup (m_cto c :: slots c) }.

Definition without (K : gset addr) (l : list (addr * Z)) : list (addr * Z) := filter (λ e, e.1 ∉ K) l.

Lemma without_remove ev K l : without K (remove ev l) = without ({[ev]} ∪ K) l.
Proof. unfold without, remove. rewrite list_filter_filter. apply list_filter_iff. set_solver. Qed.

Lemma delete_slots_ok con n : ∀ i s w c l,
  connects w !! con = Some c → (i + n = length (m_ptarray c))%nat →
  timer_holds (mp_timer w) l → NoDup (omap id (drop i (m_ptarray c))) →
  list_to_set (omap id (drop i (m_ptarray c))) ⊆ dom (Timer.events (mp_timer w)) →
  wp (delete_slots con n i) (λ _ σ, σ.1 = s ∧ ∃ t,
    timer_holds t (without (list_to_set (omap id (drop i (m_ptarray c)))) l) ∧
    dom (Timer.events t) = dom (Timer.events (mp_timer w)) ∖ list_to_set (omap id (drop i (m_ptarray c))) ∧
    ∃ c', c' = mk_connect (m_sockfd c) (m_closed c) (m_rdev c) (m_wrev c) (m_cto c) (take i (m_ptarray c) ++ replicate n None)
      (m_active_ms c) (m_refc c) (m_pdelete c) ∧
    connects σ.2 = <[con := c']> (connects w) ∧ mp_timer σ.2 = t ∧ m_pcon σ.2 = m_pcon w ∧ conns σ.2 = conns w ∧ calls σ.2 = calls w) (s, w).
Proof.
  induction n as [|n IH]; intros i s w c l Hc Hlen Hl Hnd Hdom; cbn [delete_slots].
  - apply wp_ret. split; [done|]. exists (mp_timer w). rewrite drop_ge in * by lia. simpl.
    split; [unfold without; rewrite filter_all; [done|set_solver]|]. split; [set_solver|].
    exists c. rewrite take_ge by lia. rewrite app_nil_r. split; [by destruct c|]. split; [by rewrite insert_id|done].
  - destruct (lookup_lt_is_Some_2 (m_ptarray c) i) as [o Ho]; [lia|].
    rewrite (drop_S _ _ _ Ho) in *. apply wp_bind. eapply wp_get_con; [exact Hc|].
    apply wp_bind. eapply wp_lift; [exact Ho|]. apply wp_bind. destruct o as [ev|]; simpl in *.
    + apply list.NoDup_cons in Hnd as [Hev Hnd].
      assert (Hex : is_Some (Timer.events (mp_timer w) !! ev)) by (apply elem_of_dom; set_solver). destruct Hex as [e He].
      destruct (delete_event_ok _ _ _ _ Hl He) as (t1&E1&Hl1&Hd1&_).
      apply wp_bind. eapply wp_in_timer; [exact E1|]. eapply wp_set_con; [exact Hc|].
      eapply wp_mono; [apply (IH (S i) s _ (with_slot i None c) (remove ev l))|]; simpl.
      * apply lookup_insert_eq.
      * rewrite length_insert. lia.
      * done.
      * rewrite drop_insert_lt by lia. done.
      * rewrite drop_insert_lt by lia. rewrite Hd1. set_solver.
      * intros _ σ (?&t&Ht&Hdt&c'&->&Hcs&?&?&?&?). split; [done|]. exists t. rewrite drop_insert_lt in * by lia.
        rewrite without_remove in Ht. split; [done|]. split; [rewrite Hdt, Hd1; set_solver|].
        eexists. split; [reflexivity|]. split; [|done]. rewrite Hcs, insert_insert_eq. f_equal. simpl. f_equal.
        rewrite (take_S_r _ _ None) by (by rewrite list_lookup_insert_eq by lia).
        rewrite take_insert_ge by lia. by rewrite <- app_assoc.
    + apply wp_ret. eapply wp_mono; [apply (IH (S i) s w c l); [done|lia|done|done|done]|].
      intros _ σ (?&t&Ht&Hdt&c'&->&Hcs&?&?&?&?). split; [done|]. exists t. split; [done|]. split; [done|].
      eexists. split; [reflexivity|]. split; [|done]. rewrite Hcs. f_equal. f_equal.
      rewrite (take_S_r _ _ None) by done. by rewrite <- app_assoc.
Qed.

(** The chain without an event. *)
Definition chain_without (a : Z) (l : list Z) : list Z := filter (λ b, b ≠ a) l.

Lemma chain_without_app a l1 l2 : NoDup (l1 ++ a :: l2) → chain_without a (l1 ++ a :: l2) = l1 ++ l2.
Proof.
  intros H. apply nodup_middle in H as (H1&H2&_). unfold chain_without.
  rewrite list.filter_app, filter_cons_False by (by intros E). rewrite !filter_all; [done|set_solver|set_solver].
Qed.

Lemma remove_in {X} (x : X) s l a :
  chain_holds s l → a ∈ l →
  wp (remove_event a) (λ _ σ, σ.2 = x ∧ chain_holds σ.1 (chain_without a l)) (s, x).
Proof.
  intros Hs Ha. apply list_elem_of_split in Ha as (l1&l2&->).
  rewrite chain_without_app by by destruct Hs. eapply wp_mono; [by apply remove_event_ok|]. naive_solver.
Qed.

(** What closing makes of a connection. *)
Definition closed_con (c : CBase_connect) : CBase_connect :=
  mk_connect 0 true (m_rdev c) (m_wrev c) (m_cto c) (replicate MAX_TIMER_SLOT None) (m_active_ms c) (m_refc c) (m_pdelete c).

Definition close_calls (con : Z) (c : CBase_connect) : list action :=
  [Logout (m_sockfd c); Close (m_sockfd c); Connect_remove con].

(** What the world is after the close, apart from the chain. *)
Record closed_world (con : Z) (c : CBase_connect) (l : list (addr * Z)) (w w' : world) : Prop := {
  cw_connects : connects w' = <[con := closed_con c]> (connects w);
  cw_timer : timer_holds (mp_timer w') (without (owned c) l);
  cw_events : dom (Timer.events (mp_timer w')) = dom (Timer.events (mp_timer w)) ∖ list_to_set (slots c);
  cw_calls : calls w' = calls w ++ close_calls con c;
  cw_conns : conns w' = s32 (conns w - 1);
  cw_pcon : m_pcon w' = m_pcon w }.

(** The timer events go first. *)
Lemma remove_timer_event_ok con s w c l :
  connects w !! con = Some c → length (m_ptarray c) = MAX_TIMER_SLOT → timer_ready (mp_timer w) l c →
  wp (remove_timer_event con) (λ _ σ, σ.1 = s ∧
    timer_holds (mp_timer σ.2) (without (owned c) l) ∧
    dom (Timer.events (mp_timer σ.2)) = dom (Timer.events (mp_timer w)) ∖ list_to_set (slots c) ∧
    connects σ.2 = <[con := mk_connect (m_sockfd c) (m_closed c) (m_rdev c) (m_wrev c) (m_cto c)
      (replicate MAX_TIMER_SLOT None) (m_active_ms c) (m_refc c) (m_pdelete c)]> (connects w) ∧
    m_pcon σ.2 = m_pcon w ∧ conns σ.2 = conns w ∧ calls σ.2 = calls w) (s, w).
Proof.
  intros Hc Hlen [Hl Hex Hnd]. unfold remove_timer_event. apply wp_bind. eapply wp_get_con; [exact Hc|].
  assert (He : is_Some (Timer.events (mp_timer w) !! m_cto c)).
  { apply elem_of_dom, Hex. unfold owned. set_solver. }
  destruct He as [e He]. destruct (delete_ok _ _ _ _ Hl He) as (t1&E1&Hl1&[Hd1 _]&_).
  apply wp_bind. unfold circle_delete_timer_event. eapply wp_in_timer; [exact E1|].
  apply list.NoDup_cons in Hnd as [_ Hnd].
  eapply wp_mono; [apply (delete_slots_ok con MAX_TIMER_SLOT 0 s _ c (remove (m_cto c) l)); simpl; try done|].
  - rewrite Hd1. unfold owned in Hex. set_solver.
  - intros _ σ (?&t&Ht&Hdt&c'&->&Hcs&<-&?&?&?). simpl in *. split; [done|].
    rewrite without_remove in Ht. split; [done|]. split; [|done]. by rewrite Hdt, Hd1.
Qed.

(** The close, given what taking the two I/O events out does to the chain. *)
Lemma close_with con s w c l (P : CBase_circle → Prop) :
  connects w !! con = Some c → length (m_ptarray c) = MAX_TIMER_SLOT → timer_ready (mp_timer w) l c →
  (∀ w1 : world, wp (remove_event (m_rdev c)) (λ _ σ, σ.2 = w1 ∧ wp (remove_event (m_wrev c)) (λ _ σ, σ.2 = w1 ∧ P σ.1) σ) (s, w1)) →
  ∃ s' w', connect_close con (s, w) = Some (SUCCESS, (s', w')) ∧ P s' ∧ closed_world con c l w w'.
Proof.
  intros Hc Hlen Ht HP.
  assert (H : wp (connect_close con) (λ r σ, r = SUCCESS ∧ P σ.1 ∧ closed_world con c l w σ.2) (s, w)).
  { unfold connect_close. apply wp_bind. eapply wp_set_con; [exact Hc|].
    apply wp_bind. eapply wp_mono; [apply (remove_timer_event_ok con s _ (with_closed true c) l); [apply lookup_insert_eq|done|by destruct Ht]|].
    intros _ [s1 w1] (Es&Ht1&Hd1&Hc1&Hp1&Hn1&Hcl1). simpl in *. subst s1.
    assert (Hcon : connects w1 !! con = Some (mk_connect (m_sockfd c) true (m_rdev c) (m_wrev c) (m_cto c)
      (replicate MAX_TIMER_SLOT None) (m_active_ms c) (m_refc c) (m_pdelete c))) by (by rewrite Hc1, lookup_insert_eq).
    apply wp_bind. unfold remove_events. apply wp_bind. eapply wp_get_con; [exact Hcon|]. simpl.
    apply wp_bind. eapply wp_mono; [exact (HP w1)|]. intros _ [s2 w2] [Ew H2]. simpl in Ew. subst w2.
    apply wp_bind. eapply wp_get_con; [exact Hcon|]. eapply wp_mono; [exact H2|].
    intros _ [s3 w3] [Ew HP3]. simpl in Ew, HP3. subst w3.
    apply wp_bind. unfold close_epoll_sock. apply wp_bind. eapply wp_get_con; [exact Hcon|]. apply wp_bind, wp_call.
    unfold close_sockfd. apply wp_bind. eapply wp_get_con; [exact Hcon|]. apply wp_bind, wp_call. eapply wp_set_con; [exact Hcon|].
    apply wp_bind, wp_call, wp_bind, wp_modify, wp_ret. split; [done|]. split; [exact HP3|].
    split; simpl; try done.
    - rewrite Hc1, !insert_insert_eq. done.
    - rewrite Hcl1, <- !app_assoc. done.
    - by rewrite Hn1. }
  apply wp_elim in H as (r&[s' w']&E&->&Hs'&Hw'). eauto.
Qed.

Lemma connect_close_ok con s w c l lc :
  connects w !! con = Some c → length (m_ptarray c) = MAX_TIMER_SLOT → timer_ready (mp_timer w) l c →
  chain_holds s lc → m_rdev c ∈ lc → m_wrev c ∈ lc → m_rdev c ≠ m_wrev c →
  ∃ s' w', connect_close con (s, w) = Some (SUCCESS, (s', w')) ∧
    chain_holds s' (chain_without (m_wrev c) (chain_without (m_rdev c) lc)) ∧ closed_world con c l w w'.
Proof.
  intros Hc Hlen Ht Hs Hr Hw Hne. apply (close_with con s w c l); [done..|]. intros w1.
  eapply wp_mono; [by apply (remove_in w1 s lc)|]. intros _ [s2 w2] [Ew Hs2]. simpl in *. subst w2. split; [done|].
  apply (remove_in w1 s2 _ (m_wrev c) Hs2). apply list_elem_of_filter. done.
Qed.

(** Closing when one of the two events waits for nothing: the chain is gone. *)
Lemma close_unlinked_ok con s w c l lc v :
  connects w !! con = Some c → length (m_ptarray c) = MAX_TIMER_SLOT → timer_ready (mp_timer w) l c →
  chain_holds s lc → m_rdev c ∈ lc → m_wrev c ∉ lc → Circle.events s !! m_wrev c = Some v →
  m_wrev c ≠ 0 → m_next s ≠ m_wrev c →
  ∃ s' w', connect_close con (s, w) = Some (SUCCESS, (s', w')) ∧ mp_header s' = 0 ∧ closed_world con c l w w'.
Proof.
  intros Hc Hlen Ht Hs Hr Hw Hv Hw0 Hn. apply (close_with con s w c l (λ s, mp_header s = 0)); [done..|]. intros w1.
  apply list_elem_of_split in Hr as (l1&l2&->). eapply wp_mono; [by apply remove_event_ok|].
  intros _ [s2 w2] (Ew&Hs2&Hn2&Hsame). simpl in *. subst w2. split; [done|].
  assert (Hv2 : ∃ v2, Circle.events s2 !! m_wrev c = Some v2).
  { specialize (Hsame (m_wrev c)). rewrite Hv in Hsame. destruct (Circle.events s2 !! m_wrev c); [eauto|done]. }
  destruct Hv2 as [v2 Hv2]. eapply wp_intro; [apply (remove_unlinked_ok w1 s2 (l1 ++ l2) (m_wrev c) v2); try done; [set_solver|]|done].
  rewrite Hn2. destruct (decide (m_next s = m_rdev c)); [|done]. intros E.
  destruct (first_in l2 0) as [[_ E0]|Hin]; [congruence|]. rewrite E in Hin. set_solver.
Qed.
