(* ===== verification/ConnectTheorems.v ===== *)
(** * src/base: theorems about the event chain and about connections, with
    concrete circles. *)

From S2P Require Import Prelude RbTree Timer TimerProofs TimerTheorems DLL Circle CircleProofs Connect ConnectProofs.

Local Open Scope Z_scope.

(** ** The idle timer *)

Section idle.
Context (gettimeofday : nat → Z * Z).

(** How long a connection has been idle, in the code's arithmetic. *)
Definition idle (c : CBase_connect) (n : nat) : Z := s32 (con_msec gettimeofday n - m_active_ms c).

Lemma expire_ok con s w c l lc ev :
  connects w !! con = Some c → m_pcon w !! ev = Some con → m_closed c = false →
  length (m_ptarray c) = MAX_TIMER_SLOT → timer_ready (mp_timer w) l c →
  chain_holds s lc → m_rdev c ∈ lc → m_wrev c ∈ lc → m_rdev c ≠ m_wrev c →
  let n := reads (mp_timer w) in
  ∃ s' w', handle_expire_timer_ex gettimeofday ev (s, w) = Some (SUCCESS, (s', w')) ∧
    if BC_TIMEOUT <? idle c n then
      chain_holds s' (chain_without (m_wrev c) (chain_without (m_rdev c) lc)) ∧ closed_world con c l w w'
    else
      s' = s ∧ connects w' = connects w ∧ calls w' = calls w ∧ conns w' = conns w ∧
      timer_holds (mp_timer w') (spec_add gettimeofday (S n) BC_TIMEOUT (m_cto c) l).
Proof.
  intros Hc Hp Hcl Hlen Ht Hs Hr Hw Hne n.
  assert (H : wp (handle_expire_timer_ex gettimeofday ev) (λ r σ, r = SUCCESS ∧
    if BC_TIMEOUT <? idle c n then
      chain_holds σ.1 (chain_without (m_wrev c) (chain_without (m_rdev c) lc)) ∧ closed_world con c l w σ.2
    else
      σ.1 = s ∧ connects σ.2 = connects w ∧ calls σ.2 = calls w ∧ conns σ.2 = conns w ∧
      timer_holds (mp_timer σ.2) (spec_add gettimeofday (S n) BC_TIMEOUT (m_cto c) l)) (s, w)).
  { unfold handle_expire_timer_ex. apply wp_bind. unfold wp at 1. cbn [snd]. rewrite Hp. cbn [fmap option_fmap option_map].
    apply wp_bind. eapply wp_get_con; [exact Hc|]. rewrite Hcl. apply wp_bind, wp_ret, wp_bind.
    unfold handle_expire_timer. apply wp_bind. unfold wp at 1. cbn [snd]. rewrite Hp. cbn [fmap option_fmap option_map].
    unfold check_timeout. apply wp_bind. unfold get_time. eapply wp_in_timer; [reflexivity|]. fold n.
    apply wp_bind. eapply wp_get_con; [exact Hc|]. fold (idle c n).
    set (w0 := put_timer _ w). assert (Hl0 : timer_holds (mp_timer w0) l) by by eapply timer_holds_ext; [..|apply Ht].
    destruct (BC_TIMEOUT <? idle c n).
    - apply wp_ret. change (FAILURE =? FAILURE) with true. cbv iota. apply wp_bind, wp_bind.
      destruct (connect_close_ok con s w0 c l lc) as (s'&w'&E&Hs'&Hw'); try done.
      { split; [done|by destruct Ht|by destruct Ht]. }
      eapply wp_intro; [exact E|]. apply wp_ret, wp_ret. split; [done|]. split; [done|].
      destruct Hw'. by split.
    - assert (He : is_Some (Timer.events (mp_timer w0) !! m_cto c)).
      { apply elem_of_dom. simpl. apply Ht. unfold owned. set_solver. }
      destruct He as [e He]. destruct (TimerProofs.timer_add_ok gettimeofday _ l BC_TIMEOUT (m_cto c) e Hl0 He) as (t'&E&Ht'&_&_).
      apply wp_bind. unfold circle_add_timer_event. eapply wp_in_timer; [exact E|]. apply wp_ret.
      change (SUCCESS =? FAILURE) with false. cbv iota. apply wp_bind, wp_ret, wp_ret. done. }
  apply wp_elim in H as (r&[s' w']&E&->&H). exists s', w'. done.
Qed.
End idle.

(** ** Theorems *)

(** C22. When the idle timer of an open connection whose two I/O events are
    linked expires: up to 30 s after the last activity it is armed for
    another 30 s and nothing else happens; after that the connection is
    closed: all its timer events are disarmed, those in its slots deleted,
    its I/O events leave the chain, the socket leaves epoll and is closed,
    the circle is told once and counts one connection less; all other events
    and connections stay as they are. *)
Theorem idle_timeout gettimeofday con s w c l lc ev
    (Hc : connects w !! con = Some c) (Hp : m_pcon w !! ev = Some con) (Hopen : m_closed c = false)
    (Hlen : length (m_ptarray c) = MAX_TIMER_SLOT) (Ht : timer_ready (mp_timer w) l c)
    (Hs : chain_holds s lc) (Hr : m_rdev c ∈ lc) (Hw : m_wrev c ∈ lc) (Hne : m_rdev c ≠ m_wrev c) :
  let n := reads (mp_timer w) in
  ∃ s' w', handle_expire_timer_ex gettimeofday ev (s, w) = Some (SUCCESS, (s', w')) ∧
    if BC_TIMEOUT <? idle gettimeofday c n then
      chain_holds s' (chain_without (m_wrev c) (chain_without (m_rdev c) lc)) ∧ closed_world con c l w w'
    else
      s' = s ∧ connects w' = connects w ∧ calls w' = calls w ∧ conns w' = conns w ∧
      timer_holds (mp_timer w') (spec_add gettimeofday (S n) BC_TIMEOUT (m_cto c) l).
Proof. by apply expire_ok. Qed.

(** C35. Closing a connection of which only the read event waits in the chain
    drops the whole chain: the pending events of all other connections are
    forgotten. *)
Theorem close_drops_chain con s w c l lc v
    (Hc : connects w !! con = Some c) (Hlen : length (m_ptarray c) = MAX_TIMER_SLOT) (Ht : timer_ready (mp_timer w) l c)
    (Hs : chain_holds s lc) (Hr : m_rdev c ∈ lc) (Hw : m_wrev c ∉ lc) (Hv : Circle.events s !! m_wrev c = Some v)
    (Hw0 : m_wrev c ≠ 0) (Hn : m_next s ≠ m_wrev c) :
  ∃ s' w', connect_close con (s, w) = Some (SUCCESS, (s', w')) ∧ mp_header s' = 0 ∧ closed_world con c l w w'.
Proof. by eapply close_unlinked_ok. Qed.

(** ** Concrete circles *)

(** Three events in the chain and a free one. *)
Definition demo_circle : CBase_circle :=
  mk_circle {[1 := Circle.mk_event 0 2 true 7; 2 := Circle.mk_event 1 3 true 7; 3 := Circle.mk_event 2 0 true 8;
              4 := Circle.mk_event 0 0 false 8]} 1 0.

Lemma demo_chain : chain_holds demo_circle [1; 2; 3].
Proof.
  assert (Hcases : ∀ a v, events demo_circle !! a = Some v → a = 1 ∨ a = 2 ∨ a = 3 ∨ a = 4).
  { intros a v Ha. apply elem_of_dom_2 in Ha. change (dom (events demo_circle)) with (dom (events demo_circle)) in Ha.
    unfold demo_circle in Ha. cbn [events] in Ha. rewrite !dom_insert_L in Ha. set_solver. }
  split; try done.
  - repeat (eexists; split; [reflexivity|]; split; [reflexivity|]; split; [reflexivity|]). done.
  - by apply (bool_decide_unpack _).
  - set_solver.
  - intros a v Ha Hin. destruct (Hcases a v Ha) as [->|[->|[->| ->]]]; vm_compute in Ha; [by injection Ha as <-..|].
    set_solver.
  - intros a v Ha Hin. destruct (Hcases a v Ha) as [->|[->|[->| ->]]]; [set_solver..|]. vm_compute in Ha. by injection Ha as <-.
Qed.

(** A connection that was last active at 69 s. *)
Definition demo_connect (wrev : Z) : CBase_connect :=
  mk_connect 5 false 1 wrev 3%positive (replicate MAX_TIMER_SLOT None) 69000 1 false.
Definition demo_world (wrev : Z) : world :=
  mk_world {[7 := demo_connect wrev]} demo_state {[3%positive := 7]} 1 [].

Lemma demo_owned wrev : owned (demo_connect wrev) ⊆ {[2%positive; 3%positive]}.
Proof. unfold owned. simpl. set_solver. Qed.

Lemma demo_ready wrev : timer_ready demo_state [(3%positive, 99900); (2%positive, 101000)] (demo_connect wrev).
Proof.
  constructor.
  - exact (proj1 demo_state_holds).
  - rewrite (proj2 demo_state_holds). apply demo_owned.
  - apply NoDup_singleton.
Qed.

Lemma idle_timeout_witness :
  ∃ s' w', handle_expire_timer_ex demo_clock 3%positive (demo_circle, demo_world 2) = Some (SUCCESS, (s', w')) ∧
    chain_holds s' [3] ∧ calls w' = [Logout 5; Close 5; Connect_remove 7] ∧ conns w' = 0.
Proof.
  destruct (idle_timeout demo_clock 7 demo_circle (demo_world 2) (demo_connect 2) _ [1; 2; 3] 3%positive
    eq_refl eq_refl eq_refl eq_refl (demo_ready 2) demo_chain) as (s'&w'&E&H).
  - apply list_elem_of_here.
  - apply list_elem_of_further, list_elem_of_here.
  - discriminate.
  - exists s', w'. split; [exact E|].
    assert (Hidle : (BC_TIMEOUT <? idle demo_clock (demo_connect 2) (reads (mp_timer (demo_world 2)))) = true) by (vm_compute; reflexivity).
    rewrite Hidle in H. destruct H as [Hs' Hw']. split; [exact Hs'|]. split; [exact (cw_calls _ _ _ _ _ Hw')|].
    exact (cw_conns _ _ _ _ _ Hw').
Defined.

Lemma close_drops_chain_witness :
  ∃ s' w', connect_close 7 (demo_circle, demo_world 4) = Some (SUCCESS, (s', w')) ∧ mp_header s' = 0 ∧ mp_header demo_circle = 1.
Proof.
  destruct (close_drops_chain 7 demo_circle (demo_world 4) (demo_connect 4) _ [1; 2; 3] (Circle.mk_event 0 0 false 8)
    eq_refl eq_refl (demo_ready 4) demo_chain) as (s'&w'&E&Hh&_).
  - apply list_elem_of_here.
  - set_solver.
  - reflexivity.
  - discriminate.
  - discriminate.
  - exists s', w'. split; [exact E|]. split; [exact Hh|reflexivity].
Defined.
