(* ===== verification/Traversal.v ===== *)
(** * src/base/base_circle.cpp, base_connect.cpp: a traversal of the event
    chain whose handlers link and unlink events, and whose failures close
    connections. *)

From S2P Require Import Prelude RbTree Timer TimerProofs TimerTheorems DLL Circle CircleProofs Connect ConnectProofs ConnectTheorems.

Local Open Scope Z_scope.

(** ** What happens to the chain during a turn *)

Inductive act := Link (a : Z) | Unlink (a : Z).

Section acts.
Context {X : Type}.
Notation C := (M (CBase_circle * X)).

Definition do_act (c : act) : C () := match c with Link a => add_event a | Unlink a => remove_event a end.
Fixpoint do_acts (cs : list act) : C () :=
  match cs with
  | [] => mret ()
  | c :: cs => do_act c;; do_acts cs
  end.
End acts.

(** The same on lists: the chain is [d ++ r], and the part [r] is still to be
    visited.  Linking an event that is in the chain, or unlinking one that is
    not, is not a legal use of the chain. *)
Definition legal (known : gset Z) (c : act) (v : list Z * list Z) : Prop :=
  match c with
  | Link a => a ∈ known ∧ a ≠ 0 ∧ a ∉ v.1 ++ v.2
  | Unlink a => a ∈ v.1 ++ v.2
  end.
Definition spec_act (c : act) (v : list Z * list Z) : list Z * list Z :=
  match c with
  | Link a => (a :: v.1, v.2)
  | Unlink a => (chain_without a v.1, chain_without a v.2)
  end.
Fixpoint legal_acts (known : gset Z) (cs : list act) (v : list Z * list Z) : Prop :=
  match cs with
  | [] => True
  | c :: cs => legal known c v ∧ legal_acts known cs (spec_act c v)
  end.
Fixpoint spec_acts (cs : list act) (v : list Z * list Z) : list Z * list Z :=
  match cs with [] => v | c :: cs => spec_acts cs (spec_act c v) end.

(** The circle [s] shows the view [v]: [m_next] is where the rest begins. *)
Definition shows (s : CBase_circle) (v : list Z * list Z) : Prop :=
  chain_holds s (v.1 ++ v.2) ∧ m_next s = first v.2 0.

Lemma chain_without_absent a l : a ∉ l → chain_without a l = l.
Proof. intros H. unfold chain_without. apply filter_all. intros b Hb ->. done. Qed.

Lemma same_connects_dom s s' : same_connects s s' → dom (events s') = dom (events s).
Proof.
  intros H. apply set_eq. intros a. rewrite !elem_of_dom. specialize (H a).
  destruct (events s' !! a), (events s !! a); split; intros [? ?]; naive_solver.
Qed.
Lemma same_connects_trans s1 s2 s3 : same_connects s1 s2 → same_connects s2 s3 → same_connects s1 s3.
Proof. intros H1 H2 a. by rewrite H2. Qed.

Section chain.
Context {X : Type} (x : X).
Implicit Types (s : CBase_circle) (v : list Z * list Z).

(** What one act, and many, do to the circle. *)
Definition acted s v (σ : CBase_circle * X) : Prop := σ.2 = x ∧ shows σ.1 v ∧ same_connects s σ.1.

Lemma do_act_ok s c v :
  shows s v → legal (dom (events s)) c v → wp (do_act c) (λ _ σ, acted s (spec_act c v) σ) (s, x).
Proof.
  destruct v as [d r]. intros [Hs Hn] Hl. destruct c as [a|a]; simpl in *.
  - destruct Hl as (Ha&H0&Hin). apply elem_of_dom in Ha as [w Hw].
    eapply wp_mono; [by eapply (add_event_ok x)|]. intros _ σ (?&?&Hm&?). split; [done|]. split; [|done]. split; [done|].
    by rewrite Hm.
  - pose proof (ch_nodup _ _ Hs) as Hnd. apply list.NoDup_app in Hnd as Hnd'. destruct Hnd' as (_&Hdr&_).
    apply elem_of_app in Hl as [Hd|Hr].
    + pose proof (Hdr a Hd) as Har. apply list_elem_of_split in Hd as (d1&d2&->). rewrite <- app_assoc in Hs, Hnd. simpl in Hs, Hnd.
      eapply wp_mono; [by apply (remove_event_ok x)|]. intros _ σ (?&Hc&Hm&?). split; [done|]. split; [|done].
      rewrite (chain_without_absent a r Har). split; simpl.
      * rewrite chain_without_app; [by rewrite <- app_assoc|]. rewrite app_comm_cons, app_assoc in Hnd. by apply list.NoDup_app in Hnd as [? _].
      * rewrite Hm, decide_False; [done|]. rewrite Hn. intros E. destruct (first_in r 0) as [[_ E0]|?]; [|congruence].
        apply (ch_nonnull _ _ Hs), elem_of_app. right. rewrite E0 in E. subst a. apply list_elem_of_here.
    + assert (Had : a ∉ d) by (intros Hd; by apply (Hdr a)). apply list_elem_of_split in Hr as (r1&r2&->). rewrite app_assoc in Hs.
      eapply wp_mono; [by apply (remove_event_ok x)|]. intros _ σ (?&Hc&Hm&?). split; [done|]. split; [|done].
      apply list.NoDup_app in Hnd as (_&_&Hnr). rewrite (chain_without_absent a d Had), chain_without_app by done.
      split; simpl; [by rewrite app_assoc|]. rewrite Hm, Hn. destruct r1 as [|b r1]; simpl; [by rewrite decide_True|].
      rewrite decide_False; [done|]. intros ->. apply list.NoDup_cons in Hnr as [Hb _]. apply Hb, elem_of_app. right. apply list_elem_of_here.
Qed.

Lemma do_acts_ok cs : ∀ s v,
  shows s v → legal_acts (dom (events s)) cs v → wp (do_acts cs) (λ _ σ, acted s (spec_acts cs v) σ) (s, x).
Proof.
  induction cs as [|c cs IH]; intros s v Hs Hl; [by apply wp_ret|]. destruct Hl as [Hc Hl]. cbn [do_acts spec_acts].
  apply wp_bind. eapply wp_mono; [by apply do_act_ok|]. intros _ [s1 y] (Ey&Hs1&Hk1). simpl in Ey, Hs1, Hk1. subst y.
  eapply wp_mono; [apply IH; [done|by rewrite (same_connects_dom _ _ Hk1)]|]. intros _ σ (?&?&?).
  split; [done|]. split; [done|]. by eapply same_connects_trans.
Qed.
End chain.

(** ** Closing, during a traversal *)

(** The ends of a connection are its two events. *)
Definition ends (w : world) (con : Z) : option (Z * Z) := (λ c, (m_rdev c, m_wrev c)) <$> connects w !! con.

(** Each connection has timer events of its own, which the timer knows. *)
Record world_ok (w : world) : Prop := {
  wo_con con c : connects w !! con = Some c →
    length (m_ptarray c) = MAX_TIMER_SLOT ∧ m_rdev c ≠ m_wrev c ∧
    owned c ⊆ dom (Timer.events (mp_timer w)) ∧ NoDup (m_cto c :: slots c);
  wo_apart con con' c c' : con ≠ con' → connects w !! con = Some c → connects w !! con' = Some c' → owned c ## owned c';
  wo_timer : ∃ l, timer_holds (mp_timer w) l }.

Lemma slots_none n : omap id (replicate n (@None addr)) = [].
Proof. by induction n. Qed.

Lemma closed_world_ok con c l w w' :
  world_ok w → connects w !! con = Some c → closed_world con c l w w' →
  world_ok w' ∧ ∀ con', ends w' con' = ends w con'.
Proof.
  intros [Hcon Hap _] Hc [Hcs Ht Hev _ _ _].
  assert (Hown : owned (closed_con c) = {[m_cto c]}).
  { unfold owned, slots, closed_con. cbn [m_ptarray m_cto]. rewrite slots_none. set_solver. }
  assert (Hsub : owned (closed_con c) ⊆ owned c) by (rewrite Hown; unfold owned; set_solver).
  split.
  - split.
    + intros con' c'. rewrite Hcs, Hev. intros [[<- <-]|[Hne Hc']]%lookup_insert_Some.
      * destruct (Hcon con c Hc) as (Hlen&Hends&Hd&Hnd). split; [done|]. split; [done|]. split.
        -- rewrite Hown. apply list.NoDup_cons in Hnd as [Hnd _]. unfold owned in Hd. set_solver.
        -- unfold slots, closed_con. cbn [m_ptarray m_cto]. rewrite slots_none. apply NoDup_singleton.
      * destruct (Hcon con' c' Hc') as (?&?&Hd&?). split_and!; [done|done| |done].
        pose proof (Hap con con' c c' Hne Hc Hc') as Hd'. unfold owned in *. set_solver.
    + intros con1 con2 c1 c2 Hne. rewrite Hcs. intros [[<- <-]|[Hn1 H1]]%lookup_insert_Some [[<- <-]|[Hn2 H2]]%lookup_insert_Some; [done|..].
      * pose proof (Hap con con2 c c2 Hn2 Hc H2). set_solver.
      * pose proof (Hap con con1 c c1 Hn1 Hc H1). set_solver.
      * by apply (Hap con1 con2).
    + by eexists.
  - intros con'. unfold ends. rewrite Hcs. destruct (decide (con = con')) as [<-|Hne]; [by rewrite lookup_insert_eq, Hc|by rewrite lookup_insert_ne].
Qed.

Definition close_acts (e : Z * Z) : list act := [Unlink e.1; Unlink e.2].

Lemma connect_close_acts con s w v e :
  world_ok w → ends w con = Some e → shows s v → legal_acts (dom (events s)) (close_acts e) v →
  ∃ s' w', connect_close con (s, w) = Some (SUCCESS, (s', w')) ∧ acted () s (spec_acts (close_acts e) v) (s', ()) ∧
    world_ok w' ∧ ∀ con', ends w' con' = ends w con'.
Proof.
  intros Hw He Hs (Hl1&Hl2&_). unfold ends in He. destruct (connects w !! con) as [c|] eqn:Hc; [|done]. injection He as <-.
  destruct (wo_con w Hw con c Hc) as (Hlen&_&Hd&Hnd). destruct (wo_timer w Hw) as [l Hl].
  destruct (close_with con s w c l (λ s', acted () s (spec_acts (close_acts (m_rdev c, m_wrev c)) v) (s', ()))) as (s'&w'&E&Ha&Hcw);
    [done|done|by split| |].
  - intros w1. eapply wp_mono; [by apply (do_act_ok w1 s (Unlink (m_rdev c)) v)|]. intros _ [s1 w2] (Ey&Hs1&Hk1). simpl in Ey, Hs1, Hk1. subst w2.
    split; [done|]. eapply wp_mono; [apply (do_act_ok w1 s1 (Unlink (m_wrev c))); [exact Hs1|by rewrite (same_connects_dom _ _ Hk1)]|].
    intros _ [s2 w2] (Ey&Hs2&Hk2). simpl in Ey, Hs2, Hk2. subst w2. split; [done|]. split; [done|]. split; [exact Hs2|]. by eapply same_connects_trans.
  - exists s', w'. split; [done|]. split; [done|]. by apply (closed_world_ok con c l w w').
Qed.

(** ** Handlers *)

Notation W := (M (CBase_circle * (world * list Z))).

(** A handler is given by what it does to the chain, its answer, and what it
    does to the rest of the program; its turn is noted. *)
Record handlers := mk_handlers {
  script : Z → list act;
  answer : Z → Z;
  effect : Z → world → world }.

Definition io_process (H : handlers) (node : Z) : W Z :=
  modify (λ σ, (σ.1, (effect H node σ.2.1, σ.2.2 ++ [node])));;
  do_acts (script H node);;
  mret (answer H node).

(** [connect_close] of a connection, in the program that notes the turns. *)
Definition close (con : Z) : W () := λ σ,
  '(_, (s, w)) ← connect_close con (σ.1, σ.2.1); Some ((), (s, (w, σ.2.2))).

Section turns.
Context (H : handlers) (conn : Z → Z) (con_ends : Z → option (Z * Z)).

(** All that a turn does to the chain. *)
Definition turn_acts (node : Z) : list act :=
  script H node ++
    (if decide (answer H node = Circle.FAILURE) then from_option close_acts [] (con_ends (conn node))
     else if decide (answer H node = Circle.RETRY) then [] else [Unlink node]).

(** A traversal on lists: the visits and the chain it leaves; the rest of the
    program must keep its invariant and the connections their ends. *)
Inductive spec_run (known : gset Z) : list Z * list Z → list Z → list Z → Prop :=
  | run_end d : spec_run known (d, []) [] d
  | run_turn d node r visits final :
      (answer H node = Circle.FAILURE → is_Some (con_ends (conn node))) →
      legal_acts known (turn_acts node) (d ++ [node], r) →
      spec_run known (spec_acts (turn_acts node) (d ++ [node], r)) visits final →
      spec_run known (d, node :: r) (node :: visits) final.

(** The events that the turn of [node] takes out. *)
Definition unlinked (cs : list act) : gset Z := list_to_set (omap (λ c, if c is Unlink a then Some a else None) cs).
Definition kills (node : Z) : gset Z := unlinked (turn_acts node).

Lemma spec_acts_rest cs : ∀ v, (spec_acts cs v).2 = filter (λ a, a ∉ unlinked cs) v.2.
Proof.
  induction cs as [|c cs IH]; intros [d r]; simpl.
  - rewrite filter_all; [done|set_solver].
  - rewrite IH. destruct c as [a|a]; simpl; [done|]. unfold chain_without. rewrite list_filter_filter. apply list_filter_iff.
    intros b. unfold unlinked. simpl. set_solver.
Qed.

Lemma run_visits known v visits final : spec_run known v visits final → visits = visited id kills v.2.
Proof.
  induction 1 as [d|d node r visits final _ _ _ IH]; [done|]. simpl in *. rewrite visited_cons. simpl id. f_equal.
  rewrite IH, spec_acts_rest. done.
Qed.

Context (Heffect : ∀ node w, world_ok w → world_ok (effect H node w) ∧ ∀ con, ends (effect H node w) con = ends w con).

Definition good_world (w : world) : Prop := world_ok w ∧ ∀ con, ends w con = con_ends con.

Lemma handle_node_ok s w t d node r :
  shows s (d ++ [node], r) → (∀ a e, events s !! a = Some e → mp_connect e = conn a) → good_world w →
  (answer H node = Circle.FAILURE → is_Some (con_ends (conn node))) →
  legal_acts (dom (events s)) (turn_acts node) (d ++ [node], r) →
  wp (handle_node (io_process H) close node)
    (λ _ σ, shows σ.1 (spec_acts (turn_acts node) (d ++ [node], r)) ∧ same_connects s σ.1 ∧ good_world σ.2.1 ∧ σ.2.2 = t ++ [node])
    (s, (w, t)).
Proof.
  intros Hs Hcon [Hw He] Hf Hl. destruct (Heffect node w Hw) as [Hw1 He1]. set (w1 := effect H node w) in *.
  assert (Hg1 : good_world w1) by (split; [done|]; intros con; by rewrite He1). unfold turn_acts in *.
  set (rest := if decide (answer H node = Circle.FAILURE) then _ else _) in *.
  assert (Hsplit : ∀ cs v, legal_acts (dom (events s)) (cs ++ rest) v →
    legal_acts (dom (events s)) cs v ∧ legal_acts (dom (events s)) rest (spec_acts cs v) ∧ spec_acts (cs ++ rest) v = spec_acts rest (spec_acts cs v)).
  { intros cs. induction cs as [|c cs IH]; intros v Hv; [done|]. destruct Hv as [Hc Hv]. destruct (IH _ Hv) as (?&?&?). by split_and!. }
  destruct (Hsplit _ _ Hl) as (Hl1&Hl2&->). clear Hsplit Hl.
  unfold handle_node, io_process. apply wp_bind, wp_bind, wp_modify, wp_bind. simpl fst. simpl snd. fold w1.
  eapply wp_mono; [by apply (do_acts_ok (w1, t ++ [node]))|]. intros _ [s1 y] (Ey&Hs1&Hk1). simpl in Ey, Hs1, Hk1. subst y.
  rewrite <- (same_connects_dom _ _ Hk1) in Hl2. apply wp_ret.
  assert (Hnode : is_Some (events s1 !! node)).
  { apply elem_of_dom. rewrite (same_connects_dom _ _ Hk1). apply elem_of_dom. destruct Hs as [Hs _]. simpl in Hs.
    eapply dll_allocated; [apply Hs|]. apply elem_of_app. left. apply elem_of_app. right. apply list_elem_of_here. }
  unfold rest in *. destruct (decide (answer H node = Circle.FAILURE)) as [Ef|Ef].
  - destruct Hnode as [ev Hev]. apply wp_bind. eapply wp_get_connect; [exact Hev|].
    assert (Ecn : mp_connect ev = conn node).
    { specialize (Hk1 node). rewrite Hev in Hk1. simpl in Hk1. destruct (events s !! node) as [ev0|] eqn:E0; [|done].
      simpl in Hk1. injection Hk1 as ->. by apply (Hcon node ev0). }
    rewrite Ecn. destruct (Hf Ef) as [e Hce]. rewrite Hce in *. cbn [from_option] in Hl2 |- *.
    destruct (connect_close_acts (conn node) s1 w1 (spec_acts (script H node) (d ++ [node], r)) e) as (s2&w2&E&(_&Hs2&Hk2)&Hw2&He2);
      [done|by rewrite (proj2 Hg1)|exact Hs1|exact Hl2|].
    unfold wp, close. simpl. rewrite E. simpl. split; [done|]. split; [by eapply same_connects_trans|]. split; [|done].
    split; [done|]. intros con. rewrite He2. apply Hg1.
  - destruct (decide (answer H node = Circle.RETRY)); [by apply wp_ret|].
    eapply wp_mono; [apply (do_act_ok (w1, t ++ [node]) s1 (Unlink node)); [exact Hs1|apply Hl2]|].
    intros _ [s2 y] (Ey&Hs2&Hk2). simpl in Ey, Hs2, Hk2. subst y. split; [done|]. split; [by eapply same_connects_trans|done].
Qed.

Lemma traversal_loop_ok known v visits final : spec_run known v visits final →
  ∀ fuel s w t d node r rest, v = (d, node :: r) → visits = node :: rest →
    shows s (d ++ [node], r) → (∀ a e, events s !! a = Some e → mp_connect e = conn a) → good_world w → known = dom (events s) →
    (length r < fuel)%nat →
    wp (traversal_loop (io_process H) close fuel node) (λ _ σ, chain_holds σ.1 final ∧ good_world σ.2.1 ∧ σ.2.2 = t ++ visits) (s, (w, t)).
Proof.
  induction 1 as [d|d node r visits final Hf Hl Hrun IH]; intros fuel s w t d' node' r' rest [= <- <- <-] Ev Hs Hcon Hg -> Hfuel; clear Ev.
  destruct fuel as [|fuel]; [lia|]. cbn [traversal_loop]. pose proof Hs as [Hch Hn]. simpl in Hch, Hn.
  assert (Hin : node ∈ (d ++ [node]) ++ r) by (rewrite <- app_assoc; apply elem_of_app; right; apply list_elem_of_here).
  assert (H0 : node ≠ 0) by (intros ->; by apply (ch_nonnull _ _ Hch)).
  rewrite decide_False by done. apply wp_bind, wp_gets. simpl fst. rewrite Hn, decide_False.
  2: { intros E. destruct (first_in r 0) as [[_ E0]|Hr]; [congruence|]. rewrite <- E in Hr.
       pose proof (ch_nodup _ _ Hch) as Hnd. apply list.NoDup_app in Hnd as (_&Hnd&_). apply (Hnd node); [|done].
       apply elem_of_app. right. apply list_elem_of_here. }
  apply wp_bind. eapply wp_mono; [by apply handle_node_ok|].
  intros _ [s1 [w1 t1]] (Hs1&Hk1&Hg1&Et). simpl in Hs1, Hk1, Hg1, Et. subst t1.
  assert (Hcon1 : ∀ a e, events s1 !! a = Some e → mp_connect e = conn a).
  { intros a e Ha. specialize (Hk1 a). rewrite Ha in Hk1. destruct (events s !! a) as [e0|] eqn:E0; [|done].
    simpl in Hk1. injection Hk1 as ->. by apply (Hcon a e0). }
  pose proof (spec_acts_rest (turn_acts node) (d ++ [node], r)) as Hrest. simpl in Hrest.
  destruct (spec_acts (turn_acts node) (d ++ [node], r)) as [d1 r1]. simpl in Hrest.
  apply wp_bind, wp_gets. simpl fst. destruct Hs1 as [Hch1 Hn1]. simpl in Hch1, Hn1. rewrite Hn1.
  destruct r1 as [|b r1].
  - rewrite decide_True by done. apply wp_ret. inversion Hrun; subst. rewrite app_nil_r in Hch1. split; [done|]. split; [done|done].
  - simpl first. assert (Hb : b ∈ d1 ++ b :: r1) by (apply elem_of_app; right; apply list_elem_of_here).
    rewrite decide_False by (intros ->; by apply (ch_nonnull _ _ Hch1)).
    destruct (dll_middle _ _ _ _ _ _ (ch_dll _ _ Hch1)) as (ev&Hev&_&Hx&_&_). change (mp_next ev = first r1 0) in Hx.
    apply wp_bind. eapply event_next_wp; [exact Hev|]. rewrite Hx. apply wp_bind, wp_modify. simpl fst. simpl snd.
    inversion Hrun as [|? ? ? visits1 ? _ _ _]; subst.
    eapply wp_mono; [eapply (IH fuel _ w1 (t ++ [node]) d1 b r1); try done|].
    + split; [|done]. simpl. rewrite <- app_assoc. simpl. destruct Hch1. by split.
    + by rewrite <- (same_connects_dom _ _ Hk1).
    + pose proof (length_filter (λ a, a ∉ unlinked (turn_acts node)) r) as Hlen. rewrite <- Hrest in Hlen. simpl in Hlen. lia.
    + intros _ σ (?&?&Et). split; [done|]. split; [done|]. by rewrite Et, <- app_assoc.
Qed.

Lemma traversal_ok s w t l visits final fuel :
  chain_holds s l → (∀ a e, events s !! a = Some e → mp_connect e = conn a) → good_world w →
  spec_run (dom (events s)) ([], l) visits final → (length l < fuel)%nat →
  ∃ s' w', traversal (io_process H) close fuel (s, (w, t)) = Some (Circle.SUCCESS, (s', (w', t ++ visits))) ∧
    chain_holds s' final ∧ good_world w'.
Proof.
  intros Hs Hcon Hg Hrun Hfuel.
  assert (Hwp : wp (traversal (io_process H) close fuel) (λ r σ, r = Circle.SUCCESS ∧
    chain_holds σ.1 final ∧ good_world σ.2.1 ∧ σ.2.2 = t ++ visits) (s, (w, t))).
  { unfold traversal. apply wp_bind, wp_gets, wp_bind, wp_modify. simpl fst. simpl snd. rewrite (ch_header _ _ Hs).
    destruct l as [|a l]; simpl first.
    - rewrite decide_True by done. apply wp_ret. inversion Hrun; subst. rewrite app_nil_r. split; [done|]. destruct Hs. by split.
    - rewrite decide_False by (intros ->; apply (ch_nonnull _ _ Hs), list_elem_of_here).
      destruct (ch_dll _ _ Hs) as (ev&Hev&_&Hx&_). change (mp_next ev = first l 0) in Hx.
      apply wp_bind. eapply event_next_wp; [exact Hev|]. rewrite Hx. apply wp_bind, wp_modify. simpl fst. simpl snd.
      inversion Hrun as [|? ? ? visits1 ? _ _ _]; subst.
      apply wp_bind. eapply wp_mono; [eapply (traversal_loop_ok _ _ _ _ Hrun fuel _ w t [] a l); try done|].
      + split; [|done]. simpl. destruct Hs. by split.
      + simpl in Hfuel. lia.
      + intros u σ Hσ. by apply wp_ret. }
  apply wp_elim in Hwp as (r&[s' [w' t']]&E&->&Hs'&Hg'&Et). simpl in *. subst t'. by exists s', w'.
Qed.
End turns.

(** ** Theorem *)

(** C24. A traversal whose handlers link and unlink events through [add_event]
    and [remove_event], in any way that is legal, also the event whose turn is
    next, and whose failures close connections with the real [connect_close],
    ends, after at most as many turns as the chain had events; it gives each
    event that no earlier turn took out (by its handler, by a close, or by
    ending its own work) one turn, in the order of the chain, and leaves the
    chain that those acts make.  What else the handlers do must keep the
    connections and the timer in order. *)
Theorem traversal_visits H conn con_ends s w t l visits final fuel :
  chain_holds s l → (∀ a e, events s !! a = Some e → mp_connect e = conn a) → good_world con_ends w →
  (∀ node w, world_ok w → world_ok (effect H node w) ∧ ∀ con, ends (effect H node w) con = ends w con) →
  spec_run H conn con_ends (dom (events s)) ([], l) visits final → (length l < fuel)%nat →
  visits = visited id (kills H conn con_ends) l ∧
  ∃ s' w', traversal (io_process H) close fuel (s, (w, t)) = Some (Circle.SUCCESS, (s', (w', t ++ visits))) ∧
    chain_holds s' final ∧ good_world con_ends w'.
Proof.
  intros Hs Hcon Hg Heff Hrun Hf. split; [exact (run_visits H conn con_ends _ _ _ _ Hrun)|]. by eapply traversal_ok.
Qed.

(** Event 1 takes out event 2, whose turn is next, links event 4 and is kept;
    event 3 fails, which closes its connection and takes out events 3 and 4. *)
Definition demo_handlers : handlers :=
  mk_handlers (λ node, if decide (node = 1) then [Unlink 2; Link 4] else [])
    (λ node, if decide (node = 1) then Circle.RETRY else Circle.FAILURE) (λ _ w, w).
Definition demo_conn (a : Z) : Z := if decide (a = 1 ∨ a = 2) then 7 else 8.
Definition demo_failing : CBase_connect :=
  mk_connect 5 false 3 4 3%positive (replicate MAX_TIMER_SLOT None) 69000 1 false.
Definition demo_busy : world := mk_world {[8 := demo_failing]} demo_state ∅ 1 [].

Lemma demo_busy_ok : good_world (ends demo_busy) demo_busy.
Proof.
  split; [|done]. unfold demo_busy. split; cbn [connects mp_timer].
  - intros con c Hc. apply lookup_singleton_Some in Hc as [_ <-]. destruct (demo_ready 2) as [_ Hd Hnd].
    split_and!; [done|done|exact Hd|exact Hnd].
  - intros con con' c c' Hne Hc Hc'. apply lookup_singleton_Some in Hc as [<- _]. by apply lookup_singleton_Some in Hc' as [<- _].
  - destruct (demo_ready 2) as [Hl _ _]. by eexists.
Qed.

Lemma demo_run : spec_run demo_handlers demo_conn (ends demo_busy) (dom (events demo_circle)) ([], [1; 2; 3]) [1; 3] [1].
Proof.
  assert (Hin : ∀ a l, bool_decide (a ∈ l) = true → a ∈ (l : list Z)) by (intros a l; apply bool_decide_eq_true_1).
  assert (Hout : ∀ a l, bool_decide (a ∈ l) = false → a ∉ (l : list Z)) by (intros a l; apply bool_decide_eq_false_1).
  apply run_turn; [done| |].
  - simpl. split; [by apply Hin|]. split; [|done]. split; [apply elem_of_dom; by eexists|]. split; [done|]. by apply Hout.
  - change (spec_run demo_handlers demo_conn (ends demo_busy) (dom (events demo_circle)) ([4; 1], [3]) [3] [1]).
    apply run_turn; [intros _; by eexists| |apply run_end].
    split; [by apply Hin|]. split; [by apply Hin|done].
Qed.

Lemma traversal_visits_witness :
  ∃ s' w', traversal (io_process demo_handlers) close 4 (demo_circle, (demo_busy, [])) = Some (Circle.SUCCESS, (s', (w', [1; 3]))) ∧
    chain_holds s' [1] ∧ visited id (kills demo_handlers demo_conn (ends demo_busy)) [1; 2; 3] = [1; 3].
Proof.
  destruct (traversal_visits demo_handlers demo_conn (ends demo_busy) demo_circle demo_busy [] [1; 2; 3] [1; 3] [1] 4) as (Ev&s'&w'&E&Hs'&_).
  - exact demo_chain.
  - intros a e Ha. unfold demo_circle in Ha. cbn [events] in Ha.
    rewrite !lookup_insert_Some, lookup_singleton_Some in Ha. unfold demo_conn. naive_solver.
  - exact demo_busy_ok.
  - intros node w Hw. split; [exact Hw|done].
  - exact demo_run.
  - simpl. lia.
  - exists s', w'. split; [exact E|]. split; [exact Hs'|]. symmetry. exact Ev.
Defined.
