(* ===== verification/Master.v ===== *)
(** * src/process/main_proc.cpp, src/signal/p_signals.cpp: the master process
    that keeps one worker running.

    The loop of [run] is a machine whose steps interleave with the deaths of
    children and with signals.  A signal that arrives inside
    [spawn_one_process] acts as one right before or right behind it: nothing
    in there reads what the handlers set. *)

From stdpp Require Import relations.
From S2P Require Import Prelude.

Local Open Scope Z_scope.

(** ** Signals *)

Definition SIGHUP : Z := 1.
Definition SIGQUIT : Z := 3.
Definition SIGPIPE : Z := 13.
Definition SIGTERM : Z := 15.
Definition SIGCHLD : Z := 17.
Definition LIVE_SHUTDOWN_SIGNAL : Z := SIGQUIT.
Definition LIVE_TERMINATE_SIGNAL : Z := SIGTERM.
Definition LIVE_RECONFIGURE_SIGNAL : Z := SIGHUP.

Inductive handler := handle_quit | handle_reload.
Record SR_S := mk_sr { signo : Z; pf : option handler }.
Definition g_sig_reg_table : list SR_S :=
  [mk_sr LIVE_SHUTDOWN_SIGNAL None; mk_sr LIVE_TERMINATE_SIGNAL None; mk_sr LIVE_RECONFIGURE_SIGNAL None].

Inductive disposition := Default | Ignored | By_sig_handle | By_sig_chld.
Definition set_disposition (sig : Z) (d : disposition) (f : Z → disposition) : Z → disposition := λ s, if decide (s = sig) then d else f s.

(** ** The master *)

Record process := mk_process { w_pid : Z; w_channel : Z }.
Record main_proc := mk_main { reload : bool; stop : bool; work_proc : option process }.
Definition new_main_proc : main_proc := mk_main false false None.

(** Points of [run] that a signal can fall between, and the ways out: the loop
    has ended, [exit] was called, a signal has terminated the process, or it
    did something undefined. *)
Inductive pc :=
  | R_test | R_restart | R_spawn | R_clear | R_reload | R_kill | R_unreload | R_sleep | R_quit
  | Ended | Exited | Terminated | Undefined.
#[export] Instance pc_eq_dec : EqDecision pc.
Proof. solve_decision. Defined.

(** The process with its globals and signal table, its children, open sockets
    and what it has sent: [(pid, signal)].  [pending]: a SIGCHLD waits.
    [missed] is a ghost: children that were reaped at [R_clear] since the last
    spawn. *)
Record world := mk_world {
  at_pc : pc;
  self : main_proc;
  g_restart_sig : bool;
  g_reload_sig : bool;
  table : list SR_S;
  dispositions : Z → disposition;
  alive : gset Z;
  zombies : gset Z;
  pending : bool;
  sockets : gset Z;
  sent : list (Z * Z);
  missed : gset Z }.

Definition with_pc k w := mk_world k (self w) (g_restart_sig w) (g_reload_sig w) (table w) (dispositions w) (alive w) (zombies w) (pending w) (sockets w) (sent w) (missed w).
Definition with_self m w := mk_world (at_pc w) m (g_restart_sig w) (g_reload_sig w) (table w) (dispositions w) (alive w) (zombies w) (pending w) (sockets w) (sent w) (missed w).
Definition with_restart b w := mk_world (at_pc w) (self w) b (g_reload_sig w) (table w) (dispositions w) (alive w) (zombies w) (pending w) (sockets w) (sent w) (missed w).
Definition with_greload b w := mk_world (at_pc w) (self w) (g_restart_sig w) b (table w) (dispositions w) (alive w) (zombies w) (pending w) (sockets w) (sent w) (missed w).
Definition with_signals t d w := mk_world (at_pc w) (self w) (g_restart_sig w) (g_reload_sig w) t d (alive w) (zombies w) (pending w) (sockets w) (sent w) (missed w).
Definition with_children a z p w := mk_world (at_pc w) (self w) (g_restart_sig w) (g_reload_sig w) (table w) (dispositions w) a z p (sockets w) (sent w) (missed w).
Definition with_sockets s w := mk_world (at_pc w) (self w) (g_restart_sig w) (g_reload_sig w) (table w) (dispositions w) (alive w) (zombies w) (pending w) s (sent w) (missed w).
Definition with_sent l w := mk_world (at_pc w) (self w) (g_restart_sig w) (g_reload_sig w) (table w) (dispositions w) (alive w) (zombies w) (pending w) (sockets w) l (missed w).
Definition with_missed m w := mk_world (at_pc w) (self w) (g_restart_sig w) (g_reload_sig w) (table w) (dispositions w) (alive w) (zombies w) (pending w) (sockets w) (sent w) m.

Definition with_stop b m := mk_main (reload m) b (work_proc m).
Definition with_reload b m := mk_main b (stop m) (work_proc m).
Definition with_work_proc p m := mk_main (reload m) (stop m) p.

(** *** Handlers *)

Definition run_handler (h : handler) (m : main_proc) : main_proc :=
  match h with handle_quit => with_stop true m | handle_reload => with_reload true m end.

Fixpoint sig_handle (t : list SR_S) (sig : Z) (m : main_proc) : main_proc :=
  match t with
  | [] => m
  | ps :: t => if decide (signo ps = sig) then match pf ps with Some h => run_handler h m | None => m end else sig_handle t sig m
  end.

(** All children that have ended are waited for. *)
Definition sig_chld (w : world) : world :=
  let w' := with_children (alive w) ∅ (pending w) w in
  if decide (zombies w = ∅) then w'
  else with_missed (if decide (at_pc w = R_clear) then missed w ∪ zombies w else missed w) (with_restart true w').

Definition register_signal (w : world) : world :=
  let reg ps :=
    if decide (signo ps = LIVE_SHUTDOWN_SIGNAL) then mk_sr (signo ps) (Some handle_quit)
    else if decide (signo ps = LIVE_TERMINATE_SIGNAL) then mk_sr (signo ps) (Some handle_quit)
    else if decide (signo ps = LIVE_RECONFIGURE_SIGNAL) then mk_sr (signo ps) (Some handle_reload) else ps in
  with_signals (reg <$> table w)
    (set_disposition SIGPIPE Ignored (set_disposition LIVE_RECONFIGURE_SIGNAL By_sig_handle
      (set_disposition LIVE_SHUTDOWN_SIGNAL By_sig_handle (dispositions w)))) w.

(** What a signal does where [dispositions] has it; SIGCHLD and SIGPIPE do
    nothing by default, the others terminate. *)
Definition deliver (sig : Z) (w : world) : world :=
  match dispositions w sig with
  | By_sig_handle => with_self (sig_handle (table w) sig (self w)) w
  | By_sig_chld => sig_chld w
  | Ignored => w
  | Default => if decide (sig = SIGCHLD) then w else with_pc Terminated w
  end.

(** *** The worker *)

(** [process::create]: a class that has not been registered gives NULL. *)
Definition create (classes : list string) (name : string) : bool := bool_decide (name ∈ classes).

(** What socketpair and fork answer in the parent.  Without an object, storing
    the pid is undefined; a fork that fails logs the name of a configuration
    the object has not been given. *)
Definition spawn_one_process (classes : list string) (name : string) (socketpair : option (Z * Z)) (fork : option Z) (w : world) : world :=
  let created := create classes name in
  let w := with_self (with_work_proc (if created then Some (mk_process 0 0) else None) (self w)) w in
  match socketpair with
  | None => with_pc Exited w
  | Some (s0, s1) =>
      match fork with
      | None => with_pc Undefined w
      | Some pid =>
          if created then
            with_self (with_work_proc (Some (mk_process pid s0)) (self w))
              (with_sockets ({[s0]} ∪ sockets w) (with_children ({[pid]} ∪ alive w) (zombies w) (pending w) w))
          else with_pc Undefined w
      end
  end.

(** The worker in the master's own process: an object whose class is not
    registered is dereferenced all the same; what [run] of the worker does from
    here on is its own. *)
Definition run_work (classes : list string) (name : string) (w : world) : world :=
  let w := with_signals (table w) (set_disposition SIGPIPE Ignored (dispositions w)) w in
  if create classes name then with_self (with_work_proc (Some (mk_process 0 0)) (self w)) w
  else with_pc Undefined (with_self (with_work_proc None (self w)) w).

Definition send_worker (sig : Z) (w : world) : option world :=
  p ← work_proc (self w); Some (with_sent (sent w ++ [(w_pid p, sig)]) w).

Definition PROGRAM : string := "config".

(** *** One step of [run] *)

Definition start_run (w : world) : world :=
  let w := register_signal w in
  with_pc R_test (with_signals (table w) (set_disposition SIGCHLD By_sig_chld (dispositions w)) w).

Definition run_step (classes : list string) (socketpair : option (Z * Z)) (fork : option Z) (w : world) : option world :=
  match at_pc w with
  | R_test => Some (with_pc (if stop (self w) then R_quit else R_restart) w)
  | R_restart => Some (with_pc (if g_restart_sig w then R_spawn else R_reload) w)
  | R_spawn => Some (spawn_one_process classes PROGRAM socketpair fork (with_missed ∅ (with_pc R_clear w)))
  | R_clear => Some (with_restart false (with_pc R_reload w))
  | R_reload => Some (with_pc (if g_reload_sig w then R_kill else R_sleep) w)
  | R_kill => Some (match send_worker LIVE_RECONFIGURE_SIGNAL w with Some w => with_pc R_unreload w | None => with_pc Undefined w end)
  | R_unreload => Some (with_greload false (with_pc R_sleep w))
  | R_sleep => Some (with_pc R_test w)
  | R_quit => Some (match send_worker LIVE_TERMINATE_SIGNAL w with Some w => with_pc Ended w | None => with_pc Undefined w end)
  | _ => None
  end.

Definition running (k : pc) : bool := match k with Ended | Exited | Terminated | Undefined => false | _ => true end.

(** A pid that fork answers is positive and not in use. *)
Inductive step (classes : list string) : world → world → Prop :=
  | st_run w sp fk w' : (∀ pid, fk = Some pid → 0 < pid ∧ pid ∉ alive w ∪ zombies w) →
      run_step classes sp fk w = Some w' → step classes w w'
  | st_dies w pid : pid ∈ alive w → step classes w (with_children (alive w ∖ {[pid]}) (zombies w ∪ {[pid]}) true w)
  | st_chld w : running (at_pc w) = true → pending w = true →
      step classes w (deliver SIGCHLD (with_children (alive w) (zombies w) false w))
  | st_signal w sig : running (at_pc w) = true → sig ∈ [SIGHUP; SIGQUIT; SIGTERM; SIGPIPE] → step classes w (deliver sig w).

(** ** What holds in every interleaving *)

(** A master with one worker, before [run]. *)
Definition with_worker (pid sock : Z) : world :=
  mk_world R_test (mk_main false false (Some (mk_process pid sock))) false false g_sig_reg_table (λ _, Default)
    {[pid]} ∅ false {[sock]} [] ∅.

(** The worker runs, or its death is noted, or was noted where it is
    forgotten. *)
Definition watched (w : world) (pid : Z) : Prop :=
  pid ∈ alive w ∨ (pid ∈ zombies w ∧ pending w = true) ∨ (g_restart_sig w = true ∧ at_pc w ≠ R_clear) ∨ pid ∈ missed w.

Definition registered : list SR_S :=
  [mk_sr SIGQUIT (Some handle_quit); mk_sr SIGTERM (Some handle_quit); mk_sr SIGHUP (Some handle_reload)].
Definition installed : Z → disposition := dispositions (start_run (with_worker 0 0)).

Record inv (w : world) : Prop := {
  iv_table : table w = registered;
  iv_disp sig : dispositions w sig = installed sig;
  iv_zombies : zombies w = ∅ ∨ pending w = true;
  iv_reload : g_reload_sig w = false ∧ at_pc w ≠ R_kill ∧ at_pc w ≠ R_unreload;
  iv_worker : running (at_pc w) = true → sent w = [] ∧ ∃ p, work_proc (self w) = Some p ∧ watched w (w_pid p);
  iv_end : at_pc w = Ended → ∃ p, work_proc (self w) = Some p ∧ sent w = [(w_pid p, SIGTERM)];
  iv_sent x : x ∈ sent w → x.2 = SIGTERM;
  iv_quit : at_pc w = R_quit → stop (self w) = true }.

Lemma inv_start pid sock : inv (start_run (with_worker pid sock)).
Proof.
  split; simpl; try done; [by left| |by intros x ?%not_elem_of_nil].
  intros _. split; [done|]. eexists. split; [done|]. left. simpl. set_solver.
Qed.

Lemma watched_pc k w pid : k ≠ R_clear → watched w pid → watched (with_pc k w) pid.
Proof. intros Hk [?|[?|[[??]|?]]]; [by left|by right; left|by right; right; left|by do 3 right]. Qed.

Lemma inv_moves k w : inv w → running (at_pc w) = true → running k = true → k ∉ [R_clear; R_kill; R_unreload] →
  (k = R_quit → stop (self w) = true) → inv (with_pc k w).
Proof.
  intros [H1 H2 H3 (H4&H5&H6) H7 H8 H9 H10] R Rk Hk Hq. destruct (H7 R) as (Hs&p&Hp&Hw).
  split; try done; simpl.
  - repeat split; [done| |]; intros ->; set_solver.
  - intros _. split; [done|]. exists p. split; [done|]. apply watched_pc; [set_solver|done].
  - by intros ->.
Qed.

Lemma inv_halt k w : inv w → running (at_pc w) = true → running k = false → k ≠ Ended → inv (with_pc k w).
Proof.
  intros [H1 H2 H3 (H4&H5&H6) H7 H8 H9 H10] R Rk Hk.
  split; try done; simpl; [repeat split; [done| |]; by intros ->|by rewrite Rk|by intros ->].
Qed.

Lemma run_work_undefined classes name w : name ∉ classes → at_pc (run_work classes name w) = Undefined.
Proof. intros Hn. unfold run_work, create. by rewrite bool_decide_eq_false_2. Qed.

Lemma spawn_bad classes sp fk w : sp = None ∨ fk = None →
  ∃ k m, running k = false ∧ k ≠ Ended ∧ spawn_one_process classes PROGRAM sp fk w = with_pc k (with_self m w).
Proof.
  unfold spawn_one_process. intros [-> | ->]; [by exists Exited; eexists|].
  destruct sp as [[]|]; [by exists Undefined; eexists|by exists Exited; eexists].
Qed.

Lemma inv_chld w : inv w → running (at_pc w) = true → pending w = true → inv (sig_chld (with_children (alive w) (zombies w) false w)).
Proof.
  intros [H1 H2 H3 H4 H7 H8 H9 H10] R Hpe. destruct (H7 R) as (Hs&p&Hp&Hw).
  unfold sig_chld. simpl. destruct (decide (zombies w = ∅)) as [Ez|Ez].
  - split; try done; [by left|]. intros _. split; [done|]. exists p. split; [done|].
    destruct Hw as [?|[[??]|[?|?]]]; [by left|set_solver|by do 2 right; left|by do 3 right].
  - split; try done; [by left|]. intros _. split; [done|]. exists p. split; [done|]. unfold watched. simpl.
    destruct (decide (at_pc w = R_clear)) as [Ek|Ek]; [|by do 2 right; left].
    destruct Hw as [?|[[??]|[[??]|?]]]; [by left| |done|]; do 3 right; set_solver.
Qed.

Lemma inv_signal sig w : inv w → running (at_pc w) = true → sig ∈ [SIGHUP; SIGQUIT; SIGTERM; SIGPIPE] → inv (deliver sig w).
Proof.
  intros I R Hsig. pose proof I as [H1 H2 H3 H4 H7 H8 H9 H10]. destruct (H7 R) as (Hs&p&Hp&Hw). unfold deliver. rewrite H2.
  assert (Hself : ∀ m, work_proc m = work_proc (self w) → (stop (self w) = true → stop m = true) → inv (with_self m w)).
  { intros m Em Es. split; try done; simpl; [|by rewrite Em|by intros; apply Es, H10]. intros _. split; [done|]. exists p. by rewrite Em. }
  set_unfold in Hsig. destruct Hsig as [->|[->|[->|[->|[]]]]]; simpl; rewrite ?H1.
  - by apply Hself.
  - by apply Hself.
  - by apply inv_halt.
  - done.
Qed.

Section classes.
Context (classes : list string) (Hclass : PROGRAM ∈ classes).

(** A new worker is alive when the parent comes back from [fork]. *)
Lemma spawn_ok w s0 s1 pid :
  spawn_one_process classes PROGRAM (Some (s0, s1)) (Some pid) w =
  with_self (with_work_proc (Some (mk_process pid s0)) (self w))
    (with_sockets ({[s0]} ∪ sockets w) (with_children ({[pid]} ∪ alive w) (zombies w) (pending w) w)).
Proof. unfold spawn_one_process, create. rewrite bool_decide_eq_true_2 by done. by destruct w as [? [] ?]. Qed.

Lemma inv_spawn sp fk w : inv w → at_pc w = R_spawn → inv (spawn_one_process classes PROGRAM sp fk (with_missed ∅ (with_pc R_clear w))).
Proof.
  intros [H1 H2 H3 (H4&H5&H6) H7 H8 H9 H10] Ek. destruct (H7 ltac:(by rewrite Ek)) as (Hs&p&Hp&Hw).
  assert (Hcase : (sp = None ∨ fk = None) ∨ ∃ s0 s1 pid, sp = Some (s0, s1) ∧ fk = Some pid)
    by (destruct sp as [[s0 s1]|], fk as [pid|]; [by right; exists s0, s1, pid|by left; right|by do 2 left..]).
  destruct Hcase as [Hb|(s0&s1&pid&->&->)].
  - destruct (spawn_bad classes _ _ (with_missed ∅ (with_pc R_clear w)) Hb) as (k&m&Rk&Nk&->).
    split; try done; simpl; [repeat split; [done| |]; by intros ->|by rewrite Rk|by intros ->].
  - rewrite spawn_ok. split; try done. simpl. intros _. split; [done|]. eexists; split; [done|]. left. simpl. set_solver.
Qed.

Lemma inv_run w sp fk w' : inv w → run_step classes sp fk w = Some w' → inv w'.
Proof.
  intros I E. pose proof I as [H1 H2 H3 (H4&H5&H6) H7 H8 H9 H10].
  unfold run_step in E. rewrite ?H4 in E. destruct (at_pc w) eqn:Ek; try done; destruct (H7 eq_refl) as (Hs&p&Hp&Hw).
  3: injection E as <-; by apply inv_spawn.
  1,2,4,5: injection E as <-; apply inv_moves; [done|by rewrite Ek|by repeat case_match|by repeat case_match; apply (bool_decide_unpack _)|by repeat case_match].
  - injection E as <-. split; try done. simpl. intros _. split; [done|]. exists p. split; [done|].
    destruct Hw as [?|[?|[[??]|?]]]; [by left|by right; left|done|by do 3 right].
  - unfold send_worker in E. rewrite Hp in E. simpl in E. injection E as <-. split; try done; simpl; rewrite Hs; simpl.
    + intros _. by exists p.
    + set_solver.
Qed.

Lemma inv_any_step w w' : inv w → step classes w w' → inv w'.
Proof.
  intros I Hst. inversion Hst as [w1 sp fk w2 _ E|w1 pid Hin|w1 R Hpe|w1 sig R Hsig]; subst.
  - by eapply inv_run.
  - pose proof I as [H1 H2 H3 (H4&H5&H6) H7 H8 H9 H10]. split; try done; [by right|]. intros R.
    destruct (H7 R) as (Hs&p&Hp&Hw). split; [done|]. exists p. split; [done|]. unfold watched in *. simpl.
    clear -Hw. destruct (decide (w_pid p = pid)) as [->|]; [right; left; set_solver|set_solver].
  - unfold deliver. simpl. rewrite (iv_disp _ I). by apply inv_chld.
  - by apply inv_signal.
Qed.

Lemma inv_reach w w' : inv w → rtc (step classes) w w' → inv w'.
Proof. intros I. induction 1 as [|w1 w2 w3 Hs _ IH] in I |- *; [done|]. apply IH. by eapply inv_any_step. Qed.

(** *** A death that is noticed in time is made good *)

Definition fresh (pid : Z) (w : world) : Prop := 0 < pid ∧ pid ∉ alive w ∪ zombies w.
Definition replaced (pid sock : Z) (w : world) : Prop :=
  ∃ w', rtc (step classes) w w' ∧ work_proc (self w') = Some (mk_process pid sock) ∧ pid ∈ alive w'.

Lemma step_quiet w w' : run_step classes None None w = Some w' → step classes w w'.
Proof. by apply (st_run _ _ None None). Qed.

Lemma replaced_step pid sock w w' : run_step classes None None w = Some w' → replaced pid sock w' → replaced pid sock w.
Proof. intros E (v&Hv&H). exists v. split; [|done]. eapply rtc_l; [by apply step_quiet|done]. Qed.

Lemma replaced_spawn pid sock w : at_pc w = R_spawn → fresh pid w → replaced pid sock w.
Proof.
  intros Ek [Hpos Hnew]. eexists. split; [|split].
  - apply rtc_once. eapply (st_run _ _ (Some (sock, sock)) (Some pid)); [by intros ? [= <-]|]. unfold run_step. by rewrite Ek, spawn_ok.
  - done.
  - simpl. clear. set_solver.
Qed.

Lemma replaced_test pid sock w : at_pc w ∈ [R_test; R_restart] → g_restart_sig w = true → stop (self w) = false → fresh pid w → replaced pid sock w.
Proof.
  intros Hk Hr Hst Hf.
  assert (Hrestart : ∀ v, at_pc v = R_restart → g_restart_sig v = true → fresh pid v → replaced pid sock v).
  { intros v Ev Rv Fv. eapply replaced_step; [by unfold run_step; rewrite Ev, Rv|]. by apply replaced_spawn. }
  apply elem_of_cons in Hk as [Ek|Ek%list_elem_of_singleton]; [|by apply Hrestart].
  eapply replaced_step; [by unfold run_step; rewrite Ek, Hst|]. by apply Hrestart.
Qed.

Lemma replaced_running pid sock w : inv w → running (at_pc w) = true → at_pc w ≠ R_clear → g_restart_sig w = true →
  stop (self w) = false → fresh pid w → replaced pid sock w.
Proof.
  intros I R Hk Hr Hst Hf. pose proof (iv_reload w I) as (Hg&Hk1&Hk2).
  assert (Hsleep : ∀ v, at_pc v = R_sleep → g_restart_sig v = true → stop (self v) = false → fresh pid v → replaced pid sock v).
  { intros v Ev Rv Sv Fv. eapply replaced_step; [by unfold run_step; rewrite Ev|]. apply replaced_test; [by left|done..]. }
  destruct (at_pc w) eqn:Ek; try done.
  - apply replaced_test; [rewrite Ek; by left|done..].
  - apply replaced_test; [rewrite Ek; by right; left|done..].
  - by apply replaced_spawn.
  - eapply replaced_step; [by unfold run_step; rewrite Ek, Hg|]. by apply Hsleep.
  - by apply Hsleep.
  - rewrite (iv_quit w I Ek) in Hst. done.
Qed.

(** *** One that falls between [spawn_one_process] and the clearing is not *)

Definition lost (w : world) : Prop :=
  alive w = ∅ ∧ zombies w = ∅ ∧ pending w = false ∧ g_restart_sig w = false ∧ at_pc w ∉ [R_spawn; R_clear].

Lemma lost_step w w' : lost w → step classes w w' → lost w'.
Proof.
  intros (Ha&Hz&Hp&Hr&Hk) Hst. inversion Hst as [w1 sp fk w2 _ E|w1 pid Hin|w1 R Hpe|w1 sig R Hsig]; subst.
  - unfold run_step in E. rewrite Hr in E. unfold send_worker in E.
    destruct (at_pc w); try done; try (by destruct Hk; apply (bool_decide_unpack _)); injection E as <-;
      repeat case_match; simplify_option_eq; repeat split; try done; by apply (bool_decide_unpack _).
  - rewrite Ha in Hin. by apply elem_of_empty in Hin.
  - by rewrite Hp in Hpe.
  - unfold deliver, sig_chld. destruct (dispositions w sig); simpl; repeat case_match; try done; repeat split; try done; simpl. set_solver.
Qed.

Lemma lost_reach w w' : lost w → rtc (step classes) w w' → lost w'.
Proof. intros L. induction 1 as [|w1 w2 w3 Hs _ IH] in L |- *; [done|]. apply IH. by eapply lost_step. Qed.

Lemma chld_reaps w : inv w → alive (deliver SIGCHLD w) = alive w ∧ zombies (deliver SIGCHLD w) = ∅ ∧
  pending (deliver SIGCHLD w) = pending w ∧ at_pc (deliver SIGCHLD w) = at_pc w ∧ self (deliver SIGCHLD w) = self w.
Proof. intros I. unfold deliver. rewrite (iv_disp _ I). simpl. unfold sig_chld. by case_decide. Qed.

Lemma clear_loses w q : inv w → at_pc w = R_clear → alive w = {[q]} →
  ∃ w', rtc (step classes) w w' ∧ at_pc w' = R_reload ∧ self w' = self w ∧ lost w'.
Proof.
  intros I Ek Ea.
  set (w1 := with_children (alive w ∖ {[q]}) (zombies w ∪ {[q]}) true w).
  assert (S1 : step classes w w1) by (apply st_dies; rewrite Ea; by apply elem_of_singleton).
  set (w2 := deliver SIGCHLD (with_children (alive w1) (zombies w1) false w1)).
  assert (S2 : step classes w1 w2) by (apply st_chld; [by simpl; rewrite Ek|done]).
  assert (I1 : inv w1) by by eapply inv_any_step.
  assert (D : at_pc w2 = R_clear ∧ self w2 = self w ∧ alive w2 = alive w1 ∧ zombies w2 = ∅ ∧ pending w2 = false).
  { unfold w2, deliver. simpl. rewrite (iv_disp _ I). simpl. unfold sig_chld. by case_decide. }
  destruct D as (Ek2&Es2&Ea2&Ez2&Ep2).
  exists (with_restart false (with_pc R_reload w2)). split; [|split; [done|split; [done|]]].
  - eapply rtc_l; [done|]. eapply rtc_l; [done|]. apply rtc_once, step_quiet. unfold run_step. by rewrite Ek2.
  - repeat split; simpl; try done; [|by apply (bool_decide_unpack _)]. rewrite Ea2. simpl. rewrite Ea. clear. set_solver.
Qed.

(** C15. The master looks after its worker.  [run] starts with one worker and a
    registered worker class; then children die, SIGCHLD is delivered late or at
    once, and SIGHUP, SIGQUIT, SIGTERM and SIGPIPE fall between any two steps.
    In every state that can follow: a SIGHUP of the operator's is never passed
    on to the worker; while the loop runs the worker is alive, or its death is
    waiting or noted, or it was noted at the one point where it is forgotten;
    the loop ends with exactly one SIGTERM to the present worker; a noted death
    is followed by a new worker when no stop comes first; and a worker that
    dies between [spawn_one_process] and the clearing of the flag can leave the
    master in its loop for good without any child. *)
Theorem master_watches pid sock w : rtc (step classes) (start_run (with_worker pid sock)) w →
  (∀ x, x ∈ sent w → x.2 = SIGTERM) ∧
  (running (at_pc w) = true → ∃ p, work_proc (self w) = Some p ∧ watched w (w_pid p)) ∧
  (at_pc w = Ended → ∃ p, work_proc (self w) = Some p ∧ sent w = [(w_pid p, SIGTERM)]) ∧
  (running (at_pc w) = true → at_pc w ≠ R_clear → g_restart_sig w = true → stop (self w) = false →
    ∀ pid' sock', fresh pid' w → replaced pid' sock' w) ∧
  (∀ q, at_pc w = R_clear → alive w = {[q]} →
    ∃ w', rtc (step classes) w w' ∧ at_pc w' = R_reload ∧ self w' = self w ∧ ∀ w'', rtc (step classes) w' w'' → alive w'' = ∅).
Proof.
  intros Hreach. pose proof (inv_reach _ _ (inv_start pid sock) Hreach) as I. split_and!.
  - apply (iv_sent w I).
  - intros R. by destruct (iv_worker w I R).
  - apply (iv_end w I).
  - intros R Hk Hr Hs pid' sock' Hf. by apply replaced_running.
  - intros q Ek Ea. destruct (clear_loses w q I Ek Ea) as (w'&Hrt&Hk&Hs&Hl). exists w'. split_and!; [done..|].
    intros w'' Hr. by apply (lost_reach w' w'').
Qed.
End classes.

(** The worker of pid 100 dies; the death is noted, the loop spawns 101. *)
Definition started : world := start_run (with_worker 100 5).
Definition died : world := with_children (alive started ∖ {[100]}) (zombies started ∪ {[100]}) true started.
Definition noted : world := deliver SIGCHLD (with_children (alive died) (zombies died) false died).
Definition respawned : world :=
  spawn_one_process [PROGRAM] PROGRAM (Some (7, 8)) (Some 101) (with_missed ∅ (with_pc R_clear (with_pc R_spawn (with_pc R_restart noted)))).

Lemma noted_reached : rtc (step [PROGRAM]) started noted.
Proof.
  eapply rtc_l; [apply (st_dies [PROGRAM] started 100), (bool_decide_unpack _); by vm_compute|].
  apply rtc_once. exact (st_chld [PROGRAM] died eq_refl eq_refl).
Qed.

Lemma respawned_reached : rtc (step [PROGRAM]) started respawned.
Proof.
  etrans; [apply noted_reached|].
  eapply rtc_l; [by apply step_quiet|]. eapply rtc_l; [by apply step_quiet|]. apply rtc_once.
  apply (st_run _ _ (Some (7, 8)) (Some 101)); [|done]. intros ? [= <-]. by apply (bool_decide_unpack _).
Qed.

Lemma master_watches_witness :
  (running (at_pc noted) = true ∧ g_restart_sig noted = true ∧ stop (self noted) = false ∧ replaced [PROGRAM] 101 7 noted) ∧
  (at_pc respawned = R_clear ∧ work_proc (self respawned) = Some (mk_process 101 7) ∧ alive respawned = {[101]} ∧
   ∃ w', rtc (step [PROGRAM]) respawned w' ∧ at_pc w' = R_reload ∧ self w' = self respawned ∧
     ∀ w'', rtc (step [PROGRAM]) w' w'' → alive w'' = ∅).
Proof.
  assert (Hc : PROGRAM ∈ [PROGRAM]) by by left.
  pose proof (master_watches [PROGRAM] Hc 100 5 noted noted_reached) as (_&_&_&H1&_).
  pose proof (master_watches [PROGRAM] Hc 100 5 respawned respawned_reached) as (_&_&_&_&H2).
  split; split_and!; try done; [by apply H1; [..|by apply (bool_decide_unpack _)]|by apply (H2 101)].
Defined.
