(* ===== verification/Server.v ===== *)
(** * src/base/base_server.cpp: the server's socket, and its table of circles
    that threads fill.

    The table [mp_subcircles] is an array of [m_subthreads] pointers, or NULL;
    nothing in this file allocates it. *)

From stdpp Require Import relations.
From S2P Require Import Prelude.

Local Open Scope Z_scope.

Definition SUCCESS : Z := 0.
Definition FAILURE : Z := -1.

Record CBase_server := mk_server {
  mp_maincircle : Z;
  mp_subcircles : option (list Z);
  m_ismulti : bool;
  m_subthreads : Z;
  m_curthreads : Z;
  m_sockfd : Z }.

(** [m_sockfd] belongs to the base class. *)
Definition new_server (fd : Z) : CBase_server := mk_server 0 None false 0 0 fd.
(** What the destructor deletes: the main circle and the array, not what is in
    it. *)
Definition destroy (s : CBase_server) : list Z * bool :=
  (if decide (mp_maincircle s = 0) then [] else [mp_maincircle s], bool_decide (mp_subcircles s ≠ None)).

Definition with_cur (v : Z) (s : CBase_server) : CBase_server :=
  mk_server (mp_maincircle s) (mp_subcircles s) (m_ismulti s) (m_subthreads s) v (m_sockfd s).
Definition with_subcircles (l : list Z) (s : CBase_server) : CBase_server :=
  mk_server (mp_maincircle s) (Some l) (m_ismulti s) (m_subthreads s) (m_curthreads s) (m_sockfd s).
Definition with_sockfd (v : Z) (s : CBase_server) : CBase_server :=
  mk_server (mp_maincircle s) (mp_subcircles s) (m_ismulti s) (m_subthreads s) (m_curthreads s) v.

(** ** The socket; what the system calls answer is an argument *)

Definition pure_socket_setnonblock (getfl setfl : Z) : Z :=
  if decide (getfl < 0) then -1 else if decide (setfl < 0) then -1 else 0.
Definition server_sockfd_create (socket getfl setfl : Z) (s : CBase_server) : Z * CBase_server :=
  let s := with_sockfd socket s in
  if decide (socket < 0) then (FAILURE, s)
  else if decide (pure_socket_setnonblock getfl setfl = FAILURE) then (FAILURE, s) else (SUCCESS, s).
Definition server_sockfd_bind (setsockopt bind : Z) : Z :=
  if decide (setsockopt ≠ 0) then FAILURE else if decide (bind < 0) then FAILURE else SUCCESS.
Definition server_sockfd_listen (listen : Z) : Z := if decide (listen < 0) then FAILURE else SUCCESS.
(** After the last success no value is returned: [None]. *)
Definition server_init (socket getfl setfl setsockopt bind listen : Z) (s : CBase_server) : option Z * CBase_server :=
  let '(r, s) := server_sockfd_create socket getfl setfl s in
  if decide (r ≠ SUCCESS) then (Some FAILURE, s)
  else if decide (server_sockfd_bind setsockopt bind ≠ SUCCESS) then (Some FAILURE, s)
  else if decide (server_sockfd_listen listen ≠ SUCCESS) then (Some FAILURE, s) else (None, s).

(** ** The table *)

Notation B := (M CBase_server).

(** [mp_subcircles[i] = c] *)
Definition put (i c : Z) : B () := λ s,
  l ← mp_subcircles s; if decide (0 ≤ i < Z.of_nat (length l)) then Some ((), with_subcircles (<[Z.to_nat i := c]> l) s) else None.
Definition cas_cur (old new : Z) : B bool := λ s,
  if decide (m_curthreads s = old) then Some (true, with_cur new s) else Some (false, s).

(** One thread: the compare-and-swap succeeds at once. *)
Definition add_circle (ip_circle : Z) : B Z :=
  s ← get;
  if decide (ip_circle = 0) then mret FAILURE
  else if decide (mp_subcircles s = None) then mret FAILURE
  else
    let cur_threads := m_curthreads s in
    if decide (m_subthreads s ≤ cur_threads) then mret FAILURE
    else
      ok ← cas_cur (m_curthreads s) (cur_threads + 1);
      if ok : bool then put cur_threads ip_circle;; mret SUCCESS else stuck.

(** ** Threads *)

(** A call before each access to the shared counter and table: reading it,
    reading it again for the compare-and-swap, the swap itself, the store. *)
Inductive pc :=
  | Idle
  | C_read (c : Z) | C_again (c cur : Z) | C_cas (c cur old : Z) | C_store (c cur : Z).

(** [added]: the circles whose call has returned [SUCCESS]. *)
Record sys := mk_sys { shared : CBase_server; threads : list pc; added : list Z }.
Definition go (i : nat) (k : pc) (p : CBase_server) (d : list Z) (s : sys) : sys := mk_sys p (<[i := k]> (threads s)) d.

Inductive step (i : nat) : sys → sys → Prop :=
  | st_call s c : threads s !! i = Some Idle → c ≠ 0 → mp_subcircles (shared s) ≠ None →
      step i s (go i (C_read c) (shared s) (added s) s)
  | st_full s c : threads s !! i = Some (C_read c) → m_subthreads (shared s) ≤ m_curthreads (shared s) →
      step i s (go i Idle (shared s) (added s) s)
  | st_read s c : threads s !! i = Some (C_read c) → m_curthreads (shared s) < m_subthreads (shared s) →
      step i s (go i (C_again c (m_curthreads (shared s))) (shared s) (added s) s)
  | st_again s c cur : threads s !! i = Some (C_again c cur) →
      step i s (go i (C_cas c cur (m_curthreads (shared s))) (shared s) (added s) s)
  | st_cas s c cur old ok p : threads s !! i = Some (C_cas c cur old) → cas_cur old (cur + 1) (shared s) = Some (ok, p) →
      step i s (go i (if ok then C_store c cur else C_read c) p (added s) s)
  | st_store s c cur p : threads s !! i = Some (C_store c cur) → put cur c (shared s) = Some ((), p) →
      step i s (go i Idle p (c :: added s) s).
Definition any_step (s s' : sys) : Prop := ∃ i, step i s s'.

Lemma store_entry s l i c : mp_subcircles s = Some l → 0 ≤ i < Z.of_nat (length l) →
  put i c s = Some ((), with_subcircles (<[Z.to_nat i := c]> l) s).
Proof. intros E Hi. unfold put. rewrite E. cbn. by rewrite decide_True. Qed.

(** ** One call after the other *)

(** The first [length l] entries are the circles [l]. *)
Record table (s : CBase_server) (n : nat) (l : list Z) : Prop := {
  tb_size : m_subthreads s = Z.of_nat n;
  tb_cur : m_curthreads s = Z.of_nat (length l);
  tb_room : (length l ≤ n)%nat;
  tb_cells : ∃ rest, mp_subcircles s = Some (l ++ rest) ∧ (length l + length rest = n)%nat }.

Lemma add_circle_alone s n l c :
  table s n l → c ≠ 0 →
  wp (add_circle c) (λ r s', if decide (length l < n)%nat then r = SUCCESS ∧ table s' n (l ++ [c]) else r = FAILURE ∧ s' = s) s.
Proof.
  intros [H1 H2 H3 (rest&H4&H5)] Hc. unfold add_circle. apply wp_bind, wp_get. rewrite decide_False by done.
  rewrite decide_False by (by rewrite H4). cbv zeta. destruct (decide (length l < n)%nat) as [Hlt|Hge].
  - rewrite decide_False by lia. apply wp_bind. unfold wp, cas_cur. rewrite decide_True by done.
    apply wp_bind. unfold wp, put. simpl. rewrite H4. simpl. rewrite H2, length_app. rewrite decide_True by lia.
    split; [done|]. destruct rest as [|x rest]; [simpl in H5; lia|]. simpl in H5.
    split; simpl; rewrite ?length_app; simpl; [done|lia|lia|]. exists rest. rewrite Nat2Z.id.
    split; [|lia]. f_equal. rewrite <- app_assoc. simpl. by rewrite insert_app_r_alt, Nat.sub_diag.
  - rewrite decide_True by lia. apply wp_ret. done.
Qed.

(** ** Calls that overlap *)

Section threads.
Context (n : nat).

Definition thread_ok (k : pc) : Prop :=
  match k with
  | C_again _ cur | C_cas _ cur _ | C_store _ cur => 0 ≤ cur < Z.of_nat n
  | _ => True
  end.

Record inv (s : sys) : Prop := {
  iv_size : m_subthreads (shared s) = Z.of_nat n;
  iv_cur : 0 ≤ m_curthreads (shared s) ≤ Z.of_nat n;
  iv_array : ∃ l, mp_subcircles (shared s) = Some l ∧ length l = n;
  iv_threads i k : threads s !! i = Some k → thread_ok k }.

Lemma inv_go s i k p d :
  inv s → thread_ok k → m_subthreads p = Z.of_nat n → 0 ≤ m_curthreads p ≤ Z.of_nat n →
  (∃ l, mp_subcircles p = Some l ∧ length l = n) → inv (go i k p d s).
Proof.
  intros [_ _ _ Ht] Hk H1 H2 H3. split; simpl; [done..|]. intros j a Hj.
  apply list_lookup_insert_Some in Hj as [(_&<-&_)|[_ Hj]]; [done|by eapply Ht].
Qed.

Lemma register_step i s s' : inv s → step i s s' → inv s'.
Proof.
  intros Hinv Hst. pose proof Hinv as [H1 H2 (l&H3&H4) Ht].
  destruct Hst as [s c Hi Hc Hn|s c Hi Hf|s c Hi Hf|s c cur Hi|s c cur old ok p Hi E|s c cur p Hi E]; pose proof (Ht _ _ Hi) as Hk; simpl in Hk.
  - apply inv_go; eauto; done.
  - apply inv_go; eauto; done.
  - apply inv_go; eauto; simpl; lia.
  - apply inv_go; eauto.
  - unfold cas_cur in E. destruct (decide (m_curthreads (shared s) = old)); injection E as <- <-; apply inv_go; eauto; simpl; done || lia.
  - unfold put in E. rewrite H3 in E. simpl in E. destruct (decide _); [|done]. injection E as <-.
    apply inv_go; eauto; [done|]. eexists. split; [done|]. by rewrite length_insert.
Qed.

(** Every store is inside the array, so no thread is ever stuck. *)
Lemma register_progress s i k : inv s → threads s !! i = Some k → k ≠ Idle → ∃ s', step i s s'.
Proof.
  intros [H1 H2 (l&H3&H4) Ht] Hi Hk. destruct k as [|c|c cur|c cur old|c cur]; [done|..].
  - destruct (decide (m_subthreads (shared s) ≤ m_curthreads (shared s))); eexists; [by eapply st_full|eapply st_read; [done|lia]].
  - eexists. by eapply st_again.
  - destruct (cas_cur old (cur + 1) (shared s)) as [[ok p]|] eqn:E; [eexists; by eapply st_cas|].
    unfold cas_cur in E. by destruct (decide _).
  - eexists. eapply st_store; [done|]. pose proof (Ht _ _ Hi) as Hc. simpl in Hc. apply (store_entry _ l); [done|lia].
Qed.
End threads.

(** Calls one after the other. *)
Fixpoint add_circles (cs : list Z) : B () := match cs with [] => mret () | c :: cs => _ ← add_circle c; add_circles cs end.
Lemma add_circles_ok n cs : ∀ s l, table s n l → (∀ c, c ∈ cs → c ≠ 0) → wp (add_circles cs) (λ _ s', table s' n (take n (l ++ cs))) s.
Proof.
  induction cs as [|c cs IH]; intros s l Ht Hc; cbn [add_circles].
  - apply wp_ret. rewrite app_nil_r, take_ge; [done|apply (tb_room _ _ _ Ht)].
  - apply wp_bind. eapply wp_mono; [eapply add_circle_alone; [exact Ht|by apply Hc, list_elem_of_here]|].
    assert (Hcs : ∀ c', c' ∈ cs → c' ≠ 0) by (intros c' Hc'; by apply Hc, list_elem_of_further).
    intros r s' Hr. pose proof (tb_room _ _ _ Ht). destruct (decide (length l < n)%nat).
    + destruct Hr as [_ Ht']. specialize (IH s' _ Ht' Hcs). by rewrite <- app_assoc in IH.
    + destruct Hr as [_ ->]. specialize (IH s l Ht Hcs). rewrite take_app_ge in IH |- * by lia.
      by replace (n - length l)%nat with 0%nat in IH |- * by lia.
Qed.

Definition empty_table (n : nat) : CBase_server := mk_server 0 (Some (replicate n 0)) true (Z.of_nat n) 0 0.

(** Both calls read the counter at 0; the second one reads it again when it is
    1 and swaps that for 1. *)
Lemma overtaken n c d : (0 < n)%nat → c ≠ 0 → d ≠ 0 →
  rtc any_step (mk_sys (empty_table n) [Idle; Idle] [])
    (mk_sys (mk_server 0 (Some (d :: replicate (n - 1) 0)) true (Z.of_nat n) 1 0) [Idle; Idle] [d; c]).
Proof.
  intros Hn Hc Hd. destruct n as [|n]; [lia|]. set (e := empty_table (S n)).
  assert (Hlt : m_curthreads e < m_subthreads e) by (simpl; lia).
  set (e1 := with_cur 1 e). set (e2 := with_subcircles (c :: replicate n 0) e1).
  eapply rtc_l; [exists 0%nat; by apply (st_call 0 (mk_sys e [Idle; Idle] []) c)|].
  eapply rtc_l; [exists 1%nat; by apply (st_call 1 (mk_sys e [C_read c; Idle] []) d)|].
  eapply rtc_l; [exists 0%nat; by apply (st_read 0 (mk_sys e [C_read c; C_read d] []) c)|].
  eapply rtc_l; [exists 1%nat; by apply (st_read 1 (mk_sys e [C_again c 0; C_read d] []) d)|].
  eapply rtc_l; [exists 0%nat; by apply (st_again 0 (mk_sys e [C_again c 0; C_again d 0] []) c 0)|].
  eapply rtc_l; [exists 0%nat; by apply (st_cas 0 (mk_sys e [C_cas c 0 0; C_again d 0] []) c 0 0 true e1)|].
  eapply rtc_l; [exists 1%nat; by apply (st_again 1 (mk_sys e1 [C_store c 0; C_again d 0] []) d 0)|].
  eapply rtc_l; [exists 1%nat; by apply (st_cas 1 (mk_sys e1 [C_store c 0; C_cas d 0 1] []) d 0 1 true e1)|].
  eapply rtc_l; [exists 0%nat; apply (st_store 0 (mk_sys e1 [C_store c 0; C_store d 0] []) c 0 e2); [done|]|].
  { apply (store_entry e1 (replicate (S n) 0)); [done|simpl; lia]. }
  eapply rtc_l; [exists 1%nat; eapply (st_store 1 (mk_sys e2 [Idle; C_store d 0] [c]) d 0); [done|]|].
  { apply (store_entry e2 (c :: replicate n 0)); [done|simpl; lia]. }
  simpl. by rewrite Nat.sub_0_r.
Qed.

(** C25. Registering circles in a table of [n]: calls one after the other fill
    it in order, as many as fit; calls that overlap never store outside of it
    and never get stuck; but two of them can both report success and leave one
    circle only, because the compare-and-swap compares with a counter that it
    has read again. *)
Theorem add_circle_table n :
  (∀ cs, (∀ c, c ∈ cs → c ≠ 0) → ∃ s, add_circles cs (empty_table n) = Some ((), s) ∧ table s n (take n cs)) ∧
  (∀ k s, rtc any_step (mk_sys (empty_table n) (replicate k Idle) []) s →
    0 ≤ m_curthreads (shared s) ≤ Z.of_nat n ∧ ∀ i a, threads s !! i = Some a → a ≠ Idle → ∃ s', step i s s') ∧
  (∀ c d, (0 < n)%nat → c ≠ 0 → d ≠ 0 → c ≠ d → ∃ s l, rtc any_step (mk_sys (empty_table n) [Idle; Idle] []) s ∧
    added s = [d; c] ∧ threads s = [Idle; Idle] ∧ mp_subcircles (shared s) = Some l ∧ c ∉ l).
Proof.
  split; [|split].
  - intros cs Hcs. assert (Ht : table (empty_table n) n []).
    { split; simpl; [done|done|lia|]. exists (replicate n 0). split; [done|]. simpl. by rewrite length_replicate. }
    pose proof (add_circles_ok n cs _ [] Ht Hcs) as Hw. apply wp_elim in Hw as ([]&s&E&Hs). by exists s.
  - intros k s Hs. assert (Hinv : inv n s).
    { assert (H0 : inv n (mk_sys (empty_table n) (replicate k Idle) [])).
      { split; simpl; [done|lia|eexists; split; [done|apply length_replicate]|]. by intros i a [-> _]%lookup_replicate. }
      revert H0. induction Hs as [|s s1 s2 [i Hst] _ IH]; [done|]. intros H0. by eapply IH, register_step. }
    split; [apply Hinv|]. intros i a. by apply (register_progress n).
  - intros c d Hn Hc Hd Hne. eexists _, _. split; [by apply (overtaken n c d)|]. simpl. split_and!; [done..|].
    rewrite not_elem_of_cons. split; [done|]. by intros [? _]%elem_of_replicate.
Qed.

Lemma add_circle_table_witness :
  (∃ s, add_circles [10; 20; 30] (empty_table 2) = Some ((), s) ∧ table s 2 [10; 20]) ∧
  ∃ s l, rtc any_step (mk_sys (empty_table 2) [Idle; Idle] []) s ∧ added s = [20; 10] ∧ threads s = [Idle; Idle] ∧
    mp_subcircles (shared s) = Some l ∧ 10 ∉ l.
Proof.
  destruct (add_circle_table 2) as (H1&_&H3). split.
  - apply (H1 [10; 20; 30]). intros c Hc. rewrite !elem_of_cons in Hc. destruct Hc as [->|[->|[->|?%not_elem_of_nil]]]; done.
  - apply (H3 10 20); [lia|done|done|done].
Defined.
