(* ===== verification/Ftp.v ===== *)
(** * src/ftp/ftp_client.cpp: the FTP client.

    A [char *] is the text before its NUL; an access outside a buffer is
    [stuck], as is the use of an integer that [sscanf] has not written. *)

From stdpp Require Import pretty.
From S2P Require Import Prelude PString.

Local Open Scope Z_scope.

(** ** The system *)

(** What is still to come from a descriptor: the answers of [recv] or [read]
    ([None] is -1, the empty text is the end), and those of [send] or [write].
    When the first are used up the timeout strikes, when the second are,
    everything is taken. *)
Record descr := mk_descr { d_in : list (option (list ascii)); d_takes : list Z }.

(** One [socket_connect]: what [socket], the first [setsockopt],
    [gethostbyname] and [connect] answer. *)
Record dial := mk_dial { dl_socket : option Z; dl_tos : bool; dl_host : bool; dl_connect : bool; dl_descr : descr }.

Inductive event :=
  | Dial (host : list ascii) (port : Z)
  | Open (path : list ascii)
  | Out (fd : Z) (text : list ascii)
  | Close (fd : Z).

Record world := mk_world {
  dials : list dial;
  opens : list (option (Z * descr));
  fds : gmap Z descr;
  trace : list event }.

Notation F := (M world).

Definition with_fds m w := mk_world (dials w) (opens w) m (trace w).
Definition emit (e : event) : F () := modify (λ w, mk_world (dials w) (opens w) (fds w) (trace w ++ [e])).
Definition add_fd (fd : Z) (d : descr) : F () := modify (λ w, with_fds (<[fd := d]> (fds w)) w).
Definition close (fd : Z) : F () := emit (Close fd);; modify (λ w, with_fds (delete fd (fds w)) w).

(** At most 512 bytes are asked for. *)
Definition recv (fd : Z) : F (option (list ascii)) :=
  w ← get;
  match fds w !! fd with
  | Some (mk_descr (r :: rest) t) =>
      if decide (512 < Z.of_nat (length (default [] r))) then stuck else add_fd fd (mk_descr rest t);; mret r
  | _ => mret None
  end.

Definition send (fd : Z) (text : list ascii) : F Z :=
  w ← get;
  match fds w !! fd with
  | Some (mk_descr i []) => emit (Out fd text);; mret (Z.of_nat (length text))
  | Some (mk_descr i (k :: t)) =>
      add_fd fd (mk_descr i t);;
      if decide (k < 0) then mret (-1) else emit (Out fd (take (Z.to_nat k) text));; mret (Z.min k (Z.of_nat (length text)))
  | None => mret (-1)
  end.

Definition next_dial : F dial :=
  w ← get;
  match dials w with
  | d :: ds => put (mk_world ds (opens w) (fds w) (trace w));; mret d
  | [] => mret (mk_dial None false false false (mk_descr [] []))
  end.

Definition open (path : list ascii) : F Z :=
  emit (Open path);;
  w ← get;
  match opens w with
  | Some (h, d) :: os => put (mk_world (dials w) os (fds w) (trace w));; add_fd h d;; mret h
  | None :: os => put (mk_world (dials w) os (fds w) (trace w));; mret (-1)
  | [] => mret (-1)
  end.

(** [sprintf] into an array of [n] bytes. *)
Definition sprintf (n : Z) (text : list ascii) : F (list ascii) :=
  if decide (Z.of_nat (length text) < n) then mret text else stuck.

(** [sscanf] with one [%d]; nothing is stored when there is no number, and a
    number that is no [int] is undefined. *)
Definition int_of (z : Z) : option Z := if decide (- 2 ^ 31 ≤ z ≤ INT_MAX) then Some z else None.
Definition sscanf_d (s : list ascii) : F (option Z) :=
  match scan_d s with Some (z, _) => z ← lift (int_of z); mret (Some z) | None => mret None end.

Definition crlf : list ascii := ["013"%char; "010"%char].
Definition dec_int (z : Z) : list ascii := bytes (pretty z).

(** ** Connections *)

Definition socket_connect (host : list ascii) (port : Z) : F Z :=
  d ← next_dial;
  match dl_socket d with
  | None => mret (-1)
  | Some s =>
      add_fd s (dl_descr d);;
      if negb (dl_tos d) then mret (-1)
      else if negb (dl_host d) then mret (-1)
      else emit (Dial host (port `mod` 2 ^ 16));; if negb (dl_connect d) then mret (-1) else mret s
  end.

(** [len = recv(sock, buf, 512); buf[len] = 0; sscanf(buf, "%d", &result)] *)
Definition read_result (sock : Z) (result : option Z) : F Z :=
  r ← recv sock;
  match r with
  | None => stuck
  | Some r =>
      if decide (Z.of_nat (length r) = 512) then stuck
      else v ← sscanf_d (c_str r); match v with Some v => mret v | None => lift result end
  end.

Definition connect_server (host : list ascii) (port : Z) : F Z :=
  ctrl_sock ← socket_connect host port;
  if decide (ctrl_sock = -1) then mret (-1)
  else
    result ← read_result ctrl_sock None;
    if decide (result ≠ 220) then close ctrl_sock;; mret (-1) else mret ctrl_sock.

(** The result, and the text for the buffer of the caller; no caller uses the
    length. *)
Definition ftp_sendcmd_re (sock : Z) (cmd : list ascii) : F (option (list ascii)) :=
  n ← send sock cmd;
  if decide (n = -1) then mret None
  else
    r ← recv sock;
    match r with
    | None => mret None
    | Some r =>
        if decide (Z.of_nat (length r) < 1) then mret None
        else if decide (Z.of_nat (length r) = 512) then stuck else mret (Some (c_str r))
    end.

Definition ftp_sendcmd (sock : Z) (cmd : list ascii) : F Z :=
  r ← ftp_sendcmd_re sock cmd;
  match r with
  | None => mret (-1)
  | Some buf => v ← sscanf_d buf; mret (default 0 v)
  end.

Definition login_server (sock : Z) (user pwd : list ascii) : F Z :=
  buf ← sprintf 128 (bytes "USER " ++ user ++ crlf);
  result ← ftp_sendcmd sock buf;
  if decide (result = 230) then mret 0
  else if decide (result = 331) then
    buf ← sprintf 128 (bytes "PASS " ++ pwd ++ crlf);
    result ← ftp_sendcmd sock buf;
    if decide (result ≠ 230) then mret (-1) else mret 0
  else mret (-1).

(** [sin_port] and [sin_addr] as the little-endian machine reads them from
    network order. *)
Definition port_text (s_addr sin_port : Z) : list ascii :=
  let field z := dec_int z ++ bytes "," in
  bytes "PORT " ++ field (Z.land s_addr 255) ++ field (Z.shiftr (Z.land s_addr 65280) 8)
    ++ field (Z.shiftr (Z.land s_addr 16711680) 16) ++ field (Z.shiftr (Z.land s_addr 4278190080) 24)
    ++ field (Z.shiftr sin_port 8) ++ dec_int (Z.land sin_port 255) ++ crlf.

(** What socket, bind, listen and the two [getsockname] answer. *)
Definition create_datasock (ctrl_sock : Z) (socket : option Z) (bind listen : bool) (name1 name2 : option Z) : F Z :=
  match socket with
  | None => mret (-1)
  | Some lsn_sock =>
      add_fd lsn_sock (mk_descr [] []);;
      if negb bind then close lsn_sock;; mret (-1)
      else if negb listen then close lsn_sock;; mret (-1)
      else
        match name1, name2 with
        | Some port, Some addr =>
            cmd ← sprintf 128 (port_text addr port);
            result ← ftp_sendcmd ctrl_sock cmd;
            if decide (result ≠ 200) then close lsn_sock;; mret (-1) else mret lsn_sock
        | _, _ => close lsn_sock;; mret (-1)
        end
  end.

(** ["%*[^(](%d,%d,%d,%d,%d,%d)"]; every one of the six is used. *)
Fixpoint to_paren (s : list ascii) : list ascii :=
  match s with c :: s' => if decide (c = "("%char) then s else to_paren s' | [] => [] end.
Fixpoint scan_ints (n : nat) (s : list ascii) : option (list Z) :=
  match n with
  | O => Some []
  | S n =>
      '(z, rest) ← scan_d s; z ← int_of z;
      match n, rest with
      | O, _ => Some [z]
      | _, c :: rest => if decide (c = ","%char) then cons z <$> scan_ints n rest else None
      | _, [] => None
      end
  end.
Definition scan_pasv (s : list ascii) : option (list Z) :=
  match s with
  | c :: _ => if decide (c = "("%char) then None else match to_paren s with _ :: rest => scan_ints 6 rest | [] => None end
  | [] => None
  end.

Definition ftp_pasv_connect (c_sock : Z) : F Z :=
  re_buf ← ftp_sendcmd_re c_sock (bytes "PASV" ++ crlf);
  addr ← lift (re_buf ≫= scan_pasv);
  match addr with
  | [a0; a1; a2; a3; a4; a5] =>
      port ← lift (m ← int_of (a4 * 256); int_of (m + a5));
      socket_connect (dec_int a0 ++ bytes "." ++ dec_int a1 ++ bytes "." ++ dec_int a2 ++ bytes "." ++ dec_int a3) port
  | _ => stuck
  end.

(** ** Single commands *)

Definition ftp_type (c_sock : Z) (mode : ascii) : F Z :=
  buf ← sprintf 128 (bytes "TYPE " ++ [mode] ++ crlf);
  result ← ftp_sendcmd c_sock buf;
  if decide (result ≠ 200) then mret (-1) else mret 0.
Definition ftp_cwd (c_sock : Z) (path : list ascii) : F Z :=
  buf ← sprintf 128 (bytes "CWD " ++ path ++ crlf);
  re ← ftp_sendcmd c_sock buf;
  if decide (re ≠ 250) then mret (-1) else mret 0.
Definition ftp_cdup (c_sock : Z) : F Z :=
  re ← ftp_sendcmd c_sock (bytes "CDUP" ++ crlf);
  if decide (re ≠ 250) then mret re else mret 0.
Definition ftp_mkd (c_sock : Z) (path : list ascii) : F Z :=
  buf ← sprintf 512 (bytes "MKD " ++ path ++ crlf);
  re ← ftp_sendcmd c_sock buf;
  if decide (re ≠ 257) then mret re else mret 0.
Definition ftp_renamefile (c_sock : Z) (s d : list ascii) : F Z :=
  buf ← sprintf 512 (bytes "RNFR " ++ s ++ crlf);
  re ← ftp_sendcmd c_sock buf;
  if decide (re ≠ 350) then mret re
  else
    buf ← sprintf 512 (bytes "RNTO " ++ d ++ crlf);
    re ← ftp_sendcmd c_sock buf;
    if decide (re ≠ 250) then mret re else mret 0.
Definition ftp_deletefile (c_sock : Z) (s : list ascii) : F Z :=
  buf ← sprintf 512 (bytes "DELE " ++ s ++ crlf);
  re ← ftp_sendcmd c_sock buf;
  if decide (re ≠ 250) then mret re else mret 0.
Definition ftp_deletefolder (c_sock : Z) (s : list ascii) : F Z :=
  buf ← sprintf 512 (bytes "RMD " ++ s ++ crlf);
  re ← ftp_sendcmd c_sock buf;
  if decide (re ≠ 250) then mret re else mret 0.

Definition ftp_connect (host : list ascii) (port : Z) (user pwd : list ascii) : F Z :=
  c_sock ← connect_server host port;
  if decide (c_sock = -1) then mret (-1)
  else
    r ← login_server c_sock user pwd;
    if decide (r = -1) then close c_sock;; mret (-1) else mret c_sock.
Definition ftp_quit (c_sock : Z) : F Z :=
  re ← ftp_sendcmd c_sock (bytes "QUIT" ++ crlf);
  close c_sock;;
  mret re.

(** ** Transfers *)

(** A malloc'd block; [None] is a byte nothing was stored in.  malloc is taken
    to succeed. *)
Definition block := list (option ascii).
Definition malloc (n : Z) : block := replicate (Z.to_nat n) None.
Definition memcpy (dest : block) (off : Z) (src : block) : F block :=
  if decide (off + Z.of_nat (length src) ≤ Z.of_nat (length dest)) then
    mret (take (Z.to_nat off) dest ++ src ++ drop (Z.to_nat off + length src) dest)
  else stuck.

(** Each answer of [recv] takes one of what the descriptor has left. *)
Definition rounds (fd : Z) (w : world) : nat := S (length (from_option d_in [] (fds w !! fd))).

(** A block twice as large when [len] more bytes do not fit. *)
Definition grow (re_buf : block) (buf_len total_len len : Z) : F (block * Z) :=
  if decide (buf_len < total_len + len) then
    let buf_len := buf_len * 2 in
    if decide (Z.of_nat (length re_buf) < total_len) then stuck
    else re_buf_n ← memcpy (malloc buf_len) 0 (take (Z.to_nat total_len) re_buf); mret (re_buf_n, buf_len)
  else mret (re_buf, buf_len).

Fixpoint list_loop (fuel : nat) (d_sock : Z) (re_buf : block) (buf_len total_len : Z) : F (block * Z) :=
  match fuel with
  | O => stuck
  | S fuel =>
      r ← recv d_sock;
      match r with
      | None | Some [] => mret (re_buf, total_len)
      | Some buf =>
          let len := Z.of_nat (length buf) in
          '(re_buf, buf_len) ← grow re_buf buf_len total_len len;
          re_buf ← memcpy re_buf total_len (Some <$> buf);
          list_loop fuel d_sock re_buf buf_len (total_len + len)
      end
  end.

(** The result, and [*data] and [*data_len] when they are set. *)
Definition ftp_list (c_sock : Z) (path : list ascii) : F (Z * option (block * Z)) :=
  d_sock ← ftp_pasv_connect c_sock;
  if decide (d_sock = -1) then mret (-1, None)
  else
    buf ← sprintf 512 (bytes "LIST " ++ path ++ crlf);
    send_re ← ftp_sendcmd c_sock buf;
    if decide (300 ≤ send_re ∨ send_re = 0) then mret (send_re, None)
    else
      fuel ← gets (rounds d_sock);
      '(re_buf, total_len) ← list_loop fuel d_sock (malloc 512) 512 0;
      close d_sock;;
      result ← read_result c_sock None;
      if decide (result ≠ 226) then mret (result, None) else mret (0, Some (re_buf, total_len)).

(** The loop of both transfers: [from] is read, [to] is written.  [stop] has
    what [*stop] is after each chunk, and is empty for a NULL pointer or when it stays 0;
    [stor_size] is [None] for NULL. *)
Fixpoint copy_loop (fuel : nat) (from to : Z) (stor_size : option Z) (stop : list bool) : F (bool * option Z) :=
  match fuel with
  | O => stuck
  | S fuel =>
      r ← recv from;
      match r with
      | None | Some [] => mret (true, stor_size)
      | Some buf =>
          n ← send to buf;
          if decide (n ≠ Z.of_nat (length buf) ∨ head stop = Some true) then mret (false, stor_size)
          else copy_loop fuel from to ((λ s, u64 (s + n)) <$> stor_size) (tail stop)
      end
  end.

Definition ftp_retrfile (c_sock : Z) (s d : list ascii) (stor_size : option Z) (stop : list bool) : F (Z * option Z) :=
  handle ← open d;
  if decide (handle = -1) then mret (-1, stor_size)
  else
    ftp_type c_sock "I"%char;;
    d_sock ← ftp_pasv_connect c_sock;
    if decide (d_sock = -1) then close handle;; mret (-1, stor_size)
    else
      buf ← sprintf 512 (bytes "RETR " ++ s ++ crlf);
      result ← ftp_sendcmd c_sock buf;
      if decide (300 ≤ result ∨ result = 0) then close handle;; mret (result, stor_size)
      else
        fuel ← gets (rounds d_sock);
        '(complete, stor_size) ← copy_loop fuel d_sock handle stor_size stop;
        close d_sock;; close handle;;
        if negb complete then mret (-1, stor_size)
        else
          result ← read_result c_sock (Some result);
          mret (if decide (300 ≤ result) then result else 0, stor_size).

Definition ftp_storfile (c_sock : Z) (s d : list ascii) (stor_size : option Z) (stop : list bool) : F (Z * option Z) :=
  handle ← open s;
  if decide (handle = -1) then mret (-1, stor_size)
  else
    ftp_type c_sock "I"%char;;
    d_sock ← ftp_pasv_connect c_sock;
    if decide (d_sock = -1) then close handle;; mret (-1, stor_size)
    else
      buf ← sprintf 512 (bytes "STOR " ++ d ++ crlf);
      send_re ← ftp_sendcmd c_sock buf;
      if decide (300 ≤ send_re ∨ send_re = 0) then close handle;; mret (send_re, stor_size)
      else
        fuel ← gets (rounds handle);
        '(complete, stor_size) ← copy_loop fuel handle d_sock stor_size stop;
        close d_sock;; close handle;;
        if negb complete then mret (-1, stor_size)
        else
          result ← read_result c_sock None;
          mret (if decide (300 ≤ result) then result else 0, stor_size).
