(* ===== verification/FtpProofs.v ===== *)
(** * The steps of the FTP client on a server that answers. *)

From S2P Require Import Prelude PString Ftp.

Local Open Scope Z_scope.

(** One statement of a computation. *)
Ltac run_then := erewrite bind_Some; cbv beta iota.
Tactic Notation "run" "by" tactic3(t) := erewrite bind_Some by t; cbv beta iota.

(** The number a reply begins with, when it is an [int]. *)
Definition code (r : list ascii) : option Z := '(z, _) ← scan_d (c_str r); int_of z.
(** A reply that fits the buffers with a terminator. *)
Definition fits (r : list ascii) : Prop := 1 ≤ Z.of_nat (length r) < 512.
(** The address in a reply to PASV. *)
Definition passive (r host : list ascii) (port : Z) : Prop :=
  ∃ a0 a1 a2 a3 a4 a5, scan_pasv (c_str r) = Some [a0; a1; a2; a3; a4; a5] ∧ 0 ≤ a4 < 256 ∧ 0 ≤ a5 < 256 ∧
    host = dec_int a0 ++ bytes "." ++ dec_int a1 ++ bytes "." ++ dec_int a2 ++ bytes "." ++ dec_int a3 ∧ port = a4 * 256 + a5.

(** What a command leaves behind, and what reading from a descriptor does. *)
Definition said (c : Z) (cmd : list ascii) (rest : list (option (list ascii))) (w : world) : world :=
  mk_world (dials w) (opens w) (<[c := mk_descr rest []]> (fds w)) (trace w ++ [Out c cmd]).
Definition heard (c : Z) (d : descr) (w : world) : world := with_fds (<[c := d]> (fds w)) w.
Definition closed (fd : Z) (w : world) : world := mk_world (dials w) (opens w) (delete fd (fds w)) (trace w ++ [Close fd]).

Lemma close_eq fd w : close fd w = Some ((), closed fd w).
Proof. done. Qed.

Lemma recv_eq fd r rest t w : fds w !! fd = Some (mk_descr (r :: rest) t) → Z.of_nat (length (default [] r)) ≤ 512 →
  recv fd w = Some (r, heard fd (mk_descr rest t) w).
Proof. intros E L. unfold recv, mbind, M_bind, get. rewrite E. rewrite decide_False by lia. done. Qed.

Lemma send_eq fd i text w : fds w !! fd = Some (mk_descr i []) →
  send fd text w = Some (Z.of_nat (length text), mk_world (dials w) (opens w) (fds w) (trace w ++ [Out fd text])).
Proof. intros E. unfold send, mbind, M_bind, get. by rewrite E. Qed.

Lemma int_of_some z n : int_of z = Some n → n = z.
Proof. unfold int_of. case_decide; congruence. Qed.

Lemma sscanf_code r n w : code r = Some n → sscanf_d (c_str r) w = Some (Some n, w).
Proof.
  unfold code, sscanf_d. destruct (scan_d (c_str r)) as [[z l]|]; [simpl|done]. intros E.
  unfold mbind, M_bind, lift. by rewrite E.
Qed.

Lemma sendcmd_re_eq c cmd r rest w : fds w !! c = Some (mk_descr (Some r :: rest) []) → fits r →
  ftp_sendcmd_re c cmd w = Some (Some (c_str r), said c cmd rest w).
Proof.
  intros E [L1 L2]. unfold ftp_sendcmd_re. run by (eapply send_eq; eassumption). rewrite decide_False by lia.
  run by (eapply recv_eq; [done|simpl; lia]). rewrite !decide_False by lia. done.
Qed.

Lemma sendcmd_eq c cmd r rest n w : fds w !! c = Some (mk_descr (Some r :: rest) []) → fits r → code r = Some n →
  ftp_sendcmd c cmd w = Some (n, said c cmd rest w).
Proof.
  intros E L Hc. unfold ftp_sendcmd. run by by apply sendcmd_re_eq.
  by run by by apply sscanf_code.
Qed.

Lemma sprintf_eq n text w : Z.of_nat (length text) < n → sprintf n text w = Some (text, w).
Proof. intros L. unfold sprintf. by rewrite decide_True. Qed.

Lemma read_result_eq c r rest t n old w : fds w !! c = Some (mk_descr (Some r :: rest) t) → Z.of_nat (length r) < 512 → code r = Some n →
  read_result c old w = Some (n, heard c (mk_descr rest t) w).
Proof.
  intros E L Hc. unfold read_result. run by (eapply recv_eq; [done|simpl; lia]). rewrite decide_False by lia.
  by run by by apply sscanf_code.
Qed.

(** A connection that comes about. *)
Definition dialled (s : Z) (d : descr) (host : list ascii) (port : Z) (ds : list dial) (w : world) : world :=
  mk_world ds (opens w) (<[s := d]> (fds w)) (trace w ++ [Dial host port]).

Lemma pasv_eq c r rest host port s d ds w : fds w !! c = Some (mk_descr (Some r :: rest) []) → fits r → passive r host port →
  dials w = mk_dial (Some s) true true true d :: ds →
  ftp_pasv_connect c w = Some (s, dialled s d host port ds (said c (bytes "PASV" ++ crlf) rest w)).
Proof.
  intros E L (a0&a1&a2&a3&a4&a5&Ha&H4&H5&->&->) Ed. unfold ftp_pasv_connect.
  run by by apply sendcmd_re_eq. run by (unfold lift; simpl; by rewrite Ha). simpl.
  run_then.
  2:{ unfold lift, int_of, INT_MAX. rewrite decide_True by lia. simpl. rewrite decide_True by lia. done. }
  unfold socket_connect. run by (unfold next_dial, mbind, M_bind, get; simpl; by rewrite Ed).
  unfold mbind, M_bind, mret, M_ret; simpl. unfold dialled, said. simpl. rewrite Z.mod_small by lia. done.
Qed.

(** ** The loops *)

Lemma memcpy_eq dest off src w : off + Z.of_nat (length src) ≤ Z.of_nat (length dest) →
  memcpy dest off src w = Some (take (Z.to_nat off) dest ++ src ++ drop (Z.to_nat off + length src) dest, w).
Proof. intros L. unfold memcpy. by rewrite decide_True. Qed.

(** A block that begins with [got] and has a known length. *)
Definition holds (blk : block) (got : list ascii) : Prop := take (length got) blk = Some <$> got.

Lemma holds_length blk got : holds blk got → (length got ≤ length blk)%nat.
Proof. intros H%(f_equal length). rewrite length_take, length_fmap in H. lia. Qed.

Lemma grow_eq blk got len w : holds blk got → 512 ≤ Z.of_nat (length blk) → 1 ≤ len ≤ 512 →
  ∃ blk', grow blk (Z.of_nat (length blk)) (Z.of_nat (length got)) len w = Some ((blk', Z.of_nat (length blk')), w) ∧
    holds blk' got ∧ Z.of_nat (length got) + len ≤ Z.of_nat (length blk') ∧ 512 ≤ Z.of_nat (length blk').
Proof.
  intros Hh Hb Hl. pose proof (holds_length _ _ Hh) as Hg. unfold grow. destruct (decide _) as [Hd|Hd]; [|by exists blk; split_and!; [|done|lia..]].
  rewrite decide_False by lia. rewrite Nat2Z.id, Hh. unfold malloc.
  assert (Hn : Z.to_nat (Z.of_nat (length blk) * 2) = (length blk * 2)%nat) by lia.
  run by (apply memcpy_eq; rewrite length_fmap, length_replicate; lia).
  set (n := take _ _ ++ _). assert (Ln : length n = (length blk * 2)%nat).
  { unfold n. rewrite !length_app, length_take, length_drop, length_fmap, length_replicate, Hn. simpl. lia. }
  exists n. split_and!; [|unfold holds, n; simpl|lia..].
  - unfold mret, M_ret. rewrite Ln. repeat f_equal; lia.
  - by rewrite take_app_le, take_ge by (rewrite length_fmap; lia).
Qed.

Lemma append_eq blk got x w : holds blk got → Z.of_nat (length got) + Z.of_nat (length x) ≤ Z.of_nat (length blk) →
  ∃ blk', memcpy blk (Z.of_nat (length got)) (Some <$> x) w = Some (blk', w) ∧ holds blk' (got ++ x) ∧ length blk' = length blk.
Proof.
  intros Hh Hl. eexists. split; [apply memcpy_eq; by rewrite length_fmap|]. rewrite Nat2Z.id, Hh. split.
  - unfold holds. rewrite length_app, fmap_app, app_assoc. apply take_app_length'. by rewrite length_app, !length_fmap.
  - rewrite !length_app, length_drop, !length_fmap. lia.
Qed.

Definition ends (fin : option (list ascii)) : Prop := fin = None ∨ fin = Some [].

Lemma list_loop_eq d cs fin l t : ends fin → Forall (λ x, 1 ≤ Z.of_nat (length x) ≤ 512) cs →
  ∀ fuel blk got w, fds w !! d = Some (mk_descr ((Some <$> cs) ++ fin :: l) t) → (length cs < fuel)%nat →
    holds blk got → 512 ≤ Z.of_nat (length blk) →
    ∃ blk', list_loop fuel d blk (Z.of_nat (length blk)) (Z.of_nat (length got)) w
      = Some ((blk', Z.of_nat (length (got ++ concat cs))), heard d (mk_descr l t) w) ∧ holds blk' (got ++ concat cs).
Proof.
  intros Hfin Hcs. induction Hcs as [|x cs Hx _ IH]; intros fuel blk got w E Hf Ht Hb.
  - destruct fuel as [|fuel]; [simpl in Hf; lia|]. exists blk. simpl. rewrite app_nil_r. split; [|done].
    simpl in E. run by (eapply recv_eq; [exact E|destruct Hfin as [->| ->]; simpl; lia]). by destruct Hfin as [->| ->].
  - destruct fuel as [|fuel]; [simpl in Hf; lia|]. simpl in E, Hf. simpl list_loop.
    run by (eapply recv_eq; [done|simpl; lia]). destruct x as [|a x]; [simpl in Hx; lia|].
    set (w1 := heard d (mk_descr ((Some <$> cs) ++ fin :: l) t) w).
    destruct (grow_eq blk got _ w1 Ht Hb Hx) as (b1&E1&H1&L1&B1).
    run by apply E1.
    destruct (append_eq b1 got (a :: x) w1 H1 L1) as (b2&E2&H2&L2).
    run by apply E2.
    edestruct (IH fuel b2 (got ++ a :: x) w1) as (b3&E3&H3);
      [by simpl; rewrite lookup_insert_eq|lia|done|by rewrite L2|].
    exists b3. rewrite L2, length_app, Nat2Z.inj_add in E3. rewrite E3. simpl concat. rewrite <-app_assoc in H3 |- *. split; [|done].
    do 2 f_equal. unfold w1, heard, with_fds. simpl. by rewrite insert_insert_eq.
Qed.

(** What a transfer adds to the caller's count. *)
Definition added (size : option Z) (n : Z) : option Z := (λ s, u64 (s + n)) <$> size.
Definition counter (size : option Z) : Prop := ∀ s, size = Some s → 0 ≤ s < 2 ^ 64.

Lemma added_0 size : counter size → added size 0 = size.
Proof. intros H. destruct size as [s|]; [|done]. unfold added. simpl. rewrite Z.add_0_r, u64_small by by apply H. done. Qed.
Lemma added_counter size n : counter (added size n).
Proof. destruct size as [s|]; [|done]. intros ? [= <-]. apply u64_range. Qed.
Lemma added_add size a b : added (added size a) b = added size (a + b).
Proof.
  destruct size as [s|]; [|done]. unfold added, u64. simpl. f_equal. rewrite Zplus_mod_idemp_l. f_equal; lia.
Qed.

Definition moved (from to : Z) (cs : list (list ascii)) (d : descr) (w : world) : world :=
  mk_world (dials w) (opens w) (<[from := d]> (fds w)) (trace w ++ (Out to <$> cs)).

Definition chunked (cs : list (list ascii)) : Prop := Forall (λ x, 1 ≤ Z.of_nat (length x) ≤ 512) cs.

(** Chunks that are taken whole, while [*stop] stays 0. *)
Lemma copy_prefix from to cs rest t i : from ≠ to → chunked cs →
  ∀ fuel size stop w, counter size → fds w !! from = Some (mk_descr ((Some <$> cs) ++ rest) t) → fds w !! to = Some (mk_descr i []) →
    Forall (λ b, b = false) (take (length cs) stop) →
    copy_loop (length cs + fuel) from to size stop w =
    copy_loop fuel from to (added size (Z.of_nat (length (concat cs)))) (drop (length cs) stop) (moved from to cs (mk_descr rest t) w).
Proof.
  intros Hne Hcs. induction Hcs as [|x cs Hx _ IH]; intros fuel size stop w Hsz Ef Et Hst.
  - simpl. rewrite added_0, drop_0 by done. f_equal. destruct w as [ds os m tr]. unfold moved. simpl in *.
    by rewrite app_nil_r, insert_id.
  - simpl length. rewrite Nat.add_succ_l. simpl copy_loop. simpl in Ef.
    run by (eapply recv_eq; [exact Ef|simpl; lia]). destruct x as [|a x]; [simpl in Hx; lia|].
    run by (eapply send_eq; simpl; rewrite lookup_insert_ne by done; exact Et).
    rewrite decide_False.
    2:{ intros [?|?]; [done|]. destruct stop as [|b stop]; [done|]. simpl in Hst. apply list.Forall_cons in Hst as [-> _]. done. }
    set (w1 := mk_world _ _ _ _). change (copy_loop (length cs + fuel) from to (added size (Z.of_nat (length (a :: x)))) (tail stop) w1 =
      copy_loop fuel from to (added size (Z.of_nat (length (concat ((a :: x) :: cs))))) (drop (S (length cs)) stop) (moved from to ((a :: x) :: cs) (mk_descr rest t) w)).
    rewrite IH.
    + rewrite added_add. change (concat ((a :: x) :: cs)) with ((a :: x) ++ concat cs). rewrite length_app, Nat2Z.inj_add.
      replace (drop (length cs) (tail stop)) with (drop (S (length cs)) stop) by (destruct stop; simpl; by rewrite ?drop_nil). f_equal.
      unfold w1, moved, heard, with_fds. simpl. by rewrite insert_insert_eq, <-app_assoc.
    + apply added_counter.
    + by simpl; rewrite lookup_insert_eq.
    + by simpl; rewrite lookup_insert_ne.
    + destruct stop as [|b stop]; [simpl; by rewrite take_nil|]. simpl in Hst. by apply list.Forall_cons in Hst as [_ Hst].
Qed.

Lemma copy_end from to fin l t fuel size stop w : ends fin → fds w !! from = Some (mk_descr (fin :: l) t) →
  copy_loop (S fuel) from to size stop w = Some ((true, size), heard from (mk_descr l t) w).
Proof.
  intros Hfin E. simpl. run by (eapply recv_eq; [exact E|destruct Hfin as [-> | ->]; simpl; lia]). by destruct Hfin as [-> | ->].
Qed.

(** The chunk after which [*stop] is set has been written, and is not counted. *)
Lemma copy_stopped from to x l t i fuel size stop w : from ≠ to → 1 ≤ Z.of_nat (length x) ≤ 512 → head stop = Some true →
  fds w !! from = Some (mk_descr (Some x :: l) t) → fds w !! to = Some (mk_descr i []) →
  copy_loop (S fuel) from to size stop w = Some ((false, size), moved from to [x] (mk_descr l t) w).
Proof.
  intros Hne Hx Hst Ef Et. simpl. run by (eapply recv_eq; [exact Ef|simpl; lia]). destruct x as [|a x]; [simpl in Hx; lia|].
  run by (eapply send_eq; simpl; rewrite lookup_insert_ne by done; exact Et). rewrite decide_True by by right. done.
Qed.
