(* ===== verification/FtpTheorems.v ===== *)
(** * What the FTP client does: transfers bring over the bytes, and what is
    left behind when they do not. *)

From S2P Require Import Prelude PString Ftp FtpProofs.

Local Open Scope Z_scope.

(** ** A transfer that the server grants *)

(** The descriptors of the control connection, the file and the data
    connection with what will come from the last two, the four replies and
    their numbers, and what comes after. *)
Record exchange := mk_exchange {
  x_c : Z; x_h : Z; x_s : Z; x_hd : descr; x_sd : descr;
  x_type : list ascii; x_pasv : list ascii; x_cmd : list ascii; x_final : list ascii;
  x_ntype : Z; x_ncmd : Z; x_nfinal : Z;
  x_after : list (option (list ascii));
  x_host : list ascii; x_port : Z; x_opens : list (option (Z * descr)); x_dials : list dial }.

Record ready (x : exchange) (w : world) : Prop := {
  rd_ctrl : fds w !! x_c x = Some (mk_descr (Some (x_type x) :: Some (x_pasv x) :: Some (x_cmd x) :: Some (x_final x) :: x_after x) []);
  rd_opens : opens w = Some (x_h x, x_hd x) :: x_opens x;
  rd_dials : dials w = mk_dial (Some (x_s x)) true true true (x_sd x) :: x_dials x;
  rd_h : fds w !! x_h x = None ∧ x_h x ≠ -1;
  rd_s : fds w !! x_s x = None ∧ x_s x ≠ -1;
  rd_hs : x_h x ≠ x_s x;
  rd_type : fits (x_type x) ∧ code (x_type x) = Some (x_ntype x);
  rd_pasv : fits (x_pasv x) ∧ passive (x_pasv x) (x_host x) (x_port x);
  rd_cmd : fits (x_cmd x) ∧ code (x_cmd x) = Some (x_ncmd x);
  rd_final : fits (x_final x) ∧ code (x_final x) = Some (x_nfinal x) }.

Definition refused (x : exchange) : Prop := 300 ≤ x_ncmd x ∨ x_ncmd x = 0.

Definition TYPE_I : list ascii := bytes "TYPE I" ++ crlf.
Definition PASV : list ascii := bytes "PASV" ++ crlf.
Definition preamble (x : exchange) (path cmd : list ascii) : list event :=
  [Open path; Out (x_c x) TYPE_I; Out (x_c x) PASV; Dial (x_host x) (x_port x); Out (x_c x) cmd].

(** Where the copying begins, what follows, and where a transfer ends. *)
Definition begun (x : exchange) (path cmd : list ascii) (w : world) : world :=
  mk_world (x_dials x) (x_opens x)
    (<[x_c x := mk_descr (Some (x_final x) :: x_after x) []]> (<[x_s x := x_sd x]> (<[x_h x := x_hd x]> (fds w))))
    (trace w ++ preamble x path cmd).
Definition finish (x : exchange) (from to : Z) (old size : option Z) (stop : list bool) : F (Z * option Z) :=
  fuel ← gets (rounds from);
  '(complete, stor_size) ← copy_loop fuel from to size stop;
  close (x_s x);; close (x_h x);;
  if negb complete then mret (-1, stor_size)
  else result ← read_result (x_c x) old; mret (if decide (300 ≤ result) then result else 0, stor_size).
Definition carry_out (x : exchange) (from to : Z) (old size : option Z) (stop : list bool) : F (Z * option Z) :=
  if decide (300 ≤ x_ncmd x ∨ x_ncmd x = 0) then close (x_h x);; mret (x_ncmd x, size) else finish x from to old size stop.
Definition after_transfer (x : exchange) (left : list (option (list ascii))) (events : list event) (w : world) : world :=
  mk_world (x_dials x) (x_opens x) (<[x_c x := mk_descr left []]> (fds w)) (trace w ++ events).

Lemma world_eq d o m m' t t' : m = m' → t = t' → mk_world d o m t = mk_world d o m' t'.
Proof. by intros -> ->. Qed.

Lemma ready_ne x w : ready x w → x_c x ≠ x_h x ∧ x_c x ≠ x_s x.
Proof. intros [E _ _ [Eh _] [Es _] _ _ _ _ _]. split; intros Heq; rewrite Heq in E; congruence. Qed.

Lemma open_eq path w h hd os : opens w = Some (h, hd) :: os →
  open path w = Some (h, mk_world (dials w) os (<[h := hd]> (fds w)) (trace w ++ [Open path])).
Proof. intros E. unfold open, emit, modify, get, mbind, M_bind. simpl. by rewrite E. Qed.

Lemma type_eq c r rest n w : fds w !! c = Some (mk_descr (Some r :: rest) []) → fits r → code r = Some n →
  ftp_type c "I"%char w = Some (if decide (n ≠ 200) then -1 else 0, said c TYPE_I rest w).
Proof.
  intros E L Hc. unfold ftp_type. run by by apply sprintf_eq. run by (eapply sendcmd_eq; eassumption).
  by case_decide.
Qed.

(** Two tables of descriptors that agree on the three in use and elsewhere. *)
Ltac same_fds x := apply map_eq; intros k; destruct (decide (k = x_c x)) as [?|?], (decide (k = x_s x)) as [?|?],
  (decide (k = x_h x)) as [?|?]; simplify_map_eq; try done.

Lemma retr_begin x w s d size stop : ready x w → Z.of_nat (length s) < 505 →
  ftp_retrfile (x_c x) s d size stop w =
  carry_out x (x_s x) (x_h x) (Some (x_ncmd x)) size stop (begun x d (bytes "RETR " ++ s ++ crlf) w).
Proof.
  intros R Ls. pose proof (ready_ne x w R) as [Nh Ns]. destruct R as [Ec Eo Ed [Eh Hh] [Es Hs] Hhs [T1 T2] [P1 P2] [C1 C2] [F1 F2]].
  unfold ftp_retrfile. run by by apply open_eq. rewrite decide_False by done.
  run by (eapply type_eq; [by simpl; rewrite lookup_insert_ne|exact T1|exact T2]).
  run by (eapply pasv_eq; [by simpl; rewrite lookup_insert_eq|done|done|exact Ed]).
  rewrite decide_False by done.
  run by (apply sprintf_eq; rewrite !length_app; simpl; lia).
  run by (eapply sendcmd_eq; [simpl; rewrite lookup_insert_ne by done; by rewrite lookup_insert_eq|done|done]).
  match goal with |- _ ?w1 = _ ?w2 => replace w2 with w1; [unfold carry_out; by case_decide|] end.
  apply world_eq; [simpl; same_fds x|]. simpl. by rewrite <-!app_assoc.
Qed.

Lemma stor_begin x w s d size stop : ready x w → Z.of_nat (length d) < 505 →
  ftp_storfile (x_c x) s d size stop w =
  carry_out x (x_h x) (x_s x) None size stop (begun x s (bytes "STOR " ++ d ++ crlf) w).
Proof.
  intros R Ls. pose proof (ready_ne x w R) as [Nh Ns]. destruct R as [Ec Eo Ed [Eh Hh] [Es Hs] Hhs [T1 T2] [P1 P2] [C1 C2] [F1 F2]].
  unfold ftp_storfile. run by by apply open_eq. rewrite decide_False by done.
  run by (eapply type_eq; [by simpl; rewrite lookup_insert_ne|exact T1|exact T2]).
  run by (eapply pasv_eq; [by simpl; rewrite lookup_insert_eq|done|done|exact Ed]).
  rewrite decide_False by done.
  run by (apply sprintf_eq; rewrite !length_app; simpl; lia).
  run by (eapply sendcmd_eq; [simpl; rewrite lookup_insert_ne by done; by rewrite lookup_insert_eq|done|done]).
  match goal with |- _ ?w1 = _ ?w2 => replace w2 with w1; [unfold carry_out; by case_decide|] end.
  apply world_eq; [simpl; same_fds x|]. simpl. by rewrite <-!app_assoc.
Qed.

(** Which way the bytes go: a download or an upload of [cs], then [more]. *)
Definition way (x : exchange) (from to : Z) (rest : list (option (list ascii))) : Prop :=
  ∃ t i, (from = x_s x ∧ to = x_h x ∧ x_sd x = mk_descr rest t ∧ x_hd x = mk_descr i []) ∨
         (from = x_h x ∧ to = x_s x ∧ x_hd x = mk_descr rest t ∧ x_sd x = mk_descr i []).

Lemma way_begun x w path cmd from to rest : ready x w → way x from to rest → from ≠ to ∧
  ∃ t i, fds (begun x path cmd w) !! from = Some (mk_descr rest t) ∧ fds (begun x path cmd w) !! to = Some (mk_descr i []).
Proof.
  intros R (t&i&Hw). pose proof (ready_ne x w R) as [Nh Ns]. pose proof (rd_hs x w R) as Hhs. simpl.
  destruct Hw as [(->&->&->&->)|(->&->&->&->)]; (split; [done|]; exists t, i; split; by simplify_map_eq).
Qed.

Lemma rounds_begun x w path cmd from rest t : fds (begun x path cmd w) !! from = Some (mk_descr rest t) →
  rounds from (begun x path cmd w) = S (length rest).
Proof. intros E. unfold rounds. by rewrite E. Qed.

(** What is left of the table once both are closed. *)
Lemma closed_both x w path cmd from to rest ev d left : ready x w → way x from to rest →
  heard (x_c x) (mk_descr left []) (closed (x_h x) (closed (x_s x) (moved from to ev d (begun x path cmd w)))) =
  after_transfer x left (preamble x path cmd ++ (Out to <$> ev) ++ [Close (x_s x); Close (x_h x)]) w.
Proof.
  intros R (t&i&Hw). pose proof (ready_ne x w R) as [Nh Ns]. pose proof R as [Ec Eo Ed [Eh Hh] [Es Hs] Hhs T P C F].
  apply world_eq; simpl; [|by rewrite <-!app_assoc].
  destruct Hw as [(->&->&_)|(->&->&_)]; same_fds x.
Qed.

(** To the end of the data. *)
Lemma carry_done x w path cmd from to old size stop cs fin l : ready x w → ¬ refused x → way x from to ((Some <$> cs) ++ fin :: l) →
  ends fin → chunked cs → counter size → Forall (λ b, b = false) (take (length cs) stop) →
  carry_out x from to old size stop (begun x path cmd w) =
  Some ((if decide (300 ≤ x_nfinal x) then x_nfinal x else 0, added size (Z.of_nat (length (concat cs)))),
    after_transfer x (x_after x) (preamble x path cmd ++ (Out to <$> cs) ++ [Close (x_s x); Close (x_h x)]) w).
Proof.
  intros R Hgr Hw Hfin Hcs Hsz Hst. destruct (way_begun x w path cmd from to _ R Hw) as (Hne&t&i&Ef&Et).
  pose proof (ready_ne x w R) as [Nh Ns]. pose proof (rd_final x w R) as [[F0 F1] F2].
  unfold carry_out, finish. rewrite decide_False by done. run by done. rewrite (rounds_begun _ _ _ _ _ _ _ Ef), length_app, length_fmap. simpl length.
  replace (S (length cs + S (length l))) with (length cs + S (S (length l)))%nat by lia.
  run_then.
  2:{ rewrite (copy_prefix from to cs (fin :: l) t i) by done. eapply copy_end; [done|]. simpl. by rewrite lookup_insert_eq. }
  cbv beta iota. run by by apply close_eq. run by by apply close_eq. cbv beta iota delta [negb].
  run_then.
  2:{ eapply read_result_eq; [|exact F1|exact F2]. simpl. destruct Hw as (?&?&[(->&->&_)|(->&->&_)]); by simplify_map_eq. }
  unfold mret, M_ret. f_equal. f_equal. rewrite <-(closed_both x w path cmd from to _ cs (mk_descr l t) (x_after x) R Hw).
  apply world_eq; [simpl; by rewrite insert_insert_eq|done].
Qed.

(** To the chunk [y] after which [*stop] is set. *)
Lemma carry_stopped x w path cmd from to old size stop cs y l : ready x w → ¬ refused x → way x from to ((Some <$> cs) ++ Some y :: l) →
  chunked (cs ++ [y]) → counter size → Forall (λ b, b = false) (take (length cs) stop) → stop !! length cs = Some true →
  carry_out x from to old size stop (begun x path cmd w) =
  Some ((-1, added size (Z.of_nat (length (concat cs)))),
    after_transfer x (Some (x_final x) :: x_after x) (preamble x path cmd ++ (Out to <$> (cs ++ [y])) ++ [Close (x_s x); Close (x_h x)]) w).
Proof.
  intros R Hgr Hw Hcs Hsz Hst Hy. destruct (way_begun x w path cmd from to _ R Hw) as (Hne&t&i&Ef&Et).
  apply list.Forall_app in Hcs as [Hcs Hcy]. apply list.Forall_cons in Hcy as [Hcy _].
  unfold carry_out, finish. rewrite decide_False by done. run by done.
  rewrite (rounds_begun _ _ _ _ _ _ _ Ef), length_app, length_fmap. simpl length.
  replace (S (length cs + S (length l))) with (length cs + S (S (length l)))%nat by lia.
  run_then.
  2:{ rewrite (copy_prefix from to cs (Some y :: l) t i) by done. eapply (copy_stopped from to y l t i); [done|exact Hcy| |by simpl; rewrite lookup_insert_eq|simpl; by rewrite lookup_insert_ne].
      by rewrite (drop_S _ _ _ Hy). }
  cbv beta iota. run by by apply close_eq. run by by apply close_eq. cbv beta iota delta [negb].
  unfold mret, M_ret. f_equal. f_equal. rewrite <-(closed_both x w path cmd from to _ (cs ++ [y]) (mk_descr l t) (Some (x_final x) :: x_after x) R Hw).
  pose proof (ready_ne x w R) as [Nh Ns].
  apply world_eq; simpl; [|by rewrite fmap_app, <-!app_assoc].
  destruct Hw as (?&?&[(->&->&_)|(->&->&_)]); same_fds x.
Qed.

(** ** What was written to a descriptor *)

Definition out_of (fd : Z) (e : event) : option (list ascii) :=
  match e with Out f text => if decide (f = fd) then Some text else None | _ => None end.
Definition written (fd : Z) (w w' : world) : list ascii := concat (omap (out_of fd) (drop (length (trace w)) (trace w'))).

Lemma written_outs fd cs : concat (omap (out_of fd) (Out fd <$> cs)) = concat cs.
Proof. f_equal. induction cs as [|x cs IH]; [done|]. csimpl. by rewrite decide_True, IH. Qed.

Lemma written_transfer x w path cmd to cs left : x_c x ≠ to →
  written to w (after_transfer x left (preamble x path cmd ++ (Out to <$> cs) ++ [Close (x_s x); Close (x_h x)]) w) = concat cs.
Proof.
  intros Hne. unfold written. cbn [trace after_transfer]. rewrite drop_app_length.
  assert (Hpre : omap (out_of to) (preamble x path cmd) = []) by (simpl; by rewrite !decide_False by done).
  rewrite !omap_app, Hpre, !concat_app, written_outs. simpl. by rewrite app_nil_r.
Qed.

(** C27. Files go up and come down unchanged.  An upload and a download that the
    server grants, where it later sends the bytes it was given cut into any
    chunks: both calls report the server's last word (0 below 300), count every
    byte modulo 2^64, write exactly the bytes of the file to the data
    connection and to the new file, and leave the table of descriptors as it
    was, with the control connection behind the four replies. *)
Theorem ftp_roundtrip x y w v cs ds s d s' d' size size' stop stop' l m fin fin' :
  ready x w → ¬ refused x → way x (x_h x) (x_s x) ((Some <$> cs) ++ fin :: l) →
  ready y v → ¬ refused y → way y (x_s y) (x_h y) ((Some <$> ds) ++ fin' :: m) →
  ends fin → ends fin' → chunked cs → chunked ds → concat ds = concat cs → counter size → counter size' →
  Forall (λ b, b = false) (take (length cs) stop) → Forall (λ b, b = false) (take (length ds) stop') →
  Z.of_nat (length d) < 505 → Z.of_nat (length s') < 505 →
  ∃ w' v',
    ftp_storfile (x_c x) s d size stop w = Some ((if decide (300 ≤ x_nfinal x) then x_nfinal x else 0, added size (Z.of_nat (length (concat cs)))), w') ∧
    ftp_retrfile (x_c y) s' d' size' stop' v = Some ((if decide (300 ≤ x_nfinal y) then x_nfinal y else 0, added size' (Z.of_nat (length (concat cs)))), v') ∧
    written (x_s x) w w' = concat cs ∧ written (x_h y) v v' = concat cs ∧
    fds w' = <[x_c x := mk_descr (x_after x) []]> (fds w) ∧ fds v' = <[x_c y := mk_descr (x_after y) []]> (fds v).
Proof.
  intros Rx Gx Wx Ry Gy Wy Fx Fy Cx Cy Heq Sx Sy Tx Ty Lx Ly.
  do 2 eexists. split; [by rewrite stor_begin by done; eapply carry_done|].
  split; [rewrite retr_begin, <-Heq by done; by eapply carry_done|].
  rewrite !written_transfer by (by apply (ready_ne _ _ Rx) || by apply (ready_ne _ _ Ry)). by rewrite Heq.
Qed.

(** C28. A listing is what the server sent.  When it grants LIST and sends any
    chunks of at most 512 bytes, the block that doubles always has room: with a
    last word of 226 the block begins with exactly the bytes that came and the
    length is theirs, with another the caller gets that number and no data.
    The data connection is closed again. *)
Theorem ftp_list_spec c path w rp rc rf after host port s cs fin l t ds n nf :
  fds w !! c = Some (mk_descr (Some rp :: Some rc :: Some rf :: after) []) →
  dials w = mk_dial (Some s) true true true (mk_descr ((Some <$> cs) ++ fin :: l) t) :: ds → fds w !! s = None → s ≠ -1 →
  fits rp → passive rp host port → fits rc → code rc = Some n → n < 300 → n ≠ 0 → fits rf → code rf = Some nf →
  ends fin → chunked cs → Z.of_nat (length path) < 505 →
  ∃ blk, holds blk (concat cs) ∧
    ftp_list c path w = Some (if decide (nf = 226) then (0, Some (blk, Z.of_nat (length (concat cs)))) else (nf, None),
      mk_world ds (opens w) (<[c := mk_descr after []]> (fds w))
        (trace w ++ [Out c PASV; Dial host port; Out c (bytes "LIST " ++ path ++ crlf); Close s])).
Proof.
  intros Ec Ed Es Hs P1 P2 C1 C2 C3 C4 [F0 F1] F2 Hfin Hcs Lp. assert (Ns : c ≠ s) by congruence.
  set (w1 := said c (bytes "LIST " ++ path ++ crlf) (Some rf :: after) (dialled s (mk_descr ((Some <$> cs) ++ fin :: l) t) host port ds (said c PASV (Some rc :: Some rf :: after) w))).
  destruct (list_loop_eq s cs fin l t Hfin Hcs (rounds s w1) (malloc 512) [] w1) as (blk&Hloop&Hblk).
  { simpl. by simplify_map_eq. }
  { unfold rounds, w1. simpl. rewrite lookup_insert_ne, lookup_insert_eq by done. simpl. rewrite length_app, length_fmap. simpl. lia. }
  { done. } { by vm_compute. }
  exists blk. split; [exact Hblk|]. unfold ftp_list. run by (eapply pasv_eq; eassumption).
  rewrite decide_False by done. run by (apply sprintf_eq; rewrite !length_app; simpl; lia).
  run by (eapply sendcmd_eq; [simpl; rewrite lookup_insert_ne by done; by rewrite lookup_insert_eq|done|done]).
  rewrite decide_False by lia. run by done. fold PASV w1. run by exact Hloop. run by by apply close_eq.
  run by (eapply read_result_eq; [simpl; by simplify_map_eq|exact F1|exact F2]).
  replace (heard c _ _) with (mk_world ds (opens w) (<[c := mk_descr after []]> (fds w))
        (trace w ++ [Out c PASV; Dial host port; Out c (bytes "LIST " ++ path ++ crlf); Close s])).
  - destruct (decide (nf = 226)); [by rewrite decide_False by naive_solver|by rewrite decide_True].
  - apply world_eq; simpl; [|by rewrite <-!app_assoc]. apply map_eq. intros k.
    destruct (decide (k = c)), (decide (k = s)); by simplify_map_eq.
Qed.

(** C38. What a transfer leaves behind when it does not end well.  [*stop] set
    after a chunk: -1, the chunk is written and not counted, and the server's
    last word stays unread, so that the next command of any kind takes it for
    its own answer.  A refusal: the caller gets the number, the file is closed,
    the data connection stays open.  A reply of 512 bytes to any command: its
    terminator falls outside the buffer. *)
Theorem ftp_failures x w s d size stop : ready x w → Z.of_nat (length s) < 505 → counter size →
  (∀ cs y l, ¬ refused x → way x (x_s x) (x_h x) ((Some <$> cs) ++ Some y :: l) → chunked (cs ++ [y]) →
    Forall (λ b, b = false) (take (length cs) stop) → stop !! length cs = Some true →
    ∃ w', ftp_retrfile (x_c x) s d size stop w = Some ((-1, added size (Z.of_nat (length (concat cs)))), w') ∧
      written (x_h x) w w' = concat cs ++ y ∧
      ∀ cmd, ftp_sendcmd (x_c x) cmd w' = Some (x_nfinal x, said (x_c x) cmd (x_after x) w')) ∧
  (refused x → ∃ w', ftp_retrfile (x_c x) s d size stop w = Some ((x_ncmd x, size), w') ∧
    fds w' !! x_s x = Some (x_sd x) ∧ fds w' !! x_h x = None) ∧
  (∀ v c cmd r rest, fds v !! c = Some (mk_descr (Some r :: rest) []) → Z.of_nat (length r) = 512 → ftp_sendcmd c cmd v = None).
Proof.
  intros R Ls Hsz. pose proof (ready_ne x w R) as [Nh Ns]. split_and!.
  - intros cs y l Hgr Hw Hcs Hst Hy. eexists. split; [by rewrite retr_begin by done; eapply carry_stopped|]. split.
    + rewrite written_transfer, concat_app by done. simpl. by rewrite app_nil_r.
    + intros cmd. destruct (rd_final x w R) as [F1 F2]. eapply sendcmd_eq; [simpl; by rewrite lookup_insert_eq|done..].
  - intros Href. rewrite retr_begin by done. unfold carry_out. rewrite decide_True by done.
    eexists. split; [by run by by apply close_eq|]. pose proof (rd_hs x w R). split; simpl; by simplify_map_eq.
  - intros v c cmd r rest E L. unfold ftp_sendcmd, ftp_sendcmd_re. unfold mbind at 1, M_bind at 1.
    run by (eapply send_eq; exact E). rewrite decide_False by lia. run by (eapply recv_eq; [exact E|simpl; lia]).
    rewrite decide_False by lia. by rewrite decide_True.
Qed.

(** ** A session: control connection 3, file 4, data connection 5 *)

Definition ok : list ascii := bytes "200 Type set" ++ crlf.
Definition entering : list ascii := bytes "227 Entering (127,0,0,1,4,1)" ++ crlf.
Definition opening : list ascii := bytes "150 Opening" ++ crlf.
Definition complete : list ascii := bytes "226 Done" ++ crlf.
Definition no_file : list ascii := bytes "550 None" ++ crlf.
Definition session (cmd : list ascii) (n : Z) (hd sd : descr) : exchange :=
  mk_exchange 3 4 5 hd sd ok entering cmd complete 200 n 226 [] (bytes "127.0.0.1") 1025 [] [].
Definition session_world (cmd : list ascii) (hd sd : descr) : world :=
  mk_world [mk_dial (Some 5) true true true sd] [Some (4, hd)] {[3 := mk_descr [Some ok; Some entering; Some cmd; Some complete] []]} [].

Lemma session_passive : passive entering (bytes "127.0.0.1") 1025.
Proof. by exists 127, 0, 0, 1, 4, 1. Qed.

Lemma session_ready cmd n hd sd : fits cmd → code cmd = Some n → ready (session cmd n hd sd) (session_world cmd hd sd).
Proof. intros. split; try done. split; [by vm_compute|by apply session_passive]. Qed.

Definition up : list (list ascii) := [bytes "hello "; bytes "world"].
Definition down : list (list ascii) := [bytes "hel"; bytes "lo world"].
Definition source (cs : list (list ascii)) : descr := mk_descr ((Some <$> cs) ++ [Some []]) [].
Definition sink : descr := mk_descr [] [].

Lemma up_chunked : chunked up ∧ chunked down.
Proof. split; repeat constructor; by vm_compute. Qed.

Lemma ftp_roundtrip_witness :
  ∃ w' v',
    ftp_storfile 3 (bytes "a") (bytes "b") (Some 0) [] (session_world opening (source up) sink) = Some ((0, Some 11), w') ∧
    ftp_retrfile 3 (bytes "b") (bytes "c") (Some 0) [] (session_world opening sink (source down)) = Some ((0, Some 11), v') ∧
    written 5 (session_world opening (source up) sink) w' = bytes "hello world" ∧
    written 4 (session_world opening sink (source down)) v' = bytes "hello world" ∧
    fds w' = {[3 := mk_descr [] []]} ∧ fds v' = {[3 := mk_descr [] []]}.
Proof.
  assert (Hg : ∀ hd sd, ¬ refused (session opening 150 hd sd)) by (intros ?? [H|H]; [by vm_compute in H|done]).
  assert (Hc : counter (Some 0)) by (by intros ? [= <-]).
  apply (ftp_roundtrip (session opening 150 (source up) sink) (session opening 150 sink (source down))
    (session_world opening (source up) sink) (session_world opening sink (source down)) up down
    (bytes "a") (bytes "b") (bytes "b") (bytes "c") (Some 0) (Some 0) [] [] [] [] (Some []) (Some []));
    try done; try apply up_chunked; try apply Hg; try (by right);
    [by apply session_ready|exists [], []; by right|by apply session_ready|exists [], []; by left].
Defined.

Definition list_world : world :=
  mk_world [mk_dial (Some 5) true true true (source down)] [] {[3 := mk_descr [Some entering; Some opening; Some complete] []]} [].

Lemma ftp_list_spec_witness :
  ∃ blk, holds blk (bytes "hello world") ∧
    ftp_list 3 (bytes "/") list_world =
    Some ((0, Some (blk, 11)), mk_world [] [] {[3 := mk_descr [] []]}
      [Out 3 PASV; Dial (bytes "127.0.0.1") 1025; Out 3 (bytes "LIST /" ++ crlf); Close 5]).
Proof.
  apply (ftp_list_spec 3 (bytes "/") list_world entering opening complete [] (bytes "127.0.0.1") 1025 5 down (Some []) [] [] [] 150 226);
    try done; [apply session_passive|by right|apply up_chunked].
Defined.

Lemma ftp_failures_witness :
  (∃ w', ftp_retrfile 3 (bytes "b") (bytes "c") (Some 0) [false; true] (session_world opening sink (source down)) = Some ((-1, Some 3), w') ∧
    written 4 (session_world opening sink (source down)) w' = bytes "hello world" ∧
    ∀ cmd, ftp_sendcmd 3 cmd w' = Some (226, said 3 cmd [] w')) ∧
  (∃ w', ftp_retrfile 3 (bytes "b") (bytes "c") (Some 0) [] (session_world no_file sink (source down)) = Some ((550, Some 0), w') ∧
    fds w' !! 5 = Some (source down) ∧ fds w' !! 4 = None).
Proof.
  assert (Hc : counter (Some 0)) by (by intros ? [= <-]).
  split.
  - apply (ftp_failures (session opening 150 sink (source down)) (session_world opening sink (source down)) (bytes "b") (bytes "c") (Some 0) [false; true])
      with (cs := [bytes "hel"]) (y := bytes "lo world") (l := [Some []]); try done; [by apply session_ready|intros [H|H]; [by vm_compute in H|done]|exists [], []; by left|apply up_chunked|by repeat constructor].
  - apply (ftp_failures (session no_file 550 sink (source down)) (session_world no_file sink (source down)) (bytes "b") (bytes "c") (Some 0) []);
      try done; [by apply session_ready|by left].
Defined.
