(* ===== verification/Http.v ===== *)
(** * src/http/http_client.cpp: HTTP requests by libcurl.

    libcurl is a parameter: what it answers when it is asked for a handle, and
    what it does with a list of options and the callback. *)

From S2P Require Import Prelude PString.

Local Open Scope Z_scope.

Definition CURLE_FAILED_INIT : Z := 2.
Definition CURLE_WRITE_ERROR : Z := 23.

(** The options that the client sets; its callbacks by name. *)
Inductive opt :=
  | VERBOSE (v : Z) | DEBUGFUNCTION_OnDebug
  | URL (s : list ascii) | POST (v : Z) | POSTFIELDS (s : list ascii)
  | READFUNCTION_NULL | WRITEFUNCTION_OnWriteData | WRITEDATA_strResponse
  | NOSIGNAL (v : Z) | CONNECTTIMEOUT (v : Z) | TIMEOUT (v : Z)
  | SSL_VERIFYPEER (v : bool) | SSL_VERIFYHOST (v : bool) | CAINFO (s : list ascii).
#[export] Instance opt_eq_dec : EqDecision opt.
Proof. solve_decision. Defined.

Inductive call := Init | Setopt (h : Z) (o : opt) | Perform (h : Z) | Cleanup (h : Z).

(** ** Callbacks *)

Inductive curl_infotype := CURLINFO_TEXT | CURLINFO_HEADER_IN | CURLINFO_HEADER_OUT | CURLINFO_DATA_IN | CURLINFO_DATA_OUT | CURLINFO_OTHER.
(** What is printed, up to a NUL that libcurl does not put there, and the
    result. *)
Definition OnDebug (itype : curl_infotype) (pData : list ascii) : list ascii * Z :=
  let line tag := bytes tag ++ c_str pData ++ ["010"%char] in
  (match itype with
   | CURLINFO_HEADER_IN => line "[HEADER_IN]" | CURLINFO_HEADER_OUT => line "[HEADER_OUT]"
   | CURLINFO_DATA_IN => line "[DATA_IN]" | CURLINFO_DATA_OUT => line "[DATA_OUT]"
   | CURLINFO_TEXT | CURLINFO_OTHER => []
   end, 0).

(** [size_t], and the data that [buffer] points to; [None] is NULL. *)
Definition OnWriteData (buffer : option (list ascii)) (size nmemb : Z) (str : option (list ascii)) : Z * option (list ascii) :=
  match str, buffer with
  | Some s, Some pData => (nmemb, Some (s ++ take (Z.to_nat (u64 (size * nmemb))) pData))
  | _, _ => (u64 (-1), str)
  end.

(** ** libcurl *)

(** [curl_easy_perform] hands what it receives to the callback, in order, and
    gives up with a code of its own when the callback answers another number
    than the bytes it was given. *)
Fixpoint handed (blocks : list (Z * Z * list ascii)) (code : Z) (str : list ascii) : Z * list ascii :=
  match blocks with
  | [] => (code, str)
  | (size, nmemb, data) :: blocks =>
      let '(n, s) := OnWriteData (Some data) size nmemb (Some str) in
      if decide (n = size * nmemb) then handed blocks code (default str s) else (CURLE_WRITE_ERROR, default str s)
  end.

(** A libcurl: the handle it gives, and the code and response of a transfer
    with these options.  Its documentation: the data of a block are [size]
    times [nmemb] bytes, and [size] is always 1. *)
Class Curl := {
  easy_init : option Z;
  easy_perform : list opt → list ascii → Z * list ascii;
  received : list opt → list (Z * Z * list ascii);
  ending : list opt → Z;
  perform_hands opts str : WRITEFUNCTION_OnWriteData ∈ opts → WRITEDATA_strResponse ∈ opts →
    easy_perform opts str = handed (received opts) (ending opts) str;
  received_blocks opts : Forall (λ b, b.1.1 = 1 ∧ b.1.2 = Z.of_nat (length b.2) ∧ b.1.2 < 2 ^ 64) (received opts) }.

Section client.
Context `{Curl} (m_bDebug : bool).

(** ** Requests *)

Definition debug_opts : list opt := if m_bDebug then [VERBOSE 1; DEBUGFUNCTION_OnDebug] else [].
Definition timeouts : list opt := [CONNECTTIMEOUT 3; TIMEOUT 3].
Definition into_response : list opt := [READFUNCTION_NULL; WRITEFUNCTION_OnWriteData; WRITEDATA_strResponse; NOSIGNAL 1].
Definition ca_opts (pCaPath : option (list ascii)) : list opt :=
  match pCaPath with
  | None => [SSL_VERIFYPEER false; SSL_VERIFYHOST false]
  | Some p => [SSL_VERIFYPEER true; CAINFO p]
  end.

Definition Post_opts (strUrl strPost : list ascii) : list opt :=
  debug_opts ++ [URL (c_str strUrl); POST 1; POSTFIELDS (c_str strPost)] ++ into_response ++ timeouts.
Definition Get_opts (strUrl : list ascii) : list opt := debug_opts ++ [URL (c_str strUrl)] ++ into_response ++ timeouts.
Definition Posts_opts (strUrl strPost : list ascii) (pCaPath : option (list ascii)) : list opt :=
  debug_opts ++ [URL (c_str strUrl); POST 1; POSTFIELDS (c_str strPost)] ++ into_response ++ ca_opts pCaPath ++ timeouts.
Definition Gets_opts (strUrl : list ascii) (pCaPath : option (list ascii)) : list opt :=
  debug_opts ++ [URL (c_str strUrl)] ++ into_response ++ ca_opts pCaPath ++ timeouts.

(** The calls of one request, its result and the response afterwards. *)
Definition request (opts : list opt) (strResponse : list ascii) : list call * Z * list ascii :=
  match easy_init with
  | None => ([Init], CURLE_FAILED_INIT, strResponse)
  | Some curl =>
      let '(res, strResponse) := easy_perform opts strResponse in
      ([Init] ++ (Setopt curl <$> opts) ++ [Perform curl; Cleanup curl], res, strResponse)
  end.

Definition Post (strUrl strPost strResponse : list ascii) := request (Post_opts strUrl strPost) strResponse.
Definition Get (strUrl strResponse : list ascii) := request (Get_opts strUrl) strResponse.
Definition Posts (strUrl strPost strResponse : list ascii) (pCaPath : option (list ascii)) := request (Posts_opts strUrl strPost pCaPath) strResponse.
Definition Gets (strUrl strResponse : list ascii) (pCaPath : option (list ascii)) := request (Gets_opts strUrl pCaPath) strResponse.

(** ** What holds of all four *)

Lemma handed_eq blocks code str : Forall (λ b, b.1.1 = 1 ∧ b.1.2 = Z.of_nat (length b.2) ∧ b.1.2 < 2 ^ 64) blocks →
  handed blocks code str = (code, str ++ concat blocks.*2).
Proof.
  intros Hb. revert str. induction Hb as [|[[size nmemb] data] blocks (H1&H2&H3) _ IH]; intros str; simpl in *; [by rewrite app_nil_r|].
  subst. rewrite Z.mul_1_l, decide_True, u64_small, Nat2Z.id, firstn_all by lia. rewrite IH. by rewrite <-app_assoc.
Qed.

Inductive operation := OPost (url body : list ascii) | OGet (url : list ascii) | OPosts (url body : list ascii) (ca : option (list ascii)) | OGets (url : list ascii) (ca : option (list ascii)).
Definition perform_op (o : operation) (resp : list ascii) : list call * Z * list ascii :=
  match o with
  | OPost u b => Post u b resp | OGet u => Get u resp
  | OPosts u b ca => Posts u b resp ca | OGets u ca => Gets u resp ca
  end.
Definition op_opts (o : operation) : list opt :=
  match o with OPost u b => Post_opts u b | OGet u => Get_opts u | OPosts u b ca => Posts_opts u b ca | OGets u ca => Gets_opts u ca end.
Definition op_url (o : operation) : list ascii := match o with OPost u _ | OGet u | OPosts u _ _ | OGets u _ => u end.

Lemma op_opts_in o x : x ∈ [URL (c_str (op_url o))] ++ into_response ++ timeouts → x ∈ op_opts o.
Proof.
  unfold op_opts, Post_opts, Get_opts, Posts_opts, Gets_opts. destruct o; simpl op_url; rewrite !elem_of_app, ?elem_of_cons, ?elem_of_nil; naive_solver.
Qed.

(** C37. A request brings the response.  Whatever the operation: without a
    handle it answers CURLE_FAILED_INIT and leaves the response alone; with
    one, every byte that libcurl receives is appended to the response in order,
    behind what it held before and also when the transfer fails in the middle,
    the result is libcurl's, the handle is released, once and last, and the
    transfer has the address up to its first NUL, both timeouts of three
    seconds and no signals.  Without a CA file the two https operations switch
    the checks of the peer off, and only they do. *)
Theorem http_request o resp :
  (easy_init = None → perform_op o resp = ([Init], CURLE_FAILED_INIT, resp)) ∧
  (∀ h, easy_init = Some h → perform_op o resp =
    ([Init] ++ (Setopt h <$> op_opts o) ++ [Perform h; Cleanup h], ending (op_opts o), resp ++ concat (received (op_opts o)).*2)) ∧
  (∀ x, x ∈ [URL (c_str (op_url o)); NOSIGNAL 1; CONNECTTIMEOUT 3; TIMEOUT 3] → x ∈ op_opts o) ∧
  (SSL_VERIFYPEER false ∈ op_opts o ↔ match o with OPosts _ _ None | OGets _ None => True | _ => False end).
Proof.
  assert (Hreq : ∀ opts, perform_op o resp = request opts resp → opts = op_opts o →
    (easy_init = None → perform_op o resp = ([Init], CURLE_FAILED_INIT, resp)) ∧
    (∀ h, easy_init = Some h → perform_op o resp =
      ([Init] ++ (Setopt h <$> op_opts o) ++ [Perform h; Cleanup h], ending (op_opts o), resp ++ concat (received (op_opts o)).*2))).
  { intros opts -> ->. unfold request. split; [by intros ->|]. intros h ->.
    rewrite perform_hands by (apply op_opts_in; apply elem_of_app; right; apply elem_of_app; left; set_solver).
    by rewrite handed_eq by apply received_blocks. }
  destruct (Hreq (op_opts o)) as [H1 H2]; [by destruct o|done|].
  split_and!; [done|done| |].
  - intros x Hx. apply op_opts_in. set_unfold in Hx. set_unfold. naive_solver.
  - unfold op_opts, Post_opts, Get_opts, Posts_opts, Gets_opts, debug_opts, ca_opts.
    destruct o as [| |? ? [|]|? [|]], m_bDebug; cbn; set_unfold; clear; intuition congruence.
Qed.
End client.

(** A libcurl that always receives two blocks. *)
Definition two_blocks : list (Z * Z * list ascii) := [(1, 3, bytes "abc"); (1, 2, bytes "de")].
#[refine, export] Instance two_block_curl : Curl := {
  easy_init := Some 9; easy_perform _ str := handed two_blocks 0 str; received _ := two_blocks; ending _ := 0 }.
Proof. all: intros; try done. repeat constructor. Defined.
Lemma http_request_witness :
  Post false (bytes "http://h/") (bytes "a=1") (bytes "old ") =
  ([Init] ++ (Setopt 9 <$> Post_opts false (bytes "http://h/") (bytes "a=1")) ++ [Perform 9; Cleanup 9], 0, bytes "old abcde").
Proof. destruct (http_request false (OPost (bytes "http://h/") (bytes "a=1")) (bytes "old ")) as (_&E&_). exact (E 9 eq_refl). Defined.
