(* ===== verification/SeqLock.v ===== *)
(** * src/lock/seqlock.h: a sequence lock, as steps of a writer and a reader.

    The data are two words that hold the number of the last write; they are
    written and read one after the other.  Every access to shared memory is a
    step; the fences make the accesses happen in the order of the program. *)

From stdpp Require Import relations.
From S2P Require Import Prelude.

Local Open Scope Z_scope.

(** ** The operations, alone *)

Record seqlock_t := mk_seqlock { sequence : Z }.
Definition init_seqlock : seqlock_t := mk_seqlock 0.
Definition write_seqlock (pl : seqlock_t) : seqlock_t := mk_seqlock (u32 (sequence pl + 1)).
Definition write_sequnlock (pl : seqlock_t) : seqlock_t := mk_seqlock (u32 (sequence pl + 1)).
(** One turn of [read_seqbegin]: nothing while a write is under way. *)
Definition read_seqbegin (pl : seqlock_t) : option Z := if decide (Z.land (sequence pl) 1 = 0) then Some (sequence pl) else None.
Definition read_seqretry (pl : seqlock_t) (start : Z) : bool := bool_decide (sequence pl ≠ start).

(** ** Steps *)

Inductive writer := W_out | W_locked | W_first | W_both.
Inductive reader := R_out | R_begun (start : Z) | R_first (start a : Z) | R_both (start a b : Z) | R_accepted (a b : Z).

(** [written]: how many writes have been completed. *)
Record sys := mk_sys { lock : seqlock_t; word0 : Z; word1 : Z; written : Z; writers : list writer; reading : reader }.

Definition goes (i : nat) (k : writer) (s : sys) : list writer := <[i := k]> (writers s).
Inductive wstep (i : nat) : sys → sys → Prop :=
  | w_lock s : writers s !! i = Some W_out →
      wstep i s (mk_sys (write_seqlock (lock s)) (word0 s) (word1 s) (written s) (goes i W_locked s) (reading s))
  | w_first s : writers s !! i = Some W_locked →
      wstep i s (mk_sys (lock s) (written s + 1) (word1 s) (written s) (goes i W_first s) (reading s))
  | w_both s : writers s !! i = Some W_first →
      wstep i s (mk_sys (lock s) (word0 s) (written s + 1) (written s) (goes i W_both s) (reading s))
  | w_unlock s : writers s !! i = Some W_both →
      wstep i s (mk_sys (write_sequnlock (lock s)) (word0 s) (word1 s) (written s + 1) (goes i W_out s) (reading s)).

Definition reads (k : reader) (s : sys) : sys := mk_sys (lock s) (word0 s) (word1 s) (written s) (writers s) k.
Inductive rstep : sys → sys → Prop :=
  | r_begin s start : reading s = R_out → read_seqbegin (lock s) = Some start → rstep s (reads (R_begun start) s)
  | r_first s start : reading s = R_begun start → rstep s (reads (R_first start (word0 s)) s)
  | r_both s start a : reading s = R_first start a → rstep s (reads (R_both start a (word1 s)) s)
  | r_end s start a b : reading s = R_both start a b →
      rstep s (reads (if read_seqretry (lock s) start then R_out else R_accepted a b) s)
  | r_again s a b : reading s = R_accepted a b → rstep s (reads R_out s).
Definition step (s s' : sys) : Prop := (∃ i, wstep i s s') ∨ rstep s s'.

Definition start_sys (n : nat) : sys := mk_sys init_seqlock 0 0 0 (replicate n W_out) R_out.

(** ** One writer *)

Definition phase (k : writer) : Z := match k with W_out => 0 | _ => 1 end.
(** What the words are where the writer is. *)
Definition words_ok (k : writer) (s : sys) : Prop :=
  word0 s = written s + (match k with W_first | W_both => 1 | _ => 0 end) ∧
  word1 s = written s + (match k with W_both => 1 | _ => 0 end).
(** A reader that began at [start] has seen version [start / 2], unless the
    sequence has moved on since. *)
Definition seen (start a n : Z) : Prop := start = n → a = start / 2.
Record inv (s : sys) : Prop := {
  iv_writer : ∃ k, writers s = [k] ∧ words_ok k s ∧ sequence (lock s) = u32 (2 * written s + phase k);
  iv_written : 0 ≤ written s;
  iv_reader n : n = 2 * written s + (match writers s with [k] => phase k | _ => 0 end) → n < 2 ^ 32 →
    match reading s with
    | R_out => True
    | R_begun start => start `mod` 2 = 0 ∧ 0 ≤ start ≤ n
    | R_first start a => start `mod` 2 = 0 ∧ 0 ≤ start ≤ n ∧ seen start a n
    | R_both start a b => start `mod` 2 = 0 ∧ 0 ≤ start ≤ n ∧ seen start a n ∧ seen start b n
    | R_accepted a b => a = b ∧ 0 ≤ a ≤ written s
    end }.

Lemma inv_start_sys : inv (start_sys 1).
Proof. split; [|done|done]. exists W_out. by repeat split. Qed.

Lemma lock_inv_wstep i s s' : inv s → wstep i s s' → inv s'.
Proof.
  intros [(k&Ek&[Hw0 Hw1]&Hseq) Hn Hr] Hs.
  assert (Hk : ∀ j, writers s !! i = Some j → i = 0%nat ∧ j = k).
  { intros j. rewrite Ek. destruct i; [by intros [= <-]|done]. }
  rewrite Ek in Hr. simpl in Hr.
  destruct Hs as [s Hi|s Hi|s Hi|s Hi]; apply Hk in Hi as [-> <-]; unfold goes; rewrite ?Ek; simpl in *.
  all: split; simpl; [eexists; split; [done|]; split; [split; simpl in *; lia|]|lia|].
  all: try (simpl; rewrite Hseq, ?u32_add_l; f_equal; lia). all: try done.
  all: intros n -> Hlt; simpl in *.
  all: specialize (Hr _ eq_refl ltac:(lia)); destruct (reading s); try done; unfold seen in *; intuition lia.
Qed.

(** With an even sequence nothing is being written. *)
Lemma words_even k s : words_ok k s → (2 * written s + phase k) `mod` 2 = 0 →
  word0 s = (2 * written s + phase k) / 2 ∧ word1 s = (2 * written s + phase k) / 2.
Proof. intros [H0 H1] He. destruct k; simpl in *; Z.div_mod_to_equations; lia. Qed.

Lemma lock_inv_rstep s s' : inv s → rstep s s' → (2 * written s + 2 < 2 ^ 32) → inv s'.
Proof.
  intros [(k&Ek&[Hw0 Hw1]&Hseq) Hn Hr] Hs Hb. rewrite Ek in Hr. simpl in Hr.
  assert (Hp : 0 ≤ phase k ≤ 1) by (destruct k; simpl; lia). specialize (Hr _ eq_refl ltac:(lia)).
  rewrite u32_small in Hseq by lia.
  destruct Hs as [s start Hi Hb'|s start Hi|s start a Hi|s start a b Hi|s a b Hi]; rewrite Hi in Hr.
  all: split; simpl; [exists k; split; [done|]; split; [done|rewrite u32_small by lia; done]|done|]; rewrite ?Ek; intros n -> Hlt; simpl.
  - unfold read_seqbegin in Hb'. case_decide as Hl; [|done]. injection Hb' as <-. change 1 with (Z.ones 1) in Hl.
    rewrite Z.land_ones in Hl by lia. rewrite Hseq in *. split; [done|lia].
  - destruct Hr as (H1&H2). split_and!; [done|lia|lia|]. intros ->. apply (words_even k); [done|naive_solver].
  - destruct Hr as (H1&H2&H3). split_and!; [done|lia|lia|done|]. intros ->. by apply (words_even k).
  - unfold read_seqretry. rewrite Hseq. destruct Hr as (H1&H2&H3&H4). case_bool_decide as E; [done|].
    subst start. rewrite (H3 eq_refl), (H4 eq_refl). split; [done|]. Z.div_mod_to_equations. lia.
  - done.
Qed.

Lemma lock_inv_steps s s' : inv s → rtc (λ a b, step a b ∧ 2 * written b + 2 < 2 ^ 32) s s' → 2 * written s + 2 < 2 ^ 32 → inv s'.
Proof.
  intros I. induction 1 as [|s1 s2 s3 [[[i Hw]|Hr] Hb] _ IH] in I |- *; intros Hs; [done| |].
  - apply IH; [by eapply lock_inv_wstep|done].
  - apply IH; [by apply (lock_inv_rstep s1)|done].
Qed.

(** A reader never accepts a torn read.  With one writer and fewer than 2^31
    writes, in every interleaving, a reader that [read_seqretry] lets go has
    read both words of the same write, one that has been completed. *)
Theorem seqlock_consistent s a b :
  rtc (λ a b, step a b ∧ 2 * written b + 2 < 2 ^ 32) (start_sys 1) s → reading s = R_accepted a b → a = b ∧ 0 ≤ a ≤ written s.
Proof.
  intros Hs Ha. pose proof (lock_inv_steps _ _ inv_start_sys Hs ltac:(by simpl)) as [(k&Ek&_&_) Hn Hr].
  rewrite Ek, Ha in Hr. assert (Hb : 2 * written s + 2 < 2 ^ 32).
  { apply rtc_inv_r in Hs as [<-|(s1&_&_&Hb)]; [by simpl|done]. }
  eapply Hr; [done|]. destruct k; simpl; lia.
Qed.

(** ** Two writers

    Nothing keeps them apart (the calls of spin_lock are commented out): while
    both are inside, the sequence is even, and a reader accepts one new word
    and one old. *)
Example two_writers_tear : ∃ s, rtc step (start_sys 2) s ∧ reading s = R_accepted 1 0 ∧ written s = 0.
Proof.
  eexists. split; [|split; [|]].
  - eapply rtc_l; [left; exists 0%nat; by apply w_lock|]. eapply rtc_l; [left; exists 1%nat; by apply w_lock|].
    eapply rtc_l; [left; exists 0%nat; by apply w_first|]. eapply rtc_l; [right; by eapply r_begin|].
    eapply rtc_l; [right; by eapply r_first|]. eapply rtc_l; [right; by eapply r_both|]. apply rtc_once. right. by eapply r_end.
  - reflexivity.
  - reflexivity.
Qed.
