(* ===== verification/Locks.v ===== *)
(** * src/lock/pure_lock.h and src/lock/pure_rwlock.h: mutexes and
    readers-writer locks as wrappers of the pthread calls.

    A wrapper is a list of calls with the answers they get, and what it
    returns. *)

From S2P Require Import Prelude.

Local Open Scope Z_scope.

Inductive call :=
  | Mutexattr_init | Mutexattr_setpshared (shared : bool) | Mutexattr_destroy
  | Mutex_init | Mutex_lock | Mutex_trylock | Mutex_unlock | Mutex_destroy
  | Rwlock_init | Rwlock_rdlock | Rwlock_wrlock | Rwlock_unlock | Rwlock_destroy
  | Perror.

(** A function that returns a value, falls off its end, or has used up the
    answers given. *)
Inductive lock_result := Returns (v : Z) | No_value | Goes_on.

Section wrappers.
(** The answer to a call, by the number of calls before; 0 is success. *)
Context (answer : nat → call → Z).

(** ** Mutexes *)

Definition pure_lock_init (n : nat) (range : Z) : list call * Z :=
  let shared := negb (range =? 0) in
  ([Mutexattr_init; Mutexattr_setpshared shared; Mutex_init], answer (S (S n)) Mutex_init).
Definition pure_lock_dolock (n : nat) : list call * Z := ([Mutex_lock], answer n Mutex_lock).
Definition pure_lock_unlock (n : nat) : list call * Z := ([Mutex_unlock], answer n Mutex_unlock).
Definition pure_lock_trylock (n : nat) : list call * Z := ([Mutex_trylock], answer n Mutex_trylock).
Definition pure_lock_destroy (n : nat) : list call * Z := ([Mutexattr_destroy; Mutex_destroy], 0).

(** ** Readers-writer locks *)

Definition EAGAIN : Z := 11.

Definition pure_rwlock_init (n : nat) : list call * Z := ([Rwlock_init], answer n Rwlock_init).
Definition pure_rwlock_unlock (n : nat) : list call * Z := ([Rwlock_unlock], answer n Rwlock_unlock).
Definition pure_rwlock_destroy (n : nat) : list call * Z := ([Rwlock_destroy], answer n Rwlock_destroy).

(** The loops over [fuel] calls.  [errno] is whatever an earlier call of the
    thread left there: the pthread calls answer with the error instead. *)
Fixpoint pure_rwlock_rdlock (fuel n : nat) (errno : Z) : list call * lock_result :=
  match fuel with
  | O => ([], Goes_on)
  | S fuel =>
      let ret := answer n Rwlock_rdlock in
      if ret =? 0 then ([Rwlock_rdlock], No_value)
      else if errno =? EAGAIN then
        let '(cs, o) := pure_rwlock_rdlock fuel (S n) errno in (Rwlock_rdlock :: cs, o)
      else ([Rwlock_rdlock; Perror], Returns ret)
  end.

(** [ret] stays 0 here. *)
Definition pure_rwlock_wrlock (n : nat) (errno : Z) : list call * lock_result :=
  let ret := 0 in
  if answer n Rwlock_wrlock =? 0 then ([Rwlock_wrlock], No_value)
  else if negb (ret =? 0) then
    if errno =? EAGAIN then ([Rwlock_wrlock], Goes_on) else ([Rwlock_wrlock; Perror], Returns ret)
  else ([Rwlock_wrlock], Returns ret).

(** ** What callers learn *)

(** A writer that got the lock gets no value, and one that did not gets 0,
    the value of success. *)
Theorem wrlock_hides_failure n errno :
  (pure_rwlock_wrlock n errno).2 =
    if answer n Rwlock_wrlock =? 0 then No_value else Returns 0.
Proof. unfold pure_rwlock_wrlock. by destruct (answer n Rwlock_wrlock =? 0). Qed.

(** A reader that gets the lock at once gets no value; a refusal is passed on,
    unless [errno] happens to be EAGAIN: then the call is repeated as long as
    it is refused, whatever the reason. *)
Theorem rdlock_outcomes fuel n errno :
  (answer n Rwlock_rdlock = 0 → (pure_rwlock_rdlock (S fuel) n errno).2 = No_value) ∧
  (answer n Rwlock_rdlock ≠ 0 → errno ≠ EAGAIN →
     (pure_rwlock_rdlock (S fuel) n errno).2 = Returns (answer n Rwlock_rdlock)) ∧
  ((∀ k, (n ≤ k < n + fuel)%nat → answer k Rwlock_rdlock ≠ 0) →
     pure_rwlock_rdlock fuel n EAGAIN = (replicate fuel Rwlock_rdlock, Goes_on)).
Proof.
  split; [|split].
  - intros E. simpl. by rewrite E.
  - intros E He. simpl. destruct (Z.eqb_spec (answer n Rwlock_rdlock) 0); [done|].
    by destruct (Z.eqb_spec errno EAGAIN).
  - revert n. induction fuel as [|fuel IH]; intros n Hk; [done|]. cbn [pure_rwlock_rdlock replicate].
    destruct (Z.eqb_spec (answer n Rwlock_rdlock) 0) as [E|_]; [by destruct (Hk n ltac:(lia))|].
    simpl. rewrite IH; [done|]. intros k Hk'. apply Hk. lia.
Qed.
End wrappers.
