(* ===== verification/RefCount.v ===== *)
(** * src/ref/refc.cpp: a reference count that deletes its object.

    Both operations are one atomic instruction on the counter, so threads take
    turns with whole calls. *)

From stdpp Require Import relations.
From S2P Require Import Prelude.

Local Open Scope Z_scope.

Record refc := mk_refc { m_refc : Z; deleted : bool }.

(** The constructor. *)
Definition new_refc : refc := mk_refc 1 false.

(** [None] is a use of the object after its deletion. *)
Definition add_ref (o : refc) : option (Z * refc) :=
  if deleted o then None
  else let m := u32 (m_refc o + 1) in Some (s32 m, mk_refc m false).

(** The value returned is [None] where the function falls off its end. *)
Definition release (o : refc) : option (option Z * refc) :=
  if deleted o then None
  else let ret := s32 (u32 (m_refc o - 1)) in
       Some (if ret =? 0 then (Some ret, mk_refc (u32 (m_refc o - 1)) true)
             else (None, mk_refc (u32 (m_refc o - 1)) false)).

(** The object and who holds references to it, an entry per reference.  A
    holder may take another reference, for itself or to hand it on, or give
    one back. *)
Inductive step : refc * list nat → refc * list nat → Prop :=
  | step_add o held t t' r o' : t ∈ held → Z.of_nat (length held) < 2 ^ 32 - 1 →
      add_ref o = Some (r, o') → step (o, held) (o', t' :: held)
  | step_release o held1 t held2 r o' : release o = Some (r, o') →
      step (o, held1 ++ t :: held2) (o', held1 ++ held2).

(** The counter counts the references. *)
Definition counted (x : refc * list nat) : Prop :=
  m_refc x.1 = Z.of_nat (length x.2) ∧ Z.of_nat (length x.2) < 2 ^ 32 ∧
  deleted x.1 = bool_decide (x.2 = []).

Lemma s32_zero m : 0 ≤ m < 2 ^ 32 → (s32 m =? 0) = (m =? 0).
Proof.
  intros Hm. apply eq_true_iff_eq. rewrite !Z.eqb_eq. unfold s32. split; [|by intros ->].
  intros E. destruct (decide (m < 2 ^ 31)); [|].
  - rewrite Z.mod_small in E by lia. lia.
  - rewrite <- (Z_mod_plus_full _ (-1)), Z.mod_small in E by lia. lia.
Qed.

Lemma counted_release o held1 t held2 : counted (o, held1 ++ t :: held2) →
  ∃ r o', release o = Some (r, o') ∧ counted (o', held1 ++ held2) ∧
    (is_Some r ↔ held1 ++ held2 = []).
Proof.
  intros (Hm&Hb&Hd). simpl in *. rewrite bool_decide_eq_false_2 in Hd by (by destruct held1).
  unfold release. rewrite Hd, Hm.
  set (k := Z.of_nat (length (held1 ++ held2))).
  assert (Z.of_nat (length (held1 ++ t :: held2)) - 1 = k) as Ek
    by (unfold k; rewrite !length_app; simpl; lia).
  rewrite Ek. assert (0 ≤ k < 2 ^ 32) as Hk by lia. rewrite u32_small, s32_zero by done.
  assert (k = 0 ↔ held1 ++ held2 = []) as Hz.
  { unfold k. split; [intros E; apply nil_length_inv; lia|intros E; by rewrite E]. }
  destruct (Z.eqb_spec k 0) as [E|E]; do 2 eexists; (split; [reflexivity|]).
  - split; [|split; [by intros _; apply Hz|by eexists]].
    split; [done|]. split; [by apply Hk|]. simpl. symmetry. apply bool_decide_eq_true. by apply Hz.
  - split; [|split; [by intros []|by intros ?%Hz]].
    split; [done|]. split; [by apply Hk|]. simpl. symmetry. apply bool_decide_eq_false. by intros ?%Hz.
Qed.

Lemma counted_add o held t : counted (o, held) → t ∈ held →
  Z.of_nat (length held) < 2 ^ 32 - 1 →
  ∃ r o', add_ref o = Some (r, o') ∧ r = s32 (Z.of_nat (S (length held))) ∧ ∀ t', counted (o', t' :: held).
Proof.
  intros (Hm&Hb&Hd) Ht Hl. simpl in *.
  rewrite bool_decide_eq_false_2 in Hd by (intros ->; by apply not_elem_of_nil in Ht).
  unfold add_ref. rewrite Hd, Hm, u32_small by lia.
  do 2 eexists. split; [done|]. split; [f_equal; lia|]. intros t'. split; [simpl; lia|].
  split; [simpl; lia|done].
Qed.

Lemma counted_step x y : step x y → counted x → counted y.
Proof.
  intros [o held t t' r o' Ht Hl E|o held1 t held2 r o' E] Hc.
  - destruct (counted_add _ _ _ Hc Ht Hl) as (r'&o''&E'&_&Hc'). rewrite E in E'. by injection E' as <- <-.
  - destruct (counted_release _ _ _ _ Hc) as (r'&o''&E'&Hc'&_). rewrite E in E'. by injection E' as <- <-.
Qed.

(** The object lives exactly as long as references to it: in every history of
    a new object whose holders take and give back references, it has been
    deleted if and only if none is left, and until then every call of a holder
    is defined.  What a release returns, however, is a value only for the last
    one. *)
Theorem refc_lives t held o :
  rtc step (new_refc, [t]) (o, held) →
  (deleted o = true ↔ held = []) ∧
  ∀ u held1 held2, held = held1 ++ u :: held2 →
    is_Some (add_ref o) ∧
    ∃ r o', release o = Some (r, o') ∧ (is_Some r ↔ held1 ++ held2 = []) ∧
      (deleted o' = true ↔ held1 ++ held2 = []).
Proof.
  intros Hr. assert (counted (o, held)) as Hc.
  { assert (counted (new_refc, [t])) as H0 by (split; [done|]; split; [simpl; lia|done]).
    revert H0. generalize (new_refc, [t]) (o, held) Hr. clear.
    induction 1; eauto using counted_step. }
  pose proof Hc as (_&_&Hd). simpl in Hd. split; [rewrite Hd; apply bool_decide_eq_true|].
  intros u held1 held2 ->. rewrite bool_decide_eq_false_2 in Hd by (by destruct held1).
  split; [unfold add_ref; rewrite Hd; by eexists|].
  destruct (counted_release _ _ _ _ Hc) as (r&o'&E&(_&_&Hd')&Hr').
  exists r, o'. split; [done|]. split; [done|]. simpl in Hd'. rewrite Hd'. apply bool_decide_eq_true.
Qed.

(** Two holders: the first release returns nothing and keeps the object. *)
Lemma refc_lives_witness :
  (deleted (mk_refc 2 false) = true ↔ [2%nat; 1%nat] = []) ∧
  ∀ u held1 held2, [2%nat; 1%nat] = held1 ++ u :: held2 →
    is_Some (add_ref (mk_refc 2 false)) ∧
    ∃ r o', release (mk_refc 2 false) = Some (r, o') ∧ (is_Some r ↔ held1 ++ held2 = []) ∧
      (deleted o' = true ↔ held1 ++ held2 = []).
Proof.
  apply (refc_lives 1 [2%nat; 1%nat] (mk_refc 2 false)).
  apply rtc_once, (step_add _ _ 1 2 2); [apply list_elem_of_here|by vm_compute|done].
Defined.

(** The counter is 32 bits wide: the reference after 2^32 - 1 makes it 0, and
    two calls later the object is gone under all of them. *)
Lemma refc_wraps : ∃ r1 o1 r2 o2 o3,
  add_ref (mk_refc (2 ^ 32 - 1) false) = Some (r1, o1) ∧ add_ref o1 = Some (r2, o2) ∧
  release o2 = Some (Some 0, o3) ∧ deleted o3 = true.
Proof. by do 5 eexists. Qed.
