(* ===== verification/ShMem.v ===== *)
(** * src/shmem/p_shmem.cpp: System V shared memory.

    The kernel's side that matters is which addresses of the process a segment
    is mapped at, and which segments have been marked for removal; what shmget
    and shmat answer is an argument. *)

From S2P Require Import Prelude PString.

Local Open Scope Z_scope.

Definition MIN_STRING_SIZE : Z := 32.
Definition SUCCESS : Z := 0.
Definition FAILURE : Z := -1.

Record Sh_mem := mk_shmem {
  name : list ascii;
  shm_id : Z;
  shmaddr : Z;
  size : Z }.

(** [mapped]: an entry per mapping, the address and the segment. *)
Record kernel := mk_kernel { mapped : list (Z * Z); removed : gset Z }.

(** The constructor. *)
Definition new_shmem : Sh_mem := mk_shmem (replicate (Z.to_nat MIN_STRING_SIZE) NUL) 0 0 0.

(** [shmdt] undoes one mapping at the address, or fails. *)
Definition shmdt (addr : Z) (k : kernel) : Z * kernel :=
  match list_find (λ m : Z * Z, m.1 = addr) (mapped k) with
  | Some (i, _) => (0, mk_kernel (delete i (mapped k)) (removed k))
  | None => (-1, k)
  end.

(** [shmat] answers an address or -1. *)
Definition shmat (id addr : Z) (k : kernel) : kernel :=
  if addr =? -1 then k else mk_kernel ((addr, id) :: mapped k) (removed k).

(** The destructor; it also detaches what was never attached. *)
Definition delete_shmem (s : Sh_mem) (k : kernel) : Sh_mem * kernel :=
  (mk_shmem (name s) 0 0 (size s), (shmdt (shmaddr s) k).2).

(** What is common to [alloc] and [connectshm]: [id] and [addr] are the
    answers of shmget and shmat. *)
Definition attach (id addr : Z) (s : Sh_mem) (k : kernel) : Z * Sh_mem * kernel :=
  let s := mk_shmem (name s) id (shmaddr s) (size s) in
  if id <? 0 then (FAILURE, s, k)
  else (if addr =? -1 then FAILURE else SUCCESS, mk_shmem (name s) id addr (size s), shmat id addr k).

(** The key and the flags only reach shmget. *)
Definition alloc (shmsize key id addr : Z) (s : Sh_mem) (k : kernel) : Z * Sh_mem * kernel :=
  attach id addr (mk_shmem (name s) (shm_id s) (shmaddr s) shmsize) k.
Definition connectshm (key id addr : Z) (s : Sh_mem) (k : kernel) : Z * Sh_mem * kernel :=
  attach id addr s k.

(** [shmctl(shm_id, IPC_RMID)]; [allowed] is whether the kernel obeys.  The
    object stays as it is. *)
Definition free (allowed : bool) (s : Sh_mem) (k : kernel) : Z * kernel :=
  (0, if allowed then mk_kernel (mapped k) ({[shm_id s]} ∪ removed k) else k).

(** [rc_strncpy] with the length that counts the NUL. *)
Definition set_name (i_name : list ascii) (s : Sh_mem) : option Sh_mem :=
  n ← rc_strncpy (name s) MIN_STRING_SIZE (c_str i_name ++ [NUL]) (Z.of_nat (length (c_str i_name)) + 1);
  Some (mk_shmem n (shm_id s) (shmaddr s) (size s)).

(** ** What the calls leave behind *)

Lemma shmdt_first addr id k : shmdt addr (mk_kernel ((addr, id) :: mapped k) (removed k)) = (0, k).
Proof. unfold shmdt. cbn [list_find mapped fst]. rewrite decide_True by done. by destruct k. Qed.

(** One object, one mapping: an object that has attached a segment once and is
    destroyed leaves the process's mappings as they were; the return value
    tells whether the segment is there, and the object then has its address. *)
Theorem attach_detach id addr s k : 0 ≤ id → addr ≠ -1 → ∃ s',
  attach id addr s k = (SUCCESS, s', mk_kernel ((addr, id) :: mapped k) (removed k)) ∧
  shm_id s' = id ∧ shmaddr s' = addr ∧
  (delete_shmem s' (mk_kernel ((addr, id) :: mapped k) (removed k))).2 = k.
Proof.
  intros Hid Ha. unfold attach, shmat. destruct (Z.ltb_spec id 0); [lia|].
  destruct (Z.eqb_spec addr (-1)); [done|]. eexists. split; [reflexivity|]. split; [done|].
  split; [done|]. unfold delete_shmem. cbn [shmaddr]. by rewrite shmdt_first.
Qed.

Lemma attach_detach_witness : ∃ s',
  attach 5 4096 new_shmem (mk_kernel [] ∅) = (SUCCESS, s', mk_kernel [(4096, 5)] ∅) ∧
  shm_id s' = 5 ∧ shmaddr s' = 4096 ∧ (delete_shmem s' (mk_kernel [(4096, 5)] ∅)).2 = mk_kernel [] ∅.
Proof. apply (attach_detach 5 4096 new_shmem (mk_kernel [] ∅)); done. Defined.

(** A second segment makes the object forget the first, whose mapping stays
    for good; and removing before anything was attached removes segment 0,
    which may be anybody's. *)
Theorem shmem_misuse id1 id2 a1 a2 k :
  0 ≤ id1 → 0 ≤ id2 → a1 ≠ -1 → a2 ≠ -1 →
  (∃ s1 k1 s2 k2, attach id1 a1 new_shmem k = (SUCCESS, s1, k1) ∧
    attach id2 a2 s1 k1 = (SUCCESS, s2, k2) ∧
    (delete_shmem s2 k2).2 = mk_kernel ((a1, id1) :: mapped k) (removed k)) ∧
  removed (free true new_shmem k).2 = {[0]} ∪ removed k.
Proof.
  intros H1 H2 Ha1 Ha2. split; [|done].
  destruct (attach_detach id1 a1 new_shmem k H1 Ha1) as (s1&E1&_).
  destruct (attach_detach id2 a2 s1 (mk_kernel ((a1, id1) :: mapped k) (removed k)) H2 Ha2)
    as (s2&E2&_&_&E3).
  do 4 eexists. split; [exact E1|]. split; [exact E2|exact E3].
Qed.

Lemma shmem_misuse_witness :
  (∃ s1 k1 s2 k2, attach 5 4096 new_shmem (mk_kernel [] ∅) = (SUCCESS, s1, k1) ∧
    attach 6 8192 s1 k1 = (SUCCESS, s2, k2) ∧
    (delete_shmem s2 k2).2 = mk_kernel [(4096, 5)] ∅) ∧
  removed (free true new_shmem (mk_kernel [] ∅)).2 = {[0]} ∪ ∅.
Proof. apply (shmem_misuse 5 6 4096 8192 (mk_kernel [] ∅)); done. Defined.

(** Destroying an object that has nothing attached changes nothing, as long as
    nothing is mapped at 0 or at -1. *)
Lemma delete_unattached s k :
  shmaddr s = 0 ∨ shmaddr s = -1 → (∀ m, m ∈ mapped k → m.1 ≠ 0 ∧ m.1 ≠ -1) →
  (delete_shmem s k).2 = k.
Proof.
  intros Hs Hk. unfold delete_shmem, shmdt. simpl.
  destruct (list_find _ _) as [[i m]|] eqn:E; [|done].
  apply list_find_Some in E as (Hi&Hm&_). apply list_elem_of_lookup_2, Hk in Hi.
  rewrite Hm in Hi. destruct Hs; tauto.
Qed.
