(* ===== verification/Threads.v ===== *)
(** * src/thread/ppthread.cpp: threads spread over processors. *)

From S2P Require Import Prelude.

Local Open Scope Z_scope.

Record THRD_INFO := mk_info { cpu_nums : Z; threads_on_cpu : list Z; low_th : Z; high_th : Z; bindcpu : bool }.

(** [cpus] is what [get_cpu_num] answers; malloc succeeds. *)
Definition thread_info_init (cpus low high : Z) (bindsig : bool) : THRD_INFO :=
  let low_th := if decide (low < 0 ∨ cpus ≤ low) then 0 else low - 1 in
  let high_th := if decide (high ≤ low_th ∨ cpus ≤ high) then cpus - 1 else high in
  mk_info cpus (replicate (Z.to_nat cpus) 0) low_th high_th bindsig.

(** The loop from [i] on, [n] rounds: the first processor with the fewest
    threads; an index outside the array is undefined. *)
Fixpoint least (l : list Z) (n : nat) (i min index : Z) : option Z :=
  match n with
  | O => Some index
  | S n =>
      if decide (0 ≤ i) then
        t ← l !! Z.to_nat i;
        if decide (u32 t < min) then least l n (i + 1) (u32 t) i else least l n (i + 1) min index
      else None
  end.

(** [set_cpu] is what [thread_set_cpu] answers for a processor. *)
Definition spawn_thread (set_cpu : Z → Z) (p : THRD_INFO) : option THRD_INFO :=
  if bindcpu p then
    index ← least (threads_on_cpu p) (Z.to_nat (high_th p - low_th p + 1)) (low_th p) (2 ^ 32 - 1) 0;
    if decide (set_cpu index ≠ 0) then Some p
    else
      t ← threads_on_cpu p !! Z.to_nat index;
      Some (mk_info (cpu_nums p) (<[Z.to_nat index := t + 1]> (threads_on_cpu p)) (low_th p) (high_th p) (bindcpu p))
  else Some p.
Fixpoint spawn_threads (n : nat) (p : THRD_INFO) : option THRD_INFO :=
  match n with O => Some p | S n => p ← spawn_threads n p; spawn_thread (λ _, 0) p end.

(** ** The threads are spread evenly *)

(** [r] of [k] processors have [q + 1] threads, the others [q]. *)
Definition spread (k r : nat) (q : Z) : list Z := replicate r (q + 1) ++ replicate (k - r) q.

Lemma least_none l n : ∀ i min index, 0 ≤ i → (∀ j, (j < n)%nat → ∃ t, l !! Z.to_nat (i + Z.of_nat j) = Some t ∧ min ≤ u32 t) →
  least l n i min index = Some index.
Proof.
  induction n as [|n IH]; intros i min index Hi H; simpl; [done|]. rewrite decide_True by done.
  destruct (H 0%nat ltac:(lia)) as (t&E&Ht). replace (i + Z.of_nat 0) with i in E by lia. rewrite E. simpl. rewrite decide_False by lia.
  apply IH; [lia|]. intros j Hj. destruct (H (S j) ltac:(lia)) as (t'&E'&Ht'). exists t'. split; [|done]. rewrite <-E'. f_equal. lia.
Qed.

Lemma least_skip l m : ∀ n i min index, 0 ≤ i → (∀ j, (j < m)%nat → ∃ t, l !! Z.to_nat (i + Z.of_nat j) = Some t ∧ min ≤ u32 t) →
  least l (m + n) i min index = least l n (i + Z.of_nat m) min index.
Proof.
  induction m as [|m IH]; intros n i min index Hi H; simpl; [f_equal; lia|]. rewrite decide_True by done.
  destruct (H 0%nat ltac:(lia)) as (t&E&Ht). replace (i + Z.of_nat 0) with i in E by lia. rewrite E. simpl. rewrite decide_False by lia.
  rewrite IH; [f_equal; lia|lia|]. intros j Hj. destruct (H (S j) ltac:(lia)) as (t'&E'&Ht'). exists t'. split; [|done]. rewrite <-E'. f_equal. lia.
Qed.

Lemma spread_lookup pre post k r q j : (r ≤ k)%nat → (j < k)%nat →
  (pre ++ spread k r q ++ post) !! (length pre + j)%nat = Some (if decide (j < r)%nat then q + 1 else q).
Proof.
  intros Hr Hj. rewrite lookup_app_r by lia. replace (length pre + j - length pre)%nat with j by lia. unfold spread.
  destruct (decide (j < r)%nat).
  - rewrite !lookup_app_l by (rewrite ?length_app, ?length_replicate; lia). by apply lookup_replicate_2.
  - rewrite lookup_app_l by (rewrite ?length_app, ?length_replicate; lia). rewrite lookup_app_r by (rewrite length_replicate; lia).
    rewrite length_replicate. apply lookup_replicate_2. lia.
Qed.

(** The first of the processors with fewer threads is found. *)
Lemma least_spread pre post k r q : (r < k)%nat → 0 ≤ q < 2 ^ 31 →
  least (pre ++ spread k r q ++ post) k (Z.of_nat (length pre)) (2 ^ 32 - 1) 0 = Some (Z.of_nat (length pre + r)).
Proof.
  intros Hr Hq. set (l := pre ++ _).
  assert (Hl : ∀ j, (j < k)%nat → l !! Z.to_nat (Z.of_nat (length pre) + Z.of_nat j) = Some (if decide (j < r)%nat then q + 1 else q)).
  { intros j Hj. rewrite <-(spread_lookup pre post k r q j) by lia. f_equal. lia. }
  assert (Hrest : ∀ min index, q < min → least l (k - r) (Z.of_nat (length pre + r)) min index = Some (Z.of_nat (length pre + r)) ).
  { intros min index Hmin. replace (k - r)%nat with (S (k - r - 1)) by lia. simpl. rewrite decide_True by lia.
    pose proof (Hl r ltac:(lia)) as E. rewrite decide_False in E by lia.
    replace (Z.of_nat (length pre) + Z.of_nat r) with (Z.of_nat (length pre + r)) in E by lia. rewrite E. simpl.
    rewrite u32_small, decide_True by lia. apply least_none; [lia|]. intros j Hj. exists q. split; [|rewrite u32_small; lia].
    pose proof (Hl (S (r + j)) ltac:(lia)) as E2. rewrite decide_False in E2 by lia. rewrite <-E2. f_equal. lia. }
  destruct r as [|r].
  - rewrite Nat.add_0_r, Nat.sub_0_r in Hrest. rewrite Nat.add_0_r. apply Hrest. lia.
  - replace k with (S (r + (k - S r))) at 1 by lia. simpl. rewrite decide_True by lia.
    pose proof (Hl 0%nat ltac:(lia)) as E. rewrite decide_True, Z.add_0_r in E by lia. rewrite E. simpl.
    rewrite u32_small, decide_True by lia. rewrite least_skip; [|lia|].
    + rewrite <-(Hrest (q + 1) (Z.of_nat (length pre))) by lia. f_equal. lia.
    + intros j Hj. exists (q + 1). split; [|rewrite u32_small; lia].
      pose proof (Hl (S j) ltac:(lia)) as E2. rewrite decide_True in E2 by lia. rewrite <-E2. f_equal. lia.
Qed.

Lemma spread_insert pre post k r q : (r < k)%nat →
  <[(length pre + r)%nat := q + 1]> (pre ++ spread k r q ++ post) = pre ++ spread k (S r) q ++ post.
Proof.
  intros Hr. rewrite insert_app_r. f_equal. unfold spread. rewrite replicate_S_end, <-!app_assoc.
  replace (k - r)%nat with (S (k - S r)) by lia. rewrite insert_app_r_alt by (rewrite length_replicate; lia).
  by rewrite length_replicate, Nat.sub_diag.
Qed.

Lemma spread_full k q : spread k k q = spread k 0 (q + 1).
Proof. unfold spread. rewrite Nat.sub_diag, Nat.sub_0_r. by rewrite app_nil_r. Qed.

(** What [thread_info_init] promises of its bounds, when the processors are
    not counted from 0. *)
Lemma init_bounds cpus low high b : 0 < cpus → low ≠ 0 →
  let p := thread_info_init cpus low high b in 0 ≤ low_th p ≤ high_th p ∧ high_th p < cpus.
Proof. intros Hc Hl. simpl. repeat case_decide; lia. Qed.

(** Threads are spread evenly over the processors from [low_th] to [high_th]:
    after [n] of them, the first [n mod k] of the [k] processors have one more
    than the others, which have [n / k], and those outside have none.  (With
    [low] at 0 the first of them is processor -1: undefined.) *)
Theorem threads_spread cpus low high n : 0 < cpus < 2 ^ 31 → low ≠ 0 → Z.of_nat n < 2 ^ 31 →
  let p := thread_info_init cpus low high true in
  let k := Z.to_nat (high_th p - low_th p + 1) in
  ∃ p', spawn_threads n p = Some p' ∧ low_th p' = low_th p ∧ high_th p' = high_th p ∧
    threads_on_cpu p' = replicate (Z.to_nat (low_th p)) 0 ++ spread k (n mod k) (Z.of_nat (n / k)) ++ replicate (Z.to_nat (cpus - 1 - high_th p)) 0.
Proof.
  intros Hc Hl Hn p k. pose proof (init_bounds cpus low high true ltac:(lia) Hl) as [Hb1 Hb2]. fold p in Hb1, Hb2.
  assert (Hp : threads_on_cpu p = replicate (Z.to_nat cpus) 0 ∧ bindcpu p = true) by done. destruct Hp as [Hp1 Hp2]. clearbody p.
  assert (Hk : (0 < k)%nat) by lia.
  set (pre := replicate (Z.to_nat (low_th p)) 0). set (post := replicate (Z.to_nat (cpus - 1 - high_th p)) 0).
  cut (∃ p', spawn_threads n p = Some p' ∧ low_th p' = low_th p ∧ high_th p' = high_th p ∧ bindcpu p' = true ∧
    threads_on_cpu p' = pre ++ spread k (n mod k) (Z.of_nat (n / k)) ++ post); [naive_solver|].
  induction n as [|n IH].
  - exists p. split_and!; try done. rewrite Nat.Div0.mod_0_l, Nat.Div0.div_0_l. unfold spread. rewrite Nat.sub_0_r. simpl.
    unfold pre, post, k. rewrite <-!replicate_add. rewrite Hp1. f_equal. lia.
  - destruct IH as (p1&E1&L1&H1&B1&T1); [lia|]. simpl. rewrite E1. simpl. unfold spawn_thread. rewrite B1, L1, H1, T1. fold k.
    assert (Hpre : Z.of_nat (length pre) = low_th p) by (unfold pre; rewrite length_replicate; lia).
    pose proof (Nat.mod_upper_bound n k ltac:(lia)) as Hm. pose proof (Nat.div_mod_eq n k) as Hdm.
    assert (Hdle : (n / k ≤ n)%nat) by (apply Nat.Div0.div_le_upper_bound; nia).
    rewrite <-Hpre, least_spread by lia. simpl. rewrite Nat2Z.id.
    rewrite spread_lookup by lia. simpl. rewrite (decide_False (P := (n mod k < n mod k)%nat)) by lia.
    eexists. split; [done|]. split_and!; [done..|]. simpl. rewrite spread_insert by lia.
    destruct (decide (S (n mod k) = k)) as [E|E].
    + assert (Hq : (S n / k = S (n / k))%nat) by (symmetry; apply (Nat.div_unique _ _ _ 0); nia).
      assert (Hr : (S n mod k = 0)%nat) by (symmetry; apply (Nat.mod_unique _ _ (S (n / k))); nia).
      rewrite Hq, Hr, E, spread_full. do 3 f_equal. lia.
    + assert (Hq : (S n / k = n / k)%nat) by (symmetry; apply (Nat.div_unique _ _ _ (S (n mod k))); nia).
      assert (Hr : (S n mod k = S (n mod k))%nat) by (symmetry; apply (Nat.mod_unique _ _ (n / k)); nia).
      by rewrite Hq, Hr.
Qed.

Example low_zero_undefined : spawn_thread (λ _, 0) (thread_info_init 4 0 3 true) = None.
Proof. reflexivity. Qed.
