(* ===== verification/BlockPool.v ===== *)
(** * Allocators of blocks of one size, as their clients see them: what
    src/mem_pool promises to src/base. *)

From S2P Require Import Prelude.

Local Open Scope Z_scope.

Definition at_limit (limit : option nat) (n : nat) : Prop := match limit with Some k => (k ≤ n)%nat | None => False end.
#[export] Instance at_limit_dec limit n : Decision (at_limit limit n).
Proof. destruct limit; simpl; apply _. Defined.

(** [owns σ held]: the blocks [held] have been given out; a request is refused
    exactly at the limit, or when the memory is [starved]. *)
Class BlockPool {Σ} (alloc : M Σ Z) (free : Z → M Σ ()) (limit : option nat) (starved : Σ → Prop)
    (owns : Σ → list Z → Prop) : Prop := {
  bp_distinct σ held : owns σ held → NoDup held ∧ 0 ∉ held;
  bp_permutation σ held held' : held ≡ₚ held' → owns σ held → owns σ held';
  bp_alloc σ held : owns σ held →
    wp alloc (λ r σ', (r = 0 ∧ owns σ' held ∧ (at_limit limit (length held) ∨ starved σ)) ∨
      (r ≠ 0 ∧ owns σ' (r :: held) ∧ ¬ at_limit limit (length held) ∧ ¬ starved σ)) σ;
  bp_free σ held d : owns σ (d :: held) → wp (free d) (λ _ σ', owns σ' held) σ }.

(** So a request is refused at the limit or when starved, and only then. *)
Lemma bp_refusal {Σ} (alloc : M Σ Z) free limit starved owns `{!BlockPool alloc free limit starved owns} σ held :
  owns σ held → ∃ r σ', alloc σ = Some (r, σ') ∧ (r = 0 ↔ at_limit limit (length held) ∨ starved σ).
Proof.
  intros Ho. pose proof (bp_alloc σ held Ho) as H. apply wp_elim in H as (r&σ'&E&H). exists r, σ'. split; [done|].
  destruct H as [(->&_&?)|(?&_&?&?)]; tauto.
Qed.
