(* ===== verification/Slab.v ===== *)
(** * src/mem_pool/pure_slab.cpp: blocks of one size, cut from zones of malloc.

    A zone starts with the header of its pool; the blocks follow, each a
    header and the caller's data.  Headers live in two maps, by address; an
    access to a header outside all zones is undefined, and reading one that
    was not written since malloc's zone was cleared gives zeroes. *)

From S2P Require Import Prelude.

Local Open Scope Z_scope.

Definition ALIGNMENT : Z := 8.
Definition PAGE_SIZE : Z := 4096.
Definition CACHE_LINE_SIZE : Z := 64.

(** ** Data *)

Record memblock := mk_memblock { b_pre : Z; b_next : Z; b_mp : Z }.
Record mempool := mk_mempool { p_next : Z; usedhead : Z; freehead : Z; p_length : Z; off_t : Z }.
Definition sizeof_memblock : Z := 24.
Definition sizeof_mempool : Z := 32.

Record pure_slab := mk_slab {
  mp_mpool : Z;
  m_max_num : Z;
  m_alloced_num : Z;
  m_mbsize : Z;
  m_poolsize : Z;
  m_alignedsize : Z }.

(** The zones in use, by address, with their lengths; the headers in them; how
    often malloc was called. *)
Record memory := mk_memory {
  zones : gmap Z Z;
  pools : gmap Z mempool;
  blocks : gmap Z memblock;
  asked : nat }.

Notation S := (M (pure_slab * memory)).

(** The bytes from [a] on, [n] of them, lie in a zone. *)
Definition in_zone (zs : gmap Z Z) (a n : Z) : Prop := map_Exists (λ z l, z ≤ a ∧ a + n ≤ z + l) zs.
#[export] Instance in_zone_dec zs a n : Decision (in_zone zs a n).
Proof. apply _. Defined.

Definition with_b_pre (v : Z) (b : memblock) : memblock := mk_memblock v (b_next b) (b_mp b).
Definition with_b_next (v : Z) (b : memblock) : memblock := mk_memblock (b_pre b) v (b_mp b).
Definition with_mp (v : Z) (b : memblock) : memblock := mk_memblock (b_pre b) (b_next b) v.
Definition with_p_next (v : Z) (p : mempool) : mempool := mk_mempool v (usedhead p) (freehead p) (p_length p) (off_t p).
Definition with_usedhead (v : Z) (p : mempool) : mempool := mk_mempool (p_next p) v (freehead p) (p_length p) (off_t p).
Definition with_freehead (v : Z) (p : mempool) : mempool := mk_mempool (p_next p) (usedhead p) v (p_length p) (off_t p).
Definition with_length (v : Z) (p : mempool) : mempool := mk_mempool (p_next p) (usedhead p) (freehead p) v (off_t p).
Definition with_off (v : Z) (p : mempool) : mempool := mk_mempool (p_next p) (usedhead p) (freehead p) (p_length p) v.
Definition with_pools (v : gmap Z mempool) (m : memory) : memory := mk_memory (zones m) v (blocks m) (asked m).
Definition with_blocks (v : gmap Z memblock) (m : memory) : memory := mk_memory (zones m) (pools m) v (asked m).

Definition block_of (m : memory) (a : Z) : memblock := default (mk_memblock 0 0 0) (blocks m !! a).
Definition pool_of (m : memory) (p : Z) : mempool := default (mk_mempool 0 0 0 0 0) (pools m !! p).

Definition get_block (a : Z) : S memblock := λ σ,
  if decide (in_zone (zones σ.2) a sizeof_memblock) then Some (block_of σ.2 a, σ) else None.
Definition set_block (a : Z) (f : memblock → memblock) : S () := λ σ,
  if decide (in_zone (zones σ.2) a sizeof_memblock)
  then Some ((), (σ.1, with_blocks (<[a := f (block_of σ.2 a)]> (blocks σ.2)) σ.2)) else None.
Definition get_pool (p : Z) : S mempool := λ σ,
  if decide (in_zone (zones σ.2) p sizeof_mempool) then Some (pool_of σ.2 p, σ) else None.
Definition set_pool (p : Z) (f : mempool → mempool) : S () := λ σ,
  if decide (in_zone (zones σ.2) p sizeof_mempool)
  then Some ((), (σ.1, with_pools (<[p := f (pool_of σ.2 p)]> (pools σ.2)) σ.2)) else None.
Definition get_slab : S pure_slab := gets fst.
Definition set_slab (f : pure_slab → pure_slab) : S () := modify (λ σ, (f σ.1, σ.2)).
Definition with_mpool (v : Z) (s : pure_slab) : pure_slab :=
  mk_slab v (m_max_num s) (m_alloced_num s) (m_mbsize s) (m_poolsize s) (m_alignedsize s).
Definition with_alloced (v : Z) (s : pure_slab) : pure_slab :=
  mk_slab (mp_mpool s) (m_max_num s) v (m_mbsize s) (m_poolsize s) (m_alignedsize s).

(** [memset]: nothing is left of what was in a zone. *)
Definition cleared {V} (z l : Z) (h : gmap Z V) : gmap Z V := filter (λ x, ¬ (z ≤ x.1 < z + l)) h.

Section slab.
(** malloc: the answer to its [n]th call, while these zones are in use, for a
    length; 0 is NULL. *)
Context (malloc : nat → gmap Z Z → Z → Z).

(** ** Zones *)

Definition new_zone (l : Z) : S Z := λ σ,
  let m := σ.2 in
  let z := malloc (asked m) (zones m) l in
  if decide (z = 0) then Some (0, (σ.1, mk_memory (zones m) (pools m) (blocks m) (asked m + 1)))
  else Some (z, (σ.1, mk_memory (<[z := l]> (zones m))
    (cleared z l (pools m)) (cleared z l (blocks m)) (asked m + 1))).

Definition delete_zone (z : Z) : S () := λ σ,
  if decide (is_Some (zones σ.2 !! z))
  then Some ((), (σ.1, mk_memory (delete z (zones σ.2)) (pools σ.2) (blocks σ.2) (asked σ.2))) else None.

Definition creat_mempool (p l : Z) : S Z :=
  if decide (p = 0) then
    true_mem ← new_zone l;
    if decide (true_mem = 0) then mret 0
    else
      let mp := pure_align_ptr true_mem CACHE_LINE_SIZE in
      set_pool mp (with_off (u8 (mp - true_mem)));;
      set_pool mp (with_p_next 0);;
      v ← get_pool mp; set_pool mp (with_length (u32 (l - off_t v)));;
      mret mp
  else
    vp ← get_pool p;
    if decide (p_next vp = 0) then
      true_mem ← new_zone l;
      if decide (true_mem = 0) then mret 0
      else
        set_pool p (with_p_next (pure_align_ptr true_mem CACHE_LINE_SIZE));;
        vp ← get_pool p; let mp := p_next vp in
        set_pool mp (with_off (u8 (mp - true_mem)));;
        set_pool mp (with_p_next 0);;
        v ← get_pool mp; set_pool mp (with_length (u32 (l - off_t v)));;
        mret mp
    else mret 0.

(** ** Cutting a pool into blocks *)

Fixpoint init_loop (fuel : nat) (p ul offs pos mbpre : Z) : S () :=
  match fuel with
  | O => stuck
  | Datatypes.S fuel =>
      v ← get_pool p;
      if decide (offs ≤ u32 (p_length v - ul)) then
        set_block pos (with_b_pre mbpre);;
        b ← get_block pos;
        (if decide (b_pre b = 0) then mret () else set_block (b_pre b) (with_b_next pos));;
        set_block pos (with_b_next 0);;
        init_loop fuel p ul (u32 (offs + ul)) (pos + ul) pos
      else mret ()
  end.

Fixpoint walk (fuel : nat) (ph : Z) : S () :=
  if decide (ph = 0) then mret () else
  match fuel with
  | O => stuck
  | Datatypes.S fuel => b ← get_block ph; walk fuel (b_next b)
  end.

Definition init_memblock (p ul : Z) : S () :=
  let mpalignsize := pure_align_u32 sizeof_mempool ALIGNMENT in
  let pos := p + mpalignsize in
  set_pool p (with_freehead pos);;
  v ← get_pool p;
  let rounds := Datatypes.S (Z.to_nat (p_length v / ul)) in
  init_loop rounds p ul mpalignsize pos 0;;
  v ← get_pool p; walk rounds (freehead v);;
  set_pool p (with_usedhead 0).

(** ** Allocation *)

(** The first pool with a free block, or the last pool. *)
Fixpoint find_pool (fuel : nat) (p : Z) : S Z :=
  v ← get_pool p;
  if decide (p_next v = 0) then mret p
  else if decide (freehead v = 0) then
    match fuel with O => stuck | Datatypes.S fuel => find_pool fuel (p_next v) end
  else mret p.

Definition take (p : Z) : S Z :=
  if decide (p = 0) then stuck else
  v ← get_pool p;
  if decide (freehead v = 0) then stuck else
    let b := freehead v in
    vb ← get_block b; set_pool p (with_freehead (b_next vb));;
    v ← get_pool p;
    (if decide (freehead v = 0) then mret () else set_block (freehead v) (with_b_pre 0));;
    set_block b (with_mp p);;
    v ← get_pool p;
    (if decide (usedhead v = 0) then mret () else set_block (usedhead v) (with_b_pre b));;
    v ← get_pool p; set_block b (with_b_next (usedhead v));;
    set_pool p (with_usedhead b);;
    v ← get_pool p; set_block (usedhead v) (with_b_pre 0);;
    s ← get_slab; set_slab (with_alloced (s32 (m_alloced_num s + 1)));;
    mret (b + m_alignedsize s).

Definition mempool_alloc (p : Z) : S Z :=
  s ← get_slab;
  if decide (m_max_num s ≠ -1 ∧ m_max_num s ≤ m_alloced_num s) then mret 0 else
  rounds ← gets (λ σ, size (pools σ.2));
  p ← find_pool rounds p;
  v ← get_pool p;
  if decide (freehead v = 0 ∧ p_next v = 0) then
    p ← creat_mempool p (m_poolsize s);
    if decide (p = 0) then mret 0 else init_memblock p (m_mbsize s);; take p
  else take p.

Definition slab_alloc : S Z := s ← get_slab; mempool_alloc (mp_mpool s).

(** ** Construction *)

Definition construct (block_size pool_size max_num : Z) : S () :=
  let alignedsize := pure_align_u32 sizeof_memblock ALIGNMENT in
  let mbsize := u32 (pure_align_u32 block_size ALIGNMENT + alignedsize) in
  let poolsize := pure_align_u32 pool_size PAGE_SIZE in
  set_slab (λ _, mk_slab 0 max_num 0 mbsize poolsize alignedsize);;
  mp ← creat_mempool 0 poolsize;
  set_slab (with_mpool mp);;
  if decide (mp = 0) then mret () else init_memblock mp mbsize.

(** The two constructors. *)
Definition pure_slab_2 (block_size pool_size : Z) : S () := construct block_size pool_size (-1).
Definition pure_slab_3 (block_size pool_size num : Z) : S () := construct block_size pool_size (s32 num).

(** ** Release *)

(** Out of the used list. *)
Definition remove_used (pmb : Z) : S () :=
  vb ← get_block pmb; let pmp := b_mp vb in
  if decide (b_pre vb = 0) then
    set_pool pmp (with_usedhead (b_next vb));;
    v ← get_pool pmp;
    if decide (usedhead v = 0) then mret () else set_block (usedhead v) (with_b_pre 0)
  else
    set_block (b_pre vb) (with_b_next (b_next vb));;
    vb ← get_block pmb;
    if decide (b_next vb = 0) then mret () else set_block (b_next vb) (with_b_pre (b_pre vb)).

Definition slab_free (data : Z) : S () :=
  s ← get_slab;
  let pmb := data - m_alignedsize s in
  vb ← get_block pmb; let pmp := b_mp vb in
  remove_used pmb;;
  v ← get_pool pmp;
  (if decide (freehead v = 0) then mret () else set_block (freehead v) (with_b_pre pmb));;
  set_block pmb (with_b_pre 0);;
  v ← get_pool pmp; set_block pmb (with_b_next (freehead v));;
  set_pool pmp (with_freehead pmb);;
  set_slab (λ s, with_alloced (s32 (m_alloced_num s - 1)) s).

Fixpoint destroy_loop (fuel : nat) (dpmp : Z) : S () :=
  if decide (dpmp = 0) then mret () else
  match fuel with
  | O => stuck
  | Datatypes.S fuel =>
      v ← get_pool dpmp;
      vp ← get_pool dpmp; delete_zone (dpmp - off_t vp);;
      destroy_loop fuel (p_next v)
  end.

Definition destroy : S () :=
  s ← get_slab; rounds ← gets (λ σ, size (pools σ.2));
  destroy_loop rounds (mp_mpool s);;
  set_slab (with_mpool 0).
End slab.
