(* ===== verification/SlabProofs.v ===== *)
(** * src/mem_pool/pure_slab.cpp: every operation on lists of pools. *)

From S2P Require Import Prelude DLL Slab.

Local Open Scope Z_scope.

#[export] Program Instance block_links : Links memblock :=
  {| prev := b_pre; next := b_next; link_prev := with_b_pre; link_next := with_b_next |}.
Solve All Obligations with done.

(** ** Symbolic execution *)

Section rules.
Implicit Types (zs : gmap Z Z) (ps : gmap Z mempool) (bs : gmap Z memblock) (s : pure_slab).

Lemma wp_get_block s zs ps bs k a v (Q : _ → _ → Prop) :
  in_zone zs a sizeof_memblock → bs !! a = Some v → Q v (s, mk_memory zs ps bs k) →
  wp (get_block a) Q (s, mk_memory zs ps bs k).
Proof. intros Hz Ha HQ. unfold wp, get_block, block_of. simpl. by rewrite decide_True, Ha. Qed.
Lemma wp_set_block s zs ps bs k a f (Q : () → _ → Prop) :
  in_zone zs a sizeof_memblock →
  Q () (s, mk_memory zs ps (<[a := f (default (mk_memblock 0 0 0) (bs !! a))]> bs) k) →
  wp (set_block a f) Q (s, mk_memory zs ps bs k).
Proof. intros Hz HQ. unfold wp, set_block, block_of. simpl. by rewrite decide_True. Qed.
Lemma wp_get_pool s zs ps bs k p v (Q : _ → _ → Prop) :
  in_zone zs p sizeof_mempool → ps !! p = Some v → Q v (s, mk_memory zs ps bs k) →
  wp (get_pool p) Q (s, mk_memory zs ps bs k).
Proof. intros Hz Ha HQ. unfold wp, get_pool, pool_of. simpl. by rewrite decide_True, Ha. Qed.
Lemma wp_set_pool s zs ps bs k p f (Q : () → _ → Prop) :
  in_zone zs p sizeof_mempool →
  Q () (s, mk_memory zs (<[p := f (default (mk_mempool 0 0 0 0 0) (ps !! p))]> ps) bs k) →
  wp (set_pool p f) Q (s, mk_memory zs ps bs k).
Proof. intros Hz HQ. unfold wp, set_pool, pool_of. simpl. by rewrite decide_True. Qed.
Lemma wp_update_pool s zs ps bs k p f v (Q : () → _ → Prop) :
  in_zone zs p sizeof_mempool → ps !! p = Some v → Q () (s, mk_memory zs (<[p := f v]> ps) bs k) →
  wp (set_pool p f) Q (s, mk_memory zs ps bs k).
Proof. intros Hz Hp HQ. apply wp_set_pool; [done|]. by rewrite Hp. Qed.
End rules.

Ltac sl_look := repeat first [rewrite lookup_insert_eq|rewrite lookup_insert_ne by (done || congruence)]; eassumption || reflexivity.
Ltac sl_step :=
  lazymatch goal with
  | |- wp (mbind _ _) _ _ => apply wp_bind
  | |- wp (mret _) _ _ => apply wp_ret
  | |- wp get_slab _ _ => apply wp_gets
  | |- wp (gets _) _ _ => apply wp_gets
  | |- wp (set_slab _) _ _ => apply wp_modify
  | |- wp (get_block _) _ _ => eapply wp_get_block; [by auto|sl_look|]
  | |- wp (set_block _ _) _ _ => eapply wp_set_block; [by auto|]
  | |- wp (get_pool _) _ _ => eapply wp_get_pool; [by auto|sl_look|]
  | |- wp (set_pool _ _) _ _ => first [eapply wp_update_pool; [by auto|sl_look|]|eapply wp_set_pool; [by auto|]]
  end; simpl.
Ltac sl_if := first [rewrite decide_True by (done || congruence)|rewrite decide_False by (done || congruence)].
Ltac sl_steps := repeat first [sl_step|sl_if].

Lemma in_zone_sub zs z l a n : zs !! z = Some l → z ≤ a → a + n ≤ z + l → in_zone zs a n.
Proof. intros Hz ??. by exists z, l. Qed.

(** ** Addresses of blocks *)

(** [n] addresses from [pos] on, [ul] apart. *)
Fixpoint cut (ul pos : Z) (n : nat) : list Z :=
  match n with O => [] | Datatypes.S n => pos :: cut ul (pos + ul) n end.

Lemma elem_of_cut ul pos n a :
  a ∈ cut ul pos n ↔ ∃ k, 0 ≤ k < Z.of_nat n ∧ a = pos + k * ul.
Proof.
  revert pos. induction n as [|n IH]; intros pos; cbn [cut].
  - rewrite elem_of_nil. split; [done|]. intros (k&?&_). lia.
  - rewrite elem_of_cons, IH. split.
    + intros [->|(k&?&->)]; [exists 0; lia|exists (k + 1); lia].
    + intros (k&?&->). destruct (decide (k = 0)) as [->|]; [left; lia|right; exists (k - 1); lia].
Qed.
Lemma length_cut ul pos n : length (cut ul pos n) = n.
Proof. revert pos. induction n as [|n IH]; intros pos; cbn [cut length]; [done|by rewrite IH]. Qed.
Lemma nodup_cut ul pos n : 0 < ul → NoDup (cut ul pos n).
Proof.
  intros Hul. revert pos. induction n as [|n IH]; intros pos; cbn [cut]; [apply NoDup_nil_2|].
  apply list.NoDup_cons. split; [|apply IH]. rewrite elem_of_cut. intros (k&?&?). nia.
Qed.

(** ** Cutting a pool into blocks *)

Section init.
Context (ul : Z) (s : pure_slab) (zs : gmap Z Z) (ps : gmap Z mempool) (k : nat).
Implicit Types (bs : gmap Z memblock).

Lemma init_loop_ok p v len : ∀ n fuel offs done bs,
  in_zone zs p sizeof_mempool → ps !! p = Some v → p_length v = len →
  24 ≤ ul → 0 ≤ offs → ul ≤ len < 2 ^ 32 → 0 < p →
  (∀ a, p ≤ a → a + 24 ≤ p + len → in_zone zs a sizeof_memblock) →
  offs + Z.of_nat n * ul ≤ len < offs + (Z.of_nat n + 1) * ul → (n < fuel)%nat →
  dll bs 0 done 0 → NoDup done → (∀ a, a ∈ done → p ≤ a < p + offs ∧ a + 24 ≤ p + len) →
  wp (init_loop fuel p ul offs (p + offs) (final 0 done))
    (λ _ σ, ∃ bs', σ = (s, mk_memory zs ps bs' k) ∧ dll bs' 0 (done ++ cut ul (p + offs) n) 0 ∧
      (∀ b, b ∉ done ++ cut ul (p + offs) n → bs' !! b = bs !! b))
    (s, mk_memory zs ps bs k).
Proof.
  induction n as [|n IH]; intros fuel offs done bs Hp Hv Hlen Hul Ho Hl Hp0 Hz Hn Hf Hd Hnd Hin;
    (destruct fuel as [|fuel]; [lia|]); cbn [init_loop cut]; do 2 sl_step; rewrite Hlen, u32_small by lia.
  - rewrite decide_False by lia. sl_step. exists bs. by rewrite app_nil_r.
  - rewrite decide_True by nia. set (a := p + offs).
    assert (Ha : in_zone zs a sizeof_memblock) by (apply Hz; nia).
    assert (Had : a ∉ done) by (intros [? _]%Hin; lia). assert (Ha0 : a ≠ 0) by lia.
    rewrite u32_small by nia. replace (a + ul) with (p + (offs + ul)) by lia.
    apply wp_bind. sl_step. do 3 sl_step.
    set (w := default (mk_memblock 0 0 0) (bs !! a)).
    assert (Hstep : ∃ bs1, dll bs1 0 (done ++ [a]) 0 ∧ (∀ b, b ∉ done ++ [a] → bs1 !! b = bs !! b) ∧
      wp (if decide (final 0 done = 0) then mret () else set_block (final 0 done) (with_b_next a))
        (λ _ σ, wp (set_block a (with_b_next 0)) (λ _ σ, σ = (s, mk_memory zs ps bs1 k)) σ)
        (s, mk_memory zs ps (<[a := with_b_pre (final 0 done) w]> bs) k)).
    { destruct (last_split done) as [->|(l'&b&->)].
      - exists (<[a := with_b_next 0 (with_b_pre 0 w)]> bs). split; [|split].
        + exists (with_b_next 0 (with_b_pre 0 w)). by rewrite lookup_insert_eq.
        + intros b Hb. rewrite lookup_insert_ne; [done|]. by intros ->; apply Hb, in_snoc.
        + sl_if. do 2 sl_step. by rewrite lookup_insert_eq, insert_insert_eq.
      - rewrite final_snoc in *. assert (Hb : b ≠ a) by (intros ->; by apply Had, in_snoc).
        destruct (Hin b (in_snoc _ _)) as [Hb1 Hb2]. destruct (dll_allocated _ _ _ _ b Hd (in_snoc _ _)) as [x Hx].
        exists (<[a := with_b_next 0 (with_b_pre b w)]> (<[b := with_b_next a x]> bs)). split; [|split].
        + eapply (dll_snoc bs _ (l' ++ [b]) a (with_b_next 0 (with_b_pre b w)) Hd Hnd).
          * by rewrite lookup_insert_eq.
          * by rewrite final_snoc.
          * done.
          * intros c Hc. rewrite final_snoc. rewrite lookup_insert_ne by (intros <-; done).
            destruct (decide (c = b)) as [->|]; [by rewrite lookup_insert_eq, Hx|by rewrite lookup_insert_ne].
        + intros c Hc. rewrite elem_of_app, list_elem_of_singleton in Hc.
          rewrite !lookup_insert_ne; [done| |]; intros ->; apply Hc; [left; apply in_snoc|by right].
        + rewrite decide_False by lia. assert (in_zone zs b sizeof_memblock) by (apply Hz; lia).
          do 2 sl_step. rewrite lookup_insert_ne by done.
          rewrite (lookup_insert_ne _ a b), Hx, lookup_insert_eq by done. simpl.
          by rewrite (insert_insert_ne _ b a), insert_insert_eq by done. }
    destruct Hstep as (bs1&Hd1&Hf1&Hrun). eapply wp_mono; [exact Hrun|]. intros [] σ1 H1. apply wp_bind.
    eapply wp_mono; [exact H1|]. intros [] σ2 ->.
    pose proof (IH fuel (offs + ul) (done ++ [a]) bs1) as Hrest. rewrite final_snoc in Hrest.
    eapply wp_mono; [apply Hrest; try done; try lia|]; clear IH Hrest.
    + rewrite list.NoDup_app. split; [done|]. split; [|apply NoDup_singleton]. by intros b Hb ->%list_elem_of_singleton.
    + intros b [Hb| ->%list_elem_of_singleton]%elem_of_app; [destruct (Hin b Hb)|]; lia || nia.
    + intros _ σ (bs'&->&Hd'&Hf'). exists bs'. rewrite <- app_assoc in Hd', Hf'. split_and!; [done..|].
      intros b Hb. rewrite Hf' by done. apply Hf1. intros Hb'. apply Hb.
      rewrite elem_of_app in Hb' |- *. destruct Hb' as [?| ->%list_elem_of_singleton]; [by left|right; apply list_elem_of_here].
Qed.

Lemma walk_ok bs l : ∀ p fuel,
  dll bs p l 0 → 0 ∉ l → (∀ a, a ∈ l → in_zone zs a sizeof_memblock) → (length l ≤ fuel)%nat →
  wp (walk fuel (first l 0)) (λ _ σ, σ = (s, mk_memory zs ps bs k)) (s, mk_memory zs ps bs k).
Proof.
  induction l as [|a l IH]; intros p fuel Hd H0 Hz Hf; [by destruct fuel|].
  destruct fuel as [|fuel]; [simpl in Hf; lia|]. destruct Hd as (v&Ha&_&Hx&Hd). cbn [walk first hd].
  assert (in_zone zs a sizeof_memblock) by (apply Hz, list_elem_of_here).
  rewrite decide_False by (intros ->; apply H0, list_elem_of_here). do 2 sl_step.
  change (b_next v) with (next v). rewrite Hx. apply (IH a); [done| | |simpl in Hf; lia].
  - intros ?. by apply H0, list_elem_of_further.
  - intros b Hb. by apply Hz, list_elem_of_further.
Qed.
End init.

(** How many blocks a pool of length [len] has. *)
Definition blocks_in (ul len : Z) : nat := Z.to_nat ((len - 32) / ul).

Lemma blocks_in_spec ul len :
  0 < ul → 32 + ul ≤ len →
  (1 ≤ blocks_in ul len)%nat ∧
  32 + Z.of_nat (blocks_in ul len) * ul ≤ len < 32 + (Z.of_nat (blocks_in ul len) + 1) * ul ∧
  (blocks_in ul len ≤ Z.to_nat (len / ul))%nat.
Proof.
  intros Hul Hlen. unfold blocks_in. pose proof (Z_div_mod_eq_full (len - 32) ul).
  pose proof (Z.mod_pos_bound (len - 32) ul Hul).
  assert (1 ≤ (len - 32) / ul) by (apply Z.div_le_lower_bound; lia).
  assert ((len - 32) / ul ≤ len / ul) by (apply Z.div_le_mono; lia). nia.
Qed.

Lemma cut_inside ul p len a :
  0 < ul → 32 + ul ≤ len → a ∈ cut ul (p + 32) (blocks_in ul len) → p + 32 ≤ a ∧ a + ul ≤ p + len.
Proof.
  intros Hul Hlen (j&?&->)%elem_of_cut. destruct (blocks_in_spec ul len) as (_&?&_); [done..|]. nia.
Qed.

Lemma init_memblock_ok ul s zs ps bs k p nx u f len off :
  ps !! p = Some (mk_mempool nx u f len off) → 24 ≤ ul → 32 + ul ≤ len < 2 ^ 32 → 0 < p →
  (∀ a n, p ≤ a → a + n ≤ p + len → in_zone zs a n) →
  wp (init_memblock p ul)
    (λ _ σ, ∃ bs', σ = (s, mk_memory zs (<[p := mk_mempool nx 0 (p + 32) len off]> ps) bs' k) ∧
      dll bs' 0 (cut ul (p + 32) (blocks_in ul len)) 0 ∧
      (∀ b, b ∉ cut ul (p + 32) (blocks_in ul len) → bs' !! b = bs !! b))
    (s, mk_memory zs ps bs k).
Proof.
  intros Hv Hul Hlen Hp Hz. destruct (blocks_in_spec ul len) as (Hn1&Hn&Hfuel); [lia..|].
  pose proof (cut_inside ul p len) as Hl.
  set (n := blocks_in ul len) in *. set (l := cut ul (p + 32) n) in *.
  assert (Hpz : in_zone zs p sizeof_mempool) by (apply Hz; unfold sizeof_mempool; lia).
  unfold init_memblock. change (pure_align_u32 sizeof_mempool ALIGNMENT) with 32. cbv zeta.
  apply wp_bind. eapply wp_set_pool; [done|]. rewrite Hv. apply wp_bind.
  eapply wp_get_pool; [done|apply lookup_insert_eq|]. cbn [default id p_length with_freehead p_next usedhead off_t].
  assert (Hr : (n < Datatypes.S (Z.to_nat (len / ul)))%nat) by lia.
  revert Hr. generalize (Datatypes.S (Z.to_nat (len / ul))). intros rounds Hr.
  set (v := with_freehead (p + 32) (mk_mempool nx u f len off)). set (ps1 := <[p := v]> ps). apply wp_bind.
  assert (Hps1 : ps1 !! p = Some v) by apply lookup_insert_eq.
  eapply wp_mono; [apply (init_loop_ok ul s zs ps1 k p v len n rounds 32 []); try done; try lia|].
  - intros a ??. by apply Hz.
  - apply NoDup_nil_2.
  - intros a ?%elem_of_nil. done.
  - intros [] σ (bs'&->&Hd&Hf). do 2 sl_step. apply wp_bind.
    assert (E : first l 0 = p + 32) by (unfold l; destruct n; [lia|done]).
    pose proof (walk_ok s zs ps1 k bs' l 0 rounds Hd) as Hwalk. rewrite E in Hwalk.
    eapply wp_mono; [apply Hwalk|].
    + intros [??]%Hl; lia.
    + intros a [??]%Hl; [|lia..]. apply Hz; unfold sizeof_memblock; lia.
    + unfold l. rewrite length_cut. lia.
    + intros [] σ ->. sl_step. exists bs'. split; [|done]. do 2 f_equal. unfold ps1.
      by rewrite insert_insert_eq.
Qed.

(** ** Zones *)

Lemma lookup_cleared_out {V} z l (h : gmap Z V) a : ¬ (z ≤ a < z + l) → cleared z l h !! a = h !! a.
Proof.
  intros Ha. unfold cleared. rewrite map_lookup_filter. destruct (h !! a) as [v|]; [|done]. simpl.
  by rewrite option_guard_True.
Qed.
Lemma lookup_cleared_in {V} z l (h : gmap Z V) a : z ≤ a < z + l → cleared z l h !! a = None.
Proof.
  intros Ha. unfold cleared. rewrite map_lookup_filter. destruct (h !! a) as [v|]; [|done]. simpl.
  by rewrite option_guard_False by tauto.
Qed.

Definition apart (z l z' l' : Z) : Prop := z + l ≤ z' ∨ z' + l' ≤ z.

(** Zones do not overlap and lie in the address space. *)
Record zones_ok (zs : gmap Z Z) : Prop := {
  zo_range z l : zs !! z = Some l → 0 < z ∧ 0 < l ∧ z + l < 2 ^ 64;
  zo_apart z l z' l' : zs !! z = Some l → zs !! z' = Some l' → z ≠ z' → apart z l z' l' }.

(** What malloc promises: NULL, or a zone apart from all others. *)
Class Malloc (malloc : nat → gmap Z Z → Z → Z) : Prop :=
  malloc_ok n zs l : 0 < l → zones_ok zs → malloc n zs l ≠ 0 →
    0 < malloc n zs l ∧ malloc n zs l + l < 2 ^ 64 ∧
    ∀ z' l', zs !! z' = Some l' → apart (malloc n zs l) l z' l'.

Lemma malloc_fresh zs z l : (∀ z' l', zs !! z' = Some l' → apart z l z' l') → zones_ok zs → 0 < l → zs !! z = None.
Proof.
  intros Hz Hok Hl. destruct (zs !! z) as [l'|] eqn:E; [|done].
  destruct (zo_range zs Hok _ _ E) as (?&?&?). destruct (Hz _ _ E); lia.
Qed.
Lemma zones_ok_insert zs z l :
  zones_ok zs → 0 < z → 0 < l → z + l < 2 ^ 64 → (∀ z' l', zs !! z' = Some l' → apart z l z' l') →
  zones_ok (<[z := l]> zs).
Proof.
  intros [Hr Ha] Hz Hl Hzl Hap. split.
  - intros z1 l1 [[<- <-]|[_ H]]%lookup_insert_Some; [lia|by eauto].
  - intros z1 l1 z2 l2 [[<- <-]|[_ H1]]%lookup_insert_Some [[<- <-]|[_ H2]]%lookup_insert_Some Hne; [done|auto| |eauto].
    destruct (Hap _ _ H1); [by right|by left].
Qed.
Lemma in_zone_insert zs z l a n : zs !! z = None → in_zone zs a n → in_zone (<[z := l]> zs) a n.
Proof. intros Hz (z'&l'&Hz'&Ha). exists z', l'. rewrite lookup_insert_ne by congruence. done. Qed.

(** A block of length [ul] fits into a zone of length [L], wherever the zone
    starts. *)
Class Fits (ul L : Z) : Prop := fits : 24 ≤ ul ∧ ul + 95 ≤ L < 2 ^ 32.

Section pools.
Context (malloc : nat → gmap Z Z → Z → Z) `{!Malloc malloc} (ul L : Z) `{!Fits ul L}.

Let Hul : 24 ≤ ul.
Proof. apply (proj1 fits). Qed.
Let HL : ul + 95 ≤ L < 2 ^ 32.
Proof. apply (proj2 fits). Qed.

Implicit Types (zs : gmap Z Z) (ps : gmap Z mempool) (bs : gmap Z memblock) (s : pure_slab).

(** The place of a pool in its zone. *)
Lemma place z :
  0 < z → z + L < 2 ^ 64 →
  ∃ off, pure_align_ptr z CACHE_LINE_SIZE = z + off ∧ 0 ≤ off ≤ 63 ∧ u8 (z + off - z) = off ∧ u32 (L - off) = L - off.
Proof.
  intros Hz Hzl. unfold CACHE_LINE_SIZE. change 64 with (2 ^ 6). rewrite pure_align_ptr_spec by lia.
  destruct (round_up_spec z (2 ^ 6)) as [Hr _]; [lia|]. change (2 ^ 6) with 64 in *.
  exists (round_up z 64 - z). split_and!; try lia.
  - unfold u8. rewrite Z.mod_small; lia.
  - apply u32_small. lia.
Qed.

(** A new zone, and in it the header of an empty pool behind [p]. *)
Lemma creat_mempool_ok s zs ps bs k p vp :
  zones_ok zs →
  (p = 0 ∨ in_zone zs p sizeof_mempool ∧ ps !! p = Some vp ∧ p_next vp = 0) →
  let z := malloc k zs L in
  wp (creat_mempool malloc p L)
    (λ q σ,
      (z = 0 ∧ q = 0 ∧ σ = (s, mk_memory zs ps bs (k + 1))) ∨
      (z ≠ 0 ∧ ∃ off, 0 ≤ off ≤ 63 ∧ q = z + off ∧
        let ps' := if decide (p = 0) then cleared z L ps else <[p := with_p_next q vp]> (cleared z L ps) in
        σ = (s, mk_memory (<[z := L]> zs) (<[q := mk_mempool 0 0 0 (L - off) off]> ps') (cleared z L bs) (k + 1))))
    (s, mk_memory zs ps bs k).
Proof.
  intros Hok Hp z. unfold creat_mempool.
  assert (Hnew : ∀ (Q : Z → _ → Prop), (z = 0 → Q 0 (s, mk_memory zs ps bs (k + 1))) →
    (z ≠ 0 → Q z (s, mk_memory (<[z := L]> zs) (cleared z L ps) (cleared z L bs) (k + 1))) →
    wp (new_zone malloc L) Q (s, mk_memory zs ps bs k)).
  { intros Q H0 H1. unfold wp, new_zone. simpl. fold z. destruct (decide (z = 0)); auto. }
  assert (Hz : z ≠ 0 → 0 < z ∧ z + L < 2 ^ 64 ∧ ∀ z' l', zs !! z' = Some l' → apart z L z' l').
  { intros Hz. apply malloc_ok; [lia|done..]. }
  assert (Hinit : ∀ ps off (Q : Z → _ → Prop), z ≠ 0 → 0 ≤ off ≤ 63 → ps !! (z + off) = None → u32 (L - off) = L - off →
    Q (z + off) (s, mk_memory (<[z := L]> zs) (<[z + off := mk_mempool 0 0 0 (L - off) off]> ps) (cleared z L bs) (k + 1)) →
    wp (set_pool (z + off) (with_off off);; set_pool (z + off) (with_p_next 0);;
        v ← get_pool (z + off); set_pool (z + off) (with_length (u32 (L - off_t v)));; mret (z + off))
      Q (s, mk_memory (<[z := L]> zs) ps (cleared z L bs) (k + 1))).
  { intros ps' off Q Hz0 Ho Hnone Hlen HQ.
    assert (Hq : in_zone (<[z := L]> zs) (z + off) sizeof_mempool).
    { exists z, L. rewrite lookup_insert_eq. unfold sizeof_mempool. split; [done|lia]. }
    sl_steps. rewrite Hnone. simpl. rewrite Hlen, !insert_insert_eq. done. }
  destruct (decide (p = 0)) as [->|Hp0].
  - apply wp_bind, Hnew; intros Hz0; [sl_if; sl_step; by left|]. sl_if.
    destruct (Hz Hz0) as (Hz1&Hzl&_). destruct (place z Hz1 Hzl) as (off&->&Ho&Hu8&Hlen). rewrite Hu8.
    apply Hinit; [done..| |done|]. { apply lookup_cleared_in. lia. }
    right. split; [done|]. exists off. done.
  - destruct Hp as [|(Hpz&Hvp&Hnx)]; [done|]. do 2 sl_step. sl_if.
    apply wp_bind, Hnew; intros Hz0; [sl_if; sl_step; by left|]. sl_if.
    destruct (Hz Hz0) as (Hz1&Hzl&Hap). destruct (place z Hz1 Hzl) as (off&->&Ho&Hu8&Hlen).
    assert (Hpz' : in_zone (<[z := L]> zs) p sizeof_mempool) by (apply in_zone_insert; [apply (malloc_fresh zs z L); [done..|lia]|done]).
    assert (Hout : ¬ (z ≤ p < z + L)).
    { destruct Hpz as (z'&l'&Hz'&Hp1&Hp2). unfold sizeof_mempool in Hp2. destruct (Hap _ _ Hz'); lia. }
    do 4 sl_step. rewrite lookup_cleared_out, Hvp by done. simpl. rewrite Hu8.
    apply Hinit; [done..| |done|]. { rewrite lookup_insert_ne by lia. apply lookup_cleared_in. lia. }
    right. split; [done|]. exists off. done.
Qed.

(** ** Lists of pools *)

Record pool := mk_pool { at_ : Z; shift : Z; used : list Z; free : list Z }.
Definition all_blocks (P : pool) : list Z := used P ++ free P.

(** The pool [P], before the one at [nx], with its blocks in two lists. *)
Record pool_ok zs ps bs (nx : Z) (P : pool) : Prop := {
  po_head : ps !! at_ P = Some (mk_mempool nx (first (used P) 0) (first (free P) 0) (L - shift P) (shift P));
  po_zone : zs !! (at_ P - shift P) = Some L;
  po_shift : 0 ≤ shift P ≤ 63;
  po_pos : 0 < at_ P;
  po_blocks : all_blocks P ≡ₚ cut ul (at_ P + 32) (blocks_in ul (L - shift P));
  po_used : dll bs 0 (used P) 0;
  po_free : dll bs 0 (free P) 0;
  po_mp a : a ∈ used P → b_mp <$> bs !! a = Some (at_ P) }.

Definition head_or (l : list pool) (nx : Z) : Z := match l with [] => nx | P :: _ => at_ P end.
Fixpoint pools_ok zs ps bs (l : list pool) (nx : Z) : Prop :=
  match l with [] => True | P :: l => pool_ok zs ps bs (head_or l nx) P ∧ pools_ok zs ps bs l nx end.

Lemma head_or_app l1 l2 nx : head_or (l1 ++ l2) nx = head_or l1 (head_or l2 nx).
Proof. by destruct l1. Qed.
Lemma pools_ok_app zs ps bs l1 l2 nx :
  pools_ok zs ps bs (l1 ++ l2) nx ↔ pools_ok zs ps bs l1 (head_or l2 nx) ∧ pools_ok zs ps bs l2 nx.
Proof.
  induction l1 as [|P l1 IH]; cbn [app pools_ok]; [tauto|]. rewrite head_or_app, IH. tauto.
Qed.

Lemma pool_block zs ps bs nx P a :
  pool_ok zs ps bs nx P → a ∈ all_blocks P → at_ P + 32 ≤ a ∧ a + ul ≤ at_ P + (L - shift P).
Proof.
  intros [? ? ? ? Hb _ _ _] Ha. rewrite Hb in Ha. apply cut_inside in Ha; [|lia|lia]. lia.
Qed.
Lemma pool_block_zone zs ps bs nx P a : pool_ok zs ps bs nx P → a ∈ all_blocks P → in_zone zs a sizeof_memblock.
Proof.
  intros HP Ha. pose proof (pool_block _ _ _ _ _ _ HP Ha). destruct HP as [_ Hz Hs _ _ _ _ _].
  eapply in_zone_sub; [exact Hz| |unfold sizeof_memblock]; lia.
Qed.
Lemma pool_zone zs ps bs nx P : pool_ok zs ps bs nx P → in_zone zs (at_ P) sizeof_mempool.
Proof.
  intros [_ Hz Hs _ _ _ _ _]. eapply in_zone_sub; [exact Hz| |unfold sizeof_mempool]; lia.
Qed.
Lemma pool_nodup zs ps bs nx P : pool_ok zs ps bs nx P → NoDup (all_blocks P).
Proof. intros [_ _ _ _ Hb _ _ _]. rewrite Hb. apply nodup_cut. lia. Qed.
Lemma pool_nonempty zs ps bs nx P : pool_ok zs ps bs nx P → all_blocks P ≠ [].
Proof.
  intros [_ _ Hs _ Hb _ _ _] E. rewrite E in Hb. apply Permutation_nil_l in Hb.
  destruct (blocks_in_spec ul (L - shift P)) as [Hn _]; [lia..|]. apply (f_equal length) in Hb.
  rewrite length_cut in Hb. simpl in Hb. lia.
Qed.
Lemma pool_pos zs ps bs nx P a : pool_ok zs ps bs nx P → a ∈ all_blocks P → 0 < a.
Proof. intros HP Ha. pose proof (pool_block _ _ _ _ _ _ HP Ha). destruct HP. lia. Qed.

Lemma pool_frame zs ps bs zs' ps' bs' nx P :
  zs' !! (at_ P - shift P) = zs !! (at_ P - shift P) → ps' !! at_ P = ps !! at_ P →
  (∀ a, a ∈ all_blocks P → bs' !! a = bs !! a) → pool_ok zs ps bs nx P → pool_ok zs' ps' bs' nx P.
Proof.
  intros Hz Hp Hb [Hh Hzz Hs H0 Hbl Hu Hf Hm]. split; try done.
  - by rewrite Hp.
  - by rewrite Hz.
  - revert Hu. apply dll_frame. intros a Ha. apply Hb, elem_of_app. by left.
  - revert Hf. apply dll_frame. intros a Ha. apply Hb, elem_of_app. by right.
  - intros a Ha. rewrite Hb; [by apply Hm|]. apply elem_of_app. by left.
Qed.
Lemma pools_frame zs ps bs zs' ps' bs' nx l :
  (∀ P, P ∈ l → zs' !! (at_ P - shift P) = zs !! (at_ P - shift P) ∧ ps' !! at_ P = ps !! at_ P ∧
    ∀ a, a ∈ all_blocks P → bs' !! a = bs !! a) →
  pools_ok zs ps bs l nx → pools_ok zs' ps' bs' l nx.
Proof.
  induction l as [|P l IH]; intros Hl; [done|]. intros [HP Hok]. split.
  - destruct (Hl P) as (?&?&?); [apply list_elem_of_here|]. by eapply pool_frame.
  - apply IH; [|done]. intros Q HQ. by apply Hl, list_elem_of_further.
Qed.
Lemma pools_in zs ps bs l nx P : pools_ok zs ps bs l nx → P ∈ l → ∃ nx, pool_ok zs ps bs nx P.
Proof.
  intros Hl (l1&l2&->)%list_elem_of_split. apply pools_ok_app in Hl as [_ [HP _]]. eauto.
Qed.

(** ** Searching *)

Lemma find_pool_ok s zs ps bs k l : ∀ fuel,
  pools_ok zs ps bs l 0 → l ≠ [] → (length l ≤ fuel)%nat → 0 ∉ at_ <$> l →
  ∃ l1 P l2, l = l1 ++ P :: l2 ∧ (∀ Q, Q ∈ l1 → free Q = []) ∧ (free P ≠ [] ∨ l2 = []) ∧
    wp (find_pool fuel (head_or l 0)) (λ p σ, p = at_ P ∧ σ = (s, mk_memory zs ps bs k)) (s, mk_memory zs ps bs k).
Proof.
  induction l as [|P l IH]; intros fuel Hl Hne Hf H0; [done|]. destruct Hl as [HP Hl].
  pose proof (pool_zone _ _ _ _ _ HP) as Hz. destruct fuel as [|fuel]; [simpl in Hf; lia|].
  cbn [find_pool head_or]. destruct l as [|P' l].
  - exists [], P, []. split; [done|]. split; [by intros ? ?%elem_of_nil|]. split; [by right|].
    apply wp_bind. eapply wp_get_pool; [done|apply HP|]. simpl. by split.
  - assert (Hnx : at_ P' ≠ 0).
    { intros E. apply H0. rewrite !fmap_cons, E. apply list_elem_of_further, list_elem_of_here. }
    destruct (free P) as [|b f] eqn:Ef.
    + destruct (IH fuel) as (l1&Q&l2&E&H1&H2&Hrun); [done|done|simpl in Hf |- *; lia| |].
      { intros Hin. by apply H0, list_elem_of_further. }
      exists (P :: l1), Q, l2. rewrite E. split; [done|]. split.
      { intros R [->|HR]%elem_of_cons; [done|by apply H1]. }
      split; [done|]. apply wp_bind. eapply wp_get_pool; [done|apply HP|]. simpl.
      rewrite Ef. by repeat sl_if.
    + exists [], P, (P' :: l). split; [done|]. split; [by intros ? ?%elem_of_nil|]. split; [left; by rewrite Ef|].
      apply wp_bind. eapply wp_get_pool; [done|apply HP|]. simpl. sl_if. rewrite Ef. simpl.
      assert (0 < b). { eapply pool_pos; [exact HP|]. unfold all_blocks. rewrite Ef. apply elem_of_app. right. apply list_elem_of_here. }
      by rewrite decide_False by lia.
Qed.
(** ** Taking a block, and giving it back *)

Definition unless_null (q : Z) (f : memblock → memblock) bs : gmap Z memblock :=
  if decide (q = 0) then bs else <[q := f (default (mk_memblock 0 0 0) (bs !! q))]> bs.

Lemma wp_unless_null s zs ps bs k q f (Q : () → _ → Prop) :
  (q ≠ 0 → in_zone zs q sizeof_memblock) → Q () (s, mk_memory zs ps (unless_null q f bs) k) →
  wp (if decide (q = 0) then mret () else set_block q f) Q (s, mk_memory zs ps bs k).
Proof.
  intros Hz HQ. unfold unless_null in HQ. destruct (decide (q = 0)); [done|].
  by apply wp_set_block; [apply Hz|].
Qed.
Lemma lookup_unless_null q f bs a :
  unless_null q f bs !! a = if decide (q ≠ 0 ∧ q = a) then Some (f (default (mk_memblock 0 0 0) (bs !! q))) else bs !! a.
Proof.
  unfold unless_null. destruct (decide (q = 0)) as [->|]; [by rewrite decide_False by tauto|].
  destruct (decide (q = a)) as [->|].
  - by rewrite lookup_insert_eq, decide_True.
  - by rewrite lookup_insert_ne, decide_False by tauto.
Qed.

Lemma first_block zs ps bs nx P l :
  pool_ok zs ps bs nx P → (∀ a, a ∈ l → a ∈ all_blocks P) → first l 0 ≠ 0 → in_zone zs (first l 0) sizeof_memblock.
Proof. intros HP Hl H0. eapply pool_block_zone; [exact HP|]. apply Hl. by destruct (first_in l 0) as [[_ ?]|]. Qed.

(** What [unless_null] does to the first block of a list. *)
Lemma first_linked bs p l q v :
  dll bs p l 0 → first l 0 ≠ 0 →
  Some (with_b_pre q (default v (bs !! first l 0))) = link_prev q <$> bs !! first l 0.
Proof.
  intros Hl Hne. destruct (first_in l 0) as [[_ ?]|Hin]; [done|].
  by destruct (dll_allocated _ _ _ _ _ Hl Hin) as [w ->].
Qed.

(** The first free block becomes the first used one. *)
Lemma to_used zs ps bs ps' bs' nx P b f :
  pool_ok zs ps bs nx P → free P = b :: f →
  ps' !! at_ P = Some (mk_mempool nx b (first f 0) (L - shift P) (shift P)) →
  bs' !! b = Some (mk_memblock 0 (first (used P) 0) (at_ P)) →
  (∀ a, a ≠ b → bs' !! a =
    if decide (a ≠ 0 ∧ a = first (used P) 0) then link_prev b <$> bs !! a
    else if decide (a ≠ 0 ∧ a = first f 0) then link_prev 0 <$> bs !! a else bs !! a) →
  pool_ok zs ps' bs' nx (mk_pool (at_ P) (shift P) (b :: used P) f) ∧ (∀ a, a ∉ all_blocks P → bs' !! a = bs !! a).
Proof.
  intros HP Ef Hp' Hb2 Hrest. pose proof (pool_nodup _ _ _ _ _ HP) as Hnd.
  assert (Hpos : ∀ a, a ∈ all_blocks P → 0 < a) by (intros a; by eapply pool_pos).
  assert (Hu : ∀ a, a ∈ used P → a ∈ all_blocks P) by (intros a Ha; apply elem_of_app; by left).
  assert (Hf : ∀ a, a ∈ b :: f → a ∈ all_blocks P) by (intros a Ha; apply elem_of_app; right; by rewrite Ef).
  destruct HP as [Hh Hzz Hs H0 Hbl Hused Hfree Hmp]. rewrite Ef in Hfree.
  unfold all_blocks in Hnd. rewrite Ef in Hnd. pose proof Hnd as (Hbu&Hbf&Hnd2&Hdis)%nodup_middle. split.
  - split; cbn [at_ shift used free]; try done.
    + rewrite <- Hbl. unfold all_blocks. cbn [used free]. rewrite Ef. apply Permutation_middle.
    + apply (dll_push bs _ (used P) b (mk_memblock 0 (first (used P) 0) (at_ P))); try done.
      { by apply list.NoDup_app in Hnd2 as (?&_&_). }
      intros a Ha. rewrite Hrest by (intros ->; done). assert (0 < a) by (by apply Hpos, Hu).
      destruct (decide (a = first (used P) 0)); [by rewrite decide_True by lia|].
      rewrite decide_False, decide_False; [done| |tauto]. intros [_ ->]. apply (Hdis _ Ha).
      by destruct (first_in f 0) as [[_ ?]|?]; [lia|].
    + apply (dll_tail bs _ b f); [done| |].
      { by apply list.NoDup_app in Hnd as (_&_&?). }
      intros a Ha. rewrite Hrest by (intros ->; done). assert (0 < a) by (by apply Hpos, Hf, list_elem_of_further).
      rewrite decide_False; [|intros [_ ->]; by destruct (first_in (used P) 0) as [[_ ?]|Hin]; [lia|apply (Hdis _ Hin)]].
      destruct (decide (a = first f 0)); [by rewrite decide_True by lia|by rewrite decide_False by tauto].
    + intros a [->|Ha]%elem_of_cons; [by rewrite Hb2|]. rewrite Hrest by (intros ->; done).
      specialize (Hmp a Ha). repeat case_decide; destruct (bs !! a); simpl in *; done.
  - intros a Ha. rewrite Hrest by (intros ->; apply Ha, Hf, list_elem_of_here).
    rewrite decide_False, decide_False; [done| |]; intros [Ha0 ->]; apply Ha.
    + apply Hf, list_elem_of_further. by destruct (first_in f 0) as [[_ ?]|?].
    + apply Hu. by destruct (first_in (used P) 0) as [[_ ?]|?].
Qed.

Lemma take_ok s zs ps bs k nx P b f :
  pool_ok zs ps bs nx P → free P = b :: f →
  wp (take (at_ P))
    (λ r σ, ∃ ps' bs', σ = (with_alloced (s32 (m_alloced_num s + 1)) s, mk_memory zs ps' bs' k) ∧
      r = b + m_alignedsize s ∧ pool_ok zs ps' bs' nx (mk_pool (at_ P) (shift P) (b :: used P) f) ∧
      (∀ q, q ≠ at_ P → ps' !! q = ps !! q) ∧ (∀ a, a ∉ all_blocks P → bs' !! a = bs !! a))
    (s, mk_memory zs ps bs k).
Proof.
  intros HP Ef. pose proof (pool_zone _ _ _ _ _ HP) as Hz. pose proof (pool_nodup _ _ _ _ _ HP) as Hnd.
  assert (Hb : b ∈ all_blocks P) by (unfold all_blocks; rewrite Ef; apply elem_of_app; right; apply list_elem_of_here).
  pose proof (pool_pos _ _ _ _ _ _ HP Hb) as Hb0. pose proof (pool_block_zone _ _ _ _ _ _ HP Hb) as Hbz.
  pose proof (first_block zs ps bs nx P f HP) as Hfz. pose proof (first_block zs ps bs nx P (used P) HP) as Huz.
  assert (Hu : ∀ a, a ∈ used P → a ∈ all_blocks P) by (intros a Ha; apply elem_of_app; by left).
  assert (Hf : ∀ a, a ∈ f → a ∈ all_blocks P).
  { intros a Ha. apply elem_of_app. right. rewrite Ef. by apply list_elem_of_further. }
  specialize (Hfz Hf). specialize (Huz Hu).
  pose proof HP as HP0. destruct HP as [Hh Hzz Hs H0 Hbl Hused Hfree Hmp]. rewrite Ef in Hfree, Hh.
  pose proof Hfree as (vb&Hvb&_&Hnx&_). simpl in Hnx.
  unfold all_blocks in Hnd. rewrite Ef in Hnd. pose proof Hnd as (Hbu&Hbf&Hnd2&Hdis)%nodup_middle.
  unfold take. rewrite decide_False by lia. do 2 sl_step. rewrite decide_False by lia.
  do 4 sl_step. rewrite Hnx. do 2 sl_step. apply wp_bind, wp_unless_null; [done|].
  do 4 sl_step. apply wp_bind, wp_unless_null; [done|]. do 8 sl_step.
  repeat sl_step.
  match goal with |- ∃ ps' bs', (_, mk_memory _ ?psx ?bsx _) = _ ∧ _ => set (ps2 := psx); set (bs2 := bsx) end.
  assert (Hnu : first (used P) 0 ≠ b).
  { destruct (first_in (used P) 0) as [[_ ->]|?]; [lia|congruence]. }
  assert (Hnf : first f 0 ≠ b).
  { destruct (first_in f 0) as [[_ ->]|?]; [lia|congruence]. }
  assert (Hnuf : first (used P) 0 ≠ 0 → first (used P) 0 ≠ first f 0).
  { intros Hn0 E. destruct (first_in (used P) 0) as [[_ ?]|Hin]; [done|]. apply (Hdis _ Hin). rewrite E in Hin, Hn0 |- *.
    by destruct (first_in f 0) as [[_ ?]|?]. }
  assert (Hb2 : bs2 !! b = Some (mk_memblock 0 (first (used P) 0) (at_ P))).
  { unfold bs2. rewrite !lookup_insert_eq. simpl. rewrite lookup_unless_null, decide_False by tauto.
    by rewrite lookup_insert_eq. }
  assert (Hrest : ∀ a, a ≠ b → bs2 !! a =
    if decide (a ≠ 0 ∧ a = first (used P) 0) then link_prev b <$> bs !! a
    else if decide (a ≠ 0 ∧ a = first f 0) then link_prev 0 <$> bs !! a else bs !! a).
  { intros a Ha. unfold bs2. rewrite !lookup_insert_ne by done. rewrite lookup_unless_null.
    destruct (decide (first (used P) 0 ≠ 0 ∧ first (used P) 0 = a)) as [[Hn0 <-]|Hn].
    - rewrite decide_True by done. rewrite lookup_insert_ne, lookup_unless_null by done.
      rewrite decide_False by naive_solver. by eapply first_linked.
    - rewrite decide_False by naive_solver. rewrite lookup_insert_ne, lookup_unless_null by done.
      destruct (decide (first f 0 ≠ 0 ∧ first f 0 = a)) as [[Hn0 <-]|Hn']; [|by rewrite decide_False by naive_solver].
      rewrite decide_True by done. destruct Hfree as (?&_&_&_&Hf2). by eapply first_linked. }
  assert (Hp2 : ps2 !! at_ P = Some (mk_mempool nx b (first f 0) (L - shift P) (shift P))).
  { unfold ps2. by rewrite lookup_insert_eq. }
  destruct (to_used zs ps bs ps2 bs2 nx P b f HP0 Ef Hp2 Hb2 Hrest) as [Hok Hframe].
  exists ps2, bs2. split_and!; [done..| |done]. intros q Hq. unfold ps2. by rewrite !lookup_insert_ne.
Qed.

(** A used block becomes the first free one. *)
Lemma to_free zs ps bs ps' bs' nx P l1 a l2 v :
  pool_ok zs ps bs nx P → used P = l1 ++ a :: l2 →
  ps' !! at_ P = Some (mk_mempool nx (first (l1 ++ l2) 0) a (L - shift P) (shift P)) →
  bs' !! a = Some (mk_memblock 0 (first (free P) 0) v) →
  (∀ b, b ≠ a → bs' !! b =
    if decide (b ≠ 0 ∧ b = first (free P) 0) then link_prev a <$> relink bs l1 l2 !! b else relink bs l1 l2 !! b) →
  pool_ok zs ps' bs' nx (mk_pool (at_ P) (shift P) (l1 ++ l2) (a :: free P)) ∧ (∀ b, b ∉ all_blocks P → bs' !! b = bs !! b).
Proof.
  intros HP Eu Hp' Ha Hrest. pose proof (pool_nodup _ _ _ _ _ HP) as Hnd.
  assert (Hpos : ∀ a, a ∈ all_blocks P → 0 < a) by (intros b; by eapply pool_pos).
  assert (Hu : ∀ b, b ∈ used P → b ∈ all_blocks P) by (intros b Hb; apply elem_of_app; by left).
  assert (Hf : ∀ b, b ∈ free P → b ∈ all_blocks P) by (intros b Hb; apply elem_of_app; by right).
  destruct HP as [Hh Hzz Hs H0 Hbl Hused Hfree Hmp]. rewrite Eu in Hused.
  apply list.NoDup_app in Hnd as (Hndu&Hdis&Hndf). rewrite Eu in Hndu.
  pose proof Hndu as (Ha1&Ha2&Hnd2&Hd12)%nodup_middle.
  assert (Hsub : ∀ b, b ∈ l1 ++ l2 → b ∈ used P ∧ b ≠ a).
  { intros b Hb. rewrite Eu. split; [|intros ->; apply elem_of_app in Hb; tauto].
    rewrite elem_of_app, elem_of_cons. apply elem_of_app in Hb. tauto. }
  assert (Hin : a ∈ used P) by (rewrite Eu; apply elem_of_app; right; apply list_elem_of_here).
  assert (Hlink : ∀ b, b ∈ l1 ++ l2 → bs' !! b = relink bs l1 l2 !! b).
  { intros b Hb. destruct (Hsub b Hb) as [Hbu Hba]. rewrite Hrest by done. rewrite decide_False; [done|].
    intros [Hb0 ->]. apply (Hdis _ Hbu). by destruct (first_in (free P) 0) as [[_ ?]|?]. }
  assert (Hother : ∀ b, b ∉ l1 ++ l2 → relink bs l1 l2 !! b = bs !! b).
  { intros b Hb. rewrite elem_of_app in Hb. apply relink_other; tauto. }
  split.
  - split; cbn [at_ shift used free]; try done.
    + rewrite <- Hbl. unfold all_blocks. cbn [used free]. rewrite Eu. rewrite <- !app_assoc. cbn [app].
      by rewrite !Permutation_middle.
    + apply (dll_frame (relink bs l1 l2)); [done|]. by apply (dll_relink bs l1 a l2).
    + apply (dll_push bs bs' (free P) a (mk_memblock 0 (first (free P) 0) v)); try done.
      intros b Hb. rewrite Hrest, Hother.
      * assert (0 < b) by auto. destruct (decide (b = first (free P) 0)); [by rewrite decide_True by lia|].
        by rewrite decide_False by tauto.
      * intros [??]%Hsub. by apply (Hdis b).
      * intros ->. by apply (Hdis a).
    + intros b Hb. rewrite Hlink by done. destruct (Hsub b Hb) as [Hbu _]. rewrite <- (Hmp b Hbu).
      by apply relink_same.
  - intros b Hb. assert (b ∉ l1 ++ l2) by (intros [??]%Hsub; auto).
    rewrite Hrest, Hother by (done || intros ->; auto). rewrite decide_False; [done|].
    intros [Hb0 ->]. apply Hb, Hf. by destruct (first_in (free P) 0) as [[_ ?]|?].
Qed.

Lemma unless_null_alter q f bs : (q ≠ 0 → is_Some (bs !! q)) → unless_null q f bs = if decide (q = 0) then bs else alter f q bs.
Proof.
  intros Hq. unfold unless_null. destruct (decide (q = 0)) as [|Hq0]; [done|].
  destruct (Hq Hq0) as [v Hv]. rewrite Hv. by apply insert_alter.
Qed.

(** A used block leaves its list. *)
Lemma remove_used_ok s zs ps bs k nx P l1 a l2 :
  pool_ok zs ps bs nx P → used P = l1 ++ a :: l2 →
  wp (remove_used a)
    (λ _ σ, σ = (s, mk_memory zs
      (<[at_ P := mk_mempool nx (first (l1 ++ l2) 0) (first (free P) 0) (L - shift P) (shift P)]> ps) (relink bs l1 l2) k))
    (s, mk_memory zs ps bs k).
Proof.
  intros HP Eu. pose proof (pool_zone _ _ _ _ _ HP) as Hz. pose proof (pool_nodup _ _ _ _ _ HP) as Hnd.
  assert (Hpos : ∀ a, a ∈ all_blocks P → 0 < a) by (intros b; by eapply pool_pos).
  assert (Hbz : ∀ a, a ∈ all_blocks P → in_zone zs a sizeof_memblock) by (intros b; by eapply pool_block_zone).
  assert (Hu : ∀ b, b ∈ l1 ++ a :: l2 → b ∈ all_blocks P) by (intros b Hb; apply elem_of_app; left; by rewrite Eu).
  assert (Hf : ∀ b, b ∈ free P → b ∈ all_blocks P) by (intros b Hb; apply elem_of_app; by right).
  assert (Ha : a ∈ all_blocks P) by (apply Hu, elem_of_app; right; apply list_elem_of_here).
  pose proof (Hbz a Ha) as Haz. pose proof HP as [Hh _ _ H0 _ Hused Hfree Hmp]. rewrite Eu in Hused.
  pose proof Hused as (va&Hva&Hpre&Hnext&Hd1&Hd2)%dll_middle. simpl in Hpre, Hnext.
  assert (Hmpa : b_mp va = at_ P).
  { assert (Hin : a ∈ used P) by (rewrite Eu; apply elem_of_app; right; apply list_elem_of_here).
    specialize (Hmp a Hin). rewrite Hva in Hmp. by injection Hmp. }
  apply list.NoDup_app in Hnd as (Hndu&Hdis&Hndf). rewrite Eu in Hndu, Hdis.
  pose proof Hndu as (Ha1&Ha2&Hnd2&Hd12)%nodup_middle.
  assert (Hn2 : first l2 0 ≠ 0 → first l2 0 ∈ l2) by (intros ?; by destruct (first_in l2 0) as [[_ ?]|?]).
  assert (Hnf : first (free P) 0 ≠ 0 → first (free P) 0 ∈ free P) by (intros ?; by destruct (first_in (free P) 0) as [[_ ?]|?]).
  unfold remove_used. do 2 sl_step. rewrite Hmpa, Hpre, Hnext.
  set (ps1 := <[at_ P := mk_mempool nx (first (l1 ++ l2) 0) (first (free P) 0) (L - shift P) (shift P)]> ps).
  destruct (last_split l1) as [->|(l'&b&->)].
  - sl_if. do 4 sl_step. apply wp_unless_null; [intros ?; apply Hbz, Hu; by apply list_elem_of_further, Hn2|].
    do 2 f_equal. unfold relink. cbv zeta. rewrite (decide_True (P := [] = [])) by done.
    rewrite unless_null_alter.
    + destruct l2 as [|c l2]; [done|]. rewrite decide_False, decide_False; [done|done|].
      assert (0 < c); [|simpl; lia]. apply Hpos, Hu, list_elem_of_further, list_elem_of_here.
    + intros ?. by eapply dll_allocated, Hn2.
  - rewrite !final_snoc in *. assert (Hb : b ∈ (l' ++ [b]) ++ a :: l2) by (apply elem_of_app; left; apply in_snoc).
    pose proof (Hpos b (Hu b Hb)) as Hb0. pose proof (Hbz b (Hu b Hb)) as Hbz'.
    destruct (dll_allocated _ _ _ _ b Hused Hb) as [vb Hvb]. assert (Hab : b ≠ a) by (intros ->; by apply Ha1, in_snoc).
    rewrite decide_False by lia. do 2 sl_step. rewrite Hvb. do 2 sl_step. rewrite Hnext, Hpre.
    apply wp_unless_null; [intros ?; apply Hbz, Hu, elem_of_app; right; by apply list_elem_of_further, Hn2|].
    assert (Eps : ps1 = ps).
    { unfold ps1. apply insert_id. rewrite Hh, Eu. do 2 f_equal. by rewrite <- !app_assoc, !first_app. }
    rewrite Eps. do 2 f_equal. unfold relink. cbv zeta. rewrite (decide_False (P := l' ++ [b] = [])) by (by destruct l').
    rewrite final_snoc, (insert_alter _ _ _ (with_b_next (first l2 0)) Hvb), unless_null_alter.
    + destruct l2 as [|c l2]; [done|]. rewrite decide_False, decide_False; [done|done|].
      assert (0 < c); [|simpl; lia]. apply Hpos, Hu, elem_of_app. right. apply list_elem_of_further, list_elem_of_here.
    + intros Hc. destruct (dll_allocated _ _ _ _ _ Hd2 (Hn2 Hc)) as [vc Hvc]. exists vc.
      rewrite lookup_alter_ne; [done|]. intros ->. apply (Hd12 (first l2 0)); [apply in_snoc|by apply Hn2].
Qed.

Lemma slab_free_ok s zs ps bs k nx P l1 a l2 :
  pool_ok zs ps bs nx P → used P = l1 ++ a :: l2 →
  wp (slab_free (a + m_alignedsize s))
    (λ _ σ, ∃ ps' bs', σ = (with_alloced (s32 (m_alloced_num s - 1)) s, mk_memory zs ps' bs' k) ∧
      pool_ok zs ps' bs' nx (mk_pool (at_ P) (shift P) (l1 ++ l2) (a :: free P)) ∧
      (∀ q, q ≠ at_ P → ps' !! q = ps !! q) ∧ (∀ b, b ∉ all_blocks P → bs' !! b = bs !! b))
    (s, mk_memory zs ps bs k).
Proof.
  intros HP Eu. pose proof (pool_zone _ _ _ _ _ HP) as Hz. pose proof (pool_nodup _ _ _ _ _ HP) as Hnd.
  assert (Hpos : ∀ a, a ∈ all_blocks P → 0 < a) by (intros b; by eapply pool_pos).
  assert (Hbz : ∀ a, a ∈ all_blocks P → in_zone zs a sizeof_memblock) by (intros b; by eapply pool_block_zone).
  assert (Hu : ∀ b, b ∈ l1 ++ a :: l2 → b ∈ all_blocks P) by (intros b Hb; apply elem_of_app; left; by rewrite Eu).
  assert (Hf : ∀ b, b ∈ free P → b ∈ all_blocks P) by (intros b Hb; apply elem_of_app; by right).
  assert (Ha : a ∈ all_blocks P) by (apply Hu, elem_of_app; right; apply list_elem_of_here).
  pose proof (Hbz a Ha) as Haz. pose proof HP as [Hh _ _ H0 _ Hused Hfree Hmp]. rewrite Eu in Hused.
  pose proof Hused as (va&Hva&Hpre&Hnext&Hd1&Hd2)%dll_middle. simpl in Hpre, Hnext.
  assert (Hmpa : b_mp va = at_ P).
  { assert (Hin : a ∈ used P) by (rewrite Eu; apply elem_of_app; right; apply list_elem_of_here).
    specialize (Hmp a Hin). rewrite Hva in Hmp. by injection Hmp. }
  apply list.NoDup_app in Hnd as (Hndu&Hdis&Hndf). rewrite Eu in Hndu, Hdis.
  pose proof Hndu as (Ha1&Ha2&Hnd2&Hd12)%nodup_middle.
  assert (Hn2 : first l2 0 ≠ 0 → first l2 0 ∈ l2) by (intros ?; by destruct (first_in l2 0) as [[_ ?]|?]).
  assert (Hnf : first (free P) 0 ≠ 0 → first (free P) 0 ∈ free P) by (intros ?; by destruct (first_in (free P) 0) as [[_ ?]|?]).
  unfold slab_free. sl_step. sl_step. replace (a + m_alignedsize s - m_alignedsize s) with a by lia. do 2 sl_step.
  rewrite Hmpa. apply wp_bind. eapply wp_mono; [by apply (remove_used_ok s zs ps bs k nx P l1 a l2)|].
  set (ps1 := <[at_ P := mk_mempool nx (first (l1 ++ l2) 0) (first (free P) 0) (L - shift P) (shift P)]> ps).
  intros [] σ ->.
  assert (Hps1 : ps1 !! at_ P = Some (mk_mempool nx (first (l1 ++ l2) 0) (first (free P) 0) (L - shift P) (shift P))) by apply lookup_insert_eq.
  do 2 sl_step. apply wp_bind, wp_unless_null; [intros ?; apply Hbz, Hf; by apply Hnf|]. repeat sl_step.
  match goal with |- ∃ ps' bs', (_, mk_memory _ ?psx ?bsx _) = _ ∧ _ => set (ps2 := psx); set (bs2 := bsx) end.
  assert (Hp2 : ps2 !! at_ P = Some (mk_mempool nx (first (l1 ++ l2) 0) a (L - shift P) (shift P))).
  { unfold ps2. by rewrite lookup_insert_eq. }
  assert (Hna : first (free P) 0 ≠ a).
  { intros E. destruct (decide (first (free P) 0 = 0)); [rewrite <- E in Ha; specialize (Hpos _ Ha); lia|].
    apply (Hdis a); [apply elem_of_app; right; apply list_elem_of_here|]. rewrite <- E. by apply Hnf. }
  assert (Hb2 : ∃ v, bs2 !! a = Some (mk_memblock 0 (first (free P) 0) v)).
  { unfold bs2. rewrite !lookup_insert_eq. eexists. reflexivity. }
  destruct Hb2 as [v Hb2].
  destruct (to_free zs ps bs ps2 bs2 nx P l1 a l2 v HP Eu Hp2 Hb2) as [Hok Hframe].
  { intros b Hb. unfold bs2. rewrite !lookup_insert_ne, lookup_unless_null by done.
    destruct (decide (first (free P) 0 ≠ 0 ∧ first (free P) 0 = b)) as [[Hn0 <-]|Hn]; [|by rewrite decide_False by naive_solver].
    rewrite decide_True by done. specialize (Hnf Hn0).
    rewrite !relink_other by (intros Hin; eapply Hdis; [|exact Hnf]; apply elem_of_app;
      first [by left|right; by apply list_elem_of_further]). by eapply first_linked. }
  exists ps2, bs2. split_and!; [done..| |done]. intros q Hq. unfold ps2, ps1. by rewrite !lookup_insert_ne.
Qed.
End pools.
