(* ===== verification/SlabSpec.v ===== *)
(** * src/mem_pool/pure_slab.cpp: the slab's invariant, kept by allocation,
    release and destruction. *)

From S2P Require Import Prelude DLL Slab SlabProofs.

Local Open Scope Z_scope.

Lemma s32_add_l a b : s32 (s32 a + b) = s32 (a + b).
Proof.
  unfold s32. f_equal. replace ((a + 2 ^ 31) `mod` 2 ^ 32 - 2 ^ 31 + b + 2 ^ 31) with ((a + 2 ^ 31) `mod` 2 ^ 32 + b) by lia.
  rewrite Zplus_mod_idemp_l. f_equal. lia.
Qed.

Lemma wp_set_same {A} (m : S A) (Q : A → _ → Prop) σ : wp (set_slab (λ s, s);; m) Q σ → wp m Q σ.
Proof. by destruct σ. Qed.

Section spec.
Context (malloc : nat → gmap Z Z → Z → Z) `{!Malloc malloc} (ul L : Z) `{!Fits ul L}.

Notation pool_ok := (pool_ok ul L).
Notation pools_ok := (pools_ok ul L).

Definition base (P : pool) : Z := at_ P - shift P.
Definition live (l : list pool) : list Z := l ≫= used.
Definition limited (s : pure_slab) : Prop := m_max_num s ≠ -1 ∧ m_max_num s ≤ m_alloced_num s.

Lemma live_split (l : list pool) : l ≫= all_blocks ≡ₚ live l ++ (l ≫= free).
Proof.
  unfold live. induction l as [|P l IH]; [done|]. rewrite !bind_cons, IH. unfold all_blocks.
  rewrite <- !app_assoc. apply Permutation_app_head. rewrite !app_assoc. apply Permutation_app_tail, Permutation_app_comm.
Qed.

(** The slab has the pools [l]; [zs0] are the zones of others. *)
Record slab_ok (zs0 : gmap Z Z) (s : pure_slab) (m : memory) (l : list pool) : Prop := {
  so_pools : pools_ok (zones m) (pools m) (blocks m) l 0;
  so_head : mp_mpool s = head_or l 0;
  so_at : NoDup (at_ <$> l);
  so_blocks : NoDup (l ≫= all_blocks);
  so_zones : zones_ok (zones m);
  so_bases : NoDup (base <$> l);
  so_others z : z ∉ base <$> l → zones m !! z = zs0 !! z;
  so_own z : z ∈ base <$> l → zs0 !! z = None;
  so_sizes : m_mbsize s = ul ∧ m_poolsize s = L ∧ m_alignedsize s = 24;
  so_count : m_alloced_num s = s32 (Z.of_nat (length (live l))) }.

Lemma pool_in zs0 s m l P :
  slab_ok zs0 s m l → P ∈ l → ∃ nx, pool_ok (zones m) (pools m) (blocks m) nx P.
Proof. intros Hs HP. eapply (pools_in ul L); [apply Hs|done]. Qed.

Lemma size_pools zs0 s m l : slab_ok zs0 s m l → (length l ≤ size (pools m))%nat.
Proof.
  intros Hs. rewrite <- (length_fmap at_), <- size_dom, <- (size_list_to_set (C := gset Z)) by apply Hs.
  apply subseteq_size. intros a Ha%elem_of_list_to_set. apply list_elem_of_fmap in Ha as (P&->&HP).
  destruct (pool_in _ _ _ _ _ Hs HP) as [nx [Hh]]. apply elem_of_dom. eauto.
Qed.
Lemma null_pool zs0 s m l : slab_ok zs0 s m l → 0 ∉ at_ <$> l.
Proof.
  intros Hs Ha. apply list_elem_of_fmap in Ha as (P&E&HP). destruct (pool_in _ _ _ _ _ Hs HP) as [nx []]. lia.
Qed.
Lemma bind_middle {A} (f : pool → list A) l1 P l2 : (l1 ++ P :: l2) ≫= f = (l1 ≫= f) ++ f P ++ (l2 ≫= f).
Proof. by rewrite bind_app, bind_cons. Qed.

(** Changing one pool's lists. *)
Lemma replace_ok zs0 s m l1 P l2 s' ps' bs' P' :
  slab_ok zs0 s m (l1 ++ P :: l2) → at_ P' = at_ P → shift P' = shift P → all_blocks P' ≡ₚ all_blocks P →
  pool_ok (zones m) ps' bs' (head_or l2 0) P' →
  (∀ q, q ≠ at_ P → ps' !! q = pools m !! q) → (∀ b, b ∉ all_blocks P → bs' !! b = blocks m !! b) →
  mp_mpool s' = mp_mpool s → m_mbsize s' = m_mbsize s → m_poolsize s' = m_poolsize s → m_alignedsize s' = m_alignedsize s →
  m_alloced_num s' = s32 (Z.of_nat (length (live (l1 ++ P' :: l2)))) →
  slab_ok zs0 s' (mk_memory (zones m) ps' bs' (asked m)) (l1 ++ P' :: l2).
Proof.
  intros [Hok Hh Hat Hbl Hz Hba Ho Hown Hsz Hc] Ea Es Hp HP' Hps Hbs Em E1 E2 E3 Hc'.
  assert (Eat : at_ <$> l1 ++ P' :: l2 = at_ <$> l1 ++ P :: l2) by (by rewrite !fmap_app, !fmap_cons, Ea).
  assert (Eba : base <$> l1 ++ P' :: l2 = base <$> l1 ++ P :: l2).
  { rewrite !fmap_app, !fmap_cons. unfold base at 2 5. by rewrite Ea, Es. }
  rewrite fmap_app, fmap_cons in Hat. pose proof Hat as (Ha1&Ha2&_&_)%nodup_middle.
  rewrite bind_middle in Hbl.
  assert (Hside : ∀ Q, Q ∈ l1 ∨ Q ∈ l2 → ps' !! at_ Q = pools m !! at_ Q ∧ ∀ a, a ∈ all_blocks Q → bs' !! a = blocks m !! a).
  { intros Q HQ. split.
    - apply Hps. intros E. destruct HQ as [HQ|HQ]; [apply Ha1|apply Ha2]; rewrite <- E; by apply list_elem_of_fmap_2.
    - intros a Ha. apply Hbs. intros Hap. rewrite !list.NoDup_app in Hbl. destruct Hbl as (_&Hd1&_&Hd2&_). destruct HQ as [HQ|HQ].
      + apply (Hd1 a); [apply list_elem_of_bind; eauto|apply elem_of_app; by left].
      + apply (Hd2 a Hap). apply list_elem_of_bind; eauto. }
  apply (pools_ok_app ul L) in Hok as [Hok1 [HP Hok2]]. split; simpl.
  - apply (pools_ok_app ul L). cbn [head_or SlabProofs.pools_ok]. split_and!; [rewrite Ea|done|].
    + revert Hok1. apply (pools_frame ul L). intros Q HQ. destruct (Hside Q) as [? ?]; auto.
    + revert Hok2. apply (pools_frame ul L). intros Q HQ. destruct (Hside Q) as [? ?]; auto.
  - rewrite Em, Hh, !head_or_app. cbn [head_or]. by rewrite Ea.
  - rewrite Eat. by rewrite fmap_app, fmap_cons.
  - by rewrite bind_middle, Hp.
  - done.
  - by rewrite Eba.
  - by rewrite Eba.
  - by rewrite Eba.
  - by rewrite E1, E2, E3.
  - done.
Qed.

(** ** A new pool at the end *)

Lemma old_outside zs0 s m l P z a :
  slab_ok zs0 s m l → P ∈ l → (∀ z' l', zones m !! z' = Some l' → apart z L z' l') →
  base P ≤ a < base P + L → ¬ (z ≤ a < z + L).
Proof.
  intros Hs HP Hap Ha. destruct (pool_in _ _ _ _ _ Hs HP) as [nx [_ Hz _ _ _ _ _ _]].
  destruct (Hap _ _ Hz); unfold base in Ha; lia.
Qed.

Lemma pool_inside zs ps bs nx P :
  pool_ok zs ps bs nx P → base P ≤ at_ P < base P + L ∧ ∀ a, a ∈ all_blocks P → base P ≤ a < base P + L.
Proof.
  intros HP. pose proof (fits (ul := ul) (L := L)) as [Hul HL]. unfold base. split; [destruct HP; lia|].
  intros a Ha. pose proof (pool_block ul L _ _ _ _ _ _ HP Ha). destruct HP. lia.
Qed.

Lemma add_pool_ok zs0 s m l z off s' ps' bs' k' :
  slab_ok zs0 s m l → zs0 !! z = None → 0 < z → z + L < 2 ^ 64 →
  (∀ z' l', zones m !! z' = Some l' → apart z L z' l') → 0 ≤ off ≤ 63 →
  let q := z + off in let f := cut ul (q + 32) (blocks_in ul (L - off)) in
  ps' !! q = Some (mk_mempool 0 0 (q + 32) (L - off) off) →
  (∀ l1 P, l = l1 ++ [P] → ps' !! at_ P = with_p_next q <$> pools m !! at_ P) →
  (∀ a, ¬ (z ≤ a < z + L) → (∀ l1 P, l = l1 ++ [P] → a ≠ at_ P) → ps' !! a = pools m !! a) →
  (∀ a, ¬ (z ≤ a < z + L) → bs' !! a = blocks m !! a) → dll bs' 0 f 0 →
  mp_mpool s' = head_or l q → m_mbsize s' = m_mbsize s → m_poolsize s' = m_poolsize s →
  m_alignedsize s' = m_alignedsize s → m_alloced_num s' = m_alloced_num s →
  slab_ok zs0 s' (mk_memory (<[z := L]> (zones m)) ps' bs' k') (l ++ [mk_pool q off [] f]).
Proof.
  intros Hs Hz0 Hz Hzl Hap Hoff q f Hq Hlast Hps Hbs Hd Em E1 E2 E3 Ec.
  pose proof (fits (ul := ul) (L := L)) as [Hul HL].
  assert (Hfresh : zones m !! z = None) by (apply (malloc_fresh _ z L); [done|apply Hs|lia]).
  assert (Hin : ∀ P, P ∈ l → base P ≠ z ∧ ¬ (z ≤ at_ P < z + L) ∧ ∀ a, a ∈ all_blocks P → ¬ (z ≤ a < z + L)).
  { intros P HP. destruct (pool_in _ _ _ _ _ Hs HP) as [nx HPok]. destruct (pool_inside _ _ _ _ _ HPok) as [H1 H2].
    split_and!.
    - intros E. destruct HPok as [_ Hzz _ _ _ _ _ _]. unfold base in E. congruence.
    - by eapply old_outside.
    - intros a Ha. eapply old_outside; [done..|]. by apply H2. }
  assert (Hfin : ∀ a, a ∈ f → z ≤ a < z + L).
  { intros a Ha. apply cut_inside in Ha; lia. }
  destruct (blocks_in_spec ul (L - off)) as [Hn1 _]; [lia..|].
  destruct Hs as [Hok Hh Hat Hbl Hzo Hba Ho Hown Hsz Hc]. split; simpl.
  - apply (pools_ok_app ul L). cbn [head_or SlabProofs.pools_ok at_]. split; [|split; [|done]].
    + destruct (last_split l) as [->|(l1&P&->)]; [done|].
      apply (pools_ok_app ul L) in Hok as [Hok [HP _]]. apply (pools_ok_app ul L). cbn [head_or SlabProofs.pools_ok] in *.
      split; [|split; [|done]].
      * revert Hok. apply (pools_frame ul L). intros Q HQ. destruct (Hin Q) as (H1&H2&H3); [apply elem_of_app; by left|].
        unfold base in H1. rewrite lookup_insert_ne by congruence. split; [done|]. split; [|intros a Ha; by apply Hbs, H3].
        apply Hps; [done|]. intros l1' P' [-> [= ->]]%app_inj_2 E; [|done]. rewrite fmap_app in Hat.
        apply list.NoDup_app in Hat as (_&Hd'&_). apply (Hd' (at_ Q)); [by apply list_elem_of_fmap_2|].
        rewrite E. apply list_elem_of_here.
      * destruct (Hin P) as (H1&H2&H3); [apply in_snoc|]. unfold base in H1.
        eapply (pool_frame ul L _ (<[at_ P := with_p_next q (mk_mempool 0 (first (used P) 0) (first (free P) 0) (L - shift P) (shift P))]> (pools m)) (blocks m)).
        -- by rewrite lookup_insert_ne by congruence.
        -- rewrite (Hlast l1 P), lookup_insert_eq by done. destruct HP as [Hhd _ _ _ _ _ _ _]. by rewrite Hhd.
        -- intros a Ha. by apply Hbs, H3.
        -- destruct HP. split; try done. by rewrite lookup_insert_eq.
    + assert (Ef : first f 0 = q + 32) by (unfold f; destruct (blocks_in ul (L - off)); [lia|done]).
      split; cbn [at_ shift used free]; [by rewrite Hq, Ef|by replace (q - off) with z by lia; rewrite lookup_insert_eq|done|lia|done|done|done|].
      intros a ?%elem_of_nil. done.
  - rewrite head_or_app. done.
  - rewrite fmap_app. apply list.NoDup_app. split; [done|]. split; [|apply NoDup_singleton].
    intros a (P&->&HP)%list_elem_of_fmap E%list_elem_of_singleton. destruct (Hin P HP) as (_&H2&_). cbn in E. lia.
  - assert (Ef : [mk_pool q off [] f] ≫= all_blocks = f) by (cbn; by rewrite app_nil_r).
    rewrite bind_app, Ef. apply list.NoDup_app. split; [done|].
    split; [|apply nodup_cut; lia]. intros a (P&Ha&HP)%list_elem_of_bind Hf. destruct (Hin P HP) as (_&_&H3).
    apply (H3 a Ha). by apply Hfin.
  - apply zones_ok_insert; done || lia.
  - rewrite fmap_app. apply list.NoDup_app. split; [done|]. split; [|apply NoDup_singleton].
    intros a (P&->&HP)%list_elem_of_fmap E%list_elem_of_singleton. destruct (Hin P HP) as (H1&_&_).
    unfold base at 2 in E. cbn in E. lia.
  - intros a Ha. rewrite fmap_app, elem_of_app in Ha. rewrite lookup_insert_ne; [apply Ho; tauto|].
    intros <-. apply Ha. right. apply list_elem_of_singleton. unfold base. cbn. lia.
  - intros a Ha. rewrite fmap_app, elem_of_app in Ha. destruct Ha as [Ha|Ha%list_elem_of_singleton]; [by apply Hown|].
    rewrite Ha. unfold base. cbn. by replace (q - off) with z by lia.
  - by rewrite E1, E2, E3.
  - rewrite Ec, Hc. unfold live. rewrite bind_app. cbn. by rewrite !app_nil_r.
Qed.

(** Behind the last pool (or at first) a new one is made, with all blocks free;
    unless malloc refuses. *)
Lemma grow_ok zs0 s m l (g : Z → pure_slab → pure_slab) :
  slab_ok zs0 s m l → (∀ z, is_Some (zs0 !! z) → is_Some (zones m !! z)) →
  wp (q ← creat_mempool malloc (match list.last l with Some P => at_ P | None => 0 end) (m_poolsize s);
      set_slab (g q);; (if decide (q = 0) then mret () else init_memblock q (m_mbsize s));; mret q)
    (λ q σ,
      (q = 0 ∧ malloc (asked m) (zones m) L = 0 ∧ σ = (g 0 s, mk_memory (zones m) (pools m) (blocks m) (asked m + 1))) ∨
      ∃ off, let Q := mk_pool q off [] (cut ul (q + 32) (blocks_in ul (L - off))) in
        malloc (asked m) (zones m) L ≠ 0 ∧ q ≠ 0 ∧ σ.1 = g q s ∧ asked σ.2 = (asked m + 1)%nat ∧
        (∀ s', mp_mpool s' = head_or l q → m_mbsize s' = m_mbsize s → m_poolsize s' = m_poolsize s →
           m_alignedsize s' = m_alignedsize s → m_alloced_num s' = m_alloced_num s → slab_ok zs0 s' σ.2 (l ++ [Q])))
    (s, m).
Proof.
  intros Hs Hzs. pose proof (fits (ul := ul) (L := L)) as [Hul HL]. destruct (so_sizes _ _ _ _ Hs) as (E1&E2&_). rewrite E1, E2.
  destruct m as [zs ps bs k]. simpl in *. set (z := malloc k zs L).
  pose proof (so_pools _ _ _ _ Hs) as Hok. simpl in Hok.
  assert (Hp : ∃ vp, (match list.last l with Some P => at_ P | None => 0 end) = 0 ∧ l = [] ∨
    ∃ l1 P, l = l1 ++ [P] ∧ list.last l = Some P ∧ at_ P ≠ 0 ∧ in_zone zs (at_ P) sizeof_mempool ∧ ps !! at_ P = Some vp ∧ p_next vp = 0).
  { destruct (last_split l) as [->|(l1&P&->)]; [by exists (mk_mempool 0 0 0 0 0); left|].
    apply (pools_ok_app ul L) in Hok as [_ [HP _]]. cbn [head_or] in HP. destruct (HP) as [Hhd _ _ Hpos _ _ _ _].
    eexists. right. exists l1, P. rewrite list.last_snoc. split_and!; [done|done|lia|by eapply (pool_zone ul L)|done|done]. }
  destruct Hp as [vp Hp]. set (p := match list.last l with Some P => at_ P | None => 0 end) in *.
  apply wp_bind. eapply wp_mono.
  { apply (creat_mempool_ok malloc ul L s zs ps bs k p vp); [apply Hs|].
    destruct Hp as [[-> _]|(l1&P&El&Ela&H0&Hz&Hv&Hn)]; [by left|right]. unfold p. by rewrite Ela. }
  fold z. intros q σ [(Hz0&->&->)|(Hz0&off&Hoff&->&->)].
  { repeat sl_step. by left. }
  assert (Hzok : zones_ok zs) by apply Hs. destruct (malloc_ok k zs L) as (Hz&Hzl&Hap); [lia|done|done|]. fold z in Hz, Hzl, Hap.
  rewrite decide_False by lia. do 2 sl_step. apply wp_bind.
  set (ps' := if decide (p = 0) then cleared z L ps else <[p := with_p_next (z + off) vp]> (cleared z L ps)).
  eapply wp_mono.
  { apply (init_memblock_ok ul (g (z + off) s) (<[z := L]> zs) (<[z + off := mk_mempool 0 0 0 (L - off) off]> ps') (cleared z L bs) (k + 1)
      (z + off) 0 0 0 (L - off) off); [apply lookup_insert_eq|lia..|].
    intros a n ??. exists z, L. rewrite lookup_insert_eq. split; [done|lia]. }
  intros [] σ (bs'&->&Hd&Hf). sl_step. right. exists off. split_and!; [done|lia|done|done|].
  intros s' Hm H1 H2 H3 H4.
  assert (Hin : ∀ a, a ∈ cut ul (z + off + 32) (blocks_in ul (L - off)) → z ≤ a < z + L) by (intros a Ha; apply cut_inside in Ha; lia).
  assert (Hps' : ∀ a, ¬ (z ≤ a < z + L) → a ≠ p ∨ p = 0 → ps' !! a = ps !! a).
  { intros a Ha Hap'. unfold ps'. destruct (decide (p = 0)); [by apply lookup_cleared_out|].
    rewrite lookup_insert_ne by (by destruct Hap'; auto). by apply lookup_cleared_out. }
  eapply (add_pool_ok zs0 s (mk_memory zs ps bs k) l z off); try done.
  - destruct (zs0 !! z) as [l'|] eqn:E; [|done]. destruct (Hzs z) as [l'' Hl'']; [by exists l'|].
    rewrite (malloc_fresh zs z L) in Hl''; [done|done|done|lia].
  - by rewrite lookup_insert_eq.
  - intros l1 P ->. destruct Hp as [[_ ?]|(l1'&P'&[-> [= ->]]%app_inj_2&Ela&H0&Hpz&Hv&Hn)]; [by destruct l1| |done].
    assert (Ep : p = at_ P') by (unfold p; by rewrite Ela). simpl.
    assert (Hout : ¬ (z ≤ at_ P' < z + L)).
    { destruct (pool_in _ _ _ _ P' Hs) as [nx HP]; [apply in_snoc|]. eapply old_outside; [exact Hs|apply in_snoc|done|].
      by destruct (pool_inside _ _ _ _ _ HP) as [? _]. }
    rewrite !lookup_insert_ne by lia. unfold ps'. rewrite Ep, decide_False, lookup_insert_eq, Hv by done. done.
  - intros a Ha Hlast. simpl. rewrite !lookup_insert_ne by lia. apply Hps'; [done|].
    destruct Hp as [[? _]|(l1&P&El&Ela&_)]; [by right|left]. unfold p. rewrite Ela. by eapply Hlast.
  - intros a Ha. simpl. rewrite Hf by (intros Hc; by apply Ha, Hin). by apply lookup_cleared_out.
  - by rewrite H1, E1.
  - by rewrite H2, E2.
Qed.

(** ** The operations *)

(** Whether a pool of the chain has a block that is free. *)
Fixpoint some_free (fuel : nat) (p : Z) (m : memory) : bool :=
  match fuel with
  | O => false
  | Datatypes.S fuel =>
      bool_decide (p ≠ 0) &&
        (bool_decide (freehead (pool_of m p) ≠ 0) || some_free fuel (p_next (pool_of m p)) m)
  end.
Definition has_free (σ : pure_slab * memory) : bool := some_free (size (pools σ.2)) (mp_mpool σ.1) σ.2.

Lemma some_free_spec m l : ∀ fuel,
  pools_ok (zones m) (pools m) (blocks m) l 0 → (length l ≤ fuel)%nat → 0 ∉ at_ <$> l →
  some_free fuel (head_or l 0) m = true ↔ ∃ P, P ∈ l ∧ free P ≠ [].
Proof.
  induction l as [|P l IH]; intros fuel Hl Hf H0.
  - split; [|by intros (?&?%elem_of_nil&_)]. by destruct fuel.
  - destruct fuel as [|fuel]; [simpl in Hf; lia|]. destruct Hl as [HP Hl]. rewrite fmap_cons, not_elem_of_cons in H0.
    destruct H0 as [Hat H0]. cbn [some_free head_or]. unfold pool_of. rewrite (po_head _ _ _ _ _ _ _ HP). cbn [default freehead p_next].
    rewrite bool_decide_eq_true_2 by done. change (from_option id _ _) with (mk_mempool (head_or l 0) (first (used P) 0) (first (free P) 0) (L - shift P) (shift P)).
    cbn [freehead p_next andb]. rewrite orb_true_iff, bool_decide_eq_true, (IH fuel) by (done || simpl in Hf; lia).
    assert (first (free P) 0 ≠ 0 ↔ free P ≠ []) as ->.
    { destruct (free P) as [|b f] eqn:Ef; [done|]. split; [done|]. intros _. simpl.
      assert (0 < b); [|lia]. eapply (pool_pos ul L); [exact HP|]. unfold all_blocks. rewrite Ef. apply elem_of_app. right. apply list_elem_of_here. }
    split.
    + intros [Hp|(Q&HQ&Hq)]; [exists P; split; [apply list_elem_of_here|done]|]. exists Q. split; [by apply list_elem_of_further|done].
    + intros (Q&[->|HQ]%elem_of_cons&Hq); [by left|right; by exists Q].
Qed.

Lemma has_free_spec zs0 s m l : slab_ok zs0 s m l → has_free (s, m) = true ↔ ∃ P, P ∈ l ∧ free P ≠ [].
Proof.
  intros Hs. unfold has_free. simpl. rewrite (so_head _ _ _ _ Hs). apply some_free_spec; [apply Hs|by eapply size_pools|by eapply null_pool].
Qed.

(** The zones of others stay. *)
Lemma others_stay zs0 s m l z : slab_ok zs0 s m l → is_Some (zs0 !! z) → is_Some (zones m !! z).
Proof.
  intros Hs [v Hv]. destruct (decide (z ∈ base <$> l)) as [Hz|Hz].
  - rewrite (so_own _ _ _ _ Hs z Hz) in Hv. done.
  - rewrite (so_others _ _ _ _ Hs z Hz). eauto.
Qed.

Lemma take_spec zs0 s m l1 P l2 b f :
  slab_ok zs0 s m (l1 ++ P :: l2) → free P = b :: f →
  wp (take (at_ P)) (λ r σ, r = b + 24 ∧ m_max_num σ.1 = m_max_num s ∧ ∃ l', slab_ok zs0 σ.1 σ.2 l' ∧ l' ≠ [] ∧
    live l' ≡ₚ b :: live (l1 ++ P :: l2)) (s, m).
Proof.
  intros Hs Ef. pose proof (so_sizes _ _ _ _ Hs) as (_&_&E3). destruct m as [zs ps bs k].
  pose proof (so_pools _ _ _ _ Hs) as Hok. simpl in Hok. apply (pools_ok_app ul L) in Hok as [_ [HP _]].
  eapply wp_mono; [by eapply (take_ok ul L)|]. intros r σ (ps'&bs'&->&->&HP'&Hps&Hbs). rewrite E3. split; [done|]. split; [done|].
  set (P' := mk_pool (at_ P) (shift P) (b :: used P) f) in *.
  assert (Hb : all_blocks P' ≡ₚ all_blocks P) by (unfold all_blocks; rewrite Ef; apply Permutation_middle).
  assert (Hlive : live (l1 ++ P' :: l2) ≡ₚ b :: live (l1 ++ P :: l2)).
  { unfold live. rewrite !bind_middle. cbn [used P']. 
    symmetry. apply (Permutation_middle _ (used P ++ _) b). }
  exists (l1 ++ P' :: l2). split; [|split; [by destruct l1|done]].
  eapply (replace_ok zs0 s (mk_memory zs ps bs k) l1 P l2); try done. simpl. rewrite Hlive, (so_count _ _ _ _ Hs).
  cbn [length]. rewrite s32_add_l. f_equal. lia.
Qed.

Lemma slab_alloc_ok zs0 s m l :
  slab_ok zs0 s m l → l ≠ [] →
  wp (slab_alloc malloc)
    (λ r σ, m_max_num σ.1 = m_max_num s ∧
      ((r = 0 ∧ (limited s ∨ has_free (s, m) = false ∧ malloc (asked m) (zones m) L = 0) ∧ slab_ok zs0 σ.1 σ.2 l ∧ σ.1 = s) ∨
       ∃ b l', r = b + 24 ∧ ¬ limited s ∧ ¬ (has_free (s, m) = false ∧ malloc (asked m) (zones m) L = 0) ∧ slab_ok zs0 σ.1 σ.2 l' ∧ l' ≠ [] ∧ live l' ≡ₚ b :: live l)) (s, m).
Proof.
  intros Hs Hne. unfold slab_alloc, mempool_alloc. do 4 sl_step.
  destruct (decide (m_max_num s ≠ -1 ∧ m_max_num s ≤ m_alloced_num s)) as [Hlim|Hlim].
  { sl_step. split; [done|]. left. split_and!; [done|by left|done..]. }
  do 2 sl_step. pose proof (has_free_spec _ _ _ _ Hs) as Hfs. rewrite (so_head _ _ _ _ Hs). destruct m as [zs ps bs k]. cbn [pools] in *.
  pose proof (so_pools _ _ _ _ Hs) as Hok. cbn [zones pools blocks] in Hok.
  destruct (find_pool_ok ul L s zs ps bs k l (size ps)) as (l1&P&l2&->&Hl1&Hfree&Hfind); [done..|apply (size_pools _ _ _ _ Hs)|by eapply null_pool|].
  apply wp_bind. eapply wp_mono; [exact Hfind|]. intros p σ [-> ->].
  apply (pools_ok_app ul L) in Hok as [_ [HP _]]. pose proof (pool_zone ul L _ _ _ _ _ HP) as Hz.
  apply wp_bind. eapply wp_get_pool; [exact Hz|apply HP|]. cbn [freehead p_next].
  destruct (free P) as [|b f] eqn:Ef.
  - destruct Hfree as [?| ->]; [done|]. rewrite decide_True by done.
    pose proof (grow_ok zs0 s (mk_memory zs ps bs k) (l1 ++ [P]) (λ _ s, s) Hs) as Hgrow. rewrite list.last_snoc in Hgrow.
    specialize (Hgrow (λ z, others_stay zs0 s _ _ z Hs)). apply wp_bind_inv in Hgrow. apply wp_bind.
    eapply wp_mono; [exact Hgrow|]. intros q σ Hq%wp_set_same.
    destruct (decide (q = 0)) as [->|Hq0].
    + apply wp_bind_inv in Hq. apply wp_ret. destruct Hq as [(_&Hm&->)|(off&_&?&_)]; [|done]. split; [done|]. left.
      split; [done|]. split; [right; split; [|done]|split; [|done]; destruct Hs; by split].
      apply not_true_is_false. rewrite Hfs. intros (Q&HQ&Hq). apply Hq.
      apply elem_of_app in HQ as [HQ| ->%list_elem_of_singleton]; [by apply Hl1|done].
    + apply wp_bind_inv in Hq. apply wp_bind. eapply wp_mono; [exact Hq|]. intros [] σ' [(?&_)|(off&Hm&_&Hs'&_&Hnew)]; [done|].
      destruct σ' as [s' m']. simpl in Hs', Hnew. subst s'.
      set (Q := mk_pool q off [] (cut ul (q + 32) (blocks_in ul (L - off)))) in *.
      specialize (Hnew s). rewrite (so_head _ _ _ _ Hs) in Hnew.
      assert (Hs' : slab_ok zs0 s m' ((l1 ++ [P]) ++ [Q])).
      { apply Hnew; try done. by destruct l1. }
      pose proof (fits (ul := ul) (L := L)) as [Hul HL].
      destruct (pool_in _ _ _ _ Q Hs') as [nx HQ]; [apply in_snoc|].
      destruct (blocks_in_spec ul (L - off)) as [Hn1 _]; [lia|destruct HQ as [_ _ Hsh _ _ _ _ _]; simpl in Hsh; lia|].
      assert (Efr : ∃ f, free Q = (q + 32) :: f) by (simpl; destruct (blocks_in ul (L - off)); [lia|eexists; reflexivity]).
      destruct Efr as [f Efr]. eapply wp_mono; [by eapply (take_spec zs0 s m' (l1 ++ [P]) Q [])|].
      intros r σ2 (->&Hmax&l'&Hl'&Hne'&Hlive). split; [done|]. right. exists (q + 32), l'. split_and!; [done..|by intros [_ ?]|done|done|].
      assert (E : live ((l1 ++ [P]) ++ [Q]) = live (l1 ++ [P])) by (unfold live; rewrite bind_app; cbn; by rewrite app_nil_r).
      by rewrite Hlive, E.
  - assert (0 < b) by (eapply (pool_pos ul L); [exact HP|unfold all_blocks; rewrite Ef; apply elem_of_app; right; apply list_elem_of_here]).
    rewrite decide_False by (simpl; lia). eapply wp_mono; [by eapply take_spec|].
    intros r σ (->&Hmax&l'&Hl'&Hne'&Hlive). split; [done|]. right. exists b, l'. split_and!; [done..| |done|done|done].
    intros [Hno _]. apply not_true_iff_false in Hno. apply Hno, Hfs. exists P. split; [|by rewrite Ef].
    apply elem_of_app. right. apply list_elem_of_here.
Qed.

Lemma slab_free_spec zs0 s m l a :
  slab_ok zs0 s m l → a ∈ live l →
  wp (slab_free (a + 24)) (λ _ σ, m_max_num σ.1 = m_max_num s ∧ zones σ.2 = zones m ∧ asked σ.2 = asked m ∧
    ∃ l', slab_ok zs0 σ.1 σ.2 l' ∧ l' ≠ [] ∧ live l ≡ₚ a :: live l') (s, m).
Proof.
  intros Hs Ha. unfold live in Ha. apply list_elem_of_bind in Ha as (P&HaP&(l1&l2&->)%list_elem_of_split).
  pose proof (so_sizes _ _ _ _ Hs) as (_&_&E3). destruct m as [zs ps bs k].
  pose proof (so_pools _ _ _ _ Hs) as Hok. simpl in Hok. apply (pools_ok_app ul L) in Hok as [_ [HP _]].
  apply list_elem_of_split in HaP as (u1&u2&Eu). rewrite <- E3.
  eapply wp_mono; [by eapply (slab_free_ok ul L)|]. intros [] σ (ps'&bs'&->&HP'&Hps&Hbs).
  set (P' := mk_pool (at_ P) (shift P) (u1 ++ u2) (a :: free P)) in *. split_and!; [done..|].
  assert (Hb : all_blocks P' ≡ₚ all_blocks P).
  { unfold all_blocks. rewrite Eu. cbn [used free P']. rewrite <- !app_assoc. cbn [app]. by rewrite !Permutation_middle. }
  assert (Hlive : live (l1 ++ P :: l2) ≡ₚ a :: live (l1 ++ P' :: l2)).
  { unfold live. rewrite !bind_middle, Eu. cbn [used P']. rewrite <- !app_assoc. cbn [app]. by rewrite !Permutation_middle. }
  exists (l1 ++ P' :: l2). split; [|split; [by destruct l1|done]].
  eapply (replace_ok zs0 s (mk_memory zs ps bs k) l1 P l2); try done. simpl.
  rewrite (so_count _ _ _ _ Hs), Hlive. cbn [length]. rewrite <- Z.add_opp_r, s32_add_l. f_equal. lia.
Qed.

(** ** Construction and destruction *)

Lemma construct_ok zs0 s m block_size pool_size max_num :
  zones m = zs0 → zones_ok zs0 → malloc (asked m) zs0 L ≠ 0 →
  pure_align_u32 block_size ALIGNMENT + 24 = ul → pure_align_u32 pool_size PAGE_SIZE = L →
  wp (construct malloc block_size pool_size max_num)
    (λ _ σ, m_max_num σ.1 = max_num ∧ ∃ l, slab_ok zs0 σ.1 σ.2 l ∧ l ≠ [] ∧ live l = []) (s, m).
Proof.
  intros Ez Hz Hm E1 E2. pose proof (fits (ul := ul) (L := L)) as [Hul HL]. unfold construct. cbv zeta.
  change (pure_align_u32 sizeof_memblock ALIGNMENT) with 24. rewrite E1, E2, (u32_small ul) by lia.
  do 2 sl_step. set (s0 := mk_slab 0 max_num 0 ul L 24).
  assert (H0 : slab_ok zs0 s0 m []).
  { split; simpl; try done; [apply NoDup_nil_2|apply NoDup_nil_2|by rewrite Ez|apply NoDup_nil_2|by rewrite Ez|].
    intros z ?%elem_of_nil. done. }
  pose proof (grow_ok zs0 s0 m [] (λ q, with_mpool q) H0) as Hgrow. simpl in Hgrow. rewrite Ez in Hgrow.
  specialize (Hgrow (λ z Hz, Hz)). apply wp_bind_inv in Hgrow. apply wp_bind.
  eapply wp_mono; [exact Hgrow|]. intros q σ Hq. apply wp_bind. apply wp_bind_inv in Hq.
  eapply wp_mono; [exact Hq|]. intros [] σ1 Hq1. apply wp_bind_inv in Hq1.
  eapply wp_mono; [exact Hq1|]. intros [] σ2 [(_&?&_)|(off&_&_&Hs&_&Hnew)]; [done|].
  rewrite Hs. split; [done|]. eexists. split; [by apply Hnew|]. done.
Qed.

Lemma destroy_loop_ok s zs ps bs k l : ∀ zs1 fuel,
  (∀ P, P ∈ l → ∃ nx, pool_ok zs ps bs nx P) → pools_ok zs ps bs l 0 → 0 ∉ at_ <$> l → NoDup (base <$> l) →
  (∀ P, P ∈ l → zs1 !! base P = zs !! base P) → (length l ≤ fuel)%nat →
  wp (destroy_loop fuel (head_or l 0))
    (λ _ σ, σ.1 = s ∧ ∀ z, zones σ.2 !! z = if decide (z ∈ base <$> l) then None else zs1 !! z)
    (s, mk_memory zs1 ps bs k).
Proof.
  induction l as [|P l IH]; intros zs1 fuel Hin Hok H0 Hnd Hzs Hf.
  - destruct fuel; (apply wp_ret; split; [done|]; intros z; rewrite decide_False; [done|]; intros ?%elem_of_nil; done).
  - destruct fuel as [|fuel]; [simpl in Hf; lia|]. destruct Hok as [HP Hok]. rewrite fmap_cons in H0, Hnd.
    apply list.NoDup_cons in Hnd as [Hbl Hnd]. pose proof HP as [Hh Hz Hs Hpos _ _ _ _].
    assert (Hzone : in_zone zs1 (at_ P) sizeof_mempool).
    { pose proof (fits (ul := ul) (L := L)) as [Hul HL]. exists (base P), L. rewrite Hzs by apply list_elem_of_here.
      split; [done|]. unfold base, sizeof_mempool. lia. }
    cbn [head_or destroy_loop]. rewrite decide_False by lia. do 4 sl_step.
    apply wp_bind. unfold wp at 1, delete_zone. fold (base P). simpl.
    rewrite decide_True by (rewrite Hzs by apply list_elem_of_here; by eexists).
    eapply wp_mono; [apply (IH (delete (base P) zs1) fuel)|].
    + intros Q HQ. by apply Hin, list_elem_of_further.
    + done.
    + intros ?. by apply H0, list_elem_of_further.
    + done.
    + intros Q HQ. rewrite lookup_delete_ne; [by apply Hzs, list_elem_of_further|]. intros E. apply Hbl. rewrite E.
      by apply list_elem_of_fmap_2.
    + simpl in Hf. lia.
    + intros [] σ [E Hz']. split; [done|]. intros z. rewrite Hz'. change (base <$> P :: l) with (base P :: (base <$> l)). destruct (decide (z ∈ base <$> l)) as [Hl|Hl].
      * by rewrite decide_True by by apply list_elem_of_further.
      * destruct (decide (z = base P)) as [->|Hne]; [by rewrite lookup_delete_eq, decide_True by apply list_elem_of_here|].
        rewrite lookup_delete_ne, decide_False by (done || rewrite elem_of_cons; tauto). done.
Qed.

(** All zones go back to malloc. *)
Lemma destroy_ok zs0 s m l :
  slab_ok zs0 s m l → wp destroy (λ _ σ, zones σ.2 = zs0 ∧ mp_mpool σ.1 = 0) (s, m).
Proof.
  intros Hs. unfold destroy. do 4 sl_step. rewrite (so_head _ _ _ _ Hs). destruct m as [zs ps bs k]. apply wp_bind.
  eapply wp_mono; [apply (destroy_loop_ok s zs ps bs k l)|].
  - intros P HP. by apply (pool_in _ _ _ _ _ Hs).
  - apply Hs.
  - by eapply null_pool.
  - apply Hs.
  - done.
  - apply (size_pools _ _ _ _ Hs).
  - intros [] σ [E Hz]. sl_step. split; [|done]. apply map_eq. intros z. rewrite Hz.
    destruct (decide (z ∈ base <$> l)) as [Hl|Hl]; [by rewrite (so_own _ _ _ _ Hs z Hl)|by apply (so_others _ _ _ _ Hs)].
Qed.

(** ** What lives where *)

(** The bytes from [a] to [a + n] and from [b] to [b + n']. *)
Lemma blocks_apart zs0 s m l a b :
  slab_ok zs0 s m l → a ∈ l ≫= all_blocks → b ∈ l ≫= all_blocks → a ≠ b → apart a ul b ul.
Proof.
  intros Hs (P&Ha&HP)%list_elem_of_bind (Q&Hb&HQ)%list_elem_of_bind Hne.
  destruct (pool_in _ _ _ _ _ Hs HP) as [nx HP']. destruct (pool_in _ _ _ _ _ Hs HQ) as [nx' HQ'].
  pose proof (fits (ul := ul) (L := L)) as [Hul HL]. destruct (decide (base P = base Q)) as [E|E].
  - assert (P = Q) as <-.
    { pose proof (so_bases _ _ _ _ Hs) as Hnd. apply list_elem_of_lookup_1 in HP as [i Hi]. apply list_elem_of_lookup_1 in HQ as [j Hj].
      assert (i = j) as <-; [|congruence]. eapply NoDup_lookup; [exact Hnd| |]; rewrite list_lookup_fmap; [by rewrite Hi|by rewrite Hj, E]. }
    destruct HP' as [_ _ _ _ Hbl _ _ _]. rewrite Hbl in Ha, Hb. apply elem_of_cut in Ha as (i&?&->), Hb as (j&?&->).
    destruct (Z.lt_trichotomy i j) as [?|[->|?]]; [left; nia|done|right; nia].
  - pose proof (pool_block ul L _ _ _ _ _ _ HP' Ha). pose proof (pool_block ul L _ _ _ _ _ _ HQ' Hb).
    destruct HP' as [_ Hz1 ? _ _ _ _ _], HQ' as [_ Hz2 ? _ _ _ _ _].
    destruct (zo_apart _ (so_zones _ _ _ _ Hs) _ _ _ _ Hz1 Hz2) as [?|?]; [done|left|right]; lia.
Qed.

(** A block is in a zone of the slab, behind the header of its pool. *)
Lemma block_in_zone zs0 s m l a :
  slab_ok zs0 s m l → a ∈ l ≫= all_blocks →
  ∃ z, zones m !! z = Some L ∧ zs0 !! z = None ∧ z + 32 ≤ a ∧ a + ul ≤ z + L.
Proof.
  intros Hs (P&Ha&HP)%list_elem_of_bind. destruct (pool_in _ _ _ _ _ Hs HP) as [nx HP'].
  pose proof (pool_block ul L _ _ _ _ _ _ HP' Ha). destruct HP' as [_ Hz ? _ _ _ _ _].
  exists (base P). split; [done|]. split; [by apply (so_own _ _ _ _ Hs), list_elem_of_fmap_2|]. unfold base. lia.
Qed.
End spec.
