(* ===== verification/SlabTheorems.v ===== *)
(** * src/mem_pool/pure_slab.cpp: the slab as a bag of blocks that do not
    overlap. *)

From S2P Require Import Prelude DLL BlockPool Slab SlabProofs SlabSpec.

Local Open Scope Z_scope.

(** A malloc: behind everything in use, while the address space lasts. *)
Definition above (zs : gmap Z Z) : Z := map_fold (λ z l acc, Z.max acc (z + l)) 4096 zs.
Definition bump_malloc (n : nat) (zs : gmap Z Z) (l : Z) : Z :=
  if decide (above zs + l < 2 ^ 64) then above zs else 0.

Lemma above_spec zs : 4096 ≤ above zs ∧ ∀ z l, zs !! z = Some l → z + l ≤ above zs.
Proof.
  unfold above. apply (map_fold_weak_ind (λ r zs, 4096 ≤ r ∧ ∀ z l, zs !! z = Some l → z + l ≤ r)).
  - split; [lia|]. intros z l. by rewrite lookup_empty.
  - intros z l zs' r Hz [Hr IH]. split; [lia|]. intros z' l' [[<- <-]|[_ H]]%lookup_insert_Some; [lia|].
    specialize (IH _ _ H). lia.
Qed.

#[export] Instance bump_malloc_ok : Malloc bump_malloc.
Proof.
  intros n zs l Hl Hok. unfold bump_malloc. destruct (above_spec zs) as [H1 H2]. destruct (decide _) as [Hd|]; [|done].
  intros _. split; [lia|]. split; [lia|]. intros z' l' Hz'. right. by apply H2.
Qed.

(** ** Using a slab *)

Inductive op := Alloc | Free (i : nat).

Section usage.
Context (malloc : nat → gmap Z Z → Z → Z).

(** A client that holds blocks: it asks for one more, or gives back one it
    holds. *)
Definition run_op (o : op) (held : list Z) : S (bool * list Z) :=
  match o with
  | Alloc => r ← slab_alloc malloc; mret (if decide (r = 0) then (false, held) else (true, held ++ [r]))
  | Free i =>
      match held !! i with
      | Some d => slab_free d;; mret (true, delete i held)
      | None => mret (false, held)
      end
  end.
Fixpoint run_ops (os : list op) (held : list Z) : S (list bool * list Z) :=
  match os with
  | [] => mret ([], held)
  | o :: os => '(a, held) ← run_op o held; '(l, held) ← run_ops os held; mret (a :: l, held)
  end.
End usage.

Section refinement.
Context (malloc : nat → gmap Z Z → Z → Z) `{!Malloc malloc} (ul L : Z) `{!Fits ul L}.
Context (zs0 : gmap Z Z) (max : Z) (Hmax : max = -1 ∨ 0 ≤ max < 2 ^ 31).

(** What is held is what the slab counts as used. *)
Record uses (σ : pure_slab * memory) (held : list Z) : Prop := {
  us_max : m_max_num σ.1 = max;
  us_limit : max ≠ -1 → Z.of_nat (length held) ≤ max;
  us_slab : ∃ l, slab_ok ul L zs0 σ.1 σ.2 l ∧ l ≠ [] ∧ held ≡ₚ (λ a, a + 24) <$> live l }.

Definition slab_limit : option nat := if decide (max = -1) then None else Some (Z.to_nat max).
(** Every block is out, and malloc refuses another zone. *)
Definition starved (σ : pure_slab * memory) : Prop :=
  has_free σ = false ∧ malloc (asked σ.2) (zones σ.2) L = 0.

Lemma limited_spec σ held l :
  uses σ held → slab_ok ul L zs0 σ.1 σ.2 l → held ≡ₚ (λ a, a + 24) <$> live l →
  limited σ.1 ↔ at_limit slab_limit (length held).
Proof.
  intros [Em Hlim _] Hs Hp. unfold limited, slab_limit. rewrite Em, (so_count _ _ _ _ _ _ Hs).
  apply Permutation_length in Hp. rewrite length_fmap in Hp. rewrite <- Hp.
  destruct (decide (max = -1)) as [|Hne]; simpl; [tauto|]. specialize (Hlim Hne). rewrite s32_small by lia. lia.
Qed.

Lemma live_pos s m l a : slab_ok ul L zs0 s m l → a ∈ live l → 0 < a.
Proof.
  intros Hs Ha. apply list_elem_of_bind in Ha as (P&Ha&HP). destruct (pool_in _ _ _ _ _ _ _ Hs HP) as [nx HP'].
  eapply (pool_pos ul L); [exact HP'|]. apply elem_of_app. by left.
Qed.

Lemma uses_nodup σ held : uses σ held → NoDup held ∧ 0 ∉ held.
Proof.
  intros Hu. destruct (us_slab _ _ Hu) as (l&Hs&_&Hp). split.
  - rewrite Hp. apply NoDup_fmap_2; [intros a b; lia|]. pose proof (so_blocks _ _ _ _ _ _ Hs) as Hnd.
    rewrite live_split in Hnd. by apply list.NoDup_app in Hnd as [? _].
  - rewrite Hp. intros (a&E&Ha)%list_elem_of_fmap. pose proof (live_pos _ _ _ _ Hs Ha). lia.
Qed.

(** The slab is an allocator of blocks. *)
#[export] Instance slab_block_pool : BlockPool (slab_alloc malloc) slab_free slab_limit starved uses.
Proof.
  split.
  - apply uses_nodup.
  - intros σ held held' Hp [Em Hlim (l&Hs&Hne&Hl)]. split; [done|by rewrite <- Hp|]. exists l. by rewrite <- Hp.
  - intros [s m] held Hu. destruct (us_slab _ _ Hu) as (l&Hs&Hne&Hp). pose proof (limited_spec _ held l Hu Hs Hp) as Hlim.
    simpl in *. eapply wp_mono; [by eapply (slab_alloc_ok malloc ul L)|].
    intros r σ' [Em [(->&Hwhy&Hs'&Es)|(b&l'&->&Hl&Hst&Hs'&Hne'&Hlive)]].
    + left. split; [done|]. split; [|by destruct Hwhy; [left; apply Hlim|right]].
      destruct Hu as [E1 E2 _]. split; simpl in *; [congruence|done|]. by exists l.
    + rewrite Hlim in Hl. right. assert (0 < b) by (eapply live_pos; [exact Hs'|]; rewrite Hlive; apply list_elem_of_here).
      split; [lia|]. split; [|by split]. destruct Hu as [E1 E2 _]. split; simpl in *; [congruence| |].
      * intros Hn. unfold slab_limit in Hl. rewrite decide_False in Hl by done. simpl in Hl. lia.
      * exists l'. split_and!; [done..|]. rewrite Hlive. cbn. by rewrite <- Hp.
  - intros [s m] held d Hu. destruct (us_slab _ _ Hu) as (l&Hs&Hne&Hp).
    assert (Hd : d ∈ (λ a, a + 24) <$> live l) by (rewrite <- Hp; apply list_elem_of_here).
    apply list_elem_of_fmap in Hd as (a&->&Ha).
    eapply wp_mono; [by eapply (slab_free_spec ul L)|]. intros [] σ' (Em&_&_&l'&Hs'&Hne'&Hlive).
    destruct Hu as [E1 E2 _]. split; simpl in *; [congruence|intros Hn; specialize (E2 Hn); lia|].
    exists l'. split_and!; [done..|]. apply (Permutation_cons_inv (a := a + 24)). by rewrite Hp, Hlive.
Qed.

Lemma slab_op_ok o σ held : uses σ held → wp (run_op malloc o held) (λ r σ', uses σ' r.2) σ.
Proof.
  intros Hu. destruct o as [|i]; simpl.
  - apply wp_bind. eapply wp_mono; [by apply bp_alloc|]. intros r σ' [(->&Hu'&_)|(Hr&Hu'&_)]; apply wp_ret; [done|].
    rewrite decide_False by done. simpl. eapply bp_permutation; [|exact Hu']. apply Permutation_cons_append.
  - destruct (held !! i) as [d|] eqn:Ei; [|by apply wp_ret]. apply wp_bind.
    eapply wp_mono; [apply (bp_free σ (delete i held))|intros [] σ' Hu'; by apply wp_ret].
    eapply bp_permutation; [|exact Hu]. by apply delete_Permutation.
Qed.

Lemma slab_ops_ok os : ∀ σ held, uses σ held → wp (run_ops malloc os held) (λ r σ', uses σ' r.2) σ.
Proof.
  induction os as [|o os IH]; intros σ held Hu; cbn [run_ops]; [by apply wp_ret|].
  apply wp_bind. eapply wp_mono; [by apply slab_op_ok|]. intros [a h1] σ1 Hu1. simpl in *.
  apply wp_bind. eapply wp_mono; [by apply IH|]. intros [l h2] σ2 Hu2. by apply wp_ret.
Qed.

(** What is held does not overlap: neither the data nor the headers. *)
Lemma uses_apart σ held :
  uses σ held →
  (∀ i j a b, i ≠ j → held !! i = Some a → held !! j = Some b → apart (a - 24) ul (b - 24) ul) ∧
  (∀ a, a ∈ held → ∃ z, zones σ.2 !! z = Some L ∧ zs0 !! z = None ∧ z + 32 ≤ a - 24 ∧ a - 24 + ul ≤ z + L).
Proof.
  intros Hu. destruct (us_slab _ _ Hu) as (l&Hs&_&Hp). destruct σ as [s m]. simpl in *.
  assert (Hsub : ∀ d, d ∈ held → d - 24 ∈ l ≫= all_blocks).
  { intros d. rewrite Hp. intros (a&->&(P&Ha&HP)%list_elem_of_bind)%list_elem_of_fmap. replace (a + 24 - 24) with a by lia.
    apply list_elem_of_bind. exists P. split; [apply elem_of_app; by left|done]. }
  destruct (uses_nodup _ _ Hu) as [Hnd _].
  split.
  - intros i j a b Hij Hi Hj. pose proof (list_elem_of_lookup_2 _ _ _ Hi) as Ha. pose proof (list_elem_of_lookup_2 _ _ _ Hj) as Hb.
    eapply (blocks_apart ul L); [exact Hs|by apply Hsub..|]. intros E. apply Hij.
    assert (a = b) as -> by lia. by eapply NoDup_lookup.
  - intros a Ha. by apply (block_in_zone ul L zs0 s m l), Hsub.
Qed.
End refinement.

(** C18. A slab is a bag of blocks: constructed with room for a block and used
    by any sequence of requests and releases, it never fails; the blocks held
    at any time overlap neither each other nor each other's headers nor the
    headers of the pools, and lie in zones that belong to the slab; never more
    than [max_num] are held; the next request is refused exactly when that limit
    is reached, or when no pool has a free block and malloc refuses the zone for
    another one; and destroying the slab gives all its zones back. *)
Theorem slab_refines malloc `{!Malloc malloc} block_size pool_size max s m os :
  let ul := round_up block_size 8 + 24 in let L := round_up pool_size 4096 in
  0 ≤ block_size < 2 ^ 32 - 8 → 0 ≤ pool_size ≤ 2 ^ 32 - 4096 → ul + 95 ≤ L → (max = -1 ∨ 0 ≤ max < 2 ^ 31) →
  zones_ok (zones m) → malloc (asked m) (zones m) L ≠ 0 →
  ∃ answers held σ,
    (construct malloc block_size pool_size max;; run_ops malloc os []) (s, m) = Some ((answers, held), σ) ∧
    (∀ i j a b, i ≠ j → held !! i = Some a → held !! j = Some b → apart (a - 24) ul (b - 24) ul) ∧
    (∀ a, a ∈ held → ∃ z, zones σ.2 !! z = Some L ∧ zones m !! z = None ∧ z + 32 ≤ a - 24 ∧ a - 24 + ul ≤ z + L) ∧
    (max ≠ -1 → Z.of_nat (length held) ≤ max) ∧
    (∃ r σ', slab_alloc malloc σ = Some (r, σ') ∧
      (r = 0 ↔ (max ≠ -1 ∧ max ≤ Z.of_nat (length held)) ∨
        (has_free σ = false ∧ malloc (asked σ.2) (zones σ.2) L = 0))) ∧
    ∃ σ', destroy σ = Some ((), σ') ∧ zones σ'.2 = zones m.
Proof.
  intros ul L Hb Hp Hfit Hmax Hz Hm.
  assert (E1 : pure_align_u32 block_size ALIGNMENT = round_up block_size 8) by (apply (pure_align_u32_spec 3); lia).
  assert (E2 : pure_align_u32 pool_size PAGE_SIZE = L) by (apply (pure_align_u32_spec 12); lia).
  destruct (round_up_spec block_size 8) as [? _]; [lia|]. destruct (round_up_spec pool_size 4096) as [? _]; [lia|].
  assert (HL : L < 2 ^ 32) by (unfold L; lia).
  assert (Fits ul L) by (unfold Fits; lia).
  assert (Hc : wp (construct malloc block_size pool_size max;; run_ops malloc os []) (λ r σ,
    uses ul L (zones m) max σ r.2) (s, m)).
  { apply wp_bind. eapply wp_mono; [apply (construct_ok malloc ul L (zones m)); [done..|by rewrite E1|done]|].
    intros [] σ (Emax&l&Hs&Hne&Hl). apply (slab_ops_ok malloc ul L (zones m) max Hmax os σ []).
    split; [done|simpl; lia|]. exists l. split_and!; [done..|]. by rewrite Hl. }
  apply wp_elim in Hc as ([answers held]&σ&E&Hu). pose proof (slab_block_pool malloc ul L (zones m) max Hmax) as Hpool.
  destruct (bp_refusal _ _ _ _ _ σ held Hu) as (r&σ1&Er&Hr). exists answers, held, σ.
  destruct (uses_apart ul L (zones m) max σ held Hu) as [Hap Hin].
  destruct (us_slab _ _ _ _ _ _ Hu) as (l&Hs&_&_). destruct σ as [s' m'].
  pose proof (destroy_ok ul L (zones m) s' m' l Hs) as Hd. apply wp_elim in Hd as ([]&σ'&Ed&Ez&_).
  split_and!; [done..|apply Hu| |by exists σ']. exists r, σ1. split; [done|]. rewrite Hr. unfold starved.
  apply or_iff_compat_r. unfold slab_limit. destruct (decide (max = -1)); simpl; [tauto|lia].
Qed.

(** Three requests with a limit of two, one release, one more request; the next
    one is refused. *)
Lemma slab_refines_witness :
  let m := mk_memory ∅ ∅ ∅ 0 in let s := mk_slab 0 0 0 0 0 0 in
  ∃ held σ, (construct bump_malloc 1000 5000 2;; run_ops bump_malloc [Alloc; Alloc; Alloc; Free 0; Alloc] []) (s, m)
    = Some (([true; true; false; true; true], held), σ) ∧ length held = 2%nat ∧ apart (hd 0 held - 24) 1024 (List.last held 0 - 24) 1024 ∧
    ∃ σ', slab_alloc bump_malloc σ = Some (0, σ').
Proof.
  intros m s.
  destruct (slab_refines bump_malloc 1000 5000 2 s m [Alloc; Alloc; Alloc; Free 0; Alloc]) as (answers&held&σ&E&Hap&_&_&(r&σ'&Er&Hr)&_).
  - split; vm_compute; congruence.
  - split; vm_compute; congruence.
  - vm_compute. congruence.
  - right. split; vm_compute; congruence.
  - split; simpl; intros *; by rewrite lookup_empty.
  - vm_compute. congruence.
  - assert (Ev : (λ r, r.1) <$> (construct bump_malloc 1000 5000 2;; run_ops bump_malloc [Alloc; Alloc; Alloc; Free 0; Alloc] []) (s, m)
      = Some ([true; true; false; true; true], [4152 + 1024; 4152])) by (vm_compute; reflexivity).
    rewrite E in Ev. cbn in Ev. injection Ev as -> ->. exists [4152 + 1024; 4152], σ. split; [done|]. split; [done|].
    split; [apply (Hap 0%nat 1%nat); done|]. exists σ'. rewrite Er. do 2 f_equal. apply Hr. clear. left. simpl. lia.
Defined.
