(* ===== verification/ConnPool.v ===== *)
(** * src/base/base_conn_pool.h: connections in the blocks of a slab.

    The pool needs of its allocator only what [BlockPool] says, and the slab
    is one.  The class [T] of the connections and its constructor are outside
    the repository: a connection is here its descriptor and its reference
    count, which the constructor of [CBase_connect] sets to 1. *)

From S2P Require Import Prelude DLL BlockPool Slab SlabProofs SlabSpec SlabTheorems.

Local Open Scope Z_scope.

(** ** Data *)

Record object := mk_object { o_fd : Z; o_refc : Z }.

Section pool.
Context {Σ : Type} (alloc : M Σ Z) (free : Z → M Σ ()).

(** The allocator and the connections constructed in its blocks. *)
Definition pool_state : Type := Σ * gmap Z object.
Definition in_alloc {A} (m : M Σ A) : M pool_state A := λ σ, '(a, s) ← m σ.1; Some (a, (s, σ.2)).
Definition get_object (p : Z) : M pool_state object := λ σ, (λ o, (o, σ)) <$> σ.2 !! p.
Definition set_objects (f : gmap Z object → gmap Z object) : M pool_state () := modify (λ σ, (σ.1, f σ.2)).

(** ** Operations *)

(** [new(mempt) T(connfd)]. *)
Definition connect_create (connfd : Z) : M pool_state Z :=
  mempt ← in_alloc alloc;
  if decide (mempt = 0) then mret 0
  else set_objects <[mempt := mk_object connfd 1]>;; mret mempt.

(** The destructor, and the block back to the slab. *)
Definition conn_free (pd_todel : Z) : M pool_state () :=
  _ ← get_object pd_todel; set_objects (delete pd_todel);; in_alloc (free pd_todel).

Definition add_ref (p : Z) : M pool_state Z :=
  o ← get_object p; let n := u32 (o_refc o + 1) in
  set_objects <[p := mk_object (o_fd o) n]>;; mret (s32 n).

(** [release], with the deletion callback that [connect_create] sets. *)
Definition release (p : Z) : M pool_state () :=
  o ← get_object p; let n := u32 (o_refc o - 1) in
  set_objects <[p := mk_object (o_fd o) n]>;;
  if decide (s32 n = 0) then conn_free p else mret ().

Definition connect_delete (con : Z) : M pool_state () := release con.

(** ** Using the pool *)

Inductive op := Create (fd : Z) | Ref (i : nat) | Drop_ref (i : nat).

(** A client with the handles [hs]; whether it was answered. *)
Definition run_op (o : op) (hs : list Z) : M pool_state (bool * list Z) :=
  match o with
  | Create fd => p ← connect_create fd; mret (if decide (p = 0) then (false, hs) else (true, hs ++ [p]))
  | Ref i => match hs !! i with Some p => _ ← add_ref p; mret (true, hs) | None => mret (false, hs) end
  | Drop_ref i =>
      match hs !! i with
      | Some p => connect_delete p;; b ← gets (λ σ : pool_state, bool_decide (is_Some (σ.2 !! p)));
          mret (true, if (b : bool) then hs else delete i hs)
      | None => mret (false, hs)
      end
  end.
Fixpoint run_ops (os : list op) (hs : list Z) : M pool_state (list bool * list Z) :=
  match os with
  | [] => mret ([], hs)
  | o :: os => '(a, hs) ← run_op o hs; '(l, hs) ← run_ops os hs; mret (a :: l, hs)
  end.
End pool.

(** The constructor: [sizeof(T)] is [size]. *)
Definition CConn_pool (malloc : nat → gmap Z Z → Z → Z) (size i_limit : Z) : M (pure_slab * memory) () :=
  if decide (0 < i_limit) then pure_slab_3 malloc (u32 size) (u32 (size * i_limit)) i_limit
  else pure_slab_2 malloc (u32 size) (u32 (size * 128)).

(** ** The reference: descriptors and counts, in the order of creation *)

Definition spec_op (granted : bool) (o : op) (cs : list object) : bool * list object :=
  match o with
  | Create fd => if granted then (true, cs ++ [mk_object fd 1]) else (false, cs)
  | Ref i => match cs !! i with Some c => (true, <[i := mk_object (o_fd c) (o_refc c + 1)]> cs) | None => (false, cs) end
  | Drop_ref i =>
      match cs !! i with
      | Some c => (true, if decide (o_refc c = 1) then delete i cs else <[i := mk_object (o_fd c) (o_refc c - 1)]> cs)
      | None => (false, cs)
      end
  end.

(** A run of the reference: a request is refused at the limit; whether the
    memory refuses one below it is not the reference's business. *)
Inductive spec_run (limit : option nat) : list op → list object → list bool → list object → Prop :=
  | spec_nil cs : spec_run limit [] cs [] cs
  | spec_cons g o os cs a cs1 l cs2 :
      (at_limit limit (length cs) → g = false) →
      spec_op g o cs = (a, cs1) → spec_run limit os cs1 l cs2 →
      spec_run limit (o :: os) cs (a :: l) cs2.

Section refinement.
Context {Σ : Type} (alloc : M Σ Z) (free : Z → M Σ ()) (limit : option nat) (starved : Σ → Prop) (owns : Σ → list Z → Prop).
Context `{!BlockPool alloc free limit starved owns}.


(** The handles are blocks of the allocator, the connections are there and
    nowhere else, and no count is above [B]. *)
Record holds (B : Z) (σ : pool_state) (hs : list Z) (cs : list object) : Prop := {
  ho_owns : owns σ.1 hs;
  ho_objects i p : hs !! i = Some p → σ.2 !! p = cs !! i;
  ho_only p : is_Some (σ.2 !! p) → p ∈ hs;
  ho_length : length hs = length cs;
  ho_count c : c ∈ cs → 1 ≤ o_refc c ≤ B }.

Lemma handle_lookup B σ hs cs i p :
  holds B σ hs cs → hs !! i = Some p → ∃ c, cs !! i = Some c ∧ σ.2 !! p = Some c ∧ 1 ≤ o_refc c ≤ B.
Proof.
  intros Hh Hi. destruct (lookup_lt_is_Some_2 cs i) as [c Hc].
  { rewrite <- (ho_length _ _ _ _ Hh). by eapply lookup_lt_Some. }
  exists c. split; [done|]. rewrite (ho_objects _ _ _ _ Hh i p Hi). split; [done|].
  apply (ho_count _ _ _ _ Hh). by eapply list_elem_of_lookup_2.
Qed.

Lemma wp_in_alloc {A} (m : M Σ A) (Q : A → pool_state → Prop) σ :
  wp m (λ a s, Q a (s, σ.2)) σ.1 → wp (in_alloc m) Q σ.
Proof. unfold wp, in_alloc. simpl. by destruct (m σ.1) as [[a s]|]. Qed.
Lemma wp_get_object p c (Q : object → pool_state → Prop) σ : σ.2 !! p = Some c → Q c σ → wp (get_object (Σ := Σ) p) Q σ.
Proof. intros E HQ. unfold wp, get_object. by rewrite E. Qed.

(** Changing the count of a connection. *)
Lemma holds_recount B B' s objs hs cs i p c c' :
  holds B (s, objs) hs cs → hs !! i = Some p → cs !! i = Some c → 1 ≤ o_refc c' ≤ B' → B ≤ B' →
  holds B' (s, <[p := c']> objs) hs (<[i := c']> cs).
Proof.
  intros [Ho Hob Hon Hlen Hc] Hi Hci Hc' HB. simpl in *. destruct (bp_distinct _ _ Ho) as [Hnd _]. split; simpl.
  - done.
  - intros j q Hj. destruct (decide (i = j)) as [<-|Hne].
    + assert (q = p) as -> by congruence. rewrite lookup_insert_eq, list_lookup_insert_eq; [done|by eapply lookup_lt_Some].
    + rewrite lookup_insert_ne, list_lookup_insert_ne by (intros ->; try done; apply Hne; by eapply NoDup_lookup). by apply Hob.
  - intros q [<-|[_ Hq]]%lookup_insert_is_Some; [by eapply list_elem_of_lookup_2|by apply Hon].
  - by rewrite length_insert.
  - intros x Hx. apply list_elem_of_lookup_1 in Hx as [j Hj]. destruct (decide (i = j)) as [<-|Hne].
    + rewrite list_lookup_insert_eq in Hj by by eapply lookup_lt_Some. injection Hj as <-. lia.
    + rewrite list_lookup_insert_ne in Hj by done. apply list_elem_of_lookup_2, Hc in Hj. lia.
Qed.

Lemma lookup_delete_list {A} (l : list A) i j : delete i l !! j = if decide (j < i)%nat then l !! j else l !! Datatypes.S j.
Proof.
  destruct (decide (j < i)%nat); [by apply list_lookup_delete_lt|by apply list_lookup_delete_ge; lia].
Qed.

Lemma holds_drop B s s' objs hs cs i p c :
  holds B (s, objs) hs cs → hs !! i = Some p → cs !! i = Some c → owns s' (delete i hs) →
  holds B (s', delete p objs) (delete i hs) (delete i cs).
Proof.
  intros [Ho Hob Hon Hlen Hc] Hi Hci Ho'. simpl in *. destruct (bp_distinct _ _ Ho) as [Hnd _]. split; simpl; [done| | | |].
  - intros j q Hj. assert (q ≠ p).
    { intros ->. rewrite lookup_delete_list in Hj. destruct (decide (j < i)%nat); [|assert (j ≥ i)%nat by lia].
      - assert (j = i) by (by eapply NoDup_lookup). lia.
      - assert (Datatypes.S j = i) by (by eapply NoDup_lookup). lia. }
    rewrite lookup_delete_ne by done. rewrite lookup_delete_list in Hj. rewrite lookup_delete_list. destruct (decide (j < i)%nat); by apply Hob.
  - intros q Hq. destruct (decide (q = p)) as [->|Hne]; [rewrite lookup_delete_eq in Hq; by destruct Hq|].
    rewrite lookup_delete_ne in Hq by done. apply Hon in Hq. rewrite (delete_Permutation hs i p Hi) in Hq.
    by apply elem_of_cons in Hq as [?|?].
  - rewrite !length_delete by eauto. by rewrite Hlen.
  - intros x Hx. apply Hc. rewrite (delete_Permutation cs i c Hci). by apply list_elem_of_further.
Qed.

Lemma holds_mono B B' σ hs cs : holds B σ hs cs → B ≤ B' → holds B' σ hs cs.
Proof. intros [? ? ? ? Hc] HB. split; try done. intros c Hcc. specialize (Hc c Hcc). lia. Qed.

(** Requests other than [Create] do not ask. *)
Lemma ask_nothing (cs : list object) (P : bool → Prop) :
  (∀ g, P g) → ∃ g, (at_limit limit (length cs) → g = false) ∧ P g.
Proof. intros HP. by exists false. Qed.

Definition step_ok (B : Z) (o : op) (cs : list object) (r : bool * list Z) (σ' : pool_state) : Prop :=
  ∃ g, (at_limit limit (length cs) → g = false) ∧
    ∃ cs', spec_op g o cs = (r.1, cs') ∧ holds (B + 1) σ' r.2 cs'.

Lemma create_ok B fd σ hs cs : holds B σ hs cs → 0 ≤ B → wp (run_op alloc free (Create fd) hs) (step_ok B (Create fd) cs) σ.
Proof.
  intros Hh HB. destruct σ as [s objs]. pose proof (ho_length _ _ _ _ Hh) as Hlen. cbn [run_op].
  apply wp_bind. unfold connect_create. apply wp_bind, wp_in_alloc. simpl.
  eapply wp_mono; [apply bp_alloc, Hh|]. intros r s' [(->&Ho&Hwhy)|(Hr&Ho&Hnl&_)]; simpl in *.
  - apply wp_ret, wp_ret. exists false. split; [done|]. exists cs. split; [done|]. apply (holds_mono B); [|lia]. destruct Hh. by split.
  - rewrite decide_False by done. apply wp_bind, wp_modify, wp_ret, wp_ret. rewrite decide_False by done.
    exists true. rewrite Hlen in Hnl. split; [done|]. exists (cs ++ [mk_object fd 1]). split; [done|].
    destruct Hh as [_ Hob Hon _ Hc]. simpl in *. pose proof (bp_distinct _ _ Ho) as [[Hfresh _]%list.NoDup_cons _].
    split; simpl.
    + eapply bp_permutation; [|exact Ho]. apply Permutation_cons_append.
    + intros i p Hi. apply lookup_app_Some in Hi as [Hi|[Hge Hi]].
      * rewrite lookup_app_l by (rewrite <- Hlen; by eapply lookup_lt_Some).
        rewrite lookup_insert_ne; [by apply Hob|]. intros ->. apply Hfresh. by eapply list_elem_of_lookup_2.
      * apply list_lookup_singleton_Some in Hi as [Hi <-]. rewrite lookup_insert_eq, lookup_app_r by lia.
        by replace (i - length cs)%nat with 0%nat by lia.
    + intros p [<-|[_ Hp]]%lookup_insert_is_Some; apply elem_of_app; [right; apply list_elem_of_here|left; by apply Hon].
    + rewrite !length_app. simpl. lia.
    + intros c [Hcc| ->%list_elem_of_singleton]%elem_of_app; [specialize (Hc c Hcc); lia|simpl; lia].
Qed.

Lemma ref_ok B i σ hs cs : holds B σ hs cs → 0 ≤ B < 2 ^ 31 - 1 → wp (run_op alloc free (Ref i) hs) (step_ok B (Ref i) cs) σ.
Proof.
  intros Hh HB. destruct σ as [s objs]. pose proof (ho_length _ _ _ _ Hh) as Hlen. cbn [run_op].
  destruct (hs !! i) as [p|] eqn:Ei.
  - destruct (handle_lookup _ _ _ _ _ _ Hh Ei) as (c&Hc&Hp&Hr). apply wp_bind. unfold add_ref.
    apply wp_bind. eapply wp_get_object; [done|]. cbv zeta. apply wp_bind, wp_modify, wp_ret, wp_ret.
    apply ask_nothing. intros g. exists (<[i := mk_object (o_fd c) (o_refc c + 1)]> cs). simpl. rewrite Hc. split; [done|].
    rewrite u32_small by lia. eapply holds_recount; [done|done|done|simpl; lia|lia].
  - apply wp_ret. apply ask_nothing. intros g. exists cs. simpl. apply lookup_ge_None in Ei.
    rewrite lookup_ge_None_2 by lia. split; [done|]. apply (holds_mono B); [done|lia].
Qed.

Lemma drop_ref_ok B i σ hs cs : holds B σ hs cs → 0 ≤ B < 2 ^ 31 - 1 → wp (run_op alloc free (Drop_ref i) hs) (step_ok B (Drop_ref i) cs) σ.
Proof.
  intros Hh HB. destruct σ as [s objs]. pose proof (ho_length _ _ _ _ Hh) as Hlen. cbn [run_op].
  destruct (hs !! i) as [p|] eqn:Ei.
  - destruct (handle_lookup _ _ _ _ _ _ Hh Ei) as (c&Hc&Hp&Hr). apply wp_bind. unfold connect_delete, release.
    apply wp_bind. eapply wp_get_object; [done|]. cbv zeta. rewrite u32_small, s32_small by lia. apply wp_bind, wp_modify. simpl.
    destruct (decide (o_refc c = 1)) as [E1|E1].
    + rewrite decide_True by lia. unfold conn_free. apply wp_bind. eapply wp_get_object; [simpl; by rewrite lookup_insert_eq|].
      apply wp_bind, wp_modify, wp_in_alloc. simpl. rewrite delete_insert_eq.
      eapply wp_mono; [apply (bp_free s (delete i hs))|].
      { eapply bp_permutation; [|apply Hh]. by apply delete_Permutation. }
      intros [] s' Ho. apply wp_bind, wp_gets. simpl. rewrite lookup_delete_eq. apply wp_ret. simpl.
      apply ask_nothing. intros g. exists (delete i cs). simpl. rewrite Hc, decide_True by done. split; [done|].
      apply (holds_mono B); [|lia]. by eapply holds_drop.
    + rewrite decide_False by lia. apply wp_ret, wp_bind, wp_gets. simpl. rewrite lookup_insert_eq. apply wp_ret. simpl.
      apply ask_nothing. intros g. exists (<[i := mk_object (o_fd c) (o_refc c - 1)]> cs). simpl.
      rewrite Hc, decide_False by done. split; [done|]. eapply holds_recount; [done|done|done|simpl; lia|lia].
  - apply wp_ret. apply ask_nothing. intros g. exists cs. simpl. apply lookup_ge_None in Ei.
    rewrite lookup_ge_None_2 by lia. split; [done|]. apply (holds_mono B); [done|lia].
Qed.

Lemma pool_run_ok os : ∀ B σ hs cs,
  holds B σ hs cs → 0 ≤ B → B + Z.of_nat (length os) < 2 ^ 31 →
  wp (run_ops alloc free os hs) (λ r σ', ∃ cs', spec_run limit os cs r.1 cs' ∧ ∃ B', holds B' σ' r.2 cs') σ.
Proof.
  induction os as [|o os IH]; intros B σ hs cs Hh HB Hl; cbn [run_ops length] in *.
  - apply wp_ret. exists cs. split; [constructor|by exists B].
  - apply wp_bind. apply (wp_mono _ (step_ok B o cs)).
    { destruct o; [by apply create_ok|apply ref_ok; [done|lia]|apply drop_ref_ok; [done|lia]]. }
    intros [a hs1] σ1 (g&Hg1&cs1&Hspec&Hh1). apply wp_bind. eapply wp_mono; [apply (IH (B + 1) σ1 hs1 cs1); [done|lia|lia]|].
    intros [l hs2] σ2 (cs2&Hrun&HB'). apply wp_ret. exists cs2. split; [|done]. simpl in *. by eapply spec_cons.
Qed.

(** A creation is refused at the limit, or when the allocator is starved. *)
Lemma create_refusal B fd σ hs cs : holds B σ hs cs →
  ∃ p σ', connect_create alloc fd σ = Some (p, σ') ∧ (p = 0 ↔ at_limit limit (length hs) ∨ starved σ.1).
Proof.
  intros Hh. destruct (bp_refusal alloc free limit starved owns σ.1 hs (ho_owns _ _ _ _ Hh)) as (r&s'&E&Hr).
  unfold connect_create, in_alloc, mbind, M_bind. rewrite E. simpl. destruct (decide (r = 0)) as [->|Hne]; simpl; eauto.
Qed.
End refinement.

(** ** The pool over the slab *)

(** C23. A pool of connections over a slab, with room for at least one: whatever
    is created, shared and dropped, nothing fails; a connection stays at its
    address, with its descriptor and its count, until its last reference is
    dropped, and is then destroyed and its block given back; there are never
    more than [i_limit]; the next creation is refused exactly at the limit,
    or when no zone has a free block and malloc refuses another zone; and no two
    connections overlap. *)
Theorem conn_pool_spec malloc `{!Malloc malloc} size i_limit s m os :
  let ul := round_up size 8 + 24 in let L := round_up (size * i_limit) 4096 in
  0 ≤ size < 2 ^ 32 - 8 → 0 < i_limit < 2 ^ 31 → size * i_limit ≤ 2 ^ 32 - 4096 → ul + 95 ≤ L →
  zones_ok (zones m) → malloc (asked m) (zones m) L ≠ 0 → Z.of_nat (length os) < 2 ^ 31 - 1 →
  ∃ answers hs σ cs,
    (in_alloc (CConn_pool malloc size i_limit);; run_ops (slab_alloc malloc) slab_free os []) ((s, m), ∅) = Some ((answers, hs), σ) ∧
    spec_run (Some (Z.to_nat i_limit)) os [] answers cs ∧
    (∀ fd, ∃ p σ', connect_create (slab_alloc malloc) fd σ = Some (p, σ') ∧
      (p = 0 ↔ i_limit ≤ Z.of_nat (length hs) ∨
        (has_free σ.1 = false ∧ malloc (asked σ.1.2) (zones σ.1.2) L = 0))) ∧
    length hs = length cs ∧ (∀ i p, hs !! i = Some p → σ.2 !! p = cs !! i) ∧ (∀ p, is_Some (σ.2 !! p) → p ∈ hs) ∧
    (∀ i j a b, i ≠ j → hs !! i = Some a → hs !! j = Some b → apart (a - 24) ul (b - 24) ul) ∧
    Z.of_nat (length hs) ≤ i_limit.
Proof.
  intros ul L Hs Hi Hp Hfit Hz Hm Hos.
  assert (E1 : pure_align_u32 (u32 size) ALIGNMENT = round_up size 8).
  { rewrite u32_small by lia. apply (pure_align_u32_spec 3); lia. }
  assert (E2 : pure_align_u32 (u32 (size * i_limit)) PAGE_SIZE = L).
  { rewrite u32_small by lia. apply (pure_align_u32_spec 12); lia. }
  destruct (round_up_spec size 8) as [? _]; [lia|]. destruct (round_up_spec (size * i_limit) 4096) as [? _]; [lia|].
  assert (HL : L < 2 ^ 32) by (unfold L; lia). assert (Fits ul L) by (unfold Fits; lia).
  assert (Elim : slab_limit i_limit = Some (Z.to_nat i_limit)) by (unfold slab_limit; by rewrite decide_False by lia).
  assert (Hmax : i_limit = -1 ∨ 0 ≤ i_limit < 2 ^ 31) by lia.
  pose proof (slab_block_pool malloc ul L (zones m) i_limit Hmax) as Hpool.
  assert (Hc : wp (in_alloc (CConn_pool malloc size i_limit);; run_ops (slab_alloc malloc) slab_free os []) (λ r σ,
    ∃ cs, spec_run (slab_limit i_limit) os [] r.1 cs ∧ ∃ B, holds (uses ul L (zones m) i_limit) B σ r.2 cs) ((s, m), ∅)).
  { apply wp_bind, wp_in_alloc. unfold CConn_pool, pure_slab_3. rewrite decide_True, s32_small by lia.
    eapply wp_mono; [apply (construct_ok malloc ul L (zones m)); [done..|by rewrite E1|done]|].
    intros [] σ (Emax&l&Hl&Hne&Hlive). apply (pool_run_ok _ _ (slab_limit i_limit) (starved malloc L) (uses ul L (zones m) i_limit) os 0); [|lia..].
    split; simpl.
    - split; [done|simpl; lia|]. exists l. split_and!; [done..|]. by rewrite Hlive.
    - intros i p. by rewrite lookup_nil.
    - intros p [v Hv]. by rewrite lookup_empty in Hv.
    - done.
    - intros c ?%elem_of_nil. done. }
  apply wp_elim in Hc as ([answers hs]&σ&E&cs&Hrun&B&Hh). exists answers, hs, σ, cs.
  assert (Href : ∀ fd, ∃ p σ', connect_create (slab_alloc malloc) fd σ = Some (p, σ') ∧
    (p = 0 ↔ at_limit (slab_limit i_limit) (length hs) ∨ starved malloc L σ.1)) by (intros fd; by eapply create_refusal).
  destruct Hh as [Ho Hob Hon Hlen _]. simpl in *.
  destruct (uses_apart ul L (zones m) i_limit _ hs Ho) as [Hap _]. rewrite Elim in Hrun, Href. split_and!; [done|done| |done..|].
  - intros fd. destruct (Href fd) as (q&σ'&Eq&Hq). exists q, σ'. split; [done|]. rewrite Hq. unfold starved.
    apply or_iff_compat_r. simpl. lia.
  - apply (us_limit _ _ _ _ _ _ Ho). lia.
Qed.

Lemma conn_pool_spec_witness :
  let m := mk_memory ∅ ∅ ∅ 0 in let s := mk_slab 0 0 0 0 0 0 in
  let os := [Create 7; Create 8; Create 9; Ref 0; Drop_ref 0; Drop_ref 1; Create 9] in
  ∃ hs σ, (in_alloc (CConn_pool bump_malloc 3000 2);; run_ops (slab_alloc bump_malloc) slab_free os []) ((s, m), ∅)
      = Some (([true; true; false; true; true; true; true], hs), σ) ∧
    σ.2 !! hd 0 hs = Some (mk_object 7 1) ∧ σ.2 !! List.last hs 0 = Some (mk_object 9 1) ∧
    apart (hd 0 hs - 24) 3024 (List.last hs 0 - 24) 3024.
Proof.
  intros m s os.
  destruct (conn_pool_spec bump_malloc 3000 2 s m os) as (answers&hs&σ&cs&E&_&_&_&_&_&Hap&_).
  - split; vm_compute; congruence.
  - split; vm_compute; congruence.
  - vm_compute. congruence.
  - vm_compute. congruence.
  - split; simpl; intros *; by rewrite lookup_empty.
  - vm_compute. congruence.
  - vm_compute. congruence.
  - assert (Ev : (λ r, (r.1, (r.2.2 !! 4152, r.2.2 !! 7176))) <$>
        (in_alloc (CConn_pool bump_malloc 3000 2);; run_ops (slab_alloc bump_malloc) slab_free os []) ((s, m), ∅)
      = Some (([true; true; false; true; true; true; true], [4152; 7176]), (Some (mk_object 7 1), Some (mk_object 9 1))))
      by (vm_compute; reflexivity).
    rewrite E in Ev. cbn [fmap option_fmap option_map fst snd] in Ev. injection Ev as -> -> E3 E4. exists [4152; 7176], σ.
    split; [done|]. split; [done|]. split; [done|]. by apply (Hap 0%nat 1%nat).
Defined.

(** ** A pool of one connection *)

(** A zone of [size * i_limit] bytes leaves no room for the headers: with
    connections of 4048 bytes and a limit of 1 the one block handed out ends
    8 bytes behind its zone. *)
Example pool_of_one_overflows :
  (λ r, (r.1, zones r.2.1.2 !! 4096)) <$>
    (in_alloc (CConn_pool bump_malloc 4048 1);; connect_create (slab_alloc bump_malloc) 7) ((mk_slab 0 0 0 0 0 0, mk_memory ∅ ∅ ∅ 0), ∅)
  = Some (4096 + 32 + 24, Some 4096) ∧ 4096 + 4096 < 4096 + 32 + 24 + 4048.
Proof. split; [vm_compute; reflexivity|lia]. Qed.

(** With 4096 bytes, [p->length - ul] wraps around, and cutting the pool writes
    behind the zone. *)
Example pool_of_one_underflows :
  CConn_pool bump_malloc 4096 1 (mk_slab 0 0 0 0 0 0, mk_memory ∅ ∅ ∅ 0) = None.
Proof. vm_compute. reflexivity. Qed.
