(* ===== verification/Membox.v ===== *)
(** * src/mem_pool/p_membox.h: a box of blocks of one size, for many threads.

    A block is taken by a compare-and-swap of its [seq] from 0 to 1 and given
    back by one from 1 to 0; [free_num] is counted apart from that.  The
    operations are first given as one thread runs them, then as steps of
    threads that interleave between any two accesses to shared memory. *)

From S2P Require Import Prelude BlockPool.

Local Open Scope Z_scope.

Definition ALIGNMENT : Z := 8.
Definition PAGE_SIZE : Z := 4096.
Definition CACHE_LINE_SIZE : Z := 64.
Definition MEMBLOCKHEAD : Z := 16.

(** ** Data *)

Record memblock := mk_block { seq : Z; mp : Z }.

(** A pool at its address; [blocks] are those that lie in its zone, from [pa]
    on. *)
Record mempool := mk_pool {
  addr : Z; p_length : Z; off_t : Z; block_num : Z; free_num : Z; pa : Z; blocks : list memblock }.

(** The pools are a chain, linked by [next]. *)
Record membox := mk_box { mp_mpool : list mempool; m_mbsize : Z; m_poolsize : Z }.

Definition sizeof_mempool : Z := 32.
(** [sizeof(memblock)] for a [T] of [t] bytes. *)
Definition sizeof_memblock (t : Z) : Z := pure_align_u32 (pure_align_u32 t ALIGNMENT + MEMBLOCKHEAD) CACHE_LINE_SIZE.

Definition with_seq (v : Z) (b : memblock) : memblock := mk_block v (mp b).
Definition with_mp (v : Z) (b : memblock) : memblock := mk_block (seq b) v.
Definition with_free_num (v : Z) (p : mempool) : mempool := mk_pool (addr p) (p_length p) (off_t p) (block_num p) v (pa p) (blocks p).
Definition with_blocks (l : list memblock) (p : mempool) : mempool := mk_pool (addr p) (p_length p) (off_t p) (block_num p) (free_num p) (pa p) l.

(** ** Construction and destruction; [z] is what malloc answers *)

Definition new_pool (z l : Z) : mempool :=
  let a := pure_align_ptr z CACHE_LINE_SIZE in
  let off := u8 (a - z) in mk_pool a (u32 (l - off)) off 0 0 0 [].

(** The chain from [p] on, and whether a pool is returned. *)
Definition creat_mempool (z : Z) (p : list mempool) (l : Z) : list mempool * bool :=
  match p with
  | [] => if decide (z = 0) then ([], false) else ([new_pool z l], true)
  | [q] => if decide (z = 0) then ([q], false) else ([q; new_pool z l], true)
  | _ => (p, false)
  end.

Definition init_memblock (t : Z) (p : mempool) (ul : Z) : mempool :=
  let mpalignsize := pure_align_u32 sizeof_mempool CACHE_LINE_SIZE in
  let content_len := u32 (p_length p - ul - mpalignsize) in
  let n := content_len / sizeof_memblock t in
  mk_pool (addr p) (p_length p) (off_t p) n n (addr p + mpalignsize)
    (replicate (Z.to_nat ((p_length p - mpalignsize) / sizeof_memblock t)) (mk_block 0 0)).

Definition construct (t pool_size z : Z) : membox :=
  let m_mbsize := pure_align_u32 (pure_align_u32 t ALIGNMENT + 8) CACHE_LINE_SIZE in
  let m_poolsize := pure_align_u32 pool_size PAGE_SIZE in
  match creat_mempool z [] m_poolsize with
  | (p :: ps, true) => mk_box (init_memblock t p (sizeof_memblock t) :: ps) m_mbsize m_poolsize
  | (ps, _) => mk_box ps m_mbsize m_poolsize
  end.

(** What is passed to [free], in order. *)
Definition destroy (m : membox) : list Z * membox :=
  ((λ p, addr p - off_t p) <$> mp_mpool m, mk_box [] (m_mbsize m) (m_poolsize m)).

(** ** The accesses to shared memory *)

Notation P := (M mempool).

Definition read_seq (b : Z) : P Z := λ p, v ← blocks p !! Z.to_nat b; Some (seq v, p).
Definition cas_seq (b old new : Z) : P bool := λ p,
  v ← blocks p !! Z.to_nat b;
  if decide (seq v = old) then Some (true, with_blocks (<[Z.to_nat b := with_seq new v]> (blocks p)) p) else Some (false, p).
Definition add_free (d : Z) : P () := modify (λ p, with_free_num (u32 (free_num p + d)) p).
Definition set_mp (b : Z) : P () := λ p,
  v ← blocks p !! Z.to_nat b; Some ((), with_blocks (<[Z.to_nat b := with_mp (addr p) v]> (blocks p)) p).
(** [pmb->mp->free_num]: another pool than this does not exist. *)
Definition add_free_of (b : Z) : P () := λ p,
  v ← blocks p !! Z.to_nat b; if decide (mp v = addr p) then add_free 1 p else None.

(** [(startpos + i) % p->block_num] *)
Definition startpos (p : mempool) : Z := s32 (block_num p - free_num p).
Definition slot (st i : Z) (p : mempool) : Z := u32 (st + i) `mod` block_num p.
Definition data (t b : Z) (p : mempool) : Z := pa p + sizeof_memblock t * b + MEMBLOCKHEAD.

(** ** One thread *)

Section alone.
Context (t : Z).

Fixpoint scan (fuel : nat) (st i : Z) : P Z :=
  p ← get;
  if decide (i < block_num p) then
    match fuel with
    | O => stuck
    | S fuel =>
        let b := slot st i p in
        v ← read_seq b;
        if decide (v = 0) then
          ok ← cas_seq b 0 1;
          if ok : bool then add_free (-1);; set_mp b;; p ← get; mret (data t b p)
          else scan fuel st (i + 1)
        else scan fuel st (i + 1)
    end
  else mret 0.

Definition mempool_alloc : P Z :=
  p ← get;
  if decide (free_num p = 0) then mret 0
  else scan (Z.to_nat (block_num p)) (startpos p) 0.

Definition box_alloc : M membox Z := λ m,
  match mp_mpool m with
  | p :: ps => '(r, p) ← mempool_alloc p; Some (r, mk_box (p :: ps) (m_mbsize m) (m_poolsize m))
  | [] => None
  end.

(** The block is where the pointer says; one that is not used is only
    reported. *)
Definition block_of (d : Z) (p : mempool) : Z := (d - MEMBLOCKHEAD - pa p) / sizeof_memblock t.
Definition pool_free (d : Z) : P () :=
  p ← get;
  if decide (data t (block_of d p) p = d) then
    ok ← cas_seq (block_of d p) 1 0;
    if ok : bool then add_free_of (block_of d p) else mret ()
  else stuck.
Definition box_free (d : Z) : M membox () := λ m,
  match mp_mpool m with
  | p :: ps => '(_, p) ← pool_free d p; Some ((), mk_box (p :: ps) (m_mbsize m) (m_poolsize m))
  | [] => None
  end.
End alone.

(** ** Threads *)

(** Where a thread is: before each access of [mempool_alloc] and [box_free]
    to shared memory. *)
Inductive pc :=
  | Idle
  | A_test | A_start | A_read (st i : Z) | A_cas (st i : Z) | A_sub (b : Z) | A_mp (b : Z)
  | F_cas (b : Z) | F_add (b : Z).

(** [out]: the blocks that have been handed out and not been given back. *)
Record sys := mk_sys { shared : mempool; threads : list pc; out : list Z }.

Definition go (i : nat) (k : pc) (p : mempool) (o : list Z) (s : sys) : sys := mk_sys p (<[i := k]> (threads s)) o.

(** A thread that holds nothing may ask for a block; one that has got hold of
    a block that is out, from wherever, may give it back. *)
Inductive step (i : nat) : sys → sys → Prop :=
  | st_alloc s : threads s !! i = Some Idle → step i s (go i A_test (shared s) (out s) s)
  | st_test s : threads s !! i = Some A_test →
      step i s (go i (if decide (free_num (shared s) = 0) then Idle else A_start) (shared s) (out s) s)
  | st_start s : threads s !! i = Some A_start → step i s (go i (A_read (startpos (shared s)) 0) (shared s) (out s) s)
  | st_end s st j : threads s !! i = Some (A_read st j) → block_num (shared s) ≤ j → step i s (go i Idle (shared s) (out s) s)
  | st_read s st j v p : threads s !! i = Some (A_read st j) → j < block_num (shared s) →
      read_seq (slot st j (shared s)) (shared s) = Some (v, p) →
      step i s (go i (if decide (v = 0) then A_cas st j else A_read st (j + 1)) p (out s) s)
  | st_cas s st j ok p : threads s !! i = Some (A_cas st j) →
      cas_seq (slot st j (shared s)) 0 1 (shared s) = Some (ok, p) →
      step i s (go i (if ok then A_sub (slot st j (shared s)) else A_read st (j + 1)) p (out s) s)
  | st_sub s b p : threads s !! i = Some (A_sub b) → add_free (-1) (shared s) = Some ((), p) →
      step i s (go i (A_mp b) p (out s) s)
  | st_mp s b p : threads s !! i = Some (A_mp b) → set_mp b (shared s) = Some ((), p) →
      step i s (go i Idle p (b :: out s) s)
  | st_free s b o1 o2 : threads s !! i = Some Idle → out s = o1 ++ b :: o2 → step i s (go i (F_cas b) (shared s) (o1 ++ o2) s)
  | st_fcas s b ok p : threads s !! i = Some (F_cas b) → cas_seq b 1 0 (shared s) = Some (ok, p) →
      step i s (go i (if ok then F_add b else Idle) p (out s) s)
  | st_fadd s b p : threads s !! i = Some (F_add b) → add_free_of b (shared s) = Some ((), p) →
      step i s (go i Idle p (out s) s).
Definition any_step (s s' : sys) : Prop := ∃ i, step i s s'.
