(* ===== verification/MemboxProofs.v ===== *)
(** * src/mem_pool/p_membox.h: what holds in every interleaving of threads that
    share a box. *)

From stdpp Require Import relations.
From S2P Require Import Prelude BlockPool Membox.

Local Open Scope Z_scope.

(** ** Blocks and their owners *)

(** The block a thread has claimed, or has begun to give back. *)
Definition own (k : pc) : list Z := match k with A_sub b | A_mp b | F_cas b => [b] | _ => [] end.
(** By how much [free_num] is above what it counts. *)
Definition late (k : pc) : Z := match k with A_sub _ => 1 | F_add _ => -1 | _ => 0 end.

Definition held (s : sys) : list Z := out s ++ flat_map own (threads s).
Definition lateness (l : list pc) : Z := foldr (λ k acc, late k + acc) 0 l.

Definition mp_ok (p : mempool) (b : Z) : Prop := mp <$> blocks p !! Z.to_nat b = Some (addr p).

Section threads.
Context (n : Z) (Hn : 0 ≤ n < 2 ^ 30).

Definition thread_ok (p : mempool) (k : pc) : Prop :=
  match k with
  | A_read _ j => 0 ≤ j ≤ n
  | A_cas _ j => 0 ≤ j < n
  | F_cas b => mp_ok p b
  | F_add b => 0 ≤ b < n ∧ mp_ok p b
  | _ => True
  end.

(** The claims [h] are exclusive and the flags show them. *)
Record claims_ok (p : mempool) (h : list Z) : Prop := {
  cl_num : block_num p = n;
  cl_nodup : NoDup h;
  cl_range b : b ∈ h → 0 ≤ b < n;
  cl_seq b : 0 ≤ b < n → seq <$> blocks p !! Z.to_nat b = Some (if decide (b ∈ h) then 1 else 0) }.

Record inv (s : sys) : Prop := {
  iv_claims : claims_ok (shared s) (held s);
  iv_out b : b ∈ out s → mp_ok (shared s) b;
  iv_free : free_num (shared s) = u32 (n - Z.of_nat (length (held s)) + lateness (threads s));
  iv_threads k : k ∈ threads s → thread_ok (shared s) k }.

(** *** Replacing what one thread does *)

Lemma threads_at (l : list pc) i k : l !! i = Some k →
  ∃ rest, l ≡ₚ k :: rest ∧ ∀ k', <[i := k']> l ≡ₚ k' :: rest.
Proof.
  intros Hi. destruct (list_elem_of_split_length _ _ _ Hi) as (l1&l2&->&->). exists (l1 ++ l2). split.
  - by rewrite Permutation_middle.
  - intros k'. rewrite insert_app_r_alt, Nat.sub_diag by done. simpl. by rewrite Permutation_middle.
Qed.

#[local] Instance lateness_proper : Proper ((≡ₚ) ==> (=)) lateness.
Proof. intros l l' H. unfold lateness. induction H; simpl; lia. Qed.

Lemma held_at s i k : threads s !! i = Some k →
  ∃ rest, threads s ≡ₚ k :: rest ∧ held s ≡ₚ own k ++ (out s ++ flat_map own rest) ∧
    (∀ k' p o, held (go i k' p o s) ≡ₚ own k' ++ (o ++ flat_map own rest)) ∧
    lateness (threads s) = late k + lateness rest ∧
    (∀ k', <[i := k']> (threads s) ≡ₚ k' :: rest) ∧
    (∀ k', lateness (<[i := k']> (threads s)) = late k' + lateness rest).
Proof.
  intros Hi. destruct (threads_at _ _ _ Hi) as (rest&H1&H2). exists rest. unfold held, go. simpl. split_and!; [done|..|done|].
  - rewrite H1 at 1. simpl. rewrite !app_assoc. f_equiv. apply Permutation_app_comm.
  - intros k' p o. rewrite H2. simpl. rewrite !app_assoc. f_equiv. apply Permutation_app_comm.
  - by rewrite H1 at 1.
  - intros k'. by rewrite H2.
Qed.

Lemma claims_permutation p h h' : h ≡ₚ h' → claims_ok p h → claims_ok p h'.
Proof.
  intros Hp [H1 H2 H3 H4]. split; [done|by rewrite <- Hp|intros b; rewrite <- Hp; apply H3|].
  intros b Hb. rewrite (H4 b Hb). f_equal. apply decide_ext. by rewrite Hp.
Qed.

(** *** The accesses *)

(** [p'] differs from [p] in flags and count, and back pointers that are set
    stay set. *)
Definition grows (p p' : mempool) : Prop := ∀ b, mp_ok p b → mp_ok p' b.

Lemma thread_ok_grows p p' k : grows p p' → thread_ok p k → thread_ok p' k.
Proof. intros Hg. destruct k; simpl; auto. intros [? ?]. auto. Qed.

Lemma to_nat_inj a b : 0 ≤ a → 0 ≤ b → Z.to_nat a = Z.to_nat b → a = b.
Proof. lia. Qed.

Lemma cas_ok p h b old new ok p' :
  claims_ok p h → 0 ≤ b < n → cas_seq b old new p = Some (ok, p') →
  (ok = false ∧ p' = p) ∨
  (ok = true ∧ (if decide (b ∈ h) then 1 else 0) = old ∧ grows p p' ∧ block_num p' = n ∧ addr p' = addr p ∧ free_num p' = free_num p ∧
   ∀ c, 0 ≤ c < n → seq <$> blocks p' !! Z.to_nat c = if decide (c = b) then Some new else seq <$> blocks p !! Z.to_nat c).
Proof.
  intros [H1 H2 H3 H4] Hb E. unfold cas_seq in E. pose proof (H4 b Hb) as Hs.
  destruct (blocks p !! Z.to_nat b) as [v|] eqn:Ev; [|done]. simpl in E, Hs. injection Hs as Hs. destruct (decide (seq v = old)) as [Eo|Eo]; injection E as <- <-.
  - right. split; [done|]. split; [congruence|]. split; [|split_and!; [done..|]].
    + intros c Hc. unfold mp_ok in *. simpl. destruct (decide (Z.to_nat c = Z.to_nat b)) as [Ec|Hne].
      * rewrite Ec in Hc |- *. rewrite Ev in Hc. rewrite list_lookup_insert_eq by (by eapply lookup_lt_Some). done.
      * by rewrite list_lookup_insert_ne.
    + intros c Hc. simpl. destruct (decide (c = b)) as [Ec|Ec].
      * subst c. by rewrite list_lookup_insert_eq by (by eapply lookup_lt_Some).
      * rewrite list_lookup_insert_ne; [done|]. intros E%to_nat_inj; lia.
  - by left.
Qed.

Lemma claims_take p h b p' :
  claims_ok p h → 0 ≤ b < n → b ∉ h → block_num p' = n →
  (∀ c, 0 ≤ c < n → seq <$> blocks p' !! Z.to_nat c = if decide (c = b) then Some 1 else seq <$> blocks p !! Z.to_nat c) →
  claims_ok p' (b :: h).
Proof.
  intros [H1 H2 H3 H4] Hb Hbh Hp' Hseq. split; [done|by apply list.NoDup_cons|by intros c [->|?]%elem_of_cons; auto|].
  intros c Hc. rewrite Hseq by done. destruct (decide (c = b)) as [Ec|Ec].
  - subst c. by rewrite decide_True by apply list_elem_of_here.
  - rewrite H4 by done. f_equal. apply decide_ext. rewrite elem_of_cons. tauto.
Qed.

Lemma claims_drop p h b p' :
  claims_ok p (b :: h) → block_num p' = n →
  (∀ c, 0 ≤ c < n → seq <$> blocks p' !! Z.to_nat c = if decide (c = b) then Some 0 else seq <$> blocks p !! Z.to_nat c) →
  claims_ok p' h.
Proof.
  intros [H1 H2 H3 H4] Hp' Hseq. apply list.NoDup_cons in H2 as [Hbh H2].
  split; [done|done|by intros c Hc; apply H3, list_elem_of_further|].
  intros c Hc. rewrite Hseq by done. destruct (decide (c = b)) as [Ec|Ec].
  - subst c. by rewrite decide_False.
  - rewrite H4 by done. f_equal. apply decide_ext. rewrite elem_of_cons. tauto.
Qed.

Lemma set_mp_ok p h b p' :
  claims_ok p h → 0 ≤ b < n → set_mp b p = Some ((), p') →
  claims_ok p' h ∧ grows p p' ∧ mp_ok p' b ∧ free_num p' = free_num p.
Proof.
  intros [H1 H2 H3 H4] Hb E. unfold set_mp in E.
  destruct (blocks p !! Z.to_nat b) as [v|] eqn:Ev; [|done]. injection E as <-.
  pose proof (lookup_lt_Some _ _ _ Ev) as Hlt. split; [split; [done..|]|split_and!; [| |done]].
  - intros c Hc. rewrite <- (H4 c Hc). simpl. destruct (decide (Z.to_nat c = Z.to_nat b)) as [->|Hne].
    + by rewrite list_lookup_insert_eq, Ev.
    + by rewrite list_lookup_insert_ne.
  - intros c Hc. unfold mp_ok in *. simpl. destruct (decide (Z.to_nat c = Z.to_nat b)) as [->|Hne].
    + by rewrite list_lookup_insert_eq.
    + by rewrite list_lookup_insert_ne.
  - unfold mp_ok. simpl. by rewrite list_lookup_insert_eq.
Qed.

Lemma slot_range p st i : block_num p = n → 0 < n → 0 ≤ slot st i p < n.
Proof. intros E ?. unfold slot. rewrite E. apply Z.mod_pos_bound. lia. Qed.

(** *** The steps *)

Lemma inv_update s i k k' p' o' :
  inv s → threads s !! i = Some k → grows (shared s) p' →
  (∀ rest, held s ≡ₚ own k ++ (out s ++ flat_map own rest) → claims_ok p' (own k' ++ (o' ++ flat_map own rest))) →
  (∀ b, b ∈ o' → mp_ok p' b) → thread_ok p' k' →
  (∀ x, free_num (shared s) = u32 (x - Z.of_nat (length (own k ++ out s)) + late k) →
     free_num p' = u32 (x - Z.of_nat (length (own k' ++ o')) + late k')) →
  inv (go i k' p' o' s).
Proof.
  intros [Hc Ho Hf Ht] Hi Hg Hc' Ho' Hk' Hf'. destruct (held_at s i k Hi) as (rest&Hth&Hh&Hh'&Hl&Hins&Hl'). split.
  - eapply claims_permutation; [symmetry; apply Hh'|]. by apply Hc'.
  - done.
  - simpl. rewrite Hl'. rewrite (Permutation_length (Hh' k' p' o')). rewrite (Permutation_length Hh), Hl in Hf.
    rewrite !length_app in Hf |- *.
    rewrite (Hf' (n - Z.of_nat (length (flat_map own rest)) + lateness rest)); [rewrite length_app|rewrite Hf, length_app]; f_equal; lia.
  - intros j Hj. simpl in Hj. rewrite Hins in Hj. apply elem_of_cons in Hj as [->|Hj]; [done|].
    apply (thread_ok_grows (shared s)); [done|]. apply Ht. rewrite Hth. by apply list_elem_of_further.
Qed.

Lemma inv_goto s i k k' :
  inv s → threads s !! i = Some k → own k' = own k → late k' = late k → thread_ok (shared s) k' →
  inv (go i k' (shared s) (out s) s).
Proof.
  intros Hinv Hi Eo El Hk'. eapply inv_update; [done|done|by intros b| |apply Hinv|done|].
  - intros rest Hp. rewrite Eo. eapply claims_permutation; [exact Hp|apply Hinv].
  - intros x. by rewrite Eo, El.
Qed.

Lemma thread_at s i k : inv s → threads s !! i = Some k → thread_ok (shared s) k.
Proof. intros Hi E. apply (iv_threads _ Hi). by eapply list_elem_of_lookup_2. Qed.

Lemma claimed_range s i k b : inv s → threads s !! i = Some k → b ∈ own k → 0 ≤ b < n.
Proof.
  intros Hi E Hb. destruct (held_at s i k E) as (rest&_&Hh&_). apply (cl_range _ _ (iv_claims _ Hi)).
  rewrite Hh. apply elem_of_app. by left.
Qed.

Lemma add_free_spec d p p' : add_free d p = Some ((), p') → p' = with_free_num (u32 (free_num p + d)) p.
Proof. intros E. by injection E as <-. Qed.

Lemma inv_step s s' i : inv s → step i s s' → inv s'.
Proof.
  intros Hinv Hst. pose proof (cl_num _ _ (iv_claims _ Hinv)) as En.
  destruct Hst as [s Hi|s Hi|s Hi|s st j Hi Hj|s st j v p Hi Hj E|s st j ok p Hi E|s b p Hi E|s b p Hi E|s b o1 o2 Hi E|s b ok p Hi E|s b p Hi E];
    pose proof (thread_at _ _ _ Hinv Hi) as Hk; simpl in Hk.
  - by eapply inv_goto.
  - destruct (decide (free_num (shared s) = 0)); by eapply inv_goto.
  - eapply inv_goto; [done..|]. simpl. lia.
  - by eapply inv_goto.
  - assert (p = shared s) as -> by (unfold read_seq in E; destruct (blocks _ !! _); simplify_eq/=; done).
    destruct (decide (v = 0)); (eapply inv_goto; [done..|simpl; lia]).
  - pose proof (slot_range (shared s) st j En ltac:(lia)) as Hb. set (b := slot st j (shared s)) in *.
    destruct (cas_ok _ _ b 0 1 ok p (iv_claims _ Hinv) Hb E) as [[-> ->]|(->&Hold&Hg&Hn'&Ea&Ef&Hseq)].
    + eapply inv_goto; [done..|]. simpl. lia.
    + assert (Hbh : b ∉ held s) by (intros Hin; by rewrite decide_True in Hold).
      eapply inv_update; [done|exact Hi|done| |intros c Hc; by apply Hg, (iv_out _ Hinv)|done|].
      * intros rest Hp. simpl. eapply claims_take; [eapply claims_permutation; [exact Hp|apply Hinv]|done| |done|done].
        by rewrite Hp in Hbh.
      * intros x. simpl. rewrite Ef. intros ->. f_equal; lia.
  - apply add_free_spec in E as ->. pose proof (claimed_range _ _ _ b Hinv Hi (list_elem_of_here _ _)) as Hb.
    eapply inv_update; [done|exact Hi|by intros c| |apply Hinv|done|].
    + intros rest Hp. pose proof (claims_permutation _ _ _ Hp (iv_claims _ Hinv)) as [? ? ? ?]. by split.
    + intros x. simpl. intros ->. rewrite u32_add_l. f_equal; lia.
  - pose proof (claimed_range _ _ _ b Hinv Hi (list_elem_of_here _ _)) as Hb.
    destruct (set_mp_ok _ _ b p (iv_claims _ Hinv) Hb E) as (_&Hg&Hmp&Ef).
    eapply inv_update; [done|exact Hi|done| | |done|].
    + intros rest Hp. pose proof (claims_permutation _ _ _ Hp (iv_claims _ Hinv)) as Hc.
      by destruct (set_mp_ok _ _ b p Hc Hb E).
    + intros c [->|Hc]%elem_of_cons; [done|by apply Hg, (iv_out _ Hinv)].
    + intros x. simpl. rewrite Ef. intros ->. f_equal; lia.
  - eapply inv_update; [done|exact Hi|by intros c| | |simpl; apply (iv_out _ Hinv); rewrite E; apply elem_of_app; right; apply list_elem_of_here|].
    + intros rest Hp. eapply claims_permutation; [|apply Hinv]. rewrite Hp, E. simpl. rewrite <- !app_assoc. simpl. symmetry; apply Permutation_middle.
    + intros c Hc. apply (iv_out _ Hinv). rewrite E. rewrite elem_of_app in Hc |- *. destruct Hc; [by left|right; by apply list_elem_of_further].
    + intros x. rewrite E. simpl. rewrite !length_app. simpl. intros ->. f_equal; lia.
  - pose proof (claimed_range _ _ _ b Hinv Hi (list_elem_of_here _ _)) as Hb.
    destruct (cas_ok _ _ b 1 0 ok p (iv_claims _ Hinv) Hb E) as [[-> ->]|(->&Hold&Hg&Hn'&Ea&Ef&Hseq)].
    + exfalso. pose proof (cl_seq _ _ (iv_claims _ Hinv) b Hb) as Hs. destruct (held_at s i _ Hi) as (rest&_&Hh&_).
      rewrite decide_True in Hs by (rewrite Hh; apply elem_of_app; left; apply list_elem_of_here).
      unfold cas_seq in E. destruct (blocks _ !! _) as [v|]; [|done]. simplify_eq/=. by case_decide.
    + eapply inv_update; [done|exact Hi|done| |intros c Hc; by apply Hg, (iv_out _ Hinv)|split; [done|by apply Hg]|].
      * intros rest Hp. simpl in Hp |- *. eapply claims_drop; [eapply claims_permutation; [exact Hp|apply Hinv]|done|done].
      * intros x. simpl. rewrite Ef. intros ->. f_equal; lia.
  - destruct Hk as [Hb Hmp]. unfold add_free_of in E. destruct (blocks _ !! _) as [v|] eqn:Ev; [|done]. simpl in E.
    destruct (decide (mp v = addr (shared s))); [|done]. apply add_free_spec in E as ->.
    eapply inv_update; [done|exact Hi|by intros c| |apply Hinv|done|].
    + intros rest Hp. pose proof (claims_permutation _ _ _ Hp (iv_claims _ Hinv)) as [? ? ? ?]. by split.
    + intros x. simpl. intros ->. rewrite u32_add_l. f_equal; lia.
Qed.

Lemma inv_steps s s' : inv s → rtc any_step s s' → inv s'.
Proof. intros Hi. induction 1 as [|s s1 s2 [i Hst] _ IH]; [done|]. by eapply IH, inv_step. Qed.

(** *** Every thread gets on *)

(** A bound on the steps a thread has before it, whatever the others do. *)
Definition steps_left (k : pc) : Z :=
  match k with
  | Idle => 0 | A_test => 2 * n + 7 | A_start => 2 * n + 6
  | A_read _ j => 2 * (n - j) + 4 | A_cas _ j => 2 * (n - j) + 3
  | A_sub _ => 2 | A_mp _ => 1 | F_cas _ => 2 | F_add _ => 1
  end.

Lemma block_there s b : inv s → 0 ≤ b < n → ∃ v, blocks (shared s) !! Z.to_nat b = Some v.
Proof.
  intros Hinv Hb. pose proof (cl_seq _ _ (iv_claims _ Hinv) b Hb) as Hs.
  destruct (blocks _ !! _) as [v|]; [by exists v|done].
Qed.

Lemma progress s i k : inv s → threads s !! i = Some k → ∃ s', step i s s'.
Proof.
  intros Hinv Hi. pose proof (cl_num _ _ (iv_claims _ Hinv)) as En. pose proof (thread_at _ _ _ Hinv Hi) as Hk.
  destruct k as [| | |st j|st j|b|b|b|b]; simpl in Hk.
  - eexists. by apply st_alloc.
  - eexists. by apply st_test.
  - eexists. by apply st_start.
  - destruct (decide (n ≤ j)); [eexists; eapply st_end; [done|lia]|].
    destruct (block_there s (slot st j (shared s)) Hinv) as [v Hv]; [apply slot_range; [done|lia]|].
    eexists. eapply st_read; [done|lia|]. unfold read_seq. by rewrite Hv.
  - destruct (block_there s (slot st j (shared s)) Hinv) as [v Hv]; [apply slot_range; [done|lia]|].
    destruct (cas_seq (slot st j (shared s)) 0 1 (shared s)) as [[ok p]|] eqn:E.
    + eexists. by eapply st_cas.
    + unfold cas_seq in E. rewrite Hv in E. simpl in E. by case_decide.
  - eexists. by eapply st_sub.
  - destruct (block_there s b Hinv) as [v Hv]; [by apply (claimed_range s i (A_mp b)); [| |apply list_elem_of_here]|].
    eexists. eapply st_mp; [done|]. unfold set_mp. by rewrite Hv.
  - destruct (block_there s b Hinv) as [v Hv]; [by apply (claimed_range s i (F_cas b)); [| |apply list_elem_of_here]|].
    destruct (cas_seq b 1 0 (shared s)) as [[ok p]|] eqn:E.
    + eexists. by eapply st_fcas.
    + unfold cas_seq in E. rewrite Hv in E. simpl in E. by case_decide.
  - destruct Hk as [Hb Hmp]. unfold mp_ok in Hmp. destruct (blocks (shared s) !! Z.to_nat b) as [v|] eqn:Ev; [|done].
    injection Hmp as Hmp. eexists. eapply st_fadd; [done|]. unfold add_free_of. rewrite Ev. simpl. by rewrite decide_True.
Qed.

Lemma step_decreases s s' i k :
  inv s → threads s !! i = Some k → k ≠ Idle → step i s s' →
  ∃ k', threads s' !! i = Some k' ∧ 0 ≤ steps_left k' < steps_left k.
Proof.
  intros Hinv Hi Hne Hst. pose proof (thread_at _ _ _ Hinv Hi) as Hk. pose proof (cl_num _ _ (iv_claims _ Hinv)) as En.
  pose proof (lookup_lt_Some _ _ _ Hi) as Hlt.
  destruct Hst; simplify_eq; simpl in *; rewrite list_lookup_insert_eq by done; (eexists; split; [done|]);
    repeat case_match; simpl; lia.
Qed.

(** What the pool is made of stays. *)
Lemma step_place i s s' : step i s s' →
  addr (shared s') = addr (shared s) ∧ pa (shared s') = pa (shared s) ∧ block_num (shared s') = block_num (shared s).
Proof.
  destruct 1 as [| | | |s st j v p _ _ E|s st j ok p _ E|s b p _ E|s b p _ E| |s b ok p _ E|s b p _ E]; cbn [go shared]; try done.
  all: unfold read_seq, cas_seq, set_mp, add_free_of, add_free in E; try (destruct (blocks _ !! _) as [w|]; [|done]);
    simpl in E; repeat case_decide; (done || by injection E; intros; subst).
Qed.
Lemma steps_place s s' : rtc any_step s s' →
  addr (shared s') = addr (shared s) ∧ pa (shared s') = pa (shared s) ∧ block_num (shared s') = block_num (shared s).
Proof.
  induction 1 as [|s s1 s2 [i Hst] _ IH]; [done|]. destruct (step_place _ _ _ Hst) as (?&?&?), IH as (?&?&?). split_and!; congruence.
Qed.
End threads.
