(* ===== verification/MemboxTheorems.v ===== *)
(** * src/mem_pool/p_membox.h: one thread alone, and a box from its
    construction on. *)

From stdpp Require Import relations.
From S2P Require Import Prelude BlockPool Membox MemboxProofs.

Local Open Scope Z_scope.

Section alone.
Context (t n : Z) (Hn : 0 ≤ n < 2 ^ 30).

Notation inv := (inv n).
Notation sys1 p k o := (mk_sys p [k] o).

Lemma step1 p k o s' s'' : step 0 (sys1 p k o) s' → rtc (step 0) s' s'' → rtc (step 0) (sys1 p k o) s''.
Proof. apply rtc_l. Qed.

Lemma rtc_any s s' : rtc (step 0) s s' → rtc any_step s s'.
Proof. intros H. eapply rtc_subrel; [|exact H]. intros x y Hxy. by exists 0%nat. Qed.

Lemma wp_read b p v (Q : Z → mempool → Prop) : blocks p !! Z.to_nat b = Some v → Q (seq v) p → wp (read_seq b) Q p.
Proof. intros E HQ. unfold wp, read_seq. by rewrite E. Qed.

(** From the compare-and-swap on, alone. *)
Lemma take_block_ok st j p bs v K (Q : Z → mempool → Prop) :
  let b := slot st j p in
  inv (sys1 p (A_cas st j) bs) → blocks p !! Z.to_nat b = Some v → seq v = 0 →
  (∀ p', rtc (step 0) (sys1 p (A_cas st j) bs) (sys1 p' Idle (b :: bs)) → Q (data t b p) p') →
  wp (ok ← cas_seq b 0 1; if ok : bool then add_free (-1);; set_mp b;; p ← get; mret (data t b p) else K) Q p.
Proof.
  intros b Hinv Hv Hs HQ.
  set (p1 := with_blocks (<[Z.to_nat b := with_seq 1 v]> (blocks p)) p).
  assert (E1 : cas_seq b 0 1 p = Some (true, p1)) by (unfold cas_seq; rewrite Hv; simpl; by rewrite decide_True).
  assert (S1 : step 0 (sys1 p (A_cas st j) bs) (sys1 p1 (A_sub b) bs)) by (by eapply (st_cas 0 (sys1 p (A_cas st j) bs) st j true p1)).
  set (p2 := with_free_num (u32 (free_num p1 + -1)) p1).
  assert (S2 : step 0 (sys1 p1 (A_sub b) bs) (sys1 p2 (A_mp b) bs)) by (by eapply (st_sub 0 (sys1 p1 (A_sub b) bs) b p2)).
  set (w := with_seq 1 v). assert (Hw : blocks p2 !! Z.to_nat b = Some w) by (simpl; by rewrite list_lookup_insert_eq by (by eapply lookup_lt_Some)).
  set (p3 := with_blocks (<[Z.to_nat b := with_mp (addr p2) w]> (blocks p2)) p2).
  assert (E3 : set_mp b p2 = Some ((), p3)) by (unfold set_mp; by rewrite Hw).
  assert (S3 : step 0 (sys1 p2 (A_mp b) bs) (sys1 p3 Idle (b :: bs))) by (by eapply (st_mp 0 (sys1 p2 (A_mp b) bs) b p3)).
  apply wp_bind, (wp_intro _ _ _ true p1); [done|]. apply wp_bind, (wp_intro _ _ _ () p2); [done|].
  apply wp_bind, (wp_intro _ _ _ () p3); [done|]. apply wp_bind, wp_get, wp_ret. apply (HQ p3).
  eapply rtc_l; [exact S1|]. eapply rtc_l; [exact S2|]. by apply rtc_once.
Qed.

(** What a thread does alone are steps of a thread: the scan ends with a block
    that is not out, or every slot it looked at is. *)
Lemma scan_ok fuel : ∀ st i p bs,
  inv (sys1 p (A_read st i) bs) → n - i ≤ Z.of_nat fuel →
  wp (scan t fuel st i) (λ r p',
    (r = 0 ∧ rtc (step 0) (sys1 p (A_read st i) bs) (sys1 p' Idle bs) ∧ ∀ j, i ≤ j < n → slot st j p ∈ bs) ∨
    (∃ b, r = data t b p ∧ rtc (step 0) (sys1 p (A_read st i) bs) (sys1 p' Idle (b :: bs)))) p.
Proof.
  induction fuel as [|fuel IH]; intros st i p bs Hinv Hf; pose proof (cl_num _ _ _ (iv_claims _ _ Hinv)) as En; simpl in En;
    (assert (Hk : 0 ≤ i ≤ n) by (by apply (thread_at n _ 0 (A_read st i) Hinv)));
    cbn [scan]; apply wp_bind, wp_get.
  - rewrite decide_False by lia. apply wp_ret. left. split; [done|]. split; [|lia].
    apply rtc_once, (st_end 0 (sys1 p (A_read st i) bs) st i); [done|simpl; lia].
  - destruct (decide (i < block_num p)) as [Hi|Hi].
    2: { apply wp_ret. left. split; [done|]. split; [|lia]. apply rtc_once, (st_end 0 (sys1 p (A_read st i) bs) st i); [done|simpl; lia]. }
    destruct (block_there n _ (slot st i p) Hinv) as [v Hv]; [apply (slot_range n); [done|lia]|]. simpl in Hv.
    assert (S1 : step 0 (sys1 p (A_read st i) bs) (sys1 p (if decide (seq v = 0) then A_cas st i else A_read st (i + 1)) bs)).
    { apply (st_read 0 (sys1 p (A_read st i) bs) st i (seq v) p); [done|done|]. unfold read_seq. simpl. by rewrite Hv. }
    pose proof (inv_step n Hn _ _ _ Hinv S1) as Hinv1.
    apply wp_bind. eapply wp_read; [exact Hv|]. destruct (decide (seq v = 0)) as [Hs|Hs].
    + eapply take_block_ok; [exact Hinv1|exact Hv|exact Hs|]. intros p' Hst. right. eexists. split; [done|]. by eapply rtc_l.
    + eapply wp_mono; [apply IH; [exact Hinv1|lia]|]. intros r p' [(->&Hst&Hall)|(b&->&Hst)].
      * left. split; [done|]. split; [by eapply rtc_l|]. intros j Hj. destruct (decide (j = i)) as [->|]; [|apply Hall; lia].
        pose proof (cl_seq _ _ _ (iv_claims _ _ Hinv) (slot st i p) ltac:(apply (slot_range n); [done|lia])) as Hq.
        simpl in Hq. rewrite Hv in Hq. simpl in Hq. unfold held in Hq. simpl in Hq. rewrite app_nil_r in Hq. case_decide; [done|]. congruence.
      * right. exists b. split; [done|]. by eapply rtc_l.
Qed.

Lemma claimed_le bs : NoDup bs → (∀ b, b ∈ bs → 0 ≤ b < n) → Z.of_nat (length bs) ≤ n.
Proof.
  intros Hnd Hr. assert (Hsub : bs ⊆+ seqZ 0 n).
  { apply NoDup_submseteq; [done|]. intros b Hb. apply elem_of_seqZ. specialize (Hr b Hb). lia. }
  apply submseteq_length in Hsub. rewrite length_seqZ in Hsub. lia.
Qed.
Lemma claimed_all bs : NoDup bs → (∀ b, 0 ≤ b < n → b ∈ bs) → n ≤ Z.of_nat (length bs).
Proof.
  intros Hnd Hr. assert (Hsub : seqZ 0 n ⊆+ bs).
  { apply NoDup_submseteq; [apply NoDup_seqZ|]. intros b Hb%elem_of_seqZ. apply Hr. lia. }
  apply submseteq_length in Hsub. rewrite length_seqZ in Hsub. lia.
Qed.

(** Alone, the count is exact and the scan starts at the number of blocks that
    are out. *)
Lemma alone_facts p k bs :
  inv (sys1 p k bs) → own k = [] → late k = 0 →
  NoDup bs ∧ Z.of_nat (length bs) ≤ n ∧ free_num p = n - Z.of_nat (length bs) ∧ startpos p = Z.of_nat (length bs).
Proof.
  intros Hinv Eo El. pose proof (iv_claims _ _ Hinv) as [En Hnd Hr _]. pose proof (iv_free _ _ Hinv) as Hf.
  unfold held in *. simpl in *. rewrite Eo, app_nil_r in *. rewrite El in Hf. pose proof (claimed_le bs Hnd Hr).
  rewrite u32_small in Hf by lia. split_and!; [done|done|lia|]. unfold startpos. rewrite En, Hf, s32_small; lia.
Qed.

Lemma slot_onto p b st : block_num p = n → 0 ≤ st ≤ n → 0 ≤ b < n → ∃ j, 0 ≤ j < n ∧ slot st j p = b.
Proof.
  intros En Hst Hb. exists ((b - st) `mod` n). pose proof (Z.mod_pos_bound (b - st) n ltac:(lia)). split; [done|].
  unfold slot. rewrite En, u32_small by lia. rewrite Zplus_mod_idemp_r. replace (st + (b - st)) with b by lia. apply Z.mod_small. lia.
Qed.

Lemma mempool_alloc_ok p bs :
  inv (sys1 p Idle bs) →
  wp (mempool_alloc t) (λ r p',
    (r = 0 ∧ inv (sys1 p' Idle bs) ∧ Z.of_nat (length bs) = n ∧ pa p' = pa p) ∨
    (∃ b, r = data t b p ∧ inv (sys1 p' Idle (b :: bs)) ∧ Z.of_nat (length bs) < n ∧ pa p' = pa p)) p.
Proof.
  intros Hinv. destruct (alone_facts _ _ _ Hinv) as (Hnd&Hle&Hf&Hst); [done..|]. pose proof (cl_num _ _ _ (iv_claims _ _ Hinv)) as En. simpl in En.
  unfold mempool_alloc. apply wp_bind, wp_get. destruct (decide (free_num p = 0)) as [H0|H0].
  - apply wp_ret. left. split_and!; [done|done|lia|done].
  - assert (S1 : step 0 (sys1 p Idle bs) (sys1 p A_test bs)) by (by apply (st_alloc 0 (sys1 p Idle bs))).
    assert (S2 : step 0 (sys1 p A_test bs) (sys1 p A_start bs)).
    { pose proof (st_test 0 (sys1 p A_test bs) eq_refl) as S. simpl in S. by rewrite decide_False in S. }
    assert (S3 : step 0 (sys1 p A_start bs) (sys1 p (A_read (startpos p) 0) bs)) by (by apply (st_start 0 (sys1 p A_start bs))).
    pose proof (inv_step n Hn _ _ _ (inv_step n Hn _ _ _ (inv_step n Hn _ _ _ Hinv S1) S2) S3) as Hinv3.
    eapply wp_mono; [apply scan_ok; [exact Hinv3|lia]|]. intros r p' [(->&Hs&Hall)|(b&->&Hs)]; apply rtc_any in Hs.
    + exfalso. assert (n ≤ Z.of_nat (length bs)); [|lia]. apply claimed_all; [done|]. intros b Hb.
      destruct (slot_onto p b (startpos p)) as (j&Hj&<-); [done|lia|done|]. apply Hall. lia.
    + right. exists b. split_and!; [done| |lia|by destruct (steps_place _ _ Hs) as (_&?&_)]. by apply (inv_steps n Hn _ _ Hinv3).
Qed.

Lemma fcas_inv p b bs s' : step 0 (sys1 p (F_cas b) bs) s' →
  ∃ ok p', cas_seq b 1 0 p = Some (ok, p') ∧ s' = sys1 p' (if ok then F_add b else Idle) bs.
Proof. inversion 1; simplify_eq/=; eauto. Qed.
Lemma fadd_inv p b bs s' : step 0 (sys1 p (F_add b) bs) s' → ∃ p', add_free_of b p = Some ((), p') ∧ s' = sys1 p' Idle bs.
Proof. inversion 1; simplify_eq/=; eauto. Qed.

Lemma pool_free_ok p b bs :
  0 < sizeof_memblock t → inv (sys1 p Idle (b :: bs)) →
  wp (pool_free t (data t b p)) (λ _ p', inv (sys1 p' Idle bs) ∧ pa p' = pa p) p.
Proof.
  intros HX Hinv. assert (Eb : block_of t (data t b p) p = b).
  { unfold block_of, data. replace (pa p + sizeof_memblock t * b + MEMBLOCKHEAD - MEMBLOCKHEAD - pa p) with (b * sizeof_memblock t) by lia.
    by apply Z.div_mul; lia. }
  assert (S1 : step 0 (sys1 p Idle (b :: bs)) (sys1 p (F_cas b) bs)) by (by apply (st_free 0 (sys1 p Idle (b :: bs)) b [] bs)).
  pose proof (inv_step n Hn _ _ _ Hinv S1) as Hinv1.
  destruct (progress n _ 0 (F_cas b) Hinv1 eq_refl) as [s2 S2]. pose proof (inv_step n Hn _ _ _ Hinv1 S2) as Hinv2.
  destruct (fcas_inv _ _ _ _ S2) as (ok&p2&Ecas&->).
  assert (Hok : ok = true).
  { pose proof (cl_seq _ _ _ (iv_claims _ _ Hinv1) b (claimed_range n _ 0 _ b Hinv1 eq_refl (list_elem_of_here _ _))) as Hs.
    rewrite decide_True in Hs by (unfold held; simpl; apply elem_of_app; right; apply list_elem_of_here).
    unfold cas_seq in Ecas. simpl in Hs. destruct (blocks p !! _) as [v|]; [|done]. simplify_eq/=. by case_decide; simplify_eq. }
  subst ok. destruct (progress n _ 0 (F_add b) Hinv2 eq_refl) as [s3 S3]. pose proof (inv_step n Hn _ _ _ Hinv2 S3) as Hinv3.
  destruct (fadd_inv _ _ _ _ S3) as (p3&Eadd&->).
  unfold pool_free. apply wp_bind, wp_get. rewrite Eb, decide_True by done.
  apply wp_bind, (wp_intro _ _ _ true p2); [done|]. apply (wp_intro _ _ _ () p3); [done|]. split; [done|].
  destruct (step_place _ _ _ S2) as (_&E2&_), (step_place _ _ _ S3) as (_&E3&_). simpl in *. congruence.
Qed.

(** ** The box as an allocator *)

Lemma inv_permutation p k bs bs' : bs ≡ₚ bs' → inv (sys1 p k bs) → inv (sys1 p k bs').
Proof.
  intros Hp [Hc Ho Hf Ht]. split.
  - eapply claims_permutation; [|exact Hc]. unfold held. simpl. by rewrite Hp.
  - intros b. simpl. rewrite <- Hp. apply Ho.
  - simpl in *. rewrite Hf. unfold held. simpl. by rewrite Hp.
  - exact Ht.
Qed.

Context (base : Z) (Hbase : 0 < base) (HX : 0 < sizeof_memblock t).

Definition owns (m : membox) (ds : list Z) : Prop := ∃ p ps bs,
  mp_mpool m = p :: ps ∧ pa p = base ∧ inv (sys1 p Idle bs) ∧ ds ≡ₚ (λ b, data t b p) <$> bs.

#[export] Instance box_block_pool :
  BlockPool (box_alloc t) (box_free t) (Some (Z.to_nat n)) (λ _, False) owns.
Proof.
  split.
  - intros m ds (p&ps&bs&_&Hpa&Hinv&->). pose proof (iv_claims _ _ Hinv) as [_ Hnd Hr _]. unfold held in *. simpl in *. rewrite app_nil_r in *.
    split.
    + apply NoDup_fmap_2_strong; [|done]. intros a b _ _ E. unfold data in E. nia.
    + intros (b&E&Hb)%list_elem_of_fmap. specialize (Hr b Hb). unfold data, MEMBLOCKHEAD in E. nia.
  - intros m ds ds' Hp (p&ps&bs&?&?&?&Hds). exists p, ps, bs. by rewrite <- Hp.
  - intros [mps ms pz] ds (p&ps&bs&Em&Hpa&Hinv&Hds). simpl in Em. subst mps.
    assert (El : length ds = length bs) by (rewrite Hds; apply length_fmap).
    pose proof (mempool_alloc_ok p bs Hinv) as Hw. apply wp_elim in Hw as (r&p'&E&Hr).
    assert (Eb : box_alloc t (mk_box (p :: ps) ms pz) = Some (r, mk_box (p' :: ps) ms pz)) by (unfold box_alloc; simpl; by rewrite E).
    apply (wp_intro _ _ _ _ _ Eb). destruct Hr as [(->&Hinv'&Hfull&Hpa')|(b&->&Hinv'&Hroom&Hpa')].
    + left. split; [done|]. split; [|left; simpl; lia]. exists p', ps, bs. split_and!; [done|congruence|done|].
      rewrite Hds. unfold data. by rewrite Hpa'.
    + right. pose proof (iv_claims _ _ Hinv') as [_ _ Hr _]. pose proof (Hr b (list_elem_of_here _ _)).
      split; [unfold data, MEMBLOCKHEAD; nia|]. split; [|simpl; lia]. exists p', ps, (b :: bs). split_and!; [done|congruence|done|].
      cbn [fmap list_fmap]. unfold data. rewrite Hpa'. by rewrite Hds.
  - intros [mps ms pz] ds d (p&ps&bs&Em&Hpa&Hinv&Hds). simpl in Em. subst mps.
    assert (Hd : d ∈ (λ b, data t b p) <$> bs) by (rewrite <- Hds; apply list_elem_of_here).
    apply list_elem_of_fmap in Hd as (b&->&Hb). apply list_elem_of_split in Hb as (l1&l2&->).
    rewrite <- Permutation_middle in Hds. simpl in Hds. apply Permutation_cons_inv in Hds.
    assert (Hinv' : inv (sys1 p Idle (b :: l1 ++ l2))) by (eapply inv_permutation; [|exact Hinv]; by rewrite Permutation_middle).
    pose proof (pool_free_ok p b (l1 ++ l2) HX Hinv') as Hw. apply wp_elim in Hw as ([]&p'&E&Hinv2&Hpa').
    assert (Eb : box_free t (data t b p) (mk_box (p :: ps) ms pz) = Some ((), mk_box (p' :: ps) ms pz)) by (unfold box_free; simpl; by rewrite E).
    apply (wp_intro _ _ _ _ _ Eb). exists p', ps, (l1 ++ l2). split_and!; [done|congruence|done|].
    rewrite Hds. unfold data. by rewrite Hpa'.
Qed.
End alone.

(** ** From the construction on *)

Lemma sizeof_memblock_spec t :
  0 < t < 2 ^ 30 → t + 16 ≤ sizeof_memblock t < t + 87 ∧ 64 ≤ sizeof_memblock t.
Proof.
  intros Ht. unfold sizeof_memblock, ALIGNMENT, CACHE_LINE_SIZE, MEMBLOCKHEAD.
  rewrite (pure_align_u32_spec 3) by lia. change (2 ^ 3) with 8. destruct (round_up_spec t 8) as [? _]; [lia|].
  rewrite (pure_align_u32_spec 6) by lia. change (2 ^ 6) with 64. destruct (round_up_spec (round_up t 8 + 16) 64) as [? Hm]; [lia|].
  split; [lia|]. apply Z.mod_divide in Hm as [q Hq]; lia.
Qed.

Section construction.
Context (t pool_size z : Z) (Ht : 0 < t < 2 ^ 30) (Hps : 0 ≤ pool_size ≤ 2 ^ 32 - 4096).
Let L := pure_align_u32 pool_size PAGE_SIZE.
Context (Hz : 0 < z) (Hzl : z + L < 2 ^ 64 - 64) (Hfit : sizeof_memblock t + 127 ≤ L).

Lemma box_construct_ok : ∃ p,
  mp_mpool (construct t pool_size z) = [p] ∧ (destroy (construct t pool_size z)).1 = [z] ∧
  0 ≤ block_num p < 2 ^ 30 ∧ L - 2 * sizeof_memblock t - 127 < sizeof_memblock t * block_num p ∧
  z + 64 ≤ pa p ∧ pa p + sizeof_memblock t * block_num p ≤ z + L ∧
  ∀ k, inv (block_num p) (mk_sys p (replicate k Idle) []).
Proof.
  pose proof (sizeof_memblock_spec t Ht) as HX. set (X := sizeof_memblock t) in *.
  assert (HL : pool_size ≤ L < 2 ^ 32).
  { unfold L, PAGE_SIZE. rewrite (pure_align_u32_spec 12) by lia. destruct (round_up_spec pool_size (2 ^ 12)) as [? Hm]; [lia|].
    split; [lia|]. change (2 ^ 12) with 4096 in *. apply Z.mod_divide in Hm as [q Hq]; lia. }
  destruct (round_up_spec z 64) as [Ha _]; [lia|]. set (off := round_up z 64 - z).
  assert (Ea : pure_align_ptr z CACHE_LINE_SIZE = z + off) by (unfold off; rewrite (pure_align_ptr_spec 6) by lia; change (2 ^ 6) with 64; lia).
  assert (Hoff : 0 ≤ off < 64) by (unfold off; lia).
  set (n := (L - off - X - 64) / X). assert (Hn : 0 ≤ n ∧ X * n ≤ L - off - X - 64 < X * n + X).
  { unfold n. split; [apply Z.div_pos; lia|]. Z.div_mod_to_equations; lia. }
  set (p := mk_pool (z + off) (L - off) off n n (z + off + 64) (replicate (Z.to_nat ((L - off - 64) / X)) (mk_block 0 0))).
  assert (Ec : construct t pool_size z = mk_box [p] (pure_align_u32 (pure_align_u32 t ALIGNMENT + 8) CACHE_LINE_SIZE) L).
  { unfold construct, creat_mempool. fold L. rewrite decide_False by lia. unfold new_pool, init_memblock. cbn [addr p_length off_t]. rewrite Ea. fold X.
    change (pure_align_u32 sizeof_mempool CACHE_LINE_SIZE) with 64.
    replace (z + off - z) with off by lia. assert (Eoff : u8 off = off) by (apply Z.mod_small; lia). rewrite Eoff.
    assert (E1 : u32 (L - off) = L - off) by (apply u32_small; lia). rewrite E1.
    assert (E2 : u32 (L - off - X - 64) = L - off - X - 64) by (apply u32_small; lia). rewrite E2.
    fold n. unfold p. reflexivity. }
  assert (Hdest : (destroy (mk_box [p] (pure_align_u32 (pure_align_u32 t ALIGNMENT + 8) CACHE_LINE_SIZE) L)).1 = [z + off - off]) by reflexivity.
  replace (z + off - off) with z in Hdest by lia.
  exists p. rewrite Ec. split; [reflexivity|]. split; [exact Hdest|]. change (block_num p) with n. change (pa p) with (z + off + 64).
  split; [nia|]. split; [lia|]. split; [lia|]. split; [lia|].
  intros k. assert (E0 : flat_map own (replicate k Idle) = [] ∧ lateness (replicate k Idle) = 0) by (induction k; simpl; tauto).
  split; simpl; unfold held; simpl; rewrite ?(proj1 E0), ?(proj2 E0).
  - split; [done|constructor|by intros b ?%not_elem_of_nil|]. intros b Hb. rewrite decide_False by apply not_elem_of_nil.
    simpl. rewrite lookup_replicate_2; [done|]. apply Z2Nat.inj_lt; [lia|apply Z.div_pos; lia|].
    apply (Z.lt_le_trans _ n); [lia|]. apply Z.div_le_mono; lia.
  - intros b ?%not_elem_of_nil. done.
  - simpl. rewrite u32_small; nia.
  - intros a [-> _]%elem_of_replicate. done.
Qed.
End construction.

(** ** A schedule *)

Inductive action := Go | Request | Release (b : Z).

(** What thread [i] does next. *)
Definition next (i : nat) (a : action) (s : sys) : option sys :=
  let p := shared s in
  match threads s !! i, a with
  | Some Idle, Request => Some (go i A_test p (out s) s)
  | Some Idle, Release b =>
      '(j, _) ← list_find (eq b) (out s); Some (go i (F_cas b) p (take j (out s) ++ drop (S j) (out s)) s)
  | Some A_test, Go => Some (go i (if decide (free_num p = 0) then Idle else A_start) p (out s) s)
  | Some A_start, Go => Some (go i (A_read (startpos p) 0) p (out s) s)
  | Some (A_read st j), Go =>
      if decide (j < block_num p) then
        '(v, p') ← read_seq (slot st j p) p; Some (go i (if decide (v = 0) then A_cas st j else A_read st (j + 1)) p' (out s) s)
      else Some (go i Idle p (out s) s)
  | Some (A_cas st j), Go =>
      '(ok, p') ← cas_seq (slot st j p) 0 1 p; Some (go i (if ok : bool then A_sub (slot st j p) else A_read st (j + 1)) p' (out s) s)
  | Some (A_sub b), Go => '(_, p') ← add_free (-1) p; Some (go i (A_mp b) p' (out s) s)
  | Some (A_mp b), Go => '(_, p') ← set_mp b p; Some (go i Idle p' (b :: out s) s)
  | Some (F_cas b), Go => '(ok, p') ← cas_seq b 1 0 p; Some (go i (if ok : bool then F_add b else Idle) p' (out s) s)
  | Some (F_add b), Go => '(_, p') ← add_free_of b p; Some (go i Idle p' (out s) s)
  | _, _ => None
  end.
Fixpoint run (l : list (nat * action)) (s : sys) : option sys :=
  match l with
  | [] => Some s
  | (i, a) :: l => s ← next i a s; run l s
  end.

Lemma next_sound i a s s' : next i a s = Some s' → step i s s'.
Proof.
  unfold next. destruct (threads s !! i) as [k|] eqn:Ek; [|done].
  destruct k as [| | |st j|st j|b|b|b|b], a as [| |b']; try done; intros E.
  - injection E as <-. by apply st_alloc.
  - destruct (list_find _ _) as [[j x]|] eqn:Ef; [|done]. injection E as <-. apply list_find_Some in Ef as (Hj&->&_).
    eapply st_free; [done|]. by rewrite (take_drop_middle _ _ _ Hj).
  - injection E as <-. by apply st_test.
  - injection E as <-. by apply st_start.
  - destruct (decide (j < block_num (shared s))).
    + destruct (read_seq _ _) as [[v p']|] eqn:Er; [|done]. injection E as <-. by apply st_read.
    + injection E as <-. apply (st_end i s st j); [done|lia].
  - destruct (cas_seq _ _ _ _) as [[ok p']|] eqn:Er; [|done]. injection E as <-. by apply st_cas.
  - destruct (add_free _ _) as [[[] p']|] eqn:Er; [|done]. injection E as <-. by apply st_sub.
  - destruct (set_mp _ _) as [[[] p']|] eqn:Er; [|done]. injection E as <-. by apply st_mp.
  - destruct (cas_seq _ _ _ _) as [[ok p']|] eqn:Er; [|done]. injection E as <-. by apply st_fcas.
  - destruct (add_free_of _ _) as [[[] p']|] eqn:Er; [|done]. injection E as <-. by eapply st_fadd.
Qed.
Lemma run_sound l : ∀ s s', run l s = Some s' → rtc any_step s s'.
Proof.
  induction l as [|[i a] l IH]; intros s s' E; cbn [run] in E; [by injection E as <-|].
  destruct (next i a s) as [s1|] eqn:E1; [|done]. eapply rtc_l; [exists i; by eapply next_sound|by apply IH].
Qed.

(** C17. A box whose pool has room for a block, shared by any number of threads
    that interleave between any two accesses: what has been handed out and not
    been given back is distinct, lies behind a header in the zone and overlaps
    no other block; giving back a block never fails; no thread is ever stuck,
    and each gets through its operation in a bounded number of its own steps;
    and when all are idle, [free_num] is the number of blocks that are left. *)
Theorem box_threads t pool_size z k :
  let L := pure_align_u32 pool_size PAGE_SIZE in let m := construct t pool_size z in
  0 < t < 2 ^ 30 → 0 ≤ pool_size ≤ 2 ^ 32 - 4096 → 0 < z → z + L < 2 ^ 64 - 64 → sizeof_memblock t + 127 ≤ L →
  ∃ p, mp_mpool m = [p] ∧ (destroy m).1 = [z] ∧ ∀ s, rtc any_step (mk_sys p (replicate k Idle) []) s →
    (NoDup (out s) ∧ ∀ b, b ∈ out s → z + 80 ≤ data t b p ∧ data t b p + t ≤ z + L) ∧
    (∀ b c, b ∈ out s → c ∈ out s → b ≠ c → data t b p + t + 16 ≤ data t c p ∨ data t c p + t + 16 ≤ data t b p) ∧
    (∀ i b, threads s !! i = Some (F_cas b) → seq <$> blocks (shared s) !! Z.to_nat b = Some 1) ∧
    (∀ i a, threads s !! i = Some a → (∃ s', step i s s') ∧
      (a ≠ Idle → ∀ s', step i s s' → ∃ a', threads s' !! i = Some a' ∧ 0 ≤ steps_left (block_num p) a' < steps_left (block_num p) a)) ∧
    ((∀ a, a ∈ threads s → a = Idle) → free_num (shared s) = block_num p - Z.of_nat (length (out s))).
Proof.
  intros L m Ht Hps Hz Hzl Hfit. destruct (box_construct_ok t pool_size z Ht Hps Hz Hzl Hfit) as (p&Em&Ed&Hn&_&Hlo&Hhi&Hinv0).
  exists p. split; [done|]. split; [done|]. intros s Hs. set (n := block_num p) in *.
  pose proof (inv_steps n Hn _ _ (Hinv0 k) Hs) as Hinv. destruct (sizeof_memblock_spec t Ht) as [HX _].
  pose proof (iv_claims _ _ Hinv) as [_ Hnd Hr Hseq].
  assert (Hout : ∀ b, b ∈ out s → 0 ≤ b < n) by (intros b Hb; apply Hr, elem_of_app; by left).
  split; [split|split; [|split; [|split]]].
  - unfold held in Hnd. by apply list.NoDup_app in Hnd as [? _].
  - intros b Hb. specialize (Hout b Hb). unfold data, MEMBLOCKHEAD. nia.
  - intros b c Hb Hc Hne. pose proof (Hout b Hb). pose proof (Hout c Hc). unfold data. destruct (Z.lt_trichotomy b c) as [?|[?|?]]; [left; nia|done|right; nia].
  - intros i b Hi. rewrite Hseq by (apply (claimed_range n s i (F_cas b) b Hinv Hi), list_elem_of_here).
    rewrite decide_True; [done|]. destruct (held_at s i _ Hi) as (rest&_&Hh&_). rewrite Hh. apply list_elem_of_here.
  - intros i a Hi. split; [by eapply progress|]. intros Hne s' Hst. by eapply step_decreases.
  - intros Hidle. pose proof (iv_free _ _ Hinv) as Hf.
    assert (E0 : flat_map own (threads s) = [] ∧ lateness (threads s) = 0).
    { clear - Hidle. induction (threads s) as [|a l IH]; [done|]. simpl. rewrite (Hidle a) by apply list_elem_of_here.
      destruct IH as [-> ->]; [|done]. intros a' Ha'. by apply Hidle, list_elem_of_further. }
    unfold held in Hf, Hnd. rewrite (proj1 E0), app_nil_r in Hf, Hnd. rewrite (proj2 E0) in Hf. pose proof (claimed_le n Hn (out s) Hnd Hout).
    rewrite Hf, u32_small; lia.
Qed.

(** 62 blocks, two threads that both see block 0 free: one takes it, the other
    goes on to block 1. *)
Definition race : list (nat * action) :=
  [(0%nat, Request); (1%nat, Request); (0%nat, Go); (1%nat, Go); (0%nat, Go); (1%nat, Go); (0%nat, Go); (1%nat, Go); (0%nat, Go); (1%nat, Go);
   (1%nat, Go); (1%nat, Go); (0%nat, Go); (1%nat, Go); (1%nat, Go); (0%nat, Go)].

Lemma box_threads_witness :
  let m := construct 40 4096 4096 in
  ∃ p s, mp_mpool m = [p] ∧ run race (mk_sys p [Idle; Idle] []) = Some s ∧ out s = [0; 1] ∧
    data 40 0 p + 40 + 16 ≤ data 40 1 p ∧ free_num (shared s) = 60.
Proof.
  intros m. destruct (box_threads 40 4096 4096 2) as (p&Em&_&H).
  - lia.
  - lia.
  - lia.
  - vm_compute. reflexivity.
  - vm_compute. congruence.
  - fold m in Em. assert (Ep : ∃ s, run race (mk_sys p [Idle; Idle] []) = Some s ∧ out s = [0; 1] ∧ block_num p = 62 ∧ threads s = [Idle; Idle]).
    { unfold m in Em. vm_compute in Em. injection Em as <-. eexists. split; [vm_compute; reflexivity|]. repeat split; reflexivity. }
    destruct Ep as (s&Es&Eo&En&Et). destruct (H s) as (_&Hap&_&_&Hf); [by apply (run_sound race)|].
    rewrite Eo, Et, En in *. exists p, s. split; [done|]. split; [done|]. split; [done|]. split.
    + destruct (Hap 0 1) as [?|Hd]; [by apply list_elem_of_here|by apply list_elem_of_further, list_elem_of_here|done|done|].
      exfalso. unfold data in Hd. change (sizeof_memblock 40) with 64 in Hd. lia.
    + rewrite Hf; [done|]. intros a Ha. rewrite !elem_of_cons in Ha. destruct Ha as [?|[?|?%not_elem_of_nil]]; done.
Defined.

(** While a block is between its two steps in a release, another thread can
    take it and count it first: [free_num] wraps around below zero. *)
Definition overtake : list (nat * action) :=
  [(1%nat, Request); (1%nat, Go); (1%nat, Go); (0%nat, Request)] ++ replicate 6 (0%nat, Go) ++
  [(0%nat, Release 0); (0%nat, Go); (1%nat, Go); (1%nat, Go); (1%nat, Go)].
Example count_wraps :
  ∃ p s, mp_mpool (construct 1500 4096 4096) = [p] ∧ rtc any_step (mk_sys p [Idle; Idle] []) s ∧ free_num (shared s) = 2 ^ 32 - 1.
Proof.
  eexists _, _. split; [vm_compute; reflexivity|]. split; [apply (run_sound overtake); vm_compute; reflexivity|reflexivity].
Qed.
