(* ===== verification/MConnPool.v ===== *)
(** * src/base/base_conn_pool.h: CMConn_pool, which has a box but does not take
    its connections from it. *)

From S2P Require Import Prelude Membox ConnPool.

Local Open Scope Z_scope.

(** [sizeof(T)] is [t]; [z] is what malloc answers. *)
Definition CMConn_pool (t i_limit z : Z) : membox :=
  if decide (0 < i_limit) then construct t (u32 (t * (i_limit + 16))) z else construct t (u32 (t * (128 + 16))) z.

Definition mpool_state : Type := membox * gmap Z object.

(** [r] is the object that [new] has made. *)
Definition m_connect_create (r connfd : Z) : M mpool_state Z :=
  set_objects <[r := mk_object connfd 1]>;; mret r.
(** [delete pt], whatever the count. *)
Definition m_connect_delete (con : Z) : M mpool_state () :=
  _ ← get_object con; set_objects (delete con).
(** The deletion callback that [m_connect_create] sets, and the last
    [release], which calls it. *)
Definition m_conn_free (t pd_todel : Z) : M mpool_state () := conn_free (box_free t) pd_todel.
Definition m_release (t p : Z) : M mpool_state () := release (box_free t) p.

(** An address that is no block of the box. *)
Definition foreign (t p : Z) (m : membox) : Prop :=
  ∀ q ps, mp_mpool m = q :: ps → data t (block_of t p q) q ≠ p.

(** A connection is created outside the box, so that dropping its last
    reference hands the box memory that it does not have, which is undefined;
    and a deletion ends a connection that others still refer to. *)
Lemma m_release_undefined t r connfd s :
  foreign t r s.1 → (m_connect_create r connfd ≫= m_release t) s = None.
Proof.
  intros Hf. destruct s as [[mps ms pz] objs]. unfold m_release, release, m_connect_create, set_objects, get_object, mbind, M_bind, modify, mret, M_ret.
  simpl. rewrite lookup_insert_eq. simpl. unfold conn_free, get_object, mbind, M_bind. simpl.
  rewrite lookup_insert_eq. unfold in_alloc, box_free. simpl.
  destruct mps as [|q ps]; [done|]. unfold pool_free, mbind, M_bind, get. simpl. by rewrite decide_False by by eapply Hf.
Qed.

Lemma m_delete_shared r connfd (s : mpool_state) :
  (r ← m_connect_create r connfd; _ ← add_ref r; m_connect_delete r) s = Some ((), (s.1, delete r s.2)).
Proof.
  unfold m_connect_create, add_ref, m_connect_delete, set_objects, get_object, mbind, M_bind, modify, mret, M_ret. simpl.
  rewrite lookup_insert_eq. simpl. rewrite lookup_insert_eq. simpl. by rewrite insert_insert_eq, delete_insert_eq.
Qed.
