(* ===== verification/Buddy.v ===== *)
(** * src/mem_pool/pure_buddy_mem.cpp: a buddy allocator in a buffer of its
    caller.

    At the start of the buffer lie the allocator's own data and ten free
    areas, one per order; the rest is cut into blocks of 64 bytes and their
    doublings.  A block starts with a header; headers are read only where the
    allocator has written one.  Locks are what a single thread sees of them:
    taking one twice hangs. *)

From S2P Require Import Prelude.

Local Open Scope Z_scope.

Definition CACHE_LINE_SIZE : Z := 64.
Definition MIN_BLOCK_SIZE : Z := 64.
Definition MIN_BLOCK_SIZE_EXP : Z := 6.
Definition ALIGNMENT : Z := 8.
Definition MAX_ORDER : Z := 9.

(** ** Data *)

Record b_block := mk_block { pre : Z; next : Z; b_free_area : Z }.
Record free_area := mk_area { locked : bool; freelist : Z; order : Z; pbmap : list Z }.
Record mem := mk_mem { len : Z; remain_len : Z; free_start : Z; block_start : Z; align_area_size : Z }.

(** Sizes on a 64-bit Linux: a mutex has 40 bytes, and the bitmap starts behind
    the order. *)
Definition sizeof_b_block : Z := 24.
Definition sizeof_free_area : Z := 56.
Definition offset_pbmap : Z := 52.
Definition sizeof_mem : Z := 32.

(** The object, the free areas and block headers by address, and the buffer:
    where it starts and ends. *)
Record CBuddymem := mk_buddy {
  pm : mem;
  align_block_size : Z;
  areas : gmap Z free_area;
  blocks : gmap Z b_block;
  buf_start : Z;
  buf_end : Z }.

Notation B := (M CBuddymem).

Definition with_pm (v : mem) (s : CBuddymem) : CBuddymem :=
  mk_buddy v (align_block_size s) (areas s) (blocks s) (buf_start s) (buf_end s).
Definition with_align_block (v : Z) (s : CBuddymem) : CBuddymem :=
  mk_buddy (pm s) v (areas s) (blocks s) (buf_start s) (buf_end s).
Definition with_areas (v : gmap Z free_area) (s : CBuddymem) : CBuddymem :=
  mk_buddy (pm s) (align_block_size s) v (blocks s) (buf_start s) (buf_end s).
Definition with_blocks (v : gmap Z b_block) (s : CBuddymem) : CBuddymem :=
  mk_buddy (pm s) (align_block_size s) (areas s) v (buf_start s) (buf_end s).
Definition with_remain (v : Z) (p : mem) : mem := mk_mem (len p) v (free_start p) (block_start p) (align_area_size p).
Definition with_pre (v : Z) (b : b_block) : b_block := mk_block v (next b) (b_free_area b).
Definition with_next (v : Z) (b : b_block) : b_block := mk_block (pre b) v (b_free_area b).
Definition with_free_area (v : Z) (b : b_block) : b_block := mk_block (pre b) (next b) v.
Definition with_locked (v : bool) (a : free_area) : free_area := mk_area v (freelist a) (order a) (pbmap a).
Definition with_freelist (v : Z) (a : free_area) : free_area := mk_area (locked a) v (order a) (pbmap a).
Definition with_order (v : Z) (a : free_area) : free_area := mk_area (locked a) (freelist a) v (pbmap a).
Definition with_pbmap (v : list Z) (a : free_area) : free_area := mk_area (locked a) (freelist a) (order a) v.

Definition inside (s : CBuddymem) (a n : Z) : Prop := buf_start s ≤ a ∧ a + n ≤ buf_end s.
#[export] Instance inside_dec s a n : Decision (inside s a n).
Proof. apply _. Defined.

Definition get_pm : B mem := gets pm.
Definition set_pm (f : mem → mem) : B () := modify (λ s, with_pm (f (pm s)) s).
Definition get_area (fa : Z) : B free_area := λ s, (λ a, (a, s)) <$> areas s !! fa.
Definition set_area (fa : Z) (f : free_area → free_area) : B () := λ s,
  a ← areas s !! fa; Some ((), with_areas (<[fa := f a]> (areas s)) s).
Definition get_block (b : Z) : B b_block := λ s, (λ v, (v, s)) <$> blocks s !! b.

(** A header that is there is changed, one that is not is written anew; its
    other members are then garbage, here 0. *)
Definition set_block (b : Z) (f : b_block → b_block) : B () := λ s,
  if decide (inside s b sizeof_b_block)
  then Some ((), with_blocks (<[b := f (default (mk_block 0 0 0) (blocks s !! b))]> (blocks s)) s) else None.

Definition pure_lock (fa : Z) : B () :=
  a ← get_area fa; if locked a then stuck else set_area fa (with_locked true).
Definition pure_unlock (fa : Z) : B () := set_area fa (with_locked false).

(** ** Lists and bitmaps *)

(** A new header: all three members are set. *)
Definition add_block (b fa : Z) : B () :=
  a ← get_area fa; let tempb := freelist a in
  (if decide (tempb = 0) then mret () else _ ← get_block tempb; set_block tempb (with_pre b));;
  set_area fa (with_freelist b);;
  set_block b (with_pre 0);; set_block b (with_next tempb);; set_block b (with_free_area fa).

(** The first free block leaves its list. *)
Definition pop_block (fa : Z) : B () :=
  a ← get_area fa; vb ← get_block (freelist a); set_area fa (with_freelist (next vb));;
  a ← get_area fa;
  if decide (freelist a = 0) then mret () else _ ← get_block (freelist a); set_block (freelist a) (with_pre 0).

Fixpoint del_loop (fuel : nat) (t b fa : Z) : B Z :=
  if decide (t = 0) then mret (-1) else
  match fuel with
  | O => stuck
  | S fuel =>
      vt ← get_block t;
      if decide (t = b) then
        a ← get_area fa;
        (if decide (t = freelist a) then set_area fa (with_freelist (next vt)) else mret ());;
        (if decide (pre vt = 0) then mret () else _ ← get_block (pre vt); set_block (pre vt) (with_next (next vt)));;
        vt ← get_block t;
        (if decide (next vt = 0) then mret () else _ ← get_block (next vt); set_block (next vt) (with_pre (pre vt)));;
        mret 0
      else del_loop fuel (next vt) b fa
  end.
Definition del_block (b fa : Z) : B Z :=
  a ← get_area fa; rounds ← gets (λ s, size (blocks s)); del_loop rounds (freelist a) b fa.

(** [bitmap[bytepos] ^= 1 << bitpos], and the bit that results. *)
Definition set_bitmap (index fa : Z) : B Z :=
  a ← get_area fa;
  let bitpos := Z.land (Z.shiftr index (order a + 1)) 7 in
  let bytepos := Z.shiftr index (order a + 1 + 3) in
  match pbmap a !! Z.to_nat bytepos with
  | Some byte =>
      let v := u8 (Z.lxor byte (Z.shiftl 1 bitpos)) in
      set_area fa (with_pbmap (<[Z.to_nat bytepos := v]> (pbmap a)));;
      mret (Z.land (Z.shiftr v bitpos) 1)
  | None => stuck
  end.

(** ** Initialisation *)

(** The blocks of one order; where the rest starts. *)
Fixpoint fill_order (fuel : nat) (fa block_size pblock : Z) : B Z :=
  p ← get_pm;
  if decide (block_size ≤ remain_len p) then
    match fuel with
    | O => stuck
    | S fuel =>
        add_block pblock fa;;
        let index := u32 (Z.quot (pblock - block_start p) MIN_BLOCK_SIZE) in
        _ ← set_bitmap index fa;
        set_pm (λ p, with_remain (remain_len p - block_size) p);;
        fill_order fuel fa block_size (pblock + block_size)
    end
  else mret pblock.

(** Orders [k - 1] down to 0. *)
Fixpoint init_orders (k : nat) (fa pblock : Z) : B () :=
  match k with
  | O => mret ()
  | S k =>
      let block_size := Z.shiftl MIN_BLOCK_SIZE (Z.of_nat k) in
      set_area fa (with_order (Z.of_nat k));;
      p ← get_pm;
      pblock ← fill_order (Z.to_nat (remain_len p / block_size)) fa block_size pblock;
      init_orders k (fa - align_area_size p) pblock
  end.

Definition area_addr (p : mem) (k : Z) : Z := free_start p + align_area_size p * k.
Definition zero_area (aas : Z) : free_area := mk_area false 0 0 (replicate (Z.to_nat (aas - offset_pbmap)) 0).

Definition init_free : B Z :=
  p ← get_pm;
  let bitamount := Z.shiftr (Z.quot (remain_len p) MIN_BLOCK_SIZE + 15) (3 + 1) in
  let aas := pure_align_u32 (u32 (sizeof_free_area + bitamount)) CACHE_LINE_SIZE in
  set_pm (λ p, mk_mem (len p) (remain_len p) (free_start p) (block_start p) aas);;
  if decide (u32 (remain_len p) < u32 (aas * (MAX_ORDER + 1))) then mret (-1)
  else
    s ← get;
    if decide (inside s (free_start p) (aas * (MAX_ORDER + 1))) then
      p ← get_pm;
      modify (with_areas (list_to_map ((λ k, (area_addr p (Z.of_nat k), zero_area aas)) <$> seq 0 10)));;
      set_pm (λ p, mk_mem (len p) (s32 (u32 (remain_len p) - u32 (aas * (MAX_ORDER + 1)))) (free_start p)
        (free_start p + aas * (MAX_ORDER + 1)) aas);;
      p ← get_pm;
      init_orders 10 (area_addr p MAX_ORDER) (block_start p);;
      mret 0
    else stuck.

Definition init_buddy_mem (b l : Z) : B Z :=
  let pm := pure_align_ptr b CACHE_LINE_SIZE in
  if decide (l < sizeof_mem) then mret (-1) else
  s ← get;
  if decide (inside s pm sizeof_mem) then
    let free_start := pure_align_ptr (pm + sizeof_mem) CACHE_LINE_SIZE in
    modify (with_align_block (pure_align_u32 sizeof_b_block ALIGNMENT));;
    set_pm (λ p, mk_mem (s32 (l - (pm - b))) (s32 (l - (pm - b) - (free_start - pm))) free_start (block_start p) (align_area_size p));;
    p ← get_pm;
    if decide (remain_len p < MIN_BLOCK_SIZE) then mret (-1) else init_free
  else stuck.

(** ** Allocation *)

(** The order of the block for a request: [bsr] is the position of the highest
    bit. *)
Definition order_for (l abs : Z) : Z :=
  let tlen := u32 (l + abs) in
  let i := Z.shiftr (u32 (u32 (Z.shiftl tlen 2) - 1)) MIN_BLOCK_SIZE_EXP in
  if decide (0 < i) then Z.log2 i else 0.

(** The right halves go to the lower orders, [dorder] down to [bitp]. *)
Fixpoint degrade (fuel : nat) (pb dorder bitp : Z) : B () :=
  if decide (bitp ≤ dorder) then
    match fuel with
    | O => stuck
    | S fuel =>
        p ← get_pm;
        let degrade_pb := pb + Z.shiftl MIN_BLOCK_SIZE dorder in
        let degrade_index := u32 (Z.quot (degrade_pb - block_start p) MIN_BLOCK_SIZE) in
        let dfa := area_addr p dorder in
        pure_lock dfa;;
        add_block degrade_pb dfa;;
        _ ← set_bitmap degrade_index dfa;
        pure_unlock dfa;;
        degrade fuel pb (dorder - 1) bitp
    end
  else mret ().

(** Orders from [order] on, up to the highest. *)
Fixpoint find_order (fuel : nat) (order bitp fa rfa : Z) : B Z :=
  if decide (order ≤ MAX_ORDER) then
    match fuel with
    | O => stuck
    | S fuel =>
        pure_lock fa;;
        a ← get_area fa;
        if decide (freelist a = 0) then
          pure_unlock fa;;
          p ← get_pm; find_order fuel (order + 1) bitp (fa + align_area_size p) rfa
        else
          p ← get_pm;
          let pb := freelist a in
          let index := u32 (Z.shiftr (pb - block_start p) MIN_BLOCK_SIZE_EXP) in
          pop_block fa;;
          _ ← set_bitmap index fa;
          pure_unlock fa;;
          degrade (Z.to_nat order) pb (order - 1) bitp;;
          set_block pb (with_free_area rfa);;
          s ← get; mret (pb + align_block_size s)
    end
  else mret 0.

Definition Alloc (l : Z) : B Z :=
  s ← get;
  let bitp := order_for l (align_block_size s) in
  if decide (MAX_ORDER < bitp) then mret 0
  else
    let fa := area_addr (pm s) bitp in
    find_order 10 bitp bitp fa fa.

(** ** Release *)

Fixpoint free_loop (fuel : nat) (free_block fa index : Z) : B () :=
  p ← get_pm;
  if decide (fa < block_start p) then
    match fuel with
    | O => stuck
    | S fuel =>
        a ← get_area fa;
        let buddy_index := u32 (Z.shiftl (Z.lxor (Z.shiftr index (order a)) 1) (order a)) in
        let buddy := block_start p + MIN_BLOCK_SIZE * buddy_index in
        let upgrade_index := u32 (Z.shiftl (Z.shiftr index (order a + 1)) (order a + 1)) in
        pure_lock fa;;
        ret ← set_bitmap index fa;
        free_block' ←
          (if decide (ret = 0 ∧ order a < MAX_ORDER) then
             _ ← del_block buddy fa;
             mret (block_start p + MIN_BLOCK_SIZE * upgrade_index)
           else add_block free_block fa;; mret free_block);
        pure_unlock fa;;
        if decide (ret = 0) then free_loop fuel free_block' (fa + align_area_size p) index else mret ()
    end
  else mret ().

Definition Free (ptr : Z) : B () :=
  s ← get;
  let free_block := ptr - align_block_size s in
  vb ← get_block free_block;
  let index := u32 (Z.quot (free_block - block_start (pm s)) MIN_BLOCK_SIZE) in
  free_loop 10 free_block (b_free_area vb) index.
