(* ===== verification/BuddyTiles.v ===== *)
(** * Cutting a range of cells into aligned blocks of sizes that are powers of
    two: the combinatorics of src/mem_pool/pure_buddy_mem.cpp. *)

From S2P Require Import Prelude.

Local Open Scope Z_scope.

Notation pow k := (2 ^ Z.of_nat k).

Lemma pow_pos k : 0 < pow k.
Proof. apply Z.pow_pos_nonneg; lia. Qed.
Lemma pow_S k : pow (S k) = 2 * pow k.
Proof. rewrite Nat2Z.inj_succ, Z.pow_succ_r; lia. Qed.

(** The block [(i, k)] has the cells from [i] to [i + pow k]. *)
Definition covers (i : Z) (k : nat) (x : Z) : Prop := i ≤ x < i + pow k.
Definition aligned (i : Z) (k : nat) : Prop := i `mod` pow k = 0.

Lemma aligned_start i k x : aligned i k → covers i k x ↔ x / pow k * pow k = i.
Proof.
  intros Ha. pose proof (pow_pos k). pose proof (Z_div_mod_eq_full i (pow k)) as Hi.
  pose proof (Z_div_mod_eq_full x (pow k)). pose proof (Z.mod_pos_bound x (pow k)). unfold aligned in Ha. rewrite Ha in Hi.
  unfold covers. split; intros Hx; [|nia].
  assert (i / pow k = x / pow k); [apply Z.div_unique with (x - i); [left; lia|lia]|nia].
Qed.

(** Two aligned blocks that overlap are nested. *)
Lemma aligned_nested i k j m x :
  (k ≤ m)%nat → aligned i k → aligned j m → covers i k x → covers j m x → j ≤ i ∧ i + pow k ≤ j + pow m.
Proof.
  intros Hkm Hi Hj Hx%(aligned_start i k x Hi) Hy%(aligned_start j m x Hj). subst i j.
  replace m with (k + (m - k))%nat by lia. rewrite Nat2Z.inj_add, Z.pow_add_r by lia.
  set (a := pow k). set (b := pow (m - k)). assert (0 < a) by apply pow_pos. assert (0 < b) by apply pow_pos.
  rewrite <- Z.div_div by lia. pose proof (Z_div_mod_eq_full (x / a) b). pose proof (Z.mod_pos_bound (x / a) b). nia.
Qed.

(** ** Buddies *)

Definition buddy (i : Z) (k : nat) : Z := Z.shiftl (Z.lxor (Z.shiftr i (Z.of_nat k)) 1) (Z.of_nat k).
Definition parent (i : Z) (k : nat) : Z := i / pow (S k) * pow (S k).

Lemma lxor_1 q : Z.lxor q 1 = if Z.even q then q + 1 else q - 1.
Proof.
  apply Z.bits_inj'. intros n Hn. rewrite Z.lxor_spec. destruct (decide (n = 0)) as [->|Hn0].
  - rewrite !Z.bit0_odd. by destruct (Z.even q); rewrite ?Z.odd_add, ?Z.odd_sub.
  - assert (Z.testbit 1 n = false) as -> by (apply Z.bits_above_log2; simpl; lia). rewrite xorb_false_r.
    replace n with (Z.succ (n - 1)) by lia. rewrite <- !Z.div2_bits by lia.
    cut (q / 2 = (if Z.even q then q + 1 else q - 1) / 2); [by intros ->|].
    destruct (Z.even q) eqn:E.
    + apply Z.even_spec in E as [p ->]. Z.div_mod_to_equations. lia.
    + assert (Hodd : Z.odd q = true) by (by rewrite <- Z.negb_even, E). apply Z.odd_spec in Hodd as [p ->]. Z.div_mod_to_equations. lia.
Qed.

(** A block and its buddy are the halves of their parent. *)
Lemma buddy_spec i k :
  aligned i k → (i = parent i k ∧ buddy i k = parent i k + pow k) ∨ (i = parent i k + pow k ∧ buddy i k = parent i k).
Proof.
  intros Ha. unfold buddy, parent. pose proof (pow_pos k). rewrite pow_S.
  rewrite Z.shiftr_div_pow2, Z.shiftl_mul_pow2, lxor_1 by lia.
  pose proof (Z_div_mod_eq_full i (pow k)) as Hi. unfold aligned in Ha. rewrite Ha in Hi. set (q := i / pow k) in *.
  assert (Hq : i / (2 * pow k) = q / 2) by (unfold q; rewrite Z.mul_comm, <- Z.div_div by lia; done). rewrite Hq.
  destruct (Z.even q) eqn:E.
  - apply Z.even_spec in E as [p Hp]. rewrite Hp. rewrite (Z.mul_comm 2 p), Z.div_mul by lia. left. nia.
  - assert (Hodd : Z.odd q = true) by (by rewrite <- Z.negb_even, E). apply Z.odd_spec in Hodd as [p Hp].
    rewrite Hp. replace (2 * p + 1) with (p * 2 + 1) by lia. rewrite Z.div_add_l by lia. right. change (1 / 2) with 0. nia.
Qed.

Lemma parent_aligned i k : aligned (parent i k) (S k).
Proof. unfold aligned, parent. by rewrite Z_mod_mult. Qed.
Lemma aligned_half i k : aligned i (S k) → aligned i k ∧ aligned (i + pow k) k.
Proof.
  unfold aligned. rewrite pow_S. intros Hi. pose proof (pow_pos k).
  pose proof (Z_div_mod_eq_full i (2 * pow k)) as E. rewrite Hi in E. set (q := i / (2 * pow k)) in *.
  rewrite E. split.
  - replace (2 * pow k * q + 0) with (2 * q * pow k) by lia. by rewrite Z_mod_mult.
  - replace (2 * pow k * q + 0 + pow k) with ((2 * q + 1) * pow k) by lia. by rewrite Z_mod_mult.
Qed.
Lemma buddy_aligned i k : aligned i k → aligned (buddy i k) k.
Proof.
  intros Ha. destruct (aligned_half _ _ (parent_aligned i k)). destruct (buddy_spec i k Ha) as [[_ ->]|[_ ->]]; done.
Qed.
Lemma parent_bounds i k : 0 ≤ i → 0 ≤ parent i k ≤ i.
Proof.
  intros Hi. unfold parent. pose proof (pow_pos (S k)). pose proof (Z_div_mod_eq_full i (pow (S k))).
  pose proof (Z.mod_pos_bound i (pow (S k))). pose proof (Z.div_pos i (pow (S k))). nia.
Qed.
Lemma pow_le_512 k : (k ≤ 9)%nat → pow k ≤ 512.
Proof. intros Hk. change 512 with (2 ^ 9). apply Z.pow_le_mono_r; lia. Qed.
Lemma parent_of_half i k : aligned i (S k) → parent i k = i ∧ parent (i + pow k) k = i.
Proof.
  unfold aligned, parent. intros Hi. pose proof (pow_pos (S k)). pose proof (pow_pos k). pose proof (pow_S k).
  pose proof (Z_div_mod_eq_full i (pow (S k))) as E. rewrite Hi in E. split; [lia|].
  assert ((i + pow k) / pow (S k) = i / pow (S k)) as ->; [|lia]. symmetry. apply Z.div_unique with (pow k); lia.
Qed.
Lemma buddy_half i k : aligned i (S k) → buddy i k = i + pow k ∧ buddy (i + pow k) k = i.
Proof.
  intros Hi. pose proof (pow_pos k). destruct (aligned_half i k Hi) as [H1 H2]. destruct (parent_of_half i k Hi) as [P1 P2]. split.
  - destruct (buddy_spec i k H1) as [[_ ->]|[? _]]; lia.
  - destruct (buddy_spec (i + pow k) k H2) as [[? _]|[_ ->]]; lia.
Qed.
Lemma buddy_parent i k : aligned i k → parent (buddy i k) k = parent i k ∧ buddy (buddy i k) k = i.
Proof.
  intros Ha. destruct (parent_of_half _ _ (parent_aligned i k)) as [P1 P2].
  destruct (buddy_half _ _ (parent_aligned i k)) as [B1 B2].
  destruct (buddy_spec i k Ha) as [[E ->]|[E ->]]; split; congruence.
Qed.

(** ** Tilings *)

(** The blocks [T] cut the [n] cells up. *)
Record tiles (n : Z) (T : Z → nat → Prop) : Prop := {
  tl_range i k : T i k → (k ≤ 9)%nat ∧ 0 ≤ i ∧ i + pow k ≤ n ∧ aligned i k;
  tl_disjoint i k j m x : T i k → T j m → covers i k x → covers j m x → i = j ∧ k = m;
  tl_cover x : 0 ≤ x < n → ∃ i k, T i k ∧ covers i k x }.

Lemma tiles_iff n (T T' : Z → nat → Prop) : (∀ i k, T i k ↔ T' i k) → tiles n T → tiles n T'.
Proof.
  intros HT [H1 H2 H3]. split.
  - intros i k Hi%HT. by apply H1.
  - intros i k j m x Hi%HT Hj%HT. by apply H2.
  - intros x Hx. destruct (H3 x Hx) as (i&k&Hi%HT&?). eauto.
Qed.

Lemma covers_split i k x : covers i (S k) x ↔ covers i k x ∨ covers (i + pow k) k x.
Proof. unfold covers. rewrite pow_S. pose proof (pow_pos k). lia. Qed.
Lemma covers_start i k : covers i k i.
Proof. unfold covers. pose proof (pow_pos k). lia. Qed.

Definition split_tile (T : Z → nat → Prop) (i : Z) (k : nat) (j : Z) (m : nat) : Prop :=
  (T j m ∧ ¬ (j = i ∧ m = S k)) ∨ (m = k ∧ (j = i ∨ j = i + pow k)).
Definition merge_tile (T : Z → nat → Prop) (i : Z) (k : nat) (j : Z) (m : nat) : Prop :=
  (T j m ∧ ¬ (m = k ∧ (j = i ∨ j = i + pow k))) ∨ (j = i ∧ m = S k).

Lemma tiles_split n T i k : tiles n T → T i (S k) → tiles n (split_tile T i k).
Proof.
  intros [H1 H2 H3] Hi. destruct (H1 _ _ Hi) as (Hk&Hi0&Hin&Ha). destruct (aligned_half _ _ Ha) as [Ha1 Ha2].
  rewrite pow_S in Hin. pose proof (pow_pos k).
  assert (Hhalf : ∀ j, j = i ∨ j = i + pow k → ∀ x, covers j k x → covers i (S k) x).
  { intros j Hj x Hx. apply covers_split. destruct Hj as [->| ->]; tauto. }
  split.
  - intros j m [[Hj _]|[-> Hj]]; [by apply H1|]. split; [lia|]. destruct Hj as [->| ->]; split_and!; done || lia.
  - intros j m j' m' x [[Hj Hn]|[-> Hj]] [[Hj' Hn']|[-> Hj']] Hx Hx'.
    + by eapply H2.
    + exfalso. apply Hn. eapply H2; [done..|by eapply Hhalf].
    + exfalso. apply Hn'. eapply H2; [done..| |by eapply Hhalf]. done.
    + split; [|done]. unfold covers in *. lia.
  - intros x Hx. destruct (H3 x Hx) as (j&m&Hj&Hc). destruct (decide (j = i ∧ m = S k)) as [[-> ->]|Hne].
    + apply covers_split in Hc as [Hc|Hc]; [exists i, k|exists (i + pow k), k]; (split; [right; tauto|done]).
    + exists j, m. split; [by left|done].
Qed.

Lemma tiles_merge n T i k :
  tiles n T → T i k → T (i + pow k) k → aligned i (S k) → (k < 9)%nat → tiles n (merge_tile T i k).
Proof.
  intros [H1 H2 H3] Hi Hi' Ha Hk9. destruct (H1 _ _ Hi) as (_&Hi0&_&_). destruct (H1 _ _ Hi') as (_&_&Hin&_).
  split.
  - intros j m [[Hj _]|[-> ->]]; [by apply H1|]. rewrite pow_S. split_and!; done || lia.
  - assert (Hold : ∀ j m x, T j m → ¬ (m = k ∧ (j = i ∨ j = i + pow k)) → covers j m x → covers i (S k) x → False).
    { intros j m x Hj Hn Hx [Hc|Hc]%covers_split; apply Hn.
      - destruct (H2 j m i k x); tauto.
      - destruct (H2 j m (i + pow k) k x); tauto. }
    intros j m j' m' x [[Hj Hn]|[-> ->]] [[Hj' Hn']|[-> ->]] Hx Hx'; [by eapply H2|exfalso; by eapply Hold..|done].
  - intros x Hx. destruct (H3 x Hx) as (j&m&Hj&Hc). destruct (decide (m = k ∧ (j = i ∨ j = i + pow k))) as [[-> Hor]|Hne].
    + exists i, (S k). split; [by right|]. apply covers_split. destruct Hor as [->| ->]; tauto.
    + exists j, m. split; [by left|done].
Qed.

(** One more block behind the last cell. *)
Lemma tiles_append n T k :
  tiles n T → 0 ≤ n → aligned n k → (k ≤ 9)%nat → tiles (n + pow k) (λ i m, T i m ∨ (i = n ∧ m = k)).
Proof.
  intros [H1 H2 H3] Hn Ha Hk. pose proof (pow_pos k). split.
  - intros i m [Hi|[-> ->]]; [|split_and!; done || lia]. destruct (H1 _ _ Hi) as (?&?&?&?). split_and!; done || lia.
  - assert (Hout : ∀ i m x, T i m → covers i m x → covers n k x → False).
    { intros i m x Hi Hc Hc'. destruct (H1 _ _ Hi) as (_&_&?&_). unfold covers in *. lia. }
    intros i m j m' x [Hi|[-> ->]] [Hj|[-> ->]] Hx Hy; [by eapply H2|exfalso; by eapply Hout..|done].
  - intros x Hx. destruct (decide (x < n)) as [Hlt|Hge].
    + destruct (H3 x) as (i&m&?&?); [lia|]. exists i, m. split; [by left|done].
    + exists n, k. split; [by right|]. unfold covers. lia.
Qed.

(** ** Blocks that no buddies could be merged into *)

(** A range covered by blocks of at most its size, no two of them buddies, is
    itself a block. *)
Lemma covered_is_block n T (P : Z → nat → Prop) (HT : tiles n T) (Hno : ∀ i k, (k < 9)%nat → P i k → ¬ P (buddy i k) k) k :
  ∀ i, (k ≤ 9)%nat → aligned i k → 0 ≤ i → i + pow k ≤ n →
  (∀ j m x, T j m → covers j m x → covers i k x → (m ≤ k)%nat ∧ P j m) → T i k ∧ P i k.
Proof.
  induction k as [|k IH]; intros i Hk Ha Hi Hin Hle.
  - destruct (tl_cover n T HT i) as (j&m&Hj&Hc); [change (pow 0) with 1 in Hin; lia|].
    destruct (Hle j m i Hj Hc (covers_start i 0)) as [Hm HP]. assert (m = 0)%nat as -> by lia.
    unfold covers in Hc. change (pow 0) with 1 in Hc. by replace i with j by lia.
  - destruct (aligned_half _ _ Ha) as [Ha1 Ha2]. pose proof (pow_pos k). rewrite pow_S in Hin.
    assert (Hcase : (T i (S k) ∧ P i (S k)) ∨ (∀ j m x, T j m → covers j m x → covers i (S k) x → (m ≤ k)%nat ∧ P j m)).
    { destruct (tl_cover n T HT i) as (j&m&Hj&Hc); [lia|].
      destruct (Hle j m i Hj Hc (covers_start i (S k))) as [Hm HP]. destruct (decide (m = S k)) as [->|Hmk].
      - left. destruct (tl_range n T HT _ _ Hj) as (_&_&_&Haj).
        destruct (aligned_nested i (S k) j (S k) i) as [? ?]; [done..|apply covers_start|done|]. by replace i with j by lia.
      - right. intros j' m' x Hj' Hc' Hx. destruct (Hle _ _ _ Hj' Hc' Hx) as [Hm' HP']. destruct (decide (m' = S k)) as [->|]; [|split; [lia|done]].
        exfalso. destruct (tl_range n T HT _ _ Hj') as (_&_&_&Haj').
        destruct (aligned_nested j' (S k) i (S k) x) as [? ?]; [done..|]. assert (j' = i) as -> by lia.
        destruct (tl_disjoint n T HT i (S k) j m i Hj' Hj (covers_start _ _) Hc). lia. }
    destruct Hcase as [?|Hsmall]; [done|]. exfalso.
    assert (Hl : P i k). { apply IH; [lia|done|done|lia|]. intros j m x Hj Hc Hx. eapply Hsmall; [done..|]. apply covers_split. by left. }
    assert (Hr : P (i + pow k) k). { apply IH; [lia|done|lia|lia|]. intros j m x Hj Hc Hx. eapply Hsmall; [done..|]. apply covers_split. by right. }
    apply (Hno i k); [lia|done|]. by rewrite (proj1 (buddy_half i k Ha)).
Qed.

(** In a tiling without buddies of the same order (below the highest), the
    blocks are determined: they are the aligned ones that have no room to be
    bigger. *)
Section unique.
Context (n : Z) (T : Z → nat → Prop) (HT : tiles n T).
Context (Hno : ∀ i k, (k < 9)%nat → T i k → ¬ T (buddy i k) k).

(** As big as it can be: of the highest order, or its parent does not fit. *)
Definition biggest (i : Z) (k : nat) : Prop :=
  (k ≤ 9)%nat ∧ 0 ≤ i ∧ aligned i k ∧ i + pow k ≤ n ∧ (k = 9%nat ∨ n < parent i k + pow (S k)).

Lemma tile_biggest i k : T i k → biggest i k.
Proof.
  intros Hi. destruct (tl_range n T HT _ _ Hi) as (Hk&Hi0&Hin&Ha). split_and!; try done.
  destruct (decide (k = 9%nat)) as [|Hk9]; [by left|right].
  destruct (decide (n < parent i k + pow (S k))) as [|Hfit]; [done|exfalso].
  pose proof (pow_pos k). destruct (aligned_half _ _ (parent_aligned i k)) as [Ha1 Ha2].
  apply (Hno i k); [lia|done|]. rewrite pow_S in Hfit.
  assert (Hp0 : 0 ≤ parent i k) by (unfold parent; pose proof (pow_pos (S k)); apply Z.mul_nonneg_nonneg; [apply Z.div_pos|]; lia).
  apply (covered_is_block n T T HT Hno); [done|by apply buddy_aligned|destruct (buddy_spec i k Ha) as [[_ ->]|[_ ->]]; lia..|].
  intros j m x Hj Hc Hx. destruct (decide (m ≤ k)%nat) as [|Hm]; [by split|exfalso].
  destruct (tl_range n T HT _ _ Hj) as (_&_&_&Haj).
  assert (Hpx : covers (parent i k) (S k) x).
  { apply covers_split. destruct (buddy_spec i k Ha) as [[_ Eb]|[_ Eb]]; rewrite Eb in Hx; tauto. }
  destruct (aligned_nested (parent i k) (S k) j m x) as [Hn1 Hn2]; [lia|apply parent_aligned|done..|].
  assert (covers j m i). { unfold covers in *. rewrite pow_S in Hn2. destruct (buddy_spec i k Ha) as [[E _]|[E _]]; lia. }
  destruct (tl_disjoint n T HT j m i k i); [done|done|done|apply covers_start|]. lia.
Qed.

Lemma biggest_overlap i k j m x :
  (k ≤ m)%nat → biggest i k → biggest j m → covers i k x → covers j m x → i = j ∧ k = m.
Proof.
  intros Hkm (Hk&Hi0&Ha&Hin&Hbig) (Hm&Hj0&Haj&Hjn&Hbj) Hx Hy.
  destruct (aligned_nested i k j m x) as [H1 H2]; [done..|]. destruct (decide (k = m)) as [->|Hne]; [lia|exfalso].
  destruct Hbig as [->|Hbig]; [lia|]. pose proof (pow_pos k).
  assert (Hpx : covers (parent i k) (S k) x).
  { apply covers_split. destruct (buddy_spec i k Ha) as [[E _]|[E _]]; rewrite E in Hx; tauto. }
  destruct (aligned_nested (parent i k) (S k) j m x) as [? ?]; [lia|apply parent_aligned|done..|]. lia.
Qed.

Theorem tiling_unique i k : T i k ↔ biggest i k.
Proof.
  split; [apply tile_biggest|]. intros Hb. pose proof Hb as (Hk&Hi0&Ha&Hin&_). pose proof (pow_pos k).
  destruct (tl_cover n T HT i) as (j&m&Hj&Hc); [lia|]. pose proof (tile_biggest j m Hj) as Hbj.
  destruct (decide (k ≤ m)%nat).
  - destruct (biggest_overlap i k j m i) as [-> ->]; [done..|apply covers_start|done|done].
  - destruct (biggest_overlap j m i k i) as [-> ->]; [lia|done..|apply covers_start|done].
Qed.
End unique.
