(* ===== verification/BuddyProofs.v ===== *)
(** * src/mem_pool/pure_buddy_mem.cpp: what each operation does to the free
    lists and bitmaps of an order. *)

From S2P Require Import Prelude DLL Buddy BuddyTiles.

Local Open Scope Z_scope.

#[export] Program Instance buddy_links : Links b_block :=
  {| prev := pre; DLL.next := next; link_prev := with_pre; link_next := with_next |}.
Solve All Obligations with done.

(** ** Bitmaps *)

Definition bit (bm : list Z) (j : Z) : bool := Z.testbit (nth (Z.to_nat (j / 8)) bm 0) (j `mod` 8).

Lemma testbit_u8 v b : 0 ≤ b < 8 → Z.testbit (u8 v) b = Z.testbit v b.
Proof. intros Hb. unfold u8. apply Z.mod_pow2_bits_low. lia. Qed.
Lemma land_1 v b : 0 ≤ b → Z.land (Z.shiftr v b) 1 = Z.b2z (Z.testbit v b).
Proof.
  intros Hb. change 1 with (Z.ones 1). rewrite Z.land_ones, Z.testbit_spec' by lia. rewrite Z.shiftr_div_pow2 by lia. done.
Qed.

(** Flipping a bit. *)
Definition flip (bm : list Z) (j : Z) : list Z :=
  <[Z.to_nat (j / 8) := u8 (Z.lxor (nth (Z.to_nat (j / 8)) bm 0) (Z.shiftl 1 (j `mod` 8)))]> bm.

Lemma length_flip bm j : length (flip bm j) = length bm.
Proof. apply length_insert. Qed.

Lemma nth_insert (bm : list Z) i k v : (i < length bm)%nat → nth k (<[i := v]> bm) 0 = if decide (k = i) then v else nth k bm 0.
Proof.
  intros Hi. rewrite !nth_lookup. destruct (decide (k = i)) as [->|Hne].
  - by rewrite list_lookup_insert_eq.
  - by rewrite list_lookup_insert_ne.
Qed.

Lemma bit_flip bm j j' : 0 ≤ j < 8 * Z.of_nat (length bm) → 0 ≤ j' → bit (flip bm j) j' = if decide (j' = j) then negb (bit bm j) else bit bm j'.
Proof.
  intros Hj Hj'. assert (Hlen : (Z.to_nat (j / 8) < length bm)%nat) by (Z.div_mod_to_equations; lia).
  unfold bit, flip. rewrite nth_insert by done.
  pose proof (Z.mod_pos_bound j 8). pose proof (Z.mod_pos_bound j' 8).
  pose proof (Z_div_mod_eq_full j 8). pose proof (Z_div_mod_eq_full j' 8).
  assert (Hbit : ∀ b, 0 ≤ b < 8 → Z.testbit (Z.shiftl 1 (j `mod` 8)) b = bool_decide (b = j `mod` 8)).
  { intros b Hb. rewrite Z.shiftl_spec by lia. case_bool_decide as E.
    - by rewrite E, Z.sub_diag.
    - destruct (decide (b < j `mod` 8)); [by rewrite Z.testbit_neg_r by lia|].
      apply Z.bits_above_log2; simpl; lia. }
  destruct (decide (Z.to_nat (j' / 8) = Z.to_nat (j / 8))) as [E|E].
  - rewrite testbit_u8, Z.lxor_spec, Hbit, E by lia. apply Z2Nat.inj in E; [|Z.div_mod_to_equations; lia..].
    case_bool_decide as Eb.
    + rewrite decide_True by lia. by rewrite Eb, xorb_true_r.
    + rewrite decide_False by lia. by rewrite xorb_false_r.
  - rewrite decide_False; [done|]. by intros ->.
Qed.

(** ** Symbolic execution *)

Section rules.
Context (p : mem) (abs lo hi : Z).
Implicit Types (ars : gmap Z free_area) (bls : gmap Z b_block) (a : free_area).

Definition st ars bls : CBuddymem := mk_buddy p abs ars bls lo hi.

Lemma wp_get_area ars bls fa a (Q : _ → _ → Prop) : ars !! fa = Some a → Q a (st ars bls) → wp (get_area fa) Q (st ars bls).
Proof. intros E HQ. unfold wp, get_area. simpl. by rewrite E. Qed.
Lemma wp_set_area ars bls fa a f (Q : () → _ → Prop) :
  ars !! fa = Some a → Q () (st (<[fa := f a]> ars) bls) → wp (set_area fa f) Q (st ars bls).
Proof. intros E HQ. unfold wp, set_area. simpl. by rewrite E. Qed.
Lemma wp_get_bblock ars bls b v (Q : _ → _ → Prop) : bls !! b = Some v → Q v (st ars bls) → wp (get_block b) Q (st ars bls).
Proof. intros E HQ. unfold wp, get_block. simpl. by rewrite E. Qed.
Lemma wp_set_bblock ars bls b f (Q : () → _ → Prop) :
  lo ≤ b → b + 24 ≤ hi → Q () (st ars (<[b := f (default (mk_block 0 0 0) (bls !! b))]> bls)) →
  wp (set_block b f) Q (st ars bls).
Proof. intros H1 H2 HQ. unfold wp, set_block. simpl. by rewrite decide_True by (by split). Qed.
Lemma wp_lock ars bls fa a (Q : () → _ → Prop) :
  ars !! fa = Some a → locked a = false → Q () (st (<[fa := with_locked true a]> ars) bls) → wp (pure_lock fa) Q (st ars bls).
Proof. intros E El HQ. unfold pure_lock. apply wp_bind. eapply wp_get_area; [done|]. rewrite El. by eapply wp_set_area. Qed.

(** A header that exists is changed. *)
Lemma wp_touch ars bls b f (Q : () → _ → Prop) :
  (b ≠ 0 → lo ≤ b ∧ b + 24 ≤ hi ∧ is_Some (bls !! b)) →
  Q () (st ars (if decide (b = 0) then bls else alter f b bls)) →
  wp (if decide (b = 0) then mret () else _ ← get_block b; set_block b f) Q (st ars bls).
Proof.
  intros Hb HQ. destruct (decide (b = 0)) as [|Hb0]; [done|]. destruct (Hb Hb0) as (?&?&[v Hv]).
  apply wp_bind. eapply wp_get_bblock; [done|]. apply wp_set_bblock; [done..|]. by rewrite Hv, insert_alter.
Qed.

Lemma set_bitmap_ok ars bls fa a k index (Q : Z → _ → Prop) :
  ars !! fa = Some a → order a = Z.of_nat k → 0 ≤ index →
  let j := index / pow (S k) in
  j < 8 * Z.of_nat (length (pbmap a)) →
  Q (Z.b2z (negb (bit (pbmap a) j))) (st (<[fa := with_pbmap (flip (pbmap a) j) a]> ars) bls) →
  wp (set_bitmap index fa) Q (st ars bls).
Proof.
  intros Ha Ek Hi j Hj HQ. unfold set_bitmap. apply wp_bind. eapply wp_get_area; [done|]. rewrite Ek. cbv zeta.
  assert (Hj0 : 0 ≤ j) by (apply Z.div_pos; [done|apply pow_pos]).
  assert (Ej : Z.shiftr index (Z.of_nat k + 1) = j).
  { rewrite Z.shiftr_div_pow2 by lia. unfold j. do 2 f_equal. lia. }
  assert (Eb : Z.land j 7 = j `mod` 8) by (change 7 with (Z.ones 3); by rewrite Z.land_ones by lia).
  assert (E8 : Z.shiftr index (Z.of_nat k + 1 + 3) = j / 8).
  { rewrite <- (Z.shiftr_shiftr _ _ 3), Ej, Z.shiftr_div_pow2 by lia. done. }
  rewrite Ej, Eb, E8. pose proof (Z.mod_pos_bound j 8).
  destruct (pbmap a !! Z.to_nat (j / 8)) as [byte|] eqn:Ebyte.
  2: { apply lookup_ge_None in Ebyte. Z.div_mod_to_equations. lia. }
  assert (En : nth (Z.to_nat (j / 8)) (pbmap a) 0 = byte) by (by rewrite nth_lookup, Ebyte).
  apply wp_bind. eapply wp_set_area; [done|]. apply wp_ret. rewrite land_1 by lia.
  assert (Hflip : bit (flip (pbmap a) j) j = negb (bit (pbmap a) j)) by (rewrite bit_flip by lia; by rewrite decide_True).
  unfold bit in Hflip at 1. unfold flip in Hflip, HQ. rewrite nth_insert, decide_True, En in Hflip by (done || by eapply lookup_lt_Some).
  rewrite En in HQ. by rewrite Hflip.
Qed.

(** ** The free list of an area *)

(** The area at [fa] has the list [l]; its headers lie in the buffer. *)
Record list_ok ars bls fa a (l : list Z) : Prop := {
  lo_area : ars !! fa = Some a;
  lo_first : freelist a = first l 0;
  lo_dll : dll bls 0 l 0;
  lo_nodup : NoDup l;
  lo_in b : b ∈ l → 0 < b ∧ lo ≤ b ∧ b + 24 ≤ hi }.

Lemma first_touch bls l : dll bls 0 l 0 → (∀ b, b ∈ l → 0 < b ∧ lo ≤ b ∧ b + 24 ≤ hi) →
  first l 0 ≠ 0 → lo ≤ first l 0 ∧ first l 0 + 24 ≤ hi ∧ is_Some (bls !! first l 0).
Proof.
  intros Hd Hin H0. destruct (first_in l 0) as [[_ ?]|Hl]; [done|]. destruct (Hin _ Hl) as (_&?&?).
  split; [done|]. split; [done|]. by eapply dll_allocated.
Qed.

Lemma add_block_ok ars bls fa a l b (Q : () → _ → Prop) :
  list_ok ars bls fa a l → b ∉ l → 0 < b → lo ≤ b → b + 24 ≤ hi →
  (∀ bls', list_ok (<[fa := with_freelist b a]> ars) bls' fa (with_freelist b a) (b :: l) →
    b_free_area <$> bls' !! b = Some fa → (∀ c, c ∉ b :: l → bls' !! c = bls !! c) →
    Q () (st (<[fa := with_freelist b a]> ars) bls')) →
  wp (add_block b fa) Q (st ars bls).
Proof.
  intros [Ha Hf Hd Hnd Hin] Hb Hb0 Hlo Hhi HQ. unfold add_block.
  apply wp_bind. eapply wp_get_area; [done|]. cbv zeta. rewrite Hf.
  apply wp_bind, wp_touch; [by apply first_touch|]. apply wp_bind. eapply wp_set_area; [done|].
  do 2 (apply wp_bind, wp_set_bblock; [done..|]). apply wp_set_bblock; [done..|].
  rewrite !lookup_insert_eq. simpl. rewrite !insert_insert_eq.
  set (bls1 := if decide (first l 0 = 0) then bls else alter (with_pre b) (first l 0) bls).
  set (v := with_free_area fa (with_next (first l 0) (with_pre 0 (default (mk_block 0 0 0) (bls1 !! b))))).
  assert (Hother : ∀ c, c ≠ b → (first l 0 ≠ 0 → c ≠ first l 0) → <[b := v]> bls1 !! c = bls !! c).
  { intros c Hc Hcf. rewrite lookup_insert_ne by done. unfold bls1. destruct (decide (first l 0 = 0)); [done|].
    rewrite lookup_alter_ne; [done|]. intros <-. by apply Hcf. }
  apply HQ.
  - split; [|done|..].
    + by rewrite lookup_insert_eq.
    + apply (dll_push bls _ l b v); try done; [by rewrite lookup_insert_eq|].
      intros c Hc. destruct (decide (c = first l 0)) as [->|Hne]; [|by apply Hother; [intros ->|]].
      rewrite lookup_insert_ne by (intros ->; done). unfold bls1. destruct (Hin _ Hc).
      rewrite decide_False by lia. by rewrite lookup_alter_eq.
    + by apply list.NoDup_cons.
    + intros c [->|Hc]%elem_of_cons; [done|by apply Hin].
  - by rewrite lookup_insert_eq.
  - intros c Hc. apply Hother; [intros ->; apply Hc, list_elem_of_here|]. intros H0 ->.
    apply Hc, list_elem_of_further. by destruct (first_in l 0) as [[_ ?]|?].
Qed.

Lemma pop_block_ok ars bls fa a l b (Q : () → _ → Prop) :
  list_ok ars bls fa a (b :: l) →
  (∀ bls', list_ok (<[fa := with_freelist (first l 0) a]> ars) bls' fa (with_freelist (first l 0) a) l →
    is_Some (bls' !! b) → (∀ c, c ∉ l → bls' !! c = bls !! c) →
    Q () (st (<[fa := with_freelist (first l 0) a]> ars) bls')) →
  wp (pop_block fa) Q (st ars bls).
Proof.
  intros [Ha Hf Hd Hnd Hin] HQ. pose proof Hd as (v&Hv&_&Hx&Hl). apply list.NoDup_cons in Hnd as [Hbl Hnd].
  unfold pop_block. apply wp_bind. eapply wp_get_area; [done|]. rewrite Hf. apply wp_bind. eapply wp_get_bblock; [done|].
  apply wp_bind. eapply wp_set_area; [done|]. apply wp_bind. eapply wp_get_area; [by rewrite lookup_insert_eq|].
  change (next v) with (DLL.next v). rewrite Hx. simpl.
  assert (Hin' : ∀ c, c ∈ l → 0 < c ∧ lo ≤ c ∧ c + 24 ≤ hi) by (intros c Hc; by apply Hin, list_elem_of_further).
  apply wp_touch.
  { intros H0. destruct (first_in l 0) as [[_ ?]|Hl0]; [done|]. destruct (Hin' _ Hl0) as (_&?&?).
    split; [done|]. split; [done|]. by eapply dll_allocated. }
  set (bls1 := if decide (first l 0 = 0) then bls else alter (with_pre 0) (first l 0) bls).
  assert (Hother : ∀ c, c ∉ l → bls1 !! c = bls !! c).
  { intros c Hc. unfold bls1. destruct (decide (first l 0 = 0)); [done|]. rewrite lookup_alter_ne; [done|].
    intros <-. by destruct (first_in l 0) as [[_ ?]|?]. }
  apply HQ; [|by rewrite Hother|done]. split; [by rewrite lookup_insert_eq|done| |done|done].
  apply (dll_tail bls bls1 b l); [done|by apply list.NoDup_cons|]. intros c Hc. unfold bls1. destruct (Hin' _ Hc).
  destruct (decide (c = first l 0)) as [->|Hne]; [by rewrite decide_False, lookup_alter_eq by lia|].
  destruct (decide (first l 0 = 0)); [done|]. by rewrite lookup_alter_ne.
Qed.

Lemma final_pos (l : list Z) : (∀ b, b ∈ l → 0 < b) → final 0 l = 0 ↔ l = [].
Proof.
  intros Hl. split; [|by intros ->]. intros E. destruct (final_in 0 l) as [[? _]|Hin]; [done|]. apply Hl in Hin. lia.
Qed.
Lemma first_pos (l : list Z) : (∀ b, b ∈ l → 0 < b) → first l 0 = 0 ↔ l = [].
Proof.
  intros Hl. split; [|by intros ->]. intros E. destruct (first_in l 0) as [[? _]|Hin]; [done|]. apply Hl in Hin. lia.
Qed.

Lemma del_loop_ok ars bls fa a b l2 (Q : Z → _ → Prop) : ∀ l1 m fuel,
  list_ok ars bls fa a (m ++ l1 ++ b :: l2) → (length l1 < fuel)%nat →
  (let l := (m ++ l1) ++ l2 in let a' := with_freelist (first l 0) a in
   list_ok (<[fa := a']> ars) (relink bls (m ++ l1) l2) fa a' l → Q 0 (st (<[fa := a']> ars) (relink bls (m ++ l1) l2))) →
  wp (del_loop fuel (first (l1 ++ b :: l2) 0) b fa) Q (st ars bls).
Proof.
  induction l1 as [|c l1 IH]; intros m fuel Hok Hf HQ; (destruct fuel as [|fuel]; [simpl in Hf; lia|]);
    pose proof Hok as [Ha Hfl Hd Hnd Hin]; cbn [del_loop app first hd] in *.
  - rewrite app_nil_r in HQ. pose proof Hd as (v&Hv&Hp&Hx&_&Hd2)%dll_middle. simpl in Hp, Hx.
    pose proof Hnd as (Hbm&Hb2&Hnd'&Hdis)%nodup_middle.
    assert (Hpos : ∀ c, c ∈ m ++ b :: l2 → 0 < c) by (intros c Hc; by destruct (Hin c Hc)).
    assert (Hm : ∀ c, c ∈ m → 0 < c) by (intros c Hc; apply Hpos, elem_of_app; by left).
    assert (Hl2 : ∀ c, c ∈ l2 → 0 < c) by (intros c Hc; apply Hpos, elem_of_app; right; by apply list_elem_of_further).
    assert (Hb0 : 0 < b) by (apply Hpos, elem_of_app; right; apply list_elem_of_here).
    rewrite decide_False by lia. apply wp_bind. eapply wp_get_bblock; [done|]. rewrite decide_True by done.
    apply wp_bind. eapply wp_get_area; [done|]. rewrite Hx, Hp.
    set (a' := with_freelist (first (m ++ l2) 0) a) in *. set (bls1 := if decide (final 0 m = 0) then bls else alter (with_next (first l2 0)) (final 0 m) bls).
    assert (Hset : wp (if decide (b = freelist a) then set_area fa (with_freelist (first l2 0)) else mret ())
      (λ _ s, s = st (<[fa := a']> ars) bls) (st ars bls)).
    { rewrite Hfl. destruct m as [|c m]; simpl.
      - rewrite decide_True by done. by eapply wp_set_area.
      - rewrite decide_False by (intros ->; apply Hbm, list_elem_of_here). apply wp_ret. unfold st. f_equal.
        symmetry. apply insert_id. rewrite Ha. f_equal. unfold a'. simpl. destruct a as [? ? ? ?]. simpl in *. by rewrite Hfl. }
    apply wp_bind. eapply wp_mono; [exact Hset|]. intros [] s ->. apply wp_bind, wp_touch.
    { intros H0. assert (Hfm : final 0 m ∈ m) by (by destruct (final_in 0 m) as [[_ ?]|?]).
      assert (Hfm' : final 0 m ∈ m ++ b :: l2) by (apply elem_of_app; by left). destruct (Hin _ Hfm') as (_&?&?).
      split; [done|]. split; [done|]. exact (dll_allocated _ _ _ _ _ Hd Hfm'). }
    fold bls1. assert (Hb1 : bls1 !! b = Some v).
    { unfold bls1. destruct (decide (final 0 m = 0)) as [|Hm0]; [done|]. rewrite lookup_alter_ne; [done|].
      intros E. apply Hbm. rewrite <- E. by destruct (final_in 0 m) as [[_ ?]|?]. }
    apply wp_bind. eapply wp_get_bblock; [exact Hb1|]. rewrite Hx, Hp. apply wp_bind, wp_touch.
    { intros H0. assert (Hf2 : first l2 0 ∈ l2) by (by destruct (first_in l2 0) as [[_ ?]|?]).
      assert (Hf2' : first l2 0 ∈ m ++ b :: l2) by (apply elem_of_app; right; by apply list_elem_of_further).
      destruct (Hin _ Hf2') as (_&?&?). split; [done|]. split; [done|].
      destruct (dll_allocated _ _ _ _ _ Hd Hf2') as [w Hw]. unfold bls1. destruct (decide (final 0 m = 0)); [by exists w|].
      destruct (decide (final 0 m = first l2 0)) as [->|]; [rewrite lookup_alter_eq, Hw; by eexists|].
      rewrite lookup_alter_ne by done. by exists w. }
    assert (Erel : (if decide (first l2 0 = 0) then bls1 else alter (with_pre (final 0 m)) (first l2 0) bls1) = relink bls m l2).
    { unfold relink, bls1. cbv zeta. destruct (decide (m = [])) as [->|Hmn].
      - rewrite (decide_True (P := final 0 [] = 0)) by done. destruct (decide (l2 = [])) as [->|Hl]; [done|].
        rewrite decide_False; [done|]. by rewrite first_pos.
      - rewrite (decide_False (P := final 0 m = 0)) by (by rewrite final_pos). destruct (decide (l2 = [])) as [->|Hl]; [done|].
        rewrite decide_False; [done|]. by rewrite first_pos. }
    rewrite Erel. apply wp_ret, HQ. split.
    + by rewrite lookup_insert_eq.
    + done.
    + by eapply dll_relink.
    + done.
    + intros c Hc. apply Hin. rewrite elem_of_app in Hc |- *. destruct Hc; [by left|right; by apply list_elem_of_further].
  - assert (Hc : c ∈ m ++ c :: l1 ++ b :: l2) by (apply elem_of_app; right; apply list_elem_of_here).
    destruct (Hin c Hc) as (Hc0&_&_). rewrite decide_False by lia.
    pose proof Hd as (v&Hv&_&Hx&_)%dll_middle. apply wp_bind. eapply wp_get_bblock; [done|].
    pose proof Hnd as (_&Hcl&_&_)%nodup_middle.
    rewrite decide_False by (intros ->; apply Hcl, elem_of_app; right; apply list_elem_of_here).
    change (next v) with (DLL.next v). rewrite Hx. apply (IH (m ++ [c])).
    + by rewrite <- app_assoc.
    + simpl in Hf. lia.
    + by rewrite <- (app_assoc m [c] l1).
Qed.

Lemma del_block_ok ars bls fa a l1 b l2 (Q : Z → _ → Prop) :
  list_ok ars bls fa a (l1 ++ b :: l2) →
  (let a' := with_freelist (first (l1 ++ l2) 0) a in
   list_ok (<[fa := a']> ars) (relink bls l1 l2) fa a' (l1 ++ l2) → Q 0 (st (<[fa := a']> ars) (relink bls l1 l2))) →
  wp (del_block b fa) Q (st ars bls).
Proof.
  intros Hok HQ. pose proof Hok as [Ha Hfl Hd Hnd Hin]. unfold del_block. apply wp_bind. eapply wp_get_area; [done|].
  apply wp_bind, wp_gets. rewrite Hfl. apply (del_loop_ok ars bls fa a b l2 Q l1 []); [done| |done].
  simpl. assert (Hle : (length (l1 ++ b :: l2) ≤ size bls)%nat).
  { rewrite <- size_dom, <- (size_list_to_set (C := gset Z)) by done. apply subseteq_size.
    intros c Hc%elem_of_list_to_set. apply elem_of_dom. by eapply dll_allocated. }
  rewrite length_app in Hle. simpl in Hle. lia.
Qed.
End rules.
