(* ===== verification/BuddySpec.v ===== *)
(** * src/mem_pool/pure_buddy_mem.cpp: the free lists and bitmaps as a tiling
    of the buffer, kept by every operation. *)

From S2P Require Import Prelude DLL Buddy BuddyTiles BuddyProofs.

Local Open Scope Z_scope.

(** ** Free lists by order, and the blocks that are out *)

Definition upd (F : nat → list Z) (k : nat) (l : list Z) : nat → list Z := λ m, if decide (m = k) then l else F m.

Lemma upd_same F k l : upd F k l k = l.
Proof. unfold upd. by rewrite decide_True. Qed.
Lemma upd_other F k l m : m ≠ k → upd F k l m = F m.
Proof. intros Hm. unfold upd. by rewrite decide_False. Qed.

Definition tile (F : nat → list Z) (A : list (Z * nat)) (i : Z) (k : nat) : Prop := i ∈ F k ∨ (i, k) ∈ A.

(** Free and allocated blocks tile the [n] cells; no two free ones are buddies
    (below the highest order). *)
Record cut_ok (n : Z) (F : nat → list Z) (A : list (Z * nat)) : Prop := {
  co_tiles : tiles n (tile F A);
  co_nodup k : NoDup (F k);
  co_nodup_A : NoDup A;
  co_sep i k : i ∈ F k → (i, k) ∉ A;
  co_no i k : (k < 9)%nat → i ∈ F k → buddy i k ∉ F k }.

Section cut.
Context (n : Z).
Implicit Types (F : nat → list Z) (A : list (Z * nat)).

Lemma co_range F A i k : cut_ok n F A → tile F A i k → (k ≤ 9)%nat ∧ 0 ≤ i ∧ i + pow k ≤ n ∧ aligned i k.
Proof. intros Hc. apply (tl_range n _ (co_tiles _ _ _ Hc)). Qed.

(** A cell starts at most one block. *)
Lemma co_start F A i k m : cut_ok n F A → tile F A i k → tile F A i m → k = m.
Proof.
  intros Hc Hk Hm. by destruct (tl_disjoint n _ (co_tiles _ _ _ Hc) i k i m i Hk Hm (covers_start _ _) (covers_start _ _)).
Qed.
Lemma free_start_once F A i k m : cut_ok n F A → i ∈ F k → i ∈ F m → k = m.
Proof. intros Hc Hk Hm. eapply co_start; [done|by left|by left]. Qed.
Lemma out_not_free F A i k m : cut_ok n F A → (i, k) ∈ A → i ∉ F m.
Proof.
  intros Hc HA HF. assert (k = m) as -> by (eapply co_start; [done|by right|by left]). by apply (co_sep _ _ _ Hc i m).
Qed.

Lemma cut_take F A k i r : cut_ok n F A → F k = i :: r → cut_ok n (upd F k r) ((i, k) :: A).
Proof.
  intros Hc E. pose proof (co_nodup _ _ _ Hc k) as Hnd. rewrite E in Hnd. apply list.NoDup_cons in Hnd as [Hir Hnd].
  assert (Hi : i ∈ F k) by (rewrite E; apply list_elem_of_here).
  assert (Hsub : ∀ j m, j ∈ upd F k r m → j ∈ F m ∧ ¬ (j = i ∧ m = k)).
  { intros j m Hj. destruct (decide (m = k)) as [->|Hm].
    - rewrite upd_same in Hj. rewrite E. split; [by apply list_elem_of_further|]. by intros [-> _].
    - rewrite upd_other in Hj by done. split; [done|tauto]. }
  assert (Hback : ∀ j m, j ∈ F m → j ∈ upd F k r m ∨ (j = i ∧ m = k)).
  { intros j m Hj. destruct (decide (m = k)) as [->|Hm]; [|left; by rewrite upd_other].
    rewrite upd_same. rewrite E in Hj. apply elem_of_cons in Hj as [->|?]; [by right|by left]. }
  split.
  - apply (tiles_iff n (tile F A)); [|apply Hc]. intros j m. unfold tile. rewrite elem_of_cons. split.
    + intros [Hj|Hj]; [|by right; right]. destruct (Hback j m Hj) as [?|[-> ->]]; [by left|by right; left].
    + intros [Hj|[[= -> ->]|Hj]]; [left; by apply Hsub|by left|by right].
  - intros m. destruct (decide (m = k)) as [->|Hm]; [by rewrite upd_same|rewrite upd_other by done; apply Hc].
  - apply list.NoDup_cons. split; [by apply (co_sep _ _ _ Hc)|apply Hc].
  - intros j m [Hj Hn]%Hsub [[= -> ->]|HA]%elem_of_cons; [tauto|by apply (co_sep _ _ _ Hc j m)].
  - intros j m Hm [Hj _]%Hsub [Hb _]%Hsub. by apply (co_no _ _ _ Hc j m).
Qed.

Lemma cut_split F A i d :
  cut_ok n F ((i, S d) :: A) → cut_ok n (upd F d (i + pow d :: F d)) ((i, d) :: A).
Proof.
  intros Hc. assert (Hi : tile F ((i, S d) :: A) i (S d)) by (right; apply list_elem_of_here).
  destruct (co_range _ _ _ _ Hc Hi) as (Hd&Hi0&Hin&Ha). pose proof (pow_pos d). pose proof (co_nodup_A _ _ _ Hc) as HndA.
  apply list.NoDup_cons in HndA as [HiA HndA]. destruct (buddy_half i d Ha) as [Hb1 Hb2].
  assert (Hfresh : ∀ j, j = i ∨ j = i + pow d → ¬ tile F ((i, S d) :: A) j d).
  { intros j Hj Ht. assert (Hcov : covers i (S d) j) by (apply covers_split; destruct Hj as [->| ->]; [left|right]; apply covers_start).
    destruct (tl_disjoint n _ (co_tiles _ _ _ Hc) i (S d) j d j Hi Ht Hcov (covers_start _ _)). lia. }
  assert (Hmem : ∀ j m, j ∈ upd F d (i + pow d :: F d) m ↔ j ∈ F m ∨ (m = d ∧ j = i + pow d)).
  { intros j m. destruct (decide (m = d)) as [->|Hm]; [rewrite upd_same, elem_of_cons|rewrite upd_other by done]; tauto. }
  split.
  - apply (tiles_iff n (split_tile (tile F ((i, S d) :: A)) i d)); [|apply tiles_split; [apply Hc|done]].
    intros j m. unfold split_tile, tile. rewrite Hmem, !elem_of_cons. split.
    + intros [[[Hj|[[= -> ->]|Hj]] Hn]|[-> [->| ->]]]; tauto.
    + intros [[Hj|[-> ->]]|[[= -> ->]|Hj]]; [left|right; tauto|right; tauto|left].
      * split; [by left|]. intros [-> ->]. eapply (co_sep _ _ _ Hc); [done|apply list_elem_of_here].
      * split; [right; by right|]. by intros [-> ->].
  - intros m. destruct (decide (m = d)) as [->|Hm]; [|rewrite upd_other by done; apply Hc].
    rewrite upd_same. apply list.NoDup_cons. split; [|apply Hc]. intros Hf. apply (Hfresh (i + pow d)); [by right|by left].
  - apply list.NoDup_cons. split; [|done]. intros HA. apply (Hfresh i); [by left|]. right. by apply list_elem_of_further.
  - intros j m [Hj|[-> ->]]%Hmem Hcons; apply elem_of_cons in Hcons as [[=]|HA].
    + subst j m. by apply (Hfresh i); [left|left].
    + apply (co_sep _ _ _ Hc j m Hj). by apply list_elem_of_further.
    + lia.
    + apply (Hfresh (i + pow d)); [by right|]. right. by apply list_elem_of_further.
  - intros j m Hm [Hj|[-> ->]]%Hmem [Hb|[E Hb]]%Hmem.
    + by apply (co_no _ _ _ Hc j m).
    + subst m. assert (Haj : aligned j d) by (apply (co_range _ _ _ _ Hc (or_introl Hj))).
      destruct (buddy_parent j d Haj) as [_ E2]. rewrite Hb, Hb2 in E2. subst j. apply (Hfresh i); [by left|by left].
    + rewrite Hb2 in Hb. apply (Hfresh i); [by left|by left].
    + rewrite Hb2 in Hb. lia.
Qed.

Lemma cut_put F A i k :
  cut_ok n F ((i, k) :: A) → ((k < 9)%nat → buddy i k ∉ F k) → cut_ok n (upd F k (i :: F k)) A.
Proof.
  intros Hc Hb. pose proof (co_nodup_A _ _ _ Hc) as HndA. apply list.NoDup_cons in HndA as [HiA HndA].
  assert (Hi : tile F ((i, k) :: A) i k) by (right; apply list_elem_of_here).
  destruct (co_range _ _ _ _ Hc Hi) as (Hk&_&_&Ha).
  assert (Hif : i ∉ F k) by (eapply out_not_free; [done|apply list_elem_of_here]).
  assert (Hmem : ∀ j m, j ∈ upd F k (i :: F k) m ↔ j ∈ F m ∨ (m = k ∧ j = i)).
  { intros j m. destruct (decide (m = k)) as [->|Hm]; [rewrite upd_same, elem_of_cons|rewrite upd_other by done]; tauto. }
  split.
  - apply (tiles_iff n (tile F ((i, k) :: A))); [|apply Hc]. intros j m. unfold tile. rewrite Hmem, elem_of_cons. split.
    + intros [?|[[= -> ->]|?]]; tauto.
    + intros [[?|[-> ->]]|?]; tauto.
  - intros m. destruct (decide (m = k)) as [->|Hm]; [|rewrite upd_other by done; apply Hc].
    rewrite upd_same. apply list.NoDup_cons. split; [done|apply Hc].
  - done.
  - intros j m [Hj|[-> ->]]%Hmem HA; [|done]. apply (co_sep _ _ _ Hc j m Hj). by apply list_elem_of_further.
  - intros j m Hm [Hj|[-> ->]]%Hmem [Hbj|[Em E]]%Hmem.
    + by apply (co_no _ _ _ Hc j m).
    + subst m. assert (Haj : aligned j k) by (apply (co_range _ _ _ _ Hc (or_introl Hj))).
      destruct (buddy_parent j k Haj) as [_ E2]. apply (Hb Hm). by rewrite <- E, E2.
    + by apply Hb.
    + destruct (buddy_spec i k Ha) as [[? ?]|[? ?]]; pose proof (pow_pos k); lia.
Qed.

Lemma cut_merge F A i k l1 l2 :
  cut_ok n F ((i, k) :: A) → (k < 9)%nat → F k = l1 ++ buddy i k :: l2 →
  cut_ok n (upd F k (l1 ++ l2)) ((parent i k, S k) :: A).
Proof.
  intros Hc Hk E. pose proof (co_nodup_A _ _ _ Hc) as HndA. apply list.NoDup_cons in HndA as [HiA HndA].
  assert (Hi : tile F ((i, k) :: A) i k) by (right; apply list_elem_of_here).
  assert (Hbf : buddy i k ∈ F k) by (rewrite E; apply elem_of_app; right; apply list_elem_of_here).
  destruct (co_range _ _ _ _ Hc Hi) as (_&Hi0&Hin&Ha).
  pose proof (co_nodup _ _ _ Hc k) as Hnd. rewrite E in Hnd. pose proof Hnd as (Hb1&Hb2&Hnd'&_)%nodup_middle.
  pose proof (parent_aligned i k) as Hpa. pose proof (pow_pos k).
  assert (Hmem : ∀ j m, j ∈ upd F k (l1 ++ l2) m ↔ j ∈ F m ∧ ¬ (m = k ∧ j = buddy i k)).
  { intros j m. destruct (decide (m = k)) as [->|Hm]; [rewrite upd_same, E, !elem_of_app, elem_of_cons|rewrite upd_other by done; tauto].
    split; [intros [?|?]; (split; [tauto|intros [_ ->]; done])|tauto]. }
  assert (Hhalves : ∀ j, (j = i ∨ j = buddy i k) ↔ (j = parent i k ∨ j = parent i k + pow k)).
  { intros j. destruct (buddy_spec i k Ha) as [[E1 E2]|[E1 E2]]; rewrite E2; rewrite E1 at 1; tauto. }
  assert (Ht : tile F ((i, k) :: A) (parent i k) k ∧ tile F ((i, k) :: A) (parent i k + pow k) k).
  { assert (Hb : tile F ((i, k) :: A) (buddy i k) k) by by left.
    destruct (buddy_spec i k Ha) as [[E1 E2]|[E1 E2]]; [rewrite <- E2, <- E1|rewrite <- E1, <- E2]; split; try done; right; apply list_elem_of_here. }
  assert (Hfresh : ¬ tile F ((i, k) :: A) (parent i k) (S k)).
  { intros Hp. assert (k = S k); [|lia]. eapply co_start; [exact Hc|exact (proj1 Ht)|exact Hp]. }
  split.
  - apply (tiles_iff n (merge_tile (tile F ((i, k) :: A)) (parent i k) k)); [|apply tiles_merge; [apply Hc|apply Ht|apply Ht|done|done]].
    intros j m. unfold merge_tile, tile. rewrite Hmem, !elem_of_cons, <- Hhalves. split.
    + intros [[[Hj|[[= -> ->]|Hj]] Hn]|[-> ->]]; tauto.
    + intros [[Hj Hn]|[[= -> ->]|Hj]]; [left|by right|left].
      * split; [by left|]. intros [-> [->| ->]]; [|tauto]. eapply (co_sep _ _ _ Hc); [done|apply list_elem_of_here].
      * split; [tauto|]. intros [-> [->| ->]]; [done|]. apply (co_sep _ _ _ Hc _ _ Hbf). by apply list_elem_of_further.
  - intros m. destruct (decide (m = k)) as [->|Hm]; [by rewrite upd_same|rewrite upd_other by done; apply Hc].
  - apply list.NoDup_cons. split; [|done]. intros HA. apply Hfresh. right. by apply list_elem_of_further.
  - intros j m [Hj _]%Hmem [[= -> ->]|HA]%elem_of_cons; [by apply Hfresh; left|].
    apply (co_sep _ _ _ Hc j m Hj). by apply list_elem_of_further.
  - intros j m Hm [Hj _]%Hmem [Hbj _]%Hmem. by apply (co_no _ _ _ Hc j m).
Qed.
End cut.
