(* ===== verification/BuddyHeap.v ===== *)
(** * src/mem_pool/pure_buddy_mem.cpp: the areas in memory hold the free lists
    by order, and allocation and release change them as a tiling changes. *)

From S2P Require Import Prelude DLL Buddy BuddyTiles BuddyProofs BuddySpec.

Local Open Scope Z_scope.

(** ** Bitmaps and free lists *)

(** A bit is set when one of the two buddies it stands for is free. *)
Definition bits_ok (bm : list Z) (k : nat) (l : list Z) : Prop :=
  ∀ j, 0 ≤ j < 8 * Z.of_nat (length bm) → bit bm j = true ↔ ∃ i, i ∈ l ∧ i / pow (S k) = j.

Lemma parent_eq i i' k : i / pow (S k) = i' / pow (S k) → parent i k = parent i' k.
Proof. unfold parent. by intros ->. Qed.
Lemma same_pair i i' k : aligned i k → aligned i' k → i / pow (S k) = i' / pow (S k) → i' = i ∨ i' = buddy i k.
Proof.
  intros Ha Ha' E%parent_eq. destruct (buddy_spec i k Ha) as [[? ?]|[? ?]], (buddy_spec i' k Ha') as [[? ?]|[? ?]]; lia.
Qed.
Lemma buddy_pair i k : aligned i k → buddy i k / pow (S k) = i / pow (S k).
Proof.
  intros Ha. destruct (buddy_parent i k Ha) as [E _]. unfold parent in E. pose proof (pow_pos (S k)).
  by apply Z.mul_reg_r in E; [|lia].
Qed.
Lemma covers_pair i k x : aligned i k → covers i k x → x / pow (S k) = i / pow (S k).
Proof.
  intros Ha Hx. assert (Hcov : ∀ y, covers i k y → covers (parent i k) (S k) y).
  { intros y Hy. apply covers_split. destruct (buddy_spec i k Ha) as [[E _]|[E _]]; rewrite E in Hy; tauto. }
  pose proof (Hcov x Hx) as Hpx%(aligned_start _ _ _ (parent_aligned i k)). pose proof (pow_pos (S k)).
  unfold parent in Hpx. by apply Z.mul_reg_r in Hpx; [|lia].
Qed.

Lemma bits_add bm k l i :
  bits_ok bm k l → (∀ x, x ∈ l → aligned x k) → aligned i k → i ∉ l → buddy i k ∉ l →
  0 ≤ i / pow (S k) < 8 * Z.of_nat (length bm) →
  bit bm (i / pow (S k)) = false ∧ bits_ok (flip bm (i / pow (S k))) k (i :: l).
Proof.
  intros Hb Hl Ha Hi Hbi Hj. assert (E : bit bm (i / pow (S k)) = false).
  { apply not_true_is_false. intros (x&Hx&Ex)%Hb; [|done]. destruct (same_pair i x k) as [->| ->]; auto. }
  split; [done|]. intros j Hj'. rewrite length_flip in Hj'. rewrite bit_flip, E by lia. case_decide as Ej.
  - split; [|done]. intros _. exists i. split; [apply list_elem_of_here|done].
  - rewrite (Hb j Hj'). split; intros (x&Hx&Ex).
    + exists x. split; [by apply list_elem_of_further|done].
    + apply elem_of_cons in Hx as [->|Hx]; [done|eauto].
Qed.

Lemma bits_remove bm k l1 i l2 :
  bits_ok bm k (l1 ++ i :: l2) → (∀ x, x ∈ l1 ++ i :: l2 → aligned x k) → NoDup (l1 ++ i :: l2) →
  buddy i k ∉ l1 ++ i :: l2 → 0 ≤ i / pow (S k) < 8 * Z.of_nat (length bm) →
  bit bm (i / pow (S k)) = true ∧ bits_ok (flip bm (i / pow (S k))) k (l1 ++ l2).
Proof.
  intros Hb Hl (H1&H2&_&_)%nodup_middle Hbi Hj.
  assert (Hi : i ∈ l1 ++ i :: l2) by (apply elem_of_app; right; apply list_elem_of_here).
  assert (Hsub : ∀ x, x ∈ l1 ++ l2 → x ∈ l1 ++ i :: l2) by (intros x; rewrite !elem_of_app, elem_of_cons; tauto).
  assert (E : bit bm (i / pow (S k)) = true) by (apply Hb; eauto).
  split; [done|]. intros j Hj'. rewrite length_flip in Hj'. rewrite bit_flip, E by lia. case_decide as Ej; simpl.
  - split; [done|]. intros (x&Hx&Ex). exfalso. rewrite Ej in Ex.
    destruct (same_pair i x k) as [->| ->]; [by apply Hl|by apply Hl, Hsub|done| |by apply Hbi, Hsub].
    apply elem_of_app in Hx. tauto.
  - rewrite (Hb j Hj'). split; intros (x&Hx&Ex); exists x; (split; [|done]); [|by apply Hsub].
    rewrite elem_of_app, elem_of_cons in Hx. rewrite elem_of_app. destruct Hx as [?|[->|?]]; [by left|by subst j|by right].
Qed.

Lemma list_ok_frame lo hi ars ars' bls bls' fa a l :
  list_ok lo hi ars bls fa a l → ars' !! fa = ars !! fa → (∀ c, c ∈ l → bls' !! c = bls !! c) →
  list_ok lo hi ars' bls' fa a l.
Proof. intros [H1 H2 H3 H4 H5] Ea Eb. split; try done; [by rewrite Ea|by eapply dll_frame]. Qed.
Lemma list_ok_set lo hi ars bls fa a a' l :
  list_ok lo hi ars bls fa a l → freelist a' = freelist a → list_ok lo hi (<[fa := a']> ars) bls fa a' l.
Proof. intros [H1 H2 H3 H4 H5] E. split; try done; [by rewrite lookup_insert_eq|by rewrite E]. Qed.

(** ** The areas *)

(** The layout that the initialisation computes: [n] cells of 64 bytes behind
    ten areas, a bitmap with a bit for two cells in each. *)
Class Geometry (p : mem) (abs lo hi n : Z) : Prop := {
  gm_abs : abs = 24;
  gm_lo : 0 < lo ∧ lo ≤ free_start p;
  gm_areas : 52 < align_area_size p;
  gm_start : block_start p = free_start p + align_area_size p * 10;
  gm_n : 0 ≤ n ∧ n ≤ 16 * (align_area_size p - 52) ∧ n < 2 ^ 31;
  gm_hi : block_start p + 64 * n ≤ hi }.

Section heap.
Context (p : mem) (abs lo hi n : Z) `{Hg : !Geometry p abs lo hi n}.
Implicit Types (ars : gmap Z free_area) (bls : gmap Z b_block) (F : nat → list Z) (A H : list (Z * nat)).

Notation addr i := (block_start p + 64 * i).
Notation area k := (area_addr p (Z.of_nat k)).
Notation addrs l := ((λ i, addr i) <$> l).
Notation st := (st p abs lo hi).

Definition area_ok ars bls (k : nat) (l : list Z) : Prop := ∃ bm,
  list_ok lo hi ars bls (area k) (mk_area false (first (addrs l) 0) (Z.of_nat k) bm) (addrs l) ∧
  Z.of_nat (length bm) = align_area_size p - 52 ∧ ((k < 9)%nat → bits_ok bm k l).
Definition areas_ok ars bls F : Prop := ∀ k, (k ≤ 9)%nat → area_ok ars bls k (F k).

(** The header of a block that is out names its order. *)
Definition heads_ok bls H : Prop := ∀ i k, (i, k) ∈ H → b_free_area <$> bls !! addr i = Some (area k).

(** The blocks [A] are out; those in [H] have their headers. *)
Record repr ars bls F A H : Prop := {
  rp_cut : cut_ok n F A;
  rp_areas : areas_ok ars bls F;
  rp_heads : heads_ok bls H;
  rp_sub x : x ∈ H → x ∈ A }.

Lemma elem_of_addrs i (l : list Z) : addr i ∈ addrs l ↔ i ∈ l.
Proof. rewrite list_elem_of_fmap. split; [intros (j&E&Hj); by replace i with j by lia|eauto]. Qed.

Lemma area_inj k m : area k = area m → k = m.
Proof. pose proof (gm_areas (Geometry := Hg)). unfold area_addr. nia. Qed.

(** The other areas when one of them and its list change. *)
Lemma area_frame ars bls k m (l l' : list Z) a' bls' :
  area_ok ars bls m l → m ≠ k → (∀ i, i ∈ l → i ∉ l') → (∀ c, c ∉ addrs l' → bls' !! c = bls !! c) →
  area_ok (<[area k := a']> ars) bls' m l.
Proof.
  intros (bm&Hl&Hrest) Hne Hd Hbls. exists bm. split; [|done]. apply (list_ok_frame _ _ ars _ bls); [done| |].
  - apply lookup_insert_ne. by intros E%area_inj.
  - intros c (i&->&Hi)%list_elem_of_fmap. apply Hbls. rewrite elem_of_addrs. by apply Hd.
Qed.

(** An order gets another list, and only headers in that list change. *)
Lemma repr_change ars bls F A H k l' A' a' bls' :
  areas_ok ars bls F → heads_ok bls H → (∀ x, x ∈ H → x ∈ A') → cut_ok n (upd F k l') A' →
  area_ok (<[area k := a']> ars) bls' k l' → (∀ c, c ∉ addrs l' → bls' !! c = bls !! c) →
  repr (<[area k := a']> ars) bls' (upd F k l') A' H.
Proof.
  intros Har Hh Hsub Hc Hk Hbls. split; [done| | |done].
  - intros m Hm. destruct (decide (m = k)) as [->|Hne]; [by rewrite upd_same|]. rewrite upd_other by done.
    eapply area_frame; [by apply Har|done| |exact Hbls]. intros i Hi Hik.
    apply Hne. eapply (free_start_once n); [exact Hc| |by rewrite upd_same]. by rewrite upd_other.
  - intros i m Him. rewrite Hbls; [by apply Hh|]. rewrite elem_of_addrs. intros Hi.
    eapply (out_not_free n); [exact Hc|by apply Hsub|]. by rewrite upd_same.
Qed.

(** Where a tile lies. *)
Lemma tile_geometry F A i k : cut_ok n F A → tile F A i k →
  0 < addr i ∧ lo ≤ addr i ∧ addr i + 24 ≤ hi ∧ 0 ≤ i < 2 ^ 31 ∧ aligned i k ∧ (k ≤ 9)%nat ∧
  0 ≤ i / pow (S k) ∧ i / pow (S k) < 8 * (align_area_size p - 52).
Proof.
  intros Hc Ht. destruct (co_range n _ _ _ _ Hc Ht) as (Hk&Hi&Hin&Ha). destruct Hg as [_ ? ? ? ? ?]. pose proof (pow_pos k).
  split_and!; try done; try nia.
  - apply Z.div_pos; [done|apply pow_pos].
  - apply Z.div_lt_upper_bound; [apply pow_pos|]. rewrite pow_S. nia.
Qed.

Lemma quot_addr i : 0 ≤ i < 2 ^ 31 → u32 (Z.quot (addr i - block_start p) MIN_BLOCK_SIZE) = i.
Proof.
  intros Hi. unfold MIN_BLOCK_SIZE. rewrite Z.add_simpl_l, Z.mul_comm, Z.quot_mul by lia. apply u32_small. lia.
Qed.
Lemma shift_addr i : 0 ≤ i < 2 ^ 31 → u32 (Z.shiftr (addr i - block_start p) MIN_BLOCK_SIZE_EXP) = i.
Proof.
  intros Hi. unfold MIN_BLOCK_SIZE_EXP. rewrite Z.shiftr_div_pow2 by lia. rewrite Z.add_simpl_l, Z.mul_comm.
  change (2 ^ 6) with 64. rewrite Z.div_mul by lia. apply u32_small. lia.
Qed.
End heap.
