(* ===== verification/BuddyOps.v ===== *)
(** * src/mem_pool/pure_buddy_mem.cpp: [Alloc] and [Free] on memory that holds
    a tiling. *)

From S2P Require Import Prelude DLL Buddy BuddyTiles BuddyProofs BuddySpec BuddyHeap.

Local Open Scope Z_scope.

Section ops.
Context (p : mem) (abs lo hi n : Z) `{Hg : !Geometry p abs lo hi n}.
Implicit Types (ars : gmap Z free_area) (bls : gmap Z b_block) (F : nat → list Z) (A H : list (Z * nat)).

Notation addr i := (block_start p + 64 * i).
Notation area k := (area_addr p (Z.of_nat k)).
Notation addrs l := ((λ i, addr i) <$> l).
Notation st := (st p abs lo hi).
Notation repr := (repr p lo hi n).

Lemma wp_get_pm ars bls (Q : mem → _ → Prop) : Q p (st ars bls) → wp get_pm Q (st ars bls).
Proof. intros HQ. by apply wp_gets. Qed.

Lemma index_range F A k i (bm : list Z) :
  cut_ok n F A → tile F A i k → Z.of_nat (length bm) = align_area_size p - 52 →
  0 ≤ i / pow (S k) < 8 * Z.of_nat (length bm).
Proof. intros Hc Ht ->. by destruct (tile_geometry p abs lo hi n F A i k Hc Ht) as (_&_&_&_&_&_&?&?). Qed.

(** A block goes to the free list of its order. *)
Lemma put_ok ars bls F A H A' k i {B} (K : M _ B) Q :
  repr ars bls F A H → (k ≤ 9)%nat → i ∉ F k → cut_ok n (upd F k (i :: F k)) A' → (∀ x, x ∈ H → x ∈ A') →
  (∀ ars' bls', repr ars' bls' (upd F k (i :: F k)) A' H → wp K Q (st ars' bls')) →
  wp (pure_lock (area k);; add_block (addr i) (area k);; _ ← set_bitmap i (area k); pure_unlock (area k);; K) Q (st ars bls).
Proof.
  intros [Hc Har Hh Hsub] Hk Hi Hc' Hsub' HQ. destruct (Har k Hk) as (bm&Hl&Hlen&Hbits). set (F' := upd F k (i :: F k)) in *.
  assert (Hi' : i ∈ F' k) by (unfold F'; rewrite upd_same; apply list_elem_of_here).
  assert (Ht : tile F' A' i k) by by left.
  destruct (tile_geometry p abs lo hi n F' A' i k Hc' Ht) as (?&?&?&?&Ha&_). pose proof (index_range F' A' k i bm Hc' Ht Hlen) as Hj.
  apply wp_bind. eapply wp_lock; [apply Hl|done|]. simpl.
  apply wp_bind. eapply add_block_ok; [by eapply list_ok_set|by rewrite elem_of_addrs|done..|]. simpl.
  intros bls' Hl' _ Hbls. rewrite insert_insert_eq in Hl' |- *.
  apply wp_bind. eapply (set_bitmap_ok p abs lo hi) with (k := k); [by rewrite lookup_insert_eq|done|lia|apply Hj|]. simpl. rewrite insert_insert_eq.
  apply wp_bind. eapply wp_set_area; [by rewrite lookup_insert_eq|]. simpl. rewrite insert_insert_eq.
  apply HQ. eapply (repr_change p abs lo hi n); [done..| |done].
  exists (flip bm (i / pow (S k))). rewrite length_flip. split_and!; [|done|].
  - change (list_ok lo hi (<[area k := mk_area true (addr i) (Z.of_nat k) bm]> ars) bls' (area k)
      (mk_area true (addr i) (Z.of_nat k) bm) (addrs (i :: F k))) in Hl'.
    eapply list_ok_set in Hl'; [rewrite insert_insert_eq in Hl'; exact Hl'|done].
  - intros Hk9. apply bits_add; [by apply Hbits| |done|done| |done].
    + intros x Hx. by apply (co_range n F A x k Hc (or_introl Hx)).
    + pose proof (co_no _ _ _ Hc' i k Hk9 Hi') as Hb. unfold F' in Hb. rewrite upd_same in Hb.
      intros Hbi. by apply Hb, list_elem_of_further.
Qed.

(** The right halves of a block that is too big become free. *)
Lemma degrade_ok bitp i A H Q t : ∀ fuel ars bls F,
  repr ars bls F ((i, bitp + t)%nat :: A) H → (∀ x, x ∈ H → x ∈ A) → (t ≤ fuel)%nat →
  (∀ ars' bls' F', repr ars' bls' F' ((i, bitp) :: A) H → Q () (st ars' bls')) →
  wp (degrade fuel (addr i) (Z.of_nat bitp + Z.of_nat t - 1) (Z.of_nat bitp)) Q (st ars bls).
Proof.
  induction t as [|t IH]; intros fuel ars bls F Hr Hsub Hf HQ.
  - rewrite Nat.add_0_r in Hr. destruct fuel; cbn [degrade]; rewrite decide_False by lia; apply wp_ret; by eapply HQ.
  - destruct fuel as [|fuel]; [lia|]. cbn [degrade]. rewrite decide_True by lia. set (d := (bitp + t)%nat).
    replace (bitp + S t)%nat with (S d) in Hr by lia. replace (Z.of_nat bitp + Z.of_nat (S t) - 1) with (Z.of_nat d) by lia.
    apply wp_bind, wp_get_pm. cbv zeta.
    replace (addr i + Z.shiftl MIN_BLOCK_SIZE (Z.of_nat d)) with (addr (i + pow d)).
    2: { rewrite Z.shiftl_mul_pow2 by lia. unfold MIN_BLOCK_SIZE. lia. }
    pose proof (rp_cut _ _ _ _ _ _ _ _ _ Hr) as Hc. pose proof (cut_split n F A i d Hc) as Hc'.
    assert (Hin : i + pow d ∈ upd F d (i + pow d :: F d) d) by (rewrite upd_same; apply list_elem_of_here).
    destruct (tile_geometry p abs lo hi n _ _ _ _ Hc' (or_introl Hin)) as (_&_&_&Hi&_&Hd&_). rewrite quot_addr by done.
    eapply put_ok; [exact Hr|done| |exact Hc'|intros x Hx; by apply list_elem_of_further, Hsub|].
    + pose proof (co_nodup _ _ _ Hc' d) as Hnd. rewrite upd_same in Hnd. by apply list.NoDup_cons in Hnd as [? _].
    + intros ars' bls' Hr'. replace (Z.of_nat d - 1) with (Z.of_nat bitp + Z.of_nat t - 1) by lia. by eapply IH; [..|lia|].
Qed.

(** The first free block of a locked order is taken. *)
Lemma take_free_ok ars bls F A k i r a {B} (K : M _ B) Q :
  repr ars bls F A A → (k ≤ 9)%nat → F k = i :: r → ars !! area k = Some a →
  (∀ ars' bls', repr ars' bls' (upd F k r) ((i, k) :: A) A → wp K Q (st ars' bls')) →
  wp (pop_block (area k);; _ ← set_bitmap i (area k); pure_unlock (area k);; K) Q
    (st (<[area k := with_locked true a]> ars) bls).
Proof.
  intros [Hc Har Hh _] Hk E Ha HQ. destruct (Har k Hk) as (bm&Hl&Hlen&Hbits). pose proof (cut_take n F A k i r Hc E) as Hc'.
  assert (Hi : i ∈ F k) by (rewrite E; apply list_elem_of_here). pose proof (index_range F A k i bm Hc (or_introl Hi) Hlen) as Hj.
  destruct (tile_geometry p abs lo hi n F A i k Hc (or_introl Hi)) as (_&_&_&?&Hal&_).
  pose proof (lo_area _ _ _ _ _ _ _ Hl) as Ea. rewrite Ha in Ea. injection Ea as Ea.
  apply (list_ok_set _ _ _ _ _ _ (with_locked true a)) in Hl; [|by rewrite Ea]. rewrite E in Hl, Hbits. change (addrs (i :: r)) with (addr i :: addrs r) in Hl.
  apply wp_bind. eapply pop_block_ok; [exact Hl|]. rewrite Ea. simpl. intros bls' Hl' _ Hbls. rewrite insert_insert_eq in Hl' |- *.
  apply wp_bind. eapply (set_bitmap_ok p abs lo hi) with (k := k); [by rewrite lookup_insert_eq|done|lia|apply Hj|]. simpl. rewrite insert_insert_eq.
  apply wp_bind. eapply wp_set_area; [by rewrite lookup_insert_eq|]. simpl. rewrite insert_insert_eq.
  apply HQ. eapply (repr_change p abs lo hi n); [done|done|done|intros x Hx; by apply list_elem_of_further|done| |done].
  exists (flip bm (i / pow (S k))). rewrite length_flip. split_and!; [|done|].
  - eapply list_ok_set in Hl'; [rewrite insert_insert_eq in Hl'; exact Hl'|done].
  - intros Hk9. apply (bits_remove bm k [] i r); [by apply Hbits| | | |done]; simpl; rewrite <- E.
    + intros x Hx. by apply (co_range n F A x k Hc (or_introl Hx)).
    + apply Hc.
    + by apply (co_no _ _ _ Hc).
Qed.

(** A header is written into the block that goes out. *)
Lemma repr_head ars bls F A i k f :
  repr ars bls F ((i, k) :: A) A → b_free_area (f (default (mk_block 0 0 0) (bls !! addr i))) = area k →
  repr ars (<[addr i := f (default (mk_block 0 0 0) (bls !! addr i))]> bls) F ((i, k) :: A) ((i, k) :: A).
Proof.
  intros [Hc Har Hh Hsub] Ef. assert (Hout : ∀ m, i ∉ F m) by (intros m; eapply (out_not_free n); [done|apply list_elem_of_here]).
  split; [done| | |done].
  - intros m Hm. destruct (Har m Hm) as (bm&Hl&Hrest). exists bm. split; [|done]. eapply list_ok_frame; [done..|].
    intros c (j&->&Hj)%list_elem_of_fmap. apply lookup_insert_ne. intros E. apply (Hout m). by replace i with j by lia.
  - intros j m [[= -> ->]|Hj]%elem_of_cons; [by rewrite lookup_insert_eq; simpl; rewrite Ef|].
    rewrite lookup_insert_ne; [by apply Hh|]. intros E. assert (j = i) as -> by lia.
    pose proof (co_nodup_A _ _ _ Hc) as Hnd. apply list.NoDup_cons in Hnd as [Hn _]. apply Hn.
    assert (m = k) as ->; [|done]. eapply (co_start n); [exact Hc|right; by apply list_elem_of_further|right; apply list_elem_of_here].
Qed.

(** From an order on, the smallest block that is big enough is taken and cut
    down; without one the memory is unchanged. *)
Lemma find_order_ok bitp A Q (Hb : (bitp ≤ 9)%nat) t : ∀ k fuel ars bls F,
  (bitp ≤ k)%nat → (k + t = 10)%nat → (t ≤ fuel)%nat → repr ars bls F A A →
  (∀ m, (bitp ≤ m < k)%nat → F m = []) →
  ((∀ m, (bitp ≤ m ≤ 9)%nat → F m = []) → Q 0 (st ars bls)) →
  (∀ ars' bls' F' i, repr ars' bls' F' ((i, bitp) :: A) ((i, bitp) :: A) → Q (addr i + 24) (st ars' bls')) →
  wp (find_order fuel (Z.of_nat k) (Z.of_nat bitp) (area k) (area bitp)) Q (st ars bls).
Proof.
  induction t as [|t IH]; intros k fuel ars bls F Hbk Hkt Hf Hr Hempty HQ0 HQ1.
  - destruct fuel; cbn [find_order]; rewrite decide_False by (unfold MAX_ORDER; lia); apply wp_ret, HQ0;
      intros m Hm; apply Hempty; lia.
  - destruct fuel as [|fuel]; [lia|]. cbn [find_order]. rewrite decide_True by (unfold MAX_ORDER; lia).
    pose proof Hr as [Hc Har Hh Hsub]. assert (Hk : (k ≤ 9)%nat) by lia.
    destruct (Har k Hk) as (bm&Hl&Hlen&Hbits). pose proof (lo_area _ _ _ _ _ _ _ Hl) as Ea.
    apply wp_bind. eapply wp_lock; [exact Ea|done|]. apply wp_bind. eapply wp_get_area; [by rewrite lookup_insert_eq|]. cbn [freelist with_locked].
    destruct (F k) as [|i r] eqn:E; cbn [fmap list_fmap first hd].
    + rewrite decide_True by done. apply wp_bind. eapply wp_set_area; [by rewrite lookup_insert_eq|]. simpl.
      rewrite insert_insert_eq, insert_id by done. apply wp_bind, wp_get_pm.
      replace (area k + align_area_size p) with (area (S k)) by (unfold area_addr; lia).
      replace (Z.of_nat k + 1) with (Z.of_nat (S k)) by lia.
      eapply IH; [lia|lia|lia|exact Hr| |exact HQ0|exact HQ1].
      intros m Hm. destruct (decide (m = k)) as [->|]; [done|apply Hempty; lia].
    + assert (Hi : i ∈ F k) by (rewrite E; apply list_elem_of_here).
      destruct (tile_geometry p abs lo hi n F A i k Hc (or_introl Hi)) as (?&?&?&?&_).
      rewrite decide_False by lia. apply wp_bind, wp_get_pm. cbv zeta. rewrite shift_addr by done.
      eapply (take_free_ok ars bls F A k i r); [exact Hr|done|done|exact Ea|].
      intros ars' bls' Hr'. apply wp_bind. rewrite Nat2Z.id.
      replace (Z.of_nat k - 1) with (Z.of_nat bitp + Z.of_nat (k - bitp) - 1) by lia.
      eapply degrade_ok; [|intros x Hx; exact Hx|lia|].
      * replace (bitp + (k - bitp))%nat with k by lia. exact Hr'.
      * intros ars2 bls2 F' [Hc2 Har2 Hh2 Hsub2]. apply wp_bind, wp_set_bblock; [done..|]. apply wp_bind, wp_get, wp_ret. simpl.
        assert (Eabs : addr i + abs = addr i + 24) by (by rewrite (gm_abs (Geometry := Hg))). rewrite Eabs. eapply HQ1.
        by apply repr_head.
Qed.

(** ** Release *)

Lemma area_end k : area k < block_start p ↔ (k < 10)%nat.
Proof. destruct Hg as [_ _ ? E _ _]. rewrite E. unfold area_addr. nia. Qed.

(** The shifts of the code, for any index in the block. *)
Lemma covers_index i k index :
  aligned i k → covers i k index → 0 ≤ i < 2 ^ 31 → (k ≤ 9)%nat →
  u32 (Z.shiftl (Z.lxor (Z.shiftr index (Z.of_nat k)) 1) (Z.of_nat k)) = buddy i k ∧
  u32 (Z.shiftl (Z.shiftr index (Z.of_nat k + 1)) (Z.of_nat k + 1)) = parent i k ∧
  index / pow (S k) = i / pow (S k).
Proof.
  intros Ha Hc Hi Hk. pose proof (covers_pair i k index Ha Hc) as E2. split_and!; [| |done].
  - assert (E : Z.shiftr index (Z.of_nat k) = Z.shiftr i (Z.of_nat k)).
    { rewrite !Z.shiftr_div_pow2 by lia. pose proof (aligned_start i k index Ha) as [H1 _].
      pose proof (aligned_start i k i Ha) as [H2 _]. specialize (H1 Hc). specialize (H2 (covers_start i k)).
      pose proof (pow_pos k). apply (Z.mul_reg_r _ _ (pow k)); lia. }
    rewrite E. change (Z.shiftl (Z.lxor (Z.shiftr i (Z.of_nat k)) 1) (Z.of_nat k)) with (buddy i k).
    apply u32_small. pose proof (pow_le_512 k Hk). pose proof (pow_pos k). destruct (parent_bounds i k) as [? ?]; [lia|].
    destruct (buddy_spec i k Ha) as [[? ?]|[? ?]]; lia.
  - rewrite Z.shiftr_div_pow2, Z.shiftl_mul_pow2 by lia. replace (Z.of_nat k + 1) with (Z.of_nat (S k)) by lia.
    rewrite E2. apply u32_small. destruct (parent_bounds i k) as [? ?]; [lia|]. unfold parent in *. lia.
Qed.

(** A block without a free buddy is put on its list, its bit already set. *)
Lemma free_put ars bls F A k i bm {B} (K : Z → M _ B) Q :
  let a := mk_area true (first (addrs (F k)) 0) (Z.of_nat k) (flip bm (i / pow (S k))) in
  cut_ok n F ((i, k) :: A) → areas_ok p lo hi ars bls F → heads_ok p bls A → ((k < 9)%nat → buddy i k ∉ F k) →
  list_ok lo hi (<[area k := a]> ars) bls (area k) a (addrs (F k)) →
  Z.of_nat (length bm) = align_area_size p - 52 → ((k < 9)%nat → bits_ok bm k (F k)) →
  (∀ ars' bls', repr ars' bls' (upd F k (i :: F k)) A A → wp (K (addr i)) Q (st ars' bls')) →
  wp (b ← (add_block (addr i) (area k);; mret (addr i)); pure_unlock (area k);; K b) Q (st (<[area k := a]> ars) bls).
Proof.
  intros a Hc Har Hh Hb Hl Hlen Hbits HQ. pose proof (cut_put n F A i k Hc Hb) as Hc'.
  assert (Hi : tile F ((i, k) :: A) i k) by (right; apply list_elem_of_here).
  assert (Hif : i ∉ F k) by (eapply (out_not_free n); [done|apply list_elem_of_here]).
  destruct (tile_geometry p abs lo hi n _ _ i k Hc Hi) as (?&?&?&?&Ha&_). pose proof (index_range _ _ k i bm Hc Hi Hlen) as Hj.
  apply wp_bind, wp_bind. eapply add_block_ok; [exact Hl|by rewrite elem_of_addrs|done..|]. simpl.
  intros bls' Hl' _ Hbls. rewrite insert_insert_eq in Hl' |- *. apply wp_ret.
  apply wp_bind. eapply wp_set_area; [by rewrite lookup_insert_eq|]. simpl. rewrite insert_insert_eq.
  apply HQ. eapply (repr_change p abs lo hi n); [done..| |done].
  exists (flip bm (i / pow (S k))). rewrite length_flip. split_and!; [|done|].
  - eapply list_ok_set in Hl'; [rewrite insert_insert_eq in Hl'; exact Hl'|done].
  - intros Hk9. apply bits_add; [by apply Hbits| |done|done|by apply Hb|done].
    intros x Hx. by apply (co_range n F _ x k Hc (or_introl Hx)).
Qed.

(** The free buddy leaves its list; the block becomes its parent. *)
Lemma free_merge ars bls F A k i bm {B} (K : Z → M _ B) Q :
  let a := mk_area true (first (addrs (F k)) 0) (Z.of_nat k) (flip bm (i / pow (S k))) in
  cut_ok n F ((i, k) :: A) → areas_ok p lo hi ars bls F → heads_ok p bls A → (k < 9)%nat → buddy i k ∈ F k →
  list_ok lo hi (<[area k := a]> ars) bls (area k) a (addrs (F k)) →
  Z.of_nat (length bm) = align_area_size p - 52 → bits_ok bm k (F k) →
  (∀ ars' bls' l, repr ars' bls' (upd F k l) ((parent i k, S k) :: A) A → wp (K (addr (parent i k))) Q (st ars' bls')) →
  wp (b ← (_ ← del_block (addr (buddy i k)) (area k); mret (addr (parent i k))); pure_unlock (area k);; K b) Q (st (<[area k := a]> ars) bls).
Proof.
  intros a Hc Har Hh Hk9 Hb Hl Hlen Hbits HQ. apply list_elem_of_split in Hb as (l1&l2&E).
  pose proof (cut_merge n F A i k l1 l2 Hc Hk9 E) as Hc'.
  assert (Hi : tile F ((i, k) :: A) i k) by (right; apply list_elem_of_here).
  destruct (tile_geometry p abs lo hi n _ _ i k Hc Hi) as (_&_&_&_&Ha&_). pose proof (index_range _ _ k i bm Hc Hi Hlen) as Hj.
  destruct (buddy_parent i k Ha) as [_ Ebb]. assert (Hif : i ∉ F k) by (eapply (out_not_free n); [done|apply list_elem_of_here]).
  rewrite <- (buddy_pair i k Ha) in Hj. assert (Hnd : NoDup (F k)) by apply Hc. rewrite E in Hbits, Hif, Hnd.
  assert (El : addrs (F k) = addrs l1 ++ addr (buddy i k) :: addrs l2) by (by rewrite E, fmap_app). rewrite El in Hl.
  assert (Hal : ∀ x, x ∈ l1 ++ buddy i k :: l2 → aligned x k).
  { intros x. rewrite <- E. intros Hx. by apply (co_range n F _ x k Hc (or_introl Hx)). }
  apply wp_bind, wp_bind. eapply del_block_ok; [exact Hl|]. cbv zeta. intros Hl'. rewrite insert_insert_eq in Hl' |- *. apply wp_ret.
  apply wp_bind. eapply wp_set_area; [by rewrite lookup_insert_eq|]. simpl. rewrite insert_insert_eq, <- fmap_app in *.
  apply (HQ _ _ (l1 ++ l2)). eapply (repr_change p abs lo hi n); [done|done|done|intros x Hx; by apply list_elem_of_further|done| |].
  - exists (flip bm (i / pow (S k))). rewrite length_flip. split_and!; [|done|].
    + eapply list_ok_set in Hl'; [rewrite insert_insert_eq in Hl'; exact Hl'|done].
    + intros _. rewrite <- (buddy_pair i k Ha). apply bits_remove; [done|done|done|by rewrite Ebb|done].
  - intros c Hnc. rewrite fmap_app in Hnc. apply relink_other; intros Hx; apply Hnc, elem_of_app; tauto.
Qed.

(** Merging with buddies, order by order. *)
Lemma free_loop_ok index A Q t : ∀ k fuel ars bls F i,
  (k + t = 9)%nat → (t < fuel)%nat → cut_ok n F ((i, k) :: A) → areas_ok p lo hi ars bls F → heads_ok p bls A →
  covers i k index →
  (∀ ars' bls' F', repr ars' bls' F' A A → Q () (st ars' bls')) →
  wp (free_loop fuel (addr i) (area k) index) Q (st ars bls).
Proof.
  induction t as [t IH] using lt_wf_ind; intros k fuel ars bls F i Hkt Hf Hc Har Hh Hcov HQ. destruct fuel as [|fuel]; [lia|].
  cbn [free_loop]. apply wp_bind, wp_get_pm. rewrite decide_True by (apply area_end; lia).
  assert (Hk : (k ≤ 9)%nat) by lia. destruct (Har k Hk) as (bm&Hl&Hlen&Hbits). pose proof (lo_area _ _ _ _ _ _ _ Hl) as Ea.
  assert (Hi : tile F ((i, k) :: A) i k) by (right; apply list_elem_of_here).
  destruct (tile_geometry p abs lo hi n _ _ i k Hc Hi) as (_&_&_&Hi2&Ha&_). pose proof (index_range _ _ k i bm Hc Hi Hlen) as Hj.
  destruct (covers_index i k index Ha Hcov Hi2 Hk) as (Eb&Ep&Ej).
  apply wp_bind. eapply wp_get_area; [exact Ea|]. cbn [order]. rewrite Eb, Ep. apply wp_bind. eapply wp_lock; [exact Ea|done|].
  apply wp_bind. eapply (set_bitmap_ok p abs lo hi) with (k := k);
    [by rewrite lookup_insert_eq|done|unfold covers in Hcov; lia|rewrite Ej; apply Hj|].
  rewrite insert_insert_eq, Ej. cbn [pbmap with_locked with_pbmap locked freelist order].
  set (a := mk_area true (first (addrs (F k)) 0) (Z.of_nat k) (flip bm (i / pow (S k)))).
  assert (Hl' : list_ok lo hi (<[area k := a]> ars) bls (area k) a (addrs (F k))) by (by eapply list_ok_set).
  assert (Hbit : (k < 9)%nat → bit bm (i / pow (S k)) = bool_decide (buddy i k ∈ F k)).
  { intros Hk9. apply Bool.eq_iff_eq_true. rewrite bool_decide_eq_true, (Hbits Hk9 _ Hj). split.
    - intros (x&Hx&Ex). destruct (same_pair i x k) as [->| ->]; [done|by apply (co_range n F _ x k Hc (or_introl Hx))|done| |done].
      exfalso. eapply (out_not_free n); [exact Hc|apply list_elem_of_here|exact Hx].
    - intros Hb. exists (buddy i k). split; [done|by apply buddy_pair]. }
  destruct (decide (Z.b2z (negb (bit bm (i / pow (S k)))) = 0 ∧ Z.of_nat k < MAX_ORDER)) as [Hret|Hret].
  - destruct Hret as [Hret Hk9]. assert (Hk9' : (k < 9)%nat) by (unfold MAX_ORDER in Hk9; lia). rewrite (Hbit Hk9') in *.
    case_bool_decide as Hb; [|done]. eapply free_merge; [done..|by apply Hbits|]. intros ars' bls' l Hr'. rewrite decide_True by done.
    replace (area k + align_area_size p) with (area (S k)) by (unfold area_addr; lia).
    eapply (IH (t - 1)%nat); [lia|lia|lia|apply Hr'|apply Hr'|apply Hr'| |exact HQ].
    apply (aligned_start _ _ _ (parent_aligned i k)). by rewrite Ej.
  - assert (Hb : (k < 9)%nat → buddy i k ∉ F k).
    { intros Hk9 Hb. apply Hret. rewrite (Hbit Hk9), bool_decide_true by done. unfold MAX_ORDER. split; [done|lia]. }
    eapply free_put; [done..|]. intros ars' bls' Hr'. destruct (decide (Z.b2z (negb (bit bm (i / pow (S k)))) = 0)) as [Hz|Hz]; [|by eapply wp_ret, HQ].
    assert (k = 9)%nat as ->.
    { destruct (decide (k < 9)%nat) as [Hk9|]; [|lia]. rewrite (Hbit Hk9), bool_decide_false in Hz by auto. done. }
    replace (area 9%nat + align_area_size p) with (area 10%nat) by (unfold area_addr; lia).
    destruct fuel; cbn [free_loop]; (apply wp_bind, wp_get_pm; rewrite decide_False by (rewrite area_end; lia)); by eapply wp_ret, HQ.
Qed.

(** ** The two operations *)

Lemma Free_ok ars bls F A i k Q :
  repr ars bls F ((i, k) :: A) ((i, k) :: A) → (∀ ars' bls' F', repr ars' bls' F' A A → Q () (st ars' bls')) →
  wp (Free (addr i + 24)) Q (st ars bls).
Proof.
  intros [Hc Har Hh _] HQ. assert (Hi : tile F ((i, k) :: A) i k) by (right; apply list_elem_of_here).
  destruct (tile_geometry p abs lo hi n _ _ i k Hc Hi) as (_&_&_&?&_&Hk&_).
  unfold Free. apply wp_bind, wp_get. cbv zeta. change (align_block_size (st ars bls)) with abs. change (Buddy.pm (st ars bls)) with p. assert (E : addr i + 24 - abs = addr i) by (rewrite (gm_abs (Geometry := Hg)); lia).
  rewrite E. pose proof (Hh i k (list_elem_of_here _ _)) as Ef. destruct (bls !! addr i) as [v|] eqn:Ev; [|done].
  injection Ef as Ef. apply wp_bind. eapply wp_get_bblock; [exact Ev|]. rewrite quot_addr, Ef by done.
  eapply (free_loop_ok i A Q (9 - k)); [lia|lia|exact Hc|exact Har| |apply covers_start|exact HQ].
  intros j m Hj. by apply Hh, list_elem_of_further.
Qed.

Lemma Alloc_ok ars bls F A l Q :
  repr ars bls F A A → 0 ≤ order_for l 24 →
  let b := Z.to_nat (order_for l 24) in
  ((9 < b)%nat ∨ (∀ m, (b ≤ m ≤ 9)%nat → F m = []) → Q 0 (st ars bls)) →
  (∀ ars' bls' F' i, (b ≤ 9)%nat → repr ars' bls' F' ((i, b) :: A) ((i, b) :: A) → Q (addr i + 24) (st ars' bls')) →
  wp (Alloc l) Q (st ars bls).
Proof.
  intros Hr Ho b HQ0 HQ1. unfold Alloc. apply wp_bind, wp_get. cbv zeta. change (align_block_size (st ars bls)) with abs. change (Buddy.pm (st ars bls)) with p.
  assert (Eo : order_for l abs = Z.of_nat b) by (rewrite (gm_abs (Geometry := Hg)); lia). rewrite Eo. clear Eo.
  unfold MAX_ORDER. case_decide as Hb.
  - apply wp_ret, HQ0. lia.
  - eapply (find_order_ok b A Q ltac:(lia) (10 - b)); [lia|lia|lia|exact Hr|lia|intros Hm; apply HQ0; by right|].
    intros. eapply HQ1; [lia|eassumption].
Qed.
End ops.

(** ** The size of the blocks *)

(** The code multiplies the request and its header by four in 32 bits, so it
    knows their sum only modulo 2^30. *)
Definition need (l : Z) : Z := (l + 24) `mod` 2 ^ 30.

Lemma need_small l : 0 ≤ l < 2 ^ 30 - 24 → need l = l + 24.
Proof. intros Hl. unfold need. apply Z.mod_small. lia. Qed.

Lemma order_for_need l : order_for l 24 =
  let i := u32 (4 * need l - 1) / 64 in if decide (0 < i) then Z.log2 i else 0.
Proof.
  unfold order_for. rewrite Z.shiftl_mul_pow2, Z.shiftr_div_pow2 by (unfold MIN_BLOCK_SIZE_EXP; lia).
  change (2 ^ MIN_BLOCK_SIZE_EXP) with 64. change (2 ^ 2) with 4.
  replace (u32 (u32 (l + 24) * 4)) with (4 * need l); [done|].
  unfold u32, need. change (2 ^ 32) with (2 ^ 30 * 4). rewrite Zmult_mod_distr_r.
  replace (2 ^ 30 * 4) with (2 ^ 32) by lia.
  rewrite <- (Z.mod_mod_divide (l + 24) (2 ^ 32) (2 ^ 30)); [lia|]. exists 4. lia.
Qed.

(** A block has at least twice what is needed, and less than four times, but
    for what needs less than a quarter of the smallest block; a need of 0 gets
    none. *)
Lemma order_for_spec l :
  let k := order_for l 24 in
  0 ≤ k ∧ (need l = 0 ∧ 9 < k ∨ 0 < need l ∧ 2 * need l ≤ 64 * 2 ^ k ∧ (64 * 2 ^ k < 4 * need l ∨ k = 0)).
Proof.
  rewrite order_for_need. assert (Hn : 0 ≤ need l < 2 ^ 30) by (unfold need; apply Z.mod_pos_bound; lia). revert Hn.
  generalize (need l). intros t Ht. cbv zeta. destruct (decide (t = 0)) as [->|Ht0].
  { change (u32 (4 * 0 - 1) / 64) with 67108863. vm_compute. split; [done|]. by left. }
  rewrite u32_small by lia. set (i := (4 * t - 1) / 64).
  assert (Hi : 64 * i ≤ t * 4 - 1 < 64 * i + 64) by (unfold i; Z.div_mod_to_equations; lia).
  destruct (decide (0 < i)) as [Hp|Hp].
  - destruct (Z.log2_spec i) as [H1 H2]; [lia|]. rewrite Z.pow_succ_r in H2 by apply Z.log2_nonneg.
    split; [apply Z.log2_nonneg|]. right. split; [lia|]. split; [lia|]. left. lia.
  - split; [done|]. right. change (2 ^ 0) with 1. split; [lia|]. split; [lia|by right].
Qed.
