(* ===== verification/BuddyInit.v ===== *)
(** * src/mem_pool/pure_buddy_mem.cpp: the initialisation cuts the buffer into
    the biggest blocks that fit. *)

From S2P Require Import Prelude DLL Buddy BuddyTiles BuddyProofs BuddySpec BuddyHeap.

Local Open Scope Z_scope.

(** One more free block behind the cells that are cut. *)
Lemma cut_append c F k :
  cut_ok c F [] → 0 ≤ c → aligned c k → (k ≤ 9)%nat → ((k < 9)%nat → F k = []) →
  c ∉ F k ∧ cut_ok (c + pow k) (upd F k (c :: F k)) [].
Proof.
  intros Hc Hc0 Ha Hk Hempty. pose proof (pow_pos k).
  assert (Hlt : ∀ j m, j ∈ F m → j < c).
  { intros j m Hj. destruct (co_range c F [] j m Hc (or_introl Hj)) as (_&?&?&_). pose proof (pow_pos m). lia. }
  assert (Hcn : ∀ m, c ∉ F m) by (intros m Hm%Hlt; lia).
  assert (Hmem : ∀ j m, j ∈ upd F k (c :: F k) m ↔ j ∈ F m ∨ (j = c ∧ m = k)).
  { intros j m. destruct (decide (m = k)) as [->|Hm]; [rewrite upd_same, elem_of_cons|rewrite upd_other by done]; tauto. }
  split; [apply Hcn|]. split.
  - apply (tiles_iff _ (λ i m, tile F [] i m ∨ (i = c ∧ m = k))); [|apply tiles_append; [apply Hc|done..]].
    intros j m. unfold tile. rewrite Hmem. tauto.
  - intros m. destruct (decide (m = k)) as [->|Hm]; [|rewrite upd_other by done; apply Hc].
    rewrite upd_same. apply list.NoDup_cons. split; [apply Hcn|apply Hc].
  - constructor.
  - intros j m _ ?%not_elem_of_nil. done.
  - intros j m Hm [Hj|[-> ->]]%Hmem [Hb|[Eb Em]]%Hmem.
    + by apply (co_no _ _ _ Hc j m).
    + subst m. rewrite (Hempty Hm) in Hj. by apply not_elem_of_nil in Hj.
    + rewrite (Hempty Hm) in Hb. by apply not_elem_of_nil in Hb.
    + destruct (buddy_spec c k Ha) as [[? ?]|[? ?]]; lia.
Qed.

Section init.
Context (p : mem) (abs lo hi n : Z) `{Hg : !Geometry p abs lo hi n}.
Context (R : Z) (HR : 64 * n ≤ R < 64 * n + 64 ∧ R < 2 ^ 31).
Implicit Types (ars : gmap Z free_area) (bls : gmap Z b_block) (F : nat → list Z).

Notation addr i := (block_start p + 64 * i).
Notation area k := (area_addr p (Z.of_nat k)).
Notation addrs l := ((λ i, addr i) <$> l).

(** [c] cells are cut into blocks of order [k] and more. *)
Definition at_cell (c : Z) : mem := with_remain (R - 64 * c) p.
Notation st c := (st (at_cell c) abs lo hi).

Record filled (k : nat) ars bls F (c : Z) : Prop := {
  fd_cut : cut_ok c F [];
  fd_cells : 0 ≤ c ≤ n ∧ aligned c k;
  fd_areas m : (k ≤ m ≤ 9)%nat → area_ok p lo hi ars bls m (F m);
  fd_rest m : (m < k)%nat → F m = [] ∧ ars !! area m = Some (zero_area (align_area_size p)) }.

Lemma fill_order_ok k Q (Hk : (k ≤ 9)%nat) fuel : ∀ ars bls F c,
  filled k ars bls F c →
  ((k < 9)%nat → F k = [] ∧ R - 64 * c < 64 * pow (S k) ∨ R - 64 * c < 64 * pow k) →
  (R - 64 * c) / (64 * pow k) ≤ Z.of_nat fuel →
  (∀ ars' bls' F' c', filled k ars' bls' F' c' → R - 64 * c' < 64 * pow k → Q (addr c') (st c' ars' bls')) →
  wp (fill_order fuel (area k) (64 * pow k) (addr c)) Q (st c ars bls).
Proof.
  induction fuel as [|fuel IH]; intros ars bls F c Hfd Hone Hf HQ; pose proof Hfd as [Hc [[Hc0 Hcn] Ha] Har Hrest];
    pose proof (pow_pos k) as Hpow; cbn [fill_order]; (apply wp_bind, wp_gets; change (Buddy.pm (st c ars bls)) with (at_cell c); change (remain_len (at_cell c)) with (R - 64 * c)).
  - assert ((R - 64 * c) / (64 * pow k) = 0) as Hz by (pose proof (Z.div_pos (R - 64 * c) (64 * pow k) ltac:(lia) ltac:(lia)); lia).
    apply Z.div_small_iff in Hz; [|lia]. rewrite decide_False by lia. apply wp_ret. apply (HQ _ _ F); [done|lia].
  - destruct (decide (64 * pow k ≤ R - 64 * c)) as [Hfit|Hfit]; [|apply wp_ret, (HQ _ _ F); [done|lia]].
    assert (Hempty : (k < 9)%nat → F k = []) by (intros Hk9; destruct (Hone Hk9) as [[? _]|?]; [done|lia]).
    destruct (cut_append c F k) as [Hcf Hc']; [done..|].
    destruct (Har k) as (bm&Hl&Hlen&Hbits); [lia|].
    pose proof Hg as [_ [? ?] ? Est [? [? ?]] ?]. assert (Hcp : c + pow k ≤ n) by lia.
    assert (Hj : 0 ≤ c / pow (S k) < 8 * Z.of_nat (length bm)).
    { rewrite Hlen. split; [apply Z.div_pos; [done|apply pow_pos]|]. apply Z.div_lt_upper_bound; [apply pow_pos|]. rewrite pow_S. nia. }
    apply wp_bind. eapply add_block_ok; [exact Hl|by rewrite elem_of_addrs|lia..|]. simpl. intros bls' Hl' _ Hbls.
    cbv zeta. rewrite quot_addr by lia. apply wp_bind.
    eapply (set_bitmap_ok (at_cell c) abs lo hi) with (k := k); [by rewrite lookup_insert_eq|done|lia|apply Hj|]. simpl. rewrite insert_insert_eq.
    apply wp_bind, wp_modify.
    replace (addr c + 64 * pow k) with (addr (c + pow k)) by lia.
    set (F' := upd F k (c :: F k)) in *. set (a' := with_pbmap _ _). set (ars' := <[area k := a']> ars).
    assert (Est' : with_pm (with_remain (remain_len (at_cell c) - 64 * pow k) (at_cell c)) (st c ars' bls') = st (c + pow k) ars' bls').
    { unfold with_pm, at_cell, BuddyProofs.st. simpl. f_equal. unfold with_remain. simpl. f_equal. lia. }
    change (with_pm _ _) with (with_pm (with_remain (remain_len (at_cell c) - 64 * pow k) (at_cell c)) (st c ars' bls')).
    rewrite Est'. apply IH with F'; [| | |exact HQ].
    + split; [done| | |].
      * split; [lia|]. unfold aligned in *. rewrite <- (Z.mul_1_l (pow k)) at 1. by rewrite Z_mod_plus_full.
      * intros m Hm. unfold F', ars'. destruct (decide (m = k)) as [->|Hne].
        -- rewrite upd_same. exists (flip bm (c / pow (S k))). rewrite length_flip. split_and!; [|done|].
           ++ eapply list_ok_set in Hl'; [rewrite insert_insert_eq in Hl'; exact Hl'|done].
           ++ intros Hk9. apply bits_add; [by apply Hbits| |done|done|by rewrite (Hempty Hk9); apply not_elem_of_nil|done].
              intros x Hx. by apply (co_range c F [] x k Hc (or_introl Hx)).
        -- rewrite upd_other by done. eapply (area_frame p abs lo hi n) with (l' := c :: F k); [apply Har; lia|done| |exact Hbls].
           intros i Hi Hik. apply Hne. eapply (free_start_once (c + pow k)); [exact Hc'| |by unfold F'; rewrite upd_same]. unfold F'. by rewrite upd_other.
      * intros m Hm. unfold F', ars'. rewrite upd_other by lia. destruct (Hrest m Hm) as [? ?]. split; [done|].
        rewrite lookup_insert_ne; [done|]. intros E%(area_inj p abs lo hi n). lia.
    + intros Hk9. right. destruct (Hone Hk9) as [[_ ?]|?]; [rewrite pow_S in *; lia|lia].
    + replace (R - 64 * (c + pow k)) with ((R - 64 * c) + (-1) * (64 * pow k)) by lia. rewrite Z.div_add by lia. lia.
Qed.

(** Order by order; in the end less than a cell is left. *)
Lemma init_orders_ok Q k : ∀ ars bls F c,
  (k ≤ 10)%nat → filled k ars bls F c → ((k ≤ 9)%nat → R - 64 * c < 64 * pow k) →
  (∀ ars' bls' F', cut_ok n F' [] → areas_ok p lo hi ars' bls' F' → Q () (st n ars' bls')) →
  wp (init_orders k (area_addr p (Z.of_nat k - 1)) (addr c)) Q (st c ars bls).
Proof.
  induction k as [|k IH]; intros ars bls F c Hk Hfd Hrem HQ; pose proof Hfd as [Hc [[Hc0 Hcn] Ha] Har Hrest]; cbn [init_orders].
  - assert (c = n) as -> by (pose proof (Hrem ltac:(lia)); change (pow 0) with 1 in *; lia).
    apply wp_ret, (HQ _ _ F); [done|]. intros m Hm. apply Har. lia.
  - replace (Z.of_nat (S k) - 1) with (Z.of_nat k) by lia. destruct (Hrest k) as [HF Hz]; [lia|].
    assert (Eb : Z.shiftl MIN_BLOCK_SIZE (Z.of_nat k) = 64 * pow k) by (rewrite Z.shiftl_mul_pow2 by lia; done).
    cbv zeta. rewrite Eb. apply wp_bind. eapply wp_set_area; [exact Hz|].
    set (ars1 := <[area k := _]> ars). pose proof (pow_pos k). pose proof (gm_areas (Geometry := Hg)).
    apply wp_bind, wp_gets. change (Buddy.pm (st c ars1 bls)) with (at_cell c). change (remain_len (at_cell c)) with (R - 64 * c).
    assert (Hfd1 : filled k ars1 bls F c).
    { split; [done|split; [done|]| |].
      - by apply aligned_half.
      - intros m Hm. destruct (decide (m = k)) as [->|Hne].
        + rewrite HF. exists (replicate (Z.to_nat (align_area_size p - offset_pbmap)) 0). split_and!.
          * split; [by unfold ars1; rewrite lookup_insert_eq|done..|constructor|intros b ?%not_elem_of_nil; done].
          * rewrite length_replicate. unfold offset_pbmap. lia.
          * intros _ j Hj. split; [|by intros (x&?%not_elem_of_nil&_)]. unfold bit. rewrite nth_lookup.
            destruct (replicate _ 0 !! _) as [v|] eqn:Ev; [|by rewrite Z.testbit_0_l].
            apply lookup_replicate in Ev as [-> _]. simpl. by rewrite Z.testbit_0_l.
        + eapply (area_frame p abs lo hi n) with (l' := []); [apply Har; lia|done| |done]. intros i _. apply not_elem_of_nil.
      - intros m Hm. destruct (Hrest m) as [? ?]; [lia|]. split; [done|]. unfold ars1. rewrite lookup_insert_ne; [done|].
        intros E%(area_inj p abs lo hi n). lia. }
    apply wp_bind. eapply (fill_order_ok k); [lia|exact Hfd1| | |].
    + intros Hk9. left. split; [done|]. apply Hrem. lia.
    + rewrite Z2Nat.id; [done|]. apply Z.div_pos; lia.
    + intros ars' bls' F' c' Hfd' Hrem'. replace (area k - align_area_size (at_cell c)) with (area_addr p (Z.of_nat k - 1)).
      2: { unfold area_addr. simpl. lia. }
      eapply IH; [lia|exact Hfd'|done|exact HQ].
Qed.
End init.

(** ** The whole initialisation *)

Lemma cut_none : cut_ok 0 (λ _, []) [].
Proof.
  assert (Hno : ∀ i k, ¬ tile (λ _, []) [] i k) by (intros i k [?%not_elem_of_nil|?%not_elem_of_nil]; done).
  split; [|intros k; apply NoDup_nil_2|apply NoDup_nil_2|intros i k ?%not_elem_of_nil; done|intros i k _ ?%not_elem_of_nil; done].
  split; [intros i k []%Hno|intros i k j m x []%Hno|lia].
Qed.

Lemma areas_zeroed p k :
  0 < align_area_size p → (k < 10)%nat →
  (list_to_map ((λ k, (area_addr p (Z.of_nat k), zero_area (align_area_size p))) <$> seq 0 10) : gmap Z free_area)
    !! area_addr p (Z.of_nat k) = Some (zero_area (align_area_size p)).
Proof.
  intros Ha Hk. apply elem_of_list_to_map_1.
  - rewrite <- list_fmap_compose. apply NoDup_fmap_2_strong; [|apply NoDup_seq].
    intros i j _ _ E. simpl in E. unfold area_addr in E. nia.
  - apply list_elem_of_fmap. exists k. split; [done|]. apply elem_of_seq. lia.
Qed.

(** What is left for blocks when [r] bytes are left behind the header. *)
Definition area_bytes (r : Z) : Z := round_up (56 + Z.shiftr (Z.quot r 64 + 15) 4) 64.
Lemma area_bytes_spec r :
  64 ≤ r < 2 ^ 31 →
  r / 64 ≤ 16 * (area_bytes r - 52) ∧ 52 < area_bytes r ∧ 1024 * area_bytes r ≤ r + 122880 ∧
  pure_align_u32 (u32 (sizeof_free_area + Z.shiftr (Z.quot r MIN_BLOCK_SIZE + 15) (3 + 1))) CACHE_LINE_SIZE = area_bytes r.
Proof.
  intros Hr. unfold area_bytes. assert (E : Z.shiftr (Z.quot r 64 + 15) 4 = (r / 64 + 15) / 16).
  { rewrite Z.shiftr_div_pow2, Z.quot_div_nonneg by lia. done. }
  rewrite E. set (bits := (r / 64 + 15) / 16).
  assert (Hbits : r / 64 ≤ 16 * bits ∧ 1 ≤ bits ∧ 1024 * bits ≤ r + 960).
  { unfold bits. Z.div_mod_to_equations. lia. }
  destruct (round_up_spec (56 + bits) 64) as [? _]; [lia|]. split_and!; [lia..|].
  unfold sizeof_free_area, CACHE_LINE_SIZE, MIN_BLOCK_SIZE. change (3 + 1) with 4. rewrite E. fold bits. change 64 with (2 ^ 6) at 1 2.
  rewrite u32_small by lia. apply (pure_align_u32_spec 6); lia.
Qed.

Section init_free.
Context (abs lo hi l0 bs0 aas0 fs r : Z) (ars : gmap Z free_area) (bls : gmap Z b_block).
Context (Habs : abs = 24) (Hlo : 0 < lo ≤ fs) (Hr : 64 ≤ r < 2 ^ 31) (Hhi : fs + r ≤ hi).

Lemma init_free_ok (Q : Z → CBuddymem → Prop) :
  (r < area_bytes r * 10 → ∀ σ, Q (-1) σ) →
  (let n := (r - area_bytes r * 10) / 64 in area_bytes r * 10 ≤ r →
    ∀ p ars bls F, Geometry p abs lo hi n → repr p lo hi n ars bls F [] [] → Q 0 (st p abs lo hi ars bls)) →
  wp init_free Q (st (mk_mem l0 r fs bs0 aas0) abs lo hi ars bls).
Proof.
  intros Hsmall HQ. destruct (area_bytes_spec r Hr) as (Hn&Ha52&Hamax&Ea). set (aas := area_bytes r) in *.
  unfold init_free. apply wp_bind, wp_gets. cbn [Buddy.pm BuddyProofs.st remain_len].  cbv zeta. rewrite Ea. change (MAX_ORDER + 1) with 10.
  apply wp_bind, wp_modify. rewrite (u32_small r), (u32_small (aas * 10)) by lia. case_decide as Hfit.
  { apply wp_ret. by apply Hsmall. }
  specialize (HQ ltac:(lia)). set (n := (r - aas * 10) / 64) in *.
  cbn [with_pm Buddy.pm BuddyProofs.st len remain_len free_start block_start align_area_size align_block_size areas blocks buf_start buf_end].
  apply wp_bind, wp_get. rewrite decide_True by (unfold inside; simpl; lia). apply wp_bind, wp_gets.
  change (MAX_ORDER + 1) with 10 in *. cbn [Buddy.pm free_start]. apply wp_bind, wp_modify, wp_bind, wp_modify, wp_bind, wp_gets.
  unfold with_areas. cbn [with_pm Buddy.pm len remain_len free_start block_start align_area_size align_block_size areas blocks buf_start buf_end].
  set (R := r - aas * 10). assert (Er : s32 (u32 r - aas * 10) = R) by (rewrite (u32_small r) by lia; apply s32_small; lia).
  rewrite Er. set (p := mk_mem l0 R fs (fs + aas * 10) aas).
  set (arsZ := list_to_map ((λ k, (area_addr p (Z.of_nat k), zero_area (align_area_size p))) <$> seq 0 10) : gmap Z free_area).
  match goal with |- wp _ _ ?s => change s with (BuddyProofs.st p abs lo hi arsZ bls) end.
  assert (Ep : at_cell p R 0 = p) by (unfold at_cell, with_remain, p; simpl; f_equal; lia).
  assert (HR : 64 * n ≤ R < 64 * n + 64 ∧ R < 2 ^ 31) by (unfold n, R; Z.div_mod_to_equations; lia).
  assert (HG : ∀ c, Geometry (at_cell p R c) abs lo hi n).
  { intros c. assert (n ≤ r / 64) by (apply Z.div_le_mono; lia). split; simpl; lia. }
  pose proof (HG 0) as HG0. rewrite Ep in HG0.
  replace (BuddyProofs.st p abs lo hi arsZ bls) with (BuddyProofs.st (at_cell p R 0) abs lo hi arsZ bls) by (by rewrite Ep).
  replace (fs + aas * 10) with (block_start p + 64 * 0) by (unfold p; simpl; lia).
  apply wp_bind. apply (init_orders_ok p abs lo hi n R HR _ 10 arsZ bls (λ _, []) 0); [lia| |lia|].
  - split; [apply cut_none|split; [|done]| |].
    + split; [lia|]. unfold n. apply Z.div_pos; lia.
    + lia.
    + intros m Hm. split; [done|]. apply areas_zeroed; [simpl; lia|done].
  - intros ars' bls' F' Hc Har. apply wp_ret. apply (HQ _ _ _ F' (HG n)). split; [exact Hc|exact Har|intros ? ? ?%not_elem_of_nil; done|done].
Qed.
End init_free.
