(* ===== verification/BuddyTheorems.v ===== *)
(** * src/mem_pool/pure_buddy_mem.cpp: the allocator as a choice of blocks that
    do not overlap. *)

From S2P Require Import Prelude DLL Buddy BuddyTiles BuddyProofs BuddySpec BuddyHeap BuddyOps BuddyInit.

Local Open Scope Z_scope.

(** ** Using the allocator *)

Inductive op := Get (l : Z) | Put (i : nat).

(** A client that holds pointers: it asks for [l] bytes, or gives back one it
    holds. *)
Definition run_op (o : op) (held : list Z) : B (Z * list Z) :=
  match o with
  | Get l => r ← Alloc l; mret (r, if decide (r = 0) then held else held ++ [r])
  | Put i =>
      match held !! i with
      | Some d => Free d;; mret (0, delete i held)
      | None => mret (0, held)
      end
  end.
Fixpoint run_ops (os : list op) (held : list Z) : B (list Z * list Z) :=
  match os with
  | [] => mret ([], held)
  | o :: os => '(a, held) ← run_op o held; '(l, held) ← run_ops os held; mret (a :: l, held)
  end.

(** ** What it promises *)

(** A request needs a header; its block has at least twice the bytes, and less
    than four times or the smallest size.  What is needed is counted modulo
    2^30, so only a request below 2^30 - 24 bytes gets a block that holds it. *)
Definition order_of (l : Z) (k : nat) : Prop :=
  0 < need l ∧ 2 * need l ≤ 64 * pow k ∧ (64 * pow k < 4 * need l ∨ k = 0%nat).

Lemma order_of_holds l k : 0 ≤ l < 2 ^ 30 - 24 → order_of l k → 2 * (l + 24) ≤ 64 * pow k < 4 * (l + 24).
Proof.
  intros Hl (_&H1&H2). rewrite need_small in * by done. split; [done|]. destruct H2 as [?| ->]; [done|]. change (pow 0) with 1 in *. lia.
Qed.
Definition overlap (i : Z) (k : nat) (j : Z) (m : nat) : Prop := ∃ x, covers i k x ∧ covers j m x.

(** The blocks [A] are out, of [n] cells.  A request is answered with some
    block that is aligned to its size and overlaps none of them, and is
    refused only when it is too large or there is no such block. *)
Inductive spec_op (n : Z) : op → list (Z * nat) → option Z → list (Z * nat) → Prop :=
  | spec_get l A i k : order_of l k → (k ≤ 9)%nat → aligned i k → 0 ≤ i → i + pow k ≤ n →
      (∀ j m, (j, m) ∈ A → ¬ overlap i k j m) → spec_op n (Get l) A (Some i) (A ++ [(i, k)])
  | spec_large l A : need l = 0 ∨ 16384 < need l → spec_op n (Get l) A None A
  | spec_full l A k : order_of l k →
      (∀ i, aligned i k → 0 ≤ i → i + pow k ≤ n → ∃ j m, (j, m) ∈ A ∧ overlap i k j m) → spec_op n (Get l) A None A
  | spec_put i A : (i < length A)%nat → spec_op n (Put i) A None (delete i A)
  | spec_none i A : (length A ≤ i)%nat → spec_op n (Put i) A None A.
Inductive spec_ops (n : Z) : list op → list (Z * nat) → list (option Z) → list (Z * nat) → Prop :=
  | spec_nil A : spec_ops n [] A [] A
  | spec_cons o os A a A1 l A2 : spec_op n o A a A1 → spec_ops n os A1 l A2 → spec_ops n (o :: os) A (a :: l) A2.

Definition pointer (base : Z) (a : option Z) : Z := if a is Some i then base + 64 * i + 24 else 0.

(** ** The tiling keeps the promise *)

Lemma repr_permutation p lo hi n ars bls F A A' :
  A ≡ₚ A' → repr p lo hi n ars bls F A A → repr p lo hi n ars bls F A' A'.
Proof.
  intros HA [[H1 H2 H3 H4 H5] Har Hh _]. split; [split|done| |done].
  - eapply tiles_iff; [|exact H1]. intros i k. unfold tile. by rewrite HA.
  - done.
  - by rewrite <- HA.
  - intros i k. rewrite <- HA. apply H4.
  - done.
  - intros i k. rewrite <- HA. apply Hh.
Qed.

Lemma out_apart n F A x y i k j m :
  cut_ok n F A → x ≠ y → A !! x = Some (i, k) → A !! y = Some (j, m) → ¬ overlap i k j m.
Proof.
  intros Hc Hxy Hx Hy (z&Hz1&Hz2). apply Hxy.
  destruct (tl_disjoint n _ (co_tiles _ _ _ Hc) i k j m z) as [-> ->]; [right; by eapply list_elem_of_lookup_2..|done|done|].
  eapply NoDup_lookup; [exact (co_nodup_A _ _ _ Hc)|exact Hx|exact Hy].
Qed.

(** Without a free block of the order or more, every place for one is taken. *)
Lemma full_spec n F A k :
  cut_ok n F A → (k ≤ 9)%nat → (∀ m, (k ≤ m ≤ 9)%nat → F m = []) →
  ∀ i, aligned i k → 0 ≤ i → i + pow k ≤ n → ∃ j m, (j, m) ∈ A ∧ overlap i k j m.
Proof.
  intros Hc Hk Hempty i Ha Hi Hin.
  destruct (decide (Exists (λ jm, jm.1 < i + pow k ∧ i < jm.1 + pow jm.2) A)) as [Hex|Hno].
  - apply list.Exists_exists in Hex as ([j m]&Hjm&H1&H2). simpl in *. exists j, m. split; [done|].
    exists (Z.max i j). pose proof (pow_pos k). pose proof (pow_pos m). unfold covers. lia.
  - exfalso. assert (Hfree : ∀ j m x, tile F A j m → covers j m x → covers i k x → j ∈ F m).
    { intros j m x [?|HA] Hx Hy; [done|]. exfalso. apply Hno, list.Exists_exists. exists (j, m). split; [done|].
      unfold covers in *. simpl. lia. }
    destruct (covered_is_block n (tile F A) (λ j m, j ∈ F m) (co_tiles _ _ _ Hc) (co_no _ _ _ Hc) k i Hk Ha Hi Hin) as [_ Hf].
    + intros j m x Ht Hx Hy. pose proof (Hfree j m x Ht Hx Hy) as Hj. split; [|done]. destruct (decide (m ≤ k)%nat) as [|Hm]; [done|].
      exfalso. destruct (co_range n F A j m Hc Ht) as [Hm9 _]. rewrite Hempty in Hj by lia. by apply not_elem_of_nil in Hj.
    + rewrite Hempty in Hf by lia. by apply not_elem_of_nil in Hf.
Qed.

Section refinement.
Context (lo hi n : Z).

(** The pointers to the blocks [A] are held. *)
Definition uses (base : Z) (σ : CBuddymem) (A : list (Z * nat)) : Prop := ∃ p ars bls F,
  Geometry p 24 lo hi n ∧ block_start p = base ∧ σ = st p 24 lo hi ars bls ∧ repr p lo hi n ars bls F A A.

Definition held_of (base : Z) (A : list (Z * nat)) : list Z := (λ ik, base + 64 * ik.1 + 24) <$> A.

Lemma buddy_op_ok base o A σ :
  uses base σ A →
  wp (run_op o (held_of base A)) (λ r σ', ∃ a A', r = (pointer base a, held_of base A') ∧
    spec_op n o A a A' ∧ uses base σ' A') σ.
Proof.
  intros (p&ars&bls&F&Hg&<-&->&Hr). pose proof (rp_cut _ _ _ _ _ _ _ _ _ Hr) as Hc. destruct o as [l|x]; simpl.
  - destruct (order_for_spec l) as [Hk0 Hk]. set (k := Z.to_nat (order_for l 24)).
    assert (Eo : order_of l k ∨ need l = 0 ∧ (9 < k)%nat).
    { unfold order_of. unfold k at 1 2 4. rewrite Z2Nat.id by lia. destruct Hk as [[? ?]|(?&?&H)]; [right; lia|left].
      split_and!; [done..|]. destruct H as [?|H]; [by left|right]. lia. }
    apply wp_bind. eapply (Alloc_ok p 24 lo hi n); [exact Hr|done| |]; fold k.
    + intros Hwhy. apply wp_ret. exists None, A. rewrite decide_True by done. split; [done|]. split.
      * destruct (decide (k ≤ 9)%nat) as [Hk9|Hk9].
        -- destruct Eo as [Eo|[_ ?]]; [|lia]. eapply spec_full; [exact Eo|]. eapply full_spec; [exact Hc|done|]. by destruct Hwhy; [lia|].
        -- apply spec_large. destruct Eo as [(_&_&Eo)|[Eo _]]; [right|by left]. destruct Eo as [Eo| ?]; [|lia]. assert (pow 10 ≤ pow k) by (apply Z.pow_le_mono_r; lia).
           change (pow 10) with 1024 in *. lia.
      * by exists p, ars, bls, F.
    + intros ars' bls' F' i Hk9 Hr'. apply wp_ret. pose proof (rp_cut _ _ _ _ _ _ _ _ _ Hr') as Hc'.
      assert (Hi : tile F' ((i, k) :: A) i k) by (right; apply list_elem_of_here).
      destruct (co_range n F' _ i k Hc' Hi) as (_&Hi0&Hin&Ha). destruct (tile_geometry p 24 lo hi n F' _ i k Hc' Hi) as (?&_).
      exists (Some i), (A ++ [(i, k)]). rewrite decide_False by lia. split; [|split].
      * unfold held_of. rewrite fmap_app. done.
      * destruct Eo as [Eo|[_ ?]]; [|lia]. apply spec_get; try done. intros j m Hjm. apply list_elem_of_lookup in Hjm as [y Hy].
        by apply (out_apart n F' _ 0 (S y) i k j m Hc').
      * exists p, ars', bls', F'. split_and!; [done..|]. eapply repr_permutation; [|exact Hr']. apply Permutation_cons_append.
  - unfold held_of. rewrite list_lookup_fmap. destruct (A !! x) as [[i k]|] eqn:Ex; simpl.
    + assert (Hr2 : repr p lo hi n ars bls F ((i, k) :: delete x A) ((i, k) :: delete x A)).
      { eapply repr_permutation; [|exact Hr]. by apply delete_Permutation. }
      apply wp_bind. eapply (Free_ok p 24 lo hi n); [exact Hr2|]. intros ars' bls' F' Hr'. apply wp_ret.
      exists None, (delete x A). split; [by rewrite list_fmap_delete|]. split; [constructor; by eapply lookup_lt_Some|]. by exists p, ars', bls', F'.
    + apply wp_ret. exists None, A. split; [done|]. split; [|by exists p, ars, bls, F].
      constructor. by apply lookup_ge_None.
Qed.

Lemma buddy_ops_ok base os : ∀ A σ,
  uses base σ A →
  wp (run_ops os (held_of base A)) (λ r σ', ∃ l A', r = (pointer base <$> l, held_of base A') ∧
    spec_ops n os A l A' ∧ uses base σ' A') σ.
Proof.
  induction os as [|o os IH]; intros A σ Hu; cbn [run_ops].
  - apply wp_ret. exists [], A. split; [done|]. split; [constructor|done].
  - apply wp_bind. eapply wp_mono; [by apply buddy_op_ok|].
    intros ? σ1 (a&A1&->&Hop&Hu1). apply wp_bind. eapply wp_mono; [by apply IH|].
    intros ? σ2 (l&A2&->&Hops&Hu2). apply wp_ret. exists (a :: l), A2. split; [done|]. split; [by econstructor|done].
Qed.
End refinement.

(** ** From an empty buffer on *)

Lemma init_ok b l p abs ars bls :
  0 < b → b + l < 2 ^ 63 → 2048 ≤ l < 2 ^ 31 →
  wp (init_buddy_mem b l) (λ r σ, r = 0 ∧ ∃ base n,
    b + 96 ≤ base ∧ base + 64 * n ≤ b + l ∧ l - l / 64 - 1400 ≤ 64 * n ∧ uses b (b + l) n base σ []) (mk_buddy p abs ars bls b (b + l)).
Proof.
  intros Hb Hbl Hl. unfold init_buddy_mem.
  destruct (round_up_spec b 64) as [Hpm Hpm64]; [lia|].
  assert (Epm : pure_align_ptr b CACHE_LINE_SIZE = round_up b 64) by (apply (pure_align_ptr_spec 6); lia). rewrite Epm.
  set (pm := round_up b 64) in *. cbv zeta. rewrite decide_False by (unfold sizeof_mem; lia). apply wp_bind, wp_get.
  rewrite decide_True by (unfold inside, sizeof_mem; simpl; lia).
  assert (Efs : pure_align_ptr (pm + sizeof_mem) CACHE_LINE_SIZE = pm + 64).
  { unfold sizeof_mem. rewrite (pure_align_ptr_spec 6) by lia. change (2 ^ 6) with 64. unfold round_up.
    replace (pm + 32 + 64 - 1) with (31 + (pm / 64 + 1) * 64) by (Z.div_mod_to_equations; lia). rewrite Z_mod_plus_full.
    change (31 `mod` 64) with 31. Z.div_mod_to_equations; lia. }
  rewrite Efs. apply wp_bind, wp_modify, wp_bind, wp_modify, wp_bind, wp_gets.
  set (r := l - (pm - b) - 64). assert (Hr : 64 ≤ r < 2 ^ 31) by (unfold r; lia).
  assert (Er : s32 (l - (pm - b) - (pm + 64 - pm)) = r) by (rewrite s32_small; unfold r; lia). rewrite Er.
  cbn [with_pm Buddy.pm remain_len]. rewrite decide_False by (unfold MIN_BLOCK_SIZE; lia).
  match goal with |- wp _ _ (with_pm ?q _) => change (with_pm q _) with (BuddyProofs.st q 24 b (b + l) ars bls) end.
  destruct (area_bytes_spec r Hr) as (_&_&Hmax&_). assert (Hr2 : l - 127 ≤ r) by (unfold r; lia).
  apply init_free_ok; [done|lia|done|unfold r; lia|lia|]. intros n Hfit q ars' bls' F Hg Hrp.
  split; [done|]. exists (block_start q), n. pose proof Hg as [? ? ? Hst ? ?].
  split_and!; [lia|lia|unfold n; Z.div_mod_to_equations; lia|by exists q, ars', bls', F].
Qed.

(** C16. The buddy allocator in a buffer of [l] bytes, 2048 or more, used by any
    sequence of requests, of any size, and releases of what is held, never fails
    and does what [spec_ops] says: there are [n] cells, all of the buffer but a
    64th and 1400 bytes; a request is answered with a block of its order,
    aligned and overlapping no block that is out, and is refused only when it is
    too large or no such block is left; so releases merge blocks again as far as
    possible.  The order is that of the request and its header modulo 2^30: a
    request below 2^30 - 24 bytes gets a block of at least twice and less than
    four times its size and header, and is too large from 16361 bytes on; those
    above may get a block that is too small. *)
Theorem buddy_refines b l p abs ars bls os :
  0 < b → b + l < 2 ^ 63 → 2048 ≤ l < 2 ^ 31 →
  ∃ base n answers A σ,
    (init_buddy_mem b l;; run_ops os []) (mk_buddy p abs ars bls b (b + l)) = Some ((pointer base <$> answers, held_of base A), σ) ∧
    b + 96 ≤ base ∧ base + 64 * n ≤ b + l ∧ l - l / 64 - 1400 ≤ 64 * n ∧
    spec_ops n os [] answers A ∧
    (∀ r k, 0 ≤ r < 2 ^ 30 - 24 → order_of r k → 2 * (r + 24) ≤ 64 * pow k < 4 * (r + 24)) ∧
    (∀ r, 0 ≤ r < 2 ^ 30 - 24 → 16384 < need r ↔ 16360 < r) ∧
    (∀ i k, (i, k) ∈ A → 0 ≤ i ∧ i + pow k ≤ n) ∧
    (∀ x y i k j m, x ≠ y → A !! x = Some (i, k) → A !! y = Some (j, m) → ¬ overlap i k j m).
Proof.
  intros Hb Hbl Hl.
  assert (H : wp (init_buddy_mem b l;; run_ops os []) (λ r σ, ∃ base n answers A, r = (pointer base <$> answers, held_of base A) ∧
    b + 96 ≤ base ∧ base + 64 * n ≤ b + l ∧ l - l / 64 - 1400 ≤ 64 * n ∧ spec_ops n os [] answers A ∧
    uses b (b + l) n base σ A) (mk_buddy p abs ars bls b (b + l))).
  { apply wp_bind. eapply wp_mono; [by apply init_ok|]. intros r σ (_&base&n&?&?&?&Hu).
    eapply wp_mono; [by apply (buddy_ops_ok b (b + l) n base os [] σ)|]. intros r' σ' (a&A&->&Hops&Hu'). by exists base, n, a, A. }
  apply wp_elim in H as (r&σ&E&base&n&a&A&->&?&?&?&Hops&Hu). exists base, n, a, A, σ. split_and!; try done;
    destruct Hu as (q&ars'&bls'&F&_&_&_&Hr); pose proof (rp_cut _ _ _ _ _ _ _ _ _ Hr) as Hc.
  - intros r k. apply order_of_holds.
  - intros r Hr0. rewrite need_small by done. lia.
  - intros i k Hik. destruct (co_range n F A i k Hc (or_intror Hik)) as (_&?&?&_). lia.
  - intros x y i k j m. by apply (out_apart n F A).
Qed.

(** 64 KB: the block of 100 bytes is given back, 16361 bytes are refused, and
    so is a second block of 16 KB. *)
Lemma buddy_refines_witness :
  let os := [Get 100; Get 5000; Put 0; Get 16361; Get 16360; Get 8000] in
  ∃ base n answers A σ,
    (init_buddy_mem 4096 65536;; run_ops os []) (mk_buddy (mk_mem 0 0 0 0 0) 0 ∅ ∅ 4096 (4096 + 65536))
      = Some (([68952; 38232; 0; 0; 5464; 0], [38232; 5464]), σ) ∧
    pointer base <$> answers = [68952; 38232; 0; 0; 5464; 0] ∧ held_of base A = [38232; 5464] ∧ spec_ops n os [] answers A.
Proof.
  intros os. destruct (buddy_refines 4096 65536 (mk_mem 0 0 0 0 0) 0 ∅ ∅ os) as (base&n&answers&A&σ&E&_&_&_&Hops&_).
  - lia.
  - lia.
  - lia.
  - exists base, n, answers, A, σ.
    assert (Ev : (λ r, r.1) <$> (init_buddy_mem 4096 65536;; run_ops os []) (mk_buddy (mk_mem 0 0 0 0 0) 0 ∅ ∅ 4096 (4096 + 65536))
      = Some ([68952; 38232; 0; 0; 5464; 0], [38232; 5464])) by (vm_compute; reflexivity).
    rewrite E in Ev. cbn [fmap option_fmap option_map fst] in Ev. injection Ev as E1 E2. rewrite E1, E2 in E.
    split; [exact E|]. split; [exact E1|]. split; [exact E2|exact Hops].
Defined.

(** C34. The size of a request is multiplied by four in 32 bits: a request for
    2^30 bytes more is answered like the small one. *)
Theorem alloc_wraps l s :
  align_block_size s = 24 → 0 ≤ l → l + 2 ^ 30 + 24 < 2 ^ 32 → Alloc (l + 2 ^ 30) s = Alloc l s.
Proof.
  intros Ha Hl Hlim. assert (E : order_for (l + 2 ^ 30) 24 = order_for l 24).
  { unfold order_for. rewrite (u32_small (l + 2 ^ 30 + 24)), (u32_small (l + 24)), !Z.shiftl_mul_pow2 by lia.
    assert (E4 : u32 ((l + 2 ^ 30 + 24) * 2 ^ 2) = u32 ((l + 24) * 2 ^ 2)); [|by rewrite E4].
    unfold u32. replace ((l + 2 ^ 30 + 24) * 2 ^ 2) with ((l + 24) * 2 ^ 2 + 1 * 2 ^ 32) by lia. apply Z_mod_plus_full. }
  unfold Alloc. unfold mbind. cbn. rewrite Ha, E. done.
Qed.

(** 2^30 + 40 bytes: the answer is a block of 128 bytes, and no block is left
    behind it. *)
Lemma alloc_wraps_witness :
  ∃ s, init_buddy_mem 4096 4096 (mk_buddy (mk_mem 0 0 0 0 0) 0 ∅ ∅ 4096 8192) = Some (0, s) ∧
    Alloc (40 + 2 ^ 30) s = Alloc 40 s ∧ fst <$> Alloc (40 + 2 ^ 30) s = Some 7896.
Proof.
  eexists. split; [vm_compute; reflexivity|]. split; [|vm_compute; reflexivity].
  apply alloc_wraps; [reflexivity|lia|lia].
Defined.
