(* ===== verification/PConf.v ===== *)
(** * src/conf/pconf: the configuration reader and parser.

    [pconf] keeps the file in one buffer and walks it with [char *]
    positions; a position is an offset into the buffer.  The tree of
    [conf_node]s it builds is owned by the caller and linked only from its
    parent, so it is modelled by value. *)

From S2P Require Import Prelude PString.

Local Open Scope Z_scope.

(** ** Data *)

Inductive CNT_E :=
  empty_t | char_t | subnode_t | proc_mod_t | array_t | array_ele | cmd_t.

#[export] Instance CNT_E_eq_dec : EqDecision CNT_E.
Proof. solve_decision. Defined.

Definition CONF_NAMEL : Z := 64.
Definition CONF_VARL : Z := 128.

#[warnings="-register-all"]
Inductive CN_S := conf_node {
  modn : list ascii;
  var : list ascii;
  ntype : CNT_E;
  smodlh : option CN_S;
  next : option CN_S }.

Definition set_modn a n := conf_node a (var n) (ntype n) (smodlh n) (next n).
Definition set_var a n := conf_node (modn n) a (ntype n) (smodlh n) (next n).
Definition set_ntype t n := conf_node (modn n) (var n) t (smodlh n) (next n).
Definition set_smodlh m n := conf_node (modn n) (var n) (ntype n) m (next n).
Definition set_next m n := conf_node (modn n) (var n) (ntype n) (smodlh n) m.

(** The members of a [pconf] object the parser uses; [endp] is [end - buf]. *)
Record pconf := mk_pconf {
  buf : list ascii;
  endp : nat;
  linenum : Z;
  level : Z;
  isparsed : bool }.

Definition set_buf b s := mk_pconf b (endp s) (linenum s) (level s) (isparsed s).
Definition add_line s :=
  mk_pconf (buf s) (endp s) (linenum s + 1) (level s) (isparsed s).
Definition add_level d s :=
  mk_pconf (buf s) (endp s) (linenum s) (level s + d) (isparsed s).
Definition set_parsed s :=
  mk_pconf (buf s) (endp s) (linenum s) (level s) true.

(** A [char *] local: never assigned, NULL, or an offset into the buffer. *)
Inductive cptr := PIndet | PNull | PAt (off : nat).

(** ** Character classes *)

Definition bvalidname : list bool := map (λ z, Z.eqb z 1)
  [0;0;0;0;0;0;0;0; 0;0;0;0;0;0;0;0; 0;0;0;0;0;0;0;0; 0;0;0;0;0;0;0;0;
   0;0;0;0;0;0;0;0; 0;0;0;0;0;0;0;0; 1;1;1;1;1;1;1;1; 1;1;1;0;0;0;0;0;
   1;1;1;1;1;1;1;1; 1;1;1;1;1;1;1;1; 1;1;1;1;1;1;1;1; 1;1;1;0;0;0;0;1;
   0;1;1;1;1;1;1;1; 1;1;1;1;1;1;1;1; 1;1;1;1;1;1;1;1; 1;1;1;0;0;0;0;0].

Definition bvalidvalue : list bool := map (λ z, Z.eqb z 1)
  [0;0;0;0;0;0;0;0; 0;0;0;0;0;0;0;0; 0;0;0;0;0;0;0;0; 0;0;0;0;0;0;0;0;
   0;1;1;1;1;1;1;1; 1;1;1;1;0;1;1;1; 1;1;1;1;1;1;1;1; 1;1;1;0;1;1;1;1;
   1;1;1;1;1;1;1;1; 1;1;1;1;1;1;1;1; 1;1;1;1;1;1;1;1; 1;1;1;0;1;0;1;1;
   1;1;1;1;1;1;1;1; 1;1;1;1;1;1;1;1; 1;1;1;1;1;1;1;1; 1;1;1;1;1;1;1;0].

(** A plain [char] is signed on the target (x86-64 Linux). *)
Definition char_val (c : ascii) : Z :=
  let n := Z.of_nat (nat_of_ascii c) in if n <? 128 then n else n - 256.

(** [table[*p]], undefined for an index outside the table. *)
Definition table_at (table : list bool) (i : Z) : option bool :=
  if i <? 0 then None else table !! Z.to_nat i.

Definition valid_char (table : list bool) (c : ascii) : option bool :=
  if 127 <? char_val c then Some false else table_at table (char_val c).

Definition validname (c : ascii) : option bool := valid_char bvalidname c.
Definition validvalue (c : ascii) : option bool := valid_char bvalidvalue c.

Definition keyword_list : list (list ascii) := [bytes "proc"].

(** [check_keyword(name, len)] with [name] the readable bytes at the pointer. *)
Definition check_keyword (name : list ascii) (len : nat) : CNT_E :=
  match list_find (λ k, length k = len ∧ take len name = k) keyword_list with
  | Some (O, _) => proc_mod_t
  | Some (_, _) => array_t
  | None => char_t
  end.

(** ** The scanner *)

Definition rd (p : nat) : M pconf ascii := s ← get; lift (buf s !! p).

(** The inner loop of [jumpcomment]: up to the end of the line. *)
Fixpoint skip_line (fuel p : nat) : M pconf nat :=
  match fuel with
  | O => stuck
  | S fuel =>
      e ← gets endp;
      if decide (p < e)%nat then
        c ← rd p;
        if decide (c ≠ "010"%char) then skip_line fuel (S p) else mret p
      else mret p
  end.

Fixpoint jumpcomment (fuel p : nat) : M pconf nat :=
  match fuel with
  | O => stuck
  | S fuel' =>
      c ← rd p;
      if decide (c = "#"%char) then
        p ← skip_line fuel p;
        e ← gets endp;
        if decide (e ≤ p)%nat then mret p
        else modify add_line;; jumpcomment fuel' (S p)
      else mret p
  end.

Definition is_blank (c : ascii) : bool :=
  bool_decide (c = " "%char) || bool_decide (c = "009"%char)
  || bool_decide (c = "013"%char).

Fixpoint jumpspace (fuel p : nat) : M pconf nat :=
  match fuel with
  | O => stuck
  | S fuel' =>
      e ← gets endp;
      if decide (p < e)%nat then
        c ← rd p;
        if is_blank c then jumpspace fuel' (S p)
        else if decide (c = "010"%char) then
          modify add_line;; jumpspace fuel' (S p)
        else if decide (c = "#"%char) then
          p ← jumpcomment fuel p; jumpspace fuel' p
        else mret p
      else mret p
  end.

(** [while (p < end && valid(p)) p++]. *)
Fixpoint span (valid : ascii → option bool) (fuel p : nat) : M pconf nat :=
  match fuel with
  | O => stuck
  | S fuel' =>
      e ← gets endp;
      if decide (p < e)%nat then
        c ← rd p;
        v ← lift (valid c);
        if (v : bool) then span valid fuel' (S p) else mret p
      else mret p
  end.

(** The out-parameters [char **o, int *len] are passed in and returned. *)
Definition find_valid_name (fuel p : nat) (o : cptr) (len : nat)
    : M pconf (nat * cptr * nat) :=
  p ← jumpspace fuel p;
  e ← gets endp;
  if decide (e ≤ p)%nat then mret (p, o, len) else
  c ← rd p;
  v ← lift (validname c);
  if negb v then mret (p, PNull, O) else
  q ← span validname fuel p;
  mret (q, PAt p, q - p)%nat.

Definition find_valid_value (fuel p : nat) (o : cptr) (len : nat)
    : M pconf (nat * cptr * nat) :=
  p ← jumpspace fuel p;
  e ← gets endp;
  if decide (e ≤ p)%nat then mret (p, o, len) else
  c ← rd p;
  v ← lift (validvalue c);
  if negb v then mret (p, PNull, O) else
  q ← span validvalue fuel p;
  r ← jumpspace fuel q;
  c ← rd r;
  if decide (c ≠ ";"%char) then mret (r, PNull, O)
  else mret (S r, PAt p, q - p)%nat.

Definition find_valid_array_value (fuel p : nat) (o : cptr) (len : nat)
    : M pconf (nat * cptr * nat) :=
  p ← jumpspace fuel p;
  e ← gets endp;
  if decide (e ≤ p)%nat then mret (p, o, len) else
  c ← rd p;
  v ← lift (validvalue c);
  if negb v then mret (p, PNull, O) else
  q ← span validvalue fuel p;
  r ← jumpspace fuel q;
  mret (r, PAt p, q - p)%nat.

(** [is_sub_node] and [is_array_node]: the next significant character. *)
Definition next_is (ch : ascii) (fuel p : nat) : M pconf bool :=
  p ← jumpspace fuel p;
  e ← gets endp;
  if decide (p < e)%nat then c ← rd p; mret (bool_decide (c = ch))
  else mret false.
Definition is_sub_node := next_is "{"%char.
Definition is_array_node := next_is "["%char.

(** [static CN_S *new_node()]: a zeroed node. *)
Definition new_node : CN_S :=
  conf_node (replicate 64 NUL) (replicate 128 NUL) empty_t None None.

(** [rc_strncpy] from the buffer into a field. *)
Definition copy_from (a : list ascii) (d_l : Z) (o : cptr) (len : nat)
    : M pconf (list ascii) :=
  match o with
  | PAt off =>
      s ← get;
      lift (rc_strncpy a d_l (drop off (buf s)) (Z.of_nat len))
  | _ => stuck
  end.
Definition copy_modn (o : cptr) (len : nat) (mc : CN_S) : M pconf CN_S :=
  a ← copy_from (modn mc) CONF_NAMEL o len; mret (set_modn a mc).
Definition copy_var (o : cptr) (len : nat) (mc : CN_S) : M pconf CN_S :=
  a ← copy_from (var mc) CONF_VARL o len; mret (set_var a mc).

(** [name[name_len] = '\0'] of the error branch. *)
Definition terminate_name (o : cptr) (len : nat) : M pconf () :=
  match o with
  | PAt off => modify (λ s, set_buf (<[(off + len)%nat := NUL]> (buf s)) s)
  | _ => stuck
  end.

Definition keyword_of (o : cptr) (len : nat) : M pconf CNT_E :=
  match o with
  | PAt off => s ← get; mret (check_keyword (drop off (buf s)) len)
  | _ => stuck
  end.

(** ** The parser *)

Section parser.
(** [char *name;] is declared without an initialiser, and
    [find_valid_name] leaves it alone when it meets the end of the file.
    [indet_null] is the answer the machine gives when the code then
    compares that indeterminate pointer with NULL. *)
Context (indet_null : bool).

Definition is_null (o : cptr) : bool :=
  match o with PIndet => indet_null | PNull => true | PAt _ => false end.

(** Parsers return the new position ([None] is NULL) and the node [mc]
    filled in, with the nodes linked after it. *)
Definition parsed : Type := option nat * CN_S.

(** The loop of [parse_arraylh]. *)
Fixpoint arraylh_loop (fuel : nat) (p : option nat) (common_need : bool)
    (mc : CN_S) : M pconf parsed :=
  match fuel, p with
  | O, _ => stuck
  | S _, None => mret (None, mc)
  | S fuel', Some p =>
      e ← gets endp;
      if decide (e ≤ p)%nat then mret (Some p, mc) else
      p ← jumpspace fuel p;
      if decide (e ≤ p)%nat then mret (None, mc) else
      c ← rd p;
      if decide (c = "]"%char) then
        modify (add_level (-1));; mret (Some (S p), mc)
      else if common_need && bool_decide (c ≠ ","%char) then mret (None, mc)
      else
        let p := if common_need then S p else p in
        '(p, value, value_len) ← find_valid_array_value fuel p PNull O;
        if is_null value then mret (None, mc) else
        if decide (e ≤ p)%nat then mret (None, mc) else
        mc ← copy_var value value_len mc;
        let mc := set_ntype array_ele mc in
        '(q, nx) ← arraylh_loop fuel' (Some p) true new_node;
        mret (q, set_next (Some nx) mc)
  end.

Definition parse_arraylh (fuel p : nat) (mc : CN_S) : M pconf parsed :=
  modify (add_level 1);; arraylh_loop fuel (Some p) false mc.

(** How a case of the keyword switch ends: [return NULL] from the parsing
    function, or [break] with the new position. *)
Inductive ctl := Return | Break (q : option nat).

(** The [char_t] case: [name value;]. *)
Definition parse_char (fuel p : nat) (name : cptr) (name_len : nat) (mc : CN_S)
    : M pconf (ctl * CN_S) :=
  mc ← copy_modn name name_len mc;
  '(p, value, value_len) ← find_valid_value fuel p PNull O;
  e ← gets endp;
  if is_null value || bool_decide (e ≤ p)%nat then mret (Return, mc) else
  mc ← copy_var value value_len mc;
  mret (Break (Some p), mc).

(** The loop of [parse_smodlh], which runs once for each entry of the
    block.  A [None] entry position ends the loop at its next test, after
    the empty node for the next entry has been linked. *)
Fixpoint smodlh_loop (fuel : nat) (p : option nat) (mc : CN_S)
    : M pconf parsed :=
  match fuel, p with
  | O, _ => stuck
  | S _, None => mret (None, mc)
  | S fuel', Some p =>
      e ← gets endp;
      if decide (e ≤ p)%nat then mret (Some p, mc) else
      p ← jumpspace fuel p;
      if decide (e ≤ p)%nat then mret (None, mc) else
      c ← rd p;
      if decide (c = "}"%char) then
        modify (add_level (-1));; mret (Some (S p), mc)
      else
        '(p, name, name_len) ← find_valid_name fuel p PIndet O;
        if is_null name then mret (None, mc) else
        if decide (e ≤ p)%nat then mret (None, mc) else
        sub ← is_sub_node fuel p;
        arr ← (if (sub : bool) then mret false else is_array_node fuel p);
        if (sub : bool) then
          mc ← copy_modn name name_len mc;
          let mc := set_ntype subnode_t mc in
          p ← jumpspace fuel p;
          modify (add_level 1);;
          '(q, m) ← smodlh_loop fuel' (Some (S p)) new_node;
          '(r, nx) ← smodlh_loop fuel' q new_node;
          mret (r, set_next (Some nx) (set_smodlh (Some m) mc))
        else if (arr : bool) then
          mc ← copy_modn name name_len mc;
          let mc := set_ntype array_t mc in
          p ← jumpspace fuel p;
          '(q, m) ← parse_arraylh fuel (S p) new_node;
          '(r, nx) ← smodlh_loop fuel' q new_node;
          mret (r, set_next (Some nx) (set_smodlh (Some m) mc))
        else
          t ← keyword_of name name_len;
          let mc := set_ntype t mc in
          '(k, mc) ← (match t with
            | char_t => parse_char fuel p name name_len mc
            | _ => terminate_name name name_len;; mret (Return, mc)
            end);
          match k with
          | Return => mret (None, mc)
          | Break q =>
              '(r, nx) ← smodlh_loop fuel' q new_node;
              mret (r, set_next (Some nx) mc)
          end
  end.

Definition parse_smodlh (fuel p : nat) (mc : CN_S) : M pconf parsed :=
  modify (add_level 1);; smodlh_loop fuel (Some p) mc.

(** The [proc_mod_t] case: [proc name { ... }]. *)
Definition parse_proc_mod (fuel p : nat) (mc : CN_S) : M pconf (ctl * CN_S) :=
  '(p, mod_name, mod_len) ← find_valid_name fuel p PNull O;
  if is_null mod_name then mret (Return, mc) else
  e ← gets endp;
  if decide (e ≤ p)%nat then mret (Return, mc) else
  mc ← copy_modn mod_name mod_len mc;
  let mc := set_smodlh (Some new_node) mc in
  p ← jumpspace fuel p;
  c ← rd p;
  if decide (c ≠ "{"%char) then mret (Return, mc) else
  '(q, m) ← parse_smodlh fuel (S p) new_node;
  mret (Break q, set_smodlh (Some m) mc).

Fixpoint parse_main (fuel : nat) (p : option nat) (mc : CN_S) : M pconf parsed :=
  match fuel, p with
  | O, _ => stuck
  | S _, None => mret (None, mc)
  | S fuel', Some p =>
      e ← gets endp;
      if decide (e ≤ p)%nat then mret (Some p, mc) else
      '(p, name, name_len) ← find_valid_name fuel p PIndet O;
      if is_null name then mret (None, mc) else
      if decide (e ≤ p)%nat then mret (Some p, mc) else
      sub ← is_sub_node fuel p;
      arr ← (if (sub : bool) then mret false else is_array_node fuel p);
      if (sub : bool) then
        mc ← copy_modn name name_len mc;
        let mc := set_ntype subnode_t mc in
        p ← jumpspace fuel p;
        '(q, m) ← parse_smodlh fuel (S p) new_node;
        '(r, nx) ← parse_main fuel' q new_node;
        mret (r, set_next (Some nx) (set_smodlh (Some m) mc))
      else if (arr : bool) then
        mc ← copy_modn name name_len mc;
        let mc := set_ntype array_t mc in
        p ← jumpspace fuel p;
        '(q, m) ← parse_arraylh fuel (S p) new_node;
        '(r, nx) ← parse_main fuel' q new_node;
        mret (r, set_next (Some nx) (set_smodlh (Some m) mc))
      else
        t ← keyword_of name name_len;
        let mc := set_ntype t mc in
        '(k, mc) ← (match t with
          | char_t => parse_char fuel p name name_len mc
          | proc_mod_t => parse_proc_mod fuel p mc
          | _ => terminate_name name name_len;; mret (Return, mc)
          end);
        match k with
        | Return => mret (None, mc)
        | Break q =>
            '(r, nx) ← parse_main fuel' q new_node;
            mret (r, set_next (Some nx) mc)
        end
  end.

(** [parse(mch)]: 0 or -1, and the filled tree.  One unit of fuel more than
    the length of the text is enough (theorem [parse_total]). *)
Definition parse (mch : CN_S) : M pconf (Z * CN_S) :=
  e ← gets endp;
  '(p, t) ← parse_main (S e) (Some O) mch;
  s ← get;
  when (bool_decide (p = Some e) && (level s =? 0)) (modify set_parsed);;
  s ← get;
  mret (if isparsed s then 0 else -1, t).
End parser.

(** ** Queries on the tree *)

(** [STRMATCH(av1, av2)] of two C strings. *)
Definition STRMATCH (av1 av2 : list ascii) : bool :=
  (strlen av1 =? strlen av2)
  && bool_decide (take (length (c_str av1)) av1 = take (length (c_str av1)) av2).

(** The accessors walk the [next] links from [i_mc]. *)
Fixpoint get_proc_mod (i_mc : CN_S) : option CN_S :=
  match i_mc with
  | conf_node _ _ t _ nx =>
      if decide (t = proc_mod_t) then Some i_mc
      else match nx with None => None | Some m => get_proc_mod m end
  end.

Fixpoint get_value_from_node (i_mc : CN_S) (vn : list ascii)
    : option (list ascii) :=
  match i_mc with
  | conf_node name v t _ nx =>
      if bool_decide (t = char_t) && STRMATCH vn name then Some v
      else match nx with None => None | Some m => get_value_from_node m vn end
  end.

Fixpoint get_submod_from_node (i_mc : CN_S) (mn : list ascii) : option CN_S :=
  match i_mc with
  | conf_node name _ t sub nx =>
      if bool_decide (t = subnode_t) && STRMATCH mn name then sub
      else match nx with None => None | Some m => get_submod_from_node m mn end
  end.

Fixpoint get_array_from_node (i_mc : CN_S) (mn : list ascii) : option CN_S :=
  match i_mc with
  | conf_node name _ t _ nx =>
      if bool_decide (t = array_t) && STRMATCH mn name then Some i_mc
      else match nx with None => None | Some m => get_array_from_node m mn end
  end.

(** The two array walks follow [psub->next] while [psub] is an element;
    [None] is the NULL dereference at the end of an unterminated chain. *)
Fixpoint count_elements (psub : CN_S) (size : Z) : option Z :=
  match psub with
  | conf_node _ _ t _ nx =>
      if decide (t = array_ele) then
        match nx with None => None | Some m => count_elements m (size + 1) end
      else Some size
  end.

Definition get_size_from_array (i_mc : option CN_S) : option Z :=
  match i_mc with
  | Some m =>
      if decide (ntype m = array_t) then
        match smodlh m with None => None | Some psub => count_elements psub 0 end
      else Some 0
  | None => Some 0
  end.

Fixpoint element_at (psub : CN_S) (index inpos : Z) : option (option (list ascii)) :=
  match psub with
  | conf_node _ v t _ nx =>
      if decide (t = array_ele) then
        if index =? inpos then Some (Some v)
        else match nx with None => None | Some m => element_at m index (inpos + 1) end
      else Some None
  end.

Definition get_value_from_array_by_index (i_mc : option CN_S) (index : Z)
    : option (option (list ascii)) :=
  match i_mc with
  | Some m =>
      if decide (ntype m = array_t) then
        match smodlh m with None => None | Some psub => element_at psub index 0 end
      else Some None
  | None => Some None
  end.

(** The nodes [delete_node] passes to [delete], children first. *)
Fixpoint delete_node (node : CN_S) : list CN_S :=
  match node with
  | conf_node _ _ _ sub nx =>
      match sub with None => [] | Some m => delete_node m end
      ++ match nx with None => [] | Some m => delete_node m end
      ++ [node]
  end.
Definition destroy (i_head : CN_S) : list CN_S := delete_node i_head.

(** ** Reading the file *)

(** The state of [readfile]: the [malloc]ed bytes and the two counters. *)
Record rbuf := mk_rbuf { mem : list ascii; total : nat; remain : nat }.

Definition BUFLEN : nat := 1024 * 256.

(** [memset(buf + off, 0, n)], inside the allocation or undefined. *)
Definition memset0 (off n : nat) (m : list ascii) : option (list ascii) :=
  if decide (off + n ≤ length m)%nat
  then Some (take off m ++ replicate n NUL ++ drop (off + n) m) else None.

(** [read(cfd, buf + total, remain)] delivering [chunk]. *)
Definition read_into (chunk : list ascii) (b : rbuf) : option (list ascii) :=
  if decide (length chunk ≤ remain b ∧ total b + length chunk ≤ length (mem b))%nat
  then Some (take (total b) (mem b) ++ chunk
             ++ drop (total b + length chunk) (mem b))
  else None.

(** [realloc(buf, buflen + 1024)]; [buflen] never changes, so the block has
    this size after every call.  [junk] is what the new bytes hold. *)
Definition realloc_buf (junk m : list ascii) : list ascii :=
  take (BUFLEN + 1024) (m ++ junk).

(** One iteration of the reading loop, and the loop over the successful
    [read]s up to the one that returns 0. *)
Definition readfile_step (junk chunk : list ascii) (b : rbuf) : option rbuf :=
  m ← read_into chunk b;
  let remain' := (remain b - length chunk)%nat in
  if decide (remain' = O) then
    m ← memset0 (total b + 1024) 1024 (realloc_buf junk m);
    Some (mk_rbuf m (total b + length chunk) 1024)
  else Some (mk_rbuf m (total b + length chunk) remain').

Fixpoint readfile_loop (junk : list ascii) (chunks : list (list ascii)) (b : rbuf)
    : option rbuf :=
  match chunks with
  | [] => Some b
  | chunk :: chunks' => b ← readfile_step junk chunk b; readfile_loop junk chunks' b
  end.

(** [readconf] on a readable file: the parser state it leaves behind. *)
Definition readconf (junk : list ascii) (chunks : list (list ascii)) : option pconf :=
  b ← readfile_loop junk chunks (mk_rbuf (replicate BUFLEN NUL) O 1024);
  Some (mk_pconf (mem b) (total b) 1 0 false).
