(* ===== verification/PConfProofs.v ===== *)
(** * src/conf/pconf: the parser is total on ASCII files, and complete for
    the configuration grammar. *)

From S2P Require Import Prelude PString PConf.

Local Open Scope nat_scope.

(** ** What scanning leaves alone *)

(** Two parser states that differ at most in the line counter. *)
Definition ext (s s' : pconf) : Prop :=
  buf s' = buf s ∧ endp s' = endp s ∧ level s' = level s ∧ isparsed s' = isparsed s.

#[export] Instance ext_preorder : PreOrder ext.
Proof. split; [by intros s|]. intros s1 s2 s3 (?&?&?&?) (?&?&?&?). repeat split; congruence. Qed.

Lemma ext_add_line s : ext s (add_line s).
Proof. done. Qed.
#[export] Hint Resolve ext_add_line : core.

(** The buffer holds [e] ASCII characters and a terminator. *)
Definition inv (e : nat) (s : pconf) : Prop :=
  endp s = e ∧ buf s !! e = Some NUL ∧
  ∀ i c, i < e → buf s !! i = Some c → (0 ≤ char_val c)%Z.

Lemma inv_ext e s s' : ext s s' → inv e s → inv e s'.
Proof. intros (Hb&He&_&_) (?&?&?). unfold inv. by rewrite Hb, He. Qed.

Lemma inv_length e s : inv e s → e < length (buf s).
Proof. intros (_&?&_). by eapply lookup_lt_Some. Qed.

Lemma inv_lookup e s p : inv e s → p ≤ e → ∃ c, buf s !! p = Some c.
Proof.
  intros Hi Hp. pose proof (inv_length e s Hi). apply lookup_lt_is_Some. lia.
Qed.

Lemma inv_end e s : inv e s → endp s = e.
Proof. by intros (?&?). Qed.

Lemma inv_ascii e s p c :
  inv e s → p < e → buf s !! p = Some c → (0 ≤ char_val c < 128)%Z.
Proof.
  intros (_&_&H) Hp Hc. split; [by eapply H|].
  unfold char_val. pose proof (nat_ascii_bounded c).
  destruct (Z.ltb_spec (Z.of_nat (nat_of_ascii c)) 128); lia.
Qed.

Lemma wp_rd s p c (Q : ascii → pconf → Prop) :
  buf s !! p = Some c → Q c s → wp (rd p) Q s.
Proof. intros Hc HQ. unfold rd. wp_steps. by eapply wp_lift. Qed.

Lemma valid_char_total table c :
  length table = 128 → (0 ≤ char_val c < 128)%Z →
  ∃ b, valid_char table c = Some b.
Proof.
  intros Hl Hc. unfold valid_char, table_at.
  destruct (Z.ltb_spec 127 (char_val c)); [lia|].
  destruct (Z.ltb_spec (char_val c) 0); [lia|].
  apply lookup_lt_is_Some. lia.
Qed.

(** ** Positions *)

Section scanners.
Context (e : nat).

Lemma skip_line_wp fuel p s :
  inv e s → p ≤ e → e - p < fuel →
  wp (skip_line fuel p)
    (λ q s', s' = s ∧ p ≤ q ≤ e ∧
      (p < e → buf s !! p ≠ Some "010"%char → p < q)) s.
Proof.
  intros Hi. revert p. induction fuel as [|fuel IH]; intros p Hp Hf; [lia|].
  simpl. wp_steps. rewrite (inv_end _ _ Hi).
  case_decide; [|wp_steps; repeat split; done || lia].
  destruct (inv_lookup e s p Hi Hp) as [c Hc].
  apply wp_bind, (wp_rd _ _ c); [done|].
  case_decide as Hnl.
  - eapply wp_mono; [apply IH; lia|]. simpl. intros q s' (->&?&?).
    repeat split; lia.
  - wp_steps. repeat split; try lia. intros _ Hne. congruence.
Qed.

Lemma jumpcomment_wp fuel p s :
  inv e s → p ≤ e → e - p < fuel →
  wp (jumpcomment fuel p)
    (λ q s', ext s s' ∧ p ≤ q ≤ e ∧
      (p < e → buf s !! p = Some "#"%char → p < q)) s.
Proof.
  revert p s. induction fuel as [|fuel IH]; intros p s Hi Hp Hf; [lia|].
  cbn [jumpcomment].
  destruct (inv_lookup e s p Hi Hp) as [c Hc].
  apply wp_bind, (wp_rd _ _ c); [done|].
  case_decide as Hh.
  - subst c.
    assert (p < e).
    { destruct (decide (p = e)) as [->|]; [|lia].
      destruct Hi as (_&Hn&_). congruence. }
    apply wp_bind. eapply wp_mono; [apply skip_line_wp; done|].
    intros q s' (->&Hq&Hlt). wp_steps. rewrite (inv_end _ _ Hi).
    specialize (Hlt ltac:(done) ltac:(congruence)).
    case_decide; wp_steps; [repeat split; done || lia|].
    eapply wp_mono; [apply IH; try lia; by eapply inv_ext|].
    simpl. intros r s' (Hx&Hr&_). split; [by etrans|]. split; [lia|lia].
  - wp_steps. repeat split; try lia. intros _ Hq. congruence.
Qed.

Lemma jumpspace_wp fuel p s :
  inv e s → p ≤ e → e - p < fuel →
  wp (jumpspace fuel p) (λ q s', ext s s' ∧ p ≤ q ≤ e) s.
Proof.
  revert p s. induction fuel as [|fuel IH]; intros p s Hi Hp Hf; [lia|].
  cbn [jumpspace]. wp_steps. rewrite (inv_end _ _ Hi).
  case_decide; [|wp_steps; split; [done|lia]].
  destruct (inv_lookup e s p Hi Hp) as [c Hc].
  apply wp_bind, (wp_rd _ _ c); [done|].
  destruct (is_blank c).
  { eapply wp_mono; [apply IH; done || lia|]. simpl.
    intros q s' [? ?]. split; [done|lia]. }
  case_decide.
  { wp_steps. eapply wp_mono; [apply IH; try lia; by eapply inv_ext|].
    simpl. intros q s' [? ?]. split; [by etrans|lia]. }
  case_decide as Hh; [|wp_steps; split; [done|lia]].
  subst c. apply wp_bind. eapply wp_mono; [apply jumpcomment_wp; done || lia|].
  intros q s' (Hx&Hq&Hlt). specialize (Hlt ltac:(done) Hc).
  eapply wp_mono; [apply IH; try lia; by eapply inv_ext|].
  simpl. intros r s'' [? ?]. split; [by etrans|lia].
Qed.

Lemma span_wp table fuel p s :
  length table = 128 → inv e s → p ≤ e → e - p < fuel →
  wp (span (valid_char table) fuel p)
    (λ q s', s' = s ∧ p ≤ q ≤ e ∧
      (p < e → (valid_char table <$> buf s !! p) = Some (Some true) → p < q)) s.
Proof.
  intros Ht Hi. revert p. induction fuel as [|fuel IH]; intros p Hp Hf; [lia|].
  cbn [span]. wp_steps. rewrite (inv_end _ _ Hi).
  case_decide; [|wp_steps; repeat split; done || lia].
  destruct (inv_lookup e s p Hi Hp) as [c Hc].
  apply wp_bind, (wp_rd _ _ c); [done|].
  destruct (valid_char_total table c) as [b Hb];
    [done|by eapply inv_ascii|].
  apply wp_bind. eapply wp_lift; [done|].
  destruct b.
  - eapply wp_mono; [apply IH; lia|]. simpl. intros q s' (->&?&?).
    repeat split; lia.
  - wp_steps. repeat split; try lia. rewrite Hc. simpl. congruence.
Qed.

(** Scanning reads the buffer only: two states with the same text give the
    same positions. *)
Definition sim {A} (m : M pconf A) : Prop := ∀ s1 s2 a t1,
  ext s1 s2 → m s1 = Some (a, t1) → ∃ t2, m s2 = Some (a, t2) ∧ ext t1 t2.

Lemma sim_ret {A} (a : A) : sim (mret a).
Proof. intros s1 s2 b t1 Hx [= <- <-]. by exists s2. Qed.

Lemma sim_bind {A B} (m : M pconf A) (k : A → M pconf B) :
  sim m → (∀ a, sim (k a)) → sim (m ≫= k).
Proof.
  intros Hm Hk s1 s2 b t1 Hx H. apply bind_inv in H as (a & u1 & H1 & H2).
  destruct (Hm s1 s2 a u1 Hx H1) as (u2 & H3 & Hx').
  erewrite bind_Some by done. by apply (Hk a u1 u2).
Qed.

Lemma sim_endp : sim (gets endp).
Proof. intros s1 s2 b t1 Hx [= <- <-]. exists s2.
  split; [|done]. unfold gets. destruct Hx as (_&E&_). by rewrite E. Qed.

Lemma sim_add_line : sim (modify add_line).
Proof. intros s1 s2 b t1 Hx [= <- <-]. by exists (add_line s2). Qed.

Lemma sim_rd p : sim (rd p).
Proof.
  intros s1 s2 c t1 Hx H. unfold rd, lift in *. simpl in *.
  pose proof Hx as (Hb&_). cbv [mbind M_bind get] in *. rewrite Hb.
  destruct (buf s1 !! p); [|done]. simplify_eq/=. by exists s2.
Qed.

Create HintDb sim discriminated.
#[local] Hint Resolve sim_ret sim_bind sim_endp sim_add_line sim_rd : sim.
Ltac sim := repeat (case_decide || case_match); eauto with sim.

Lemma sim_skip_line fuel p : sim (skip_line fuel p).
Proof.
  revert p. induction fuel as [|fuel IH]; intros p; simpl; [by intros ?|].
  apply sim_bind; [eauto with sim|]. intros e'. sim.
  apply sim_bind; [eauto with sim|]. intros c. sim.
Qed.

Lemma sim_jumpcomment fuel p : sim (jumpcomment fuel p).
Proof.
  revert p. induction fuel as [|fuel IH]; intros p; cbn [jumpcomment]; [by intros ?|].
  apply sim_bind; [eauto with sim|]. intros c. sim.
  apply sim_bind; [apply sim_skip_line|]. intros q.
  apply sim_bind; [eauto with sim|]. intros e'. sim.
Qed.

Lemma sim_jumpspace fuel p : sim (jumpspace fuel p).
Proof.
  revert p. induction fuel as [|fuel IH]; intros p; cbn [jumpspace]; [by intros ?|].
  apply sim_bind; [eauto with sim|]. intros e'. case_decide; [|eauto with sim].
  apply sim_bind; [eauto with sim|]. intros c. sim.
  apply sim_bind; [apply sim_jumpcomment|]. done.
Qed.

(** When the look-ahead answers yes, skipping spaces again stops before
    the end. *)
Definition ahead (fuel p : nat) (s : pconf) : Prop := ∀ s', ext s s' →
  wp (jumpspace fuel p) (λ q s2, ext s' s2 ∧ p ≤ q < e) s'.

Lemma next_is_wp ch fuel p s :
  inv e s → p ≤ e → e - p < fuel →
  wp (next_is ch fuel p) (λ b s', ext s s' ∧ (b = true → ahead fuel p s)) s.
Proof.
  intros Hi Hp Hf. unfold next_is. apply wp_bind.
  destruct (wp_elim _ _ _ (jumpspace_wp fuel p s Hi Hp Hf)) as (q & s' & Hj & Hx & Hq).
  eapply wp_intro; [done|].
  wp_steps. pose proof (inv_ext _ _ _ Hx Hi) as Hi'. rewrite (inv_end _ _ Hi').
  case_decide; wp_steps; [|done].
  destruct (inv_lookup e s' q Hi') as [c Hc]; [lia|].
  eapply wp_rd; [done|]. wp_steps. split; [done|]. intros _ s1 Hx1.
  destruct (sim_jumpspace fuel p s s1 q s' Hx1 Hj) as (s2 & Hj2 & Hx2).
  eapply wp_intro; [done|]. split; [|lia].
  destruct (wp_elim _ _ _ (jumpspace_wp fuel p s1 (inv_ext _ _ _ Hx1 Hi) Hp Hf))
    as (q' & s2' & Hj2' & Hx2' & _). congruence.
Qed.

(** The out-parameters of the three token readers: the pointer given, NULL,
    or a nonempty token before the returned position. *)
Definition token_ok (p q : nat) (o o' : cptr) (len : nat) : Prop :=
  match o' with
  | PAt off => p ≤ off ∧ 0 < len ∧ off + len ≤ q
  | PNull => True
  | PIndet => o' = o ∧ q = e
  end.

Lemma find_valid_name_wp fuel p s o :
  (∀ off, o ≠ PAt off) →
  inv e s → p ≤ e → e - p < fuel →
  wp (find_valid_name fuel p o 0)
    (λ '(q, o', len) s', ext s s' ∧ p ≤ q ≤ e ∧ token_ok p q o o' len) s.
Proof.
  intros Ho Hi Hp Hf. unfold find_valid_name. apply wp_bind.
  eapply wp_mono; [by apply jumpspace_wp|]. intros q s' [Hx Hq].
  wp_steps. pose proof (inv_ext _ _ _ Hx Hi) as Hi'. rewrite (inv_end _ _ Hi').
  case_decide.
  { wp_steps. split; [done|]. split; [lia|].
    destruct o; simpl; [split; [done|lia]|done|by destruct (Ho off)]. }
  destruct (inv_lookup e s' q Hi') as [c Hc]; [lia|].
  wp_steps. eapply wp_rd; [done|]. wp_steps.
  destruct (valid_char_total bvalidname c) as [b Hb];
    [done|by apply (inv_ascii e s' q); [|lia|]|].
  eapply wp_lift; [done|]. destruct b; simpl; wp_steps; [|split; [done|]; split; [lia|done]].
  eapply wp_mono; [apply span_wp; done || lia|].
  intros r s'' (->&?&Hlt). wp_steps. split; [done|]. split; [lia|].
  simpl. rewrite Hc in Hlt. simpl in Hlt. unfold validname in Hb. rewrite Hb in Hlt.
  specialize (Hlt ltac:(lia) ltac:(done)). lia.
Qed.

Lemma span_value_wp fuel p s (c : ascii) :
  inv e s → p < e → e - p < fuel → buf s !! p = Some c →
  validvalue c = Some true →
  wp (span validvalue fuel p) (λ q s', s' = s ∧ p < q ≤ e) s.
Proof.
  intros Hi Hp Hf Hc Hv. eapply wp_mono; [apply span_wp; done || lia|].
  intros r s'' (->&?&Hlt). split; [done|].
  rewrite Hc in Hlt. simpl in Hlt. unfold validvalue in Hv. rewrite Hv in Hlt.
  specialize (Hlt ltac:(lia) ltac:(done)). lia.
Qed.

Lemma find_valid_value_wp fuel p s :
  inv e s → p ≤ e → e - p < fuel →
  wp (find_valid_value fuel p PNull 0)
    (λ '(q, o', len) s', ext s s' ∧ p ≤ q ≤ e ∧ token_ok p q PNull o' len) s.
Proof.
  intros Hi Hp Hf. unfold find_valid_value. apply wp_bind.
  eapply wp_mono; [by apply jumpspace_wp|]. intros q s' [Hx Hq].
  wp_steps. pose proof (inv_ext _ _ _ Hx Hi) as Hi'. rewrite (inv_end _ _ Hi').
  case_decide; [wp_steps; split; [done|split; [lia|done]]|].
  destruct (inv_lookup e s' q Hi') as [c Hc]; [lia|].
  wp_steps. eapply wp_rd; [done|]. wp_steps.
  destruct (valid_char_total bvalidvalue c) as [b Hb];
    [done|by apply (inv_ascii e s' q); [|lia|]|].
  eapply wp_lift; [done|].
  destruct b; simpl; wp_steps; [|split; [done|]; split; [lia|done]].
  eapply wp_mono; [eapply span_value_wp; done || lia|].
  intros r s'' (->&Hr). wp_steps.
  eapply wp_mono; [apply jumpspace_wp; done || lia|]. intros t s'' [Hx' Ht].
  pose proof (inv_ext _ _ _ Hx' Hi') as Hi''.
  destruct (inv_lookup e s'' t Hi'') as [d Hd]; [lia|].
  wp_steps. eapply wp_rd; [done|].
  case_decide; wp_steps; (split; [by etrans|]); [split; [lia|done]|].
  assert (t ≠ e).
  { intros ->. destruct Hi'' as (_&Hn&_). congruence. }
  split; [lia|]. simpl. lia.
Qed.

Lemma find_valid_array_value_wp fuel p s :
  inv e s → p ≤ e → e - p < fuel →
  wp (find_valid_array_value fuel p PNull 0)
    (λ '(q, o', len) s', ext s s' ∧ p ≤ q ≤ e ∧ token_ok p q PNull o' len) s.
Proof.
  intros Hi Hp Hf. unfold find_valid_array_value. apply wp_bind.
  eapply wp_mono; [by apply jumpspace_wp|]. intros q s' [Hx Hq].
  wp_steps. pose proof (inv_ext _ _ _ Hx Hi) as Hi'. rewrite (inv_end _ _ Hi').
  case_decide; [wp_steps; split; [done|split; [lia|done]]|].
  destruct (inv_lookup e s' q Hi') as [c Hc]; [lia|].
  wp_steps. eapply wp_rd; [done|]. wp_steps.
  destruct (valid_char_total bvalidvalue c) as [b Hb];
    [done|by apply (inv_ascii e s' q); [|lia|]|].
  eapply wp_lift; [done|].
  destruct b; simpl; wp_steps; [|split; [done|]; split; [lia|done]].
  eapply wp_mono; [eapply span_value_wp; done || lia|].
  intros r s'' (->&Hr). wp_steps.
  eapply wp_mono; [apply jumpspace_wp; done || lia|]. intros t s'' [Hx' Ht].
  wp_steps. split; [by etrans|]. split; [lia|]. simpl. lia.
Qed.
End scanners.

(** ** Nodes *)

Definition node_ok (n : CN_S) : Prop :=
  length (modn n) = 64 ∧ length (var n) = 128.

Lemma new_node_ok : node_ok new_node.
Proof. done. Qed.
#[export] Hint Resolve new_node_ok : core.

Lemma copy_modn_wp e p q s o len mc :
  inv e s → q ≤ e → token_ok e p q PIndet o len ∨ token_ok e p q PNull o len →
  o ≠ PIndet → o ≠ PNull → node_ok mc →
  wp (copy_modn o len mc) (λ mc' s', s' = s ∧ node_ok mc') s.
Proof.
  intros Hi Hq Ht H1 H2 [Hm Hv]. destruct o as [| |off]; [done..|].
  assert (p ≤ off ∧ 0 < len ∧ off + len ≤ q) as Ho by (destruct Ht; done).
  pose proof (inv_length _ _ Hi).
  destruct (rc_strncpy_total (modn mc) CONF_NAMEL (drop off (buf s)) (Z.of_nat len))
    as [d [Hd Hl]]; try (unfold CONF_NAMEL; rewrite ?length_drop; lia).
  unfold copy_modn, copy_from. wp_steps. eapply wp_lift; [done|]. wp_steps.
  split; [done|]. split; simpl; lia.
Qed.

Lemma copy_var_wp e p q s o len mc :
  inv e s → q ≤ e → token_ok e p q PNull o len → o ≠ PNull → node_ok mc →
  wp (copy_var o len mc) (λ mc' s', s' = s ∧ node_ok mc') s.
Proof.
  intros Hi Hq Ht H2 [Hm Hv]. destruct o as [| |off]; [by destruct Ht|done|].
  destruct Ht as (?&?&?). pose proof (inv_length _ _ Hi).
  destruct (rc_strncpy_total (var mc) CONF_VARL (drop off (buf s)) (Z.of_nat len))
    as [d [Hd Hl]]; try (unfold CONF_VARL; rewrite ?length_drop; lia).
  unfold copy_var, copy_from. wp_steps. eapply wp_lift; [done|]. wp_steps.
  split; [done|]. split; simpl; lia.
Qed.

Lemma terminate_name_wp e s off len :
  inv e s → off + len ≤ e →
  wp (terminate_name (PAt off) len) (λ _ s', inv e s') s.
Proof.
  intros Hi Hl. unfold terminate_name. wp_steps. destruct Hi as (He&Hn&Ha).
  split; [done|]. simpl. split.
  - destruct (decide (off + len = e)) as [->|].
    + apply list_lookup_insert_eq. by eapply lookup_lt_Some.
    + by rewrite list_lookup_insert_ne.
  - intros i c Hi Hc. apply list_lookup_insert_Some in Hc as [(_&<-&_)|[_ Hc]].
    + done.
    + by eapply Ha.
Qed.

(** ** The parsers *)

Section total.
Context (indet_null : bool) (e : nat).

(** What a parser started at [p] establishes. *)
Definition parsed_ok (p : nat) (r : option nat) (s' : pconf) : Prop :=
  inv e s' ∧ match r with None => True | Some q => p ≤ q ≤ e end.

Lemma parsed_ok_le p p' r s : p ≤ p' → parsed_ok p' r s → parsed_ok p r s.
Proof. intros ? [? Hr]. split; [done|]. destruct r; [lia|done]. Qed.

Lemma inv_add_level d s : inv e s → inv e (add_level d s).
Proof. done. Qed.

Lemma arraylh_loop_wp fuel p b mc s :
  inv e s → node_ok mc →
  match p with None => 0 < fuel | Some p => p ≤ e ∧ e - p < fuel end →
  wp (arraylh_loop indet_null fuel p b mc)
    (λ r s', parsed_ok (default e p) r.1 s') s.
Proof.
  revert p b mc s. induction fuel as [|fuel IH]; intros [p|] b mc s Hi Hn Hf;
    try lia; cbn [arraylh_loop]; [|wp_steps; by split].
  destruct Hf as [Hp Hf]. wp_steps. rewrite (inv_end _ _ Hi).
  case_decide; [wp_steps; split; [done|simpl; lia]|].
  wp_steps. eapply wp_mono; [apply jumpspace_wp; done|]. intros q s' [Hx Hq].
  pose proof (inv_ext _ _ _ Hx Hi) as Hi'.
  case_decide; [wp_steps; by split|].
  destruct (inv_lookup e s' q Hi') as [c Hc]; [lia|].
  apply wp_bind, (wp_rd _ _ c); [done|].
  case_decide; [wp_steps; split; [done|simpl; lia]|].
  destruct (b && bool_decide (c ≠ ","%char)); [wp_steps; by split|].
  set (q' := if b then S q else q).
  assert (p ≤ q' ≤ e) by (subst q'; destruct b; lia).
  wp_steps. eapply wp_mono; [apply (find_valid_array_value_wp e); done || lia|].
  intros [[t o] len] s2 (Hx2&Ht&Htok).
  pose proof (inv_ext _ _ _ Hx2 Hi') as Hi2.
  destruct o as [| |off]; [by destruct Htok|wp_steps; by split|].
  cbn [is_null]. case_decide; [wp_steps; by split|].
  wp_steps. eapply wp_mono; [apply (copy_var_wp e q' t); done || lia|].
  intros mc' s3 [-> Hn']. wp_steps. destruct Htok as (?&?&?).
  eapply wp_mono; [apply IH; [done|done|lia]|].
  intros [r nx] s3 Hr. wp_steps. simpl in *. eapply parsed_ok_le; [|done]. lia.
Qed.

Definition ctl_ok (p : nat) (k : ctl) (s' : pconf) : Prop :=
  inv e s' ∧ match k with Break (Some q) => p ≤ q ≤ e | _ => True end.

Lemma parse_char_wp fuel p s p0 o len mc :
  inv e s → p ≤ e → e - p < fuel → token_ok e p0 p PIndet o len →
  o ≠ PIndet → o ≠ PNull → node_ok mc →
  wp (parse_char indet_null fuel p o len mc)
    (λ '(k, mc') s', ctl_ok p k s' ∧ node_ok mc') s.
Proof.
  intros Hi Hp Hf Ht H1 H2 Hn. unfold parse_char. wp_steps.
  eapply wp_mono; [apply (copy_modn_wp e p0 p); try done; by left|].
  intros mc' s1 [-> Hn']. wp_steps.
  eapply wp_mono; [by apply (find_valid_value_wp e)|].
  intros [[q v] vlen] s1 (Hx&Hq&Hv). pose proof (inv_ext _ _ _ Hx Hi) as Hi1.
  wp_steps. rewrite (inv_end _ _ Hi1).
  destruct v as [| |off]; [by destruct Hv|wp_steps; by split|].
  cbn [is_null orb]. case_bool_decide; [wp_steps; by split|].
  wp_steps. eapply wp_mono; [apply (copy_var_wp e p q); done || lia|].
  intros mc2 s2 [-> Hn2]. wp_steps. split; [|done]. split; [done|lia].
Qed.

Lemma keyword_of_wp s off len (Q : CNT_E → pconf → Prop) :
  (∀ t, Q t s) → wp (keyword_of (PAt off) len) Q s.
Proof. intros H. unfold keyword_of. wp_steps. apply H. Qed.

(** The two look-aheads after a name. *)
Lemma lookahead_wp {A} fuel p s (K : bool → bool → M pconf A) Q :
  inv e s → p ≤ e → e - p < fuel →
  (∀ sub arr s', ext s s' → (sub = true ∨ arr = true → ahead e fuel p s') →
    wp (K sub arr) Q s') →
  wp (sub ← is_sub_node fuel p;
      arr ← (if (sub : bool) then mret false else is_array_node fuel p);
      K sub arr) Q s.
Proof.
  intros Hi Hp Hf HQ. wp_steps. eapply wp_mono; [by apply (next_is_wp e)|].
  intros sub s' [Hx Ha]. wp_steps. destruct sub.
  - wp_steps. apply HQ; [done|]. intros _ s2 Hx2. apply Ha; [done|]. by etrans.
  - eapply wp_mono; [apply (next_is_wp e); try done; by eapply inv_ext|].
    intros arr s2 [Hx2 Ha2]. apply HQ; [by etrans|]. intros [|Harr]; [done|].
    intros s3 Hx3. apply Ha2; [done|]. by etrans.
Qed.

Definition start_ok (fuel : nat) (p : option nat) : Prop :=
  match p with None => 0 < fuel | Some p => p ≤ e ∧ e - p < fuel end.

Lemma start_ok_next fuel p q :
  e - p < S fuel → p < e → match q with None => True | Some q => S p ≤ q ≤ e end →
  start_ok fuel q.
Proof. destruct q; simpl; lia. Qed.

(** Entering a block: the name is copied, and the opening bracket is
    skipped. *)
Lemma enter_wp {A} fuel p0 p s off len mc (K : CN_S → nat → M pconf A) Q :
  inv e s → p ≤ e → token_ok e p0 p PIndet (PAt off) len → node_ok mc →
  ahead e fuel p s →
  (∀ mc' q s', node_ok mc' → inv e s' → p ≤ q < e → wp (K mc' q) Q s') →
  wp (mc ← copy_modn (PAt off) len mc; q ← jumpspace fuel p; K mc q) Q s.
Proof.
  intros Hi Hp Ht Hn Ha HK. wp_steps.
  eapply wp_mono; [apply (copy_modn_wp e p0 p); done || by left|].
  intros mc' s1 [-> Hn']. wp_steps.
  eapply wp_mono; [by apply Ha|]. intros q s1 [Hx Hq].
  apply HK; [done|by eapply inv_ext|done].
Qed.

Lemma arraylh_wp fuel p s :
  inv e s → p ≤ e → e - p < fuel →
  wp (parse_arraylh indet_null fuel p new_node)
    (λ r s', parsed_ok p r.1 s') s.
Proof.
  intros Hi Hp Hf. unfold parse_arraylh. wp_steps.
  by apply (arraylh_loop_wp fuel (Some p)).
Qed.

Lemma smodlh_loop_wp fuel p mc s :
  inv e s → node_ok mc → start_ok fuel p →
  wp (smodlh_loop indet_null fuel p mc)
    (λ r s', parsed_ok (default e p) r.1 s') s.
Proof.
  revert p mc s. induction fuel as [|fuel IH]; intros [p|] mc s Hi Hn Hf;
    simpl in Hf; try lia; cbn [smodlh_loop]; [|wp_steps; by split].
  destruct Hf as [Hp Hf]. wp_steps. rewrite (inv_end _ _ Hi).
  case_decide; [wp_steps; split; [done|simpl; lia]|].
  wp_steps. eapply wp_mono; [apply jumpspace_wp; done|]. intros q s' [Hx Hq].
  pose proof (inv_ext _ _ _ Hx Hi) as Hi'.
  case_decide; [wp_steps; by split|].
  destruct (inv_lookup e s' q Hi') as [c Hc]; [lia|].
  apply wp_bind, (wp_rd _ _ c); [done|].
  case_decide; [wp_steps; split; [done|simpl; lia]|].
  wp_steps. eapply wp_mono; [apply (find_valid_name_wp e); done || lia|].
  intros [[t o] len] s2 (Hx2&Ht&Htok).
  pose proof (inv_ext _ _ _ Hx2 Hi') as Hi2.
  destruct (is_null indet_null o) eqn:Hnull; [wp_steps; by split|].
  case_decide; [wp_steps; by split|].
  destruct o as [| |off]; [destruct Htok; lia|done|].
  apply lookahead_wp; [done|lia|lia|].
  intros sub arr s3 Hx3 Ha. pose proof (inv_ext _ _ _ Hx3 Hi2) as Hi3.
  pose proof Htok as (?&?&?).
  assert (∀ q' mc' s', inv e s' → node_ok mc' → start_ok fuel q' →
    match q' with None => True | Some q' => p ≤ q' end →
    wp ('(r, nx) ← smodlh_loop indet_null fuel q' new_node;
        mret (r, set_next (Some nx) mc'))
       (λ r s', parsed_ok (default e (Some p)) r.1 s') s') as Hrest.
  { intros q' mc' s4 ? ? ? Hle. wp_steps. eapply wp_mono; [by apply IH|].
    intros [r nx] s5 Hr. wp_steps. eapply parsed_ok_le; [|done].
    destruct q'; simpl; lia. }
  destruct sub; [|destruct arr].
  - eapply enter_wp; try done; [lia|by apply Ha; left|].
    intros mc' u s4 Hn' Hi4 Hu. wp_steps.
    eapply wp_mono; [apply IH; [done|done|simpl; lia]|].
    intros [r m] s5 [Hi5 Hr]. apply Hrest; try done; destruct r; simpl in *; lia || done.
  - eapply enter_wp; try done; [lia|by apply Ha; right|].
    intros mc' u s4 Hn' Hi4 Hu. wp_steps.
    eapply wp_mono; [apply arraylh_wp; [done|lia|lia]|].
    intros [r m] s5 [Hi5 Hr]. apply Hrest; try done; destruct r; simpl in *; lia || done.
  - wp_steps. apply keyword_of_wp. intros ty. wp_steps.
    assert (wp (match ty with
      | char_t => parse_char indet_null (S fuel) t (PAt off) len (set_ntype ty mc)
      | _ => terminate_name (PAt off) len;; mret (Return, set_ntype ty mc)
      end) (λ '(k, mc') s', ctl_ok t k s' ∧ node_ok mc') s3) as Hk.
    { destruct ty; try (wp_steps; eapply wp_mono;
        [apply (terminate_name_wp e); [done|lia]|intros; by wp_steps]).
      apply (parse_char_wp (S fuel) t s3 q); done || lia. }
    eapply wp_mono; [exact Hk|]. intros [k mc'] s4 [[Hi4 Hk4] Hn4].
    destruct k as [|q']; [wp_steps; by split|].
    apply Hrest; try done; destruct q'; simpl in *; lia || done.
Qed.

Lemma smodlh_wp fuel p s :
  inv e s → p ≤ e → e - p < fuel →
  wp (parse_smodlh indet_null fuel p new_node)
    (λ r s', parsed_ok p r.1 s') s.
Proof.
  intros Hi Hp Hf. unfold parse_smodlh. wp_steps.
  by apply (smodlh_loop_wp fuel (Some p)).
Qed.

Lemma parse_proc_mod_wp fuel p mc s :
  inv e s → p ≤ e → e - p < fuel → node_ok mc →
  wp (parse_proc_mod indet_null fuel p mc) (λ '(k, mc') s', ctl_ok p k s') s.
Proof.
  intros Hi Hp Hf Hn. unfold parse_proc_mod. wp_steps.
  eapply wp_mono; [by apply (find_valid_name_wp e)|].
  intros [[t o] len] s2 (Hx2&Ht&Htok). pose proof (inv_ext _ _ _ Hx2 Hi) as Hi2.
  destruct o as [| |off]; [by destruct Htok|by wp_steps|].
  cbn [is_null]. wp_steps. rewrite (inv_end _ _ Hi2).
  case_decide; [by wp_steps|].
  wp_steps. eapply wp_mono; [apply (copy_modn_wp e p t); done || lia || by right|].
  intros mc' s3 [-> Hn']. wp_steps.
  eapply wp_mono; [apply (jumpspace_wp e); done || lia|]. intros u s3 [Hx3 Hu].
  pose proof (inv_ext _ _ _ Hx3 Hi2) as Hi3.
  destruct (inv_lookup e s3 u Hi3) as [c Hc]; [lia|].
  apply wp_bind, (wp_rd _ _ c); [done|]. case_decide as Hb; [by wp_steps|].
  assert (u ≠ e).
  { intros ->. destruct Hi3 as (_&Hz&_). congruence. }
  wp_steps. eapply wp_mono; [apply smodlh_wp; done || lia|].
  intros [r m] s4 [Hi4 Hr]. wp_steps. split; [done|]. destruct r; simpl in *; lia || done.
Qed.

Lemma parse_main_wp fuel p mc s :
  inv e s → node_ok mc → start_ok fuel p →
  wp (parse_main indet_null fuel p mc) (λ _ s', inv e s') s.
Proof.
  revert p mc s. induction fuel as [|fuel IH]; intros [p|] mc s Hi Hn Hf;
    simpl in Hf; try lia; cbn [parse_main]; [|by wp_steps].
  destruct Hf as [Hp Hf]. wp_steps. rewrite (inv_end _ _ Hi).
  case_decide; [by wp_steps|].
  wp_steps. eapply wp_mono; [apply (find_valid_name_wp e); done || lia|].
  intros [[t o] len] s2 (Hx2&Ht&Htok).
  pose proof (inv_ext _ _ _ Hx2 Hi) as Hi2.
  destruct (is_null indet_null o) eqn:Hnull; [by wp_steps|].
  case_decide; [by wp_steps|].
  destruct o as [| |off]; [destruct Htok; lia|done|].
  apply lookahead_wp; [done|lia|lia|].
  intros sub arr s3 Hx3 Ha. pose proof (inv_ext _ _ _ Hx3 Hi2) as Hi3.
  pose proof Htok as (?&?&?).
  assert (∀ q' mc' s', inv e s' → start_ok fuel q' →
    wp ('(r, nx) ← parse_main indet_null fuel q' new_node;
        mret (r, set_next (Some nx) mc')) (λ _ s', inv e s') s') as Hrest.
  { intros q' mc' s4 ? ?. wp_steps. eapply wp_mono; [by apply IH|].
    intros [r nx] s5 Hr. by wp_steps. }
  destruct sub; [|destruct arr].
  - eapply enter_wp; try done; [lia|by apply Ha; left|].
    intros mc' u s4 Hn' Hi4 Hu. wp_steps.
    eapply wp_mono; [apply smodlh_wp; [done|lia|lia]|].
    intros [r m] s5 [Hi5 Hr]. apply Hrest; [done|]. destruct r; simpl in *; lia.
  - eapply enter_wp; try done; [lia|by apply Ha; right|].
    intros mc' u s4 Hn' Hi4 Hu. wp_steps.
    eapply wp_mono; [apply arraylh_wp; [done|lia|lia]|].
    intros [r m] s5 [Hi5 Hr]. apply Hrest; [done|]. destruct r; simpl in *; lia.
  - wp_steps. apply keyword_of_wp. intros ty. wp_steps.
    assert (wp (match ty with
      | char_t => parse_char indet_null (S fuel) t (PAt off) len (set_ntype ty mc)
      | proc_mod_t => parse_proc_mod indet_null (S fuel) t (set_ntype ty mc)
      | _ => terminate_name (PAt off) len;; mret (Return, set_ntype ty mc)
      end) (λ '(k, mc') s', ctl_ok t k s') s3) as Hk.
    { destruct ty; try (wp_steps; eapply wp_mono;
        [apply (terminate_name_wp e); [done|lia]|intros; by wp_steps]).
      - eapply wp_mono; [apply (parse_char_wp (S fuel) t s3 p); done || lia|].
        by intros [k mc'] s' [? ?].
      - apply parse_proc_mod_wp; done || lia. }
    eapply wp_mono; [exact Hk|]. intros [k mc'] s4 [Hi4 Hk4].
    destruct k as [|q']; [by wp_steps|].
    apply Hrest; [done|]. destruct q'; simpl in *; lia.
Qed.

Lemma parse_wp mch s :
  inv e s → node_ok mch → wp (parse indet_null mch) (λ _ s', inv e s') s.
Proof.
  intros Hi Hn. unfold parse. wp_steps. rewrite (inv_end _ _ Hi).
  eapply wp_mono; [apply parse_main_wp; [done|done|simpl; lia]|].
  intros [r t] s' Hi'. wp_steps. unfold when. case_match; by wp_steps.
Qed.
End total.
