(* ===== verification/PConfGrammar.v ===== *)
(** * src/conf/pconf: the grammar of configuration files, and the parser's
    result on every text it generates. *)

From S2P Require Import Prelude PString PConf PConfProofs.

Local Open Scope nat_scope.

(** ** The grammar *)

Definition blank_char (c : ascii) : Prop := is_blank c = true ∨ c = "010"%char.

(** What may stand between tokens: blanks, line ends and ['#'] comments. *)
Inductive is_sep : list ascii → Prop :=
  | sep_nil : is_sep []
  | sep_blank c w : blank_char c → is_sep w → is_sep (c :: w)
  | sep_comment body w :
      "010"%char ∉ body → is_sep w →
      is_sep ("#"%char :: body ++ "010"%char :: w).

Definition is_name (k : list ascii) : Prop :=
  k ≠ [] ∧ Forall (λ c, validname c = Some true) k.

(** A value does not start like a comment, a block or an array. *)
Definition is_value (v : list ascii) : Prop :=
  Forall (λ c, validvalue c = Some true) v ∧
  match v with [] => False | c :: _ => c ≠ "#"%char ∧ c ≠ "{"%char end.

(** ['#'] belongs to the value alphabet, so no comment may touch a value. *)
Definition no_hash (w : list ascii) : Prop := head w ≠ Some "#"%char.

(** The zeroed [n]-byte field [rc_strncpy] has copied [s] into. *)
Definition cfield (n : nat) (s : list ascii) : list ascii :=
  let k := length s `min` (n - 1) in take k s ++ replicate (n - k) NUL.

Definition arr_node (v : list ascii) (t : CN_S) : CN_S :=
  conf_node (replicate 64 NUL) (cfield 128 v) array_ele None (Some t).

(** Array elements after the first, then a whole array body. *)
Inductive arr_tail : list ascii → CN_S → Prop :=
  | at_end : arr_tail [] new_node
  | at_val s1 v s2 w t :
      is_sep s1 → is_value v → is_sep s2 → no_hash s2 → arr_tail w t →
      arr_tail (","%char :: s1 ++ v ++ s2 ++ w) (arr_node v t).

Inductive arr_body : list ascii → CN_S → Prop :=
  | ab_nil : arr_body [] new_node
  | ab_val v s2 w t :
      is_value v → is_sep s2 → no_hash s2 → arr_tail w t →
      arr_body (v ++ s2 ++ w) (arr_node v t).

(** [gram top w t]: the text [w] is a sequence of entries whose nodes are the
    chain [t]; [proc] entries occur at top level only. *)
Inductive gram : bool → list ascii → CN_S → Prop :=
  | g_nil top : gram top [] new_node
  | g_val top s1 k s2 v s3 w t :
      is_sep s1 → is_name k → k ≠ bytes "proc" →
      is_sep s2 → s2 ≠ [] → is_value v → is_sep s3 → no_hash s3 →
      gram top w t →
      gram top (s1 ++ k ++ s2 ++ v ++ s3 ++ ";"%char :: w)
        (conf_node (cfield 64 k) (cfield 128 v) char_t None (Some t))
  | g_sub top s1 k s2 b tb s3 w t :
      is_sep s1 → is_name k → is_sep s2 → gram false b tb → is_sep s3 →
      gram top w t →
      gram top (s1 ++ k ++ s2 ++ "{"%char :: b ++ s3 ++ "}"%char :: w)
        (conf_node (cfield 64 k) (replicate 128 NUL) subnode_t (Some tb) (Some t))
  | g_arr top s1 k s2 s3 b tb w t :
      is_sep s1 → is_name k → is_sep s2 → is_sep s3 → arr_body b tb →
      gram top w t →
      gram top (s1 ++ k ++ s2 ++ "["%char :: s3 ++ b ++ "]"%char :: w)
        (conf_node (cfield 64 k) (replicate 128 NUL) array_t (Some tb) (Some t))
  | g_proc s1 s2 k s3 b tb s4 w t :
      is_sep s1 → is_sep s2 → s2 ≠ [] → is_name k → is_sep s3 →
      gram false b tb → is_sep s4 → gram true w t →
      gram true (s1 ++ bytes "proc" ++ s2 ++ k ++ s3 ++ "{"%char :: b ++ s4 ++ "}"%char :: w)
        (conf_node (cfield 64 k) (replicate 128 NUL) proc_mod_t (Some tb) (Some t)).

(** ** Text at a position *)

Definition at_ (s : pconf) (p : nat) (w : list ascii) : Prop :=
  p + length w ≤ endp s ∧ ∀ i c, w !! i = Some c → buf s !! (p + i) = Some c.

Lemma at_ext s s' p w : ext s s' → at_ s p w → at_ s' p w.
Proof. intros (Hb&He&_&_) [??]. unfold at_. by rewrite Hb, He. Qed.

Lemma at_app s p w1 w2 :
  at_ s p (w1 ++ w2) ↔ at_ s p w1 ∧ at_ s (p + length w1) w2.
Proof.
  unfold at_. rewrite length_app. split.
  - intros [Hl H]. split; (split; [lia|]); intros i c Hc.
    + apply H. by apply lookup_app_l_Some.
    + rewrite <- Nat.add_assoc. apply H. rewrite lookup_app_r by lia.
      by replace (length w1 + i - length w1) with i by lia.
  - intros [[_ H1] [Hl H2]]. split; [lia|]. intros i c Hc.
    apply lookup_app_Some in Hc as [Hc|[Hi Hc]]; [by apply H1|].
    apply H2 in Hc. by replace (p + i) with (p + length w1 + (i - length w1)) by lia.
Qed.

Lemma at_cons s p c w :
  at_ s p (c :: w) ↔ (buf s !! p = Some c ∧ p < endp s) ∧ at_ s (S p) w.
Proof.
  change (c :: w) with ([c] ++ w). rewrite at_app. simpl.
  rewrite Nat.add_1_r. unfold at_ at 1. simpl. split.
  - intros [[Hl H] ?]. split; [|done]. split; [|lia].
    specialize (H 0 c eq_refl). by rewrite Nat.add_0_r in H.
  - intros [[Hc Hl] ?]. split; [|done]. split; [lia|].
    intros [|i] d; [|done]. intros [= <-]. by rewrite Nat.add_0_r.
Qed.

Lemma at_nil s p w : at_ s p w → w = [] ∨ p < endp s.
Proof. destruct w; [by left|]. intros [H _]. simpl in H. right. lia. Qed.

(** A position where skipping spaces stops. *)
Definition stop_char (c : ascii) : Prop := ¬ blank_char c ∧ c ≠ "#"%char.
Definition stops (s : pconf) (p : nat) : Prop :=
  endp s ≤ p ∨ ∃ c, buf s !! p = Some c ∧ stop_char c.

Lemma stops_ext s s' p : ext s s' → stops s p → stops s' p.
Proof. intros (Hb&He&_&_) H. unfold stops. by rewrite Hb, He. Qed.

Lemma stops_cons s p c w : at_ s p (c :: w) → stop_char c → stops s p.
Proof. rewrite at_cons. intros [[? _] _] ?. right. eauto. Qed.

#[export] Instance blank_char_dec c : Decision (blank_char c) := _.

Ltac stop_char := split; [intros [?|?]; discriminate|discriminate].

Lemma validname_stop c : validname c = Some true → stop_char c.
Proof.
  intros Hv. split.
  - intros [Hb| ->]; [|by vm_compute in Hv]. unfold is_blank in Hb.
    apply orb_true_iff in Hb as [Hb|Hb]; [apply orb_true_iff in Hb as [Hb|Hb]|];
      apply bool_decide_eq_true in Hb; subst c; by vm_compute in Hv.
  - intros ->. by vm_compute in Hv.
Qed.

Lemma value_head_stop v : is_value v →
  ∃ c v', v = c :: v' ∧ stop_char c ∧ c ≠ "{"%char ∧ c ≠ "["%char ∧
    validvalue c = Some true.
Proof.
  destruct v as [|c v']; [by intros [_ ?]|]. intros [Hf [Hh Hb]].
  apply Forall_cons_1 in Hf as [Hv _]. exists c, v'. split; [done|]. split.
  - split; [|done]. intros [Hc| ->]; [|by vm_compute in Hv]. unfold is_blank in Hc.
    apply orb_true_iff in Hc as [Hc|Hc]; [apply orb_true_iff in Hc as [Hc|Hc]|];
      apply bool_decide_eq_true in Hc; subst c; by vm_compute in Hv.
  - split; [done|]. split; [|done]. intros ->. by vm_compute in Hv.
Qed.

(** ** Scanning known text *)

Lemma sep_app w1 w2 : is_sep w1 → is_sep w2 → is_sep (w1 ++ w2).
Proof.
  induction 1 as [|c w Hc Hw IH|body w Hb Hw IH]; intros H2; [done|by constructor; auto|].
  simpl. rewrite <- app_assoc. simpl. apply sep_comment; auto.
Qed.

Lemma sep_cons c w : is_sep (c :: w) → blank_char c ∨ c = "#"%char.
Proof. inversion 1; auto. Qed.

Section scan.
Context (e : nat).

Lemma skip_line_at fuel p body w s :
  inv e s → e - p < fuel → "010"%char ∉ body →
  at_ s p (body ++ "010"%char :: w) →
  wp (skip_line fuel p) (λ q s', q = p + length body ∧ s' = s) s.
Proof.
  intros Hi. revert p body. induction fuel as [|fuel IH]; intros p body Hf Hb Ha; [lia|].
  pose proof (inv_end _ _ Hi) as He. cbn [skip_line]. wp_steps.
  destruct body as [|c body]; simpl in Ha; apply at_cons in Ha as [[Hc Hlt] Ha].
  - rewrite decide_True by lia. apply wp_bind. eapply wp_rd; [done|].
    rewrite decide_False by (intros Hn; by apply Hn). wp_steps. split; [simpl; lia|done].
  - apply not_elem_of_cons in Hb as [? ?].
    rewrite decide_True by lia. apply wp_bind. eapply wp_rd; [done|].
    rewrite decide_True by congruence.
    eapply wp_mono; [apply IH; done || lia|]. simpl. intros q s' [-> ->]. split; [lia|done].
Qed.

(** [jumpcomment] stops inside the separator, past every comment it met. *)
Lemma jumpcomment_sep w : is_sep w → ∀ fuel p s,
  inv e s → e - p < fuel → p ≤ e → at_ s p w → stops s (p + length w) →
  wp (jumpcomment fuel p) (λ q s', ext s s' ∧ ∃ w1 w2,
    w = w1 ++ w2 ∧ q = p + length w1 ∧ is_sep w2 ∧
    (head w = Some "#"%char → w1 ≠ [])) s.
Proof.
  induction 1 as [|c w Hc Hw IH|body w Hb Hw IH];
    intros [|fuel] p s Hi Hf Hp Ha Hs; try lia; cbn [jumpcomment].
  - destruct (inv_lookup e s p Hi Hp) as [c Hc].
    apply wp_bind. eapply wp_rd; [done|].
    rewrite decide_False.
    + wp_steps. split; [done|]. exists [], []. repeat split; [simpl; lia|constructor|done].
    + intros ->. simpl in Hs. rewrite Nat.add_0_r in Hs.
      destruct Hs as [Hs|(c & Hc' & Hst)].
      * assert (p = e) as -> by (rewrite (inv_end _ _ Hi) in Hs; lia).
        destruct Hi as (_&Hn&_). congruence.
      * rewrite Hc in Hc'. injection Hc' as <-. by destruct Hst.
  - pose proof Ha as Ha'. apply at_cons in Ha' as [[Hr Hlt] Ha'].
    apply wp_bind. eapply wp_rd; [done|].
    rewrite decide_False by (destruct Hc as [Hc|Hc]; intros ->; done).
    wp_steps. split; [done|]. exists [], (c :: w).
    repeat split; [simpl; lia|by constructor|]. simpl. intros [= ->].
    by destruct Hc.
  - pose proof Ha as Ha'. apply at_cons in Ha' as [[Hr Hlt] Ha'].
    pose proof (inv_end _ _ Hi) as He.
    apply wp_bind. eapply wp_rd; [done|]. rewrite decide_True by done.
    apply wp_bind. eapply wp_mono.
    { apply (skip_line_at (S fuel) p ("#"%char :: body) w);
        [done|lia|by apply not_elem_of_cons|done]. }
    intros q s' [-> ->]. wp_steps.
    apply at_app in Ha' as [_ Ha']. apply at_cons in Ha' as [[_ Hlt'] Ha'].
    rewrite decide_False by (simpl; lia). wp_steps.
    eapply wp_mono; [apply IH|].
    + by eapply inv_ext.
    + simpl. lia.
    + simpl. lia.
    + eapply at_ext; [done|]. simpl. by replace (S (p + S (length body)))
        with (S (S p + length body)) by lia.
    + eapply stops_ext; [done|]. simpl in *. rewrite length_app in Hs. simpl in Hs.
      by replace (S (p + S (length body) + length w))
        with (p + S (length body + S (length w))) by lia.
    + intros q s' (Hx & w1 & w2 & -> & -> & Hw2 & _).
      split; [by etrans|]. exists ("#"%char :: body ++ "010"%char :: w1), w2.
      split; [simpl; by rewrite <- app_assoc|].
      split; [simpl; rewrite length_app; simpl; lia|]. done.
Qed.

Lemma jumpspace_sep fuel : ∀ w p s,
  is_sep w → inv e s → e - p < fuel → p ≤ e → at_ s p w →
  stops s (p + length w) →
  wp (jumpspace fuel p) (λ q s', q = p + length w ∧ ext s s') s.
Proof.
  induction fuel as [|fuel IH]; intros w p s Hw Hi Hf Hp Ha Hs; [lia|].
  pose proof (inv_end _ _ Hi) as He. cbn [jumpspace]. wp_steps. rewrite He.
  destruct w as [|c w].
  - simpl in Hs. rewrite Nat.add_0_r in Hs. case_decide.
    2:{ wp_steps. split; [simpl; lia|done]. }
    destruct Hs as [?|(c & Hc & Hn & Hh)]; [lia|].
    apply wp_bind. eapply wp_rd; [done|].
    destruct (is_blank c) eqn:Hb; [destruct Hn; by left|].
    rewrite !decide_False; [|done|intros ->; destruct Hn; by right].
    wp_steps. split; [simpl; lia|done].
  - pose proof Ha as Ha'. apply at_cons in Ha' as [[Hc Hlt] Ha'].
    rewrite decide_True by lia. apply wp_bind. eapply wp_rd; [done|].
    assert (p + length (c :: w) = S p + length w) as El by (simpl; lia).
    assert (blank_char c → is_sep w) as Hsub.
    { intros Hbl. inversion Hw; subst; [done|]. by destruct Hbl. }
    destruct (is_blank c) eqn:Hb.
    { eapply wp_mono; [apply (IH w); try done; try lia; [apply Hsub; by left|by rewrite <- El]|].
      intros q s' [-> ?]. by rewrite El. }
    case_decide as Hnl.
    { wp_steps. eapply wp_mono; [apply (IH w)|].
      - apply Hsub. by right.
      - by eapply inv_ext.
      - lia.
      - lia.
      - by eapply at_ext.
      - eapply stops_ext; [done|]. by rewrite <- El.
      - intros q s' [-> Hx]. rewrite El. split; [done|by etrans]. }
    assert (c = "#"%char) as ->.
    { destruct (sep_cons _ _ Hw) as [[?|?]|?]; congruence. }
    rewrite decide_True by done. apply wp_bind.
    eapply wp_mono; [by apply (jumpcomment_sep _ Hw)|].
    intros q s' (Hx & w1 & w2 & Ew & -> & Hw2 & Hne).
    specialize (Hne eq_refl). rewrite Ew in *. rewrite length_app in *.
    assert (0 < length w1) by (destruct w1; [done|simpl; lia]).
    apply at_app in Ha as [_ Ha2].
    assert (p + length w1 ≤ e).
    { destruct Ha2 as [Hl2 _]. lia. }
    eapply wp_mono; [apply (IH w2)|].
    + done.
    + by eapply inv_ext.
    + lia.
    + lia.
    + by eapply at_ext.
    + eapply stops_ext; [done|].
      by replace (p + length w1 + length w2) with (p + (length w1 + length w2)) by lia.
    + intros q s2 [-> Hx2]. split; [lia|by etrans].
Qed.

Lemma span_at table fuel p w s :
  inv e s → e - p < fuel → p ≤ e →
  Forall (λ c, valid_char table c = Some true) w → at_ s p w →
  (endp s ≤ p + length w ∨ ∃ c, buf s !! (p + length w) = Some c ∧
     valid_char table c = Some false) →
  wp (span (valid_char table) fuel p) (λ q s', q = p + length w ∧ s' = s) s.
Proof.
  intros Hi. revert p w.
  induction fuel as [|fuel IH]; intros p w Hf Hp Hw Ha Hs; [lia|].
  pose proof (inv_end _ _ Hi) as He. cbn [span]. wp_steps. rewrite He in *.
  destruct w as [|c w].
  - simpl in *. rewrite Nat.add_0_r in *. case_decide; [|by wp_steps].
    destruct Hs as [?|(c & Hc & Hv)]; [lia|].
    apply wp_bind. eapply wp_rd; [done|]. apply wp_bind. eapply wp_lift; [done|].
    by wp_steps.
  - apply at_cons in Ha as [[Hc Hlt] Ha]. apply Forall_cons_1 in Hw as [Hv Hw].
    rewrite decide_True by lia.
    apply wp_bind. eapply wp_rd; [done|]. apply wp_bind. eapply wp_lift; [done|].
    assert (p + length (c :: w) = S p + length w) as El by (simpl; lia).
    rewrite El in *.
    eapply wp_mono; [apply (IH (S p) w); try done; lia|]. done.
Qed.
End scan.

(** ** Tokens *)

Lemma at_buf s p w : at_ s p w → ∃ r, drop p (buf s) = w ++ r.
Proof.
  revert p. induction w as [|c w IH]; intros p Ha; simpl; [eauto|].
  apply at_cons in Ha as [[Hc _] Ha]. destruct (IH _ Ha) as [r Hr].
  exists r. rewrite (drop_S _ c) by done. by rewrite Hr.
Qed.

Lemma copy_from_at s off k n d_l :
  at_ s off k → NUL ∉ k → Z.of_nat n = d_l → 0 < n → (d_l < 2 ^ 31)%Z →
  copy_from (replicate n NUL) d_l (PAt off) (length k) s = Some (cfield n k, s).
Proof.
  intros Ha Hk <- Hn Hd. unfold copy_from, lift.
  cbv [mbind M_bind get]. destruct (at_buf _ _ _ Ha) as [r ->].
  rewrite (rc_strncpy_spec _ _ _ _ (length k `min` (n - 1))).
  - simpl. do 2 f_equal. unfold cfield. rewrite take_app_le by lia. f_equal.
    rewrite drop_replicate.
    replace (n - length k `min` (n - 1))
      with (S (n - S (length k `min` (n - 1)))) by lia. done.
  - rewrite length_replicate. lia.
  - done.
  - lia.
  - rewrite take_app_le by lia. intros H. apply Hk.
    rewrite <- (take_drop (length k `min` (n - 1)) k). apply elem_of_app. by left.
  - rewrite length_app. lia.
Qed.

Lemma valid_no_nul table k :
  Forall (λ c, valid_char table c = Some true) k →
  valid_char table NUL = Some false → NUL ∉ k.
Proof.
  intros Hk Hn Hin. rewrite List.Forall_forall in Hk.
  apply list_elem_of_In in Hin. specialize (Hk _ Hin). congruence.
Qed.

Lemma name_no_nul k : is_name k → NUL ∉ k.
Proof. intros [_ Hk]. by eapply valid_no_nul. Qed.
Lemma value_no_nul v : is_value v → NUL ∉ v.
Proof. intros [Hv _]. by eapply valid_no_nul. Qed.

Lemma sep_head_not_name c w :
  is_sep (c :: w) → validname c = Some false.
Proof.
  intros H. destruct (sep_cons _ _ H) as [[Hb| ->]| ->]; [|done..].
  unfold is_blank in Hb.
  apply orb_true_iff in Hb as [Hb|Hb]; [apply orb_true_iff in Hb as [Hb|Hb]|];
    apply bool_decide_eq_true in Hb; by subst c.
Qed.

Lemma sep_head_not_value c w :
  is_sep (c :: w) → no_hash (c :: w) → validvalue c = Some false.
Proof.
  intros H Hh. destruct (sep_cons _ _ H) as [[Hb| ->]| ->]; [|done|by destruct Hh].
  unfold is_blank in Hb.
  apply orb_true_iff in Hb as [Hb|Hb]; [apply orb_true_iff in Hb as [Hb|Hb]|];
    apply bool_decide_eq_true in Hb; by subst c.
Qed.

(** The first character of [sep ++ d :: w]. *)
Lemma sep_then_not_name s2 d w :
  is_sep s2 → validname d = Some false →
  ∃ c w', s2 ++ d :: w = c :: w' ∧ validname c = Some false.
Proof.
  intros Hs Hd. destruct s2 as [|c s2]; [by exists d, w|].
  exists c, (s2 ++ d :: w). split; [done|]. by eapply sep_head_not_name.
Qed.

Lemma sep_then_not_value s2 d w :
  is_sep s2 → no_hash s2 → validvalue d = Some false →
  ∃ c w', s2 ++ d :: w = c :: w' ∧ validvalue c = Some false.
Proof.
  intros Hs Hh Hd. destruct s2 as [|c s2]; [by exists d, w|].
  exists c, (s2 ++ d :: w). split; [done|]. by eapply sep_head_not_value.
Qed.

Section tokens.
Context (e : nat) (s : pconf) (Hi : inv e s).

Lemma at_le p w : at_ s p w → p ≤ e.
Proof. intros [H _]. rewrite (inv_end _ _ Hi) in H. lia. Qed.

(** Skipping a separator in front of a token. *)
Lemma jumpspace_at fuel p sp c w :
  e - p < fuel → is_sep sp → stop_char c → at_ s p (sp ++ c :: w) →
  wp (jumpspace fuel p) (λ q s', q = p + length sp ∧ ext s s') s.
Proof.
  intros Hf Hsp Hc Ha. pose proof (at_le _ _ Ha).
  apply at_app in Ha as [Ha1 Ha2]. apply (jumpspace_sep e); try done.
  by eapply stops_cons.
Qed.

Lemma next_is_at ch fuel p sp c w :
  e - p < fuel → is_sep sp → stop_char c → at_ s p (sp ++ c :: w) →
  wp (next_is ch fuel p) (λ b s', b = bool_decide (c = ch) ∧ ext s s') s.
Proof.
  intros Hf Hsp Hc Ha. unfold next_is. wp_steps.
  eapply wp_mono; [by eapply jumpspace_at|]. intros q s' [-> Hx]. wp_steps.
  apply at_app in Ha as [_ Ha]. eapply at_ext in Ha; [|done].
  apply at_cons in Ha as [[Hr Hlt] _].
  rewrite decide_True by done. apply wp_bind. eapply wp_rd; [done|]. by wp_steps.
Qed.

Lemma find_valid_name_at fuel p o s1 k c w :
  e - p < fuel → is_sep s1 → is_name k → validname c = Some false →
  at_ s p (s1 ++ k ++ c :: w) →
  wp (find_valid_name fuel p o 0) (λ r s',
    r = (p + length s1 + length k, PAt (p + length s1), length k) ∧ ext s s') s.
Proof.
  intros Hf Hs1 [Hne Hk] Hc Ha. destruct k as [|a k]; [done|].
  assert (validname a = Some true) as Hva by exact (Forall_inv Hk).
  unfold find_valid_name. wp_steps.
  eapply wp_mono; [eapply (jumpspace_at fuel p s1 a); try done; by apply validname_stop|].
  intros q s' [-> Hx]. wp_steps. pose proof (inv_ext _ _ _ Hx Hi) as Hi'.
  apply at_app in Ha as [_ Ha]. eapply at_ext in Ha; [|done].
  apply at_app in Ha as [Hk' Hr']. pose proof Hk' as Hk2.
  apply at_cons in Hk2 as [[Hr Hlt] _]. apply at_cons in Hr' as [[Hr2 Hlt2] _].
  rewrite (inv_end _ _ Hi') in *.
  rewrite decide_False by lia. wp_steps. eapply wp_rd; [done|]. wp_steps.
  eapply wp_lift; [done|]. simpl. wp_steps.
  eapply wp_mono; [apply (span_at e bvalidname fuel _ (a :: k)); try done; try lia|].
  { right. eauto. }
  intros q s2 [-> ->]. wp_steps. split; [|done]. repeat f_equal; simpl; lia.
Qed.

(** Reading a value up to the character that follows its separator. *)
Lemma value_span_at p v c w :
  is_value v → validvalue c = Some false → at_ s p (v ++ c :: w) → ∀ fuel,
  e - p < fuel →
  wp (span validvalue fuel p) (λ q s', q = p + length v ∧ s' = s) s.
Proof.
  intros [Hv _] Hc Ha fuel Hf. pose proof (at_le _ _ Ha).
  apply at_app in Ha as [Ha1 Ha2].
  apply at_cons in Ha2 as [[Hr Hlt] _].
  apply (span_at e bvalidvalue); try done. right. eauto.
Qed.
End tokens.

Lemma find_valid_value_at e s fuel p s2 v s3 w :
  inv e s → e - p < fuel → is_sep s2 → is_value v → is_sep s3 → no_hash s3 →
  at_ s p (s2 ++ v ++ s3 ++ ";"%char :: w) →
  wp (find_valid_value fuel p PNull 0) (λ r s',
    r = (p + length s2 + length v + length s3 + 1, PAt (p + length s2), length v)
    ∧ ext s s') s.
Proof.
  intros Hi Hf Hs2 Hv Hs3 Hh Ha.
  destruct (value_head_stop v Hv) as (a & v' & Ev & Hst & _ & _ & Hva).
  unfold find_valid_value. wp_steps.
  eapply wp_mono.
  { eapply (jumpspace_at e s Hi fuel p s2 a); try done. by rewrite Ev in Ha. }
  intros q s' [-> Hx]. wp_steps. pose proof (inv_ext _ _ _ Hx Hi) as Hi'.
  apply at_app in Ha as [_ Ha]. eapply at_ext in Ha; [|done]. pose proof Ha as Ha'.
  rewrite Ev in Ha'. simpl in Ha'. apply at_cons in Ha' as [[Hr Hlt] _].
  rewrite (inv_end _ _ Hi') in *.
  rewrite decide_False by lia. wp_steps. eapply wp_rd; [done|]. wp_steps.
  eapply wp_lift; [done|]. simpl. wp_steps.
  destruct (sep_then_not_value s3 ";"%char w Hs3 Hh eq_refl) as (c & w' & Ec & Hc).
  pose proof Ha as Ha2. rewrite Ec in Ha2.
  eapply wp_mono; [eapply (value_span_at e s' Hi'); done || lia|].
  intros q s2' [-> ->]. wp_steps.
  apply at_app in Ha as [_ Ha]. pose proof (at_le e s' Hi' _ _ Ha).
  eapply wp_mono.
  { eapply (jumpspace_at e s' Hi' fuel _ s3 ";"%char); try done; [lia|]. stop_char. }
  intros q s2' [-> Hx2]. wp_steps.
  apply at_app in Ha as [_ Ha]. eapply at_ext in Ha; [|done].
  apply at_cons in Ha as [[Hr2 _] _].
  eapply wp_rd; [done|]. rewrite decide_False by (intros Hn; by apply Hn).
  wp_steps. split; [|by etrans]. repeat f_equal; lia.
Qed.

Lemma find_valid_array_value_at e s fuel p s1 v s2 c w :
  inv e s → e - p < fuel → is_sep s1 → is_value v → is_sep s2 → no_hash s2 →
  stop_char c → validvalue c = Some false →
  at_ s p (s1 ++ v ++ s2 ++ c :: w) →
  wp (find_valid_array_value fuel p PNull 0) (λ r s',
    r = (p + length s1 + length v + length s2, PAt (p + length s1), length v)
    ∧ ext s s') s.
Proof.
  intros Hi Hf Hs1 Hv Hs2 Hh Hcs Hcv Ha.
  destruct (value_head_stop v Hv) as (a & v' & Ev & Hst & _ & _ & Hva).
  unfold find_valid_array_value. wp_steps.
  eapply wp_mono.
  { eapply (jumpspace_at e s Hi fuel p s1 a); try done. by rewrite Ev in Ha. }
  intros q s' [-> Hx]. wp_steps. pose proof (inv_ext _ _ _ Hx Hi) as Hi'.
  apply at_app in Ha as [_ Ha]. eapply at_ext in Ha; [|done]. pose proof Ha as Ha'.
  rewrite Ev in Ha'. simpl in Ha'. apply at_cons in Ha' as [[Hr Hlt] _].
  rewrite (inv_end _ _ Hi') in *.
  rewrite decide_False by lia. wp_steps. eapply wp_rd; [done|]. wp_steps.
  eapply wp_lift; [done|]. simpl. wp_steps.
  destruct (sep_then_not_value s2 c w Hs2 Hh Hcv) as (c' & w' & Ec & Hc').
  pose proof Ha as Ha2. rewrite Ec in Ha2.
  eapply wp_mono; [eapply (value_span_at e s' Hi'); done || lia|].
  intros q s2' [-> ->]. wp_steps.
  apply at_app in Ha as [_ Ha]. pose proof (at_le e s' Hi' _ _ Ha).
  eapply wp_mono; [eapply (jumpspace_at e s' Hi' fuel _ s2 c); done || lia|].
  intros q s2' [-> Hx2]. wp_steps. split; [|by etrans]. repeat f_equal; lia.
Qed.

(** ** Arrays *)

#[local] Arguments replicate : simpl never.

Section parse.
Context (indet_null : bool) (e : nat).

Lemma copy_var_at s off v mc (K : CN_S → pconf → Prop) :
  at_ s off v → is_value v → var mc = replicate 128 NUL →
  K (set_var (cfield 128 v) mc) s →
  wp (copy_var (PAt off) (length v) mc) K s.
Proof.
  intros Ha Hv Hm HK. unfold copy_var. wp_steps. rewrite Hm.
  eapply wp_intro; [apply copy_from_at; try done; [by apply value_no_nul|lia]|].
  by wp_steps.
Qed.

Lemma copy_modn_at s off k mc (K : CN_S → pconf → Prop) :
  at_ s off k → is_name k → modn mc = replicate 64 NUL →
  K (set_modn (cfield 64 k) mc) s →
  wp (copy_modn (PAt off) (length k) mc) K s.
Proof.
  intros Ha Hv Hm HK. unfold copy_modn. wp_steps. rewrite Hm.
  eapply wp_intro; [apply copy_from_at; try done; [by apply name_no_nul|lia]|].
  by wp_steps.
Qed.

Lemma ext_level_trans d s s1 s2 :
  ext s s1 → ext (add_level d s1) s2 → ext (add_level d s) s2.
Proof. intros (?&?&?&?) (?&?&?&?). repeat split; simpl in *; congruence. Qed.

(** What follows an element: a comma or the closing bracket. *)
Lemma arr_tail_head w0 t w :
  arr_tail w0 t → ∃ c w', w0 ++ "]"%char :: w = c :: w' ∧ stop_char c ∧
    validvalue c = Some false.
Proof.
  destruct 1 as [|s1 v s2 w0 t]; simpl; do 2 eexists;
    (split; [done|]); (split; [stop_char|done]).
Qed.

(** One element, from its first character to what follows its separator. *)
Lemma arr_element fuel p b s1 v s2 w0 w t s :
  inv e s → e - p < S fuel → is_sep s1 → is_value v → is_sep s2 → no_hash s2 →
  arr_tail w0 t →
  at_ s p (s1 ++ v ++ s2 ++ w0 ++ "]"%char :: w) →
  (∀ q s', q = p + length s1 + length v + length s2 → ext s s' →
    wp (arraylh_loop indet_null fuel (Some q) true new_node)
      (λ r s'', r = (Some (S (q + length w0)), t) ∧ ext (add_level (-1) s') s'') s') →
  b = p →
  wp ('(p, value, value_len) ← find_valid_array_value (S fuel) b PNull O;
      if is_null indet_null value then mret (None, new_node) else
      if decide (e ≤ p)%nat then mret (None, new_node) else
      mc ← copy_var value value_len new_node;
      let mc := set_ntype array_ele mc in
      '(q, nx) ← arraylh_loop indet_null fuel (Some p) true new_node;
      mret (q, set_next (Some nx) mc))
    (λ r s', r = (Some (S (p + length s1 + length v + length s2 + length w0)), arr_node v t)
      ∧ ext (add_level (-1) s) s') s.
Proof.
  intros Hi Hf Hs1 Hv Hs2 Hh Ht Ha IH ->. wp_steps.
  destruct (arr_tail_head w0 t w Ht) as (c & w' & Ec & Hcs & Hcv).
  rewrite Ec in Ha.
  eapply wp_mono; [by apply (find_valid_array_value_at e s (S fuel) p s1 v s2 c w')|].
  intros r s' [-> Hx]. wp_steps. cbn [is_null].
  pose proof (inv_ext _ _ _ Hx Hi) as Hi'. eapply at_ext in Ha; [|done].
  apply at_app in Ha as [_ Ha]. apply at_app in Ha as [Hv' Ha].
  apply at_app in Ha as [_ Ha]. apply at_cons in Ha as [[_ Hlt] _].
  rewrite (inv_end _ _ Hi') in Hlt.
  rewrite decide_False by lia. wp_steps. apply copy_var_at; [done..|].
  wp_steps. eapply wp_mono; [by apply IH|].
  intros r s2' [-> Hx2]. wp_steps. split; [done|]. by eapply ext_level_trans.
Qed.

Lemma arraylh_loop_tail w0 t : arr_tail w0 t → ∀ fuel p w s,
  inv e s → e - p < fuel → at_ s p (w0 ++ "]"%char :: w) →
  wp (arraylh_loop indet_null fuel (Some p) true new_node)
    (λ r s', r = (Some (S (p + length w0)), t) ∧ ext (add_level (-1) s) s') s.
Proof.
  induction 1 as [|s1 v s2 w0 t Hs1 Hv Hs2 Hh Ht IH];
    intros [|fuel] p w s Hi Hf Ha; try lia; cbn [arraylh_loop]; wp_steps;
    rewrite (inv_end _ _ Hi).
  - simpl in Ha. pose proof Ha as Ha'. apply at_cons in Ha' as [[_ Hlt] _].
    rewrite (inv_end _ _ Hi) in Hlt. rewrite decide_False by lia. wp_steps.
    eapply wp_mono.
    { eapply (jumpspace_at e s Hi (S fuel) p [] "]"%char); [done|constructor|stop_char|done]. }
    intros q s' [-> Hx]. simpl length. rewrite Nat.add_0_r.
    rewrite decide_False by lia.
    eapply at_ext in Ha; [|done]. apply at_cons in Ha as [[Hr _] _].
    apply wp_bind. eapply wp_rd; [done|]. rewrite decide_True by done. wp_steps.
    split; [done|]. by apply (ext_level_trans _ _ s').
  - simpl in Ha. pose proof Ha as Ha'. apply at_cons in Ha' as [[_ Hlt] _].
    rewrite (inv_end _ _ Hi) in Hlt. rewrite decide_False by lia. wp_steps.
    eapply wp_mono.
    { eapply (jumpspace_at e s Hi (S fuel) p [] ","%char); [done|constructor|stop_char|done]. }
    intros q s' [-> Hx]. simpl length. rewrite Nat.add_0_r.
    rewrite decide_False by lia. pose proof (inv_ext _ _ _ Hx Hi) as Hi'.
    eapply at_ext in Ha; [|done]. apply at_cons in Ha as [[Hr _] Ha].
    apply wp_bind. eapply wp_rd; [done|]. rewrite decide_False by done.
    rewrite bool_decide_eq_false_2 by (intros Hn; by apply Hn). simpl andb. cbv iota.
    rewrite <- !app_assoc in Ha.
    eapply wp_mono.
    { eapply (arr_element fuel (S p) _ s1 v s2 w0 w t s'); try done; [lia|].
      intros q s2' -> Hx2. apply (IH _ _ w); [by eapply inv_ext|lia|].
      eapply at_ext; [done|]. apply at_app in Ha as [_ Ha].
      apply at_app in Ha as [_ Ha]. by apply at_app in Ha as [_ Ha]. }
    intros r s2' [-> Hx2]. split.
    + do 2 f_equal. simpl. rewrite !length_app. lia.
    + by eapply ext_level_trans.
Qed.

Lemma parse_arraylh_at fuel p s3 b t w s :
  arr_body b t → is_sep s3 → inv e s → e - p < fuel →
  at_ s p (s3 ++ b ++ "]"%char :: w) →
  wp (parse_arraylh indet_null fuel p new_node)
    (λ r s', r = (Some (S (p + length s3 + length b)), t) ∧ ext s s') s.
Proof.
  intros Hb Hs3 Hi Hf Ha. unfold parse_arraylh. wp_steps.
  assert (∀ s', ext (add_level (-1) (add_level 1 s)) s' → ext s s') as Hback.
  { intros s' (?&?&Hl&?). repeat split; try done. rewrite Hl. simpl. lia. }
  set (s0 := add_level 1 s) in *.
  assert (inv e s0) as Hi0 by done. assert (at_ s0 p (s3 ++ b ++ "]"%char :: w)) as Ha0 by done.
  clearbody s0. clear Ha Hi. revert s0 Hi0 Ha0 Hback. intros s0 Hi Ha Hback.
  destruct fuel as [|fuel]; [lia|]. cbn [arraylh_loop]. wp_steps.
  rewrite (inv_end _ _ Hi).
  assert (∃ c w', b ++ "]"%char :: w = c :: w' ∧ stop_char c ∧
    (if b is [] then c = "]"%char else c ≠ "]"%char)) as (c & w' & Ec & Hcs & Hcb).
  { destruct Hb as [|v s2 w0 t Hv ? ? ?].
    - do 2 eexists. split; [done|]. split; [stop_char|done].
    - destruct (value_head_stop v Hv) as (a & v' & -> & Hst & _ & _ & Hva).
      do 2 eexists. split; [done|]. split; [done|]. simpl. intros ->. done. }
  pose proof Ha as Ha2. rewrite Ec in Ha2.
  assert (p < e ∧ p + length s3 < e) as [Hp Hp3].
  { pose proof Ha2 as [Hl _]. rewrite (inv_end _ _ Hi), length_app in Hl. simpl in Hl. lia. }
  rewrite decide_False by lia. wp_steps.
  eapply wp_mono; [by eapply (jumpspace_at e s0 Hi (S fuel) p s3 c)|].
  intros q s' [-> Hx]. pose proof (inv_ext _ _ _ Hx Hi) as Hi'.
  rewrite decide_False by lia.
  apply at_app in Ha as [_ Ha]. eapply at_ext in Ha; [|done]. pose proof Ha as Hab.
  rewrite Ec in Hab. apply at_cons in Hab as [[Hr _] _].
  apply wp_bind. eapply wp_rd; [done|].
  destruct Hb as [|v s2 w0 t Hv Hs2 Hh Ht].
  - subst c. rewrite decide_True by done. wp_steps. split; [do 2 f_equal; simpl; lia|].
    apply Hback. by apply (ext_level_trans _ _ s').
  - assert (c ≠ "]"%char) as Hne by (destruct v; [by destruct Hv|done]).
    assert (0 < length v) by (destruct v; [by destruct Hv|simpl; lia]).
    rewrite decide_False by done. cbn [andb].
    rewrite <- !app_assoc in Ha.
    eapply wp_mono.
    { eapply (arr_element fuel (p + length s3) _ [] v s2 w0 w t s'); try done; [lia|constructor|].
      intros q s2' -> Hx2. apply (arraylh_loop_tail _ _ Ht _ _ w); [by eapply inv_ext|lia|].
      eapply at_ext; [done|]. simpl. rewrite Nat.add_0_r.
      apply at_app in Ha as [_ Ha]. by apply at_app in Ha as [_ Ha]. }
    intros r s2' [-> Hx2]. split.
    + do 2 f_equal. simpl. rewrite !length_app. lia.
    + apply Hback. by eapply ext_level_trans.
Qed.

(** ** Entries *)

Lemma check_keyword_at s off k :
  at_ s off k → check_keyword (drop off (buf s)) (length k)
    = if decide (k = bytes "proc") then proc_mod_t else char_t.
Proof.
  intros Ha. destruct (at_buf _ _ _ Ha) as [r Hr].
  unfold check_keyword, keyword_list. rewrite Hr, take_app_length. cbn [list_find].
  case_decide as H1; case_decide as H2; try done.
  - destruct H1 as [_ H1]. by subst k.
  - destruct H1. by subst k.
Qed.

(** The name that opens an entry and the look-ahead for a bracket. *)
Lemma entry_head {A} fuel p s1 k s2 c w s X Y (K : nat → cptr → nat → bool → bool → M pconf A) Q :
  inv e s → e - p < fuel → is_sep s1 → is_name k → is_sep s2 → stop_char c →
  (∃ a w', s2 ++ c :: w = a :: w' ∧ validname a = Some false) →
  at_ s p (s1 ++ k ++ s2 ++ c :: w) →
  (∀ s', ext s s' →
    wp (K (p + length s1 + length k) (PAt (p + length s1)) (length k)
          (bool_decide (c = "{"%char)) (bool_decide (c = "["%char))) Q s') →
  wp ('(p, name, name_len) ← find_valid_name fuel p PIndet O;
      if is_null indet_null name then X p name name_len else
      if decide (e ≤ p)%nat then Y p name name_len else
      sub ← is_sub_node fuel p;
      arr ← (if (sub : bool) then mret false else is_array_node fuel p);
      K p name name_len sub arr) Q s.
Proof.
  intros Hi Hf Hs1 Hk Hs2 Hc (a & w' & Ea & Hva) Ha HK. wp_steps.
  pose proof Ha as Ha'. rewrite Ea in Ha'.
  eapply wp_mono; [by apply (find_valid_name_at e s Hi fuel p PIndet s1 k a w')|].
  intros r s' [-> Hx]. cbv iota. cbn [is_null].
  pose proof (inv_ext _ _ _ Hx Hi) as Hi'.
  apply at_app in Ha as [_ Ha]. apply at_app in Ha as [_ Ha].
  eapply at_ext in Ha; [|done].
  assert (p + length s1 + length k < e).
  { destruct Ha as [Hl _]. rewrite (inv_end _ _ Hi'), length_app in Hl. simpl in Hl. lia. }
  rewrite decide_False by lia. apply wp_bind.
  eapply wp_mono; [apply (next_is_at e s' Hi' _ _ _ s2 c w); done || lia|].
  intros sub s2' [-> Hx2]. apply wp_bind.
  case_bool_decide as Hb.
  - wp_steps. subst c. apply HK. by etrans.
  - pose proof (inv_ext _ _ _ Hx2 Hi') as Hi2.
    eapply wp_mono; [apply (next_is_at e s2' Hi2 _ _ _ s2 c w); try done; [lia|by eapply at_ext]|].
    intros arr s3' [-> Hx3]. apply HK. etrans; [done|by etrans].
Qed.

(** The name of a block is stored and its opening bracket found. *)
Lemma enter_at {A} fuel p k s2 c w s mc (K : CN_S → nat → M pconf A) Q :
  inv e s → e - (p + length k) < fuel → is_name k → is_sep s2 → stop_char c →
  modn mc = replicate 64 NUL → at_ s p (k ++ s2 ++ c :: w) →
  (∀ s', ext s s' →
    wp (K (set_modn (cfield 64 k) mc) (p + length k + length s2)) Q s') →
  wp (mc ← copy_modn (PAt p) (length k) mc;
      q ← jumpspace fuel (p + length k); K mc q) Q s.
Proof.
  intros Hi Hf Hk Hs2 Hc Hm Ha HK. apply at_app in Ha as [Ha1 Ha2]. apply wp_bind.
  apply copy_modn_at; [done..|]. apply wp_bind.
  eapply wp_mono; [apply (jumpspace_at e s Hi fuel _ s2 c w); done|].
  intros q s' [-> Hx]. by apply HK.
Qed.

Lemma parse_char_at fuel p off k s2 v s3 w s mc :
  inv e s → e - p < fuel → at_ s off k → is_name k → modn mc = replicate 64 NUL →
  var mc = replicate 128 NUL → is_sep s2 → is_value v → is_sep s3 → no_hash s3 →
  at_ s p (s2 ++ v ++ s3 ++ ";"%char :: w) →
  wp (parse_char indet_null fuel p (PAt off) (length k) mc)
    (λ r s', ext s s' ∧
      let q := p + length s2 + length v + length s3 + 1 in
      if decide (e ≤ q) then r.1 = Return
      else r = (Break (Some q), set_var (cfield 128 v) (set_modn (cfield 64 k) mc))) s.
Proof.
  intros Hi Hf Hk Hn Hm Hv0 Hs2 Hv Hs3 Hh Ha. unfold parse_char. wp_steps.
  apply copy_modn_at; [done..|]. wp_steps.
  eapply wp_mono; [by apply (find_valid_value_at e s fuel p s2 v s3 w)|].
  intros r s' [-> Hx]. wp_steps. cbn [is_null orb].
  rewrite (inv_end e s') by (by eapply inv_ext).
  case_bool_decide.
  - wp_steps. split; [done|]. by rewrite decide_True.
  - wp_steps. eapply at_ext in Ha; [|done].
    apply at_app in Ha as [_ Ha]. apply at_app in Ha as [Ha _].
    apply copy_var_at; [done..|]. wp_steps. split; [done|]. by rewrite decide_False.
Qed.

(** ** Blocks *)

Ltac at_norm H := repeat (rewrite <- app_assoc in H || rewrite <- app_comm_cons in H).
Ltac text H := simpl in H; at_norm H.
Ltac lens := simpl; repeat (rewrite length_app; simpl); lia.

(** Splitting off a known prefix whose length is the offset. *)
Lemma at_drop s p w1 w2 q : at_ s p (w1 ++ w2) → q = p + length w1 → at_ s q w2.
Proof. rewrite at_app. intros [_ H] ->. done. Qed.

Lemma at_lt s p c w : inv e s → at_ s p (c :: w) → p < e.
Proof. intros Hi [H _]. rewrite (inv_end _ _ Hi) in H. simpl in H. lia. Qed.

Lemma at_app_lt s p w1 c w : inv e s → at_ s p (w1 ++ c :: w) → p + length w1 < e.
Proof.
  intros Hi [H _]. rewrite (inv_end _ _ Hi), length_app in H. simpl in H. lia.
Qed.

Lemma ext_level_back s s' : ext (add_level (-1) (add_level 1 s)) s' → ext s s'.
Proof. intros (?&?&Hl&?). repeat split; try done. rewrite Hl. simpl. lia. Qed.

Definition smodlh_ok (b : list ascii) (t : CN_S) : Prop := ∀ fuel p s3 w s,
  inv e s → e - p < fuel → is_sep s3 → at_ s p (b ++ s3 ++ "}"%char :: w) →
  wp (smodlh_loop indet_null fuel (Some p) new_node)
    (λ r s', r = (Some (S (p + length b + length s3)), t) ∧ ext (add_level (-1) s) s') s.

Lemma smodlh_nil : smodlh_ok [] new_node.
Proof.
  intros [|fuel] p s3 w s Hi Hf Hs Ha; [lia|]. simpl in Ha. cbn [smodlh_loop]. wp_steps.
  rewrite (inv_end _ _ Hi). pose proof (at_drop _ _ _ _ _ Ha eq_refl) as Ha2.
  pose proof (at_lt _ _ _ _ Hi Ha2). rewrite decide_False by lia. wp_steps.
  eapply wp_mono.
  { apply (jumpspace_at e s Hi (S fuel) p s3 "}"%char w); try done. stop_char. }
  intros q s' [-> Hx]. rewrite decide_False by lia.
  eapply at_ext in Ha2; [|done]. apply at_cons in Ha2 as [[Hr _] _].
  apply wp_bind. eapply wp_rd; [done|]. rewrite decide_True by done. wp_steps.
  split; [do 2 f_equal; lens|]. by apply (ext_level_trans _ _ s').
Qed.

(** The opening of one iteration: the code skips spaces before it looks for
    the closing brace, and [find_valid_name] skips them again. *)
Lemma smodlh_head {A} fuel p s1 a w s (K X Z : nat → M pconf A) (Y : M pconf A) Q :
  inv e s → e - p < fuel → is_sep s1 → validname a = Some true →
  at_ s p (s1 ++ a :: w) →
  (∀ s', ext s s' → wp (K (p + length s1)) Q s') →
  wp (if decide (e ≤ p)%nat then Y else
      p ← jumpspace fuel p;
      if decide (e ≤ p)%nat then X p else
      c ← rd p;
      if decide (c = "}"%char) then modify (add_level (-1));; Z p else K p) Q s.
Proof.
  intros Hi Hf Hs1 Hv Ha HK. pose proof (at_drop _ _ _ _ _ Ha eq_refl) as Ha2.
  pose proof (at_lt _ _ _ _ Hi Ha2). rewrite decide_False by lia. wp_steps.
  eapply wp_mono.
  { apply (jumpspace_at e s Hi fuel p s1 a w); try done. by apply validname_stop. }
  intros q s' [-> Hx]. rewrite decide_False by lia.
  eapply at_ext in Ha2; [|done]. apply at_cons in Ha2 as [[Hr _] _].
  apply wp_bind. eapply wp_rd; [done|].
  rewrite decide_False by (intros ->; by vm_compute in Hv). by apply HK.
Qed.

(** Continuing with the next entry of the block. *)
Lemma smodlh_next fuel q w0 t0 s3 w mc n s s0 r0 :
  smodlh_ok w0 t0 → inv e s → e - q < fuel → is_sep s3 →
  at_ s q (w0 ++ s3 ++ "}"%char :: w) → ext s0 s →
  r0 = S (q + length w0 + length s3) → n = set_next (Some t0) mc →
  wp ('(r, nx) ← smodlh_loop indet_null fuel (Some q) new_node;
      mret (r, set_next (Some nx) mc))
    (λ r s', r = (Some r0, n) ∧ ext (add_level (-1) s0) s') s.
Proof.
  intros IH Hi Hf Hs Ha Hx -> ->. wp_steps.
  eapply wp_mono; [by apply (IH _ _ s3 w)|]. intros r s' [-> Hx2]. wp_steps.
  split; [done|]. by eapply ext_level_trans.
Qed.

Lemma name_cons k : is_name k → ∃ a k', k = a :: k' ∧ validname a = Some true.
Proof.
  intros [Hne Hk]. destruct k as [|a k]; [done|].
  exists a, k. split; [done|]. exact (Forall_inv Hk).
Qed.

Lemma value_pos v : is_value v → 0 < length v.
Proof. destruct v; [by intros [_ ?]|simpl; lia]. Qed.
Lemma name_pos k : is_name k → 0 < length k.
Proof. intros [? _]. destruct k; [done|simpl; lia]. Qed.

Lemma smodlh_sub s1 k s2 b tb s3 w t :
  is_sep s1 → is_name k → is_sep s2 → smodlh_ok b tb → is_sep s3 → smodlh_ok w t →
  smodlh_ok (s1 ++ k ++ s2 ++ "{"%char :: b ++ s3 ++ "}"%char :: w)
    (conf_node (cfield 64 k) (replicate 128 NUL) subnode_t (Some tb) (Some t)).
Proof.
  intros Hs1 Hk Hs2 IHb Hs3 IHw [|fuel] p s4 w' s Hi Hf Hs4 Ha; [lia|].
  text Ha. destruct (name_cons k Hk) as (a & k' & Ek & Hva).
  pose proof (name_pos k Hk).
  cbn [smodlh_loop]. wp_steps. rewrite (inv_end _ _ Hi).
  pose proof Ha as Ha2. rewrite Ek in Ha2. simpl in Ha2.
  assert (p < e) by (pose proof (at_app_lt _ _ _ _ _ Hi Ha2); lia).
  eapply (smodlh_head (S fuel) p s1 a); try done. intros s' Hx.
  pose proof (inv_ext _ _ _ Hx Hi) as Hi'. eapply at_ext in Ha; [|done].
  apply at_app in Ha as [_ Ha].
  eapply (entry_head (S fuel) _ [] k s2 "{"%char); [done|lia|constructor|done|done|stop_char| |done|].
  { by apply sep_then_not_name. }
  intros s2' Hx2. simpl. rewrite Nat.add_0_r. pose proof (inv_ext _ _ _ Hx2 Hi') as Hi2.
  eapply at_ext in Ha; [|done].
  eapply (enter_at (S fuel) _ k s2 "{"%char); try done; [lia|stop_char|].
  intros s5 Hx5. pose proof (inv_ext _ _ _ Hx5 Hi2) as Hi5. wp_steps.
  eapply at_ext in Ha; [|done]. apply at_app in Ha as [_ Ha].
  apply at_app in Ha as [_ Ha]. apply at_cons in Ha as [_ Ha].
  eapply wp_mono; [apply (IHb _ _ s3 (w ++ s4 ++ "}"%char :: w')); [done|lia|done|exact Ha]|].
  intros r s6 [-> Hx6]. cbv iota.
  assert (ext s s6) as Hx' by (rewrite Hx, Hx2, Hx5; by apply ext_level_back).
  eapply (smodlh_next fuel _ w t s4 w' _ _ s6 s); try done; [by eapply inv_ext|lia| |lens].
  eapply (at_drop s6 (S (p + length s1 + length k + length s2)) (b ++ s3 ++ ["}"%char])); [|lens].
  rewrite <- !app_assoc. eapply at_ext; [by apply ext_level_back|exact Ha].
Qed.

Lemma smodlh_arr s1 k s2 s3 b tb w t :
  is_sep s1 → is_name k → is_sep s2 → is_sep s3 → arr_body b tb → smodlh_ok w t →
  smodlh_ok (s1 ++ k ++ s2 ++ "["%char :: s3 ++ b ++ "]"%char :: w)
    (conf_node (cfield 64 k) (replicate 128 NUL) array_t (Some tb) (Some t)).
Proof.
  intros Hs1 Hk Hs2 Hs3 Hb IHw [|fuel] p s4 w' s Hi Hf Hs4 Ha; [lia|].
  text Ha. destruct (name_cons k Hk) as (a & k' & Ek & Hva).
  pose proof (name_pos k Hk).
  cbn [smodlh_loop]. wp_steps. rewrite (inv_end _ _ Hi).
  pose proof Ha as Ha2. rewrite Ek in Ha2. simpl in Ha2.
  assert (p < e) by (pose proof (at_app_lt _ _ _ _ _ Hi Ha2); lia).
  eapply (smodlh_head (S fuel) p s1 a); try done. intros s' Hx.
  pose proof (inv_ext _ _ _ Hx Hi) as Hi'. eapply at_ext in Ha; [|done].
  apply at_app in Ha as [_ Ha].
  eapply (entry_head (S fuel) _ [] k s2 "["%char); [done|lia|constructor|done|done|stop_char| |done|].
  { by apply sep_then_not_name. }
  intros s2' Hx2. simpl. rewrite Nat.add_0_r. pose proof (inv_ext _ _ _ Hx2 Hi') as Hi2.
  eapply at_ext in Ha; [|done].
  eapply (enter_at (S fuel) _ k s2 "["%char); try done; [lia|stop_char|].
  intros s5 Hx5. pose proof (inv_ext _ _ _ Hx5 Hi2) as Hi5. wp_steps.
  eapply at_ext in Ha; [|done]. apply at_app in Ha as [_ Ha].
  apply at_app in Ha as [_ Ha]. apply at_cons in Ha as [_ Ha].
  eapply wp_mono; [apply (parse_arraylh_at _ _ s3 b tb (w ++ s4 ++ "}"%char :: w')); done || lia|].
  intros r s6 [-> Hx6]. cbv iota.
  assert (ext s s6) as Hx' by (by rewrite Hx, Hx2, Hx5).
  eapply (smodlh_next fuel _ w t s4 w' _ _ s6 s); try done; [by eapply inv_ext|lia| |lens].
  eapply (at_drop s6 (S (p + length s1 + length k + length s2)) (s3 ++ b ++ ["]"%char])); [|lens].
  rewrite <- !app_assoc. eapply at_ext; [exact Hx6|exact Ha].
Qed.

Lemma smodlh_val s1 k s2 v s3 w t :
  is_sep s1 → is_name k → k ≠ bytes "proc" → is_sep s2 → s2 ≠ [] → is_value v →
  is_sep s3 → no_hash s3 → smodlh_ok w t →
  smodlh_ok (s1 ++ k ++ s2 ++ v ++ s3 ++ ";"%char :: w)
    (conf_node (cfield 64 k) (cfield 128 v) char_t None (Some t)).
Proof.
  intros Hs1 Hk Hnp Hs2 Hne Hv Hs3 Hh IHw [|fuel] p s4 w' s Hi Hf Hs4 Ha; [lia|].
  text Ha. destruct (name_cons k Hk) as (a & k' & Ek & Hva).
  destruct (value_head_stop v Hv) as (c & v' & Ev & Hst & Hc1 & Hc2 & Hvc).
  pose proof (name_pos k Hk).
  cbn [smodlh_loop]. wp_steps. rewrite (inv_end _ _ Hi).
  pose proof Ha as Ha2. rewrite Ek in Ha2. simpl in Ha2.
  assert (p < e) by (pose proof (at_app_lt _ _ _ _ _ Hi Ha2); lia).
  eapply (smodlh_head (S fuel) p s1 a); try done. intros s' Hx.
  pose proof (inv_ext _ _ _ Hx Hi) as Hi'. eapply at_ext in Ha; [|done].
  apply at_app in Ha as [_ Ha]. clear Ha2. pose proof Ha as Ha2. rewrite Ev in Ha2.
  simpl in Ha2.
  eapply (entry_head (S fuel) _ [] k s2 c); [done|lia|constructor|done|done|done| |exact Ha2|].
  { destruct s2 as [|d s2]; [done|]. exists d. eexists. split; [done|].
    by eapply sep_head_not_name. }
  intros s2' Hx2. simpl. rewrite Nat.add_0_r. pose proof (inv_ext _ _ _ Hx2 Hi') as Hi2.
  eapply at_ext in Ha; [|done]. rewrite !bool_decide_eq_false_2 by done. cbv iota.
  apply at_app in Ha as [Hk' Ha].
  unfold keyword_of. wp_steps. rewrite check_keyword_at, decide_False by done. wp_steps.
  eapply wp_mono.
  { by apply (parse_char_at (S fuel) _ _ k s2 v s3 (w ++ s4 ++ "}"%char :: w')); try lia. }
  intros [kc mc] s5 [Hx5 Hr]. pose proof (inv_ext _ _ _ Hx5 Hi2) as Hi5. cbv zeta in Hr.
  eapply at_ext in Ha; [|done].
  assert (at_ s5 (p + length s1 + length k + length s2 + length v + length s3 + 1)
    (w ++ s4 ++ "}"%char :: w')) as Ha5.
  { eapply (at_drop s5 (p + length s1 + length k) (s2 ++ v ++ s3 ++ [";"%char])); [|lens].
    rewrite <- !app_assoc. exact Ha. }
  assert (p + length s1 + length k + length s2 + length v + length s3 + 1 < e).
  { rewrite app_assoc in Ha5. pose proof (at_app_lt _ _ _ _ _ Hi5 Ha5). lia. }
  rewrite decide_False in Hr by lia. injection Hr as -> ->. cbv iota.
  eapply (smodlh_next fuel _ w t s4 w' _ _ s5 s); try done; [lia| |lens].
  by rewrite Hx, Hx2.
Qed.

Lemma smodlh_gram top b t : gram top b t → top = false → smodlh_ok b t.
Proof.
  induction 1; intros Htop; [apply smodlh_nil| | | |done].
  - apply smodlh_val; auto.
  - apply smodlh_sub; auto.
  - apply smodlh_arr; auto.
Qed.

Lemma parse_smodlh_at fuel p b t s3 w s :
  gram false b t → inv e s → e - p < fuel → is_sep s3 →
  at_ s p (b ++ s3 ++ "}"%char :: w) →
  wp (parse_smodlh indet_null fuel p new_node)
    (λ r s', r = (Some (S (p + length b + length s3)), t) ∧ ext s s') s.
Proof.
  intros Hb Hi Hf Hs Ha. unfold parse_smodlh. wp_steps.
  eapply wp_mono; [by apply (smodlh_gram _ _ _ Hb eq_refl _ _ s3 w)|].
  intros r s' [-> Hx]. split; [done|]. by apply ext_level_back.
Qed.

(** ** The whole file *)

(** When a text of the grammar, with the separator [sf] at its end, is
    accepted: a final separator makes the code test a pointer it never
    assigned, and without one an entry must not end the file with [';']. *)
Definition accepts (w sf : list ascii) : bool :=
  match sf with
  | [] => bool_decide (list.last w ≠ Some ";"%char)
  | _ => negb indet_null
  end.

Lemma accepts_app x c w sf y :
  y = x ++ c :: w → c ≠ ";"%char ∨ w ≠ [] ∨ sf ≠ [] → accepts y sf = accepts w sf.
Proof.
  intros -> H. destruct sf; [|done]. unfold accepts. apply bool_decide_ext.
  rewrite last_app, last_cons. destruct (list.last w) as [d|] eqn:E; [done|].
  apply last_None in E as ->. split; [done|]. intros _ [= ->].
  by destruct H as [|[|]].
Qed.

Definition main_post (w sf : list ascii) (t : CN_S) (s : pconf)
    (r : option nat * CN_S) (s' : pconf) : Prop :=
  ext s s' ∧ if accepts w sf then r = (Some e, t) else r.1 = None.

Definition main_ok (w : list ascii) (t : CN_S) : Prop := ∀ fuel p sf s,
  inv e s → e - p < fuel → is_sep sf → at_ s p (w ++ sf) → e = p + length (w ++ sf) →
  wp (parse_main indet_null fuel (Some p) new_node) (main_post w sf t s) s.

Lemma main_nil : main_ok [] new_node.
Proof.
  intros [|fuel] p sf s Hi Hf Hs Ha He; [lia|]. simpl in Ha, He.
  cbn [parse_main]. wp_steps. rewrite (inv_end _ _ Hi).
  destruct sf as [|c sf].
  { simpl in He. rewrite decide_True by lia. wp_steps. split; [done|]. simpl. repeat f_equal; lia. }
  simpl in He. rewrite decide_False by lia. unfold find_valid_name. wp_steps.
  eapply wp_mono.
  { apply (jumpspace_sep e (S fuel) (c :: sf) p s); try done; [lia|].
    left. rewrite (inv_end _ _ Hi). simpl. lia. }
  intros q s' [-> Hx]. wp_steps. rewrite (inv_end e s') by (by eapply inv_ext).
  rewrite decide_True by (simpl; lia). wp_steps. cbn [is_null].
  unfold main_post, accepts. destruct indet_null; [by wp_steps|].
  rewrite decide_True by (simpl; lia). wp_steps. split; [done|].
  do 2 f_equal. simpl. lia.
Qed.

Lemma main_next fuel q w0 t0 x sf mc n s s0 :
  main_ok w0 t0 → inv e s → e - q < fuel → is_sep sf → at_ s q (w0 ++ sf) →
  e = q + length (w0 ++ sf) → ext s0 s → n = set_next (Some t0) mc →
  accepts x sf = accepts w0 sf →
  wp ('(r, nx) ← parse_main indet_null fuel (Some q) new_node;
      mret (r, set_next (Some nx) mc))
    (main_post x sf n s0) s.
Proof.
  intros IH Hi Hf Hs Ha He Hx -> Hacc. wp_steps.
  eapply wp_mono; [by apply (IH _ _ sf)|]. intros [r nx] s' [Hx2 Hr]. wp_steps.
  split; [by etrans|]. rewrite Hacc. destruct (accepts w0 sf); simpl in *; congruence.
Qed.

Lemma main_sub s1 k s2 b tb s3 w t :
  is_sep s1 → is_name k → is_sep s2 → gram false b tb → is_sep s3 → main_ok w t →
  main_ok (s1 ++ k ++ s2 ++ "{"%char :: b ++ s3 ++ "}"%char :: w)
    (conf_node (cfield 64 k) (replicate 128 NUL) subnode_t (Some tb) (Some t)).
Proof.
  intros Hs1 Hk Hs2 Hb Hs3 IHw [|fuel] p sf s Hi Hf Hsf Ha He; [lia|].
  text Ha. pose proof (name_pos k Hk).
  cbn [parse_main]. wp_steps. rewrite (inv_end _ _ Hi).
  assert (p < e) by (rewrite He; lens). rewrite decide_False by lia.
  eapply (entry_head (S fuel) _ s1 k s2 "{"%char); [done..|stop_char| |done|].
  { by apply sep_then_not_name. }
  intros s' Hx. pose proof (inv_ext _ _ _ Hx Hi) as Hi'.
  eapply at_ext in Ha; [|done]. apply at_app in Ha as [_ Ha].
  eapply (enter_at (S fuel) _ k s2 "{"%char); try done; [lia|stop_char|].
  intros s5 Hx5. pose proof (inv_ext _ _ _ Hx5 Hi') as Hi5. wp_steps.
  eapply at_ext in Ha; [|done]. apply at_app in Ha as [_ Ha].
  apply at_app in Ha as [_ Ha]. apply at_cons in Ha as [_ Ha].
  eapply wp_mono; [by apply (parse_smodlh_at _ _ b tb s3 (w ++ sf)); try lia|].
  intros r s6 [-> Hx6]. cbv iota.
  eapply (main_next fuel _ w t _ sf _ _ s6 s); try done;
    [by eapply inv_ext|lia| |rewrite He; lens|by rewrite Hx, Hx5|].
  - eapply (at_drop s6 (S (p + length s1 + length k + length s2)) (b ++ s3 ++ ["}"%char])); [|lens].
    rewrite <- !app_assoc. eapply at_ext; [exact Hx6|exact Ha].
  - apply (accepts_app (s1 ++ k ++ s2 ++ "{"%char :: b ++ s3) "}"%char); [|by left].
    by repeat (rewrite <- app_assoc || rewrite <- app_comm_cons).
Qed.

Lemma main_arr s1 k s2 s3 b tb w t :
  is_sep s1 → is_name k → is_sep s2 → is_sep s3 → arr_body b tb → main_ok w t →
  main_ok (s1 ++ k ++ s2 ++ "["%char :: s3 ++ b ++ "]"%char :: w)
    (conf_node (cfield 64 k) (replicate 128 NUL) array_t (Some tb) (Some t)).
Proof.
  intros Hs1 Hk Hs2 Hs3 Hb IHw [|fuel] p sf s Hi Hf Hsf Ha He; [lia|].
  text Ha. pose proof (name_pos k Hk).
  cbn [parse_main]. wp_steps. rewrite (inv_end _ _ Hi).
  assert (p < e) by (rewrite He; lens). rewrite decide_False by lia.
  eapply (entry_head (S fuel) _ s1 k s2 "["%char); [done..|stop_char| |done|].
  { by apply sep_then_not_name. }
  intros s' Hx. pose proof (inv_ext _ _ _ Hx Hi) as Hi'.
  eapply at_ext in Ha; [|done]. apply at_app in Ha as [_ Ha].
  eapply (enter_at (S fuel) _ k s2 "["%char); try done; [lia|stop_char|].
  intros s5 Hx5. pose proof (inv_ext _ _ _ Hx5 Hi') as Hi5. wp_steps.
  eapply at_ext in Ha; [|done]. apply at_app in Ha as [_ Ha].
  apply at_app in Ha as [_ Ha]. apply at_cons in Ha as [_ Ha].
  eapply wp_mono; [by apply (parse_arraylh_at _ _ s3 b tb (w ++ sf)); try lia|].
  intros r s6 [-> Hx6]. cbv iota.
  eapply (main_next fuel _ w t _ sf _ _ s6 s); try done;
    [by eapply inv_ext|lia| |rewrite He; lens|by rewrite Hx, Hx5|].
  - eapply (at_drop s6 (S (p + length s1 + length k + length s2)) (s3 ++ b ++ ["]"%char])); [|lens].
    rewrite <- !app_assoc. eapply at_ext; [exact Hx6|exact Ha].
  - apply (accepts_app (s1 ++ k ++ s2 ++ "["%char :: s3 ++ b) "]"%char); [|by left].
    by repeat (rewrite <- app_assoc || rewrite <- app_comm_cons).
Qed.

Lemma main_val s1 k s2 v s3 w t :
  is_sep s1 → is_name k → k ≠ bytes "proc" → is_sep s2 → s2 ≠ [] → is_value v →
  is_sep s3 → no_hash s3 → main_ok w t →
  main_ok (s1 ++ k ++ s2 ++ v ++ s3 ++ ";"%char :: w)
    (conf_node (cfield 64 k) (cfield 128 v) char_t None (Some t)).
Proof.
  intros Hs1 Hk Hnp Hs2 Hne Hv Hs3 Hh IHw [|fuel] p sf s Hi Hf Hsf Ha He; [lia|].
  text Ha. pose proof (name_pos k Hk).
  destruct (value_head_stop v Hv) as (c & v' & Ev & Hst & Hc1 & Hc2 & Hvc).
  cbn [parse_main]. wp_steps. rewrite (inv_end _ _ Hi).
  assert (p < e) by (rewrite He; lens). rewrite decide_False by lia.
  pose proof Ha as Ha2. rewrite Ev in Ha2. simpl in Ha2.
  eapply (entry_head (S fuel) _ s1 k s2 c); [done..| |exact Ha2|].
  { destruct s2 as [|d s2]; [done|]. exists d. eexists. split; [done|].
    by eapply sep_head_not_name. }
  intros s' Hx. pose proof (inv_ext _ _ _ Hx Hi) as Hi'.
  eapply at_ext in Ha; [|done]. rewrite !bool_decide_eq_false_2 by done. cbv iota.
  apply at_app in Ha as [_ Ha]. apply at_app in Ha as [Hk' Ha].
  unfold keyword_of. wp_steps. rewrite check_keyword_at, decide_False by done. wp_steps.
  eapply wp_mono.
  { by apply (parse_char_at (S fuel) _ _ k s2 v s3 (w ++ sf)); try lia. }
  intros [kc mc] s5 [Hx5 Hr]. pose proof (inv_ext _ _ _ Hx5 Hi') as Hi5. cbv zeta in Hr.
  eapply at_ext in Ha; [|done].
  assert (e = p + length s1 + length k + length s2 + length v + length s3 + 1
            + length (w ++ sf)) as He2 by (rewrite He; lens).
  assert (ext s s5) as Hx6 by (by rewrite Hx).
  assert (Hy : s1 ++ k ++ s2 ++ v ++ s3 ++ ";"%char :: w
    = (s1 ++ k ++ s2 ++ v ++ s3) ++ ";"%char :: w) by (by rewrite <- !app_assoc).
  case_decide as Hend.
  - simpl in Hr. subst kc. wp_steps. split; [done|].
    assert (w = [] ∧ sf = []) as [-> ->].
    { destruct w; [|simpl in He2; lia]. destruct sf; [done|simpl in He2; lia]. }
    rewrite Hy. unfold accepts. rewrite bool_decide_eq_false_2; [done|].
    rewrite last_app. simpl. intros Hn. by apply Hn.
  - injection Hr as -> ->. cbv iota.
    eapply (main_next fuel _ w t _ sf _ _ s5 s); try done; [lia| |].
    + eapply (at_drop s5 (p + length s1 + length k) (s2 ++ v ++ s3 ++ [";"%char])); [|lens].
      rewrite <- !app_assoc. exact Ha.
    + eapply accepts_app; [exact Hy|]. right.
      destruct w; [|by left]. right. intros ->. simpl in He2. lia.
Qed.

(** [proc name { ... }]. *)
Lemma parse_proc_mod_at fuel p s2 k s3 b tb s4 w s mc :
  inv e s → e - p < fuel → is_sep s2 → is_name k → is_sep s3 → gram false b tb →
  is_sep s4 → modn mc = replicate 64 NUL →
  at_ s p (s2 ++ k ++ s3 ++ "{"%char :: b ++ s4 ++ "}"%char :: w) →
  wp (parse_proc_mod indet_null fuel p mc) (λ r s', ext s s' ∧
    r = (Break (Some (S (S (p + length s2 + length k + length s3) + length b + length s4))),
         set_smodlh (Some tb) (set_modn (cfield 64 k) mc))) s.
Proof.
  intros Hi Hf Hs2 Hk Hs3 Hb Hs4 Hm Ha. unfold parse_proc_mod. wp_steps.
  destruct (sep_then_not_name s3 "{"%char (b ++ s4 ++ "}"%char :: w) Hs3 eq_refl)
    as (a & w' & Ea & Hva).
  pose proof Ha as Ha'. rewrite Ea in Ha'.
  eapply wp_mono; [by apply (find_valid_name_at e s Hi fuel p PNull s2 k a w')|].
  intros r s' [-> Hx]. wp_steps. cbn [is_null]. wp_steps.
  pose proof (inv_ext _ _ _ Hx Hi) as Hi'. rewrite (inv_end _ _ Hi').
  apply at_app in Ha as [_ Ha]. eapply at_ext in Ha; [|done].
  apply at_app in Ha as [Hk' Ha]. pose proof (at_app_lt _ _ _ _ _ Hi' Ha).
  rewrite decide_False by lia. wp_steps. apply copy_modn_at; [done..|]. wp_steps.
  eapply wp_mono.
  { apply (jumpspace_at e s' Hi' fuel _ s3 "{"%char (b ++ s4 ++ "}"%char :: w));
      [lia|done|stop_char|done]. }
  intros q s5 [-> Hx5]. pose proof (inv_ext _ _ _ Hx5 Hi') as Hi5.
  apply at_app in Ha as [_ Ha]. eapply at_ext in Ha; [|done].
  apply at_cons in Ha as [[Hr _] Ha].
  apply wp_bind. eapply wp_rd; [done|].
  rewrite decide_False by (intros Hn; by apply Hn). wp_steps.
  eapply wp_mono; [by apply (parse_smodlh_at _ _ b tb s4 w); try lia|].
  intros r s6 [-> Hx6]. wp_steps. split; [by rewrite Hx, Hx5|done].
Qed.

Lemma main_proc s1 s2 k s3 b tb s4 w t :
  is_sep s1 → is_sep s2 → s2 ≠ [] → is_name k → is_sep s3 → gram false b tb →
  is_sep s4 → main_ok w t →
  main_ok (s1 ++ bytes "proc" ++ s2 ++ k ++ s3 ++ "{"%char :: b ++ s4 ++ "}"%char :: w)
    (conf_node (cfield 64 k) (replicate 128 NUL) proc_mod_t (Some tb) (Some t)).
Proof.
  intros Hs1 Hs2 Hne Hk Hs3 Hb Hs4 IHw [|fuel] p sf s Hi Hf Hsf Ha He; [lia|].
  set (proc := bytes "proc") in *.
  assert (is_name proc) as Hproc by (split; [done|by repeat constructor]).
  assert (proc = bytes "proc") as Eproc by done. clearbody proc.
  text Ha. pose proof (name_pos _ Hproc). destruct (name_cons k Hk) as (c & k' & Ek & Hvc).
  pose proof (validname_stop c Hvc) as Hst.
  cbn [parse_main]. wp_steps. rewrite (inv_end _ _ Hi).
  assert (p < e) by (rewrite He; lens). rewrite decide_False by lia.
  pose proof Ha as Ha2. rewrite Ek in Ha2. simpl in Ha2.
  eapply (entry_head (S fuel) _ s1 proc s2 c); [done..| |exact Ha2|].
  { destruct s2 as [|d s2]; [done|]. exists d. eexists. split; [done|].
    by eapply sep_head_not_name. }
  intros s' Hx. pose proof (inv_ext _ _ _ Hx Hi) as Hi'.
  eapply at_ext in Ha; [|done].
  rewrite !bool_decide_eq_false_2 by (intros ->; by vm_compute in Hvc). cbv iota.
  apply at_app in Ha as [_ Ha]. apply at_app in Ha as [Hk' Ha].
  unfold keyword_of. wp_steps. rewrite check_keyword_at, decide_True by done. wp_steps.
  eapply wp_mono.
  { by apply (parse_proc_mod_at (S fuel) _ s2 k s3 b tb s4 (w ++ sf)); try lia. }
  intros [kc mc] s5 [Hx5 Hr]. pose proof (inv_ext _ _ _ Hx5 Hi') as Hi5.
  injection Hr as -> ->. cbv iota.
  eapply (main_next fuel _ w t _ sf _ _ s5 s); try done;
    [lia| |rewrite He; lens|by rewrite Hx|].
  - eapply (at_drop s5 (p + length s1 + length proc)
      (s2 ++ k ++ s3 ++ "{"%char :: b ++ s4 ++ ["}"%char])); [|lens].
    repeat (rewrite <- app_assoc || rewrite <- app_comm_cons).
    eapply at_ext; [exact Hx5|exact Ha].
  - apply (accepts_app (s1 ++ proc ++ s2 ++ k ++ s3 ++ "{"%char :: b ++ s4) "}"%char); [|by left].
    by repeat (rewrite <- app_assoc || rewrite <- app_comm_cons).
Qed.

Lemma main_gram top w t : gram top w t → top = true → main_ok w t.
Proof.
  induction 1; intros Htop; [apply main_nil| | | |].
  - apply main_val; auto.
  - apply main_sub; auto.
  - apply main_arr; auto.
  - apply main_proc; auto.
Qed.
End parse.

(** ** The parser on a file *)

(** The state [readconf] hands over: the text, its terminator, the rest of
    the zeroed buffer. *)
Definition loaded (text rest : list ascii) : pconf :=
  mk_pconf (text ++ NUL :: rest) (length text) 1 0 false.

Definition is_ascii (text : list ascii) : Prop :=
  Forall (λ c, (0 ≤ char_val c)%Z) text.

Lemma loaded_inv text rest : is_ascii text → inv (length text) (loaded text rest).
Proof.
  intros Ht. split; [done|]. simpl. split; [by apply list_lookup_middle|].
  intros i c Hi Hc. rewrite lookup_app_l in Hc by done.
  by eapply Forall_lookup_1 in Ht.
Qed.

Lemma loaded_at w sf rest : at_ (loaded (w ++ sf) rest) 0 (w ++ sf).
Proof.
  split; [done|]. intros i c Hc. simpl. by apply lookup_app_l_Some.
Qed.

Lemma parse_code indet_null mch s a s' :
  parse indet_null mch s = Some (a, s') → a.1 = if isparsed s' then 0%Z else (-1)%Z.
Proof.
  unfold parse. intros H. apply bind_inv in H as (e & s1 & _ & H).
  apply bind_inv in H as ([p t] & s2 & _ & H). apply bind_inv in H as (s3 & ? & [= <- <-] & H).
  apply bind_inv in H as ([] & s4 & _ & H). by apply bind_inv in H as (? & ? & [= <- <-] & [= <- <-]).
Qed.

(** C8. Parsing terminates without undefined behaviour on every ASCII file,
    whatever the never-assigned pointer compares like: no read outside the
    buffer, no dereference of an unassigned pointer, no unbounded loop; the
    code is 0 or -1. *)
Theorem parse_total indet_null text rest :
  is_ascii text →
  ∃ code tree s', parse indet_null new_node (loaded text rest) = Some ((code, tree), s') ∧
    (code = 0%Z ∨ code = (-1)%Z) ∧ endp s' = length text.
Proof.
  intros Ht.
  pose proof (parse_wp indet_null (length text) new_node (loaded text rest)
    (loaded_inv _ rest Ht) new_node_ok) as H.
  apply wp_elim in H as ([code tree] & s' & H & Hi). exists code, tree, s'.
  split; [done|]. split; [|by eapply inv_end].
  apply parse_code in H. simpl in H. subst. destruct (isparsed s'); auto.
Qed.

Lemma parse_file indet_null w sf t rest :
  is_ascii (w ++ sf) → gram true w t → is_sep sf →
  ∃ code tree s', parse indet_null new_node (loaded (w ++ sf) rest) = Some ((code, tree), s') ∧
    if accepts indet_null w sf then code = 0%Z ∧ tree = t else code = (-1)%Z.
Proof.
  intros Ht Hg Hs. set (s := loaded (w ++ sf) rest). set (e := length (w ++ sf)).
  pose proof (loaded_inv _ rest Ht : inv e s) as Hi.
  cut (wp (parse indet_null new_node) (λ '(code, tree) _,
    if accepts indet_null w sf then code = 0%Z ∧ tree = t else code = (-1)%Z) s).
  { intros H. apply wp_elim in H as ([code tree] & s' & H & Hp). eauto. }
  unfold parse. wp_steps. rewrite (inv_end _ _ Hi).
  eapply wp_mono.
  { apply (main_gram indet_null e _ _ _ Hg eq_refl (S e) 0 sf s); try done; [lia|].
    apply loaded_at. }
  intros [p tree] s' [Hx Hr]. destruct Hx as (_&_&Hl&Hp). wp_steps.
  rewrite Hl. simpl in *.
  destruct (accepts indet_null w sf); simplify_eq/=; unfold when.
  - rewrite bool_decide_eq_true_2 by done. by wp_steps.
  - wp_steps. by rewrite Hp.
Qed.

(** C6. The parser implements the configuration grammar: a file [w ++ sf]
    whose entries [w] denote the chain [t] yields exactly [t] (names and
    values cut to their fields) and the code 0, except that a separator [sf]
    after the last entry makes the outcome depend on the never-assigned
    pointer, and a file that ends right behind a [';'] is refused. *)
Theorem parse_grammar indet_null w sf t rest :
  is_ascii (w ++ sf) → gram true w t → is_sep sf →
  ∃ code tree s', parse indet_null new_node (loaded (w ++ sf) rest) = Some ((code, tree), s') ∧
    if accepts indet_null w sf then code = 0%Z ∧ tree = t else code = (-1)%Z.
Proof. apply parse_file. Qed.

(** ** Concrete files *)

Definition sample : list ascii := bytes "port 80;".
Definition sample_tree : CN_S :=
  conf_node (cfield 64 (bytes "port")) (cfield 128 (bytes "80")) char_t None (Some new_node).

Lemma sample_gram : gram true sample sample_tree.
Proof.
  apply (g_val true [] (bytes "port") (bytes " ") (bytes "80") [] []); try done;
    try by repeat constructor.
  all: (split; [done|by repeat constructor]) || (by repeat constructor).
Qed.

Lemma parse_total_witness :
  is_ascii sample ∧ ∃ code tree s', parse true new_node (loaded sample [])
    = Some ((code, tree), s') ∧ (code = 0%Z ∨ code = (-1)%Z) ∧ endp s' = 8.
Proof. split; [by repeat constructor|]. apply (parse_total true sample []). by repeat constructor. Defined.

(** With a final newline the code depends on the unassigned pointer. *)
Lemma parse_grammar_witness :
  ∃ code tree s', parse false new_node (loaded (sample ++ bytes "
") [])
    = Some ((code, tree), s') ∧ code = 0%Z ∧ tree = sample_tree.
Proof.
  apply (parse_grammar false sample (bytes "
") sample_tree []).
  - by repeat constructor.
  - apply sample_gram.
  - by repeat constructor.
Defined.
