(* ===== verification/PConfFile.v ===== *)
(** * src/conf/pconf: reading the file into memory, and the queries on the
    parsed tree. *)

From S2P Require Import Prelude PString PConf PConfProofs PConfGrammar.

Local Open Scope nat_scope.

(** ** readfile *)

(** What the kernel may deliver: each successful [read] returns between one
    byte and the number of bytes asked for. *)
Fixpoint reads_ok (chunks : list (list ascii)) (remain : nat) : Prop :=
  match chunks with
  | [] => True
  | c :: cs => 0 < length c ≤ remain ∧
      reads_ok cs (if decide (remain - length c = 0) then 1024 else remain - length c)
  end.

Lemma buflen_val : Z.of_nat BUFLEN = 262144%Z.
Proof. unfold BUFLEN. by rewrite Nat2Z.inj_mul. Qed.
#[local] Opaque BUFLEN.
Ltac blia := pose proof buflen_val; lia.

(** The bytes read so far, zeroes up to the size first allocated; the block
    has one of two sizes. *)
Definition filled (text : list ascii) (b : rbuf) : Prop :=
  total b = length text ∧ 0 < remain b ≤ 1024 ∧
  (length (mem b) = BUFLEN ∨ length (mem b) = BUFLEN + 1024) ∧
  ∀ i, i < BUFLEN → mem b !! i = Some (default NUL (text !! i)).

(** Overwriting part of a list. *)
Lemma splice_lookup (m c : list ascii) o i :
  o + length c ≤ length m →
  (take o m ++ c ++ drop (o + length c) m) !! i =
    if decide (o ≤ i < o + length c) then c !! (i - o) else m !! i.
Proof.
  intros Ho. assert (length (take o m) = o) as Hl by (rewrite length_take; lia).
  destruct (decide (i < o)).
  { rewrite lookup_app_l, decide_False by lia. by apply lookup_take_lt. }
  rewrite lookup_app_r, Hl by lia. destruct (decide (i < o + length c)).
  - by rewrite decide_True, lookup_app_l by lia.
  - rewrite decide_False, lookup_app_r, lookup_drop by lia. f_equal. lia.
Qed.

Lemma splice_length (m c : list ascii) o :
  o + length c ≤ length m →
  length (take o m ++ c ++ drop (o + length c) m) = length m.
Proof. intros. rewrite !length_app, length_take, length_drop. lia. Qed.

Lemma read_into_filled text chunk b :
  filled text b → length chunk ≤ remain b → length text + length chunk ≤ BUFLEN →
  ∃ m, read_into chunk b = Some m ∧ length m = length (mem b) ∧
    ∀ i, i < BUFLEN → m !! i = Some (default NUL ((text ++ chunk) !! i)).
Proof.
  intros (Ht&Hr&Hl&Hm) Hc Hb. unfold read_into. rewrite Ht.
  rewrite decide_True by lia. eexists. split; [done|].
  split; [apply splice_length; lia|]. intros i Hi.
  rewrite splice_lookup by lia. case_decide as Hd.
  - rewrite lookup_app_r by lia.
    destruct (lookup_lt_is_Some_2 chunk (i - length text)) as [c Hc']; [lia|].
    by rewrite Hc'.
  - rewrite Hm by done. destruct (decide (i < length text)).
    + by rewrite lookup_app_l.
    + rewrite !lookup_ge_None_2; [done|rewrite ?length_app; lia..].
Qed.

Lemma memset0_filled text off n m :
  (∀ i, i < BUFLEN → m !! i = Some (default NUL (text !! i))) →
  length text ≤ off → off + n ≤ length m →
  ∃ m', memset0 off n m = Some m' ∧ length m' = length m ∧
    ∀ i, i < BUFLEN → m' !! i = Some (default NUL (text !! i)).
Proof.
  intros Hm Ho Hn. unfold memset0. rewrite decide_True by done.
  replace (off + n) with (off + length (replicate n NUL)) in * by (by rewrite length_replicate).
  eexists. split; [done|]. split; [by apply splice_length|].
  intros i Hi. rewrite splice_lookup by done. rewrite length_replicate in *.
  case_decide; [|by apply Hm].
  rewrite lookup_replicate_2 by lia. by rewrite lookup_ge_None_2 by lia.
Qed.

Lemma readfile_step_filled junk text chunk b :
  filled text b → 1024 ≤ length junk → 0 < length chunk ≤ remain b →
  length text + 1024 < BUFLEN →
  ∃ b', readfile_step junk chunk b = Some b' ∧ filled (text ++ chunk) b' ∧
    remain b' = (if decide (remain b - length chunk = 0) then 1024 else remain b - length chunk).
Proof.
  intros Hf Hj Hc Hb. pose proof Hf as (Ht&Hr&Hlen&_).
  destruct (read_into_filled text chunk b Hf) as (m&Hm&Hl&Hmm); [lia..|]. unfold readfile_step. rewrite Hm. simpl.
  case_decide as Hz.
  - destruct (memset0_filled (text ++ chunk) (total b + 1024) 1024 (realloc_buf junk m))
      as (m'&Hm'&Hl'&Hmm').
    + intros i Hi. unfold realloc_buf. rewrite lookup_take_lt by lia.
      rewrite lookup_app_l by lia. by apply Hmm.
    + rewrite length_app. lia.
    + unfold realloc_buf. rewrite length_take, length_app. lia.
    + rewrite Hm'. simpl. eexists. split; [done|]. split; [|done]. split; simpl.
      { rewrite length_app. lia. }
      split; [lia|]. split; [|done]. right. rewrite Hl'. unfold realloc_buf.
      rewrite length_take, length_app. lia.
  - eexists. split; [done|]. split; [|done]. split; simpl.
    { rewrite length_app. lia. }
    split; [lia|]. split; [|done]. lia.
Qed.

Lemma readfile_loop_filled junk chunks : ∀ text b,
  filled text b → 1024 ≤ length junk → reads_ok chunks (remain b) →
  length text + length (concat chunks) + 1024 ≤ BUFLEN →
  ∃ b', readfile_loop junk chunks b = Some b' ∧ filled (text ++ concat chunks) b'.
Proof.
  induction chunks as [|c cs IH]; intros text b Hf Hj Hr Hl; simpl in *.
  { rewrite app_nil_r. eauto. }
  destruct Hr as [Hc Hr]. rewrite length_app in Hl.
  destruct (readfile_step_filled junk text c b) as (b1&Hb1&Hf1&Hr1); [done..|lia|].
  rewrite Hb1. simpl. rewrite app_assoc. apply IH; [done..| |].
  - by rewrite Hr1.
  - rewrite length_app. lia.
Qed.

Lemma readfile_step_full junk chunk b b' :
  readfile_step junk chunk b = Some b' →
  length chunk = 1024 → remain b = 1024 →
  total b' = total b + 1024 ∧ remain b' = 1024 ∧ total b + 1024 ≤ BUFLEN.
Proof.
  intros H Hc Hr. unfold readfile_step in H.
  destruct (read_into chunk b) as [m|]; [|done]. simpl in H.
  rewrite Hc, Hr, decide_True in H by lia.
  unfold memset0 in H. case_decide as Hd; [|done]. injection H as <-. simpl.
  split; [lia|]. split; [done|]. unfold realloc_buf in Hd. rewrite length_take in Hd. lia.
Qed.

Lemma readfile_loop_full junk chunks tail : ∀ b,
  Forall (λ c, length c = 1024) chunks → remain b = 1024 →
  BUFLEN < total b + 1024 * length chunks → total b ≤ BUFLEN →
  readfile_loop junk (chunks ++ tail) b = None.
Proof.
  induction chunks as [|c cs IH]; intros b Hc Hr Hl Hb; cbn [app readfile_loop length] in *; [lia|].
  apply Forall_cons_1 in Hc as [Hc Hcs].
  destruct (readfile_step junk c b) as [b'|] eqn:E; [|done]. simpl.
  destruct (readfile_step_full _ _ _ _ E Hc Hr) as (Ht&Hr'&Hle).
  apply IH; [done..|lia|lia].
Qed.

Lemma readconf_loaded junk chunks :
  1024 ≤ length junk → reads_ok chunks 1024 →
  (Z.of_nat (length (concat chunks)) ≤ 261120)%Z →
  ∃ rest, readconf junk chunks = Some (loaded (concat chunks) rest).
Proof.
  intros Hj Hr Hl. unfold readconf.
  destruct (readfile_loop_filled junk chunks [] (mk_rbuf (replicate BUFLEN NUL) 0 1024))
    as (b&Hb&Ht&_&_&Hm); try done.
  - split; [done|]. split; [simpl; lia|]. split; [left; apply length_replicate|].
    intros i Hi. simpl. by rewrite lookup_replicate_2.
  - simpl. blia.
  - rewrite Hb. simpl. simpl in Ht, Hm. exists (drop (S (length (concat chunks))) (mem b)).
    unfold loaded. rewrite Ht. do 2 f_equal. apply list_eq. intros i.
    set (text := concat chunks) in *.
    destruct (decide (i < length text)) as [Hi|Hi].
    + rewrite Hm, lookup_app_l by blia.
      destruct (lookup_lt_is_Some_2 text i Hi) as [c Hc]. by rewrite Hc.
    + rewrite lookup_app_r by lia. destruct (decide (i = length text)) as [->|].
      * rewrite Hm, Nat.sub_diag by blia. by rewrite lookup_ge_None_2 by lia.
      * destruct (i - length text) as [|d] eqn:Ed; [lia|]. simpl.
        rewrite lookup_drop. f_equal. lia.
Qed.

(** Reading the file: however the kernel splits the reads, a file of at
    most 261120 bytes ends up in the buffer complete and terminated, and no
    store leaves the allocation. *)
Theorem readconf_loads junk chunks :
  1024 ≤ length junk → reads_ok chunks 1024 →
  (Z.of_nat (length (concat chunks)) ≤ 261120)%Z →
  ∃ rest, readconf junk chunks = Some (loaded (concat chunks) rest).
Proof. apply readconf_loaded. Qed.

(** C40. [buflen] is never increased, so the block stays at 257 KB for good: a
    file whose first 257 reads are full overruns it. *)
Theorem readconf_overflow junk chunks tail :
  Forall (λ c, length c = 1024) chunks → length chunks = 257 →
  readconf junk (chunks ++ tail) = None.
Proof.
  intros Hc Hl. unfold readconf.
  rewrite (readfile_loop_full junk chunks tail); [done|done|done|simpl; blia|simpl; blia].
Qed.

Lemma readconf_loads_witness :
  ∃ rest, readconf (replicate 1024 NUL) [bytes "por"; bytes "t 80;"]
    = Some (loaded sample rest).
Proof.
  apply (readconf_loads (replicate 1024 NUL) [bytes "por"; bytes "t 80;"]).
  - by rewrite length_replicate.
  - simpl. lia.
  - done.
Defined.

Lemma readconf_overflow_witness :
  readconf [] (replicate 257 (replicate 1024 "a"%char) ++ []) = None.
Proof.
  apply (readconf_overflow [] (replicate 257 (replicate 1024 "a"%char)) []).
  - apply Forall_replicate, length_replicate.
  - apply length_replicate.
Defined.

(** ** Bytes outside ASCII *)

(** A file that starts with a byte above 127 (a byte order mark, say) is
    undefined behaviour: the test [*p > 127] never holds for a plain [char],
    so the byte becomes a negative table index. *)
Theorem parse_8bit_undefined indet_null c w rest :
  (char_val c < 0)%Z → parse indet_null new_node (loaded (c :: w) rest) = None.
Proof.
  intros Hc. assert (∀ d, (0 ≤ char_val d)%Z → c ≠ d) as Hd by (intros d ? ->; lia).
  assert (validname c = None) as Hv.
  { unfold validname, valid_char, table_at.
    destruct (Z.ltb_spec 127 (char_val c)); [lia|].
    by destruct (Z.ltb_spec (char_val c) 0); [|lia]. }
  assert (is_blank c = false) as Hb.
  { unfold is_blank. by rewrite !bool_decide_eq_false_2 by (by apply Hd). }
  unfold parse, find_valid_name. cbv [mbind M_bind gets]. simpl endp.
  cbn [parse_main]. unfold find_valid_name. cbn [jumpspace].
  cbv [mbind M_bind gets rd get lift fmap option_fmap option_map mret M_ret].
  simpl. rewrite Hb, !decide_False by (by apply Hd). cbv beta iota. simpl.
  by rewrite Hv.
Qed.

Lemma parse_8bit_undefined_witness :
  parse false new_node (loaded ["239"; "187"; "191"]%char []) = None.
Proof. apply (parse_8bit_undefined false "239"%char). vm_compute. done. Defined.

(** ** Queries *)

(** The nodes reached by the [next] links. *)
Fixpoint chain (n : CN_S) : list CN_S :=
  n :: match n with conf_node _ _ _ _ (Some m) => chain m | _ => [] end.

Lemma STRMATCH_spec a b : STRMATCH a b = bool_decide (c_str a = c_str b).
Proof.
  assert (∀ a, take (length (c_str a)) a = c_str a) as Ht.
  { intros x. induction x as [|c x IH]; [done|]. cbn [c_str].
    case_bool_decide; [done|]. simpl. by rewrite IH. }
  unfold STRMATCH, strlen. rewrite Ht.
  destruct (Z.eqb_spec (Z.of_nat (length (c_str a))) (Z.of_nat (length (c_str b)))) as [E|E]; simpl.
  - apply bool_decide_ext. apply Nat2Z.inj in E. by rewrite E, Ht.
  - symmetry. apply bool_decide_eq_false. intros H. by rewrite H in E.
Qed.

(** The first node of the chain with a tag and a name. *)
Definition first_named (t : CNT_E) (name : list ascii) (n : CN_S) : option CN_S :=
  snd <$> list_find (λ m, ntype m = t ∧ c_str (modn m) = c_str name) (chain n).

(** An induction principle along the [next] links. *)
Lemma chain_ind (P : CN_S → Prop) :
  (∀ a v t sub, P (conf_node a v t sub None)) →
  (∀ a v t sub m, P m → P (conf_node a v t sub (Some m))) → ∀ n, P n.
Proof.
  intros H0 H1. fix IH 1. intros [a v t sub [m|]]; [apply H1, IH|apply H0].
Qed.

Lemma first_named_cons t name a v ty sub nx :
  first_named t name (conf_node a v ty sub nx) =
    if bool_decide (ty = t) && STRMATCH name a then Some (conf_node a v ty sub nx)
    else match nx with None => None | Some m => first_named t name m end.
Proof.
  unfold first_named. cbn [chain list_find]. rewrite STRMATCH_spec.
  case_decide as Hd; simpl in Hd.
  - destruct Hd as [-> Hn]. by rewrite !bool_decide_eq_true_2.
  - assert (bool_decide (ty = t) && bool_decide (c_str name = c_str a) = false) as ->.
    { apply not_true_is_false. rewrite andb_true_iff, !bool_decide_eq_true. intros [-> Hn]. by destruct Hd. }
    destruct nx as [m|]; [|done]. cbn [chain]. by destruct (list_find _ _) as [[]|].
Qed.

(** The accessors return the first node of the chain with the wanted tag
    whose name, as a C string, is the one asked for. *)
Theorem accessors_spec i_mc name :
  get_value_from_node i_mc name = var <$> first_named char_t name i_mc ∧
  get_submod_from_node i_mc name = (first_named subnode_t name i_mc ≫= smodlh) ∧
  get_array_from_node i_mc name = first_named array_t name i_mc ∧
  get_proc_mod i_mc = snd <$> list_find (λ m, ntype m = proc_mod_t) (chain i_mc).
Proof.
  induction i_mc as [a v t sub|a v t sub m (IH1&IH2&IH3&IH4)] using chain_ind;
    rewrite !first_named_cons; cbn [get_value_from_node get_submod_from_node
      get_array_from_node get_proc_mod chain list_find ntype];
    (repeat split);
    try (match goal with |- context [if bool_decide ?p && ?b then _ else _] =>
           destruct (bool_decide p && b) end; done);
    case_decide; try done.
  rewrite IH4. by destruct (list_find _ _) as [[]|].
Qed.

(** ** Arrays *)

(** The chain an array body with the values [vs] becomes. *)
Definition arr_chain (vs : list (list ascii)) : CN_S := foldr arr_node new_node vs.

Lemma arr_tail_chain w t : arr_tail w t → ∃ vs, t = arr_chain vs.
Proof.
  induction 1 as [|s1 v s2 w t _ _ _ _ _ [vs ->]]; [by exists []|by exists (v :: vs)].
Qed.

Lemma arr_body_chain b t : arr_body b t → ∃ vs, t = arr_chain vs.
Proof.
  destruct 1 as [|v s2 w t _ _ _ Ht]; [by exists []|].
  destruct (arr_tail_chain _ _ Ht) as [vs ->]. by exists (v :: vs).
Qed.

Lemma count_elements_chain vs size :
  count_elements (arr_chain vs) size = Some (size + Z.of_nat (length vs))%Z.
Proof.
  revert size. induction vs as [|v vs IH]; intros size.
  - simpl. f_equal. lia.
  - change (arr_chain (v :: vs)) with (arr_node v (arr_chain vs)).
    cbn [count_elements arr_node]. rewrite decide_True, IH by done. f_equal. simpl. lia.
Qed.

Lemma element_at_chain vs index inpos :
  (inpos ≤ index)%Z →
  element_at (arr_chain vs) index inpos = Some (cfield 128 <$> vs !! Z.to_nat (index - inpos)).
Proof.
  revert inpos. induction vs as [|v vs IH]; intros inpos Hi; [done|].
  change (arr_chain (v :: vs)) with (arr_node v (arr_chain vs)).
  cbn [element_at arr_node]. rewrite decide_True by done.
  destruct (Z.eqb_spec index inpos) as [->|].
  - by rewrite Z.sub_diag.
  - rewrite IH by lia.
    by replace (Z.to_nat (index - inpos)) with (S (Z.to_nat (index - (inpos + 1)))) by lia.
Qed.

(** An array entry the parser built holds its elements in file order: the
    size is their number, an index in range gives that element (cut to its
    field), an index at or past the size gives NULL. *)
Theorem array_access name b sub v nx :
  arr_body b sub →
  ∃ vs, get_size_from_array (Some (conf_node name v array_t (Some sub) nx))
          = Some (Z.of_nat (length vs)) ∧
    sub = foldr arr_node new_node vs ∧
    ∀ index, (0 ≤ index)%Z →
      get_value_from_array_by_index (Some (conf_node name v array_t (Some sub) nx)) index
      = Some (cfield 128 <$> vs !! Z.to_nat index).
Proof.
  intros Hb. destruct (arr_body_chain _ _ Hb) as [vs ->]. exists vs.
  unfold get_size_from_array, get_value_from_array_by_index. cbn [ntype PConf.smodlh].
  rewrite decide_True, count_elements_chain by done. split; [done|]. split; [done|].
  intros index Hi. by rewrite element_at_chain, Z.sub_0_r.
Qed.

Lemma array_access_witness :
  ∃ vs, get_size_from_array (Some (conf_node [] [] array_t
      (Some (arr_node (bytes "a") (arr_node (bytes "b") new_node))) None))
    = Some (Z.of_nat (length vs)) ∧
    arr_node (bytes "a") (arr_node (bytes "b") new_node) = foldr arr_node new_node vs ∧
    ∀ index, (0 ≤ index)%Z →
      get_value_from_array_by_index (Some (conf_node [] [] array_t
        (Some (arr_node (bytes "a") (arr_node (bytes "b") new_node))) None)) index
      = Some (cfield 128 <$> vs !! Z.to_nat index).
Proof.
  apply (array_access [] (bytes "a" ++ [] ++ bytes ",b") _ [] None).
  apply (ab_val (bytes "a") [] (bytes ",b")); [by split; [repeat constructor|]|constructor|done|].
  apply (at_val [] (bytes "b") [] []); [constructor|by split; [repeat constructor|]|constructor|done|constructor].
Defined.

(** ** Write and look up *)

(** A configuration of plain [name value;] lines. *)
Definition entry_ok (e : list ascii * list ascii) : Prop :=
  is_name e.1 ∧ e.1 ≠ bytes "proc" ∧ is_value e.2.

Definition conf_text (es : list (list ascii * list ascii)) : list ascii :=
  concat ((λ e, "010"%char :: e.1 ++ " "%char :: e.2 ++ [";"%char]) <$> es).

Definition conf_tree (es : list (list ascii * list ascii)) : CN_S :=
  foldr (λ e t, conf_node (cfield 64 e.1) (cfield 128 e.2) char_t None (Some t)) new_node es.

Lemma conf_text_gram es : Forall entry_ok es → gram true (conf_text es) (conf_tree es).
Proof.
  induction 1 as [|[k v] es (Hk&Hn&Hv) _ IH]; [constructor|].
  unfold conf_text. rewrite fmap_cons. cbn [concat fst snd] in *. fold (conf_text es).
  rewrite <- app_comm_cons, <- app_assoc, <- app_comm_cons, <- app_assoc.
  apply (g_val true ["010"%char] k [" "%char] v [] (conf_text es)); try done.
  - apply sep_blank; [by right|constructor].
  - apply sep_blank; [by left|constructor].
  - constructor.
Qed.

Lemma cfield_c_str n s : 0 < n → NUL ∉ s → c_str (cfield n s) = take (n - 1) s.
Proof.
  intros Hn Hs. unfold cfield.
  replace (n - length s `min` (n - 1)) with (S (n - 1 - length s `min` (n - 1))) by lia.
  cbn [replicate]. rewrite c_str_app_nul.
  - destruct (decide (length s ≤ n - 1)).
    + by rewrite Nat.min_l, !take_ge by lia.
    + by rewrite Nat.min_r by lia.
  - intros H. apply Hs. rewrite <- (take_drop (length s `min` (n - 1)) s).
    apply elem_of_app. by left.
Qed.

Lemma conf_lookup es name :
  Forall entry_ok es → NUL ∉ name →
  get_value_from_node (conf_tree es) name =
    (λ e, cfield 128 e.2.2) <$> list_find (λ e, take 63 e.1 = name) es.
Proof.
  intros He Hn. induction He as [|[k v] es (Hk&_&_) _ IH].
  { done. }
  cbn [conf_tree foldr get_value_from_node list_find fst snd].
  rewrite STRMATCH_spec, cfield_c_str by (done || lia || by apply name_no_nul).
  rewrite bool_decide_eq_true_2 by done. simpl.
  assert (c_str name = name) as ->.
  { clear -Hn. induction name as [|c n IH]; [done|]. simpl.
    apply not_elem_of_cons in Hn as [? ?]. rewrite bool_decide_eq_false_2 by congruence.
    by rewrite IH. }
  case_bool_decide as Hd; case_decide as Hd'; simpl in *; try congruence.
  unfold conf_tree in IH. rewrite IH. by destruct (list_find _ es) as [[]|].
Qed.

(** The text of a line ends with its [';']. *)
Lemma conf_text_last es : es ≠ [] → list.last (conf_text es) = Some ";"%char.
Proof.
  induction es as [|[k v] es IH]; [done|]. intros _. unfold conf_text. rewrite fmap_cons. cbn [concat fst snd].
  fold (conf_text es). rewrite last_app. destruct es as [|e es].
  - cbn. change (_ :: k ++ " "%char :: v ++ [";"%char]) with (("010"%char :: k) ++ (" "%char :: v) ++ [";"%char]).
    by rewrite app_assoc, last_snoc.
  - by rewrite IH.
Qed.

Lemma conf_accepts unset_null es sf :
  accepts unset_null (conf_text es) sf = true ↔ if decide (sf = []) then es = [] else unset_null = false.
Proof.
  destruct sf as [|c sf]; simpl; [|by destruct unset_null].
  rewrite bool_decide_eq_true. destruct es as [|e es]; [done|]. rewrite conf_text_last by done. naive_solver.
Qed.

(** C3. Write and look up, for a file of [name value;] lines, blanks or comments
    behind them, and a name.  Reading ends, with 0 or -1.  It is 0 when
    something is behind the last line and the pointer that the parser then
    compares, which it has never assigned, is not NULL ([unset_null] is whether
    it is); or when there is nothing at all.  Then asking for the name gives the
    value, cut to 127 characters, of the first line whose name, cut to 63
    characters, is that name, and NULL when there is none. *)
Theorem conf_roundtrip unset_null es sf name rest :
  Forall entry_ok es → is_ascii (conf_text es ++ sf) → is_sep sf → NUL ∉ name →
  ∃ code tree s', parse unset_null new_node (loaded (conf_text es ++ sf) rest) = Some ((code, tree), s') ∧
    (code = 0%Z ∨ code = (-1)%Z) ∧
    (code = 0%Z ↔ if decide (sf = []) then es = [] else unset_null = false) ∧
    (code = 0%Z → c_str <$> get_value_from_node tree name =
      (λ e, take 127 e.2.2) <$> list_find (λ e, take 63 e.1 = name) es).
Proof.
  intros He Ha Hsf Hn.
  destruct (parse_file unset_null (conf_text es) sf (conf_tree es) rest)
    as (code&tree&s'&Hp&Hc); [done|by apply conf_text_gram|done|].
  exists code, tree, s'. split; [done|]. rewrite <- conf_accepts.
  destruct (accepts unset_null (conf_text es) sf) eqn:Eacc; [destruct Hc as [-> ->]|by subst code; naive_solver].
  split; [by left|]. split; [done|]. intros _. rewrite conf_lookup by done.
  destruct (list_find _ es) as [[i [k v]]|] eqn:E; [|done]. simpl. f_equal.
  apply list_find_Some in E as (Hl&_). eapply Forall_lookup_1 in He as (_&_&Hv); [|done].
  simpl in Hv. rewrite cfield_c_str; [done|lia|by apply value_no_nul].
Qed.

(** One file, read with both values of the pointer. *)
Lemma conf_roundtrip_witness :
  let text := conf_text [(bytes "port", bytes "80"); (bytes "host", bytes "::1")] ++ ["010"%char] in
  (∃ tree s', parse false new_node (loaded text []) = Some ((0%Z, tree), s') ∧
    c_str <$> get_value_from_node tree (bytes "host") = Some (bytes "::1")) ∧
  (∃ tree s', parse true new_node (loaded text []) = Some (((-1)%Z, tree), s')).
Proof.
  intros text.
  assert (H : ∀ unset_null, ∃ code tree s', parse unset_null new_node (loaded text []) = Some ((code, tree), s') ∧
    (code = 0%Z ∨ code = (-1)%Z) ∧ (code = 0%Z ↔ unset_null = false) ∧
    (code = 0%Z → c_str <$> get_value_from_node tree (bytes "host") = Some (bytes "::1"))).
  { intros unset_null. apply (conf_roundtrip unset_null [(bytes "port", bytes "80"); (bytes "host", bytes "::1")]
      ["010"%char] (bytes "host") []).
    - repeat constructor; try done; intros; congruence.
    - by repeat constructor.
    - by repeat constructor.
    - by apply (bool_decide_unpack _). }
  split.
  - destruct (H false) as (code&tree&s'&E&_&Hc&Hv). assert (code = 0%Z) as -> by by apply Hc. exists tree, s'. split; [exact E|by apply Hv].
  - destruct (H true) as (code&tree&s'&E&[->| ->]&Hc&_); [by destruct (proj1 Hc eq_refl)|]. by exists tree, s'.
Defined.
