(* ===== verification/MongoAdaptor.v ===== *)
(** * src/app/mongo_adaptor and the libraries behind it.

    The MongoDB C driver, libbson and jsoncpp are third-party code: their
    operations are the members of classes, and what the program relies on are
    the laws of [MongoLaws] and [JsonLaws], which restate the documentation of
    a server that can be reached.  [MongoAdaptor]'s own functions follow. *)

From S2P Require Import Prelude PString PConf.

Local Open Scope Z_scope.

(** ** Third-party interfaces *)

(** A field of a document, as a reader of the documentation sees it. *)
#[warnings="-register-all"]
Inductive bval :=
  | BUtf8 (s : list ascii)
  | BInt32 (z : Z)
  | BDoc (d : list (list ascii * bval))
  | BOid (z : Z).

(** libbson: building documents and printing them. *)
Class Bson := {
  bson_t : Type;
  bson_new : bson_t;
  BSON_APPEND_UTF8 : bson_t → list ascii → list ascii → bson_t;
  BSON_APPEND_INT32 : bson_t → list ascii → Z → bson_t;
  bson_append_document : bson_t → list ascii → bson_t → bson_t;
  bson_as_json : bson_t → list ascii }.

(** The driver.  [server] is everything behind it; a client is [None] (NULL)
    for an address the driver rejects. *)
Class Mongo `{Bson} := {
  client : Type;
  coll : Type;
  server : Type;
  mongoc_client_new : list ascii → option client;
  mongoc_client_get_collection : client → list ascii → list ascii → coll;
  mongoc_collection_insert : coll → bson_t → server → bool * server;
  mongoc_collection_update : coll → bson_t → bson_t → server → bool * server;
  mongoc_collection_find : coll → bson_t → server → list bson_t;
  mongoc_collection_remove : coll → bson_t → server → bool * server }.

(** jsoncpp: [None] is a parse error or a thrown exception. *)
Class Jsoncpp := {
  jvalue : Type;
  reader_parse : list ascii → option jvalue;
  member : jvalue → list ascii → option jvalue;
  asString : jvalue → option (list ascii);
  asInt : jvalue → option Z }.

(** ** Documented behaviour *)

Abbreviation doc := (list (list ascii * bval)).

Definition field (d : doc) (k : list ascii) : option bval :=
  snd <$> (snd <$> list_find (λ e, e.1 = k) d).

(** Whether a document satisfies one member of a query: a value asks for
    equality, [{"$ne": v}] for a different or missing field. *)
Definition bval_eqb (a b : bval) : bool :=
  match a, b with
  | BUtf8 s, BUtf8 t => bool_decide (s = t)
  | BInt32 x, BInt32 y => x =? y
  | BOid x, BOid y => x =? y
  | _, _ => false
  end.

Definition has (d : doc) (k : list ascii) (v : bval) : bool :=
  match field d k with Some w => bval_eqb w v | None => false end.

Definition satisfies (d : doc) (e : list ascii * bval) : bool :=
  match e.2 with
  | BDoc [(op, v)] =>
      if bool_decide (op = bytes "$ne") then negb (has d e.1 v) else false
  | v => has d e.1 v
  end.

Definition matches (q d : doc) : bool := forallb (satisfies d) q.

(** [{"$set": {k: v}}] on a document: an existing field keeps its place. *)
Definition set_field (k : list ascii) (v : bval) (d : doc) : doc :=
  match list_find (λ e, e.1 = k) d with
  | Some (i, _) => <[i := (k, v)]> d
  | None => d ++ [(k, v)]
  end.

Definition apply_update (u d : doc) : doc :=
  match u with
  | [(op, BDoc kvs)] =>
      if bool_decide (op = bytes "$set")
      then fold_left (λ d e, set_field e.1 e.2 d) kvs d else d
  | _ => d
  end.

(** Changing or dropping the first element that satisfies a test. *)
Definition alter_first {A} (p : A → bool) (f : A → A) (l : list A) : list A :=
  match list_find (λ x, p x = true) l with
  | Some (i, x) => <[i := f x]> l
  | None => l
  end.
Definition remove_first {A} (p : A → bool) (l : list A) : list A :=
  match list_find (λ x, p x = true) l with
  | Some (i, _) => take i l ++ drop (S i) l
  | None => l
  end.

Class MongoLaws `{Mongo} := {
  fields : bson_t → doc;
  contents : server → coll → list doc;
  fields_new : fields bson_new = [];
  fields_utf8 d k s : fields (BSON_APPEND_UTF8 d k s) = fields d ++ [(k, BUtf8 s)];
  fields_int32 d k z : fields (BSON_APPEND_INT32 d k z) = fields d ++ [(k, BInt32 z)];
  fields_document d k e :
    fields (bson_append_document d k e) = fields d ++ [(k, BDoc (fields e))];
  find_law c q s :
    fields <$> mongoc_collection_find c q s = filter (λ d, matches (fields q) d = true) (contents s c);
  insert_law c d s s' : mongoc_collection_insert c d s = (true, s') →
    ∃ id, contents s' c = contents s c ++ [(bytes "_id", BOid id) :: fields d];
  insert_fail c d s s' : mongoc_collection_insert c d s = (false, s') →
    contents s' c = contents s c;
  update_law c q u s s' : mongoc_collection_update c q u s = (true, s') →
    contents s' c = alter_first (matches (fields q)) (apply_update (fields u)) (contents s c);
  update_fail c q u s s' : mongoc_collection_update c q u s = (false, s') →
    contents s' c = contents s c;
  remove_law c q s s' : mongoc_collection_remove c q s = (true, s') →
    contents s' c = remove_first (matches (fields q)) (contents s c);
  remove_fail c q s s' : mongoc_collection_remove c q s = (false, s') →
    contents s' c = contents s c }.

(** Text that JSON carries unchanged without escapes outside ASCII. *)
Definition plain (s : list ascii) : Prop :=
  Forall (λ c, c ≠ NUL ∧ 0 ≤ char_val c) s.

Definition plain_field (e : list ascii * bval) : Prop :=
  plain e.1 ∧ match e.2 with
              | BUtf8 s => plain s
              | BInt32 z => - 2 ^ 31 ≤ z < 2 ^ 31
              | BDoc _ => False
              | BOid _ => True
              end.

(** [bson_as_json] prints JSON that jsoncpp reads back, field by field. *)
Class JsonLaws `{MongoLaws, Jsoncpp} := {
  json_law d : Forall plain_field (fields d) →
    ∃ v, reader_parse (c_str (bson_as_json d)) = Some v ∧
      (∀ k s, field (fields d) k = Some (BUtf8 s) → (member v k ≫= asString) = Some s) ∧
      (∀ k z, field (fields d) k = Some (BInt32 z) → (member v k ≫= asInt) = Some z) }.

(** ** MongoAdaptor *)

Definition REC_ERROR_OK : Z := 0.
Definition REC_ERROR_STREAM_EXIST : Z := 1.
Definition REC_ERROR_PORCESS_INFO_NONE : Z := 2.
Definition REC_ERROR_GET_COLLECTION_FAILED : Z := 3.
Definition REC_ERROR_FORK_FAILED : Z := 4.
Definition REC_ERROR_STREAM_NOT_EXIST : Z := 5.
Definition REC_ERROR_MONGODB : Z := 6.
Definition REC_ERROR_JSON_PARSER : Z := 7.
Definition REC_ERROR_INTERNAL : Z := 8.
Definition REC_ERROR_CREATE_M3U8_FILE : Z := 11.
Definition REC_ERROR_JSON_PARSER_EXCEPTION : Z := 12.

Module MongoAdaptor.
Section adaptor.
Context `{Mongo}.

Definition connect (addr : list ascii) : option client :=
  mongoc_client_new (c_str addr).

Definition collection (connect : option client) (db collection : list ascii)
    : option coll :=
  match connect with
  | None => None
  | Some client => Some (mongoc_client_get_collection client (c_str db) (c_str collection))
  end.

Definition insert (collection : option coll) (query : bson_t) (s : server)
    : bool * server :=
  match collection with
  | None => (false, s)
  | Some collect => mongoc_collection_insert collect query s
  end.

Definition update (collection : option coll) (query upd : bson_t) (s : server)
    : bool * server :=
  match collection with
  | None => (false, s)
  | Some collect => mongoc_collection_update collect query upd s
  end.

(** The return code and what is appended to the vector. *)
Definition find (collection : option coll) (query : bson_t) (s : server)
    : Z * list (list ascii) :=
  match collection with
  | None => (1, [])
  | Some collect =>
      (0, (λ d, c_str (bson_as_json d)) <$> mongoc_collection_find collect query s)
  end.

(** [inr item] is REC_ERROR_OK with the first document the cursor yields. *)
Definition findOne (collection : option coll) (query : bson_t) (s : server)
    : Z + list ascii :=
  match collection with
  | None => inl REC_ERROR_GET_COLLECTION_FAILED
  | Some collect =>
      match mongoc_collection_find collect query s with
      | d :: _ => inr (c_str (bson_as_json d))
      | [] => inl REC_ERROR_PORCESS_INFO_NONE
      end
  end.

Definition remove (collection : option coll) (query : bson_t) (s : server)
    : bool * server :=
  match collection with
  | None => (false, s)
  | Some collect => mongoc_collection_remove collect query s
  end.
End adaptor.
End MongoAdaptor.
