(* ===== verification/DriverObjects.v ===== *)
(** * src/app: the objects of the MongoDB driver that the operations make and
    give back.

    What the operations do with the table is in ProcessManager; here each is
    the sequence of constructor and destructor calls it makes on clients,
    collections, documents and cursors. *)

From S2P Require Import Prelude.

Local Open Scope Z_scope.

Inductive object := Client | Collection | Document | Cursor.
#[export] Instance object_eq_dec : EqDecision object.
Proof. solve_decision. Defined.

(** How many of each are alive. *)
Definition ledger := object → Z.
Definition make (o : object) (l : ledger) : ledger := λ x, if decide (x = o) then l x + 1 else l x.
Definition destroy (o : object) (l : ledger) : ledger := λ x, if decide (x = o) then l x - 1 else l x.

Section objects.
(** Whether [mongoc_client_new] accepts the address. *)
Context (connects : bool).

(** ** MongoAdaptor *)

Definition connect_objs (l : ledger) : ledger := if connects then make Client l else l.
Definition collection_objs (l : ledger) : ledger := if connects then make Collection l else l.
Definition connect_close_objs (l : ledger) : ledger := if connects then destroy Client l else l.
Definition collection_release_objs (l : ledger) : ledger := if connects then destroy Collection l else l.

(** [insert], [update] and [remove] make nothing; the queries never destroy
    the cursor they iterate. *)
Definition find_objs (l : ledger) : ledger := if connects then make Cursor l else l.
Definition findOne_objs (l : ledger) : ledger := if connects then make Cursor l else l.

(** ** ProcessManager *)

Definition release (l : ledger) : ledger := connect_close_objs (collection_release_objs l).

(** A query for one document: the two [is_process_exist], [get_process_info]. *)
Definition look_up (l : ledger) : ledger :=
  release (destroy Document (findOne_objs (make Document (collection_objs (connect_objs l))))).

(** The two removals and [add_process_to_cache]. *)
Definition write_one (l : ledger) : ledger :=
  release (destroy Document (make Document (collection_objs (connect_objs l)))).

(** [query], [update] and [child] are made, [child] and [query] destroyed. *)
Definition update_process_info_objs (l : ledger) : ledger :=
  let l := make Document (make Document (make Document (collection_objs (connect_objs l)))) in
  release (destroy Document (destroy Document l)).

Definition find_orphan_process_objs (l : ledger) : ledger :=
  let l := make Document (make Document (collection_objs (connect_objs l))) in
  release (destroy Document (destroy Document (find_objs l))).

Inductive op := LookUp | WriteOne | Update | FindOrphans.
Definition run_op (o : op) : ledger → ledger :=
  match o with
  | LookUp => look_up
  | WriteOne => write_one
  | Update => update_process_info_objs
  | FindOrphans => find_orphan_process_objs
  end.
Definition run_ops (os : list op) (l : ledger) : ledger := foldl (λ l o, run_op o l) l os.

(** ** What stays behind *)

Definition queries (o : op) : bool := match o with LookUp | FindOrphans => true | _ => false end.
Definition updates (o : op) : bool := match o with Update => true | _ => false end.
Definition count (p : op → bool) (os : list op) : Z := Z.of_nat (length (filter (λ o, p o = true) os)).

Lemma run_op_objects o l :
  run_op o l Client = l Client ∧ run_op o l Collection = l Collection ∧
  run_op o l Document = l Document + (if updates o then 1 else 0) ∧
  run_op o l Cursor = l Cursor + (if connects && queries o then 1 else 0).
Proof.
  destruct o; unfold run_op, look_up, write_one, update_process_info_objs, find_orphan_process_objs, release,
    connect_objs, collection_objs, connect_close_objs, collection_release_objs, find_objs, findOne_objs; destruct connects;
    unfold make, destroy; simpl; lia.
Qed.

(** Whatever the recorder does, connections and collections are closed, but
    each query leaves its cursor behind and each update a document: both grow
    for ever. *)
Theorem objects_leak os l :
  run_ops os l Client = l Client ∧ run_ops os l Collection = l Collection ∧
  run_ops os l Document = l Document + count updates os ∧
  run_ops os l Cursor = l Cursor + (if connects then count queries os else 0).
Proof.
  revert l. induction os as [|o os IH]; intros l.
  - unfold count. simpl. destruct connects; lia.
  - change (run_ops (o :: os) l) with (run_ops os (run_op o l)).
    destruct (IH (run_op o l)) as (->&->&->&->). destruct (run_op_objects o l) as (->&->&->&->).
    unfold count. rewrite !filter_cons.
    repeat case_decide; destruct connects, o; simpl in *; try done; lia.
Qed.
End objects.
