(* ===== verification/ProcessManager.v ===== *)
(** * src/app/process_manager: the table of recording processes. *)

From stdpp Require Import pretty.
From S2P Require Import Prelude PString MongoAdaptor.

Local Open Scope Z_scope.

(** ** Data *)

(** [pid] and [ppid] are [None] until they are assigned. *)
Record process_info := mk_process_info {
  sid : list ascii;
  pid : option Z;
  ppid : option Z;
  src_url : list ascii;
  m3u8_path : list ascii;
  type : list ascii;
  status : list ascii;
  host : list ascii }.

Definition empty_process_info : process_info :=
  mk_process_info [] None None [] [] [] [] [].

Definition set_sid v p :=
  mk_process_info v (pid p) (ppid p) (src_url p) (m3u8_path p) (type p) (status p) (host p).
Definition set_pid v p :=
  mk_process_info (sid p) (Some v) (ppid p) (src_url p) (m3u8_path p) (type p) (status p) (host p).
Definition set_ppid v p :=
  mk_process_info (sid p) (pid p) (Some v) (src_url p) (m3u8_path p) (type p) (status p) (host p).
Definition set_src_url v p :=
  mk_process_info (sid p) (pid p) (ppid p) v (m3u8_path p) (type p) (status p) (host p).
Definition set_m3u8_path v p :=
  mk_process_info (sid p) (pid p) (ppid p) (src_url p) v (type p) (status p) (host p).
Definition set_type v p :=
  mk_process_info (sid p) (pid p) (ppid p) (src_url p) (m3u8_path p) v (status p) (host p).
Definition set_status v p :=
  mk_process_info (sid p) (pid p) (ppid p) (src_url p) (m3u8_path p) (type p) v (host p).
Definition set_host v p :=
  mk_process_info (sid p) (pid p) (ppid p) (src_url p) (m3u8_path p) (type p) (status p) v.

Record m3u8_param := mk_m3u8_param {
  path : list ascii;
  m3u8_sid : list ascii;
  file_path : list ascii }.

Record reply := mk_reply { code : Z; reason : list ascii; text : list ascii }.

(** ** The singleton

    [_instance], 0 for NULL; [fresh] is what [new] answers. *)
Definition Instance (fresh inst : Z) : Z := if inst =? 0 then fresh else inst.
Definition Destroy (inst : Z) : Z := if negb (inst =? 0) then 0 else inst.

(** ** The operating system

    Every system call is recorded with the answer it got. *)
Inductive syscall :=
  | Signal (signo : Z)
  | MutexInit
  | MutexLock
  | MutexUnlock
  | MongocInit
  | PthreadCreate (routine : list ascii)
  | Fork
  | Getpid
  | Kill (pid sig : Z)
  | Execl (cmd : list ascii)
  | Opendir (path : list ascii)
  | Access (path : list ascii)
  | Mkdir (path : list ascii)
  | Time
  | Open (path : list ascii)
  | Chmod (path : list ascii)
  | Close (fd : Z).

(** A write to the database, and whether the driver reported success. *)
Inductive db_op := DbInsert | DbUpdate | DbRemove.

Inductive event :=
  | Sys (c : syscall) (answer : Z)
  | Db (o : db_op) (ok : bool)
  | SendReply (r : reply).

Definition SIGINT : Z := 2.
Definition SIGCHLD : Z := 17.

Section program.
Context `{Mongo, Jsoncpp}.

(** What the operating system answers, by the number of calls before. *)
Context (answer : nat → syscall → Z).

Record world := mk_world {
  srv : server;
  queue : list process_info;
  is_running : bool;
  db_address : list ascii;
  clock : nat;
  trace : list event }.

Definition set_srv v w :=
  mk_world v (queue w) (is_running w) (db_address w) (clock w) (trace w).
Definition set_queue v w :=
  mk_world (srv w) v (is_running w) (db_address w) (clock w) (trace w).
Definition set_running v w :=
  mk_world (srv w) (queue w) v (db_address w) (clock w) (trace w).
Definition set_address v w :=
  mk_world (srv w) (queue w) (is_running w) v (clock w) (trace w).
Definition log_event e w :=
  mk_world (srv w) (queue w) (is_running w) (db_address w) (clock w) (trace w ++ [e]).
Definition tick w :=
  mk_world (srv w) (queue w) (is_running w) (db_address w) (S (clock w)) (trace w).

(** A computation returns, replaces the process image (a successful [execl]),
    or crashes (undefined behaviour, an uncaught exception). *)
Inductive result (A : Type) :=
  | Ok (a : A)
  | Replaced
  | Crash.
#[global] Arguments Ok {A} a.
#[global] Arguments Replaced {A}.
#[global] Arguments Crash {A}.

Definition P (A : Type) : Type := world → result A * world.

#[global] Instance P_ret : MRet P := λ A a w, (Ok a, w).
#[global] Instance P_bind : MBind P := λ A B k m w,
  match m w with
  | (Ok a, w') => k a w'
  | (Replaced, w') => (Replaced, w')
  | (Crash, w') => (Crash, w')
  end.

Definition sys (c : syscall) : P Z := λ w,
  let a := answer (clock w) c in (Ok a, log_event (Sys c a) (tick w)).
Definition read {A} (f : world → A) : P A := λ w, (Ok (f w), w).
Definition upd (f : world → world) : P () := λ w, (Ok (), f w).
Definition crash {A} : P A := λ w, (Crash, w).
Definition replaced {A} : P A := λ w, (Replaced, w).
Definition of_option {A} (o : option A) : P A :=
  match o with Some a => mret a | None => crash end.

(** A driver call that may change the server. *)
Definition on_server (o : db_op) (f : server → bool * server) : P bool := λ w,
  let '(ok, s) := f (srv w) in (Ok ok, log_event (Db o ok) (set_srv s w)).

(** The collection handle every operation opens. *)
Definition process_collection : P (option coll) :=
  addr ← read db_address;
  mret (MongoAdaptor.collection (MongoAdaptor.connect addr)
          (bytes "rec_distribute") (bytes "process_info")).

Definition query_sid (sid : list ascii) : bson_t :=
  BSON_APPEND_UTF8 bson_new (bytes "stream_id") (c_str sid).
Definition query_pid (pid : Z) : bson_t :=
  BSON_APPEND_INT32 bson_new (bytes "pid") pid.
Definition query_not_ppid (pid : Z) : bson_t :=
  bson_append_document bson_new (bytes "ppid") (BSON_APPEND_INT32 bson_new (bytes "$ne") pid).

(** ** parser *)

(** The assignments in order, up to the first that throws. *)
Fixpoint assign (steps : list (process_info → option process_info)) (info : process_info)
    : Z * process_info :=
  match steps with
  | [] => (REC_ERROR_OK, info)
  | f :: steps' =>
      match f info with
      | None => (REC_ERROR_JSON_PARSER_EXCEPTION, info)
      | Some info' => assign steps' info'
      end
  end.

Definition get_string (root : jvalue) (k : list ascii) : option (list ascii) :=
  member root k ≫= asString.
Definition get_int (root : jvalue) (k : list ascii) : option Z :=
  member root k ≫= asInt.

Definition parser (item : list ascii) (info : process_info) : Z * process_info :=
  match reader_parse (c_str item) with
  | None => (REC_ERROR_JSON_PARSER, info)
  | Some root =>
      assign [
        (λ i, (λ v, set_src_url v i) <$> get_string root (bytes "src_url"));
        (λ i, (λ v, set_m3u8_path v i) <$> get_string root (bytes "m3u8_path"));
        (λ i, (λ v, set_sid v i) <$> get_string root (bytes "stream_id"));
        (λ i, (λ v, set_type v i) <$> get_string root (bytes "type"));
        (λ i, (λ v, set_status v i) <$> get_string root (bytes "status"));
        (λ i, (λ v, set_host v i) <$> get_string root (bytes "host"));
        (λ i, (λ v, set_pid v i) <$> get_int root (bytes "pid"));
        (λ i, (λ v, set_ppid v i) <$> get_int root (bytes "ppid"))] info
  end.

(** ** Table operations *)

Definition is_process_exist (sid : list ascii) : P bool :=
  collection ← process_collection;
  s ← read srv;
  mret (match MongoAdaptor.findOne collection (query_sid sid) s with
        | inr _ => true | inl _ => false end).

(** The overload by pid; [info] is an out-parameter. *)
Definition is_process_exist_pid (pid : Z) (info : process_info)
    : P (bool * process_info) :=
  collection ← process_collection;
  s ← read srv;
  mret (match MongoAdaptor.findOne collection (query_pid pid) s with
        | inr item => (true, (parser item info).2)
        | inl _ => (false, info) end).

Definition get_process_info (sid : list ascii) : P (option process_info) :=
  collection ← process_collection;
  s ← read srv;
  mret (match MongoAdaptor.findOne collection (query_sid sid) s with
        | inr item => Some (parser item empty_process_info).2
        | inl _ => None end).

Definition remove_process_by_stream (sid : list ascii) : P Z :=
  collection ← process_collection;
  ok ← on_server DbRemove (MongoAdaptor.remove collection (query_sid sid));
  mret (if (ok : bool) then REC_ERROR_OK else REC_ERROR_MONGODB).

Definition remove_process_by_id (id : Z) : P Z :=
  collection ← process_collection;
  ok ← on_server DbRemove (MongoAdaptor.remove collection (query_pid id));
  mret (if (ok : bool) then REC_ERROR_OK else REC_ERROR_MONGODB).

Definition update_process_info (param : process_info) : P Z :=
  collection ← process_collection;
  pid ← of_option (pid param);
  ok ← on_server DbUpdate (MongoAdaptor.update collection (query_sid (sid param))
         (bson_append_document bson_new (bytes "$set")
            (BSON_APPEND_INT32 bson_new (bytes "pid") pid)));
  mret (if (ok : bool) then REC_ERROR_OK else REC_ERROR_MONGODB).

Definition process_document (info : process_info) (pid ppid : Z) : bson_t :=
  let query := BSON_APPEND_UTF8 bson_new (bytes "stream_id") (c_str (sid info)) in
  let query := BSON_APPEND_INT32 query (bytes "pid") pid in
  let query := BSON_APPEND_INT32 query (bytes "ppid") ppid in
  let query := BSON_APPEND_UTF8 query (bytes "src_url") (c_str (src_url info)) in
  let query := BSON_APPEND_UTF8 query (bytes "m3u8_path") (c_str (m3u8_path info)) in
  let query := BSON_APPEND_UTF8 query (bytes "type") (c_str (type info)) in
  let query := BSON_APPEND_UTF8 query (bytes "status") (bytes "active") in
  BSON_APPEND_UTF8 query (bytes "host") (c_str (host info)).

Definition add_process_to_cache (info : process_info) : P Z :=
  collection ← process_collection;
  pid ← of_option (pid info);
  ppid ← sys Getpid;
  ok ← on_server DbInsert (MongoAdaptor.insert collection (process_document info pid ppid));
  mret (if (ok : bool) then REC_ERROR_OK else REC_ERROR_MONGODB).

(** ** Files *)

(** The loop of [multi_mkdir]: position [i], characters left. *)
Fixpoint mkdir_prefixes (str : list ascii) (i : nat) (rest : list ascii) : P () :=
  match rest with
  | [] => mret ()
  | c :: rest' =>
      (if decide (c = "/"%char) then
         a ← sys (Access (take i str));
         if negb (a =? 0) then sys (Mkdir (take i str));; mret () else mret ()
       else mret ());;
      mkdir_prefixes str (S i) rest'
  end.

(** [char str[512]] filled by [strncpy(str, dir, 512)] has no terminator when
    [dir] is that long. *)
Definition multi_mkdir (dir : list ascii) : P () :=
  let str := c_str dir in
  if decide (512 ≤ length str)%nat then crash else
  mkdir_prefixes str 0 str;;
  if decide (0 < length str)%nat then
    a ← sys (Access str);
    if negb (a =? 0) then sys (Mkdir str);; mret () else mret ()
  else mret ().

Definition dec (z : Z) : list ascii := bytes (pretty z).

(** [%d] prints the low 32 bits of the [time_t]. *)
Definition m3u8_name (param : m3u8_param) (t : Z) : list ascii :=
  (vsnprintf 256 (c_str (path param) ++ c_str (m3u8_sid param) ++ bytes "_"
     ++ dec (s32 t) ++ bytes ".m3u8")).1.

Definition create_m3u8 (param : m3u8_param) : P (Z * m3u8_param) :=
  d ← sys (Opendir (c_str (path param)));
  (if d =? 0 then multi_mkdir (c_str (path param)) else mret ());;
  t ← sys Time;
  let tmp := m3u8_name param t in
  fd ← sys (Open tmp);
  if fd <? 0 then mret (REC_ERROR_CREATE_M3U8_FILE, param) else
  sys (Chmod tmp);;
  sys (Close fd);;
  mret (REC_ERROR_OK, mk_m3u8_param (path param) (m3u8_sid param) tmp).

Definition remove_m3u8 (param : m3u8_param) : P Z := mret REC_ERROR_OK.

(** ** Processes *)

(** The command lines of the two [fork]s differ by one space. *)
Definition ffmpeg : list ascii :=
  bytes "/home/develop/tools/tmp/ffmpeg_3.3.3/bin/ffmpeg -i ".
Definition spawn_cmd (src_url file : list ascii) : list ascii :=
  (vsnprintf 1024 (ffmpeg ++ c_str src_url
     ++ bytes " -vcodec copy -acodec copy -map 0 -f hls -hls_list_size 0 -hls_wrap 0 -hls_time 3 "
     ++ c_str file)).1.
Definition reload_cmd (src_url file : list ascii) : list ascii :=
  (vsnprintf 1024 (ffmpeg ++ c_str src_url
     ++ bytes " -vcodec copy -acodec copy -map 0 -f hls  -hls_list_size 0 -hls_wrap 0 -hls_time 3 "
     ++ c_str file)).1.

(** [execl] returns only when it fails. *)
Definition execl (cmd : list ascii) : P Z :=
  r ← sys (Execl cmd);
  if r <? 0 then mret r else replaced.

Definition spawn_process (param : process_info) : P (Z * process_info) :=
  found ← is_process_exist (sid param);
  if (found : bool) then mret (REC_ERROR_STREAM_EXIST, param) else
  '(ret, m3u8) ← create_m3u8 (mk_m3u8_param (m3u8_path param) (sid param) []);
  if negb (ret =? REC_ERROR_OK) then mret (ret, param) else
  pid ← sys Fork;
  if pid <? 0 then mret (REC_ERROR_FORK_FAILED, param)
  else if 0 <? pid then
    let param := set_m3u8_path (file_path m3u8) (set_pid pid param) in
    add_process_to_cache param;;
    mret (REC_ERROR_OK, param)
  else
    execl (spawn_cmd (src_url param) (file_path m3u8));;
    mret (REC_ERROR_OK, param).

Definition kill_process (info : process_info) : P Z :=
  p ← get_process_info (sid info);
  match p with
  | None => mret REC_ERROR_STREAM_NOT_EXIST
  | Some process =>
      remove_process_by_stream (sid process);;
      pid ← of_option (pid process);
      sys (Kill pid SIGINT);;
      mret REC_ERROR_OK
  end.

Definition re_create_process (param : process_info) : P (Z * process_info) :=
  pid ← sys Fork;
  if pid <? 0 then mret (REC_ERROR_FORK_FAILED, param)
  else if 0 <? pid then
    let param := set_pid pid param in
    update_process_info param;;
    mret (REC_ERROR_OK, param)
  else
    execl (reload_cmd (src_url param) (m3u8_path param));;
    mret (REC_ERROR_OK, param).

Definition process_reload (info : process_info) : P (Z * process_info) :=
  '(_, info) ← re_create_process info;
  mret (REC_ERROR_OK, info).

(** [send_message] on the one message type there is. *)
Definition send_message (pid : Z) : P Z :=
  '(found, info) ← is_process_exist_pid pid empty_process_info;
  (if (found : bool) then process_reload info;; mret () else mret ());;
  mret REC_ERROR_OK.

(** The signal handler: the children [waitpid] reports, in its order. *)
Fixpoint sig_reap_chld (reaped : list Z) : P () :=
  match reaped with
  | [] => mret ()
  | pid :: reaped' => send_message pid;; sig_reap_chld reaped'
  end.

(** ** The queue *)

Definition put_data (param : process_info) : P Z :=
  sys MutexLock;;
  upd (λ w, set_queue (queue w ++ [param]) w);;
  sys MutexUnlock;;
  mret REC_ERROR_OK.

(** One turn of the inner loop of [process_queue]; [false] when the queue is
    empty. *)
Definition process_queue_step : P bool :=
  qu ← read queue;
  match qu with
  | [] => mret false
  | e :: _ =>
      spawn_process e;;
      upd (λ w, set_queue (tail (queue w)) w);;
      mret true
  end.

(** ** The monitor *)

Definition check_system_process_exist (pid : Z) : P bool :=
  ret ← sys (Kill pid 0);
  mret (0 =? ret).

(** The loop of [find_orphan_process]: one [item] serves all rounds. *)
Fixpoint collect_orphans (self : Z) (vec : list (list ascii)) (item : process_info)
    (process_vec : list process_info) : P (list process_info) :=
  match vec with
  | [] => mret process_vec
  | s :: vec' =>
      let item := (parser s item).2 in
      pp ← of_option (ppid item);
      collect_orphans self vec' item
        (if negb (pp =? self) then process_vec ++ [item] else process_vec)
  end.

Definition find_orphan_process (process_vec : list process_info)
    : P (Z * list process_info) :=
  collection ← process_collection;
  self ← sys Getpid;
  s ← read srv;
  let '(ret, vec) := MongoAdaptor.find collection (query_not_ppid self) s in
  orphans ← collect_orphans self vec empty_process_info process_vec;
  mret (ret, orphans).

Fixpoint sync_orphans (orphans : list process_info) : P () :=
  match orphans with
  | [] => mret ()
  | o :: orphans' =>
      opid ← of_option (pid o);
      alive ← check_system_process_exist opid;
      (if (alive : bool) then mret () else
         '(found, info) ← is_process_exist_pid opid empty_process_info;
         if (found : bool) then process_reload info;; mret () else mret ());;
      sync_orphans orphans'
  end.

Definition orphan_process_sync : P Z :=
  '(ret, orphans) ← find_orphan_process [];
  sync_orphans orphans;;
  mret ret.

(** ** Start-up *)

Definition create_process_queue : P Z :=
  upd (set_running true);;
  ret ← sys (PthreadCreate (bytes "process_queue"));
  mret (if negb (ret =? 0) then 1 else REC_ERROR_OK).

Definition create_monitor_thread : P Z :=
  ret ← sys (PthreadCreate (bytes "monitor"));
  mret (if negb (ret =? 0) then 1 else REC_ERROR_OK).

(** [return REC_ERROR_OK] from a function of type [bool]. *)
Definition initialize : P bool :=
  sys (Signal SIGCHLD);;
  sys MutexInit;;
  sys MongocInit;;
  upd (set_address (bytes "mongodb://localhost:27017"));;
  create_process_queue;;
  create_monitor_thread;;
  mret (negb (REC_ERROR_OK =? 0)).
End program.
