(* ===== verification/RecordControl.v ===== *)
(** * src/app/record_control: the HTTP interface of the recorder. *)

From S2P Require Import Prelude PString PConf MongoAdaptor ProcessManager.

Local Open Scope Z_scope.

Record app_data := mk_app_data {
  app_host : list ascii;
  app_port : list ascii;
  app_root_path : list ascii }.

(** [init]: the three settings; [inl] is the message printed before
    [exit(0)]. *)
Definition init (mod_tree : CN_S) : list ascii + app_data :=
  match get_value_from_node mod_tree (bytes "port") with
  | None => inl (bytes "port unspecified")
  | Some port =>
      match get_value_from_node mod_tree (bytes "root") with
      | None => inl (bytes "root path unspecified")
      | Some root_path =>
          match get_value_from_node mod_tree (bytes "host") with
          | None => inl (bytes "host unspecified")
          | Some host => inr (mk_app_data host port root_path)
          end
      end
  end.

(** [path.rfind("/")] and the part before it; the whole path without one. *)
Fixpoint last_slash (s : list ascii) : option nat :=
  match s with
  | [] => None
  | c :: s' =>
      match last_slash s' with
      | Some i => Some (S i)
      | None => if decide (c = "/"%char) then Some O else None
      end
  end.
Definition parent_path (s : list ascii) : list ascii :=
  match last_slash s with Some pos => take pos s | None => s end.

(** The reply bodies. *)
Definition quote : list ascii := ["034"%char].
Definition quoted (s : list ascii) : list ascii := quote ++ s ++ quote.
Definition error_body (error_code : list ascii) (error_text : list ascii) : list ascii :=
  bytes "{" ++ quoted (bytes "error_code") ++ bytes ":" ++ error_code ++ bytes ","
  ++ quoted (bytes "error_text") ++ bytes ":" ++ quoted error_text ++ bytes "}".
Definition create_body (file : list ascii) : list ascii :=
  bytes "{" ++ quoted (bytes "ret") ++ bytes ":0,"
  ++ quoted (bytes "msg") ++ bytes ":" ++ quoted (bytes "create task start") ++ bytes ","
  ++ quoted (bytes "path") ++ bytes ":" ++ quoted file ++ bytes "}".
Definition create_failed_body (ret : list ascii) : list ascii :=
  bytes "{" ++ quoted (bytes "ret") ++ bytes ":" ++ ret ++ bytes ","
  ++ quoted (bytes "msg") ++ bytes ":" ++ quoted (bytes "create task failed") ++ bytes "}".

Definition HTTP_OK : Z := 200.
Definition reply_ok : reply := mk_reply HTTP_OK (bytes "OK") (error_body (bytes "0") (bytes "SUCCESS")).
Definition reply_no_match (ret : Z) : reply :=
  mk_reply 400 (bytes "paramter not match") (error_body (dec ret) (bytes "input not match")).
Definition reply_body_null : reply :=
  mk_reply 400 (bytes "http body null") (error_body (dec 400) (bytes "http post body null")).
Definition reply_stream_exist (ret : Z) : reply :=
  mk_reply 403 (bytes "stream exist") (error_body (dec ret) (bytes "stream exist")).
Definition reply_not_exist (ret : Z) : reply :=
  mk_reply 404 (bytes "stream not exist") (error_body (dec ret) (bytes "stream not exist")).

Section handlers.
Context `{Mongo, Jsoncpp}.
Context (answer : nat → syscall → Z).

Definition send_reply (r : reply) : P () := upd (log_event (SendReply r)).

(** [root["key"].asString()] in a handler: an exception is not caught. *)
Definition string_of (root : jvalue) (k : list ascii) : P (list ascii) :=
  of_option (get_string root k).

(** [body] is the request body as a C string, [None] for NULL. *)
Definition create_record (data : app_data) (body : option (list ascii)) : P () :=
  match body with
  | None => send_reply reply_body_null
  | Some body =>
      match reader_parse body with
      | None => send_reply (reply_no_match 0)
      | Some root =>
          path ← string_of root (bytes "path");
          let path := parent_path path in
          sid ← string_of root (bytes "streamcode");
          let tmp := (vsnprintf 256 (c_str (app_root_path data) ++ c_str path ++ bytes "/")).1 in
          '(ret, param) ← create_m3u8 answer (mk_m3u8_param tmp sid []);
          if ret =? REC_ERROR_CREATE_M3U8_FILE
          then send_reply (mk_reply 400 (bytes "paramter not match") (create_failed_body (dec ret)))
          else send_reply (mk_reply HTTP_OK (bytes "OK") (create_body (c_str (file_path param))))
      end
  end.

Definition remove_record (data : app_data) (body : option (list ascii)) : P () := mret ().

Definition start_record (data : app_data) (body : option (list ascii)) : P () :=
  match body with
  | None => send_reply reply_body_null
  | Some body =>
      match reader_parse body with
      | None => send_reply (reply_no_match 0)
      | Some root =>
          src ← string_of root (bytes "src");
          path ← string_of root (bytes "path");
          let tmp := (vsnprintf 256 (c_str (app_root_path data) ++ c_str path)).1 in
          sid ← string_of root (bytes "streamcode");
          type ← string_of root (bytes "type");
          let cmd_param := mk_process_info sid None None src tmp type (bytes "active")
                             (c_str (app_host data)) in
          ret ← put_data answer cmd_param;
          if ret =? REC_ERROR_STREAM_EXIST then send_reply (reply_stream_exist ret)
          else send_reply reply_ok
      end
  end.

Definition stop_record (data : app_data) (body : option (list ascii)) : P () :=
  match body with
  | None => send_reply reply_body_null
  | Some body =>
      match reader_parse body with
      | None => send_reply (reply_no_match 0)
      | Some root =>
          src ← string_of root (bytes "src");
          sid ← string_of root (bytes "streamcode");
          let cmd_param := mk_process_info sid None None src [] [] [] [] in
          ret ← kill_process answer cmd_param;
          if ret =? REC_ERROR_STREAM_NOT_EXIST then send_reply (reply_not_exist ret)
          else send_reply reply_ok
      end
  end.

(** The callbacks [exec] registers; any other URI gets the library's own
    answer. *)
Definition routes : list (list ascii * (app_data → option (list ascii) → P ())) :=
  [ (bytes "/api/r3/start", start_record);
    (bytes "/api/r3/stop", stop_record);
    (bytes "/api/r3/create", create_record);
    (bytes "/api/r3/delete", remove_record) ].

Definition dispatch (uri : list ascii) (data : app_data) (body : option (list ascii)) : P () :=
  match list_find (λ r, r.1 = uri) routes with
  | Some (_, r) => r.2 data body
  | None => mret ()
  end.
End handlers.
