(* ===== verification/Startup.v ===== *)
(** * src/usage.cpp, src/global_conf.cpp, src/main.cpp: the command line, the
    paths and what [main] decides. *)

From S2P Require Import Prelude PString PConf PConfProofs PConfGrammar PConfFile RecordControl.

Local Open Scope Z_scope.

(** ** The command line *)

(** [struct argument]; a pointer is [None] while it is NULL. *)
Record argument := mk_argument {
  test_conf_s : option (list ascii);
  set_conf_s : option (list ascii);
  send_mod_s : option (list ascii);
  send_sig_s : Z;
  show_help : bool;
  show_version : bool;
  test_config : bool;
  set_config : bool;
  send_signal : bool;
  debug_mode : bool }.

Definition empty_argument : argument :=
  mk_argument None None None 0 false false false false false false.

Definition SIGNAL_STOP : Z := 1.
Definition SIGNAL_RELOAD : Z := 2.
Definition DEFAULT_CONF_PATH : list ascii := bytes "../conf/config.conf".
Definition DEFAULT_LOG_PATH : list ascii := bytes "../log/".

Definition set_help a := mk_argument (test_conf_s a) (set_conf_s a) (send_mod_s a) (send_sig_s a) true
  (show_version a) (test_config a) (set_config a) (send_signal a) (debug_mode a).
Definition set_debug a := mk_argument (test_conf_s a) (set_conf_s a) (send_mod_s a) (send_sig_s a) (show_help a)
  (show_version a) (test_config a) (set_config a) (send_signal a) true.
Definition set_version a := mk_argument (test_conf_s a) (set_conf_s a) (send_mod_s a) (send_sig_s a) (show_help a)
  true (test_config a) (set_config a) (send_signal a) (debug_mode a).
Definition set_test f a := mk_argument (Some f) (set_conf_s a) (send_mod_s a) (send_sig_s a) (show_help a)
  (show_version a) true (set_config a) (send_signal a) (debug_mode a).
Definition set_conf f a := mk_argument (test_conf_s a) (Some f) (send_mod_s a) (send_sig_s a) (show_help a)
  (show_version a) (test_config a) true (send_signal a) (debug_mode a).
Definition set_send a := mk_argument (test_conf_s a) (set_conf_s a) (send_mod_s a) (send_sig_s a) (show_help a)
  (show_version a) (test_config a) (set_config a) true (debug_mode a).
Definition set_sig s a := mk_argument (test_conf_s a) (set_conf_s a) (send_mod_s a) s (show_help a)
  (show_version a) (test_config a) (set_config a) (send_signal a) (debug_mode a).

(** [p[i]] of a C string: its terminator behind the last character. *)
Definition char_at (p : list ascii) (i : nat) : ascii := default NUL (p !! i).

(** [argv[i..]], and the structure filled so far.  [None] for the file name
    of [-t] and [-c] is "take the default". *)
Fixpoint get_argument_loop (argv : list (list ascii)) (a : argument) : bool * argument :=
  match argv with
  | [] => (true, a)
  | p :: rest =>
      if decide (char_at p 0 ≠ "-"%char) then (false, a) else
      let c := char_at p 1 in
      if decide (c = "?"%char ∨ c = "h"%char) then get_argument_loop rest (set_help a)
      else if decide (c = "d"%char) then get_argument_loop rest (set_debug a)
      else if decide (c = "v"%char) then get_argument_loop rest (set_version a)
      else if decide (c = "t"%char) then
        match rest with
        | f :: rest' =>
            if decide (char_at f 0 ≠ "-"%char) then get_argument_loop rest' (set_test f a)
            else get_argument_loop rest (set_test DEFAULT_CONF_PATH a)
        | [] => get_argument_loop rest (set_test DEFAULT_CONF_PATH a)
        end
      else if decide (c = "c"%char) then
        match rest with
        | f :: rest' =>
            if decide (char_at f 0 ≠ "-"%char) then get_argument_loop rest' (set_conf f a)
            else get_argument_loop rest (set_conf DEFAULT_CONF_PATH a)
        | [] => get_argument_loop rest (set_conf DEFAULT_CONF_PATH a)
        end
      else if decide (c = "s"%char) then
        match rest with
        | f :: rest' =>
            if decide (char_at f 0 ≠ "-"%char) then
              if decide (char_at f 0 = "s"%char) then
                get_argument_loop rest' (set_sig SIGNAL_STOP (set_send a))
              else if decide (char_at f 0 = "r"%char) then
                get_argument_loop rest' (set_sig SIGNAL_RELOAD (set_send a))
              else (false, set_send a)
            else (false, set_send a)
        | [] => (false, set_send a)
        end
      else (false, a)
  end.

Definition get_argument (argv : list (list ascii)) (a : argument) : bool * argument :=
  get_argument_loop (tail argv) a.

(** ** Paths *)

Definition MAX_PATH_LENGTH : Z := 256.

(** [get_cur_path]: [None] when there is no slash ([NULL - str] is undefined),
    [inl] when the code exits. *)
Definition get_cur_path (str o_path : list ascii) (i_l : Z) : option (() + list ascii) :=
  last ← last_slash str;
  let len := Z.of_nat last in
  if i_l - 1 <? len then Some (inl ()) else
  inr <$> rc_strncpy o_path i_l (str ++ [NUL]) len.

(** [atoi]: blanks, a sign, digits. *)
Definition atoi (s : list ascii) : option Z :=
  let v := match skip_blanks s with
           | c :: s' => if decide (c = "-"%char) then - digits_value s' 0
                        else if decide (c = "+"%char) then digits_value s' 0
                        else digits_value (c :: s') 0
           | [] => 0
           end in
  if (- 2 ^ 31 <=? v) && (v <=? INT_MAX) then Some v else None.

(** [char buffer[64] = {0}] filled by a read of up to 64 bytes: without a
    terminator [atoi] reads on. *)
Definition get_pid_from_file (content : list ascii) : option Z :=
  if decide (64 ≤ length (c_str (take 64 content)))%nat then None
  else atoi (c_str (take 64 content)).

(** ** main *)

(** How a run ends, or what it goes on to do. *)
Inductive outcome :=
  | ArgumentError
  | ShowHelp
  | ShowVersion
  | PathTooLong
  | ConfUnreadable
  | ConfTested (ok : bool)
  | NoPidFile
  | SignalSent (pid sig : Z)
  | SignalNotSent
  | ParseFailed
  | SettingMissing (msg : list ascii)
  | Serve (mod_tree : CN_S) (app : app_data).

Definition SIGHUP : Z := 1.
Definition SIGQUIT : Z := 3.

(** [main_proc::send_signal]; any other request sends nothing. *)
Definition main_proc_send_signal (signal_t : Z) : option Z :=
  if signal_t =? 2 then Some SIGHUP else if signal_t =? 1 then Some SIGQUIT else None.

Section main.
(** The comparison of the unassigned pointer, the bytes [realloc] adds, and
    the file system: the reads a file delivers. *)
Context (indet_null : bool) (junk : list ascii).
Context (file : list ascii → option (list (list ascii))).

Definition join_path (dir f : list ascii) : list ascii :=
  (rn_snprintf MAX_PATH_LENGTH (c_str dir ++ bytes "/" ++ f)).1.

Definition load (conf_path : list ascii) : option (option pconf) :=
  match file conf_path with
  | None => Some None
  | Some chunks => Some <$> readconf junk chunks
  end.

Definition main (argv : list (list ascii)) : option outcome :=
  let '(ok, start_arg) := get_argument argv empty_argument in
  if negb ok then Some ArgumentError
  else if show_help start_arg then Some ShowHelp
  else if show_version start_arg then Some ShowVersion
  else
    argv0 ← head argv;
    r ← get_cur_path argv0 (replicate 256 NUL) MAX_PATH_LENGTH;
    match r with
    | inl _ => Some PathTooLong
    | inr sbin_path =>
        if test_config start_arg then
          f ← test_conf_s start_arg;
          c ← load (join_path sbin_path f);
          match c with
          | None => Some ConfUnreadable
          | Some s =>
              '((code, _), _) ← PConf.parse indet_null new_node s;
              Some (ConfTested (code =? 0))
          end
        else
          let conf_p := default DEFAULT_CONF_PATH (set_conf_s start_arg) in
          c ← load (join_path sbin_path conf_p);
          match c with
          | None => Some ConfUnreadable
          | Some s =>
              if send_signal start_arg then
                match file (join_path sbin_path (bytes "../log/pid")) with
                | None => Some NoPidFile
                | Some chunks =>
                    pid ← get_pid_from_file (default [] (head chunks));
                    Some (match main_proc_send_signal (send_sig_s start_arg) with
                          | Some sig => SignalSent pid sig
                          | None => SignalNotSent
                          end)
                end
              else
                '((code, mod_tree), _) ← PConf.parse indet_null new_node s;
                if negb (code =? 0) then Some ParseFailed
                else match init mod_tree with
                     | inl msg => Some (SettingMissing msg)
                     | inr app => Some (Serve mod_tree app)
                     end
          end
    end.
End main.

(** ** Command lines *)

Inductive opt :=
  | OHelp | ODebug | OVersion
  | OTest (f : option (list ascii)) | OConf (f : option (list ascii))
  | OStop | OReload.

Definition render (o : opt) : list (list ascii) :=
  match o with
  | OHelp => [bytes "-h"]
  | ODebug => [bytes "-d"]
  | OVersion => [bytes "-v"]
  | OTest f => bytes "-t" :: match f with Some f => [f] | None => [] end
  | OConf f => bytes "-c" :: match f with Some f => [f] | None => [] end
  | OStop => [bytes "-s"; bytes "stop"]
  | OReload => [bytes "-s"; bytes "reload"]
  end.

Definition apply_opt (a : argument) (o : opt) : argument :=
  match o with
  | OHelp => set_help a
  | ODebug => set_debug a
  | OVersion => set_version a
  | OTest f => set_test (default DEFAULT_CONF_PATH f) a
  | OConf f => set_conf (default DEFAULT_CONF_PATH f) a
  | OStop => set_sig SIGNAL_STOP (set_send a)
  | OReload => set_sig SIGNAL_RELOAD (set_send a)
  end.

Definition opt_ok (o : opt) : Prop :=
  match o with
  | OTest (Some f) | OConf (Some f) => char_at f 0 ≠ "-"%char
  | _ => True
  end.

Lemma render_head os :
  match concat (render <$> os) with [] => True | p :: _ => char_at p 0 = "-"%char end.
Proof. destruct os as [|[| | |f|f| |] os]; done. Qed.

(** The two options with a file name. *)
Lemma loop_test rest a : get_argument_loop (bytes "-t" :: rest) a =
  match rest with
  | f :: rest' =>
      if decide (char_at f 0 ≠ "-"%char) then get_argument_loop rest' (set_test f a)
      else get_argument_loop rest (set_test DEFAULT_CONF_PATH a)
  | [] => get_argument_loop rest (set_test DEFAULT_CONF_PATH a)
  end.
Proof. done. Qed.
Lemma loop_conf rest a : get_argument_loop (bytes "-c" :: rest) a =
  match rest with
  | f :: rest' =>
      if decide (char_at f 0 ≠ "-"%char) then get_argument_loop rest' (set_conf f a)
      else get_argument_loop rest (set_conf DEFAULT_CONF_PATH a)
  | [] => get_argument_loop rest (set_conf DEFAULT_CONF_PATH a)
  end.
Proof. done. Qed.

Lemma get_argument_render os a :
  Forall opt_ok os →
  get_argument_loop (concat (render <$> os)) a = (true, fold_left apply_opt os a).
Proof.
  intros Hok. revert a. induction Hok as [|o os Ho _ IH]; intros a; [done|].
  pose proof (render_head os) as Hh. rewrite fmap_cons. cbn [concat fold_left].
  set (rest := concat (render <$> os)) in *.
  destruct o as [| | |[f|]|[f|]| |]; cbn [render app opt_ok] in *; try exact (IH _).
  - rewrite loop_test, decide_True by done. apply IH.
  - rewrite loop_test. destruct rest; [apply IH|]. rewrite decide_False by (intros Hn; by apply Hn). apply IH.
  - rewrite loop_conf, decide_True by done. apply IH.
  - rewrite loop_conf. destruct rest; [apply IH|]. rewrite decide_False by (intros Hn; by apply Hn). apply IH.
Qed.

(** Options compose: a command line made of options, in any order and
    number, is understood as the options applied from left to right (an
    omitted file name of [-t] and [-c] is the default one). *)
Theorem get_argument_spec prog os a :
  Forall opt_ok os →
  get_argument (prog :: concat (render <$> os)) a = (true, fold_left apply_opt os a).
Proof. apply get_argument_render. Qed.

Lemma get_argument_spec_witness :
  get_argument [bytes "p"; bytes "-c"; bytes "my.conf"; bytes "-t"; bytes "-s"; bytes "reload"]
    empty_argument
  = (true, set_sig SIGNAL_RELOAD (set_send (set_test DEFAULT_CONF_PATH
      (set_conf (bytes "my.conf") empty_argument)))).
Proof.
  apply (get_argument_spec (bytes "p") [OConf (Some (bytes "my.conf")); OTest None; OReload]).
  by repeat constructor.
Defined.

(** ** Paths *)

Lemma last_slash_spec dir base :
  "/"%char ∉ base → last_slash (dir ++ "/"%char :: base) = Some (length dir).
Proof.
  intros Hb. assert (last_slash base = None) as Hn.
  { induction base as [|c base IH]; [done|]. apply not_elem_of_cons in Hb as [? ?]. simpl.
    rewrite IH by done. by rewrite decide_False by congruence. }
  induction dir as [|c dir IH]; simpl; [by rewrite Hn|]. by rewrite IH.
Qed.

Lemma get_cur_path_eq dir base :
  "/"%char ∉ base → NUL ∉ dir → Z.of_nat (length dir) ≤ 255 →
  ∃ o, get_cur_path (dir ++ "/"%char :: base) (replicate 256 NUL) MAX_PATH_LENGTH = Some (inr o) ∧
    c_str o = dir.
Proof.
  intros Hb Hd Hl. unfold get_cur_path, MAX_PATH_LENGTH.
  assert (length (replicate 256 NUL) = 256%nat) as Hlen by apply length_replicate.
  revert Hlen. generalize (replicate 256 NUL). intros o0 Hlen. rewrite last_slash_spec by done.
  cbn [mbind option_bind]. change (256 - 1) with 255.
  destruct (Z.ltb_spec 255 (Z.of_nat (length dir))); [lia|].
  destruct (rc_strncpy_c_str o0 256 ((dir ++ "/"%char :: base) ++ [NUL])
    (Z.of_nat (length dir)) (length dir)) as (o&Ho&_&Hc).
  - lia.
  - lia.
  - lia.
  - by rewrite <- app_assoc, take_app_length.
  - rewrite !length_app. lia.
  - rewrite Ho. exists o. split; [done|]. by rewrite Hc, <- app_assoc, take_app_length.
Qed.

(** ** A whole start-up *)

Lemma join_path_eq dir f :
  Z.of_nat (length (c_str dir) + 1 + length f) ≤ 255 →
  join_path dir f = c_str dir ++ bytes "/" ++ f.
Proof.
  intros Hl. unfold join_path, rn_snprintf, vsnprintf, MAX_PATH_LENGTH.
  assert (take (Z.to_nat (256 - 1)) (c_str dir ++ bytes "/" ++ f) = c_str dir ++ bytes "/" ++ f) as ->.
  { apply take_ge. rewrite !length_app. change (length (bytes "/")) with 1%nat. lia. }
  by repeat case_match.
Qed.

Definition setting (es : list (list ascii * list ascii)) (name : list ascii) (v : list ascii) : Prop :=
  ∃ i k w, list_find (λ e, take 63 e.1 = name) es = Some (i, (k, w)) ∧ v = take 127 w.

Lemma setting_value es name v :
  Forall entry_ok es → NUL ∉ name → setting es name v →
  ∃ a, get_value_from_node (conf_tree es) name = Some a ∧ c_str a = v.
Proof.
  intros He Hn (i&k&w&Hf&->). exists (cfield 128 w). rewrite conf_lookup, Hf by done.
  split; [done|]. apply list_find_Some in Hf as (Hl&_).
  eapply Forall_lookup_1 in He as (_&_&Hv); [|done]. simpl in Hv.
  by rewrite cfield_c_str by (lia || by apply value_no_nul).
Qed.

(** C7. Start-up, end to end.  Started without options as [dir/prog], with a
    configuration file of [name value;] lines beside it that sets port, root
    and host, the program serves with exactly these settings; but if the
    unassigned pointer of the parser happens to compare equal to NULL, it
    refuses the same file. *)
Theorem main_serves (indet_null : bool) junk file dir prog es chunks port root host :
  "/"%char ∉ prog → NUL ∉ dir → (length dir + 20 ≤ 255)%nat →
  file (dir ++ bytes "/" ++ DEFAULT_CONF_PATH) = Some chunks →
  (1024 ≤ length junk)%nat → reads_ok chunks 1024 →
  concat chunks = conf_text es ++ ["010"%char] → Z.of_nat (length (concat chunks)) ≤ 261120 →
  is_ascii (concat chunks) → Forall entry_ok es →
  setting es (bytes "port") port → setting es (bytes "root") root → setting es (bytes "host") host →
  if indet_null
  then main indet_null junk file [dir ++ "/"%char :: prog] = Some ParseFailed
  else ∃ tree app, main indet_null junk file [dir ++ "/"%char :: prog] = Some (Serve tree app) ∧
    c_str (app_port app) = port ∧ c_str (app_root_path app) = root ∧ c_str (app_host app) = host.
Proof.
  intros Hprog Hdir Hlen Hfile Hjunk Hreads Htext Hsize Hascii Hes Hport Hroot Hhost.
  destruct (get_cur_path_eq dir prog) as (sbin&Hcur&Hsbin); [done|done|lia|].
  destruct (readconf_loaded junk chunks Hjunk Hreads Hsize) as [rest Hload].
  rewrite Htext in Hload, Hascii.
  destruct (parse_file indet_null (conf_text es) ["010"%char] (conf_tree es) rest)
    as (code&tree&s'&Hp&Hcode); [done|by apply conf_text_gram|by repeat constructor|].
  assert (join_path sbin DEFAULT_CONF_PATH = dir ++ bytes "/" ++ DEFAULT_CONF_PATH) as Hjoin.
  { rewrite join_path_eq, Hsbin; [done|]. rewrite Hsbin.
    change (length DEFAULT_CONF_PATH) with 19%nat. lia. }
  assert (∀ K : option outcome, main indet_null junk file [dir ++ "/"%char :: prog]
    = if negb (code =? 0) then Some ParseFailed
      else match init tree with
           | inl msg => Some (SettingMissing msg)
           | inr app => Some (Serve tree app) end) as Hmain.
  { intros _. unfold main. cbn [get_argument tail get_argument_loop negb show_help show_version
      test_config send_signal empty_argument head set_conf_s default].
    unfold get_argument. cbn [tail get_argument_loop negb show_help show_version empty_argument].
    cbn [mbind option_bind head]. rewrite Hcur. cbn [mbind option_bind].
    cbn [from_option id]. unfold load. rewrite Hjoin, Hfile, Hload. cbn [fmap option_fmap option_map mbind option_bind].
    rewrite Hp. done. }
  rewrite (Hmain None). clear Hmain.
  destruct indet_null; simpl in Hcode.
  - by rewrite Hcode.
  - destruct Hcode as [-> ->]. simpl negb. cbv iota.
    destruct (setting_value es (bytes "port") port Hes) as (ap&Hap&Eap); [by apply (bool_decide_unpack _)|done|].
    destruct (setting_value es (bytes "root") root Hes) as (ar&Har&Ear); [by apply (bool_decide_unpack _)|done|].
    destruct (setting_value es (bytes "host") host Hes) as (ah&Hah&Eah); [by apply (bool_decide_unpack _)|done|].
    exists (conf_tree es), (mk_app_data ah ap ar). unfold init. by rewrite Hap, Har, Hah.
Qed.

Lemma main_serves_witness :
  ∃ tree app, main false (replicate 1024 NUL)
      (λ p, if decide (p = bytes "/opt/../conf/config.conf")
            then Some [conf_text [(bytes "host", bytes "::1"); (bytes "port", bytes "9000");
                         (bytes "root", bytes "/r")] ++ ["010"%char]] else None)
      [bytes "/opt/rec"] = Some (Serve tree app) ∧
    c_str (app_port app) = bytes "9000" ∧ c_str (app_root_path app) = bytes "/r" ∧
    c_str (app_host app) = bytes "::1".
Proof.
  apply (main_serves false (replicate 1024 NUL) _ (bytes "/opt") (bytes "rec")
    [(bytes "host", bytes "::1"); (bytes "port", bytes "9000"); (bytes "root", bytes "/r")]
    [conf_text [(bytes "host", bytes "::1"); (bytes "port", bytes "9000");
        (bytes "root", bytes "/r")] ++ ["010"%char]]).
  - by apply (bool_decide_unpack _).
  - by apply (bool_decide_unpack _).
  - vm_compute. lia.
  - by rewrite decide_True.
  - by rewrite length_replicate.
  - vm_compute. lia.
  - done.
  - vm_compute. done.
  - by repeat constructor.
  - repeat constructor; try done; intros; congruence.
  - exists 1%nat, (bytes "port"), (bytes "9000"). by vm_compute.
  - exists 2%nat, (bytes "root"), (bytes "/r"). by vm_compute.
  - exists 0%nat, (bytes "host"), (bytes "::1"). by vm_compute.
Defined.
