(* ===== verification/ProcessProofs.v ===== *)
(** * src/app/process_manager: lemmas on the process table. *)

From S2P Require Import Prelude PString MongoAdaptor ProcessManager.

Local Open Scope Z_scope.

(** ** Documents *)

Lemma field_nil k : field [] k = None.
Proof. done. Qed.

Lemma field_cons e d k : field (e :: d) k = if decide (e.1 = k) then Some e.2 else field d k.
Proof.
  unfold field. cbn [list_find]. case_decide; [done|].
  by destruct (list_find _ d) as [[]|].
Qed.

Lemma field_app d1 d2 k :
  field (d1 ++ d2) k = match field d1 k with Some v => Some v | None => field d2 k end.
Proof.
  induction d1 as [|e d1 IH]; [done|]. rewrite <- app_comm_cons, !field_cons.
  by case_decide.
Qed.

Lemma bval_eqb_utf8 w s : bval_eqb w (BUtf8 s) = true ↔ w = BUtf8 s.
Proof.
  destruct w; simpl; try (split; congruence).
  rewrite bool_decide_eq_true. split; congruence.
Qed.

Lemma bval_eqb_int32 w z : bval_eqb w (BInt32 z) = true ↔ w = BInt32 z.
Proof. destruct w; simpl; try (split; congruence). rewrite Z.eqb_eq. split; congruence. Qed.

Lemma has_utf8 d k s : has d k (BUtf8 s) = true ↔ field d k = Some (BUtf8 s).
Proof.
  unfold has. destruct (field d k); [|split; congruence].
  rewrite bval_eqb_utf8. split; congruence.
Qed.

Lemma has_int32 d k z : has d k (BInt32 z) = true ↔ field d k = Some (BInt32 z).
Proof.
  unfold has. destruct (field d k); [|split; congruence].
  rewrite bval_eqb_int32. split; congruence.
Qed.

Definition K_sid : list ascii := bytes "stream_id".
Definition K_pid : list ascii := bytes "pid".
Definition K_ppid : list ascii := bytes "ppid".

(** The documents of a stream, of a process. *)
Definition of_stream (s : list ascii) (d : doc) : Prop := field d K_sid = Some (BUtf8 s).
Definition of_pid (p : Z) (d : doc) : Prop := field d K_pid = Some (BInt32 p).

#[export] Instance bval_eqb_dec (d : doc) k s : Decision (field d k = Some (BUtf8 s)).
Proof. destruct (has d k (BUtf8 s)) eqn:E; [left|right]; rewrite <- has_utf8; congruence. Defined.
#[export] Instance bval_int_dec (d : doc) k z : Decision (field d k = Some (BInt32 z)).
Proof. destruct (has d k (BInt32 z)) eqn:E; [left|right]; rewrite <- has_int32; congruence. Defined.
#[export] Instance of_stream_dec s d : Decision (of_stream s d) := _.
#[export] Instance of_pid_dec p d : Decision (of_pid p d) := _.

(** Streams in the table, in order. *)
Definition stream_of (d : doc) : option (list ascii) :=
  match field d K_sid with Some (BUtf8 s) => Some s | _ => None end.
Definition streams (t : list doc) : list (list ascii) := omap stream_of t.

Lemma stream_of_Some d s : stream_of d = Some s ↔ of_stream s d.
Proof.
  unfold stream_of, of_stream. destruct (field d K_sid) as [[]|]; split; congruence.
Qed.

Lemma elem_of_streams t s : s ∈ streams t ↔ ∃ d, d ∈ t ∧ of_stream s d.
Proof. unfold streams. rewrite list_elem_of_omap. by setoid_rewrite stream_of_Some. Qed.

(** ** First occurrences *)

Lemma list_find_true {A} (p : A → bool) (Q : A → Prop) `{∀ x, Decision (Q x)} l :
  (∀ x, p x = true ↔ Q x) → list_find (λ x, p x = true) l = list_find Q l.
Proof.
  intros Hp. induction l as [|x l IH]; [done|]. cbn [list_find].
  destruct (decide (Q x)) as [HQ|HQ].
  - by rewrite decide_True by (by apply Hp).
  - rewrite decide_False by (by rewrite Hp). by rewrite IH.
Qed.

Lemma remove_first_sublist {A} (p : A → bool) l : sublist (remove_first p l) l.
Proof.
  unfold remove_first. destruct (list_find _ l) as [[i x]|] eqn:E; [|done].
  apply list_find_Some in E as (Hi&_&_).
  rewrite <- (take_drop_middle l i x Hi) at 3. apply sublist_app; [done|].
  by apply sublist_cons.
Qed.

Lemma list_find_middle {A} (Q : A → Prop) `{∀ x, Decision (Q x)} pre d post :
  (∀ x, x ∈ pre → ¬ Q x) → Q d → list_find Q (pre ++ d :: post) = Some (length pre, d).
Proof.
  intros Hn Hd. induction pre as [|x pre IH]; cbn [app list_find].
  - by rewrite decide_True.
  - rewrite decide_False by (apply Hn, list_elem_of_here).
    rewrite IH; [done|]. intros y Hy. by apply Hn, list_elem_of_further.
Qed.

Lemma list_find_none {A} (Q : A → Prop) `{∀ x, Decision (Q x)} l :
  (∀ x, x ∈ l → ¬ Q x) → list_find Q l = None.
Proof.
  intros Hn. destruct (list_find Q l) as [[i x]|] eqn:E; [|done].
  apply list_find_Some in E as (Hi&Hx&_). apply list_elem_of_lookup_2 in Hi. by destruct (Hn x Hi).
Qed.

Section first.
Context {A} (p : A → bool) (Q : A → Prop) `{∀ x, Decision (Q x)}.
Context (HpQ : ∀ x, p x = true ↔ Q x) (pre post : list A) (d : A).
Context (Hpre : ∀ x, x ∈ pre → ¬ Q x) (Hd : Q d).

Lemma remove_first_middle : remove_first p (pre ++ d :: post) = pre ++ post.
Proof using All.
  unfold remove_first. rewrite (list_find_true p Q), list_find_middle by done.
  by rewrite take_app_length, drop_app_ge, Nat.sub_succ_l, Nat.sub_diag by lia.
Qed.

Lemma alter_first_middle f : alter_first p f (pre ++ d :: post) = pre ++ f d :: post.
Proof using All.
  unfold alter_first. rewrite (list_find_true p Q), list_find_middle by done.
  by rewrite insert_app_r_alt, Nat.sub_diag by lia.
Qed.
End first.

Lemma streams_app t1 t2 : streams (t1 ++ t2) = streams t1 ++ streams t2.
Proof. apply omap_app. Qed.

Lemma streams_sublist t1 t2 : sublist t1 t2 → sublist (streams t1) (streams t2).
Proof.
  induction 1 as [|d t1 t2 _ IH|d t1 t2 _ IH]; [done|..];
    unfold streams in *; simpl; destruct (stream_of d); by try constructor.
Qed.

Lemma NoDup_streams_remove p t : NoDup (streams t) → NoDup (streams (remove_first p t)).
Proof. intros. by eapply sublist_NoDup, streams_sublist, remove_first_sublist. Qed.

(** Setting another field keeps the stream. *)
Lemma field_set_field_ne k k' v d : k ≠ k' → field (set_field k v d) k' = field d k'.
Proof.
  intros Hne. unfold set_field. destruct (list_find _ d) as [[i e]|] eqn:E.
  - apply list_find_Some in E as (Hi&Hk&_).
    rewrite insert_take_drop by (by eapply lookup_lt_Some).
    assert (field d k' = field (take i d ++ e :: drop (S i) d) k') as ->
      by (by rewrite take_drop_middle).
    rewrite !field_app. destruct (field (take i d) k'); [done|].
    rewrite !field_cons. simpl. rewrite !decide_False by congruence. done.
  - rewrite field_app, field_cons, field_nil. simpl. rewrite decide_False by done.
    by destruct (field d k').
Qed.

Lemma field_set_field_eq k v d : field (set_field k v d) k = Some v.
Proof.
  unfold set_field. destruct (list_find _ d) as [[i e]|] eqn:E.
  - apply list_find_Some in E as (Hi&Hk&Hb).
    rewrite insert_take_drop by (by eapply lookup_lt_Some).
    rewrite field_app, field_cons. simpl. rewrite decide_True by done.
    assert (field (take i d) k = None) as ->; [|done].
    unfold field. destruct (list_find _ (take i d)) as [[j x]|] eqn:E2; [|done].
    apply list_find_Some in E2 as (Hj&Hx&_).
    apply lookup_take_Some in Hj as [Hj ?]. by destruct (Hb j x Hj).
  - apply list_find_None in E. rewrite field_app, field_cons. simpl.
    rewrite decide_True by done. unfold field.
    destruct (list_find _ d) as [[j x]|] eqn:E2; [|done].
    apply list_find_Some in E2 as (Hj&Hx&_). rewrite List.Forall_forall in E.
    apply list_elem_of_lookup_2, list_elem_of_In in Hj. by destruct (E x Hj).
Qed.

(** [update_process_info]'s effect on a document. *)
Definition with_pid (z : Z) (d : doc) : doc := set_field K_pid (BInt32 z) d.

Lemma stream_of_with_pid z d : stream_of (with_pid z d) = stream_of d.
Proof. unfold stream_of, with_pid. by rewrite field_set_field_ne. Qed.

Lemma streams_alter p z t : streams (alter_first p (with_pid z) t) = streams t.
Proof.
  unfold alter_first. destruct (list_find _ t) as [[i d]|] eqn:E; [|done].
  apply list_find_Some in E as (Hi&_&_).
  rewrite insert_take_drop by (by eapply lookup_lt_Some).
  assert (streams t = streams (take i t ++ d :: drop (S i) t)) as ->
    by (by rewrite take_drop_middle).
  rewrite !streams_app. f_equal. unfold streams. simpl. by rewrite stream_of_with_pid.
Qed.

(** ** The table of a world *)

Section table.
Context `{JsonLaws}.
Context (answer : nat → syscall → Z).

Definition handle (w : world) : option coll :=
  MongoAdaptor.collection (MongoAdaptor.connect (db_address w))
    (bytes "rec_distribute") (bytes "process_info").
Definition table_at (h : option coll) (s : server) : list doc :=
  match h with Some c => contents s c | None => [] end.
Definition table (w : world) : list doc := table_at (handle w) (srv w).

Lemma matches_sid s d : matches (fields (query_sid s)) d = true ↔ of_stream (c_str s) d.
Proof.
  unfold query_sid. rewrite fields_utf8, fields_new. simpl. unfold satisfies. simpl.
  rewrite andb_true_r. apply has_utf8.
Qed.

Lemma matches_pid p d : matches (fields (query_pid p)) d = true ↔ of_pid p d.
Proof.
  unfold query_pid. rewrite fields_int32, fields_new. simpl. unfold satisfies. simpl.
  rewrite andb_true_r. apply has_int32.
Qed.

Lemma matches_not_ppid p d :
  matches (fields (query_not_ppid p)) d = true ↔ field d K_ppid ≠ Some (BInt32 p).
Proof.
  unfold query_not_ppid. rewrite fields_document, fields_int32, !fields_new. simpl.
  unfold satisfies. simpl. rewrite andb_true_r, negb_true_iff, <- not_true_iff_false.
  by rewrite has_int32.
Qed.

(** What [findOne] answers: the first document of the table that matches. *)
Lemma findOne_spec q (Q : doc → Prop) `{∀ d, Decision (Q d)} w :
  (∀ d, matches (fields q) d = true ↔ Q d) →
  match MongoAdaptor.findOne (handle w) q (srv w) with
  | inr item => ∃ i d b, list_find Q (table w) = Some (i, d) ∧ fields b = d ∧
      item = c_str (bson_as_json b)
  | inl _ => list_find Q (table w) = None
  end.
Proof.
  intros HQ. unfold table, table_at. destruct (handle w) as [c|]; simpl; [|done].
  pose proof (find_law c q (srv w)) as Hl.
  assert (Hf : ∀ l, match filter (λ d, matches (fields q) d = true) l with
    | d :: _ => ∃ i, list_find Q l = Some (i, d) | [] => list_find Q l = None end).
  { induction l as [|d l IH]; [done|]. rewrite filter_cons. cbn [list_find].
    destruct (decide (Q d)) as [Hd|Hd].
    - rewrite decide_True by (by apply HQ). eauto.
    - rewrite decide_False by (by rewrite HQ).
      destruct (filter _ l) as [|d' l']; [by rewrite IH|].
      destruct IH as [i ->]. simpl. eauto. }
  specialize (Hf (contents (srv w) c)).
  destruct (mongoc_collection_find c q (srv w)) as [|b bs]; simpl in Hl; rewrite <- Hl in Hf.
  - done.
  - destruct Hf as [i Hi]. eauto 10.
Qed.

(** ** Compositional invariants *)

Definition keeps {A} (I : world → Prop) (m : P A) : Prop := ∀ w r w', I w → m w = (r, w') → I w'.

Lemma keeps_ret {A} I (a : A) : keeps I (mret a).
Proof. by intros w r w' HI [= <- <-]. Qed.
Lemma keeps_bind {A B} I (m : P A) (k : A → P B) :
  keeps I m → (∀ a, keeps I (k a)) → keeps I (m ≫= k).
Proof.
  intros Hm Hk w r w' HI Hb. unfold mbind, P_bind in Hb.
  destruct (m w) as [[a| |] w1] eqn:E; pose proof (Hm _ _ _ HI E) as Hw1;
    [exact (Hk a _ _ _ Hw1 Hb)|by injection Hb as <- <-..].
Qed.
Lemma keeps_read {A} I (f : world → A) : keeps I (read f).
Proof. by intros w r w' HI [= <- <-]. Qed.
Lemma keeps_crash {A} I : keeps I (crash : P A).
Proof. by intros w r w' HI [= <- <-]. Qed.
Lemma keeps_replaced {A} I : keeps I (replaced : P A).
Proof. by intros w r w' HI [= <- <-]. Qed.
Lemma keeps_of_option {A} I (o : option A) : keeps I (of_option o).
Proof. destruct o; [apply keeps_ret|apply keeps_crash]. Qed.

(** Invariants that look at the table only. *)
Definition on_table (I : world → Prop) : Prop :=
  ∀ w w', srv w' = srv w → db_address w' = db_address w → I w → I w'.

Lemma keeps_upd I f : on_table I →
  (∀ w, srv (f w) = srv w ∧ db_address (f w) = db_address w) → keeps I (upd f).
Proof. intros HI Hf w r w' Hw [= <- <-]. destruct (Hf w). by eapply HI. Qed.

(** Invariants a system call cannot break. *)
Definition env_stable (I : world → Prop) : Prop :=
  ∀ w c a, I w → I (log_event (Sys c a) (tick w)).
Lemma on_table_stable I : on_table I → env_stable I.
Proof. intros HI w c a Hw. by apply (HI w). Qed.
Lemma keeps_sys I c : env_stable I → keeps I (sys answer c).
Proof. intros HI w r w' Hw [= <- <-]. by apply HI. Qed.
End table.

Create HintDb keeps discriminated.
#[export] Hint Resolve keeps_ret keeps_read keeps_crash keeps_replaced
  keeps_of_option keeps_sys on_table_stable : keeps.

(** Splits a computation into its calls. *)
Ltac keeps :=
  repeat first
    [ lazymatch goal with |- keeps _ (mbind _ _) => apply keeps_bind; [|intros ?] end
    | solve [auto with keeps]
    | case_match ].

Section operations.
Context `{JsonLaws}.
Context (answer : nat → syscall → Z).

(** No stream is recorded by two documents. *)
Definition unique_streams (w : world) : Prop := NoDup (streams (table w)).

Lemma table_env w w' : srv w' = srv w → db_address w' = db_address w → table w' = table w.
Proof. intros Hs Hd. unfold table, handle. by rewrite Hs, Hd. Qed.

Lemma unique_on_table : on_table unique_streams.
Proof. intros w w' Hs Hd. unfold unique_streams. by rewrite (table_env w w'). Qed.

Lemma handle_set_srv s w : handle (set_srv s w) = handle w.
Proof. done. Qed.

(** The driver calls, on the table. *)
Lemma table_remove q w ok s' :
  MongoAdaptor.remove (handle w) q (srv w) = (ok, s') →
  table (set_srv s' w) = if ok then remove_first (matches (fields q)) (table w) else table w.
Proof.
  unfold table, table_at. rewrite handle_set_srv. simpl.
  destruct (handle w) as [c|]; simpl; [|by intros [= <- <-]].
  intros Hr. destruct ok; [by apply remove_law|by eapply remove_fail].
Qed.

Lemma table_update q u w ok s' :
  MongoAdaptor.update (handle w) q u (srv w) = (ok, s') →
  table (set_srv s' w) =
    if ok then alter_first (matches (fields q)) (apply_update (fields u)) (table w) else table w.
Proof.
  unfold table, table_at. rewrite handle_set_srv. simpl.
  destruct (handle w) as [c|]; simpl; [|by intros [= <- <-]].
  intros Hr. destruct ok; [by apply update_law|by eapply update_fail].
Qed.

Lemma table_insert d w ok s' :
  MongoAdaptor.insert (handle w) d (srv w) = (ok, s') →
  if ok then ∃ id, table (set_srv s' w) = table w ++ [(bytes "_id", BOid id) :: fields d]
  else table (set_srv s' w) = table w.
Proof.
  unfold table, table_at. rewrite handle_set_srv. simpl.
  destruct (handle w) as [c|]; simpl; [|by intros [= <- <-]].
  intros Hr. destruct ok; [by apply insert_law|by eapply insert_fail].
Qed.

(** Computations over the collection handle. *)
Lemma process_collection_eq w : process_collection w = (Ok (handle w), w).
Proof. done. Qed.

(** Operations that only read the table. *)
Lemma keeps_is_process_exist I s : keeps I (is_process_exist s).
Proof. unfold is_process_exist, process_collection. keeps. Qed.
Lemma keeps_is_process_exist_pid I p info : keeps I (is_process_exist_pid p info).
Proof. unfold is_process_exist_pid, process_collection. keeps. Qed.
Lemma keeps_get_process_info I s : keeps I (get_process_info s).
Proof. unfold get_process_info, process_collection. keeps. Qed.

(** Operations that touch the file system and the processes only. *)
Lemma keeps_mkdir_prefixes I str rest i :
  env_stable I → keeps I (mkdir_prefixes answer str i rest).
Proof.
  intros HI. revert i. induction rest as [|c rest IH]; intros i; simpl; keeps.
Qed.
Lemma keeps_create_m3u8 I param : env_stable I → keeps I (create_m3u8 answer param).
Proof.
  intros HI. unfold create_m3u8, multi_mkdir. keeps; by apply keeps_mkdir_prefixes.
Qed.
Lemma keeps_execl I cmd : env_stable I → keeps I (execl answer cmd).
Proof. intros HI. unfold execl. keeps. Qed.
Lemma keeps_put_data I info : on_table I → keeps I (put_data answer info).
Proof. intros HI. unfold put_data. keeps. by apply keeps_upd. Qed.
#[local] Hint Resolve keeps_is_process_exist keeps_is_process_exist_pid keeps_get_process_info
  keeps_create_m3u8 keeps_execl keeps_put_data : keeps.

(** Operations that write the table. *)
Lemma unique_remove s : keeps unique_streams (remove_process_by_stream s).
Proof.
  intros w r w' Hu Hr. unfold remove_process_by_stream, process_collection in Hr.
  cbv [mbind P_bind read mret P_ret on_server] in Hr. fold (handle w) in Hr.
  destruct (MongoAdaptor.remove _ _ _) as [ok s'] eqn:E. injection Hr as _ <-.
  apply table_remove in E. unfold unique_streams.
  change (table (set_srv s' w)) with (table (log_event (Db DbRemove ok) (set_srv s' w))) in E.
  rewrite E.
  destruct ok; [by apply NoDup_streams_remove|done].
Qed.

Lemma apply_set_pid z d :
  apply_update (fields (bson_append_document bson_new (bytes "$set")
    (BSON_APPEND_INT32 bson_new (bytes "pid") z))) d = with_pid z d.
Proof. by rewrite fields_document, fields_int32, !fields_new. Qed.

Lemma alter_first_ext {A} p (f g : A → A) l :
  (∀ x, f x = g x) → alter_first p f l = alter_first p g l.
Proof. intros Hfg. unfold alter_first. destruct (list_find _ l) as [[i x]|]; [|done]. by rewrite Hfg. Qed.

(** [update_process_info] gives the first document of the stream a new pid. *)
Lemma update_process_info_eq info z w :
  pid info = Some z → ∃ r w', update_process_info info w = (Ok r, w') ∧
    handle w' = handle w ∧ queue w' = queue w ∧ clock w' = clock w ∧
    (∃ ok, trace w' = trace w ++ [Db DbUpdate ok]) ∧
    (table w' = table w ∨ table w' =
      alter_first (matches (fields (query_sid (sid info)))) (with_pid z) (table w)).
Proof.
  intros Hp. unfold update_process_info, process_collection. rewrite Hp.
  cbv [mbind P_bind read mret P_ret on_server of_option]. fold (handle w).
  destruct (MongoAdaptor.update _ _ _ _) as [ok s'] eqn:E.
  do 2 eexists. split; [done|]. do 3 (split; [done|]). split; [by eexists|].
  apply table_update in E. change (table (log_event (Db DbUpdate ok) (set_srv s' w)))
    with (table (set_srv s' w)). rewrite E. destruct ok; [right|by left].
  apply alter_first_ext, apply_set_pid.
Qed.

Lemma unique_update info : keeps unique_streams (update_process_info info).
Proof.
  intros w r w' Hu Hw. destruct (pid info) as [z|] eqn:Hp.
  - destruct (update_process_info_eq info z w Hp) as (r'&w1&E&_&_&_&_&Ht).
    rewrite E in Hw. injection Hw as <- <-. unfold unique_streams.
    destruct Ht as [-> | ->]; [done|by rewrite streams_alter].
  - unfold update_process_info, process_collection in Hw. rewrite Hp in Hw.
    by injection Hw as <- <-.
Qed.

(** A document is added; its stream must be new. *)
Definition fresh_stream (s : list ascii) (w : world) : Prop :=
  unique_streams w ∧ s ∉ streams (table w).

Lemma fresh_on_table s : on_table (fresh_stream s).
Proof. intros w w' Hs Hd. unfold fresh_stream, unique_streams. by rewrite (table_env w w'). Qed.

Lemma stream_of_document id info p pp :
  stream_of ((bytes "_id", BOid id) :: fields (process_document info p pp)) = Some (c_str (sid info)).
Proof.
  unfold process_document. rewrite !fields_utf8, !fields_int32, !fields_utf8, fields_new. done.
Qed.

Lemma unique_document info p pp w ok s' :
  fresh_stream (c_str (sid info)) w →
  MongoAdaptor.insert (handle w) (process_document info p pp) (srv w) = (ok, s') →
  unique_streams (log_event (Db DbInsert ok) (set_srv s' w)).
Proof.
  intros [Hu Hf] E. apply table_insert in E. unfold unique_streams.
  change (table (set_srv s' w)) with (table (log_event (Db DbInsert ok) (set_srv s' w))) in E.
  destruct ok; [|by rewrite E]. destruct E as [id ->].
  rewrite streams_app. apply list_relations.list.NoDup_app. split; [done|]. split.
  - intros s Hs Hs'. unfold streams in Hs' at 1. cbn [omap list_omap] in Hs'.
    rewrite stream_of_document in Hs'. apply list_elem_of_singleton in Hs' as ->. done.
  - unfold streams. cbn [omap list_omap]. rewrite stream_of_document. apply NoDup_singleton.
Qed.

Lemma unique_add info w r w' :
  fresh_stream (c_str (sid info)) w → add_process_to_cache answer info w = (r, w') →
  unique_streams w'.
Proof.
  intros Hf Hr. unfold add_process_to_cache, process_collection in Hr.
  cbv [mbind P_bind read mret P_ret sys of_option] in Hr. fold (handle w) in Hr.
  destruct (pid info) as [p|]; [|by injection Hr as <- <-; apply Hf].
  cbv [mbind P_bind read mret P_ret sys on_server] in Hr.
  set (w1 := log_event _ _) in Hr. change (handle w) with (handle w1) in Hr.
  change (fresh_stream (c_str (sid info)) w1) in Hf.
  destruct (MongoAdaptor.insert _ _ _) as [ok s'] eqn:E. injection Hr as _ <-.
  by eapply unique_document.
Qed.

(** The look-up by stream has a closed form. *)
Lemma is_process_exist_eq s w :
  is_process_exist s w = (Ok (bool_decide (c_str s ∈ streams (table w))), w).
Proof.
  unfold is_process_exist, process_collection. cbv [mbind P_bind read mret P_ret].
  fold (handle w). do 2 f_equal.
  pose proof (findOne_spec (query_sid s) (of_stream (c_str s)) w (matches_sid s)) as Hf.
  destruct (MongoAdaptor.findOne _ _ _) as [z|item].
  - symmetry. apply bool_decide_eq_false. rewrite elem_of_streams. intros (d&Hd&Hs).
    apply list_find_None in Hf. rewrite List.Forall_forall in Hf.
    apply list_elem_of_In in Hd. by apply (Hf d).
  - symmetry. apply bool_decide_eq_true. destruct Hf as (i&d&b&Hf&_).
    apply list_find_Some in Hf as (Hi&Hd&_). apply elem_of_streams.
    exists d. split; [by eapply list_elem_of_lookup_2|done].
Qed.

Lemma unique_spawn param : keeps unique_streams (spawn_process answer param).
Proof.
  intros w r w' Hu Hw. unfold spawn_process in Hw.
  unfold mbind at 1, P_bind in Hw. rewrite is_process_exist_eq in Hw.
  case_bool_decide as Hs; [by injection Hw as <- <-|].
  assert (fresh_stream (c_str (sid param)) w) as Hf by done. clear Hu Hs.
  match type of Hw with ?m w = _ => cut (∀ w r w', fresh_stream (c_str (sid param)) w →
    m w = (r, w') → unique_streams w') end; [by eauto|].
  clear. intros w r w' Hf Hw. unfold mbind at 1, P_bind in Hw.
  destruct (create_m3u8 _ _ w) as [[[ret m]| |] w1] eqn:Ec; pose proof
    (keeps_create_m3u8 _ _ (on_table_stable _ (fresh_on_table (c_str (sid param)))) _ _ _ Hf Ec) as Hf1;
    [|by injection Hw as <- <-; apply Hf1..].
  case_match; [by injection Hw as <- <-; apply Hf1|].
  unfold mbind at 1, P_bind in Hw. unfold sys in Hw at 1. cbv beta iota zeta in Hw.
  set (w2 := log_event _ _) in Hw.
  change (fresh_stream (c_str (sid param)) w2) in Hf1. clearbody w2.
  case_match; [by injection Hw as <- <-; apply Hf1|]. case_match.
  - unfold mbind at 1, P_bind in Hw.
    destruct (add_process_to_cache _ _ w2) as [rr w3] eqn:Ea.
    assert (unique_streams w3) as Hu3 by (by eapply unique_add; [|exact Ea]).
    destruct rr; by injection Hw as <- <-.
  - destruct Hf1 as [Hu1 _]. revert w2 r w' Hu1 Hw.
    change (keeps unique_streams (execl answer (spawn_cmd (src_url param) (file_path m)) ≫=
      λ _, mret (REC_ERROR_OK, param))).
    apply keeps_bind; [apply keeps_execl, on_table_stable, unique_on_table|intros; apply keeps_ret].
Qed.

#[local] Hint Resolve unique_on_table unique_remove unique_update unique_spawn : keeps.

Lemma unique_reload info : keeps unique_streams (process_reload answer info).
Proof. unfold process_reload, re_create_process. keeps. Qed.
#[local] Hint Resolve unique_reload : keeps.

Lemma unique_send_message p : keeps unique_streams (send_message answer p).
Proof. unfold send_message. keeps. Qed.
#[local] Hint Resolve unique_send_message : keeps.

Lemma unique_reap pids : keeps unique_streams (sig_reap_chld answer pids).
Proof. induction pids as [|p pids IH]; simpl; keeps. Qed.

Lemma unique_kill info : keeps unique_streams (kill_process answer info).
Proof. unfold kill_process. keeps. Qed.

Lemma unique_queue_step : keeps unique_streams (process_queue_step answer).
Proof. unfold process_queue_step. keeps. by apply keeps_upd; [apply unique_on_table|]. Qed.

Lemma unique_collect self vec item acc :
  keeps unique_streams (collect_orphans self vec item acc).
Proof. revert item acc. induction vec as [|s vec IH]; intros item acc; simpl; keeps. Qed.

Lemma unique_sync orphans : keeps unique_streams (sync_orphans answer orphans).
Proof.
  induction orphans as [|o orphans IH]; simpl; unfold check_system_process_exist; keeps.
Qed.
#[local] Hint Resolve unique_collect unique_sync : keeps.

Lemma unique_orphan_sync : keeps unique_streams (orphan_process_sync answer).
Proof. unfold orphan_process_sync, find_orphan_process, process_collection. keeps. Qed.
End operations.

#[export] Hint Resolve keeps_create_m3u8 keeps_put_data unique_on_table unique_kill : keeps.
