(* ===== verification/ProcessTheorems.v ===== *)
(** * src/app: what the recorder does with its process table. *)

From S2P Require Import Prelude PString PConf MongoAdaptor ProcessManager RecordControl ProcessProofs.

Local Open Scope Z_scope.

Lemma c_str_idem a : c_str (c_str a) = c_str a.
Proof.
  induction a as [|c a IH]; [done|]. cbn [c_str].
  case_bool_decide; [done|]. cbn [c_str]. rewrite bool_decide_eq_false_2 by done. by rewrite IH.
Qed.

(** A document that stores a process. *)
Definition describes (d : doc) (i : process_info) : Prop :=
  Forall plain_field d ∧
  field d (bytes "stream_id") = Some (BUtf8 (sid i)) ∧
  field d (bytes "src_url") = Some (BUtf8 (src_url i)) ∧
  field d (bytes "m3u8_path") = Some (BUtf8 (m3u8_path i)) ∧
  field d (bytes "type") = Some (BUtf8 (type i)) ∧
  field d (bytes "status") = Some (BUtf8 (status i)) ∧
  field d (bytes "host") = Some (BUtf8 (host i)) ∧
  (∃ p, pid i = Some p ∧ field d (bytes "pid") = Some (BInt32 p)) ∧
  (∃ p, ppid i = Some p ∧ field d (bytes "ppid") = Some (BInt32 p)).

(** What [add_process_to_cache] stores of a process: C strings, the fixed
    status, the two pids. *)
Definition stored (i : process_info) (p pp : Z) : process_info :=
  mk_process_info (c_str (sid i)) (Some p) (Some pp) (c_str (src_url i)) (c_str (m3u8_path i))
    (c_str (type i)) (bytes "active") (c_str (host i)).

Definition plain_info (i : process_info) : Prop :=
  plain (c_str (sid i)) ∧ plain (c_str (src_url i)) ∧ plain (c_str (m3u8_path i)) ∧
  plain (c_str (type i)) ∧ plain (c_str (host i)).

Definition int32 (z : Z) : Prop := - 2 ^ 31 ≤ z < 2 ^ 31.

Lemma plain_bytes_dec s : Forall (λ c, bool_decide (c ≠ NUL) && (0 <=? char_val c) = true) s → plain s.
Proof.
  apply Forall_impl. intros c Hc. apply andb_true_iff in Hc as [Hn Hc].
  apply bool_decide_eq_true in Hn. split; [done|lia].
Qed.
Ltac plain_const := apply plain_bytes_dec; repeat (constructor; [by vm_compute|]); constructor.

Section theorems.
Context `{JsonLaws}.
Context (answer : nat → syscall → Z).

Lemma bind_ok {A B} (m : P A) (k : A → P B) w a w1 :
  m w = (Ok a, w1) → (m ≫= k) w = k a w1.
Proof. unfold mbind, P_bind. by intros ->. Qed.

Lemma sys_bind {B} c (k : Z → P B) w :
  (sys answer c ≫= k) w =
    k (answer (clock w) c) (log_event (Sys c (answer (clock w) c)) (tick w)).
Proof. done. Qed.

Lemma parser_describes b i i0 :
  describes (fields b) i → parser (c_str (bson_as_json b)) i0 = (REC_ERROR_OK, i).
Proof.
  intros (Hp&Hs&Hu&Hm&Ht&Hst&Hh&(p&Ep&Hpid)&(pp&Epp&Hppid)).
  destruct (json_law b Hp) as (v&Hv&Hstr&Hint).
  unfold parser. rewrite c_str_idem, Hv. unfold get_string, get_int.
  rewrite (Hstr _ _ Hs), (Hstr _ _ Hu), (Hstr _ _ Hm), (Hstr _ _ Ht), (Hstr _ _ Hst),
    (Hstr _ _ Hh), (Hint _ _ Hpid), (Hint _ _ Hppid).
  simpl. unfold set_ppid, set_pid. simpl. destruct i; simpl in *. by subst.
Qed.

Lemma document_fields i p pp : fields (process_document i p pp) =
  [ (bytes "stream_id", BUtf8 (c_str (sid i))); (bytes "pid", BInt32 p);
    (bytes "ppid", BInt32 pp); (bytes "src_url", BUtf8 (c_str (src_url i)));
    (bytes "m3u8_path", BUtf8 (c_str (m3u8_path i))); (bytes "type", BUtf8 (c_str (type i)));
    (bytes "status", BUtf8 (bytes "active")); (bytes "host", BUtf8 (c_str (host i))) ].
Proof.
  unfold process_document. by rewrite !fields_utf8, !fields_int32, !fields_utf8, fields_new.
Qed.

Lemma describes_document i p pp pre :
  plain_info i → int32 p → int32 pp →
  pre = [] ∨ (∃ z, pre = [(bytes "_id", BOid z)]) →
  describes (pre ++ fields (process_document i p pp)) (stored i p pp).
Proof.
  intros (Hq1&Hq2&Hq3&Hq4&Hq5) Hp Hpp Hpre. rewrite document_fields.
  assert (∀ k, k ≠ bytes "_id" → field pre k = None) as Hk.
  { destruct Hpre as [-> |[z ->]]; [done|]. intros k Hk.
    rewrite field_cons. by rewrite decide_False by (intros <-; by apply Hk). }
  split; [|rewrite !field_app, !Hk by done; eauto 20].
  apply Forall_app. split.
  - destruct Hpre as [-> |[z ->]]; [constructor|]. constructor; [|constructor].
    split; [plain_const|done].
  - repeat (apply Forall_cons_2; [split; [plain_const|simpl; first [assumption|plain_const]]|]).
    constructor.
Qed.

(** Store and reload: the JSON the driver prints for the document written
    for a process is parsed back, whatever was in the structure before, into
    the same process: names, URLs and path as C strings, status active, the
    child's pid and the recorder's pid. *)
Theorem process_roundtrip i p pp i0 :
  plain_info i → int32 p → int32 pp →
  parser (c_str (bson_as_json (process_document i p pp))) i0
  = (REC_ERROR_OK, mk_process_info (c_str (sid i)) (Some p) (Some pp) (c_str (src_url i))
      (c_str (m3u8_path i)) (c_str (type i)) (bytes "active") (c_str (host i))).
Proof.
  intros. apply (parser_describes _ (stored i p pp)).
  apply (describes_document i p pp []); auto.
Qed.

(** ** Reachable tables *)

(** One step of the recorder: a request, a turn of the queue thread, a round
    of the monitor, a SIGCHLD.  Each is taken as a whole. *)
Inductive step (w w' : world) : Prop :=
  | step_http uri data body a : dispatch answer uri data body w = (Ok a, w') → step w w'
  | step_queue a : process_queue_step answer w = (Ok a, w') → step w w'
  | step_monitor a : orphan_process_sync answer w = (Ok a, w') → step w w'
  | step_sigchld pids a : sig_reap_chld answer pids w = (Ok a, w') → step w w'.

Lemma keeps_send_reply I r : on_table I → keeps I (send_reply r).
Proof. intros HI. by apply keeps_upd. Qed.
#[local] Hint Resolve keeps_send_reply : keeps.

Lemma unique_dispatch uri data body : keeps unique_streams (dispatch answer uri data body).
Proof.
  unfold dispatch. destruct (list_find _ _) as [[i r]|] eqn:E; [|keeps].
  apply list_find_Some in E as (Hi&_&_). apply list_elem_of_lookup_2 in Hi.
  repeat (apply elem_of_cons in Hi as [-> |Hi]);
    [..|by apply not_elem_of_nil in Hi];
    simpl; unfold start_record, stop_record, create_record, remove_record, string_of; keeps.
Qed.

(** A stream is never recorded twice: starting from a table without
    duplicates, no sequence of requests, queue turns, monitor rounds and child
    deaths produces two documents with the same stream id. *)
Theorem unique_streams_reachable w w' :
  rtc step w w' → NoDup (streams (table w)) → NoDup (streams (table w')).
Proof.
  induction 1 as [|w1 w2 w3 Hs _ IH]; [done|]. intros Hu. apply IH.
  destruct Hs as [uri data body a Hs|a Hs|a Hs|pids a Hs];
    [eapply unique_dispatch|eapply unique_queue_step|eapply unique_orphan_sync|eapply unique_reap];
    done.
Qed.

(** ** Stopping *)

(** The table holds [d] for the stream [s] and the process [p], and nothing
    else for either. *)
Definition holds_alone (w : world) (s : list ascii) (p : Z) (pre : list doc) (d : doc)
    (post : list doc) : Prop :=
  table w = pre ++ d :: post ∧ of_stream s d ∧ of_pid p d ∧
  ∀ d', d' ∈ pre ++ post → ¬ of_stream s d' ∧ ¬ of_pid p d'.

Lemma holds_alone_pre w s p pre d post :
  holds_alone w s p pre d post →
  (∀ d', d' ∈ pre → ¬ of_stream s d') ∧ (∀ d', d' ∈ pre → ¬ of_pid p d').
Proof.
  intros (_&_&_&Hn). split; intros d' Hd'; apply Hn; apply elem_of_app; by left.
Qed.

Lemma get_process_info_eq sid w pre d post p i :
  holds_alone w (c_str sid) p pre d post → describes d i →
  get_process_info sid w = (Ok (Some i), w).
Proof.
  intros Ha Hd. destruct (holds_alone_pre _ _ _ _ _ _ Ha) as [Hpre _].
  destruct Ha as (Ht&Hs&_&_).
  unfold get_process_info, process_collection. cbv [mbind P_bind read mret P_ret].
  fold (handle w).
  pose proof (findOne_spec (query_sid sid) (of_stream (c_str sid)) w (matches_sid sid)) as Hf.
  rewrite Ht, list_find_middle in Hf by done.
  destruct (MongoAdaptor.findOne _ _ _) as [z|item]; [done|].
  destruct Hf as (k&d'&b&[= <- <-]&Hb&->). subst d.
  by rewrite (parser_describes _ _ _ Hd).
Qed.

Lemma is_process_exist_pid_eq p w pre d post s i :
  holds_alone w s p pre d post → describes d i →
  is_process_exist_pid p empty_process_info w = (Ok (true, i), w).
Proof.
  intros Ha Hd. destruct (holds_alone_pre _ _ _ _ _ _ Ha) as [_ Hpre].
  destruct Ha as (Ht&_&Hp&_).
  unfold is_process_exist_pid, process_collection. cbv [mbind P_bind read mret P_ret].
  fold (handle w).
  pose proof (findOne_spec (query_pid p) (of_pid p) w (matches_pid p)) as Hf.
  rewrite Ht, list_find_middle in Hf by done.
  destruct (MongoAdaptor.findOne _ _ _) as [z|item]; [done|].
  destruct Hf as (k&d'&b&[= <- <-]&Hb&->). subst d.
  by rewrite (parser_describes _ _ _ Hd).
Qed.

Lemma is_process_exist_pid_none p w info :
  (∀ d, d ∈ table w → ¬ of_pid p d) →
  is_process_exist_pid p info w = (Ok (false, info), w).
Proof.
  intros Hn. unfold is_process_exist_pid, process_collection.
  cbv [mbind P_bind read mret P_ret]. fold (handle w).
  pose proof (findOne_spec (query_pid p) (of_pid p) w (matches_pid p)) as Hf.
  rewrite list_find_none in Hf by done.
  destruct (MongoAdaptor.findOne _ _ _) as [z|item]; [done|].
  by destruct Hf as (k&d'&b&?&_).
Qed.

(** A child the table does not know is reaped without any effect. *)
Lemma send_message_none p w :
  (∀ d, d ∈ table w → ¬ of_pid p d) → send_message answer p w = (Ok REC_ERROR_OK, w).
Proof.
  intros Hn. unfold send_message. unfold mbind at 1, P_bind.
  by rewrite is_process_exist_pid_none.
Qed.

(** The request, up to its reply. *)
Lemma stop_request_eq data body root src sid w p pre d post i :
  reader_parse body = Some root →
  get_string root (bytes "src") = Some src →
  get_string root (bytes "streamcode") = Some sid →
  holds_alone w (c_str sid) p pre d post → describes d i →
  (MongoAdaptor.remove (handle w) (query_sid (c_str sid)) (srv w)).1 = true →
  ∃ w1 a, dispatch answer (bytes "/api/r3/stop") data (Some body) w = (Ok (), w1) ∧
    trace w1 = trace w ++ [Db DbRemove true; Sys (Kill p SIGINT) a; SendReply reply_ok] ∧
    table w1 = pre ++ post ∧ queue w1 = queue w ∧ clock w1 = S (clock w).
Proof.
  intros Hb Hsrc Hsid Ha Hd Hrm.
  pose proof Hd as (_&Hs&_&_&_&_&_&(p'&Hp&Hpid)&_).
  pose proof Ha as (Ht&Hof&Hofp&Hn). destruct (holds_alone_pre _ _ _ _ _ _ Ha) as [Hpre _].
  assert (ProcessManager.sid i = c_str sid) as Esid by (unfold of_stream, K_sid in Hof; congruence).
  assert (p' = p) as -> by (unfold of_pid, K_pid in Hofp; congruence).
  unfold dispatch, routes. cbn [list_find fst snd].
  rewrite decide_False by done. cbn [list_find]. rewrite decide_True by done. cbn [fmap option_fmap option_map prod_map id fst snd].
  unfold stop_record. rewrite Hb. unfold string_of. rewrite Hsrc, Hsid.
  cbv [mbind P_bind of_option mret P_ret].
  unfold kill_process. cbv [mbind P_bind of_option mret P_ret]. cbn [ProcessManager.sid].
  rewrite (get_process_info_eq _ _ _ _ _ _ _ Ha Hd). rewrite Esid.
  unfold remove_process_by_stream, process_collection.
  cbv [mbind P_bind read mret P_ret on_server]. fold (handle w).
  destruct (MongoAdaptor.remove (handle w) (query_sid (c_str sid)) (srv w)) as [ok s'] eqn:E.
  simpl in Hrm. subst ok. apply table_remove in E. simpl in E.
  rewrite Ht, (remove_first_middle _ (of_stream (c_str sid))) in E; [|..|done|done].
  2:{ intros x. by rewrite matches_sid, c_str_idem. }
  rewrite Hp. unfold sys, send_reply, upd.
  eexists _, _. split; [reflexivity|].
  split; [simpl; by rewrite <- !app_assoc|]. split; [exact E|]. done.
Qed.

(** C1. Stopping a recorded stream answers 200 and interrupts exactly its
    process, after its document has been removed from the table, so that the
    child's death, when it is reaped, starts nothing: the world does not
    change. *)
Theorem stop_no_respawn data body root src sid w p pre d post i :
  reader_parse body = Some root →
  get_string root (bytes "src") = Some src →
  get_string root (bytes "streamcode") = Some sid →
  holds_alone w (c_str sid) p pre d post → describes d i →
  (MongoAdaptor.remove (handle w) (query_sid (c_str sid)) (srv w)).1 = true →
  ∃ w1 a, dispatch answer (bytes "/api/r3/stop") data (Some body) w = (Ok (), w1) ∧
    trace w1 = trace w ++ [Db DbRemove true; Sys (Kill p SIGINT) a; SendReply reply_ok] ∧
    table w1 = pre ++ post ∧ queue w1 = queue w ∧
    sig_reap_chld answer [p] w1 = (Ok (), w1).
Proof.
  intros Hb Hsrc Hsid Ha Hd Hrm.
  destruct (stop_request_eq data body root src sid w p pre d post i Hb Hsrc Hsid Ha Hd Hrm)
    as (w1&a&E&Htr&Ht&Hq&_).
  exists w1, a. split_and!; [done..|]. cbn [sig_reap_chld]. unfold mbind at 1, P_bind.
  rewrite send_message_none; [done|]. intros d' Hd'. rewrite Ht in Hd'. by apply Ha.
Qed.

(** ** Restarting *)

Lemma plain_c_str s : plain s → c_str s = s.
Proof.
  induction 1 as [|c s [Hc _] _ IH]; [done|]. cbn [c_str].
  rewrite bool_decide_eq_false_2 by done. by rewrite IH.
Qed.

Lemma field_plain d k s : Forall plain_field d → field d k = Some (BUtf8 s) → plain s.
Proof.
  induction 1 as [|e d [_ He] _ IH]; [done|]. rewrite field_cons.
  case_decide; [|done]. intros [= Hs]. by rewrite Hs in He.
Qed.

Lemma describes_sid d i s : describes d i → of_stream s d → sid i = s ∧ c_str s = s.
Proof.
  intros (Hpl&Hs&_) Hof. unfold of_stream, K_sid in Hof.
  assert (sid i = s) as -> by congruence. split; [done|].
  by eapply plain_c_str, field_plain.
Qed.

(** [d'] is [d] with another pid. *)
Definition repid (n : Z) (d d' : doc) : Prop :=
  of_pid n d' ∧ ∀ k, k ≠ bytes "pid" → field d' k = field d k.

Lemma repid_with_pid n d : repid n d (with_pid n d).
Proof.
  split; [apply field_set_field_eq|]. intros k Hk. by apply field_set_field_ne.
Qed.

Definition update_pid_accepted (w : world) (s : list ascii) (n : Z) : Prop :=
  (MongoAdaptor.update (handle w) (query_sid s)
     (bson_append_document bson_new (bytes "$set")
        (BSON_APPEND_INT32 bson_new (bytes "pid") n)) (srv w)).1 = true.

(** The parent's side of a restart. *)
Lemma process_reload_parent w s p pre d post i n :
  holds_alone w s p pre d post → describes d i →
  answer (clock w) Fork = n → 0 < n → update_pid_accepted w s n →
  ∃ w' d' a, process_reload answer i w = (Ok (REC_ERROR_OK, a), w') ∧
    trace w' = trace w ++ [Sys Fork n; Db DbUpdate true] ∧ table w' = pre ++ d' :: post ∧ repid n d d'.
Proof.
  intros Ha Hd Hn Hpos Hup. destruct (holds_alone_pre _ _ _ _ _ _ Ha) as [Hpre _].
  destruct Ha as (Ht&Hof&_&_). destruct (describes_sid _ _ _ Hd Hof) as [Hs Hcs].
  unfold process_reload, re_create_process, sys. cbv [mbind P_bind mret P_ret]. rewrite Hn.
  destruct (Z.ltb_spec n 0); [lia|]. destruct (Z.ltb_spec 0 n); [|lia].
  unfold update_process_info, process_collection. cbv [mbind P_bind mret P_ret read of_option on_server].
  cbn [pid set_pid sid]. rewrite Hs.
  set (w1 := log_event _ _). fold (handle w1). unfold update_pid_accepted in Hup.
  change (MongoAdaptor.update (handle w)) with (MongoAdaptor.update (handle w1)) in Hup.
  change (srv w) with (srv w1) in Hup.
  destruct (MongoAdaptor.update _ _ _ _) as [ok s'] eqn:E. simpl in Hup. subst ok.
  apply table_update in E. change (table w1) with (table w) in E.
  rewrite (alter_first_ext _ _ (with_pid n)) in E by apply apply_set_pid.
  rewrite Ht, (alter_first_middle _ (of_stream s)) in E; [|..|done|done].
  2:{ intros x. by rewrite matches_sid, Hcs. }
  eexists _, (with_pid n d), _. split; [reflexivity|].
  split; [simpl; by rewrite <- app_assoc|]. split; [exact E|].
  apply repid_with_pid.
Qed.

(** C20. A recorded process that dies is started again: the parent's SIGCHLD
    handling forks once and gives the document the new pid, all else in the
    table staying as it was (the recorder's own pid included, so the document
    of another recorder stays its orphan); the child runs ffmpeg on the
    document's URL and playlist; if the fork fails the table keeps the dead
    process. *)
Theorem sigchld_restarts w s p pre d post i n :
  holds_alone w s p pre d post → describes d i → answer (clock w) Fork = n →
  (0 < n → update_pid_accepted w s n →
    ∃ w' d', sig_reap_chld answer [p] w = (Ok (), w') ∧
      trace w' = trace w ++ [Sys Fork n; Db DbUpdate true] ∧ table w' = pre ++ d' :: post ∧ repid n d d') ∧
  (n = 0 → ∃ w' a,
    sig_reap_chld answer [p] w = (if a <? 0 then Ok () else Replaced, w') ∧
      trace w' = trace w ++ [Sys Fork 0; Sys (Execl (reload_cmd (src_url i) (m3u8_path i))) a] ∧
      table w' = table w) ∧
  (n < 0 → ∃ w', sig_reap_chld answer [p] w = (Ok (), w') ∧
      trace w' = trace w ++ [Sys Fork n] ∧ table w' = table w).
Proof.
  intros Ha Hd Hn. cbn [sig_reap_chld]. unfold send_message.
  split; [|split]; intros Hc; [intros Hup| |].
  - destruct (process_reload_parent _ _ _ _ _ _ _ _ Ha Hd Hn Hc Hup) as (w'&d'&a&E&Htr&Htab&Hr).
    exists w', d'. split; [|done].
    unfold mbind, P_bind. rewrite (is_process_exist_pid_eq _ _ _ _ _ _ _ Ha Hd). by rewrite E.
  - subst n. unfold mbind, P_bind. rewrite (is_process_exist_pid_eq _ _ _ _ _ _ _ Ha Hd).
    unfold process_reload, re_create_process, sys. cbv [mbind P_bind mret P_ret]. rewrite Hc.
    simpl. unfold execl, sys. cbv [mbind P_bind mret P_ret]. simpl.
    set (cmd := Execl (reload_cmd (src_url i) (m3u8_path i))).
    exists (log_event (Sys cmd (answer (S (clock w)) cmd))
              (tick (log_event (Sys Fork 0) (tick w)))), (answer (S (clock w)) cmd).
    split; [|split; [|reflexivity]].
    + by destruct (answer (S (clock w)) cmd <? 0).
    + simpl. by rewrite <- app_assoc.
  - unfold mbind, P_bind. rewrite (is_process_exist_pid_eq _ _ _ _ _ _ _ Ha Hd).
    unfold process_reload, re_create_process, sys. cbv [mbind P_bind mret P_ret]. rewrite Hn.
    destruct (Z.ltb_spec n 0); [|lia]. by eexists.
Qed.

(** ** The monitor *)

Lemma collect_orphans_eq self bs infos w : ∀ item acc,
  Forall2 (λ b i, describes (fields b) i ∧ ppid i ≠ Some self) bs infos →
  collect_orphans self ((λ b, c_str (bson_as_json b)) <$> bs) item acc w = (Ok (acc ++ infos), w).
Proof.
  intros item acc Hf. revert item acc.
  induction Hf as [|b i bs infos [Hd Hne] _ IH]; intros item acc.
  - by rewrite app_nil_r.
  - cbn [fmap list_fmap collect_orphans]. rewrite (parser_describes _ _ _ Hd). cbn [snd].
    pose proof Hd as (_&_&_&_&_&_&_&_&(pp&Hpp&_)). rewrite Hpp.
    unfold mbind, P_bind, of_option. cbv [mret P_ret].
    destruct (Z.eqb_spec pp self) as [->|]; [congruence|]. cbn [negb].
    fold (@list_fmap (bson_t) (list ascii)). rewrite IH. by rewrite <- app_assoc.
Qed.

(** The orphans the query finds, parsed. *)
Lemma find_orphan_eq w self (infos : list process_info) :
  answer (clock w) Getpid = self →
  Forall2 describes (filter (λ d, field d K_ppid ≠ Some (BInt32 self)) (table w)) infos →
  ∃ ret, find_orphan_process answer [] w =
    (Ok (ret, infos), log_event (Sys Getpid self) (tick w)).
Proof.
  intros Hself Hf. unfold find_orphan_process, process_collection, sys.
  cbv [mbind P_bind read mret P_ret]. rewrite Hself. fold (handle w). simpl srv.
  assert (Hext : ∀ l : list doc, filter (λ d, matches (fields (query_not_ppid self)) d = true) l
    = filter (λ d, field d K_ppid ≠ Some (BInt32 self)) l).
  { intros l. apply list_filter_iff. intros d. apply matches_not_ppid. }
  unfold table, table_at in Hf. unfold MongoAdaptor.find.
  destruct (handle w) as [c|].
  - pose proof (find_law c (query_not_ppid self) (srv w)) as Hl. rewrite Hext in Hl.
    assert (Forall2 (λ b i, describes (fields b) i ∧ ppid i ≠ Some self)
      (mongoc_collection_find c (query_not_ppid self) (srv w)) infos) as Hf2.
    { rewrite <- Hl in Hf.
      assert (Forall (λ b, field (fields b) K_ppid ≠ Some (BInt32 self))
        (mongoc_collection_find c (query_not_ppid self) (srv w))) as Hne.
      { apply List.Forall_forall. intros b Hb.
        assert (fields b ∈ filter (λ d, field d K_ppid ≠ Some (BInt32 self)) (contents (srv w) c)) as Hin.
        { rewrite <- Hl. apply list_elem_of_fmap. exists b. split; [done|]. by apply list_elem_of_In. }
        by apply list_elem_of_filter in Hin as [? _]. }
      clear Hl. revert Hf Hne. generalize (mongoc_collection_find c (query_not_ppid self) (srv w)).
      clear. intros bs. revert infos.
      induction bs as [|b bs IH]; intros infos Hf Hne; inversion Hf; subst; [constructor|].
      inversion Hne; subst. constructor; [|by apply IH].
      match goal with Hd : describes _ _ |- _ => rename Hd into Hds end. split; [done|].
      destruct Hds as (_&_&_&_&_&_&_&_&(pp&Hpp&Hfp)).
      intros Heq. rewrite Heq in Hpp. injection Hpp as <-. done. }
    erewrite collect_orphans_eq by done. eauto.
  - simpl in Hf. inversion Hf; subst. eauto.
Qed.

(** The reaction to one orphan. *)
Definition check_events (infos : list process_info) (es : list event) : Prop :=
  Forall2 (λ i e, ∃ p, pid i = Some p ∧ e = Sys (Kill p 0) 0) infos es.

Lemma sync_orphans_alive infos : ∀ w,
  Forall (λ i, ∃ p, pid i = Some p ∧ ∀ n, answer n (Kill p 0) = 0) infos →
  ∃ w' es, sync_orphans answer infos w = (Ok (), w') ∧ srv w' = srv w ∧
    db_address w' = db_address w ∧ queue w' = queue w ∧
    trace w' = trace w ++ es ∧ check_events infos es.
Proof.
  induction infos as [|i infos IH]; intros w Hi.
  - exists w, []. rewrite app_nil_r. repeat split. constructor.
  - apply Forall_cons_1 in Hi as [(p&Hp&Ha) Hi]. cbn [sync_orphans].
    unfold check_system_process_exist, sys. cbv [mbind P_bind mret P_ret of_option].
    rewrite Hp, Ha. simpl.
    destruct (IH (log_event (Sys (Kill p 0) 0) (tick w)) Hi) as (w'&es&E&Hs&Ha2&Hq&Ht&Hc).
    exists w', (Sys (Kill p 0) 0 :: es). split; [done|]. split; [done|]. split; [done|]. split; [done|].
    split; [rewrite Ht; simpl; by rewrite <- app_assoc|]. constructor; eauto.
Qed.

(** The monitor leaves a healthy table alone: if every document belongs to
    this recorder or to a live process, a round only asks for its own pid and
    probes the orphans; nothing is forked and the table stays. *)
Theorem monitor_spares w self infos :
  answer (clock w) Getpid = self →
  Forall2 describes (filter (λ d, field d K_ppid ≠ Some (BInt32 self)) (table w)) infos →
  Forall (λ i, ∃ p, pid i = Some p ∧ ∀ n, answer n (Kill p 0) = 0) infos →
  ∃ w' r es, orphan_process_sync answer w = (Ok r, w') ∧
    trace w' = trace w ++ Sys Getpid self :: es ∧ table w' = table w ∧ queue w' = queue w ∧
    Forall2 (λ i e, ∃ p, pid i = Some p ∧ e = Sys (Kill p 0) 0) infos es.
Proof.
  intros Hself Hf Hi. destruct (find_orphan_eq w self infos Hself Hf) as [ret E].
  destruct (sync_orphans_alive infos (log_event (Sys Getpid self) (tick w)) Hi)
    as (w'&es&E2&Hs&Hadr&Hq&Ht&Hc).
  exists w', ret, es. unfold orphan_process_sync. unfold mbind, P_bind. rewrite E, E2.
  split; [done|]. split; [by rewrite Ht; simpl; rewrite <- app_assoc|].
  split; [|done]. by apply table_env.
Qed.

(** A dead orphan is taken over: when the monitor finds the process of
    another recorder gone, it forks a new one and gives the document its pid. *)
Theorem monitor_restarts w self pre d post s p i n a :
  answer (clock w) Getpid = self →
  holds_alone w s p pre d post → describes d i → ppid i ≠ Some self →
  (∀ d', d' ∈ pre ++ post → field d' K_ppid = Some (BInt32 self)) →
  answer (S (clock w)) (Kill p 0) = a → a ≠ 0 →
  answer (S (S (clock w))) Fork = n → 0 < n → update_pid_accepted w s n →
  ∃ w' r d', orphan_process_sync answer w = (Ok r, w') ∧
    trace w' = trace w ++ [Sys Getpid self; Sys (Kill p 0) a; Sys Fork n; Db DbUpdate true] ∧
    table w' = pre ++ d' :: post ∧ repid n d d'.
Proof.
  intros Hself Ha Hd Hpp Hothers Hk Hne Hn Hpos Hup.
  assert (Forall2 describes (filter (λ d, field d K_ppid ≠ Some (BInt32 self)) (table w)) [i]) as Hf.
  { destruct Ha as (-> & _). rewrite list.filter_app, filter_cons_True.
    2:{ destruct Hd as (_&_&_&_&_&_&_&_&(pp&Epp&Hfp)). unfold K_ppid. rewrite Hfp. congruence. }
    assert (∀ l, (∀ x, x ∈ l → x ∈ pre ++ post) →
      filter (λ d, field d K_ppid ≠ Some (BInt32 self)) l = []) as Hnil.
    { intros l Hl. induction l as [|x l IH]; [done|].
      rewrite filter_cons_False, IH; [done|..].
      - intros y Hy. by apply Hl, list_elem_of_further.
      - rewrite Hothers; [by intros []|]. apply Hl, list_elem_of_here. }
    rewrite !Hnil; [by constructor; [|constructor]|..]; intros x Hx; apply elem_of_app; auto. }
  destruct (find_orphan_eq w self [i] Hself Hf) as [ret E].
  pose proof Hd as (_&_&_&_&_&_&_&(p'&Hp'&Hfp)&_).
  assert (p' = p) as ->.
  { destruct Ha as (_&_&Hofp&_). unfold of_pid, K_pid in Hofp. congruence. }
  set (w1 := log_event (Sys (Kill p 0) a) (tick (log_event (Sys Getpid self) (tick w)))).
  destruct (process_reload_parent w1 s p pre d post i n) as (w'&d'&r&E2&Ht&Htab&Hr); try done.
  exists w', ret, d'. split; [|split; [|done]].
  - unfold orphan_process_sync. unfold mbind at 1, P_bind. rewrite E.
    unfold mbind at 1, P_bind. cbn [sync_orphans].
    unfold check_system_process_exist, sys, mbind, P_bind, of_option. rewrite Hp'.
    cbv [mret P_ret]. change (clock (log_event (Sys Getpid self) (tick w))) with (S (clock w)).
    rewrite Hk. fold w1.
    destruct (Z.eqb_spec 0 a) as [|_]; [congruence|].
    erewrite is_process_exist_pid_eq by (done || exact Ha). by rewrite E2.
  - rewrite Ht. simpl. by rewrite <- !app_assoc.
Qed.

(** ** Files *)

(** The directories [multi_mkdir] visits: what precedes each slash, then the
    path itself. *)
Fixpoint slash_prefixes (str : list ascii) (i : nat) (rest : list ascii) : list (list ascii) :=
  match rest with
  | [] => []
  | c :: rest' =>
      if decide (c = "/"%char) then take i str :: slash_prefixes str (S i) rest'
      else slash_prefixes str (S i) rest'
  end.
Definition visited_dirs (str : list ascii) : list (list ascii) :=
  slash_prefixes str 0 str ++ match str with [] => [] | _ => [str] end.

(** A directory is probed, and made when the probe fails. *)
Definition probe_events (v : list ascii * (Z * Z)) : list event :=
  Sys (Access v.1) v.2.1 :: if v.2.1 =? 0 then [] else [Sys (Mkdir v.1) v.2.2].

(** Two worlds that differ in the trace and the clock only. *)
Definition same_state (w w' : world) : Prop :=
  srv w' = srv w ∧ queue w' = queue w ∧ is_running w' = is_running w ∧
  db_address w' = db_address w.

#[export] Instance same_state_preorder : PreOrder same_state.
Proof. split; [by intros w|]. intros w1 w2 w3 (?&?&?&?) (?&?&?&?). repeat split; congruence. Qed.

Lemma same_state_table w w' : same_state w w' → table w' = table w.
Proof. intros (?&_&_&?). by apply table_env. Qed.

Lemma probe_eq (p : list ascii) w : ∃ v w',
  (a ← sys answer (Access p);
   if negb (a =? 0) then sys answer (Mkdir p);; mret () else mret ()) w = (Ok (), w') ∧
  same_state w w' ∧ v.1 = p ∧ trace w' = trace w ++ probe_events v.
Proof.
  unfold sys. cbv [mbind P_bind mret P_ret].
  set (a := answer (clock w) (Access p)). destruct (Z.eqb_spec a 0) as [Ha|Ha]; simpl.
  - exists (p, (a, 0)). eexists. split; [done|]. split; [done|]. split; [done|].
    unfold probe_events. simpl. by rewrite Ha.
  - set (b := answer (S (clock w)) (Mkdir p)).
    exists (p, (a, b)). eexists. split; [done|]. split; [done|]. split; [done|].
    unfold probe_events. simpl. destruct (Z.eqb_spec a 0); [done|].
    by rewrite <- app_assoc.
Qed.

Lemma mkdir_prefixes_eq str rest : ∀ i w, ∃ vs w',
  mkdir_prefixes answer str i rest w = (Ok (), w') ∧ same_state w w' ∧
  vs.*1 = slash_prefixes str i rest ∧ trace w' = trace w ++ concat (probe_events <$> vs).
Proof.
  induction rest as [|c rest IH]; intros i w; cbn [mkdir_prefixes slash_prefixes].
  { exists [], w. rewrite app_nil_r. done. }
  case_decide.
  - destruct (probe_eq (take i str) w) as (v&w1&E&Hs&Hv&Ht).
    destruct (IH (S i) w1) as (vs&w2&E2&Hs2&Hvs&Ht2).
    exists (v :: vs), w2. rewrite (bind_ok _ _ _ _ _ E). split; [exact E2|].
    split; [by etrans|]. split; [by rewrite fmap_cons, Hv, Hvs|].
    rewrite Ht2, Ht, <- app_assoc. done.
  - destruct (IH (S i) w) as (vs&w2&E2&Hs2&Hvs&Ht2). by exists vs, w2.
Qed.

Lemma multi_mkdir_eq dir w : (length (c_str dir) < 512)%nat → ∃ vs w',
  multi_mkdir answer dir w = (Ok (), w') ∧ same_state w w' ∧
  vs.*1 = visited_dirs (c_str dir) ∧ trace w' = trace w ++ concat (probe_events <$> vs).
Proof.
  intros Hl. unfold multi_mkdir, visited_dirs. rewrite decide_False by lia.
  destruct (mkdir_prefixes_eq (c_str dir) (c_str dir) 0 w) as (vs&w1&E&Hs&Hvs&Ht).
  rewrite (bind_ok _ _ _ _ _ E).
  destruct (c_str dir) as [|c str] eqn:Ed.
  - exists vs, w1. rewrite app_nil_r. split; [done|]. done.
  - rewrite decide_True by (simpl; lia).
    destruct (probe_eq (c :: str) w1) as (v&w2&E2&Hs2&Hv&Ht2).
    exists (vs ++ [v]), w2. split; [exact E2|]. split; [by etrans|].
    split; [by rewrite fmap_app, Hvs, <- Hv|].
    rewrite Ht2, Ht, fmap_app, concat_app. simpl. by rewrite app_nil_r, app_assoc.
Qed.

(** Making a path: the directories along it are visited from the root
    down, each one probed and created exactly when the probe fails, and
    nothing else is done. *)
Theorem multi_mkdir_spec dir w : (length (c_str dir) < 512)%nat → ∃ vs w',
  multi_mkdir answer dir w = (Ok (), w') ∧ srv w' = srv w ∧ queue w' = queue w ∧
  vs.*1 = visited_dirs (c_str dir) ∧ trace w' = trace w ++ concat (probe_events <$> vs).
Proof.
  intros Hl. destruct (multi_mkdir_eq dir w Hl) as (vs&w'&E&(Hs&Hq&_)&Hv&Ht).
  by exists vs, w'.
Qed.

Lemma create_m3u8_eq param w : (length (c_str (path param)) < 512)%nat → ∃ w' es r,
  create_m3u8 answer param w = (Ok r, w') ∧ same_state w w' ∧ trace w' = trace w ++ es ∧
  (∀ n, Sys Fork n ∉ es) ∧
  (r = (REC_ERROR_CREATE_M3U8_FILE, param) ∨
   ∃ t, r = (REC_ERROR_OK, mk_m3u8_param (path param) (m3u8_sid param) (m3u8_name param t))).
Proof.
  intros Hl. unfold create_m3u8. rewrite sys_bind. set (w1 := log_event _ _).
  assert (∃ es1 w2, (if answer (clock w) (Opendir (c_str (path param))) =? 0
     then multi_mkdir answer (c_str (path param)) else mret ()) w1 = (Ok (), w2) ∧
     same_state w1 w2 ∧ trace w2 = trace w1 ++ es1 ∧ ∀ n, Sys Fork n ∉ es1) as (es1&w2&E1&Hs1&Ht1&Hf1).
  { case_match.
    - destruct (multi_mkdir_eq (c_str (path param)) w1) as (vs&w2&E&Hs&_&Ht).
      { by rewrite c_str_idem. }
      eexists _, w2. split; [exact E|]. split; [done|]. split; [done|].
      intros n Hn. apply list_elem_of_In, in_concat in Hn as (l&Hl'&Hn).
      apply list_elem_of_In, list_elem_of_fmap in Hl' as (v&->&_).
      apply list_elem_of_In in Hn. unfold probe_events in Hn.
      apply elem_of_cons in Hn as [?|Hn]; [done|]. case_match.
      + by apply not_elem_of_nil in Hn.
      + apply list_elem_of_singleton in Hn. done.
    - exists [], w1. rewrite app_nil_r. split; [done|]. split; [done|]. split; [done|].
      intros n. apply not_elem_of_nil. }
  rewrite (bind_ok _ _ _ _ _ E1).
  rewrite sys_bind. set (w3 := log_event _ _).
  rewrite sys_bind. set (w4 := log_event _ _).
  set (t := answer (clock w2) Time). set (fd := answer (clock w3) (Open (m3u8_name param t))).
  assert (same_state w w2) as Hw2 by (by etrans; [|exact Hs1]).
  assert (trace w4 = trace w ++ [Sys (Opendir (c_str (path param)))
    (answer (clock w) (Opendir (c_str (path param))))] ++ es1 ++
    [Sys Time t; Sys (Open (m3u8_name param t)) fd]) as Ht4.
  { simpl. rewrite Ht1. simpl. by rewrite <- !app_assoc. }
  destruct (fd <? 0).
  - eexists w4, _, _. split; [done|]. split; [done|]. split; [exact Ht4|].
    split; [|by left]. intros n. rewrite !not_elem_of_app, !not_elem_of_cons. 
    repeat split; try done; try apply not_elem_of_nil; apply Hf1.
  - unfold sys. cbv [mbind P_bind mret P_ret].
    eexists _, _, _. split; [reflexivity|]. split; [done|].
    split; [simpl trace; simpl in Ht4; rewrite Ht4, <- !app_assoc; reflexivity|].
    split; [|right; by exists t].
    intros n. repeat (rewrite not_elem_of_app || rewrite not_elem_of_cons).
    repeat split; try done; try apply not_elem_of_nil; apply Hf1.
Qed.

(** ** Starting *)

(** How a spawn ends once the playlist file [file] exists. *)
Definition spawned (param : process_info) (file : list ascii) (w w' : world) (n : Z)
    (r : result (Z * process_info)) (after : list event) : Prop :=
  (n < 0 → r = Ok (REC_ERROR_FORK_FAILED, param) ∧ after = [] ∧ table w' = table w) ∧
  (n = 0 → ∃ a, after = [Sys (Execl (spawn_cmd (src_url param) file)) a] ∧
     table w' = table w ∧ r = if a <? 0 then Ok (REC_ERROR_OK, param) else Replaced) ∧
  (0 < n → ∃ pp p' ok, after = [Sys Getpid pp; Db DbInsert ok] ∧ p' = set_m3u8_path file (set_pid n param) ∧
     r = Ok (REC_ERROR_OK, p') ∧
     if ok then ∃ id, table w' =
        table w ++ [(bytes "_id", BOid id) :: fields (process_document p' n pp)]
     else table w' = table w).

Lemma spawn_process_eq param w : (length (c_str (m3u8_path param)) < 512)%nat →
  c_str (sid param) ∉ streams (table w) →
  ∃ es w' r, spawn_process answer param w = (r, w') ∧ queue w' = queue w ∧
    (∀ n, Sys Fork n ∉ es) ∧
    ((r = Ok (REC_ERROR_CREATE_M3U8_FILE, param) ∧ trace w' = trace w ++ es ∧
      table w' = table w) ∨
     ∃ n after t, let m := mk_m3u8_param (m3u8_path param) (sid param) [] in
       trace w' = trace w ++ es ++ Sys Fork n :: after ∧
       spawned param (m3u8_name m t) w w' n r after).
Proof.
  intros Hl Hs. unfold spawn_process.
  rewrite (bind_ok _ _ _ _ _ (is_process_exist_eq _ _)), bool_decide_eq_false_2 by done.
  destruct (create_m3u8_eq (mk_m3u8_param (m3u8_path param) (sid param) []) w Hl)
    as (w1&es&[ret m]&E&Hss&Ht&Hnf&Hr).
  rewrite (bind_ok _ _ _ _ _ E).
  destruct Hr as [[= -> ->]|(t&[= -> ->])]; cbn [negb Z.eqb REC_ERROR_CREATE_M3U8_FILE REC_ERROR_OK].
  { exists es, w1. eexists. split; [reflexivity|]. split; [apply Hss|]. split; [done|].
    left. split; [done|]. split; [done|]. by apply same_state_table. }
  rewrite sys_bind. set (n := answer (clock w1) Fork). set (w2 := log_event _ _).
  assert (table w2 = table w) as Htab by (by apply same_state_table).
  assert (queue w2 = queue w) as Hq by apply Hss.
  assert (trace w2 = trace w ++ es ++ [Sys Fork n]) as Htr
    by (simpl; rewrite Ht; by rewrite <- app_assoc).
  cbn [file_path]. set (file := m3u8_name _ t).
  destruct (Z.ltb_spec n 0) as [Hneg|Hneg].
  { exists es, w2. eexists. split; [reflexivity|]. split; [done|]. split; [done|].
    right. exists n, [], t. split; [done|]. split; [done|]. split; intros; lia. }
  destruct (Z.ltb_spec 0 n) as [Hpos|Hpos].
  - set (p' := set_m3u8_path file (set_pid n param)). cbv zeta.
    unfold add_process_to_cache, process_collection.
    cbv [mbind P_bind read mret P_ret of_option]. cbn [pid set_pid set_m3u8_path p'].
    fold p'. unfold sys. fold (handle w2). set (pp := answer _ _). set (w3 := log_event _ _).
    unfold on_server. destruct (MongoAdaptor.insert _ _ _) as [ok s'] eqn:Ei.
    change (handle w2) with (handle w3) in Ei. apply table_insert in Ei.
    change (table w3) with (table w2) in Ei. rewrite Htab in Ei.
    exists es, (log_event (Db DbInsert ok) (set_srv s' w3)). eexists. split; [reflexivity|]. split; [done|]. split; [done|].
    right. exists n, [Sys Getpid pp; Db DbInsert ok], t. split.
    { simpl trace. simpl trace in Htr. rewrite Htr. by rewrite <- !app_assoc. }
    split; [lia|]. split; [lia|]. intros _. exists pp, p', ok.
    do 3 (split; [done|]). destruct ok; exact Ei.
  - assert (n = 0) as Hn by lia.
    set (a := answer (clock w2) (Execl (spawn_cmd (src_url param) file))).
    exists es, (log_event (Sys (Execl (spawn_cmd (src_url param) file)) a) (tick w2)),
      (if a <? 0 then Ok (REC_ERROR_OK, param) else Replaced).
    split; [unfold execl, sys; cbv [mbind P_bind mret P_ret]; fold a; by destruct (a <? 0)|].
    split; [done|]. split; [done|]. right. exists n, [Sys (Execl (spawn_cmd (src_url param) file)) a], t.
    split; [simpl trace; simpl trace in Htr; rewrite Htr; by rewrite <- !app_assoc|].
    split; [lia|]. split; [|lia]. intros _. exists a. by rewrite <- Htab.
Qed.

(** C13. Starting a recording, on every branch.  A stream that is already in
    the table costs no system call and is refused.  For a new one the playlist
    file is made first, without any fork; if that fails the process table is
    untouched.  Then there is exactly one fork: in the parent the table gains
    one document with the child's pid and the file's name (or nothing, when
    the database refuses it), the child becomes ffmpeg, and a failed fork
    leaves the table as it was. *)
Theorem spawn_process_spec param w : (length (c_str (m3u8_path param)) < 512)%nat →
  (c_str (sid param) ∈ streams (table w) →
     spawn_process answer param w = (Ok (REC_ERROR_STREAM_EXIST, param), w)) ∧
  (c_str (sid param) ∉ streams (table w) →
   ∃ es w' r, spawn_process answer param w = (r, w') ∧ queue w' = queue w ∧
    (∀ n, Sys Fork n ∉ es) ∧
    ((r = Ok (REC_ERROR_CREATE_M3U8_FILE, param) ∧ trace w' = trace w ++ es ∧
      table w' = table w) ∨
     ∃ n after t, let m := mk_m3u8_param (m3u8_path param) (sid param) [] in
       trace w' = trace w ++ es ++ Sys Fork n :: after ∧
       spawned param (m3u8_name m t) w w' n r after)).
Proof.
  intros Hl. split; intros Hs; [|by apply spawn_process_eq].
  unfold spawn_process.
  by rewrite (bind_ok _ _ _ _ _ (is_process_exist_eq _ _)), bool_decide_eq_true_2.
Qed.

(** ** Requests *)

(** The queue entry a start request makes. *)
Definition start_param (data : app_data) (src path sid type : list ascii) : process_info :=
  mk_process_info sid None None src (vsnprintf 256 (c_str (app_root_path data) ++ c_str path)).1
    type (bytes "active") (c_str (app_host data)).

Lemma start_record_eq data body root src path sid type w :
  reader_parse body = Some root →
  get_string root (bytes "src") = Some src → get_string root (bytes "path") = Some path →
  get_string root (bytes "streamcode") = Some sid → get_string root (bytes "type") = Some type →
  ∃ w' a b, dispatch answer (bytes "/api/r3/start") data (Some body) w = (Ok (), w') ∧
    trace w' = trace w ++ [Sys MutexLock a; Sys MutexUnlock b; SendReply reply_ok] ∧
    queue w' = queue w ++ [start_param data src path sid type] ∧ srv w' = srv w ∧
    db_address w' = db_address w.
Proof.
  intros Hb H1' H2' H3' H4'.
  unfold dispatch, routes. cbn [list_find fst snd]. rewrite decide_True by done. cbn [fst snd].
  unfold start_record, string_of. rewrite Hb, H1', H2', H3', H4'. unfold of_option.
  cbv [mbind P_bind mret P_ret put_data upd sys send_reply].
  do 3 eexists. split; [reflexivity|]. simpl. split; [by rewrite <- !app_assoc|]. done.
Qed.

(** C31. A start request for a stream that is already recorded is answered 200
    like any other (the 403 of the source is never sent), and is then dropped
    in silence by the queue thread: no fork, no reply, no change of the
    table. *)
Theorem duplicate_start data body root src path sid type w :
  reader_parse body = Some root →
  get_string root (bytes "src") = Some src → get_string root (bytes "path") = Some path →
  get_string root (bytes "streamcode") = Some sid → get_string root (bytes "type") = Some type →
  queue w = [] → c_str sid ∈ streams (table w) →
  ∃ w1 w2 a b, dispatch answer (bytes "/api/r3/start") data (Some body) w = (Ok (), w1) ∧
    trace w1 = trace w ++ [Sys MutexLock a; Sys MutexUnlock b; SendReply reply_ok] ∧
    process_queue_step answer w1 = (Ok true, w2) ∧
    trace w2 = trace w1 ∧ table w2 = table w ∧ queue w2 = [].
Proof.
  intros Hb H1' H2' H3' H4' Hq Hs.
  destruct (start_record_eq data body root src path sid type w Hb H1' H2' H3' H4')
    as (w1&a&b&E&Ht&Hq1&Hsrv&Hadr).
  rewrite Hq in Hq1. simpl in Hq1.
  assert (table w1 = table w) as Htab by (by apply table_env).
  exists w1. eexists _, a, b. split; [done|]. split; [done|].
  unfold process_queue_step.
  rewrite (bind_ok (read queue) _ w1 _ w1 eq_refl), Hq1.
  unfold spawn_process. unfold mbind at 1, P_bind.
  rewrite (bind_ok _ _ _ _ _ (is_process_exist_eq _ _)), bool_decide_eq_true_2.
  2:{ cbn [ProcessManager.sid start_param]. by rewrite Htab. }
  split; [reflexivity|]. simpl. rewrite Hq1. split; [done|]. split; [exact Htab|done].
Qed.

(** ** The queue *)

Definition queue_is (q : list process_info) (w : world) : Prop := queue w = q.

Lemma queue_stable q : env_stable (queue_is q).
Proof. by intros w c a Hq. Qed.
Lemma queue_on_server q o f : keeps (queue_is q) (on_server o f).
Proof. intros w r w' Hq. unfold on_server. destruct (f (srv w)). by intros [= <- <-]. Qed.
#[local] Hint Resolve queue_stable queue_on_server keeps_is_process_exist keeps_execl : keeps.

Lemma queue_spawn q param : keeps (queue_is q) (spawn_process answer param).
Proof.
  assert (∀ info, keeps (queue_is q) (add_process_to_cache answer info)) as Hadd.
  { intros info. unfold add_process_to_cache, process_collection. keeps. }
  unfold spawn_process. keeps.
Qed.

(** The HTTP thread puts a request in, the queue thread takes a turn. *)
Inductive queue_action := Put (param : process_info) | Turn.

(** A run of such actions: the requests the turns took, in order. *)
Fixpoint run_queue (acts : list queue_action) : P (list process_info) :=
  match acts with
  | [] => mret []
  | Put param :: acts' => put_data answer param;; run_queue acts'
  | Turn :: acts' =>
      qu ← read queue;
      process_queue_step answer;;
      taken ← run_queue acts';
      mret (take 1 qu ++ taken)
  end.

Definition puts (acts : list queue_action) : list process_info :=
  omap (λ a, match a with Put p => Some p | Turn => None end) acts.

Lemma process_queue_step_queue w b w' :
  process_queue_step answer w = (Ok b, w') → queue w' = tail (queue w).
Proof.
  unfold process_queue_step. rewrite (bind_ok (read queue) _ w _ w eq_refl).
  destruct (queue w) as [|e q] eqn:Eq; [by intros [= <- <-]|].
  unfold mbind at 1, P_bind. destruct (spawn_process answer e w) as [[a| |] w1] eqn:E; try done.
  pose proof (queue_spawn (e :: q) e _ _ _ Eq E) as Hq. unfold queue_is in Hq.
  unfold upd. cbv [mbind P_bind mret P_ret]. intros [= <- <-]. simpl. by rewrite Hq.
Qed.

(** Requests are served in the order they arrived, each of them once,
    however arrivals and turns of the queue thread alternate. *)
Theorem queue_fifo acts w taken w' :
  run_queue acts w = (Ok taken, w') → queue w ++ puts acts = taken ++ queue w'.
Proof.
  revert w taken w'. induction acts as [|[param|] acts IH]; intros w taken w'; simpl.
  - intros [= <- <-]. by rewrite app_nil_r.
  - unfold mbind at 1, P_bind. unfold put_data, sys, upd. cbv [mbind P_bind mret P_ret].
    intros Hr. apply IH in Hr. simpl in Hr. by rewrite <- Hr, <- app_assoc.
  - rewrite (bind_ok (read queue) _ w _ w eq_refl). unfold mbind at 1, P_bind.
    destruct (process_queue_step answer w) as [[b| |] w1] eqn:E; try done.
    apply process_queue_step_queue in E. unfold mbind at 1, P_bind.
    destruct (run_queue acts w1) as [[tk| |] w2] eqn:E2; try done.
    intros [= <- <-]. apply IH in E2. rewrite E in E2.
    destruct (queue w) as [|e q]; simpl in *; [done|by rewrite E2].
Qed.

(** ** Replies *)

Definition replies (w : world) : list reply :=
  omap (λ e, match e with SendReply r => Some r | _ => None end) (trace w).

(** Computations that send nothing, and those that send one reply. *)
Definition replied (l : list reply) (w : world) : Prop := replies w = l.
Definition quiet {A} (m : P A) : Prop := ∀ l, keeps (replied l) m.
Definition replies_one (m : P ()) : Prop := ∀ w w',
  m w = (Ok (), w') → ∃ r, replies w' = replies w ++ [r].

Lemma replied_stable l : env_stable (replied l).
Proof.
  intros w c a Hw. unfold replied, replies in *. simpl. rewrite omap_app. simpl.
  by rewrite app_nil_r.
Qed.
Lemma replied_on_server l o f : keeps (replied l) (on_server o f).
Proof.
  intros w r w' Hw. unfold on_server. destruct (f (srv w)). intros [= <- <-].
  unfold replied, replies in *. simpl. rewrite omap_app. simpl. by rewrite app_nil_r.
Qed.
#[local] Hint Resolve replied_stable replied_on_server keeps_get_process_info : keeps.

Lemma replies_one_send r : replies_one (send_reply r).
Proof.
  intros w w' [= <-]. exists r. unfold replies. simpl. by rewrite omap_app.
Qed.
Lemma replies_one_bind {A} (m : P A) k :
  quiet m → (∀ a, replies_one (k a)) → replies_one (m ≫= k).
Proof.
  intros Hm Hk w w' Hr. unfold mbind, P_bind in Hr.
  destruct (m w) as [[a| |] w1] eqn:E; try done.
  pose proof (Hm (replies w) w _ _ eq_refl E) as Hq. unfold replied in Hq. rewrite <- Hq.
  by apply (Hk a).
Qed.

Lemma quiet_put_data p : quiet (put_data answer p).
Proof.
  intros l. unfold put_data. keeps. by intros w r w' Hw [= <- <-].
Qed.
Lemma quiet_kill p : quiet (kill_process answer p).
Proof. intros l. unfold kill_process, remove_process_by_stream, process_collection. keeps. Qed.
Lemma quiet_create p : quiet (create_m3u8 answer p).
Proof. intros l. keeps. Qed.
Lemma quiet_string root k : quiet (string_of root k).
Proof. intros l. unfold string_of. keeps. Qed.

(** C32. Each of the start, stop and create requests that returns has sent
    exactly one reply; the delete request sends none, so its client waits for
    an answer that never comes. *)
Theorem one_reply_each uri data body w w' :
  dispatch answer uri data body w = (Ok (), w') →
  (uri ∈ [bytes "/api/r3/start"; bytes "/api/r3/stop"; bytes "/api/r3/create"] →
     ∃ r, replies w' = replies w ++ [r]) ∧
  (uri = bytes "/api/r3/delete" → replies w' = replies w).
Proof.
  assert (replies_one (start_record answer data body)) as Hstart.
  { unfold start_record. repeat case_match; try apply replies_one_send.
    repeat (apply replies_one_bind; [by (apply quiet_string || apply quiet_put_data)|intros ?]).
    case_match; apply replies_one_send. }
  assert (replies_one (stop_record answer data body)) as Hstop.
  { unfold stop_record. repeat case_match; try apply replies_one_send.
    repeat (apply replies_one_bind; [by (apply quiet_string || apply quiet_kill)|intros ?]).
    case_match; apply replies_one_send. }
  assert (replies_one (create_record answer data body)) as Hcreate.
  { unfold create_record. repeat case_match; try apply replies_one_send.
    repeat (apply replies_one_bind; [by (apply quiet_string || apply quiet_create)|intros ?]).
    repeat case_match; apply replies_one_send. }
  intros Hr. split.
  - rewrite !elem_of_cons, elem_of_nil. intros [-> |[-> |[-> |[]]]];
      [by apply Hstart|by apply Hstop|by apply Hcreate].
  - intros ->. by injection Hr as <-.
Qed.
End theorems.
