(* ===== verification/ProcessThreads.v ===== *)
(** * src/app: the recorder's three threads and its signal handler.

    ProcessManager and RecordControl give each operation as one computation.
    Here the same operations are sequences of actions between which the other
    threads may run: a system call, a driver call (with the opening of its
    collection), an access to the queue, the sending of a reply.  [run] turns
    them back into the computations. *)

From S2P Require Import Prelude PString PConf MongoAdaptor ProcessManager RecordControl.

Local Open Scope Z_scope.

Section threads.
Context `{Mongo, Jsoncpp}.
Context (answer : nat → syscall → Z).

(** ** Sequences of actions *)

Inductive T (A : Type) : Type :=
  | TRet (a : A)
  | TDo {B : Type} (m : P B) (k : B → T A).
#[global] Arguments TRet {A} a.
#[global] Arguments TDo {A B} m k.

Fixpoint T_then {A B} (k : A → T B) (t : T A) : T B :=
  match t with
  | TRet a => k a
  | TDo m f => TDo m (λ b, T_then k (f b))
  end.
#[global] Instance T_ret : MRet T := @TRet.
#[global] Instance T_bind : MBind T := @T_then.

Definition act {B} (m : P B) : T B := TDo m TRet.

(** All actions in a row. *)
Fixpoint run {A} (t : T A) : P A :=
  match t with
  | TRet a => mret a
  | TDo m k => m ≫= λ b, run (k b)
  end.

(** ** The process manager's operations *)

Definition insert_document (info : process_info) (pid ppid : Z) : P Z :=
  collection ← process_collection;
  ok ← on_server DbInsert (MongoAdaptor.insert collection (process_document info pid ppid));
  mret (if (ok : bool) then REC_ERROR_OK else REC_ERROR_MONGODB).

Definition add_process_to_cache_t (info : process_info) : T Z :=
  pid ← act (of_option (pid info));
  ppid ← act (sys answer Getpid);
  act (insert_document info pid ppid).

Fixpoint mkdir_prefixes_t (str : list ascii) (i : nat) (rest : list ascii) : T () :=
  match rest with
  | [] => mret ()
  | c :: rest' =>
      (if decide (c = "/"%char) then
         a ← act (sys answer (Access (take i str)));
         if negb (a =? 0) then act (sys answer (Mkdir (take i str)));; mret () else mret ()
       else mret ());;
      mkdir_prefixes_t str (S i) rest'
  end.

Definition multi_mkdir_t (dir : list ascii) : T () :=
  let str := c_str dir in
  if decide (512 ≤ length str)%nat then act crash else
  mkdir_prefixes_t str 0 str;;
  if decide (0 < length str)%nat then
    a ← act (sys answer (Access str));
    if negb (a =? 0) then act (sys answer (Mkdir str));; mret () else mret ()
  else mret ().

Definition create_m3u8_t (param : m3u8_param) : T (Z * m3u8_param) :=
  d ← act (sys answer (Opendir (c_str (path param))));
  (if d =? 0 then multi_mkdir_t (c_str (path param)) else mret ());;
  t ← act (sys answer Time);
  let tmp := m3u8_name param t in
  fd ← act (sys answer (Open tmp));
  if fd <? 0 then mret (REC_ERROR_CREATE_M3U8_FILE, param) else
  act (sys answer (Chmod tmp));;
  act (sys answer (Close fd));;
  mret (REC_ERROR_OK, mk_m3u8_param (path param) (m3u8_sid param) tmp).

Definition execl_t (cmd : list ascii) : T Z := act (execl answer cmd).

Definition spawn_process_t (param : process_info) : T (Z * process_info) :=
  found ← act (is_process_exist (sid param));
  if (found : bool) then mret (REC_ERROR_STREAM_EXIST, param) else
  '(ret, m3u8) ← create_m3u8_t (mk_m3u8_param (m3u8_path param) (sid param) []);
  if negb (ret =? REC_ERROR_OK) then mret (ret, param) else
  pid ← act (sys answer Fork);
  if pid <? 0 then mret (REC_ERROR_FORK_FAILED, param)
  else if 0 <? pid then
    let param := set_m3u8_path (file_path m3u8) (set_pid pid param) in
    add_process_to_cache_t param;;
    mret (REC_ERROR_OK, param)
  else
    execl_t (spawn_cmd (src_url param) (file_path m3u8));;
    mret (REC_ERROR_OK, param).

Definition kill_process_t (info : process_info) : T Z :=
  p ← act (get_process_info (sid info));
  match p with
  | None => mret REC_ERROR_STREAM_NOT_EXIST
  | Some process =>
      act (remove_process_by_stream (sid process));;
      pid ← act (of_option (pid process));
      act (sys answer (Kill pid SIGINT));;
      mret REC_ERROR_OK
  end.

Definition re_create_process_t (param : process_info) : T (Z * process_info) :=
  pid ← act (sys answer Fork);
  if pid <? 0 then mret (REC_ERROR_FORK_FAILED, param)
  else if 0 <? pid then
    let param := set_pid pid param in
    act (update_process_info param);;
    mret (REC_ERROR_OK, param)
  else
    execl_t (reload_cmd (src_url param) (m3u8_path param));;
    mret (REC_ERROR_OK, param).

Definition process_reload_t (info : process_info) : T (Z * process_info) :=
  '(_, info) ← re_create_process_t info;
  mret (REC_ERROR_OK, info).

Definition send_message_t (pid : Z) : T Z :=
  '(found, info) ← act (is_process_exist_pid pid empty_process_info);
  (if (found : bool) then process_reload_t info;; mret () else mret ());;
  mret REC_ERROR_OK.

Fixpoint sig_reap_chld_t (reaped : list Z) : T () :=
  match reaped with
  | [] => mret ()
  | pid :: reaped' => send_message_t pid;; sig_reap_chld_t reaped'
  end.

Definition put_data_t (param : process_info) : T Z :=
  act (sys answer MutexLock);;
  act (upd (λ w, set_queue (queue w ++ [param]) w));;
  act (sys answer MutexUnlock);;
  mret REC_ERROR_OK.

Definition process_queue_step_t : T bool :=
  qu ← act (read queue);
  match qu with
  | [] => mret false
  | e :: _ =>
      spawn_process_t e;;
      act (upd (λ w, set_queue (tail (queue w)) w));;
      mret true
  end.

Definition check_system_process_exist_t (pid : Z) : T bool :=
  ret ← act (sys answer (Kill pid 0));
  mret (0 =? ret).

(** The query of [find_orphan_process] and the loop over its answer. *)
Definition find_not_ppid (self : Z) (process_vec : list process_info)
    : P (Z * list process_info) :=
  collection ← process_collection;
  s ← read srv;
  let '(ret, vec) := MongoAdaptor.find collection (query_not_ppid self) s in
  orphans ← collect_orphans self vec empty_process_info process_vec;
  mret (ret, orphans).

Definition find_orphan_process_t (process_vec : list process_info)
    : T (Z * list process_info) :=
  self ← act (sys answer Getpid);
  act (find_not_ppid self process_vec).

Fixpoint sync_orphans_t (orphans : list process_info) : T () :=
  match orphans with
  | [] => mret ()
  | o :: orphans' =>
      opid ← act (of_option (pid o));
      alive ← check_system_process_exist_t opid;
      (if (alive : bool) then mret () else
         '(found, info) ← act (is_process_exist_pid opid empty_process_info);
         if (found : bool) then process_reload_t info;; mret () else mret ());;
      sync_orphans_t orphans'
  end.

Definition orphan_process_sync_t : T Z :=
  '(ret, orphans) ← find_orphan_process_t [];
  sync_orphans_t orphans;;
  mret ret.

(** ** The HTTP handlers *)

Definition send_reply_t (r : reply) : T () := act (send_reply r).
Definition string_of_t (root : jvalue) (k : list ascii) : T (list ascii) := act (string_of root k).

Definition create_record_t (data : app_data) (body : option (list ascii)) : T () :=
  match body with
  | None => send_reply_t reply_body_null
  | Some body =>
      match reader_parse body with
      | None => send_reply_t (reply_no_match 0)
      | Some root =>
          path ← string_of_t root (bytes "path");
          let path := parent_path path in
          sid ← string_of_t root (bytes "streamcode");
          let tmp := (vsnprintf 256 (c_str (app_root_path data) ++ c_str path ++ bytes "/")).1 in
          '(ret, param) ← create_m3u8_t (mk_m3u8_param tmp sid []);
          if ret =? REC_ERROR_CREATE_M3U8_FILE
          then send_reply_t (mk_reply 400 (bytes "paramter not match") (create_failed_body (dec ret)))
          else send_reply_t (mk_reply HTTP_OK (bytes "OK") (create_body (c_str (file_path param))))
      end
  end.

Definition remove_record_t (data : app_data) (body : option (list ascii)) : T () := mret ().

Definition start_record_t (data : app_data) (body : option (list ascii)) : T () :=
  match body with
  | None => send_reply_t reply_body_null
  | Some body =>
      match reader_parse body with
      | None => send_reply_t (reply_no_match 0)
      | Some root =>
          src ← string_of_t root (bytes "src");
          path ← string_of_t root (bytes "path");
          let tmp := (vsnprintf 256 (c_str (app_root_path data) ++ c_str path)).1 in
          sid ← string_of_t root (bytes "streamcode");
          type ← string_of_t root (bytes "type");
          let cmd_param := mk_process_info sid None None src tmp type (bytes "active")
                             (c_str (app_host data)) in
          ret ← put_data_t cmd_param;
          if ret =? REC_ERROR_STREAM_EXIST then send_reply_t (reply_stream_exist ret)
          else send_reply_t reply_ok
      end
  end.

Definition stop_record_t (data : app_data) (body : option (list ascii)) : T () :=
  match body with
  | None => send_reply_t reply_body_null
  | Some body =>
      match reader_parse body with
      | None => send_reply_t (reply_no_match 0)
      | Some root =>
          src ← string_of_t root (bytes "src");
          sid ← string_of_t root (bytes "streamcode");
          let cmd_param := mk_process_info sid None None src [] [] [] [] in
          ret ← kill_process_t cmd_param;
          if ret =? REC_ERROR_STREAM_NOT_EXIST then send_reply_t (reply_not_exist ret)
          else send_reply_t reply_ok
      end
  end.

Definition routes_t : list (list ascii * (app_data → option (list ascii) → T ())) :=
  [ (bytes "/api/r3/start", start_record_t);
    (bytes "/api/r3/stop", stop_record_t);
    (bytes "/api/r3/create", create_record_t);
    (bytes "/api/r3/delete", remove_record_t) ].

Definition dispatch_t (uri : list ascii) (data : app_data) (body : option (list ascii)) : T () :=
  match list_find (λ r, r.1 = uri) routes_t with
  | Some (_, r) => r.2 data body
  | None => mret ()
  end.

(** ** The system *)

Inductive who := Http | Queue | Monitor.
#[global] Instance who_eq_dec : EqDecision who.
Proof. solve_decision. Defined.

(** A thread is at [task]; while a signal handler runs on top of it the task
    waits. *)
Record thread := mk_thread { task : T (); handler : option (T ()) }.

Definition idle : thread := mk_thread (TRet ()) None.

(** The memory, the database and the kernel's answers are shared. *)
Record proc := mk_proc {
  mem : world;
  http_thread : thread;
  queue_thread : thread;
  monitor_thread : thread }.

Definition thread_of (s : proc) (i : who) : thread :=
  match i with Http => http_thread s | Queue => queue_thread s | Monitor => monitor_thread s end.

(** Thread [i] is now [t] and the memory [w]. *)
Definition set_proc (i : who) (t : thread) (w : world) (s : proc) : proc :=
  match i with
  | Http => mk_proc w t (queue_thread s) (monitor_thread s)
  | Queue => mk_proc w (http_thread s) t (monitor_thread s)
  | Monitor => mk_proc w (http_thread s) (queue_thread s) t
  end.

(** What an idle thread starts with: a request that arrives ([arrives] says
    which may), the next turn of [process_queue]'s loop, the next round of
    [monitor]'s. *)
Inductive starts (arrives : list ascii → app_data → option (list ascii) → Prop)
    : who → T () → Prop :=
  | starts_http uri data body : arrives uri data body → starts arrives Http (dispatch_t uri data body)
  | starts_queue : starts arrives Queue (process_queue_step_t;; mret ())
  | starts_monitor : starts arrives Monitor (orphan_process_sync_t;; mret ()).

(** One action of a sequence. *)
Inductive tstep {A} : T A → world → T A → world → Prop :=
  | tstep_do {B} (m : P B) k w b w' : m w = (Ok b, w') → tstep (TDo m k) w (k b) w'.

(** One step of the process.  SIGCHLD is delivered to a thread that is not
    already in the handler, which serves the children [waitpid] reports. *)
Inductive pstep (arrives : list ascii → app_data → option (list ascii) → Prop) (s : proc)
    : proc → Prop :=
  | pstep_start i t : thread_of s i = idle → starts arrives i t →
      pstep arrives s (set_proc i (mk_thread t None) (mem s) s)
  | pstep_task i t t' w' : thread_of s i = mk_thread t None → tstep t (mem s) t' w' →
      pstep arrives s (set_proc i (mk_thread t' None) w' s)
  | pstep_signal i t pids : thread_of s i = mk_thread t None →
      pstep arrives s (set_proc i (mk_thread t (Some (sig_reap_chld_t pids))) (mem s) s)
  | pstep_handler i t h h' w' : thread_of s i = mk_thread t (Some h) → tstep h (mem s) h' w' →
      pstep arrives s (set_proc i (mk_thread t (Some h')) w' s)
  | pstep_return i t : thread_of s i = mk_thread t (Some (TRet ())) →
      pstep arrives s (set_proc i (mk_thread t None) (mem s) s).

Definition at_rest (w : world) : proc := mk_proc w idle idle idle.
End threads.
