(* ===== verification/ProcessThreadsProofs.v ===== *)
(** * src/app: the actions of a thread in a row are the sequential operation;
    rely-guarantee reasoning about threads that take turns. *)

From stdpp Require Import relations.
From S2P Require Import Prelude PString PConf MongoAdaptor ProcessManager RecordControl.
From S2P Require Import ProcessProofs ProcessTheorems ProcessThreads.

Local Open Scope Z_scope.

(** ** Computations up to pointwise equality *)

Section run.
Context `{Mongo, Jsoncpp}.
Context (answer : nat → syscall → Z).

Definition same {A} (m m' : P A) : Prop := ∀ w, m w = m' w.

#[global] Instance same_equiv {A} : Equivalence (@same A).
Proof.
  split; [by intros m w|by intros m m' E w; rewrite E|].
  intros m1 m2 m3 E1 E2 w. by rewrite E1, E2.
Qed.

Lemma same_bind {A B} (m m' : P A) (k k' : A → P B) :
  same m m' → (∀ a, same (k a) (k' a)) → same (m ≫= k) (m' ≫= k').
Proof.
  intros Em Ek w. unfold mbind, P_bind. rewrite Em. destruct (m' w) as [[a| |] w']; [apply Ek|done..].
Qed.

Lemma same_ret_bind {A B} (a : A) (k : A → P B) : same (mret a ≫= k) (k a).
Proof. done. Qed.
Lemma same_bind_ret {A} (m : P A) : same (m ≫= mret) m.
Proof. intros w. unfold mbind, P_bind. by destruct (m w) as [[a| |] w']. Qed.
Lemma same_assoc {A B C} (m : P A) (k : A → P B) (l : B → P C) :
  same ((m ≫= k) ≫= l) (m ≫= λ a, k a ≫= l).
Proof. intros w. unfold mbind, P_bind. by destruct (m w) as [[a| |] w']. Qed.

(** [run] is a monad morphism. *)
Lemma run_then {A B} (t : T A) (k : A → T B) : same (run (t ≫= k)) (run t ≫= λ a, run (k a)).
Proof.
  induction t as [a|D m f IH]; [done|].
  change (run (TDo m f ≫= k)) with (m ≫= λ b, run (f b ≫= k)). simpl run.
  rewrite same_assoc. apply same_bind; [done|]. intros b. apply IH.
Qed.
Lemma run_act {B} (m : P B) : same (run (act m)) m.
Proof. apply same_bind_ret. Qed.

(** [t] is [m], action by action. *)
Definition runs {A} (t : T A) (m : P A) : Prop := same (run t) m.

Lemma runs_ret {A} (a : A) : runs (mret a) (mret a).
Proof. done. Qed.
Lemma runs_act {B} (m : P B) : runs (act m) m.
Proof. apply run_act. Qed.
Lemma runs_bind {A B} (t : T A) (m : P A) (k : A → T B) (l : A → P B) :
  runs t m → (∀ a, runs (k a) (l a)) → runs (t ≫= k) (m ≫= l).
Proof. intros Ht Hk. unfold runs. rewrite run_then. by apply same_bind. Qed.
End run.

Create HintDb runs discriminated.
#[export] Hint Resolve runs_ret runs_act : runs.

(** Matches two programs of the same shape. *)
Ltac runs :=
  repeat first
    [ solve [auto with runs]
    | lazymatch goal with |- runs (mbind _ _) (mbind _ _) => apply runs_bind; [|intros ?] end
    | case_match ].

Section operations.
Context `{Mongo, Jsoncpp}.
Context (answer : nat → syscall → Z).

Lemma runs_add info : runs (add_process_to_cache_t answer info) (add_process_to_cache answer info).
Proof.
  intros w. unfold add_process_to_cache_t, add_process_to_cache, insert_document, process_collection.
  destruct (pid info); [|done]. simpl. unfold mbind, P_bind, on_server. simpl.
  by destruct (MongoAdaptor.insert _ _ _).
Qed.

Lemma runs_mkdir_prefixes str rest : ∀ i,
  runs (mkdir_prefixes_t answer str i rest) (mkdir_prefixes answer str i rest).
Proof. induction rest as [|c rest IH]; intros i; cbn [mkdir_prefixes_t mkdir_prefixes]; runs. Qed.
#[local] Hint Resolve runs_mkdir_prefixes runs_add : runs.

Lemma runs_create_m3u8 p : runs (create_m3u8_t answer p) (create_m3u8 answer p).
Proof. unfold create_m3u8_t, create_m3u8, multi_mkdir_t, multi_mkdir. runs. Qed.
#[local] Hint Resolve runs_create_m3u8 : runs.

Lemma runs_spawn p : runs (spawn_process_t answer p) (spawn_process answer p).
Proof. unfold spawn_process_t, spawn_process, execl_t. runs. Qed.
#[local] Hint Resolve runs_spawn : runs.

Lemma runs_kill p : runs (kill_process_t answer p) (kill_process answer p).
Proof. unfold kill_process_t, kill_process. runs. Qed.
Lemma runs_reload p : runs (process_reload_t answer p) (process_reload answer p).
Proof. unfold process_reload_t, process_reload, re_create_process_t, re_create_process, execl_t. runs. Qed.
#[local] Hint Resolve runs_kill runs_reload : runs.

Lemma runs_reap pids : runs (sig_reap_chld_t answer pids) (sig_reap_chld answer pids).
Proof.
  induction pids as [|p pids IH]; [apply runs_ret|]. cbn [sig_reap_chld_t sig_reap_chld].
  unfold send_message_t, send_message. runs.
Qed.

Lemma runs_queue_step : runs (process_queue_step_t answer) (process_queue_step answer).
Proof. unfold process_queue_step_t, process_queue_step. runs. Qed.

Lemma runs_find_orphan v : runs (find_orphan_process_t answer v) (find_orphan_process answer v).
Proof.
  intros w. unfold find_orphan_process_t, find_orphan_process, find_not_ppid. simpl.
  unfold process_collection, sys. cbv [mbind T_bind P_bind read mret P_ret]. simpl.
  unfold mbind, P_bind.
  destruct (MongoAdaptor.find _ _ _) as [ret vec].
  by destruct (collect_orphans _ vec _ v _) as [[o| |] w'].
Qed.

Lemma runs_sync orphans : runs (sync_orphans_t answer orphans) (sync_orphans answer orphans).
Proof.
  induction orphans as [|o orphans IH]; [apply runs_ret|]. cbn [sync_orphans_t sync_orphans].
  unfold check_system_process_exist_t, check_system_process_exist. runs.
Qed.
#[local] Hint Resolve runs_find_orphan runs_sync : runs.

Lemma runs_orphan_sync : runs (orphan_process_sync_t answer) (orphan_process_sync answer).
Proof. unfold orphan_process_sync_t, orphan_process_sync. runs. Qed.

Lemma runs_dispatch uri data body :
  runs (dispatch_t answer uri data body) (dispatch answer uri data body).
Proof.
  unfold dispatch_t, dispatch, routes_t, routes. cbn [list_find fst snd].
  repeat (case_decide; cbn [fmap option_fmap option_map prod_map id fst snd]);
    unfold start_record_t, start_record, stop_record_t, stop_record, create_record_t, create_record,
      remove_record_t, remove_record, send_reply_t, string_of_t, put_data_t, put_data; runs.
Qed.
End operations.

#[export] Hint Resolve runs_reap runs_queue_step runs_orphan_sync runs_dispatch : runs.

(** ** The sequential steps are runs of the threads *)

Section system.
Context `{Mongo, Jsoncpp}.
Context (answer : nat → syscall → Z).
Context (arrives : list ascii → app_data → option (list ascii) → Prop).

Abbreviation pstep := (pstep answer arrives).

Lemma set_proc_set i t w t' w' s : set_proc i t w (set_proc i t' w' s) = set_proc i t w s.
Proof. by destruct i. Qed.
Lemma mem_set_proc i t w s : mem (set_proc i t w s) = w.
Proof. by destruct i. Qed.
Lemma thread_of_set i t w s : thread_of (set_proc i t w s) i = t.
Proof. by destruct i. Qed.
Lemma thread_of_set_ne i j t w s : i ≠ j → thread_of (set_proc i t w s) j = thread_of s j.
Proof. by destruct i, j. Qed.

(** Actions nobody interrupts. *)
Definition tsteps {A} (t : T A) (w : world) (t' : T A) (w' : world) : Prop :=
  rtc (λ x y : T A * world, tstep x.1 x.2 y.1 y.2) (t, w) (t', w').

Lemma run_tsteps {A} (t : T A) w a w' : run t w = (Ok a, w') → tsteps t w (TRet a) w'.
Proof.
  revert w. induction t as [b|B m k IH]; intros w; simpl.
  - intros [= <- <-]. apply rtc_refl.
  - unfold mbind, P_bind. destruct (m w) as [[b| |] w1] eqn:E; try done. intros Hr.
    eapply rtc_l; [|by apply IH]. by constructor.
Qed.

Lemma runs_tsteps {A} (t : T A) m w a w' : runs t m → m w = (Ok a, w') → tsteps t w (TRet a) w'.
Proof. intros Ht E. apply run_tsteps. by rewrite (Ht w). Qed.

Lemma act_tsteps {B} (m : P B) w b w' : m w = (Ok b, w') → tsteps (act m) w (TRet b) w'.
Proof. apply runs_tsteps, runs_act. Qed.

Lemma tsteps_trans {A} (t1 t2 t3 : T A) w1 w2 w3 :
  tsteps t1 w1 t2 w2 → tsteps t2 w2 t3 w3 → tsteps t1 w1 t3 w3.
Proof. unfold tsteps. by etrans. Qed.

Lemma tsteps_then {A B} (f : A → T B) (t t' : T A) w w' :
  tsteps t w t' w' → tsteps (t ≫= f) w (t' ≫= f) w'.
Proof.
  apply (rtc_congruence (λ x : T A * world, (x.1 ≫= f, x.2))).
  intros [t1 w1] [t2 w2] Hs. simpl in *. destruct Hs as [D m k w1 b w2 E].
  exact (tstep_do m (λ b, k b ≫= f) w1 b w2 E).
Qed.

(** The first part of a sequence has been done. *)
Lemma tsteps_bind {A B} (f : A → T B) (t : T A) w a w' :
  tsteps t w (TRet a) w' → tsteps (t ≫= f) w (f a) w'.
Proof. apply (tsteps_then f). Qed.

Lemma task_tsteps i t t' w w' s :
  tsteps t w t' w' →
  rtc pstep (set_proc i (mk_thread t None) w s) (set_proc i (mk_thread t' None) w' s).
Proof.
  intros Hr.
  apply (rtc_congruence (λ x, set_proc i (mk_thread x.1 None) x.2 s) pstep) in Hr; [done|].
  intros [t1 w1] [t2 w2] Hs. simpl in *.
  rewrite <- (set_proc_set i _ w2 (mk_thread t1 None) w1).
  apply pstep_task with t1; [by rewrite thread_of_set|by rewrite mem_set_proc].
Qed.

Lemma handler_tsteps i t h h' w w' s :
  tsteps h w h' w' →
  rtc pstep (set_proc i (mk_thread t (Some h)) w s) (set_proc i (mk_thread t (Some h')) w' s).
Proof.
  intros Hr.
  apply (rtc_congruence (λ x, set_proc i (mk_thread t (Some x.1)) x.2 s) pstep) in Hr; [done|].
  intros [t1 w1] [t2 w2] Hs. simpl in *.
  rewrite <- (set_proc_set i _ w2 (mk_thread t (Some t1)) w1).
  apply pstep_handler with t1; [by rewrite thread_of_set|by rewrite mem_set_proc].
Qed.

(** An idle thread does one whole operation. *)
Lemma whole_task i t w w' :
  starts answer arrives i t → run t w = (Ok (), w') → rtc pstep (at_rest w) (at_rest w').
Proof.
  intros Ht Hr. eapply rtc_l; [apply (pstep_start _ _ (at_rest w) i t); [by destruct i|done]|].
  etrans; [by apply task_tsteps, run_tsteps|]. destruct i; apply rtc_refl.
Qed.

(** A thread handles a whole signal. *)
Lemma whole_signal i t pids w w' s :
  thread_of s i = mk_thread t None → run (sig_reap_chld_t answer pids) w = (Ok (), w') → mem s = w →
  rtc pstep s (set_proc i (mk_thread t None) w' s).
Proof.
  intros Ht Hr <-. eapply rtc_l; [by apply (pstep_signal _ _ s i t pids)|].
  etrans; [by apply handler_tsteps, run_tsteps|]. apply rtc_once.
  rewrite <- (set_proc_set i (mk_thread t None) w' (mk_thread t (Some (TRet ()))) w').
  rewrite <- (mem_set_proc i (mk_thread t (Some (TRet ()))) w' s) at 2.
  apply pstep_return. by rewrite thread_of_set.
Qed.
End system.

(** ** Rely and guarantee *)

Section rely.
Context `{Mongo, Jsoncpp}.

(** [Inv] holds between any two actions; the others' actions are in [R], one's
    own in [G]; [C] says whether a crash is tolerated. *)
Context (Inv : world → Prop) (C : Prop).

Section agent.
Context (R G : relation world).

Definition atom {B} (m : P B) (Q : B → world → Prop) (w : world) : Prop :=
  ∀ w1, Inv w1 → R w w1 →
  match m w1 with
  | (Ok b, w2) => Inv w2 ∧ G w1 w2 ∧ Q b w2
  | (Replaced, _) => True
  | (Crash, _) => C
  end.

Fixpoint ok {A} (Q : A → world → Prop) (t : T A) (w : world) : Prop :=
  match t with
  | TRet a => ∀ w1, Inv w1 → R w w1 → Q a w1
  | TDo m k => atom m (λ b, ok Q (k b)) w
  end.

Context `{!PreOrder R}.

Lemma ok_rely {A} (Q : A → world → Prop) t w w1 : R w w1 → ok Q t w → ok Q t w1.
Proof using Type*.
  intros Hw. destruct t as [a|B m k]; simpl; unfold atom; intros Hk w2 Hi2 HR; apply Hk; try done;
    by etrans.
Qed.

Lemma ok_ret {A} (Q : A → world → Prop) a w :
  (∀ w1, Inv w1 → R w w1 → Q a w1) → ok Q (mret a) w.
Proof. done. Qed.

Lemma ok_bind {A B} (Q : A → world → Prop) (Q' : B → world → Prop) (t : T A) (k : A → T B) w :
  ok Q t w → (∀ a w1, Inv w1 → Q a w1 → ok Q' (k a) w1) → ok Q' (t ≫= k) w.
Proof using Type*.
  intros Ht Hk. revert w Ht. induction t as [a|D m f IH]; intros w; simpl.
  - intros Hq. change (ok Q' (k a) w). destruct (k a) as [b|E m g] eqn:Ek; simpl;
      [|unfold atom]; intros w1 Hi1 HR.
    + pose proof (Hk a w1 Hi1 (Hq w1 Hi1 HR)) as Ho. rewrite Ek in Ho. by apply Ho.
    + pose proof (Hk a w1 Hi1 (Hq w1 Hi1 HR)) as Ho. rewrite Ek in Ho. by apply Ho.
  - intros Hm w1 Hi1 HR. specialize (Hm w1 Hi1 HR).
    destruct (m w1) as [[b| |] w2]; [|done..]. destruct Hm as (?&?&?).
    split_and!; [done..|]. by apply IH.
Qed.

Lemma ok_act {B} (m : P B) (Q : B → world → Prop) w :
  (∀ b w1 w2, Q b w1 → R w1 w2 → Q b w2) → atom m Q w → ok Q (act m) w.
Proof.
  intros Hst Hm w1 Hi1 HR. specialize (Hm w1 Hi1 HR).
  destruct (m w1) as [[b| |] w2]; [|done..]. destruct Hm as (?&?&?).
  split_and!; [done..|]. intros w3 _ Hi3. by eapply Hst.
Qed.

Lemma ok_mono {A} (Q Q' : A → world → Prop) t w :
  (∀ a w, Q a w → Q' a w) → ok Q t w → ok Q' t w.
Proof.
  intros HQ. revert w. induction t as [a|B m k IH]; intros w; simpl.
  - eauto.
  - intros Hm w1 Hi1 HR. specialize (Hm w1 Hi1 HR).
    destruct (m w1) as [[b| |] w2]; [|done..]. destruct Hm as (?&?&?).
    split_and!; [done..|]. by apply IH.
Qed.
End agent.

(** Sequences whose actions are fine one by one. *)
Fixpoint atoms {A} (F : ∀ B, P B → Prop) (t : T A) : Prop :=
  match t with
  | TRet _ => True
  | TDo m k => F _ m ∧ ∀ b w w', m w = (Ok b, w') → atoms F (k b)
  end.

Lemma atoms_ret {A} (F : ∀ B, P B → Prop) (a : A) : atoms F (mret a).
Proof. done. Qed.
Lemma atoms_act {B} (F : ∀ B, P B → Prop) (m : P B) : F _ m → atoms F (act m).
Proof. by split. Qed.
Lemma atoms_bind {A B} (F : ∀ B, P B → Prop) (t : T A) (k : A → T B) :
  atoms F t → (∀ a, atoms F (k a)) → atoms F (t ≫= k).
Proof. induction t as [a|D m f IH]; [eauto|]. intros [Hm Hf] Hk. split; [done|]. intros b w w' E. by eapply IH, Hk; eapply Hf. Qed.
Lemma atoms_sys_bind {B} answer (F : ∀ B, P B → Prop) c (k : Z → T B) :
  F _ (sys answer c) → (∀ n, atoms F (k (answer n c))) → atoms F (act (sys answer c) ≫= k).
Proof. intros Hm Hk. split; [done|]. intros b w w' [= <- <-]. apply Hk. Qed.

(** An action that keeps the invariant and the guarantee, and a fact [I] of its thread. *)
Definition action (G : relation world) (I : world → Prop) (B : Type) (m : P B) : Prop :=
  ∀ w, Inv w → I w →
  match m w with
  | (Ok _, w') => Inv w' ∧ G w w' ∧ I w'
  | (Replaced, _) => True
  | (Crash, _) => C
  end.

Lemma ok_actions {A} R G (I : world → Prop) (t : T A) w :
  (∀ w w', Inv w' → I w → R w w' → I w') → atoms (action G I) t → I w →
  ok R G (λ _, I) t w.
Proof.
  intros HI. revert w. induction t as [a|B m k IH]; intros w; simpl; [eauto|].
  intros [Hm Hk] Hw w1 Hi1 HR. specialize (Hm w1 Hi1 (HI _ _ Hi1 Hw HR)).
  destruct (m w1) as [[b| |] w2] eqn:E; [|done..]. destruct Hm as (?&?&?).
  split_and!; [done..|]. apply IH; [by eapply Hk|done].
Qed.

(** ** Composition *)

(** An agent is a thread at its task or in its handler. *)
Inductive agent := Task (i : who) | Handler (i : who).

#[global] Instance agent_eq_dec : EqDecision agent.
Proof. solve_decision. Defined.

Context (answer : nat → syscall → Z).
Context (arrives : list ascii → app_data → option (list ascii) → Prop).
Context (R G : agent → relation world).
Context `{!∀ a, PreOrder (R a)}.
Context (HGR : ∀ a b w w', a ≠ b → Inv w → Inv w' → G a w w' → R b w w').

Definition done_ok {A} (a : A) (w : world) : Prop := True.

Definition agent_ok (a : agent) : T () → world → Prop := ok (R a) (G a) done_ok.

Lemma agent_ok_rely a t w w' : R a w w' → agent_ok a t w → agent_ok a t w'.
Proof using Type*. apply ok_rely, _. Qed.

Context (Hstart : ∀ i t w, Inv w → starts answer arrives i t → agent_ok (Task i) t w).
Context (Hsignal : ∀ i pids w, Inv w → agent_ok (Handler i) (sig_reap_chld_t answer pids) w).

Definition thread_ok (i : who) (t : thread) (w : world) : Prop :=
  agent_ok (Task i) (task t) w ∧
  match handler t with Some h => agent_ok (Handler i) h w | None => True end.

Definition sys_ok (s : proc) : Prop :=
  Inv (mem s) ∧ ∀ i, thread_ok i (thread_of s i) (mem s).

Lemma at_rest_ok w : Inv w → sys_ok (at_rest w).
Proof. intros Hw. split; [done|]. intros []; by split. Qed.

(** What thread [i] knows survives an action of another agent. *)
Lemma thread_ok_other a i t w w' :
  a ≠ Task i → a ≠ Handler i → Inv w → Inv w' → G a w w' → thread_ok i t w → thread_ok i t w'.
Proof using Type*.
  intros Hi1 Hi2 Hw Hw' HG [Ht Hh]. split.
  - apply (agent_ok_rely _ _ w); [by apply (HGR a)|done].
  - destruct (handler t); [|done]. apply (agent_ok_rely _ _ w); [by apply (HGR a)|done].
Qed.

Lemma sys_ok_set s i t w' a :
  a = Task i ∨ a = Handler i → sys_ok s → Inv w' → G a (mem s) w' → thread_ok i t w' →
  sys_ok (set_proc i t w' s).
Proof using Type*.
  intros Ha [Hm Hts] Hw' HG Ht. split; [by rewrite mem_set_proc|]. rewrite mem_set_proc.
  intros j. destruct (decide (i = j)) as [<-|Hne]; [by rewrite thread_of_set|].
  rewrite thread_of_set_ne by done.
  apply (thread_ok_other a j _ (mem s)); auto; destruct Ha as [-> | ->]; congruence.
Qed.

Lemma sys_ok_swap s i t : sys_ok s → thread_ok i t (mem s) → sys_ok (set_proc i t (mem s) s).
Proof.
  intros [Hm Hts] Ht. split; [by rewrite mem_set_proc|]. rewrite mem_set_proc.
  intros j. destruct (decide (i = j)) as [<-|Hne]; [by rewrite thread_of_set|].
  by rewrite thread_of_set_ne by done.
Qed.

Lemma agent_ok_step a t w t' w' :
  Inv w → agent_ok a t w → tstep t w t' w' → Inv w' ∧ G a w w' ∧ agent_ok a t' w'.
Proof using Type*.
  intros Hw Ht Hs. destruct Hs as [B m k w b w' E]. specialize (Ht w Hw (reflexivity w)).
  by rewrite E in Ht.
Qed.

(** The invariant and everything the threads know hold after every step. *)
Lemma sys_ok_step s s' : pstep answer arrives s s' → sys_ok s → sys_ok s'.
Proof using Type*.
  intros Hst Hok. pose proof Hok as [Hm Hts].
  destruct Hst as [i t Hi Ht|i t t' w' Hi Hs|i t pids Hi|i t h h' w' Hi Hs|i t Hi];
    pose proof (Hts i) as Ho; rewrite Hi in Ho; destruct Ho as [Ho Hh]; simpl in *.
  - apply sys_ok_swap; [done|]. split; [by apply Hstart|done].
  - destruct (agent_ok_step _ _ _ _ _ Hm Ho Hs) as (HI&HG&Ho').
    apply (sys_ok_set _ _ _ _ (Task i)); auto. split; [exact Ho'|done].
  - apply sys_ok_swap; [done|]. split; [exact Ho|]. by apply Hsignal.
  - destruct (agent_ok_step _ _ _ _ _ Hm Hh Hs) as (HI&HG&Ho').
    apply (sys_ok_set _ _ _ _ (Handler i)); auto. split; [|exact Ho'].
    simpl. apply (agent_ok_rely _ _ (mem s)); [|exact Ho]. by apply (HGR (Handler i)).
  - apply sys_ok_swap; [done|]. by split.
Qed.

Lemma sys_ok_reachable s s' : rtc (pstep answer arrives) s s' → sys_ok s → sys_ok s'.
Proof using Type*. induction 1; eauto using sys_ok_step. Qed.
End rely.

Create HintDb atoms discriminated.
#[export] Hint Resolve atoms_ret : atoms.

(** Splits a sequence into its actions. *)
Ltac atoms :=
  repeat first
    [ solve [auto with atoms]
    | lazymatch goal with
      | |- atoms _ (act (sys _ _) ≫= _) => apply atoms_sys_bind; [solve [auto]|intros ?]
      | |- atoms _ (mbind _ _) => apply atoms_bind; [|intros ?]
      | |- atoms _ (act _) => apply atoms_act
      end
    | case_match ].

Section atoms.
Context `{Mongo, Jsoncpp}.
Context (answer : nat → syscall → Z) (F : ∀ B, P B → Prop) (Hsys : ∀ c, F _ (sys answer c)).

Lemma atoms_sys c : atoms F (act (sys answer c)).
Proof using Hsys. by apply atoms_act. Qed.
#[local] Hint Resolve atoms_sys : atoms.

Lemma atoms_mkdir_prefixes str rest : ∀ i, atoms F (mkdir_prefixes_t answer str i rest).
Proof using Hsys.
  induction rest as [|c rest IH]; intros i; cbn [mkdir_prefixes_t]; atoms.
Qed.

(** [multi_mkdir] crashes on a path that fills its buffer. *)
Lemma atoms_create_m3u8 p :
  F _ (crash : P ()) ∨ (length (c_str (path p)) < 512)%nat → atoms F (create_m3u8_t answer p).
Proof using Hsys.
  intros Hc. pose proof atoms_mkdir_prefixes as Hp. unfold create_m3u8_t, multi_mkdir_t.
  rewrite c_str_idem. atoms. destruct Hc; [done|lia].
Qed.

(** The restart of a process and the handler around it, from their driver
    calls and [fork]. *)
Context (Hexec : ∀ cmd, F _ (execl answer cmd)).
Context (Hupd : ∀ info n, F _ (update_process_info (set_pid (answer n Fork) info))).
Context (Hpid : ∀ p info, F _ (is_process_exist_pid p info)).

Lemma atoms_reload info : atoms F (process_reload_t answer info).
Proof using Hsys Hexec Hupd. unfold process_reload_t, re_create_process_t, execl_t. atoms; auto. Qed.

Lemma atoms_reap pids : atoms F (sig_reap_chld_t answer pids).
Proof using Type*.
  pose proof atoms_reload. induction pids as [|p pids IH]; [done|].
  cbn [sig_reap_chld_t]. unfold send_message_t. atoms; auto.
Qed.
End atoms.
