(* ===== verification/ProcessThreadsTheorems.v ===== *)
(** * src/app: what the recorder's threads preserve however they interleave. *)

From stdpp Require Import relations.
From S2P Require Import Prelude PString PConf MongoAdaptor ProcessManager RecordControl.
From S2P Require Import ProcessProofs ProcessTheorems ProcessThreads ProcessThreadsProofs.

Local Open Scope Z_scope.

Section theorems.
Context `{JsonLaws}.
Context (answer : nat → syscall → Z).

Lemma run_ignored {A} (t : T A) (m : P A) a w w' :
  runs t m → m w = (Ok a, w') → run (t ;; mret ()) w = (Ok (), w').
Proof.
  intros Ht E. pose proof (run_then t (λ _, mret ()) w) as Hb. rewrite Hb.
  unfold mbind, P_bind. by rewrite (Ht w), E.
Qed.

Lemma step_threads w w' :
  step answer w w' → rtc (pstep answer (λ _ _ _, True)) (at_rest w) (at_rest w').
Proof.
  intros [uri data body [] Hs|a Hs|a Hs|pids [] Hs].
  - apply (whole_task _ _ Http (dispatch_t answer uri data body)); [by constructor|].
    by rewrite (runs_dispatch answer uri data body w).
  - eapply (whole_task _ _ Queue); [constructor|]. eapply run_ignored; [apply runs_queue_step|done].
  - eapply (whole_task _ _ Monitor); [constructor|]. eapply run_ignored; [apply runs_orphan_sync|done].
  - apply (whole_signal _ _ Http (TRet ()) pids w w' (at_rest w)); [done| |done].
    by rewrite (runs_reap answer pids w).
Qed.

(** Taking operations as single steps invents nothing: every history of
    whole requests, queue turns, monitor rounds and child deaths is a history
    of the three threads and their signal handlers, whose actions are single
    system calls, driver calls and queue accesses. *)
Theorem threads_refine w w' :
  rtc (step answer) w w' → rtc (pstep answer (λ _ _ _, True)) (at_rest w) (at_rest w').
Proof.
  induction 1 as [|w1 w2 w3 Hs _ IH]; [apply rtc_refl|]. etrans; [by apply step_threads|exact IH].
Qed.

(** ** No stream twice *)

(** Streams disappear from the table, none is added. *)
Definition shrinks (w w' : world) : Prop := sublist (streams (table w')) (streams (table w)).

#[local] Instance shrinks_preorder : PreOrder shrinks.
Proof. unfold shrinks. split; [by intros w|]. intros w1 w2 w3 Hi1 Hi2. by etrans. Qed.

Lemma shrinks_on_table w : on_table (shrinks w).
Proof. intros w1 w2 Hs Hd. unfold shrinks. by rewrite (table_env w1 w2). Qed.

Lemma shrinks_unique w w' : unique_streams w → shrinks w w' → unique_streams w'.
Proof. intros Hu Hs. unfold unique_streams, shrinks in *. by eapply sublist_NoDup. Qed.

(** Who may add one: the queue thread. *)
Definition unique_rely (a : agent) : relation world :=
  match a with Task Queue => shrinks | _ => λ _ _, True end.
Definition unique_guarantee (a : agent) : relation world :=
  match a with Task Queue => λ _ _, True | _ => shrinks end.

#[local] Instance unique_rely_preorder a : PreOrder (unique_rely a).
Proof. destruct a as [[]|]; apply _ || by split. Qed.

Lemma unique_rely_guarantee a b w w' :
  a ≠ b → unique_guarantee a w w' → unique_rely b w w'.
Proof. destruct a as [[]|], b as [[]|]; done. Qed.

Definition shrinking (B : Type) (m : P B) : Prop := ∀ w0, keeps (shrinks w0) m.

Abbreviation unique_ok := (ok unique_streams True).
Abbreviation unique_action := (action unique_streams True).

Lemma shrinking_action B (m : P B) : shrinking B m → unique_action shrinks (λ _, True) B m.
Proof.
  intros Hm w Hu _. destruct (m w) as [[b| |] w'] eqn:E; [|done..].
  pose proof (Hm w w _ _ (reflexivity w) E) as Hs. split_and!; [by eapply shrinks_unique|done..].
Qed.

Lemma atoms_impl {A} (F F' : ∀ B, P B → Prop) (t : T A) :
  (∀ B m, F B m → F' B m) → atoms F t → atoms F' t.
Proof. intros HF. induction t as [a|B m k IH]; [done|]. intros [Hm Hk]. split; [by apply HF|eauto]. Qed.

Lemma shrinking_ok {A} (t : T A) w R :
  PreOrder R → atoms shrinking t → unique_ok R shrinks (λ _ _, True) t w.
Proof.
  intros HR Ht. apply (ok_actions _ _ R shrinks (λ _, True)); [done| |done].
  revert Ht. apply atoms_impl, shrinking_action.
Qed.

Lemma shrinking_remove s : shrinking _ (remove_process_by_stream s).
Proof.
  intros w0 w r w' Hu Hr. unfold remove_process_by_stream, process_collection in Hr.
  cbv [mbind P_bind read mret P_ret on_server] in Hr. fold (handle w) in Hr.
  destruct (MongoAdaptor.remove _ _ _) as [ok s'] eqn:E. injection Hr as _ <-.
  apply table_remove in E.
  change (table (set_srv s' w)) with (table (log_event (Db DbRemove ok) (set_srv s' w))) in E.
  etrans; [exact Hu|]. unfold shrinks. rewrite E.
  destruct ok; [by apply streams_sublist, remove_first_sublist|done].
Qed.

Lemma shrinking_update info n : shrinking _ (update_process_info (set_pid n info)).
Proof.
  intros w0 w r w' Hu Hw.
  destruct (update_process_info_eq (set_pid n info) n w eq_refl) as (r'&w1&E&_&_&_&_&Ht).
  rewrite E in Hw. injection Hw as <- <-. etrans; [exact Hu|]. unfold shrinks.
  destruct Ht as [-> | ->]; [done|by rewrite streams_alter].
Qed.

Lemma shrinking_sys c : shrinking _ (sys answer c).
Proof. intros w. apply keeps_sys, on_table_stable, shrinks_on_table. Qed.
Lemma shrinking_execl c : shrinking _ (execl answer c).
Proof. intros w. apply keeps_execl, on_table_stable, shrinks_on_table. Qed.
Lemma shrinking_exist_pid p info : shrinking _ (is_process_exist_pid p info).
Proof. intros w. apply keeps_is_process_exist_pid. Qed.
Lemma shrinking_get s : shrinking _ (get_process_info s).
Proof. intros w. apply keeps_get_process_info. Qed.
Lemma shrinking_of_option {B} (o : option B) : shrinking _ (of_option o).
Proof. intros w. apply keeps_of_option. Qed.
Lemma shrinking_upd f : (∀ w, srv (f w) = srv w ∧ db_address (f w) = db_address w) →
  shrinking _ (upd f).
Proof. intros Hf w. by apply keeps_upd; [apply shrinks_on_table|]. Qed.
Lemma keeps_collect_orphans I self vec item acc : keeps I (collect_orphans self vec item acc).
Proof. revert item acc. induction vec as [|s vec IH]; intros item acc; simpl; keeps. Qed.
Lemma shrinking_find self v : shrinking _ (find_not_ppid self v).
Proof.
  intros w. unfold find_not_ppid, process_collection. keeps. apply keeps_collect_orphans.
Qed.
#[local] Hint Resolve shrinking_sys shrinking_execl shrinking_update shrinking_exist_pid
  shrinking_get shrinking_remove shrinking_of_option shrinking_find : core.

Lemma shrinking_reload info : atoms shrinking (process_reload_t answer info).
Proof. apply atoms_reload; auto. Qed.
Lemma shrinking_reap pids : atoms shrinking (sig_reap_chld_t answer pids).
Proof. apply atoms_reap; auto. Qed.
Lemma shrinking_create p : atoms shrinking (create_m3u8_t answer p).
Proof. apply atoms_create_m3u8; [auto|]. left. intros w. apply keeps_crash. Qed.
#[local] Hint Resolve shrinking_reload shrinking_create : atoms.

Lemma shrinking_monitor : atoms shrinking (orphan_process_sync_t answer;; mret ()).
Proof.
  assert (∀ os, atoms shrinking (sync_orphans_t answer os)) as Hs.
  { induction os as [|o os IH]; [done|]. cbn [sync_orphans_t].
    unfold check_system_process_exist_t. atoms; auto. }
  unfold orphan_process_sync_t, find_orphan_process_t. atoms; auto.
Qed.

Lemma shrinking_dispatch uri data body : atoms shrinking (dispatch_t answer uri data body).
Proof.
  assert (∀ r, shrinking _ (send_reply r)) as Hr by (intros r; by apply shrinking_upd).
  assert (∀ p, shrinking _ (upd (λ w, set_queue (queue w ++ [p]) w))) as Hq
    by (intros p; by apply shrinking_upd).
  assert (∀ root k, shrinking _ (string_of root k)) as Hs by (intros; apply shrinking_of_option).
  unfold dispatch_t, routes_t. cbn [list_find fst snd].
  repeat (case_decide; cbn [fmap option_fmap option_map prod_map id fst snd]);
    unfold start_record_t, stop_record_t, create_record_t, remove_record_t, send_reply_t, string_of_t,
      put_data_t, kill_process_t; atoms; auto.
Qed.

(** The queue thread: from the look-up to the insertion the stream stays out of
    the table. *)
Abbreviation queue_ok := (unique_ok shrinks (λ _ _, True)).

Lemma fresh_stays s w w' : unique_streams w' → fresh_stream s w → shrinks w w' → fresh_stream s w'.
Proof.
  intros Hu [_ Hs] Hw. split; [done|]. intros Hin. apply Hs.
  by eapply elem_of_sublist, Hw.
Qed.

Lemma fresh_action s B (m : P B) :
  keeps (fresh_stream s) m → unique_action (λ _ _, True) (fresh_stream s) B m.
Proof.
  intros Hm w _ Hf. destruct (m w) as [[b| |] w'] eqn:E; [|done..].
  pose proof (Hm _ _ _ Hf E) as Hf'. split_and!; [apply Hf'|done..].
Qed.

Lemma queue_keeps_ok {A} s (t : T A) w :
  atoms (λ B m, keeps (fresh_stream s) m) t → fresh_stream s w → queue_ok (λ _, fresh_stream s) t w.
Proof.
  intros Ht Hw. apply (ok_actions _ _ shrinks (λ _ _, True) (fresh_stream s)); [|..|done].
  - intros. by eapply fresh_stays.
  - revert Ht. apply atoms_impl, fresh_action.
Qed.

Lemma queue_add_ok info w :
  fresh_stream (c_str (sid info)) w → queue_ok (λ _ _, True) (add_process_to_cache_t answer info) w.
Proof.
  intros Hw. unfold add_process_to_cache_t.
  eapply ok_bind; [apply _|apply (queue_keeps_ok (c_str (sid info))); [|done]|].
  { apply atoms_act, keeps_of_option. }
  intros p w1 _ Hw1. eapply ok_bind; [apply _|apply (queue_keeps_ok (c_str (sid info))); [|done]|].
  { apply atoms_act, keeps_sys, on_table_stable, fresh_on_table. }
  intros pp w2 _ Hw2. apply ok_act; [done|]. intros w3 Hu3 Hw3. 
  pose proof (fresh_stays _ _ _ Hu3 Hw2 Hw3) as Hf.
  unfold insert_document, process_collection. cbv [mbind P_bind read mret P_ret on_server].
  fold (handle w3). destruct (MongoAdaptor.insert _ _ _) as [ok s'] eqn:E.
  split_and!; [|done..]. by eapply unique_document.
Qed.

Lemma queue_spawn_ok param w :
  unique_streams w → queue_ok (λ _ _, True) (spawn_process_t answer param) w.
Proof.
  intros Hw. set (s := c_str (sid param)). unfold spawn_process_t.
  eapply ok_bind; [apply _|apply (ok_act _ _ _ _ _ (λ found w, found = false → s ∉ streams (table w)))|].
  { intros b w1 w2 Hb H12 ->. intros Hin. apply Hb; [done|]. by eapply elem_of_sublist, H12. }
  { intros w1 Hu1 _. rewrite is_process_exist_eq. split_and!; [done..|].
    intros Hb. by apply bool_decide_eq_false in Hb. }
  intros [] w1 Hu1 Hs; [done|].
  assert (fresh_stream s w1) as Hf by (split; auto).
  eapply ok_bind; [apply _|apply (queue_keeps_ok s); [|exact Hf]|].
  { apply atoms_create_m3u8; [|left; apply keeps_crash].
    intros c. apply keeps_sys, on_table_stable, fresh_on_table. }
  intros [ret m3u8] w2 _ Hf2. case_match; [done|].
  eapply ok_bind; [apply _|apply (queue_keeps_ok s); [|exact Hf2]|].
  { apply atoms_act, keeps_sys, on_table_stable, fresh_on_table. }
  intros pid w3 _ Hf3. case_match; [done|]. case_match.
  - eapply ok_bind; [apply _|by apply queue_add_ok|done].
  - eapply ok_bind; [apply _|apply (queue_keeps_ok s); [|exact Hf3]|done].
    apply atoms_act, keeps_execl, on_table_stable, fresh_on_table.
Qed.

Lemma queue_turn_ok w :
  unique_streams w → queue_ok (λ _ _, True) (process_queue_step_t answer;; mret ()) w.
Proof.
  intros Hw. apply (ok_bind _ _ _ _ (λ _ _, True)); [|done].
  unfold process_queue_step_t.
  eapply ok_bind; [apply _|apply (ok_act _ _ _ _ _ (λ _ _, True)); [done|]|].
  { by intros w1 Hu1 _. }
  intros [|e q] w1 Hu1 _; [done|].
  eapply ok_bind; [apply _|by apply queue_spawn_ok|]. intros _ w2 Hu2 _.
  eapply ok_bind; [apply _|apply (ok_act _ _ _ _ _ (λ _ _, True)); [done|]|done].
  intros w3 Hu3 _. split_and!; [|done..]. done.
Qed.

(** C2. A stream is never recorded twice, however the threads interleave: with
    any requests arriving, signals delivered to any thread at any moment, and
    every system call, driver call and queue access a step of its own, a table
    without duplicates stays one.  Only the queue thread adds documents, and
    between its look-up and its insertion the others only take streams away. *)
Theorem threads_unique arrives w s :
  rtc (pstep answer arrives) (at_rest w) s →
  NoDup (streams (table w)) → NoDup (streams (table (mem s))).
Proof.
  intros Hr Hu.
  apply (sys_ok_reachable unique_streams True answer arrives unique_rely unique_guarantee) in Hr;
    [apply Hr| |..].
  - intros a b w1 w2 Hne _ _. by apply unique_rely_guarantee.
  - intros i t w1 Hw1 Ht. destruct Ht; [..|by apply queue_turn_ok|];
      (apply shrinking_ok; [apply _|auto using shrinking_dispatch, shrinking_monitor]).
  - intros i pids w1 Hw1. apply (shrinking_ok _ _ (unique_rely (Handler i))); [apply _|].
    apply shrinking_reap.
  - by apply at_rest_ok.
Qed.
End theorems.
