(* ===== verification/ProcessRaces.v ===== *)
(** * src/app: two races of the recorder's threads. *)

From stdpp Require Import relations.
From S2P Require Import Prelude PString PConf MongoAdaptor ProcessManager RecordControl.
From S2P Require Import ProcessProofs ProcessTheorems ProcessThreads ProcessThreadsProofs.

Local Open Scope Z_scope.

Section races.
Context `{JsonLaws}.
Context (answer : nat → syscall → Z).
Context (arrives : list ascii → app_data → option (list ascii) → Prop).

Abbreviation pstep := (pstep answer arrives).

(** ** Stop against restart *)

Lemma alter_first_none {A} (p : A → bool) f l : (∀ x, x ∈ l → p x ≠ true) → alter_first p f l = l.
Proof. intros Hn. unfold alter_first. by rewrite list_find_none. Qed.

(** A restart of a process whose document has gone. *)
Lemma reload_without_document i s w n :
  sid i = s → c_str s = s → (∀ d, d ∈ table w → ¬ of_stream s d) →
  answer (clock w) Fork = n → 0 < n →
  ∃ w' a ok, process_reload answer i w = (Ok a, w') ∧
    trace w' = trace w ++ [Sys Fork n; Db DbUpdate ok] ∧ table w' = table w.
Proof.
  intros Hs Hcs Hno Hn Hpos. unfold process_reload, re_create_process, sys.
  cbv [mbind P_bind mret P_ret]. rewrite Hn. set (w1 := log_event _ _).
  destruct (Z.ltb_spec n 0); [lia|]. destruct (Z.ltb_spec 0 n); [|lia].
  destruct (update_process_info_eq (set_pid n i) n w1 eq_refl) as (r&w2&E&_&_&_&[ok Htr]&Ht).
  cbv zeta. rewrite E. do 3 eexists. split; [reflexivity|].
  split; [rewrite Htr; simpl; by rewrite <- app_assoc|].
  destruct Ht as [-> | ->]; [done|]. apply alter_first_none. intros d Hd.
  change (sid (set_pid n i)) with (sid i). rewrite Hs, matches_sid, Hcs. by apply Hno.
Qed.

(** C30. Stopping is not safe against a restart.  The recorded process dies and
    a thread's handler has found its document when the stop request is served
    as a whole: the document is removed, the dead process gets its signal, the
    client its 200.  Then the handler goes on and forks a new process for the
    stream.  It runs, and the table has no document to stop it by. *)
Theorem stop_races_restart data body root src sid w p pre d post i n :
  arrives (bytes "/api/r3/stop") data (Some body) →
  reader_parse body = Some root →
  get_string root (bytes "src") = Some src →
  get_string root (bytes "streamcode") = Some sid →
  holds_alone w (c_str sid) p pre d post → describes d i →
  (MongoAdaptor.remove (handle w) (query_sid (c_str sid)) (srv w)).1 = true →
  answer (S (clock w)) Fork = n → 0 < n →
  ∃ w' a ok, rtc pstep (at_rest w) (at_rest w') ∧
    trace w' = trace w ++ [Db DbRemove true; Sys (Kill p SIGINT) a; SendReply reply_ok;
                           Sys Fork n; Db DbUpdate ok] ∧
    table w' = pre ++ post ∧ ∀ d', d' ∈ table w' → ¬ of_stream (c_str sid) d'.
Proof.
  intros Harr Hb Hsrc Hsid Ha Hd Hrm Hn Hpos.
  destruct (stop_request_eq answer data body root src sid w p pre d post i Hb Hsrc Hsid Ha Hd Hrm)
    as (w1&a&E1&Htr1&Ht1&_&Hc1).
  assert (∀ d', d' ∈ table w1 → ¬ of_stream (c_str sid) d') as Hno
    by (rewrite Ht1; intros d' Hd'; by apply Ha).
  destruct (describes_sid d i (c_str sid) Hd ltac:(apply Ha)) as [Hs Hcs].
  destruct (reload_without_document i _ w1 n Hs Hcs Hno ltac:(by rewrite Hc1) Hpos)
    as (w2&r&ok&E2&Htr2&Ht2).
  exists w2, a, ok. split_and!.
  2:{ by rewrite Htr2, Htr1, <- app_assoc. }
  2:{ by rewrite Ht2. }
  2:{ by rewrite Ht2. }
  set (h0 := sig_reap_chld_t answer [p]).
  set (h1 := ((process_reload_t answer i;; mret ());; mret REC_ERROR_OK);; mret () : T ()).
  assert (tsteps h0 w h1 w) as Hh0.
  { apply (tsteps_then (λ _, mret ())).
    apply (tsteps_bind (λ r : bool * process_info, let '(found, info) := r in _) _ w (true, i)).
    apply act_tsteps. by eapply is_process_exist_pid_eq. }
  assert (tsteps h1 w1 (TRet ()) w2) as Hh1.
  { refine (tsteps_bind (λ _ : Z, mret ()) _ _ REC_ERROR_OK _ _).
    refine (tsteps_bind (λ _ : (), mret REC_ERROR_OK) _ _ () _ _).
    refine (tsteps_bind (λ _ : Z * process_info, mret ()) _ _ r _ _).
    eapply runs_tsteps; [apply runs_reload|done]. }
  eapply rtc_l; [by apply (pstep_signal _ _ (at_rest w) Queue (TRet ()) [p])|].
  etrans; [by apply handler_tsteps|].
  eapply rtc_l; [by apply (pstep_start _ _ _ Http (dispatch_t answer (bytes "/api/r3/stop") data (Some body))); [|constructor]|].
  etrans; [apply task_tsteps; eapply runs_tsteps; [apply runs_dispatch|exact E1]|].
  etrans; [by apply (handler_tsteps _ _ Queue (TRet ()) h1 (TRet ()) w1 w2 (at_rest w))|].
  apply rtc_once.
  exact (pstep_return answer arrives
    (set_proc Queue (mk_thread (TRet ()) (Some (TRet ()))) w2 (at_rest w)) Queue (TRet ()) eq_refl).
Qed.

(** ** Death before registration *)

(** What the queue thread still has to do once [fork] has answered. *)
Definition after_fork (p' : process_info) : T () :=
  (((add_process_to_cache_t answer p';; mret (REC_ERROR_OK, p'));;
    act (upd (λ w, set_queue (tail (queue w)) w));; mret true);; mret ()).

(** A turn of the queue thread up to the answer of [fork]. *)
Lemma turn_until_fork e q w w1 m n :
  queue w = e :: q → c_str (sid e) ∉ streams (table w) →
  create_m3u8 answer (mk_m3u8_param (m3u8_path e) (sid e) []) w = (Ok (REC_ERROR_OK, m), w1) →
  answer (clock w1) Fork = n → 0 < n →
  tsteps (process_queue_step_t answer;; mret ()) w
    (after_fork (set_m3u8_path (file_path m) (set_pid n e)))
    (log_event (Sys Fork n) (tick w1)).
Proof.
  intros Hq Hs Hc Hn Hpos.
  eapply tsteps_trans.
  { apply (tsteps_then (λ _, mret ())).
    refine (tsteps_bind _ _ w (e :: q) w _). apply act_tsteps. unfold read. by rewrite Hq. }
  apply (tsteps_then (λ _, mret ())), (tsteps_then (λ _, _;; mret true)).
  unfold spawn_process_t. eapply tsteps_trans.
  { refine (tsteps_bind _ _ w false w _). apply act_tsteps. rewrite is_process_exist_eq.
    by rewrite bool_decide_eq_false_2. }
  eapply tsteps_trans.
  { refine (tsteps_bind _ _ w (REC_ERROR_OK, m) w1 _).
    eapply runs_tsteps; [apply runs_create_m3u8|done]. }
  eapply tsteps_trans.
  { refine (tsteps_bind _ _ w1 n _ _). apply act_tsteps. unfold sys. by rewrite Hn. }
  cbv beta iota. destruct (Z.ltb_spec n 0); [lia|]. destruct (Z.ltb_spec 0 n); [|lia].
  apply rtc_refl.
Qed.

Definition new_document (id : Z) (e : process_info) (m : m3u8_param) (n pp : Z) : doc :=
  (bytes "_id", BOid id) ::
  fields (process_document (set_m3u8_path (file_path m) (set_pid n e)) n pp).

(** The rest of the turn. *)
Lemma turn_after_fork e q w m n pp : let p' := set_m3u8_path (file_path m) (set_pid n e) in
  queue w = e :: q → answer (clock w) Getpid = pp →
  (MongoAdaptor.insert (handle w) (process_document p' n pp) (srv w)).1 = true →
  ∃ w' id, tsteps (after_fork p') w (TRet ()) w' ∧
    trace w' = trace w ++ [Sys Getpid pp; Db DbInsert true] ∧
    table w' = table w ++ [new_document id e m n pp] ∧ queue w' = q.
Proof.
  intros p' Hq Hpp Hins. set (w1 := log_event (Sys Getpid pp) (tick w)).
  destruct (MongoAdaptor.insert (handle w) (process_document p' n pp) (srv w)) as [ok s'] eqn:E.
  simpl in Hins. subst ok.
  set (w2 := log_event (Db DbInsert true) (set_srv s' w1)).
  assert (add_process_to_cache answer p' w = (Ok REC_ERROR_OK, w2)) as Ha.
  { unfold add_process_to_cache, process_collection, sys, on_server.
    cbv [mbind P_bind read mret P_ret of_option]. fold (handle w). cbn [pid set_pid set_m3u8_path p'].
    fold p'. rewrite Hpp. change (srv _) with (srv w) at 1. by rewrite E. }
  change (handle w) with (handle w1) in E. change (srv w) with (srv w1) in E.
  apply table_insert in E as [id Ht].
  exists (set_queue (tail (queue w2)) w2), id. split_and!.
  - refine (tsteps_bind (λ _ : bool, mret ()) _ _ true _ _).
    eapply tsteps_trans.
    { refine (tsteps_bind _ _ w (REC_ERROR_OK, p') w2 _).
      refine (tsteps_bind _ _ w REC_ERROR_OK w2 _). eapply runs_tsteps; [apply runs_add|done]. }
    refine (tsteps_bind _ _ w2 () _ _). by apply act_tsteps.
  - simpl. by rewrite <- app_assoc.
  - exact Ht.
  - simpl. by rewrite Hq.
Qed.

(** C29. A death that comes too early is lost.  The new child dies after
    [fork] has returned and before its document is written: the handler finds
    no document and does nothing, then the turn ends by recording the dead
    process.  From then on no round of the monitor restarts it, as the
    document carries the recorder's own pid; the table stays as it is. *)
Theorem early_death_lost e q w w1 m n pp :
  let p' := set_m3u8_path (file_path m) (set_pid n e) in
  queue w = e :: q → (length (c_str (m3u8_path e)) < 512)%nat →
  c_str (sid e) ∉ streams (table w) →
  create_m3u8 answer (mk_m3u8_param (m3u8_path e) (sid e) []) w = (Ok (REC_ERROR_OK, m), w1) →
  answer (clock w1) Fork = n → 0 < n → (∀ d, d ∈ table w → ¬ of_pid n d) →
  answer (S (clock w1)) Getpid = pp →
  (MongoAdaptor.insert (handle w) (process_document p' n pp) (srv w)).1 = true →
  (∀ d, d ∈ table w → field d K_ppid = Some (BInt32 pp)) →
  ∃ s1 s2 w' id,
    rtc pstep (at_rest w) s1 ∧ trace (mem s1) = trace w1 ++ [Sys Fork n] ∧
    s2 = set_proc Queue (mk_thread (task (queue_thread s1)) (Some (sig_reap_chld_t answer [n])))
           (mem s1) s1 ∧
    pstep s1 s2 ∧ rtc pstep s2 (at_rest w') ∧
    trace w' = trace (mem s1) ++ [Sys Getpid pp; Db DbInsert true] ∧
    table w' = table w ++ [new_document id e m n pp] ∧ queue w' = q ∧
    ∀ w2, table w2 = table w' → answer (clock w2) Getpid = pp →
      ∃ r w3, orphan_process_sync answer w2 = (Ok r, w3) ∧
        trace w3 = trace w2 ++ [Sys Getpid pp] ∧ table w3 = table w2.
Proof.
  intros p' Hq Hl Hs Hc Hn Hpos Hnew Hpp Hins Hown.
  destruct (create_m3u8_eq answer (mk_m3u8_param (m3u8_path e) (sid e) []) w Hl)
    as (w1'&es&r&Hc'&Hss&_). rewrite Hc in Hc'. injection Hc' as _ <-.
  pose proof (same_state_table _ _ Hss) as Ht1. destruct Hss as (Hsrv&Hq1&_&Hadr).
  set (wf := log_event (Sys Fork n) (tick w1)).
  destruct (turn_after_fork e q wf m n pp) as (w'&id&Hrest&Htr&Htab&Hq').
  { simpl. by rewrite Hq1. }
  { done. }
  { change (srv wf) with (srv w1). change (handle wf) with (handle w1). unfold handle.
    rewrite Hsrv, Hadr. exact Hins. }
  assert (table wf = table w) as Htf by exact Ht1. rewrite Htf in Htab.
  assert (send_message answer n wf = (Ok REC_ERROR_OK, wf)) as Hsend
    by (apply send_message_none; by rewrite Htf).
  exists (set_proc Queue (mk_thread (after_fork p') None) wf (at_rest w)).
  eexists _, w', id. split_and!; [| |reflexivity|..].
  - eapply rtc_l; [by apply (pstep_start _ _ (at_rest w) Queue); [|constructor]|].
    apply task_tsteps. by eapply turn_until_fork.
  - done.
  - by apply (pstep_signal answer arrives _ Queue).
  - etrans; [apply (handler_tsteps _ _ Queue (after_fork p') _ (TRet ()) wf wf (at_rest w))|].
    { eapply runs_tsteps; [apply runs_reap|]. cbn [sig_reap_chld].
      by rewrite (bind_ok _ _ _ _ _ Hsend). }
    eapply rtc_l; [exact (pstep_return answer arrives
      (set_proc Queue (mk_thread (after_fork p') (Some (TRet ()))) wf (at_rest w)) Queue _ eq_refl)|].
    exact (task_tsteps answer arrives Queue _ _ _ _ (at_rest w) Hrest).
  - exact Htr.
  - exact Htab.
  - done.
  - intros w2 Ht2 Hp2. 
    destruct (monitor_spares answer w2 pp [] Hp2) as (w3&rr&es'&E&Htr3&Htab3&_&Hes); [|done|].
    { rewrite Ht2, Htab. 
      assert (∀ l, (∀ d, d ∈ l → field d K_ppid = Some (BInt32 pp)) →
        filter (λ d, field d K_ppid ≠ Some (BInt32 pp)) l = []) as Hnil.
      { induction l as [|d l IH]; intros Hd; [done|]. rewrite filter_cons_False.
        - apply IH. intros d' Hd'. by apply Hd, list_elem_of_further.
        - rewrite Hd; [by intros []|]. apply list_elem_of_here. }
      rewrite Hnil; [constructor|]. intros d [Hd| ->%list_elem_of_singleton]%elem_of_app; [by apply Hown|].
      unfold new_document. by rewrite document_fields. }
    inversion Hes; subst. by exists rr, w3.
Qed.
End races.
