(* ===== verification/ProcessThreadsTypes.v ===== *)
(** * src/app: the recorder's threads never go wrong on well-formed data.

    The types of what the threads share: every document of the table stores a
    process, every queue entry is ASCII text with a path [multi_mkdir] can
    hold. *)

From stdpp Require Import relations pretty.
From S2P Require Import Prelude PString PConf MongoAdaptor ProcessManager RecordControl.
From S2P Require Import ProcessProofs ProcessTheorems ProcessThreads ProcessThreadsProofs.

Local Open Scope Z_scope.

(** ** ASCII text *)

Lemma plain_append s t : plain s → plain t → plain (s ++ t).
Proof. intros. by apply Forall_app. Qed.
Lemma plain_take n s : plain s → plain (take n s).
Proof. apply list.Forall_take. Qed.
Lemma c_str_take n s : c_str (take n (c_str s)) = take n (c_str s).
Proof.
  revert n. induction s as [|c s IH]; intros n; cbn [c_str]; [by destruct n|].
  case_bool_decide; [by destruct n|]. destruct n as [|n]; [done|]. cbn [take c_str].
  rewrite bool_decide_eq_false_2 by done. by rewrite IH.
Qed.
Lemma plain_c_str_id s : plain s → plain (c_str s).
Proof. intros Hs. by rewrite plain_c_str. Qed.

Lemma plain_pretty_N_go x s : plain (bytes s) → plain (bytes (pretty_N_go x s)).
Proof.
  revert s. induction (N.lt_wf_0 x) as [x _ IH]; intros s Hs.
  assert (x = 0 ∨ 0 < x)%N as [->|Hx] by lia; [by rewrite pretty_N_go_0|].
  rewrite pretty_N_go_step by done. apply IH; [by apply N.div_lt|].
  constructor; [|done]. unfold pretty_N_char. by repeat case_match.
Qed.
Lemma plain_dec z : plain (dec z).
Proof.
  assert (∀ x : N, plain (bytes (pretty x))) as Hn.
  { intros x. unfold pretty, pretty_N. case_decide; [plain_const|].
    apply plain_pretty_N_go. constructor. }
  unfold dec, pretty, pretty_Z. destruct z as [|p|p]; [plain_const|apply Hn|].
  constructor; [by split|apply Hn].
Qed.
#[local] Hint Resolve plain_append plain_take plain_dec plain_c_str_id : core.

Lemma plain_m3u8_name param t :
  plain (c_str (path param)) → plain (c_str (m3u8_sid param)) → plain (m3u8_name param t).
Proof.
  intros. unfold m3u8_name, vsnprintf. cbn [fst]. repeat (apply plain_take || apply plain_append);
    first [assumption|apply plain_dec|plain_const].
Qed.

(** ** Types *)

Section types.
Context `{JsonLaws}.

Definition typed_doc (d : doc) : Prop := ∃ i, describes d i.
Definition typed_entry (i : process_info) : Prop :=
  plain_info i ∧ (length (c_str (m3u8_path i)) < 512)%nat.
Definition typed (w : world) : Prop :=
  Forall typed_doc (table w) ∧ Forall typed_entry (queue w).

(** The members a handler reads are there, as ASCII strings. *)
Definition typed_request (uri : list ascii) (data : app_data) (body : option (list ascii)) : Prop :=
  plain (c_str (app_root_path data)) ∧ plain (c_str (app_host data)) ∧
  ∀ b root k, body = Some b → reader_parse b = Some root →
    k ∈ [bytes "src"; bytes "path"; bytes "streamcode"; bytes "type"] →
    ∃ s, get_string root k = Some s ∧ plain (c_str s).

Lemma plain_set_field k v d :
  plain_field (k, v) → Forall plain_field d → Forall plain_field (set_field k v d).
Proof.
  intros Hv Hd. unfold set_field. destruct (list_find _ d) as [[i e]|].
  - by apply list.Forall_insert.
  - apply Forall_app. split; [done|]. by constructor.
Qed.

Lemma typed_doc_with_pid n d : int32 n → typed_doc d → typed_doc (with_pid n d).
Proof.
  intros Hn [i (Hp&Hs&Hu&Hm&Ht&Hst&Hh&_&(pp&Epp&Hppid))]. exists (set_pid n i).
  split; [apply plain_set_field; [|done]; split; [change (plain (bytes "pid")); plain_const|done]|].
  unfold with_pid, K_pid. rewrite !field_set_field_ne by done. cbn.
  split_and!; try done; [|exists pp; by rewrite field_set_field_ne].
  exists n. split; [done|]. apply field_set_field_eq.
Qed.

Lemma typed_doc_new id info p pp :
  plain_info info → int32 p → int32 pp →
  typed_doc ((bytes "_id", BOid id) :: fields (process_document info p pp)).
Proof.
  intros. exists (stored info p pp).
  apply (describes_document info p pp [(bytes "_id", BOid id)]); eauto.
Qed.

Lemma typed_table w w' : table w' = table w → queue w' = queue w → typed w → typed w'.
Proof. intros Ht Hq [Hd He]. split; [by rewrite Ht|by rewrite Hq]. Qed.

Lemma typed_on_table w f : srv (f w) = srv w → db_address (f w) = db_address w →
  Forall typed_entry (queue (f w)) → typed w → typed (f w).
Proof. intros Hs Ha Hq [Hd _]. split; [|done]. by rewrite (table_env w). Qed.

(** ** Actions keep the types and do not crash *)

Context (answer : nat → syscall → Z).
Context (Hfork : ∀ n, int32 (answer n Fork)) (Hpid : ∀ n, int32 (answer n Getpid)).

Abbreviation any := (λ _ _ : world, True).
Definition safe (B : Type) (m : P B) : Prop := action typed False any (λ _, True) B m.
Abbreviation safe_ok := (ok typed False any any (λ _ _, True)).

Lemma safe_intro {B} (m : P B) :
  (∀ w, typed w → ∃ r w', m w = (r, w') ∧ typed w' ∧ r ≠ Crash) → safe B m.
Proof.
  intros Hm w Hw _. destruct (Hm w Hw) as (r&w'&->&Hw'&Hr). by destruct r.
Qed.
Lemma safe_ret {B} (b : B) : safe _ (mret b).
Proof. apply safe_intro. intros w Hw. by exists (Ok b), w. Qed.
Lemma safe_some {B} (b : B) : safe _ (of_option (Some b)).
Proof. apply safe_ret. Qed.
Lemma safe_sys c : safe _ (sys answer c).
Proof. apply safe_intro. intros w Hw. by do 2 eexists. Qed.
Lemma safe_execl cmd : safe _ (execl answer cmd).
Proof.
  apply safe_intro. intros w Hw. unfold execl, sys. cbv [mbind P_bind mret P_ret].
  case_match; by do 2 eexists.
Qed.
Lemma safe_reply r : safe _ (send_reply r).
Proof. apply safe_intro. intros w Hw. by do 2 eexists. Qed.
Lemma safe_read {B} (f : world → B) : safe _ (read f).
Proof. apply safe_intro. intros w Hw. by do 2 eexists. Qed.
Lemma safe_push p : typed_entry p → safe _ (upd (λ w, set_queue (queue w ++ [p]) w)).
Proof.
  intros Hp. apply safe_intro. intros w Hw. do 2 eexists. split; [done|]. split; [|done].
  apply (typed_on_table w (λ w, set_queue (queue w ++ [p]) w)); try done.
  apply Forall_app. split; [apply Hw|by constructor].
Qed.
Lemma safe_pop : safe _ (upd (λ w, set_queue (tail (queue w)) w)).
Proof.
  apply safe_intro. intros w Hw. do 2 eexists. split; [done|]. split; [|done].
  apply (typed_on_table w (λ w, set_queue (tail (queue w)) w)); try done. simpl.
  destruct Hw as [_ Hq]. by destruct (queue w); [|inversion Hq].
Qed.

Lemma safe_remove s : safe _ (remove_process_by_stream s).
Proof.
  apply safe_intro. intros w [Hd Hq]. unfold remove_process_by_stream, process_collection.
  cbv [mbind P_bind read mret P_ret on_server]. fold (handle w).
  destruct (MongoAdaptor.remove _ _ _) as [ok s'] eqn:E. do 2 eexists. split; [done|].
  split; [|by destruct ok]. apply table_remove in E. split; [|done].
  change (table (log_event _ _)) with (table (set_srv s' w)). rewrite E.
  destruct ok; [|done]. unfold remove_first. destruct (list_find _ _) as [[i x]|]; [|done].
  apply Forall_app. split; [by apply list.Forall_take|by apply list.Forall_drop].
Qed.

Lemma safe_update info n : int32 n → safe _ (update_process_info (set_pid n info)).
Proof.
  intros Hn. apply safe_intro. intros w [Hd Hq].
  destruct (update_process_info_eq (set_pid n info) n w eq_refl) as (r&w1&E&_&Hq1&_&_&Ht).
  exists (Ok r), w1. split; [done|]. split; [|done]. split; [|by rewrite Hq1].
  destruct Ht as [-> | ->]; [done|]. unfold alter_first.
  destruct (list_find _ _) as [[i x]|] eqn:Ei; [|done]. apply list.Forall_insert; [done|].
  apply typed_doc_with_pid; [done|]. apply list_find_Some in Ei as (Hi&_&_).
  by eapply Forall_lookup_1.
Qed.

Lemma safe_insert info p pp :
  plain_info info → int32 p → int32 pp → safe _ (insert_document info p pp).
Proof.
  intros Hi Hp Hpp. apply safe_intro. intros w [Hd Hq]. unfold insert_document, process_collection.
  cbv [mbind P_bind read mret P_ret on_server]. fold (handle w).
  destruct (MongoAdaptor.insert _ _ _) as [ok s'] eqn:E. do 2 eexists. split; [done|].
  split; [|by destruct ok]. apply table_insert in E. split; [|done].
  change (table (log_event _ _)) with (table (set_srv s' w)).
  destruct ok; [|by rewrite E]. destruct E as [id ->]. apply Forall_app. split; [done|].
  constructor; [|done]. by apply typed_doc_new.
Qed.

Lemma safe_exist_pid p info : safe _ (is_process_exist_pid p info).
Proof.
  apply safe_intro. intros w Hw. unfold is_process_exist_pid, process_collection.
  cbv [mbind P_bind read mret P_ret]. do 2 eexists. split; [done|]. by split.
Qed.

(** What a look-up by stream finds has a pid. *)
Lemma get_process_info_typed s w : typed w →
  ∃ o, get_process_info s w = (Ok o, w) ∧ ∀ i, o = Some i → is_Some (pid i).
Proof.
  intros [Hd _]. unfold get_process_info, process_collection. cbv [mbind P_bind read mret P_ret].
  fold (handle w). eexists. split; [done|].
  pose proof (findOne_spec (query_sid s) (of_stream (c_str s)) w (matches_sid s)) as Hf.
  destruct (MongoAdaptor.findOne _ _ _) as [z|item]; [done|].
  destruct Hf as (k&d&b&Hf&Hb&->). apply list_find_Some in Hf as (Hk&_&_).
  destruct (Forall_lookup_1 _ _ _ _ Hd Hk) as [i Hi]. rewrite <- Hb in Hi.
  rewrite (parser_describes _ _ _ Hi). intros i' [= <-].
  destruct Hi as (_&_&_&_&_&_&_&(p&->&_)&_). by eexists.
Qed.

(** Neither does the parsing of the monitor's query fail. *)
Lemma collect_orphans_typed self bs w : ∀ item acc,
  Forall (λ b, typed_doc (fields b)) bs → Forall (λ o, is_Some (pid o)) acc →
  ∃ os, collect_orphans self ((λ b, c_str (bson_as_json b)) <$> bs) item acc w = (Ok os, w) ∧
    Forall (λ o, is_Some (pid o)) os.
Proof.
  induction bs as [|b bs IH]; intros item acc Hb Ha; [by eexists|].
  apply Forall_cons_1 in Hb as [[i Hi] Hb].
  cbn [fmap list_fmap collect_orphans]. rewrite (parser_describes _ _ _ Hi). cbn [snd].
  pose proof Hi as (_&_&_&_&_&_&_&(p&Hp&_)&(pp&Hpp&_)). rewrite Hpp.
  unfold mbind, P_bind, of_option. cbv [mret P_ret].
  fold (@list_fmap bson_t (list ascii)).
  destruct (IH i (if negb (pp =? self) then acc ++ [i] else acc) Hb) as (os&E&Hos).
  { case_match; [|done]. apply Forall_app. split; [done|]. constructor; [by exists p|done]. }
  exists os. split; [exact E|done].
Qed.

Lemma find_not_ppid_typed self w : typed w →
  ∃ r os, find_not_ppid self [] w = (Ok (r, os), w) ∧ Forall (λ o, is_Some (pid o)) os.
Proof.
  intros [Hd _]. unfold find_not_ppid, process_collection, MongoAdaptor.find.
  unfold read. cbv [mbind P_bind mret P_ret]. fold (handle w).
  unfold table, table_at in Hd. destruct (handle w) as [c|]; [|by do 2 eexists].
  destruct (collect_orphans_typed self (mongoc_collection_find c (query_not_ppid self) (srv w)) w
    empty_process_info []) as (os&E&Hos).
  - refine (proj1 (list.Forall_fmap fields typed_doc _) _). rewrite find_law.
    apply List.Forall_forall. intros d [_ Hin]%list_elem_of_In%list_elem_of_filter.
    rewrite List.Forall_forall in Hd. by apply Hd, list_elem_of_In.
  - constructor.
  - rewrite E. by do 2 eexists.
Qed.
#[local] Hint Resolve safe_ret safe_some safe_sys safe_execl safe_reply safe_read safe_pop
  safe_remove safe_update safe_insert safe_exist_pid : core.

#[local] Instance any_preorder : PreOrder any.
Proof. by split. Qed.

(** ** Operations *)

Lemma atoms_ok {A} (t : T A) w : atoms safe t → safe_ok t w.
Proof. intros Ht. by apply (ok_actions _ _ any any (λ _, True)). Qed.

(** A fact about every result of a sequence. *)
Fixpoint results {A} (S : A → Prop) (t : T A) : Prop :=
  match t with TRet a => S a | TDo m k => ∀ b, results S (k b) end.
Lemma results_bind {A B} (S : B → Prop) (t : T A) (k : A → T B) :
  (∀ a, results S (k a)) → results S (t ≫= k).
Proof. intros Hk. induction t as [a|D m f IH]; [apply Hk|]. intros b. apply IH. Qed.
Lemma results_ok {A} (S : A → Prop) (t : T A) w :
  atoms safe t → results S t → ok typed False any any (λ a _, S a) t w.
Proof.
  revert w. induction t as [a|B m k IH]; intros w; simpl; [eauto|].
  intros [Hm Hk] Hr w1 Hw1 _. specialize (Hm w1 Hw1 I).
  destruct (m w1) as [[b| |] w2] eqn:E; [|done..]. destruct Hm as (?&?&?).
  split_and!; [done..|]. apply IH; [by eapply Hk|done].
Qed.

Lemma atoms_some_bind {A B} (F : ∀ B, P B → Prop) (b : B) (k : B → T A) :
  F _ (of_option (Some b)) → atoms F (k b) → atoms F (act (of_option (Some b)) ≫= k).
Proof. intros Hb Hk. split; [done|]. by intros b' w w' [= <- <-]. Qed.

Lemma safe_create p : (length (c_str (path p)) < 512)%nat → atoms safe (create_m3u8_t answer p).
Proof. intros Hl. apply atoms_create_m3u8; [auto|by right]. Qed.

Lemma create_results p : plain (c_str (path p)) → plain (c_str (m3u8_sid p)) →
  results (λ r : Z * m3u8_param, r.1 = REC_ERROR_OK → plain (c_str (file_path r.2)))
    (create_m3u8_t answer p).
Proof.
  intros Hp Hs. unfold create_m3u8_t. repeat (apply results_bind; intros ?).
  case_match; [done|]. repeat (apply results_bind; intros ?).
  intros _. by apply plain_c_str_id, plain_m3u8_name.
Qed.

Lemma safe_spawn e w : typed_entry e → safe_ok (spawn_process_t answer e) w.
Proof.
  intros [He Hl]. pose proof He as (Hsid&Hsrc&Hm&Hty&Hh). unfold spawn_process_t.
  eapply ok_bind; [apply _|apply atoms_ok, atoms_act|].
  { apply safe_intro. intros w1 Hw1. rewrite is_process_exist_eq. by do 2 eexists. }
  intros found w1 _ _. destruct found; [done|].
  eapply ok_bind; [apply _|apply results_ok; [by apply safe_create|by apply create_results]|].
  intros [ret m3u8] w2 _ Hf. simpl in Hf. destruct (Z.eqb_spec ret REC_ERROR_OK) as [Hr|Hr]; [|done].
  simpl negb. cbv iota. specialize (Hf Hr). apply atoms_ok.
  apply atoms_sys_bind; [auto|]. intros n. case_match; [done|]. case_match.
  - apply atoms_bind; [|done]. unfold add_process_to_cache_t. cbn [pid set_m3u8_path set_pid].
    apply atoms_some_bind; [auto|]. apply atoms_sys_bind; [auto|]. intros k.
    apply atoms_act, safe_insert; [|done..]. by split_and!.
  - unfold execl_t. atoms; auto.
Qed.

Lemma safe_turn w : safe_ok (process_queue_step_t answer;; mret ()) w.
Proof.
  eapply (ok_bind _ _ _ _ (λ _ _, True)); [|done]. unfold process_queue_step_t.
  eapply ok_bind; [apply _|apply (ok_act _ _ _ _ _ (λ qu _, Forall typed_entry qu)); [done|]|].
  { intros w1 Hw1 _. split_and!; [done..|apply Hw1]. }
  intros [|e q] w1 _ Hq; [done|]. apply Forall_cons_1 in Hq as [He _].
  eapply ok_bind; [apply _|by apply safe_spawn|]. intros _ w2 _ _.
  apply atoms_ok. atoms; auto.
Qed.

Lemma safe_reload info : atoms safe (process_reload_t answer info).
Proof using Hfork. apply atoms_reload; auto. Qed.
Lemma safe_reap pids : atoms safe (sig_reap_chld_t answer pids).
Proof using Hfork. apply atoms_reap; auto. Qed.

Lemma safe_sync os : Forall (λ o, is_Some (pid o)) os → atoms safe (sync_orphans_t answer os).
Proof using Hfork.
  pose proof safe_reload. induction 1 as [|o os [p Hp] _ IH]; [done|].
  cbn [sync_orphans_t]. rewrite Hp. apply atoms_some_bind; [auto|].
  unfold check_system_process_exist_t. atoms; auto.
Qed.

Lemma safe_round w : safe_ok (orphan_process_sync_t answer;; mret ()) w.
Proof using All.
  eapply (ok_bind _ _ _ _ (λ _ _, True)); [|done]. unfold orphan_process_sync_t, find_orphan_process_t.
  eapply (ok_bind _ _ _ _ (λ r _, Forall (λ o, is_Some (pid o)) r.2)).
  - eapply ok_bind; [apply _|by apply atoms_ok, atoms_act|]. intros self w1 _ _.
    apply (ok_act _ _ _ _ _ (λ (r : Z * list process_info) _, Forall (λ o, is_Some (pid o)) r.2)); [done|].
    intros w2 Hw2 _. destruct (find_not_ppid_typed self w2 Hw2) as (r&os&->&Hos). by split_and!.
  - intros [r os] w1 _ Hos. apply atoms_ok. atoms. by apply safe_sync.
Qed.

(** ** Requests *)

Lemma atoms_string_bind {A} root k s (K : list ascii → T A) :
  get_string root k = Some s → atoms safe (K s) → atoms safe (string_of_t root k ≫= K).
Proof.
  intros Hs HK. unfold string_of_t, string_of. rewrite Hs. apply atoms_some_bind; auto.
Qed.

Lemma length_vsnprintf n s : (length (c_str (vsnprintf n s).1) ≤ Z.to_nat (n - 1))%nat.
Proof.
  unfold vsnprintf. cbn [fst]. revert s. induction (Z.to_nat (n - 1)) as [|k IH]; intros s; [done|].
  destruct s as [|c s]; cbn [take c_str]; [simpl; lia|]. case_bool_decide; simpl; [lia|].
  specialize (IH s). lia.
Qed.

Lemma plain_parent_path s : plain (c_str s) → plain (c_str (parent_path s)).
Proof.
  intros Hs. unfold parent_path. destruct (last_slash s) as [i|]; [|done].
  clear -Hs. revert i Hs. induction s as [|c s IH]; intros i; [by destruct i|].
  destruct i as [|i]; [constructor|]. cbn [take c_str]. case_bool_decide; [done|].
  intros [Hc Hs]%Forall_cons_1. constructor; [done|]. by apply IH.
Qed.

Lemma typed_keys root data body uri b :
  typed_request uri data body → body = Some b → reader_parse b = Some root →
  (∃ s, get_string root (bytes "src") = Some s ∧ plain (c_str s)) ∧
  (∃ s, get_string root (bytes "path") = Some s ∧ plain (c_str s)) ∧
  (∃ s, get_string root (bytes "streamcode") = Some s ∧ plain (c_str s)) ∧
  (∃ s, get_string root (bytes "type") = Some s ∧ plain (c_str s)).
Proof.
  intros (_&_&Hk) Hb Hr.
  split_and!; apply (Hk b root); try done; rewrite !elem_of_cons; tauto.
Qed.

Lemma plain_printed a b : plain (c_str a) → plain (c_str b) →
  plain (c_str (vsnprintf 256 (c_str a ++ c_str b)).1).
Proof. intros. unfold vsnprintf. cbn [fst]. by apply plain_c_str_id, plain_take, plain_append. Qed.

Lemma safe_start uri data body : typed_request uri data body →
  atoms safe (start_record_t answer data body).
Proof.
  intros Hreq. unfold start_record_t, send_reply_t. destruct body as [b|]; [|atoms; auto].
  destruct (reader_parse b) as [root|] eqn:Er; [|atoms; auto].
  destruct (typed_keys root data (Some b) uri b Hreq eq_refl Er)
    as ((src&E1&H1')&(pth&E2&H2')&(sid&E3&H3')&(ty&E4&H4')).
  apply (atoms_string_bind _ _ _ _ E1), (atoms_string_bind _ _ _ _ E2),
    (atoms_string_bind _ _ _ _ E3), (atoms_string_bind _ _ _ _ E4).
  unfold put_data_t. destruct Hreq as (Hroot&Hhost&_). atoms; auto.
  apply safe_push. split.
  - split_and!; cbn; auto using plain_printed.
  - cbn [m3u8_path]. pose proof (length_vsnprintf 256 (c_str (app_root_path data) ++ c_str pth)). lia.
Qed.

Lemma safe_create_request uri data body : typed_request uri data body →
  atoms safe (create_record_t answer data body).
Proof.
  intros Hreq. unfold create_record_t, send_reply_t. destruct body as [b|]; [|atoms; auto].
  destruct (reader_parse b) as [root|] eqn:Er; [|atoms; auto].
  destruct (typed_keys root data (Some b) uri b Hreq eq_refl Er)
    as (_&(pth&E2&H2')&(sid&E3&H3')&_).
  apply (atoms_string_bind _ _ _ _ E2), (atoms_string_bind _ _ _ _ E3).
  apply atoms_bind; [apply safe_create|intros [ret p]; atoms; auto].
  cbn [path]. match goal with |- context [vsnprintf 256 ?x] => pose proof (length_vsnprintf 256 x) end. lia.
Qed.

Lemma safe_kill info w : safe_ok (kill_process_t answer info) w.
Proof.
  unfold kill_process_t.
  eapply ok_bind; [apply _|apply (ok_act _ _ _ _ _ (λ o _, ∀ i, o = Some i → is_Some (pid i))); [done|]|].
  { intros w1 Hw1 _. destruct (get_process_info_typed (sid info) w1 Hw1) as (o&->&Ho). by split_and!. }
  intros [pr|] w1 _ Ho; [|done]. destruct (Ho pr eq_refl) as [z Hz]. rewrite Hz.
  apply atoms_ok. apply atoms_bind; [by apply atoms_act|intros _]. apply atoms_some_bind; [auto|].
  atoms; auto.
Qed.

Lemma safe_stop uri data body w : typed_request uri data body →
  safe_ok (stop_record_t answer data body) w.
Proof.
  intros Hreq. unfold stop_record_t, send_reply_t. destruct body as [b|]; [|apply atoms_ok; atoms; auto].
  destruct (reader_parse b) as [root|] eqn:Er; [|apply atoms_ok; atoms; auto].
  destruct (typed_keys root data (Some b) uri b Hreq eq_refl Er)
    as ((src&E1&_)&_&(sid&E3&_)&_).
  unfold string_of_t, string_of. rewrite E1.
  eapply ok_bind; [apply _|by apply atoms_ok, atoms_act|]. intros src' w1 _ _. rewrite E3.
  eapply ok_bind; [apply _|by apply atoms_ok, atoms_act|]. intros sid' w2 _ _.
  eapply ok_bind; [apply _|apply safe_kill|]. intros ret w3 _ _. apply atoms_ok. atoms; auto.
Qed.

Lemma safe_dispatch uri data body w : typed_request uri data body →
  safe_ok (dispatch_t answer uri data body) w.
Proof.
  intros Hreq. unfold dispatch_t, routes_t. cbn [list_find fst snd].
  repeat (case_decide; cbn [fmap option_fmap option_map prod_map id fst snd]);
    eauto using atoms_ok, safe_start, safe_stop, safe_create_request; done.
Qed.

(** ** Type safety *)

(** No thread is about to crash. *)
Definition can_go {A} (t : T A) (w : world) : Prop :=
  match t with TRet _ => True | TDo m _ => (m w).1 ≠ Crash end.

(** C5. Well-typed threads do not go wrong.  If every document stores a
    process, the queue holds ASCII entries, requests carry the members the
    handlers read and the kernel's pids fit an int, then after any
    interleaving of the threads and their handlers the documents and the queue
    are still of these types, and whatever action comes next, of a task or of
    a handler, it does not throw, read a pid that was never set or overrun the
    path buffer. *)
Theorem threads_typed w s :
  rtc (pstep answer typed_request) (at_rest w) s → typed w →
  typed (mem s) ∧ ∀ i, can_go (task (thread_of s i)) (mem s) ∧
    ∀ h, handler (thread_of s i) = Some h → can_go h (mem s).
Proof.
  intros Hr Hw.
  apply (sys_ok_reachable typed False answer typed_request (λ _, any) (λ _, any)) in Hr.
  - destruct Hr as [Hm Ht]. split; [done|].
    assert (∀ t : T (), safe_ok t (mem s) → can_go t (mem s)) as Hgo.
    { intros [a|B m k] Hok; [done|]. specialize (Hok (mem s) Hm I). simpl.
      by destruct (m (mem s)) as [[b| |] w2]. }
    intros i. destruct (Ht i) as [Hi Hh]. split; [by apply Hgo|].
    intros h E. rewrite E in Hh. by apply Hgo.
  - done.
  - intros i t w1 Hw1 Hst. destruct Hst; [by eapply safe_dispatch|apply safe_turn|apply safe_round].
  - intros i pids w1 _. apply atoms_ok, safe_reap.
  - by apply at_rest_ok.
Qed.
End types.
