(* ===== verification/PidFile.v ===== *)
(** * src/main.cpp: the pid file, which keeps a second instance from running
    and tells [-s] whom to signal.

    Processes that start at the same time take turns between their system
    calls on the one file. *)

From stdpp Require Import relations pretty.
From S2P Require Import Prelude PString PConf MongoAdaptor Startup ProcessManager ProcessThreadsTypes.

Local Open Scope Z_scope.

(** The file: its bytes when it exists, and the process that holds the lock. *)
Record pid_file := mk_pid_file { content : option (list ascii); locked_by : option Z }.

(** Where a process is in [write_pid_to_file]: before [open], before [lockf],
    before [write], returned, or ended. *)
Inductive pc := Opening | Locking | Writing | Returned | Exited.
#[export] Instance pc_eq_dec : EqDecision pc.
Proof. solve_decision. Defined.

(** [write] at the offset 0 of a file that [open] did not truncate. *)
Definition overwrite (text old : list ascii) : list ascii := text ++ drop (length text) old.

(** The text, cut to the buffer. *)
Definition pid_text (pid : Z) : list ascii := (rn_snprintf 64 (dec pid ++ ["010"%char])).1.

(** One system call of [write_pid_to_file] in the process [pid]; [ok] is
    whether [open] and [write] succeed.  [lockf] fails when another process
    holds the lock. *)
Definition write_pid_to_file (pid : Z) (ok : bool) (k : pc) (f : pid_file) : pc * pid_file :=
  match k with
  | Opening =>
      if ok then (Locking, mk_pid_file (Some (default [] (content f))) (locked_by f)) else (Exited, f)
  | Locking =>
      match locked_by f with
      | Some q => if decide (q = pid) then (Writing, f) else (Exited, f)
      | None => (Writing, mk_pid_file (content f) (Some pid))
      end
  | Writing =>
      if ok then (Returned, mk_pid_file (overwrite (pid_text pid) <$> content f) (locked_by f))
      else (Exited, f)
  | Returned | Exited => (k, f)
  end.

(** The kernel drops the lock of a process that ends. *)
Definition leave (pid : Z) (f : pid_file) : pid_file :=
  mk_pid_file (content f) (if decide (locked_by f = Some pid) then None else locked_by f).

Record world := mk_world { file : pid_file; at_pc : gmap Z pc }.

(** A process goes one system call further, is started, or is killed. *)
Inductive step (w : world) : world → Prop :=
  | step_starts pid : 0 < pid < 2 ^ 31 → at_pc w !! pid = None →
      step w (mk_world (file w) (<[pid := Opening]> (at_pc w)))
  | step_call pid k ok k' f' : at_pc w !! pid = Some k →
      write_pid_to_file pid ok k (file w) = (k', f') →
      step w (mk_world (if decide (k' = Exited) then leave pid f' else f') (<[pid := k']> (at_pc w)))
  | step_killed pid k : at_pc w !! pid = Some k →
      step w (mk_world (leave pid (file w)) (<[pid := Exited]> (at_pc w))).

(** ** Numbers in decimal *)

Lemma digit_of_N_char x : (x < 10)%N → is_digit (pretty_N_char x) = true ∧ digit (pretty_N_char x) = Z.of_N x.
Proof.
  intros Hx. assert (x = 0 ∨ x = 1 ∨ x = 2 ∨ x = 3 ∨ x = 4 ∨ x = 5 ∨ x = 6 ∨ x = 7 ∨ x = 8 ∨ x = 9)%N as Hc by lia.
  repeat (destruct Hc as [-> |Hc]; [done|]). by subst.
Qed.

Lemma digits_value_go x : ∀ s r,
  digits_value (bytes (pretty_N_go x s) ++ r) 0 = digits_value (bytes s ++ r) (Z.of_N x).
Proof.
  induction (N.lt_wf_0 x) as [x _ IH]; intros s r.
  assert (x = 0 ∨ 0 < x)%N as [->|Hx] by lia; [by rewrite pretty_N_go_0|].
  rewrite pretty_N_go_step by done. rewrite IH by (by apply N.div_lt).
  change (bytes (String (pretty_N_char (x `mod` 10)) s)) with (pretty_N_char (x `mod` 10) :: bytes s).
  cbn [app digits_value].
  destruct (digit_of_N_char (x `mod` 10)) as [-> ->]; [by apply N.mod_lt|].
  f_equal. rewrite N2Z.inj_div, N2Z.inj_mod. pose proof (Z.div_mod (Z.of_N x) 10). lia.
Qed.

Lemma length_go k : ∀ x s, (x < 10 ^ N.of_nat k)%N →
  (length (bytes (pretty_N_go x s)) ≤ k + length (bytes s))%nat.
Proof.
  induction k as [|k IH]; intros x s Hx.
  - assert (x = 0%N) as -> by (simpl in Hx; lia). by rewrite pretty_N_go_0.
  - assert (x = 0 ∨ 0 < x)%N as [->|Hp] by lia; [rewrite pretty_N_go_0; lia|].
    rewrite pretty_N_go_step by done. etrans; [apply IH|].
    + apply N.Div0.div_lt_upper_bound. rewrite Nat2N.inj_succ, N.pow_succ_r' in Hx. lia.
    + change (bytes (String ?c s)) with (c :: bytes s). simpl. lia.
Qed.

Lemma dec_Zpos p : dec (Zpos p) = bytes (pretty_N_go (Npos p) "").
Proof. done. Qed.

Lemma dec_length z : 0 < z < 2 ^ 31 → (length (dec z) ≤ 10)%nat.
Proof.
  intros Hz. destruct z as [|p|p]; [lia| |lia]. rewrite dec_Zpos.
  etrans; [apply (length_go 10); simpl; lia|]. simpl. lia.
Qed.

(** What [atoi] makes of a pid and what stands behind its newline. *)
Lemma atoi_dec z r : 0 < z < 2 ^ 31 → atoi (dec z ++ "010"%char :: r) = Some z.
Proof.
  intros Hz. destruct z as [|p|p]; [lia| |lia]. unfold atoi.
  assert (digits_value (dec (Zpos p) ++ "010"%char :: r) 0 = Zpos p) as Hv
    by (by rewrite dec_Zpos, digits_value_go).
  destruct (dec (Zpos p)) as [|c s] eqn:Ed; [simpl in Hv; discriminate|].
  assert (is_digit c = true) as Hc.
  { simpl in Hv. destruct (is_digit c) eqn:E; [done|]. discriminate. }
  assert (c ∉ [" "; "009"; "010"; "011"; "012"; "013"; "-"; "+"]%char) as Hn.
  { rewrite !not_elem_of_cons. split_and!; try (intros ->; discriminate). apply not_elem_of_nil. }
  rewrite !not_elem_of_cons in Hn. destruct Hn as (?&?&?&?&?&?&?&?&_).
  cbn [app skip_blanks]. rewrite decide_False by tauto.
  rewrite !decide_False by done. rewrite <- app_comm_cons in Hv. rewrite Hv.
  unfold INT_MAX. by rewrite !(proj2 (Z.leb_le _ _)) by lia.
Qed.

(** ** The file of one process *)

Lemma pid_text_eq z : 0 < z < 2 ^ 31 → pid_text z = dec z ++ ["010"%char].
Proof.
  intros Hz. pose proof (dec_length z Hz) as Hl. unfold pid_text, rn_snprintf, vsnprintf.
  rewrite length_app. simpl length.
  assert (take (Z.to_nat (64 - 1)) (dec z ++ ["010"%char]) = dec z ++ ["010"%char]) as ->
    by (apply take_ge; rewrite length_app; simpl; lia).
  repeat case_match; done.
Qed.

Lemma c_str_app_plain s r : plain s → c_str (s ++ r) = s ++ c_str r.
Proof.
  induction 1 as [|c s [Hc _] _ IH]; [done|]. cbn [app c_str].
  rewrite bool_decide_eq_false_2 by done. by rewrite IH.
Qed.

Lemma length_c_str s : (length (c_str s) ≤ length s)%nat.
Proof. induction s as [|c s IH]; [done|]. cbn [c_str]. case_bool_decide; simpl; lia. Qed.

(** What is read back after [write], whatever a former run left behind. *)
Lemma get_pid_overwrite z old : 0 < z < 2 ^ 31 → (length old < 64)%nat →
  get_pid_from_file (overwrite (pid_text z) old) = Some z ∧
  (length (overwrite (pid_text z) old) < 64)%nat.
Proof.
  intros Hz Ho. rewrite pid_text_eq by done. unfold overwrite.
  set (rest := drop _ old). pose proof (dec_length z Hz) as Hl.
  assert (length ((dec z ++ ["010"%char]) ++ rest) < 64)%nat as Hlen
    by (unfold rest; rewrite !length_app, length_drop, ?length_app; simpl; lia).
  split; [|done]. unfold get_pid_from_file. rewrite take_ge by lia.
  rewrite decide_False.
  2:{ pose proof (length_c_str ((dec z ++ ["010"%char]) ++ rest)). lia. }
  rewrite c_str_app_plain, <- app_assoc; [by apply atoi_dec|].
  apply plain_append; [apply plain_dec|]. by repeat constructor.
Qed.

(** ** One instance *)

Record inv (w : world) : Prop := mk_inv {
  inv_pids p k : at_pc w !! p = Some k → 0 < p < 2 ^ 31;
  inv_lock p : at_pc w !! p = Some Writing ∨ at_pc w !! p = Some Returned →
    locked_by (file w) = Some p;
  inv_open p k : at_pc w !! p = Some k → k = Locking ∨ k = Writing ∨ k = Returned →
    is_Some (content (file w));
  inv_size c : content (file w) = Some c → (length c < 64)%nat;
  inv_text p c : at_pc w !! p = Some Returned → content (file w) = Some c →
    get_pid_from_file c = Some p }.

(** A process that is past [lockf] has the lock to itself. *)
Definition past (k : pc) : Prop := k = Writing ∨ k = Returned.

(** A process that does not hold the lock moves; the file keeps its bytes. *)
Lemma inv_move w p k f : inv w → 0 < p < 2 ^ 31 → ¬ past k → (k = Locking → is_Some (content f)) →
  (∀ c, content f = Some c → content (file w) = Some c ∨ c = []) →
  (content (file w) = content f ∨ content (file w) = None) →
  (∀ q, q ≠ p → locked_by (file w) = Some q → locked_by f = Some q) →
  inv (mk_world f (<[p := k]> (at_pc w))).
Proof.
  intros [Hp Hl Ho Hs Ht] Hr Hk Hop Hc Hc2 Hlk. unfold past in Hk.
  split; simpl.
  - intros q k'. rewrite lookup_insert_Some. intros [[-> _]|[_ Hq]]; [done|by eapply Hp].
  - intros q Hq. rewrite !lookup_insert_Some in Hq.
    destruct (decide (p = q)) as [->|Hne]; [naive_solver|]. apply Hlk; [done|]. apply Hl. naive_solver.
  - intros q k'. rewrite lookup_insert_Some. intros [[-> <-]|[Hne Hq]] Hk'.
    + destruct Hk' as [->|Hk']; [by apply Hop|by destruct Hk].
    + destruct Hc2 as [<-|E]; [by eapply Ho|]. destruct (Ho q k' Hq Hk') as [c E']. congruence.
  - intros c E. destruct (Hc c E) as [E2| ->]; [by apply Hs|simpl; lia].
  - intros q c. rewrite lookup_insert_Some. intros [[-> E]|[Hne Hq]] Hcq; [subst; tauto|].
    destruct Hc2 as [E|E]; [apply Ht; [done|congruence]|].
    destruct (Ho q Returned Hq ltac:(tauto)) as [c' E']. congruence.
Qed.

(** A process that ends gives up the lock if it was its own. *)
Lemma inv_exit w p f : inv w → 0 < p < 2 ^ 31 → content f = content (file w) →
  locked_by f = locked_by (file w) → inv (mk_world (leave p f) (<[p := Exited]> (at_pc w))).
Proof.
  intros Hi Hr Hc Hl. apply inv_move; simpl; [done|done|by intros [|]|done| |by left; congruence|].
  - intros c E. left. congruence.
  - intros q Hq E. rewrite Hl, E, decide_False by congruence. done.
Qed.

(** The holder of the lock moves on. *)
Lemma inv_hold w p k f : inv w → 0 < p < 2 ^ 31 → past k → locked_by f = Some p →
  (locked_by (file w) = None ∨ locked_by (file w) = Some p) →
  (∃ c, content f = Some c ∧ (length c < 64)%nat ∧
    (k = Returned → get_pid_from_file c = Some p)) →
  inv (mk_world f (<[p := k]> (at_pc w))).
Proof.
  intros [Hp Hl Ho Hs Ht] Hr Hk Hlf Hlw (c&Ec&Hlen&Hret).
  assert (∀ q, q ≠ p → ¬ past (default Exited (at_pc w !! q))) as Hno.
  { intros q Hq Hpq. destruct (at_pc w !! q) as [k'|] eqn:E; simpl in Hpq; [|by destruct Hpq].
    assert (locked_by (file w) = Some q) by (apply Hl; destruct Hpq as [-> | ->]; auto).
    destruct Hlw; congruence. }
  split; simpl.
  - intros q k'. rewrite lookup_insert_Some. intros [[-> _]|[_ Hq]]; [done|by eapply Hp].
  - intros q Hq. destruct (decide (p = q)) as [->|Hne]; [done|].
    rewrite !lookup_insert_ne in Hq by done. destruct (Hno q); [done|].
    destruct Hq as [-> | ->]; [by left|by right].
  - by rewrite Ec.
  - congruence.
  - intros q c'. rewrite lookup_insert_Some. intros [[-> ->]|[Hne Hq]] E.
    + rewrite Ec in E. injection E as <-. by apply Hret.
    + destruct (Hno q); [done|]. rewrite Hq. by right.
Qed.

Lemma pid_inv_step w w' : step w w' → inv w → inv w'.
Proof.
  intros [pid Hr Hnew|pid k ok k' f' Hk Hs|pid k Hk] Hi.
  - apply inv_move; try done; [by intros [|]|by left|by left].
  - pose proof (inv_pids w Hi _ _ Hk) as Hr. destruct k; simpl in Hs.
    + destruct ok; injection Hs as <- <-; simpl.
      * apply inv_move; simpl; try done; [by intros [|]| |].
        -- intros c [= <-]. destruct (content (file w)); [by left|by right].
        -- destruct (content (file w)); [by left|by right].
      * by apply inv_exit.
    + destruct (inv_open w Hi _ _ Hk) as [c Hc]; [tauto|].
      destruct (locked_by (file w)) as [q|] eqn:Eq.
      * destruct (decide (q = pid)) as [->|Hne]; injection Hs as <- <-; simpl; [|by apply inv_exit].
        apply inv_hold; try done; [by left|by right|]. exists c. split; [done|].
        split; [by apply (inv_size w Hi)|done].
      * injection Hs as <- <-. simpl. apply inv_hold; try done; [by left|by left|].
        exists c. split; [done|]. split; [by apply (inv_size w Hi)|done].
    + destruct (inv_open w Hi _ _ Hk) as [c Hc]; [tauto|].
      pose proof (inv_lock w Hi pid ltac:(by left)) as Hl.
      destruct ok; injection Hs as <- <-; simpl; [|by apply inv_exit].
      destruct (get_pid_overwrite pid c Hr (inv_size w Hi c Hc)) as [Hg Hlen].
      apply inv_hold; simpl; try done; [by right|by right|]. rewrite Hc. eauto.
    + injection Hs as <- <-. simpl. rewrite insert_id by done. by destruct w.
    + injection Hs as <- <-. simpl. by apply inv_exit.
  - apply inv_exit; try done. by eapply inv_pids.
Qed.

(** One instance: however processes that start, fail and are killed take turns
    between their system calls, [write_pid_to_file] has returned in at most
    one that has not ended, and [get_pid_from_file] reads its pid, also when
    the file was there before with a longer number in it. *)
Theorem single_instance w w' :
  rtc step w w' → at_pc w = ∅ → locked_by (file w) = None →
  (∀ c, content (file w) = Some c → (length c < 64)%nat) →
  (∀ p q, at_pc w' !! p = Some Returned → at_pc w' !! q = Some Returned → p = q) ∧
  ∀ p, at_pc w' !! p = Some Returned →
    ∃ c, content (file w') = Some c ∧ get_pid_from_file c = Some p.
Proof.
  intros Hr He Hl Hc. assert (inv w) as Hi.
  { split; intros p; rewrite ?He, ?lookup_empty; naive_solver. }
  assert (inv w') as Hi' by (clear -Hr Hi; induction Hr; eauto using pid_inv_step).
  split.
  - intros p q Hp Hq. pose proof (inv_lock w' Hi' p ltac:(by right)).
    pose proof (inv_lock w' Hi' q ltac:(by right)). congruence.
  - intros p Hp. destruct (inv_open w' Hi' p Returned Hp ltac:(tauto)) as [c E].
    exists c. split; [done|]. by apply (inv_text w' Hi').
Qed.

(** Process 7 has found the file of a former process 12345. *)
Definition after_start : world :=
  mk_world (mk_pid_file (Some (bytes "7" ++ ["010"%char] ++ bytes "345" ++ ["010"%char])) (Some 7))
    {[7 := Returned]}.

Lemma single_instance_witness :
  (∀ p q, at_pc after_start !! p = Some Returned → at_pc after_start !! q = Some Returned → p = q) ∧
  ∀ p, at_pc after_start !! p = Some Returned →
    ∃ c, content (file after_start) = Some c ∧ get_pid_from_file c = Some p.
Proof.
  apply (single_instance (mk_world (mk_pid_file (Some (bytes "12345" ++ ["010"%char])) None) ∅) after_start).
  - eapply rtc_l; [by apply (step_starts _ 7)|].
    eapply rtc_l; [by apply (step_call _ 7 Opening true)|].
    eapply rtc_l; [by apply (step_call _ 7 Locking true)|].
    eapply rtc_l; [by apply (step_call _ 7 Writing true)|].
    vm_compute. apply rtc_refl.
  - done.
  - done.
  - intros c [= <-]. simpl. lia.
Defined.
