(* ===== verification/MongoInstance.v ===== *)
(** * A concrete database and JSON codec that satisfy the laws the process
    manager's theorems assume: the witnesses are evaluated on it. *)

From S2P Require Import Prelude PString PConf MongoAdaptor ProcessManager ProcessProofs.

Local Open Scope Z_scope.

(** ** A codec *)

Fixpoint enc_str (s : list ascii) : list ascii :=
  match s with [] => ["e"%char] | c :: s' => "x"%char :: c :: enc_str s' end.
Fixpoint dec_str (s : list ascii) : option (list ascii * list ascii) :=
  match s with
  | k :: s1 =>
      if decide (k = "e"%char) then Some ([], s1)
      else match s1 with
           | c :: s2 => '(t, r) ← dec_str s2; Some (c :: t, r)
           | [] => None
           end
  | [] => None
  end.

Fixpoint enc_pos (p : positive) : list ascii :=
  match p with xH => ["e"%char] | xO q => "0"%char :: enc_pos q | xI q => "1"%char :: enc_pos q end.
Fixpoint dec_pos (s : list ascii) : option (positive * list ascii) :=
  match s with
  | k :: s1 =>
      if decide (k = "e"%char) then Some (xH, s1)
      else '(p, r) ← dec_pos s1; Some (if decide (k = "0"%char) then xO p else xI p, r)
  | [] => None
  end.

Definition enc_z (z : Z) : list ascii :=
  match z with Z0 => ["z"%char] | Zpos p => "p"%char :: enc_pos p | Zneg p => "n"%char :: enc_pos p end.
Definition dec_z (s : list ascii) : option (Z * list ascii) :=
  match s with
  | k :: s1 =>
      if decide (k = "z"%char) then Some (0, s1)
      else '(p, r) ← dec_pos s1; Some (if decide (k = "p"%char) then Zpos p else Zneg p, r)
  | [] => None
  end.

Definition enc_val (v : bval) : list ascii :=
  match v with
  | BUtf8 s => "S"%char :: enc_str s
  | BInt32 z => "I"%char :: enc_z z
  | BOid z => "O"%char :: enc_z z
  | BDoc _ => ["D"%char]
  end.
Definition dec_val (s : list ascii) : option (bval * list ascii) :=
  match s with
  | k :: s1 =>
      if decide (k = "S"%char) then '(t, r) ← dec_str s1; Some (BUtf8 t, r)
      else if decide (k = "I"%char) then '(z, r) ← dec_z s1; Some (BInt32 z, r)
      else if decide (k = "O"%char) then '(z, r) ← dec_z s1; Some (BOid z, r)
      else None
  | [] => None
  end.

Definition enc_doc (d : doc) : list ascii := concat ((λ e, enc_str e.1 ++ enc_val e.2) <$> d).
Fixpoint dec_doc (fuel : nat) (s : list ascii) : option doc :=
  match fuel, s with
  | _, [] => Some []
  | O, _ => None
  | S fuel', _ =>
      '(k, s1) ← dec_str s;
      '(v, s2) ← dec_val s1;
      d ← dec_doc fuel' s2;
      Some ((k, v) :: d)
  end.

Lemma dec_enc_str s r : dec_str (enc_str s ++ r) = Some (s, r).
Proof. induction s as [|c s IH]; [done|]. simpl. by rewrite IH. Qed.
Lemma dec_enc_pos p r : dec_pos (enc_pos p ++ r) = Some (p, r).
Proof. induction p as [p IH|p IH|]; simpl; by rewrite ?IH. Qed.
Lemma dec_enc_z z r : dec_z (enc_z z ++ r) = Some (z, r).
Proof. destruct z; simpl; by rewrite ?dec_enc_pos. Qed.
Lemma dec_enc_val v r : (∀ d, v ≠ BDoc d) → dec_val (enc_val v ++ r) = Some (v, r).
Proof.
  intros Hd. destruct v as [s|z|d|z]; simpl; rewrite ?dec_enc_str, ?dec_enc_z; try done.
  by destruct (Hd d).
Qed.

Lemma length_enc_str s : (0 < length (enc_str s))%nat.
Proof. destruct s; simpl; lia. Qed.

Lemma dec_enc_doc d : ∀ fuel, Forall plain_field d → (length d ≤ fuel)%nat →
  dec_doc fuel (enc_doc d) = Some d.
Proof.
  induction d as [|[k v] d IH]; intros fuel Hp Hf; [by destruct fuel|].
  apply Forall_cons_1 in Hp as [[_ Hv] Hp]. destruct fuel as [|fuel]; simpl in Hf; [lia|].
  unfold enc_doc. rewrite fmap_cons. cbn [concat fst snd]. fold (enc_doc d).
  rewrite <- app_assoc.
  assert (∃ c s, enc_str k ++ enc_val v ++ enc_doc d = c :: s) as (c&s&Es).
  { destruct k; simpl; eauto. }
  cbn [dec_doc]. rewrite Es, <- Es, dec_enc_str. simpl.
  rewrite dec_enc_val by (intros d' ->; done). simpl. rewrite IH by (done || lia). done.
Qed.

Lemma length_enc_doc d : (length d ≤ length (enc_doc d))%nat.
Proof.
  induction d as [|[k v] d IH]; [done|]. unfold enc_doc in *. rewrite fmap_cons.
  cbn [concat fst snd length]. rewrite !length_app. pose proof (length_enc_str k). lia.
Qed.

Lemma plain_app s t : plain s → plain t → plain (s ++ t).
Proof. intros. by apply Forall_app. Qed.

Lemma plain_enc_str s : plain s → plain (enc_str s).
Proof.
  induction 1 as [|c s Hc _ IH]; simpl; (constructor; [done|]); [constructor|].
  by constructor.
Qed.
Lemma plain_enc_pos p : plain (enc_pos p).
Proof. induction p; simpl; (constructor; [done|]); [done|done|constructor]. Qed.
Lemma plain_enc_z z : plain (enc_z z).
Proof. destruct z; simpl; (constructor; [done|]); [constructor|apply plain_enc_pos..]. Qed.
Lemma plain_enc_doc d : Forall plain_field d → plain (enc_doc d).
Proof.
  induction 1 as [|[k v] d [Hk Hv] _ IH]; [constructor|].
  unfold enc_doc. rewrite fmap_cons. cbn [concat fst snd]. apply plain_app; [|done].
  apply plain_app; [by apply plain_enc_str|].
  destruct v as [s|z|?|z]; [|..|done|]; simpl; (constructor; [done|]);
    [by apply plain_enc_str|apply plain_enc_z..].
Qed.

Lemma c_str_plain s : plain s → c_str s = s.
Proof.
  induction 1 as [|c s [Hc _] _ IH]; [done|]. cbn [c_str].
  rewrite bool_decide_eq_false_2 by done. by rewrite IH.
Qed.

(** ** Instances *)

#[export] Instance list_bson : Bson := {|
  bson_t := doc;
  bson_new := [];
  BSON_APPEND_UTF8 d k s := d ++ [(k, BUtf8 s)];
  BSON_APPEND_INT32 d k z := d ++ [(k, BInt32 z)];
  bson_append_document d k e := d ++ [(k, BDoc e)];
  bson_as_json := enc_doc |}.

(** One table; the server accepts everything. *)
#[export] Instance list_mongo : Mongo := {|
  client := ();
  coll := ();
  server := list doc;
  mongoc_client_new _ := Some ();
  mongoc_client_get_collection _ _ _ := ();
  mongoc_collection_insert _ d s :=
    (true, s ++ [(bytes "_id", BOid (Z.of_nat (length s))) :: d]);
  mongoc_collection_update _ q u s := (true, alter_first (matches q) (apply_update u) s);
  mongoc_collection_find _ q s := filter (λ d, matches q d = true) s;
  mongoc_collection_remove _ q s := (true, remove_first (matches q) s) |}.

#[export] Instance list_jsoncpp : Jsoncpp := {|
  jvalue := bval;
  reader_parse s := BDoc <$> dec_doc (length s) s;
  member v k := match v with BDoc d => field d k | _ => None end;
  asString v := match v with BUtf8 s => Some s | _ => None end;
  asInt v := match v with BInt32 z => Some z | _ => None end |}.

#[export] Instance list_mongo_laws : MongoLaws.
Proof.
  refine {| fields := λ d : @bson_t list_bson, d; contents := λ s (_ : @coll _ list_mongo), s |};
    try done.
  - intros c q s. apply list_fmap_id.
  - intros c d s s' [= <-]. by eexists.
  - intros c q u s s' [= <-]. done.
  - intros c q s s' [= <-]. done.
Defined.

#[export] Instance list_json_laws : JsonLaws.
Proof.
  refine {| json_law := _ |}. intros d Hd. simpl. change (fields d) with d in *.
  exists (BDoc d). rewrite c_str_plain by (by apply plain_enc_doc).
  rewrite dec_enc_doc by (done || apply length_enc_doc). split; [done|].
  split; intros k x Hx; simpl; by rewrite Hx.
Defined.
