(* ===== verification/ProcessWitnesses.v ===== *)
(** * src/app: the process manager's theorems at concrete inputs, on the
    database and codec of MongoInstance. *)

From S2P Require Import Prelude PString PConf MongoAdaptor ProcessManager RecordControl.
From S2P Require Import ProcessProofs ProcessTheorems MongoInstance.
From S2P Require Import ProcessThreads ProcessThreadsProofs ProcessThreadsTheorems ProcessRaces ProcessThreadsTypes.

Local Open Scope Z_scope.

(** The recorder is process 100; children get 201; files can be made. *)
Definition ans (n : nat) (c : syscall) : Z :=
  match c with
  | Fork => 201
  | Getpid => 100
  | Time => 1500000000
  | Open _ => 7
  | Opendir _ => 1
  | Kill 150 0 => -1
  | _ => 0
  end.

Definition cam (p pp : Z) : process_info :=
  mk_process_info (bytes "cam1") (Some p) (Some pp) (bytes "rtmp://h/cam1") (bytes "/r/a.m3u8")
    (bytes "hls") (bytes "active") (bytes "h").
Definition cam_doc (p pp : Z) : doc :=
  (bytes "_id", BOid 0) :: process_document (cam p pp) p pp.

Lemma cam_plain p pp : plain_info (cam p pp).
Proof. repeat split; cbn; plain_const. Qed.

Lemma cam_describes p pp : int32 p → int32 pp → describes (cam_doc p pp) (cam p pp).
Proof.
  intros Hp Hpp.
  change (describes ([(bytes "_id", BOid 0)] ++ fields (process_document (cam p pp) p pp))
    (stored (cam p pp) p pp)).
  apply describes_document; [apply cam_plain|done|done|eauto].
Qed.

Definition world_with (t : list doc) (q : list process_info) : world :=
  mk_world (t : @server _ list_mongo) q true (bytes "mongodb://localhost:27017") 0 [].

Definition app : app_data := mk_app_data (bytes "h") (bytes "8080") (bytes "/r").
Definition request : list ascii := enc_doc
  [(bytes "src", BUtf8 (bytes "rtmp://h/cam1")); (bytes "path", BUtf8 (bytes "/a/"));
   (bytes "streamcode", BUtf8 (bytes "cam1")); (bytes "type", BUtf8 (bytes "hls"))].
Definition request_root : jvalue := BDoc
  [(bytes "src", BUtf8 (bytes "rtmp://h/cam1")); (bytes "path", BUtf8 (bytes "/a/"));
   (bytes "streamcode", BUtf8 (bytes "cam1")); (bytes "type", BUtf8 (bytes "hls"))].

Lemma cam_alone p pp q : holds_alone (world_with [cam_doc p pp] q) (bytes "cam1") p [] (cam_doc p pp) [].
Proof.
  split; [done|]. split; [done|]. split; [done|]. intros d Hd. by apply not_elem_of_nil in Hd.
Qed.

Lemma process_roundtrip_witness :
  parser (c_str (bson_as_json (process_document (cam 201 100) 201 100))) empty_process_info
  = (REC_ERROR_OK, cam 201 100).
Proof.
  apply (process_roundtrip (cam 201 100) 201 100 empty_process_info);
    [apply cam_plain|done|done].
Defined.

(** A start request and the queue turn that serves it. *)
Definition started : world :=
  (process_queue_step ans (dispatch ans (bytes "/api/r3/start") app (Some request) (world_with [] [])).2).2.

Lemma started_steps : rtc (step ans) (world_with [] []) started.
Proof.
  eapply rtc_l; [eapply (step_http _ _ _ (bytes "/api/r3/start") app (Some request)); vm_compute; reflexivity|].
  eapply rtc_l; [eapply step_queue; vm_compute; reflexivity|]. vm_compute. apply rtc_refl.
Qed.

Lemma unique_streams_reachable_witness : NoDup (streams (table started)).
Proof.
  apply (unique_streams_reachable ans (world_with [] [])).
  - apply started_steps.
  - apply NoDup_nil_2.
Defined.

Lemma stop_no_respawn_witness :
  ∃ w1 a, dispatch ans (bytes "/api/r3/stop") app (Some request) (world_with [cam_doc 201 100] []) = (Ok (), w1) ∧
    trace w1 = trace (world_with [cam_doc 201 100] []) ++
      [Db DbRemove true; Sys (Kill 201 SIGINT) a; SendReply reply_ok] ∧
    table w1 = [] ++ [] ∧ queue w1 = queue (world_with [cam_doc 201 100] []) ∧
    sig_reap_chld ans [201] w1 = (Ok (), w1).
Proof.
  apply (stop_no_respawn ans app request request_root (bytes "rtmp://h/cam1") (bytes "cam1")
    (world_with [cam_doc 201 100] []) 201 [] (cam_doc 201 100) [] (cam 201 100)); try done.
  - apply cam_alone.
  - by apply cam_describes.
Defined.

Lemma sigchld_restarts_witness :
  ∃ w' d', sig_reap_chld ans [150] (world_with [cam_doc 150 100] []) = (Ok (), w') ∧
    trace w' = trace (world_with [cam_doc 150 100] []) ++ [Sys Fork 201; Db DbUpdate true] ∧
    table w' = [] ++ d' :: [] ∧ repid 201 (cam_doc 150 100) d'.
Proof.
  apply (sigchld_restarts ans (world_with [cam_doc 150 100] []) (bytes "cam1") 150 []
    (cam_doc 150 100) [] (cam 150 100) 201); [apply cam_alone|by apply cam_describes|done..].
Defined.

Lemma monitor_spares_witness :
  ∃ w' r es, orphan_process_sync ans (world_with [cam_doc 201 99] []) = (Ok r, w') ∧
    trace w' = trace (world_with [cam_doc 201 99] []) ++ Sys Getpid 100 :: es ∧
    table w' = table (world_with [cam_doc 201 99] []) ∧
    queue w' = queue (world_with [cam_doc 201 99] []) ∧
    Forall2 (λ i e, ∃ p, pid i = Some p ∧ e = Sys (Kill p 0) 0) [cam 201 99] es.
Proof.
  apply (monitor_spares ans (world_with [cam_doc 201 99] []) 100 [cam 201 99]); [done|..].
  - vm_compute filter. constructor; [by apply cam_describes|constructor].
  - constructor; [|constructor]. by exists 201.
Defined.

Lemma monitor_restarts_witness :
  ∃ w' r d', orphan_process_sync ans (world_with [cam_doc 150 99] []) = (Ok r, w') ∧
    trace w' = trace (world_with [cam_doc 150 99] []) ++
      [Sys Getpid 100; Sys (Kill 150 0) (-1); Sys Fork 201; Db DbUpdate true] ∧
    table w' = [] ++ d' :: [] ∧ repid 201 (cam_doc 150 99) d'.
Proof.
  apply (monitor_restarts ans (world_with [cam_doc 150 99] []) 100 [] (cam_doc 150 99) []
    (bytes "cam1") 150 (cam 150 99) 201 (-1)); try done.
  - apply cam_alone.
  - by apply cam_describes.
  - intros d Hd. by apply not_elem_of_nil in Hd.
Defined.

Lemma multi_mkdir_spec_witness :
  ∃ vs w', multi_mkdir ans (bytes "/r/a") (world_with [] []) = (Ok (), w') ∧
    srv w' = [] ∧ queue w' = [] ∧ vs.*1 = [[]; bytes "/r"; bytes "/r/a"] ∧
    trace w' = [] ++ concat (probe_events <$> vs).
Proof. apply (multi_mkdir_spec ans (bytes "/r/a") (world_with [] [])). vm_compute. lia. Defined.

Lemma spawn_process_spec_witness :
  spawn_process ans (cam 0 0) (world_with [cam_doc 201 100] [])
  = (Ok (REC_ERROR_STREAM_EXIST, cam 0 0), world_with [cam_doc 201 100] []).
Proof.
  apply (spawn_process_spec ans (cam 0 0) (world_with [cam_doc 201 100] [])).
  - vm_compute. lia.
  - by apply (bool_decide_unpack _).
Defined.

Lemma duplicate_start_witness :
  ∃ w1 w2 a b, dispatch ans (bytes "/api/r3/start") app (Some request)
      (world_with [cam_doc 201 100] []) = (Ok (), w1) ∧
    trace w1 = trace (world_with [cam_doc 201 100] []) ++ [Sys MutexLock a; Sys MutexUnlock b; SendReply reply_ok] ∧
    process_queue_step ans w1 = (Ok true, w2) ∧
    trace w2 = trace w1 ∧
    table w2 = table (world_with [cam_doc 201 100] []) ∧ queue w2 = [].
Proof.
  apply (duplicate_start ans app request request_root (bytes "rtmp://h/cam1") (bytes "/a/")
    (bytes "cam1") (bytes "hls") (world_with [cam_doc 201 100] [])); try done.
  by apply (bool_decide_unpack _).
Defined.

Lemma queue_fifo_witness :
  [] ++ puts [Put (cam 0 0); Turn] = [cam 0 0] ++ [].
Proof.
  apply (queue_fifo ans [Put (cam 0 0); Turn] (world_with [] []) [cam 0 0]
    (run_queue ans [Put (cam 0 0); Turn] (world_with [] [])).2).
  by vm_compute.
Defined.

Lemma one_reply_each_witness :
  ∃ r, replies (dispatch ans (bytes "/api/r3/start") app (Some request) (world_with [] [])).2
    = replies (world_with [] []) ++ [r].
Proof.
  apply (one_reply_each ans (bytes "/api/r3/start") app (Some request) (world_with [] [])
    (dispatch ans (bytes "/api/r3/start") app (Some request) (world_with [] [])).2).
  - by vm_compute.
  - apply list_elem_of_here.
Defined.

(** ** Threads *)

Lemma threads_refine_witness :
  rtc (pstep ans (λ _ _ _, True)) (at_rest (world_with [] [])) (at_rest started).
Proof. apply (threads_refine ans (world_with [] []) started). apply started_steps. Defined.

Lemma started_threads :
  rtc (pstep ans (λ _ _ _, True)) (at_rest (world_with [] [])) (at_rest started).
Proof.
  destruct started_steps as [w|w1 w2 w3 Hs Hr]; [apply rtc_refl|].
  etrans; [by apply step_threads|]. clear Hs.
  induction Hr as [w|w1' w2 w3 Hs _ IH]; [apply rtc_refl|]. etrans; [by apply step_threads|done].
Qed.

Lemma threads_unique_witness : NoDup (streams (table (mem (at_rest started)))).
Proof.
  apply (threads_unique ans (λ _ _ _, True) (world_with [] [])).
  - apply started_threads.
  - apply NoDup_nil_2.
Defined.

Lemma stop_races_restart_witness :
  ∃ w' a ok, rtc (pstep ans (λ _ _ _, True)) (at_rest (world_with [cam_doc 150 100] [])) (at_rest w') ∧
    trace w' = trace (world_with [cam_doc 150 100] []) ++
      [Db DbRemove true; Sys (Kill 150 SIGINT) a; SendReply reply_ok; Sys Fork 201; Db DbUpdate ok] ∧
    table w' = [] ++ [] ∧ ∀ d', d' ∈ table w' → ¬ of_stream (c_str (bytes "cam1")) d'.
Proof.
  apply (stop_races_restart ans (λ _ _ _, True) app request request_root (bytes "rtmp://h/cam1")
    (bytes "cam1") (world_with [cam_doc 150 100] []) 150 [] (cam_doc 150 100) [] (cam 150 100) 201); try done.
  - apply cam_alone.
  - by apply cam_describes.
Defined.

(** The playlist the queue thread makes for the entry. *)
Definition cam_made : result (Z * m3u8_param) * world :=
  create_m3u8 ans (mk_m3u8_param (m3u8_path (cam 0 0)) (sid (cam 0 0)) []) (world_with [] [cam 0 0]).
Definition cam_m3u8 : m3u8_param :=
  match cam_made.1 with Ok (_, m) => m | _ => mk_m3u8_param [] [] [] end.

Lemma early_death_lost_witness : ∃ s1 s2 w' id,
  rtc (pstep ans (λ _ _ _, True)) (at_rest (world_with [] [cam 0 0])) s1 ∧
  trace (mem s1) = trace cam_made.2 ++ [Sys Fork 201] ∧
  s2 = set_proc Queue (mk_thread (task (queue_thread s1)) (Some (sig_reap_chld_t ans [201]))) (mem s1) s1 ∧
  pstep ans (λ _ _ _, True) s1 s2 ∧ rtc (pstep ans (λ _ _ _, True)) s2 (at_rest w') ∧
  trace w' = trace (mem s1) ++ [Sys Getpid 100; Db DbInsert true] ∧
  table w' = table (world_with [] [cam 0 0]) ++ [new_document id (cam 0 0) cam_m3u8 201 100] ∧ queue w' = [] ∧
  ∀ w2, table w2 = table w' → ans (clock w2) Getpid = 100 →
    ∃ r w3, orphan_process_sync ans w2 = (Ok r, w3) ∧
      trace w3 = trace w2 ++ [Sys Getpid 100] ∧ table w3 = table w2.
Proof.
  apply (early_death_lost ans (λ _ _ _, True) (cam 0 0) [] (world_with [] [cam 0 0]) cam_made.2
    cam_m3u8 201 100).
  - done.
  - vm_compute. lia.
  - apply not_elem_of_nil.
  - by vm_compute.
  - done.
  - done.
  - intros d Hd. by apply not_elem_of_nil in Hd.
  - done.
  - done.
  - intros d Hd. by apply not_elem_of_nil in Hd.
Defined.

Lemma request_typed : typed_request (bytes "/api/r3/start") app (Some request).
Proof.
  split; [plain_const|]. split; [plain_const|]. intros b root k [= <-] Hr Hk.
  assert (root = request_root) as -> by (vm_compute in Hr |- *; congruence).
  repeat (apply elem_of_cons in Hk as [-> |Hk]); [..|by apply not_elem_of_nil in Hk];
    eexists; (split; [by vm_compute|plain_const]).
Qed.

Lemma ans_fork n : int32 (ans n Fork).
Proof. done. Qed.
Lemma ans_getpid n : int32 (ans n Getpid).
Proof. done. Qed.

(** The HTTP thread has begun to serve the request. *)
Definition serving : proc :=
  set_proc Http (mk_thread (dispatch_t ans (bytes "/api/r3/start") app (Some request)) None)
    (world_with [cam_doc 201 100] [cam 0 0]) (at_rest (world_with [cam_doc 201 100] [cam 0 0])).

Lemma threads_typed_witness :
  typed (mem serving) ∧ ∀ i, can_go (task (thread_of serving i)) (mem serving) ∧
    ∀ h, handler (thread_of serving i) = Some h → can_go h (mem serving).
Proof.
  apply (threads_typed ans ans_fork ans_getpid
    (world_with [cam_doc 201 100] [cam 0 0]) serving).
  - apply rtc_once, (pstep_start _ _ (at_rest _) Http); [done|]. constructor. apply request_typed.
  - split; (constructor; [|constructor]).
    + exists (cam 201 100). by apply cam_describes.
    + split; [apply cam_plain|]. vm_compute. lia.
Defined.
